(* ===== verification/_CoqProject ===== *)
-Q . S2P
Prelude.v
Collections.v
Text.v
Types.v
Routing.v
Expiry.v
Readiness.v
Operations.v
OperationRuns.v
Metadata.v
Diagnostics.v
Publications.v
PublicationRuns.v
Schema.v
SchemaCodec.v
SchemaTypes.v
SchemaRegistry.v
Activity.v
WorldState.v
Admission.v
Publishing.v
Actors.v
Messaging.v
Components.v
Views.v
Steps.v
WorldFrames.v
WorldSteps.v
ActorSteps.v
WorldClock.v
MessageSteps.v
WorldRuns.v
WorldSlots.v
Mailboxes.v
Budget.v
Lifecycles.v
Handles.v
HandleRuns.v
Leases.v
Stops.v
Deliveries.v
Submissions.v
Framing.v
NativeConfig.v
NativeState.v
Native.v
NativeResults.v
NativeLogic.v
Cpu.v
Tasks.v
Sdk.v
Executor.v
NativeRules.v
SdkLogic.v
SdkResults.v
Computation.v
Builtin.v
Controls.v
Pipeline.v
TcpFrames.v
Tcp.v
TcpLogic.v
TcpResults.v
NativeRuns.v
TcpRuns.v
Virtual.v
VirtualRuns.v
VirtualWaits.v
PyObjects.v
PySchemas.v
PyEnvelopes.v
PyValues.v
PyReports.v
PyWorld.v
PyRuntime.v
Custody.v
PyClaims.v
PyCustody.v
