(* ===== verification/Prelude.v ===== *)
(** * Actorplane: the runtime core and the native runtime, modelled and verified

    The library models [src/crates/runtime-core], the event runtime below Actorplane's
    Rust and Python interfaces, [src/crates/runtime-native], the threads, tasks,
    components and sockets around it, and [src/crates/runtime-python], the boundary with
    Python, and proves what their users rely on.  A World is a tree of actors with
    bounded mailboxes.  Native threads and the Python driver call
    its methods; each method takes the state lock, and the library models a method as a
    function on the state it protects.

    ** The core and its model

    [lib.rs] keeps everything of a World in one [Inner]: configuration, counters,
    and a [State] behind a mutex.  Here it is the record [World] (WorldState), with
    one field per field of [Inner] and [State], and, because Rust's ownership is part
    of the behaviour, the handles the callers hold: delivery leases, task, callback
    and failure leases, buffer permits, payload handles and publication tickets.

    - Prelude: outcomes, the state-and-error monad, machine integers, automation.
      Collections: [BTreeSet], [BTreeMap], index and counter maps.  Text: UTF-8.
    - Types: the data of [lib.rs], [components.rs], [envelope.rs], [failures.rs].
    - Routing ([routing.rs]), Expiry ([expiry.rs]), Readiness ([readiness.rs]),
      Operations and OperationRuns ([operations.rs]), Publications and
      PublicationRuns ([publications.rs]), Activity ([activity.rs]), Diagnostics
      ([diagnostics.rs], [clock.rs]), Metadata ([envelope.rs], [failures.rs]), Schema,
      SchemaCodec, SchemaTypes and SchemaRegistry ([schema.rs], [schema/encode.rs]):
      the components of the state, each with its operations and its own theorems.
    - WorldState, Admission, Publishing, Actors, Messaging, Components, Views: the
      methods of [World] in [lib.rs], [activity_dependencies.rs],
      [envelope_runtime.rs], [publications.rs], [shutdown.rs], [services.rs],
      [components.rs], [supervision.rs], [callbacks.rs], [buffers.rs],
      [readiness.rs] and [activity.rs].
    - Steps, WorldFrames, WorldSteps, ActorSteps, MessageSteps: what the methods do
      to the actor slots, the reachable payloads and the counters, proved once
      against the class [Accounting].
    - WorldRuns: calls, runs, and the Worlds a program can reach.
    - WorldSlots, Mailboxes, Budget, Lifecycles: the invariants of every reachable
      World, each an instance of [Accounting].  Handles, HandleRuns: the handles of
      the callers against the records of the actors.  Leases: which leases a call takes
      and ends.  Stops, Deliveries, Submissions: what [stop], [claim] and [send], and the
      submission of a publication, promise.

    ** The native runtime and its model

    A thread or a Tokio task is a program of atomic actions ([prog], Native): critical
    sections on what is behind locks ([Shared], NativeState: the World, statistics,
    channels, flags), the atomic counters, semaphores, buffer budgets, and the clock.
    [rt_step] lets the threads of a machine act in any order, action by action; a panic
    inside the World's lock poisons it ([sh_poisoned]), its thread stops and so does
    whoever locks the World later ([locked], [HPoisoned]), a panic elsewhere ([HPanic]) and the drop of a future at an [await] ([HDrop]) unwind and run
    the destructors in scope ([unwinding], [finally]), which the source leaves to [Drop].
    A behaviour outside the crate is a client of the classes [NativeBehavior] and
    [BehaviorCode]: any code of theirs made of calls of the crate and of the World.
    Where the source leaves the choice open, so does the model: a [select!] takes any
    branch that may be ready ([Choose]), unless it is biased, an interval may tick at any
    poll, a semaphore may serve any waiter, an [await] may be dropped.  Whether a runtime
    was closed, which its owner knows, is the argument [opened].

    - NativeConfig ([sdk_config.rs]), NativeState, Native: configuration, state,
      actions, programs, machines and their schedules.
    - NativeLogic, NativeRules: what a thread owns, as tokens: permits, counted jobs,
      charged bytes ([wp]); in every interleaving the counters, semaphores and budgets
      are what the threads own ([accounted_reachable]).  NativeResults: programs that
      end, whatever the others do between their actions ([total], [ends_as]).
    - Cpu ([cpu.rs]), Tasks ([tasks.rs]), Sdk and Executor ([sdk.rs]), Computation
      ([computation.rs]), Builtin ([components.rs]), Controls ([controls.rs]), Pipeline
      ([lib.rs]); SdkLogic and SdkResults hold their lemmas.
    - Framing ([io/framing.rs]): frames on a byte stream, with their buffers charged to
      a budget and to a World, one reader at a time.  TcpFrames ([io/mod.rs]): frames as
      events.  Tcp ([io/transport.rs]): listeners and connections, where many readers
      share a budget; TcpLogic and TcpResults hold its lemmas.  tokio's streams and
      sockets are the classes [AsyncReader], [AsyncWriter] and [TcpNetwork], the
      allocator a parameter.
    - NativeRuns ([lib.rs]): a fresh runtime and application threads that call it;
      TcpRuns: the same with listeners.  Both run a whole exchange as a witness: a
      request answered by a CPU job, a frame echoed over a connection.

    - Virtual ([testing.rs], [runtime-test]): a runtime driven by one thread under
      virtual time.  The scheduler is a script of turns, given from outside, that polls
      tasks of the machine, parks, or comes back to the driver; a call whose script runs
      out has not returned.  VirtualRuns: pumps; VirtualWaits: advances, waits and closes,
      with a wait's fuel, its poll budget, proved enough ([while_busy_loop]).
      WorldClock: the methods of the World leave a manual clock alone.

    ** The Python boundary and its model

    A Python object is a value of a type with the queries PyO3 makes of it (the class
    [PyApi]) and what is documented of them ([PyLaws]); what the source makes is an
    [object].  An error becomes an exception ([PyErr]).  A method of [NativeWorld] is a
    program of the native runtime: it counts its entry, checks its arguments, calls the
    World and the runtime, and keeps the claims of Python in two tables behind mutexes of
    their own, which a panic poisons.

    - PyObjects: objects, exceptions, handles.  PySchemas ([schemas.rs]): schemas as
      nested tuples.  PyEnvelopes ([envelopes.rs]): the options of a message and what
      Python sees of an envelope.  PyValues ([lib.rs], [components.rs], [services.rs]):
      payloads and descriptors.  PyReports: reports, statistics and snapshots as
      dictionaries.
    - PyWorld, PyRuntime ([lib.rs], [tcp.rs], [cpu.rs], [components.rs]): the methods
      of [NativeWorld], of its tickets and components.
    - Custody: who holds a lease, a thread, a table or native code ([hwp], [bridge_step]).
      PyClaims: every method against it.  PyCustody: runs from [NativeWorld::new] on,
      with threads of Python that run any [script] of these methods while native code,
      the threads and tasks of the runtime among it, makes any calls of the World; the
      methods that start native work are such calls here.

    ** How state, errors and panics are modelled

    A method is a function [M S E A] from a state to an outcome and a state: [Ok],
    [Err] with the error of the source, or [Panic] for a failed [expect], an index
    out of range, an overflow of a checked debug subtraction or exhausted fuel.  An
    error keeps the changes made before it, as the source does.  Code that runs
    outside the lock (wakers) is recorded in the order it runs.  A run is a sequence
    of calls in the order in which they take the lock; a panic poisons the mutex and
    ends it.  The World identifier and the clock are parameters: the system clock is
    any monotone reading (Diagnostics), the virtual clock is [VirtualClock].

    Integers are [N] or [Z] at the width of the source: checked and saturating
    operations carry their bound, [fetch_add] its wrap-around.  Shared payloads
    ([Arc<Stored>]) carry the identity of their allocation; their bytes count once as
    long as some field refers to them, which is when [Drop for Stored] runs.

    ** Recursion and fuel

    The source recurses and loops over trees of actors.  A walk towards the root has
    one step per slot ([walk_fuel], proved enough for every reachable World by
    [ownership_walks_end]); [fence] has twice that, since it also enters the scopes of
    a service, which has no owner; [claim] has one more than the length of its
    queue, [pop_due] one more than the number of deadlines, schema recursions follow
    the schema; that a claim does not run out of it is part of [claim_in_order].  Running
    out of fuel is a panic, never a result; in the wait for idleness, which runs under a
    script of turns, it is a wait that has not returned, and [wait_exact] shows that its
    poll budget is fuel enough.  Programs have loops
    without fuel; that one ends is a theorem about it ([total]).

    ** What the theorems show

    - Concurrency of one actor: at most one delivery or callback at a time, handles
      and counters agree, a handle's actor stays in its slot ([handles_exclusive]); a
      stop is final for the whole subtree ([stop_is_final]); lifecycles go forward
      and stale references stay stale ([lifecycle_forward]); an event is delivered at
      most once ([delivered_once]).
    - Bounds: payload bytes ([retained_within_budget]), mailboxes
      ([mailboxes_bounded_fifo]), slots ([actor_slots_exact]), diagnostics.
    - Functional behaviour: sends and claims ([send_exact], [claim_in_order]): what is
      leased is the first delivery not outdated, with the ones before it outdated; routing
      turns ([route_fifo_round_robin]), expiry, readiness scans, diagnostics paging.
    - Single outcome: of operations ([complete_single_winner], [take_once],
      [reserve_fresh]) and publications ([ticket_terminal_final]); a publication is
      admitted once, or refused without a trace but the identity it drew
      ([submit_publication_exact]); no activity change is missed ([no_lost_wakeup]).
    - Wire format: [encode_decode_roundtrip], [decode_canonical], [encode_typed],
      [validate_bytes_agrees], [register_batch_exact]; frames [frame_roundtrip],
      [frame_charge_exact], [frame_payload_exact].
    - Threads, in every interleaving: jobs, permits and slots ([cpu_accounting]), the
      buffers of connections ([buffers_accounted]), what a connection reads
      ([read_frame_exact]).
    - Virtual time: a pump counts exactly and stops when nothing is ready ([pump_exact]); an
      advance drains the runtime, moves both clocks and drains it again ([advance_exact]);
      a wait returns under a prompt scheduler, and gives up only at its deadline or with its
      poll budget spent ([wait_exact]).
    - Components: configurations ([config_exact]), the window counter
      ([window_refines]), the sum of squares ([sum_squares_exact]), the registry of
      replies ([registry_exact]).
    - The Python boundary: in every interleaving the claims Python holds are exactly live
      leases, one per actor ([claims_custody]); which schemas and options are accepted, and as what
      ([schema_description_exact], [parse_options_exact]); payloads survive the way to
      Python and back, structured records in every World that knows their schema
      ([payload_roundtrip]).
    - Tables against their specification: routes, deadlines, the operation table and
      the publication table.

    ** Not modelled

    [Condvar] notifications, which carry no state: a wait for readiness looks again at
    any time ([wait_python_ready]); memory ordering below the locks and atomics;
    [Debug] beyond the names Python sees.  What a peer sees of a write that is cancelled
    half-way.  The scheduler of Tokio, which an explicitly driven runtime meets as a script of
    turns.  The Python methods [test_pump], [test_advance] and the construction of a virtual World from
    Python, which only pass their arguments on, the probes of the Python module that test
    the GIL, the module's registration, test and fuzz targets, examples.  The recursions that go down the tree ([fence], [quiesce],
    [report], [drained]) are total through their fuel, but that the fuel suffices for
    them is not proved. *)
From stdpp Require Export prelude gmap sorting strings list fin_maps.
From Stdlib Require Export ZArith NArith Lia ZifyBool.

(** ** Machine integers

    Unsigned machine integers are [N]; the width only matters where the source
    checks it, and there the bound is written out. *)
Definition u16_max : N := 2 ^ 16 - 1.
Definition u32_max : N := 2 ^ 32 - 1.
Definition u64_max : N := 2 ^ 64 - 1.
Definition usize_max : N := u64_max.

(** [uN::checked_add], [uN::saturating_add] and [uN::saturating_sub]. *)
Definition checked_add (bound a b : N) : option N :=
  if decide (a + b ≤ bound)%N then Some (a + b)%N else None.
Definition checked_sub (a b : N) : option N :=
  if decide (b ≤ a)%N then Some (a - b)%N else None.
Definition saturating_add (bound a b : N) : N := N.min bound (a + b).
Definition saturating_sub (a b : N) : N := (a - b)%N.

(** ** Outcomes and the state-and-error monad

    A function of the source that takes [&mut self] and returns a [Result] is
    an [M S E A]: it maps a state to an outcome and the state it leaves behind
    (which is kept on the error path, as in the source).  [Panic] is the
    outcome of a failed [expect]/[unwrap], of an index out of range, of an
    underflowing decrement, and of an exhausted fuel. *)
Inductive outcome (E A : Type) :=
| Ok (a : A)
| Err (e : E)
| Panic.
Arguments Ok {E A} a.
Arguments Err {E A} e.
Arguments Panic {E A}.

#[export] Instance outcome_eq_dec `{EqDecision E, EqDecision A} :
  EqDecision (outcome E A).
Proof. solve_decision. Defined.

Definition M (S E A : Type) : Type := S → outcome E A * S.

Definition ret {S E A} (a : A) : M S E A := λ s, (Ok a, s).
Definition fail {S E A} (e : E) : M S E A := λ s, (Err e, s).
Definition panic {S E A} : M S E A := λ s, (Panic, s).
Definition bind {S E A B} (m : M S E A) (k : A → M S E B) : M S E B := λ s,
  match m s with
  | (Ok a, s') => k a s'
  | (Err e, s') => (Err e, s')
  | (Panic, s') => (Panic, s')
  end.
Definition get {S E} : M S E S := λ s, (Ok s, s).
Definition gets {S E A} (f : S → A) : M S E A := λ s, (Ok (f s), s).
Definition modify {S E} (f : S → S) : M S E unit := λ s, (Ok tt, f s).

(** [try_ m] is the [Result] of [m] as a value: what a [match] on a call sees. *)
Definition try_ {S E A} (m : M S E A) : M S E (E + A) := λ s,
  match m s with
  | (Ok a, s') => (Ok (inr a), s')
  | (Err e, s') => (Ok (inl e), s')
  | (Panic, s') => (Panic, s')
  end.

(** [option::ok_or], and [expect]. *)
Definition ok_or {S E A} (e : E) (o : option A) : M S E A :=
  match o with Some a => ret a | None => fail e end.
Definition expect {S E A} (o : option A) : M S E A :=
  match o with Some a => ret a | None => panic end.
(** [if c { return Err(e) }]. *)
Definition reject_if {S E} (c : bool) (e : E) : M S E unit :=
  if c then fail e else ret tt.

Fixpoint for_each {S E A} (f : A → M S E unit) (l : list A) : M S E unit :=
  match l with
  | [] => ret tt
  | x :: l => bind (f x) (λ _, for_each f l)
  end.

Lemma bind_ok {S E A B} (m : M S E A) (k : A → M S E B) s b s' :
  bind m k s = (Ok b, s') → ∃ a s1, m s = (Ok a, s1) ∧ k a s1 = (Ok b, s').
Proof. unfold bind. destruct (m s) as [[a|e|] s1]; [eauto|done|done]. Qed.
Lemma for_each_app {S E A} (f : A → M S E unit) l1 l2 s :
  for_each f (l1 ++ l2) s = bind (for_each f l1) (λ _, for_each f l2) s.
Proof.
  revert s. induction l1 as [|x l1 IH]; intros s; simpl; [done|].
  unfold bind in *. destruct (f x s) as [[a|e|] s']; done.
Qed.

Declare Scope rust_scope.
Delimit Scope rust_scope with rust.
Notation "'let!' x ':=' m 'in' k" := (bind m (λ x, k))
  (at level 10, x pattern, m at level 100, k at level 200) : rust_scope.
Notation "m ';;;' k" := (bind m (λ _, k))
  (at level 199, right associativity) : rust_scope.
Open Scope rust_scope.

(** A component's operation run on a field of a larger state. *)
Definition zoom {S T E A} (field : S → T) (set : T → S → S) (m : M T E A) :
    M S E A := λ s,
  let '(o, t) := m (field s) in (o, set t s).

(** ** Record update

    [r <| f := v |>] and [r <| f ::= g |>], from the expansion of a record
    into its projections that the type declares as an [Expand] instance. *)
Class Expand (R : Type) := expand : R → R.
Class Setter {R T : Type} (proj : R → T) := set_field : (T → T) → R → R.
Arguments set_field {R T} proj {_} _ _.
#[export] Hint Mode Setter - - + : typeclass_instances.

Ltac solve_setter :=
  match goal with
  | |- @Setter ?R ?T ?proj =>
      let e := constr:(_ : Expand R) in
      let e := eval hnf in e in
      match eval pattern proj in e with
      | ?F _ =>
          let t := constr:(fun (g : T -> T) (r : R) => F (fun x : R => g (proj x)) r) in
          let t := eval cbv beta in t in
          exact t
      end
  end.
#[export] Hint Extern 1 (Setter _) => solve_setter : typeclass_instances.

Notation "r <| f ::= g |>" := (set_field f g r)
  (at level 1, f at level 0, left associativity) : rust_scope.
Notation "r <| f := v |>" := (set_field f (λ _, v) r)
  (at level 1, f at level 0, left associativity) : rust_scope.

(** ** Sums over lists and maps *)
Fixpoint sum_by {A} (f : A → N) (l : list A) : N :=
  match l with
  | [] => 0
  | x :: l => f x + sum_by f l
  end.
Definition b2n (b : bool) : N := if b then 1 else 0.
Definition count_by {A} (f : A → bool) (l : list A) : N := sum_by (λ x, b2n (f x)) l.
Definition sum_map `{Countable K} {V} (f : K → V → N) (m : gmap K V) : N :=
  map_fold (λ k v acc, f k v + acc)%N 0%N m.

Section sums.
Context {A : Type}.
Implicit Types (f : A → N) (l : list A).

Lemma sum_by_app f l1 l2 : sum_by f (l1 ++ l2) = (sum_by f l1 + sum_by f l2)%N.
Proof. induction l1 as [|x l1 IH]; simpl; [done | rewrite IH; lia]. Qed.

Lemma sum_by_perm f l1 l2 : l1 ≡ₚ l2 → sum_by f l1 = sum_by f l2.
Proof. induction 1; simpl; lia. Qed.

Lemma sum_by_insert f l i x y :
  l !! i = Some x → (sum_by f (<[i:=y]> l) + f x = sum_by f l + f y)%N.
Proof.
  revert i. induction l as [|z l IH]; intros [|i] Hi; simplify_eq/=; [lia|].
  specialize (IH _ Hi). lia.
Qed.

Lemma sum_by_elem f l x : x ∈ l → (f x ≤ sum_by f l)%N.
Proof. induction 1; simpl; lia. Qed.

Lemma sum_by_lookup f l i x : l !! i = Some x → (f x ≤ sum_by f l)%N.
Proof. intros Hi. apply sum_by_elem. by eapply list_elem_of_lookup_2. Qed.

Lemma sum_by_ext f g l : (∀ x, x ∈ l → f x = g x) → sum_by f l = sum_by g l.
Proof.
  induction l as [|x l IH]; intros Hfg; simpl; [done|].
  rewrite Hfg by set_solver. rewrite IH; [done|]. set_solver.
Qed.

Lemma sum_by_split f (p : A → bool) l :
  (sum_by f (filter (λ x, p x = true) l) + sum_by f (filter (λ x, p x = false) l) = sum_by f l)%N.
Proof. induction l as [|y l IH]; [done|]. rewrite !filter_cons. destruct (p y); simpl; lia. Qed.

Lemma sum_by_add f g l : sum_by (λ x, f x + g x)%N l = (sum_by f l + sum_by g l)%N.
Proof. induction l as [|x l IH]; simpl; lia. Qed.

Lemma sum_by_le f g l : (∀ x, x ∈ l → (f x ≤ g x)%N) → (sum_by f l ≤ sum_by g l)%N.
Proof.
  induction l as [|x l IH]; intros Hfg; simpl; [done|].
  pose proof (Hfg x ltac:(set_solver)).
  pose proof (IH ltac:(set_solver)). lia.
Qed.

Lemma count_by_filter (p : A → bool) l :
  count_by p l = N.of_nat (length (filter (λ x, p x = true) l)).
Proof.
  unfold count_by. induction l as [|x l IH]; simpl; [done|].
  rewrite filter_cons, IH. destruct (p x) eqn:Hp; case_decide; simpl; try done; lia.
Qed.

Lemma count_by_insert (p : A → bool) l i x y :
  l !! i = Some x →
  (count_by p (<[i:=y]> l) + b2n (p x) = count_by p l + b2n (p y))%N.
Proof. apply (sum_by_insert (λ x, b2n (p x))). Qed.

Lemma count_by_lookup (p : A → bool) l i x : l !! i = Some x → (b2n (p x) ≤ count_by p l)%N.
Proof. apply (sum_by_lookup (λ x, b2n (p x))). Qed.

Lemma count_by_snoc (p : A → bool) l x : count_by p (l ++ [x]) = (count_by p l + b2n (p x))%N.
Proof. unfold count_by. rewrite sum_by_app. simpl. lia. Qed.

Lemma count_by_le_length (p : A → bool) l : (count_by p l ≤ N.of_nat (length l))%N.
Proof.
  unfold count_by. induction l as [|x l IH]; simpl; [done|].
  destruct (p x); unfold b2n at 1; lia.
Qed.
End sums.

Section map_sums.
Context `{Countable K} {V : Type}.
Implicit Types (f : K → V → N) (m : gmap K V).

Lemma sum_map_empty f : sum_map f ∅ = 0%N.
Proof. apply map_fold_empty. Qed.

Lemma sum_map_insert f m k v :
  m !! k = None → sum_map f (<[k:=v]> m) = (f k v + sum_map f m)%N.
Proof. intros Hk. unfold sum_map. rewrite map_fold_insert_L; [done| |done]. lia. Qed.

Lemma sum_map_delete f m k v :
  m !! k = Some v → sum_map f m = (f k v + sum_map f (delete k m))%N.
Proof.
  intros Hk. rewrite <- (insert_delete_id m k v Hk) at 1.
  apply sum_map_insert. by simplify_map_eq.
Qed.

Lemma sum_map_update f m k v v' :
  m !! k = Some v → (sum_map f (<[k:=v']> m) + f k v = sum_map f m + f k v')%N.
Proof.
  intros Hk. rewrite (sum_map_delete f m k v Hk).
  rewrite <- insert_delete_eq. rewrite sum_map_insert; [lia|]. by simplify_map_eq.
Qed.

Lemma sum_map_lookup f m k v : m !! k = Some v → (f k v ≤ sum_map f m)%N.
Proof. intros Hk. rewrite (sum_map_delete f m k v Hk). lia. Qed.

Lemma sum_map_ext f g m :
  (∀ k v, m !! k = Some v → f k v = g k v) → sum_map f m = sum_map g m.
Proof.
  induction m as [|k v m Hk IH] using map_ind; intros Hfg; [done|].
  rewrite !sum_map_insert by done. rewrite (Hfg k v) by by simplify_map_eq.
  rewrite IH; [done|]. intros k' v' Hk'. apply Hfg.
  rewrite lookup_insert_ne; [done|]. by intros ->; simplify_eq.
Qed.

Lemma sum_map_size m : sum_map (λ _ _, 1%N) m = N.of_nat (size m).
Proof.
  induction m as [|k v m Hk IH] using map_ind; [done|].
  rewrite sum_map_insert, map_size_insert_None by done. lia.
Qed.
End map_sums.

(** ** Filtering *)
Lemma StronglySorted_filter {A} (R : A → A → Prop) (P : A → Prop) `{∀ x, Decision (P x)} (l : list A) :
  StronglySorted R l → StronglySorted R (filter P l).
Proof.
  induction 1 as [|x l Hs IH Hx]; [constructor|]. rewrite filter_cons. case_decide; [|done].
  constructor; [done|]. rewrite Forall_forall in *. intros y Hy.
  apply list_elem_of_filter in Hy as [_ Hy]. auto.
Qed.

Lemma filter_id {A} (P : A → Prop) `{∀ x, Decision (P x)} (l : list A) :
  (∀ x, x ∈ l → P x) → filter P l = l.
Proof.
  induction l as [|x l IH]; intros Hl; [done|]. rewrite filter_cons, decide_True by set_solver.
  by rewrite IH by set_solver.
Qed.

Lemma sum_by_fmap {A B} (f : B → N) (g : A → B) (l : list A) : sum_by f (g <$> l) = sum_by (λ x, f (g x)) l.
Proof. induction l as [|y l IH]; simpl; [done|]. by rewrite <- IH. Qed.
Lemma sublist_of_filter {A} (Q : A → Prop) `{∀ x, Decision (Q x)} (l : list A) : filter Q l `sublist_of` l.
Proof. induction l as [|y l IH]; [done|]. rewrite filter_cons. case_decide; by constructor. Qed.
Lemma sublist_of_fmap {A B} (f : A → B) (l l' : list A) : l `sublist_of` l' → f <$> l `sublist_of` f <$> l'.
Proof. induction 1; simpl; by constructor. Qed.
Lemma checked_sub_Some a b c : checked_sub a b = Some c → (a = b + c)%N.
Proof. unfold checked_sub. case_decide; [|done]. intros [= <-]. lia. Qed.

(** ** Checked decrement and lifting

    [x -= 1] on an unsigned field panics at zero. *)
Definition decr {S E} (proj : S → N) `{!Setter proj} : M S E unit := λ s,
  if decide (proj s = 0)%N then (Panic, s) else (Ok tt, set_field proj (λ x, x - 1)%N s).
Definition of_outcome {S E A} (o : outcome E A) : M S E A := λ s, (o, s).
(** [Result::unwrap_or(d)] and [Result::ok()] on a call. *)
Definition unwrap_or {S E A} (d : A) (m : M S E A) : M S E A :=
  let! r := try_ m in ret (match r with inr a => a | inl _ => d end).

(** ** Invariants of stateful operations

    [keeps P m]: running [m] from a state satisfying [P] does not panic and
    ends in a state satisfying [P]; [runs P m Q] adds a postcondition on the
    outcome. *)
Definition runs {S E A} (P : S → Prop) (m : M S E A) (Q : outcome E A → S → Prop) : Prop :=
  ∀ s, P s → (m s).1 ≠ Panic ∧ Q (m s).1 (m s).2.
Definition keeps {S E A} (P : S → Prop) (m : M S E A) : Prop :=
  ∀ s, P s → (m s).1 ≠ Panic ∧ P (m s).2.

Section keeps.
Context {S E : Type} (P : S → Prop).

Lemma keeps_ret {A} (a : A) : keeps P (ret (E:=E) a).
Proof. by intros s Hs. Qed.
Lemma keeps_fail {A} (e : E) : keeps P (fail (A:=A) e).
Proof. by intros s Hs. Qed.
Lemma keeps_get : keeps P (get (E:=E)).
Proof. by intros s Hs. Qed.
Lemma keeps_gets {A} (f : S → A) : keeps P (gets (E:=E) f).
Proof. by intros s Hs. Qed.
Lemma keeps_modify f : (∀ s, P s → P (f s)) → keeps P (modify (E:=E) f).
Proof. intros Hf s Hs. split; [done|]. by apply Hf. Qed.
Lemma keeps_ok_or {A} (e : E) (o : option A) : keeps P (ok_or e o).
Proof. destruct o; [apply keeps_ret|apply keeps_fail]. Qed.
Lemma keeps_reject_if c (e : E) : keeps P (reject_if c e).
Proof. destruct c; [apply keeps_fail|apply keeps_ret]. Qed.
Lemma keeps_bind {A B} (m : M S E A) (k : A → M S E B) :
  keeps P m → (∀ a, keeps P (k a)) → keeps P (bind m k).
Proof.
  intros Hm Hk s Hs. unfold bind. specialize (Hm s Hs).
  destruct (m s) as [[a|e|] s'] eqn:Hms; simpl in *; destruct Hm as [? Hm]; [by apply Hk|done..].
Qed.
(** The continuation may use what the first action returned and left behind. *)
Lemma keeps_bind_runs {A B} (m : M S E A) (k : A → M S E B) Q :
  runs P m Q → (∀ e s, Q (Err e) s → P s) →
  (∀ a, runs (Q (Ok a)) (k a) (λ _, P)) → keeps P (bind m k).
Proof.
  intros Hm He Hk s Hs. unfold bind. specialize (Hm s Hs).
  destruct (m s) as [[a|e|] s'] eqn:Hms; simpl in *; destruct Hm as [? HQ]; try done.
  - by apply (Hk a).
  - split; [done|]. by eapply He.
Qed.
Lemma keeps_try {A} (m : M S E A) : keeps P m → keeps P (try_ m).
Proof.
  intros Hm s Hs. unfold try_. specialize (Hm s Hs).
  destruct (m s) as [[a|e|] s']; simpl in *; by destruct Hm.
Qed.
Lemma keeps_unwrap_or {A} (d : A) (m : M S E A) : keeps P m → keeps P (unwrap_or d m).
Proof. intros Hm. apply keeps_bind; [by apply keeps_try|]. intros r. apply keeps_ret. Qed.
Lemma keeps_for_each {A} (f : A → M S E unit) l : (∀ x, keeps P (f x)) → keeps P (for_each f l).
Proof.
  intros Hf. induction l as [|x l IH]; simpl; [apply keeps_ret|]. by apply keeps_bind.
Qed.
End keeps.

Create HintDb keeps.
#[export] Hint Resolve keeps_ret keeps_fail keeps_get keeps_gets keeps_ok_or keeps_reject_if
  keeps_try keeps_unwrap_or keeps_for_each : keeps.

(** Decompose a monadic body along its binds and branches, and close the
    leaves with the [keeps] hints. *)
Ltac keeps_step :=
  match goal with
  | |- keeps _ (bind _ _) => apply keeps_bind; [|intros ?]
  | |- keeps _ (match ?x with _ => _ end) => destruct x eqn:?
  | |- keeps _ (modify _) => apply keeps_modify; intros ??
  | |- keeps _ _ => solve [eauto with keeps]
  end.
Ltac keeps := repeat keeps_step.
