(* ===== verification/Collections.v ===== *)
(** * Collections

    The standard-library collections of the source and the two derived
    structures its tables share: the ordered views of [BTreeMap] and [BTreeSet]
    (iteration, [first], [range]), the secondary index
    [HashMap<K, HashSet<I>>] that drops a key with its last entry, and the
    reference count [HashMap<K, usize>] that drops a key at zero. *)
From S2P Require Import Prelude.

(** ** Order of the B-tree collections

    A key of a B-tree collection is a machine integer or a tuple of them, and
    Rust's derived [Ord] on tuples is lexicographic.  [order_key] is the list
    of a key's components. *)
Class OrderKey (A : Type) := order_key : A → list N.
Class OrderKeyInj (A : Type) `{OrderKey A} := order_key_inj : Inj (=) (=) (order_key (A:=A)).
#[export] Existing Instance order_key_inj.

Fixpoint lex_leb (a b : list N) : bool :=
  match a, b with
  | [], _ => true
  | _ :: _, [] => false
  | x :: a, y :: b => (x <? y)%N || ((x =? y)%N && lex_leb a b)
  end.

Definition key_le `{OrderKey A} (x y : A) : Prop := lex_leb (order_key x) (order_key y) = true.
#[export] Instance key_le_dec `{OrderKey A} : RelDecision (key_le (A:=A)).
Proof. intros x y. unfold key_le. apply _. Defined.

#[export] Instance N_order_key : OrderKey N := λ x, [x].
#[export] Instance N2_order_key : OrderKey (N * N) := λ '(x, y), [x; y].
#[export] Instance N3_order_key : OrderKey (N * N * N) := λ '(x, y, z), [x; y; z].
#[export] Instance N4_order_key : OrderKey (N * N * N * N) := λ '(x, y, z, w), [x; y; z; w].
#[export] Instance N_order_key_inj : OrderKeyInj N.
Proof. intros x y. unfold order_key, N_order_key. congruence. Qed.
#[export] Instance N2_order_key_inj : OrderKeyInj (N * N).
Proof. intros [??] [??]. unfold order_key, N2_order_key. congruence. Qed.
#[export] Instance N3_order_key_inj : OrderKeyInj (N * N * N).
Proof. intros [[??]?] [[??]?]. unfold order_key, N3_order_key. congruence. Qed.
#[export] Instance N4_order_key_inj : OrderKeyInj (N * N * N * N).
Proof. intros [[[??]?]?] [[[??]?]?]. unfold order_key, N4_order_key. congruence. Qed.

(** [sort_by_key], and the iteration order of a [BTreeSet] and a [BTreeMap]. *)
Definition sort_keys `{OrderKey A} (l : list A) : list A := merge_sort key_le l.
Definition btree_elems `{Countable A, OrderKey A} (s : gset A) : list A :=
  sort_keys (elements s).
Definition btree_keys `{Countable A, OrderKey A} {V} (m : gmap A V) : list A :=
  btree_elems (dom m).
Definition btree_values `{Countable A, OrderKey A} {V} (m : gmap A V) : list V :=
  omap (λ k, m !! k) (btree_keys m).
Definition btree_first `{Countable A, OrderKey A} (s : gset A) : option A :=
  head (btree_elems s).

(** ** Secondary indexes *)
Section index_defs.
Context `{Countable K, Countable J}.
Implicit Types (m : gmap K (gset J)).

(** [index.get(k)], as an iterator over nothing when the key is absent. *)
Definition idx_get (k : K) m : gset J := default ∅ (m !! k).
(** [index.entry(k).or_default().insert(id)] *)
Definition idx_add (k : K) (id : J) m : gmap K (gset J) :=
  <[k := {[id]} ∪ idx_get k m]> m.
(** [if let Some(ids) = index.get_mut(k) { ids.remove(id); if ids.is_empty() { index.remove(k); } }] *)
Definition idx_remove (k : K) (id : J) m : gmap K (gset J) :=
  match m !! k with
  | None => m
  | Some ids =>
      let ids' := ids ∖ {[id]} in
      if decide (ids' = ∅) then delete k m else <[k := ids']> m
  end.

(** [m] indexes the relation [rel] exactly, with no empty entry. *)
Record idx_wf (rel : K → J → Prop) m : Prop := {
  idx_mem k id : id ∈ idx_get k m ↔ rel k id;
  idx_nonempty k ids : m !! k = Some ids → ids ≠ ∅
}.
End index_defs.

(** ** Reference counts *)
Section count_defs.
Context `{Countable K}.
Implicit Types (m : gmap K N).

Definition cnt_get (k : K) m : N := default 0%N (m !! k).
(** [*counts.entry(k).or_default() += 1] *)
Definition cnt_add (k : K) m : gmap K N := <[k := (cnt_get k m + 1)%N]> m.
(** [*count -= 1; if *count == 0 { counts.remove(k); }] on the entry of [k];
    [None] when there is no entry. *)
Definition cnt_sub (k : K) m : option (gmap K N) :=
  match m !! k with
  | None => None
  | Some c => Some (if decide (c - 1 = 0)%N then delete k m else <[k := (c - 1)%N]> m)
  end.

(** [m] holds exactly the non-zero values of [f]. *)
Definition cnt_wf (f : K → N) m : Prop :=
  ∀ k, m !! k = if decide (f k = 0%N) then None else Some (f k).
End count_defs.

(** ** Lemmas: the order *)
Section order_lemmas.
Context `{OrderKey A}.

Lemma lex_leb_refl a : lex_leb a a = true.
Proof. induction a as [|x a IH]; simpl; [done|]. rewrite N.eqb_refl, IH. apply orb_true_r. Qed.

Lemma lex_leb_cons x a y b :
  lex_leb (x :: a) (y :: b) = true ↔ (x < y)%N ∨ (x = y ∧ lex_leb a b = true).
Proof. simpl. rewrite orb_true_iff, andb_true_iff, N.ltb_lt, N.eqb_eq. done. Qed.

Lemma lex_leb_trans a b c : lex_leb a b = true → lex_leb b c = true → lex_leb a c = true.
Proof.
  revert b c. induction a as [|x a IH]; intros [|y b] [|z c] Hab Hbc; try done.
  rewrite lex_leb_cons in *.
  destruct Hab as [?|[??]], Hbc as [?|[??]]; subst; eauto with lia.
Qed.

Lemma lex_leb_total a b : lex_leb a b = true ∨ lex_leb b a = true.
Proof.
  revert b. induction a as [|x a IH]; intros [|y b]; simpl; auto.
  rewrite !orb_true_iff, !andb_true_iff, !N.ltb_lt, !N.eqb_eq.
  destruct (N.lt_trichotomy x y) as [?|[->|?]]; auto.
  destruct (IH b); auto.
Qed.

Lemma lex_leb_antisym a b : lex_leb a b = true → lex_leb b a = true → a = b.
Proof.
  revert b. induction a as [|x a IH]; intros [|y b] Hab Hba; try done.
  rewrite lex_leb_cons in *.
  destruct Hab as [?|[??]], Hba as [?|[??]]; subst; try lia. f_equal; auto.
Qed.

#[export] Instance key_le_refl : Reflexive (key_le (A:=A)).
Proof. intros x. apply lex_leb_refl. Qed.
#[export] Instance key_le_trans : Transitive (key_le (A:=A)).
Proof. intros x y z. apply lex_leb_trans. Qed.
#[export] Instance key_le_total : Total (key_le (A:=A)).
Proof. intros x y. apply lex_leb_total. Qed.
#[export] Instance key_le_antisym `{!OrderKeyInj A} : AntiSymm (=) (key_le (A:=A)).
Proof. intros x y Hxy Hyx. apply (inj order_key). by apply lex_leb_antisym. Qed.

Lemma sort_keys_perm l : sort_keys l ≡ₚ l.
Proof. apply merge_sort_Permutation. Qed.

Lemma sort_keys_sorted l : StronglySorted key_le (sort_keys l).
Proof. apply StronglySorted_merge_sort; apply _. Qed.

Lemma elem_of_sort_keys x l : x ∈ sort_keys l ↔ x ∈ l.
Proof. by rewrite sort_keys_perm. Qed.

Lemma sort_keys_unique `{!OrderKeyInj A} l1 l2 :
  StronglySorted key_le l1 → l1 ≡ₚ l2 → sort_keys l2 = l1.
Proof.
  intros Hs Hp. apply (StronglySorted_unique key_le); [apply sort_keys_sorted|done|].
  by rewrite sort_keys_perm.
Qed.
End order_lemmas.

Section btree_lemmas.
Context `{Countable A, OrderKey A}.
Implicit Types (s : gset A).

Lemma elem_of_btree_elems x s : x ∈ btree_elems s ↔ x ∈ s.
Proof. unfold btree_elems. by rewrite elem_of_sort_keys, elem_of_elements. Qed.

Lemma btree_elems_sorted s : StronglySorted key_le (btree_elems s).
Proof. apply sort_keys_sorted. Qed.

Lemma btree_elems_nodup s : NoDup (btree_elems s).
Proof. unfold btree_elems. rewrite sort_keys_perm. apply NoDup_elements. Qed.

Lemma btree_elems_empty : btree_elems (∅ : gset A) = [].
Proof. unfold btree_elems. by rewrite elements_empty. Qed.

Lemma length_btree_elems s : length (btree_elems s) = size s.
Proof. unfold btree_elems. by rewrite (Permutation_length (sort_keys_perm _)). Qed.

Lemma elem_of_btree_keys {V} x (m : gmap A V) : x ∈ btree_keys m ↔ is_Some (m !! x).
Proof. unfold btree_keys. by rewrite elem_of_btree_elems, elem_of_dom. Qed.

Lemma elem_of_btree_values {V} v (m : gmap A V) :
  v ∈ btree_values m ↔ ∃ k, m !! k = Some v.
Proof.
  unfold btree_values. rewrite list_elem_of_omap. split.
  - intros (k & _ & Hk). eauto.
  - intros (k & Hk). exists k. split; [|done]. rewrite elem_of_btree_keys. eauto.
Qed.

Lemma btree_first_none s : btree_first s = None ↔ s = ∅.
Proof.
  unfold btree_first. split; [|intros ->; by rewrite btree_elems_empty].
  destruct (btree_elems s) as [|x l] eqn:Hl; simpl; [intros _|done].
  apply leibniz_equiv, elem_of_equiv_empty. intros x Hx.
  apply elem_of_btree_elems in Hx. rewrite Hl in Hx. set_solver.
Qed.

Lemma btree_first_some `{!OrderKeyInj A} s x :
  btree_first s = Some x ↔ x ∈ s ∧ ∀ y, y ∈ s → key_le x y.
Proof.
  unfold btree_first. pose proof (btree_elems_sorted s) as Hs.
  assert (∀ y, y ∈ btree_elems s ↔ y ∈ s) as He by (intros y; apply elem_of_btree_elems).
  destruct (btree_elems s) as [|z l]; simpl.
  { split; [done|]. intros [Hx _]. apply He in Hx. set_solver. }
  apply StronglySorted_inv in Hs as [_ Hz]. rewrite Forall_forall in Hz. split.
  - intros [= ->]. split; [set_solver|]. intros y Hy%He.
    apply elem_of_cons in Hy as [->|Hy]; [done|auto].
  - intros [Hx Hle]. f_equal. apply (anti_symm key_le); [|apply Hle; set_solver].
    apply He, elem_of_cons in Hx as [->|Hx]; [done|auto].
Qed.
End btree_lemmas.

(** ** Lemmas: secondary indexes *)
Section index_lemmas.
Context `{Countable K, Countable J}.
Implicit Types (m : gmap K (gset J)) (rel : K → J → Prop).

#[export] Instance idx_wf_proper :
  Proper (pointwise_relation K (pointwise_relation J iff) ==> (=) ==> iff) idx_wf.
Proof.
  assert (∀ r1 r2 m, (∀ k i, r1 k i ↔ r2 k i) → idx_wf r1 m → idx_wf r2 m) as Hhalf.
  { intros r1 r2 m Hr [Hm Hn]. split; [|done]. intros k id. by rewrite Hm. }
  intros r1 r2 Hr m ? <-. split; apply Hhalf; intros k i; [|symmetry]; apply Hr.
Qed.

Lemma idx_wf_iff rel1 rel2 m : (∀ k id, rel1 k id ↔ rel2 k id) → idx_wf rel1 m → idx_wf rel2 m.
Proof. intros Hr [Hm Hn]. split; [|done]. intros k id. by rewrite Hm. Qed.

Lemma idx_wf_empty : idx_wf (λ _ _, False) (∅ : gmap K (gset J)).
Proof.
  split; [|intros k ids; by rewrite lookup_empty].
  intros k id. unfold idx_get. rewrite lookup_empty. set_solver.
Qed.

Lemma idx_get_add k id m k' :
  idx_get k' (idx_add k id m) = if decide (k = k') then {[id]} ∪ idx_get k m else idx_get k' m.
Proof. unfold idx_get, idx_add. rewrite lookup_insert. by case_decide. Qed.

Lemma idx_get_remove k id m k' :
  idx_get k' (idx_remove k id m) = if decide (k = k') then idx_get k m ∖ {[id]} else idx_get k' m.
Proof.
  unfold idx_get, idx_remove. destruct (m !! k) as [ids|] eqn:Hk.
  - case_decide as Hids; case_decide; subst; simplify_map_eq; try done; set_solver.
  - case_decide; subst; rewrite ?Hk; [set_solver|done].
Qed.

Lemma idx_add_wf rel m k id :
  idx_wf rel m → idx_wf (λ k' id', (k' = k ∧ id' = id) ∨ rel k' id') (idx_add k id m).
Proof.
  intros [Hm Hn]. split.
  - intros k' id'. rewrite idx_get_add. case_decide; subst.
    + rewrite elem_of_union, elem_of_singleton, Hm. naive_solver.
    + rewrite Hm. naive_solver.
  - intros k' ids. unfold idx_add. rewrite lookup_insert_Some. intros [[<- <-]|[_ Hk']].
    + set_solver.
    + by eapply Hn.
Qed.

Lemma idx_remove_wf rel m k id :
  idx_wf rel m → idx_wf (λ k' id', rel k' id' ∧ ¬ (k' = k ∧ id' = id)) (idx_remove k id m).
Proof.
  intros [Hm Hn]. split.
  - intros k' id'. rewrite idx_get_remove. case_decide; subst.
    + rewrite elem_of_difference, elem_of_singleton, Hm. naive_solver.
    + rewrite Hm. naive_solver.
  - intros k' ids. unfold idx_remove. destruct (m !! k) as [ids0|] eqn:Hk; [|apply Hn].
    case_decide as Hids.
    + rewrite lookup_delete_Some. intros [_ Hk']. by eapply Hn.
    + rewrite lookup_insert_Some. intros [[<- <-]|[_ Hk']]; [done|by eapply Hn].
Qed.

(** The index of a relation is unique, so an index rebuilt from its relation
    is the same map. *)
Lemma idx_wf_unique rel m1 m2 : idx_wf rel m1 → idx_wf rel m2 → m1 = m2.
Proof.
  intros [Hm1 Hn1] [Hm2 Hn2]. apply map_eq. intros k.
  assert (idx_get k m1 = idx_get k m2) as Hk.
  { apply set_eq. intros id. by rewrite Hm1, Hm2. }
  unfold idx_get in Hk.
  destruct (m1 !! k) as [i1|] eqn:H1, (m2 !! k) as [i2|] eqn:H2; simpl in *; subst; try done.
  - by destruct (Hn1 _ _ H1).
  - by destruct (Hn2 _ _ H2).
Qed.
End index_lemmas.

(** ** Lemmas: reference counts *)
Section count_lemmas.
Context `{Countable K}.
Implicit Types (f : K → N) (m : gmap K N).

Lemma cnt_wf_ext f g m : (∀ k, f k = g k) → cnt_wf f m → cnt_wf g m.
Proof. intros Hfg Hm k. rewrite <- Hfg. apply Hm. Qed.

Lemma cnt_wf_empty : cnt_wf (λ _, 0%N) (∅ : gmap K N).
Proof. intros k. by rewrite lookup_empty. Qed.

Lemma cnt_get_wf f m k : cnt_wf f m → cnt_get k m = f k.
Proof. intros Hm. unfold cnt_get. rewrite Hm. by case_decide. Qed.

Lemma cnt_add_wf f m k :
  cnt_wf f m → cnt_wf (λ k', f k' + b2n (bool_decide (k' = k)))%N (cnt_add k m).
Proof.
  intros Hm k'. unfold cnt_add. rewrite (cnt_get_wf f m k Hm), lookup_insert.
  destruct (decide (k = k')) as [<-|Hne].
  - rewrite bool_decide_true by done. simpl. rewrite decide_False by lia. done.
  - rewrite bool_decide_false by done. simpl. rewrite N.add_0_r. apply Hm.
Qed.

Lemma cnt_sub_wf f m k :
  cnt_wf f m → (0 < f k)%N →
  ∃ m', cnt_sub k m = Some m' ∧ cnt_wf (λ k', f k' - b2n (bool_decide (k' = k)))%N m'.
Proof.
  intros Hm Hk. unfold cnt_sub. rewrite Hm, decide_False by lia.
  eexists. split; [done|]. intros k'.
  destruct (decide (k = k')) as [<-|Hne].
  - rewrite bool_decide_true by done. simpl.
    destruct (decide (f k - 1 = 0)%N); by simplify_map_eq.
  - rewrite bool_decide_false by done. simpl. rewrite N.sub_0_r.
    case_decide; simplify_map_eq; apply Hm.
Qed.

Lemma cnt_sub_none f m k : cnt_wf f m → f k = 0%N → cnt_sub k m = None.
Proof. intros Hm Hk. unfold cnt_sub. by rewrite Hm, decide_True. Qed.

Lemma cnt_wf_unique f m1 m2 : cnt_wf f m1 → cnt_wf f m2 → m1 = m2.
Proof. intros H1 H2. apply map_eq. intros k. by rewrite H1, H2. Qed.
End count_lemmas.

Create HintDb collections.
#[export] Hint Resolve idx_wf_empty idx_add_wf idx_remove_wf cnt_wf_empty cnt_add_wf : collections.
