(* ===== verification/Text.v ===== *)
(** * Text

    Rust strings are [string]s of bytes.  This file models what the source uses
    of [str]: [len], [is_char_boundary], the truncation loop shared by
    [failures::bounded] and [OperationTable::normalize_message], the validity
    that [str::from_utf8] tests, and [chars().take(n)]. *)
From S2P Require Import Prelude.
From Stdlib Require Import Strings.Byte.

Abbreviation byte := Byte.byte.
Abbreviation bytes_of := String.list_byte_of_string.
Abbreviation of_bytes := String.string_of_list_byte.
#[export] Instance byte_eq_dec : EqDecision byte := Byte.byte_eq_dec.

Definition str_len (s : string) : N := N.of_nat (String.length s).

(** Inclusive range test on a byte value. *)
Definition byte_in (b : byte) (lo hi : N) : bool :=
  (lo <=? Byte.to_N b)%N && (Byte.to_N b <=? hi)%N.
Definition is_cont (b : byte) : bool := byte_in b 128 191.

(** [str::is_char_boundary]: the byte at the index is not a continuation byte. *)
Definition is_char_boundary (l : list byte) (i : nat) : bool :=
  match i with
  | O => true
  | _ => match l !! i with
         | None => bool_decide (i = length l)
         | Some b => negb (is_cont b)
         end
  end.

(** [while !value.is_char_boundary(end) { end -= 1; }] *)
Fixpoint floor_boundary (l : list byte) (e : nat) : nat :=
  if is_char_boundary l e then e
  else match e with O => O | S e => floor_boundary l e end.

(** [let mut end = value.len().min(max); while ... ; value[..end].to_owned()] *)
Definition truncate_bytes (l : list byte) (max : nat) : list byte :=
  take (floor_boundary l (Nat.min (length l) max)) l.
Definition truncate_str (s : string) (max : nat) : string :=
  of_bytes (truncate_bytes (bytes_of s) max).

(** Well-formed byte sequences of one character of two, three and four bytes. *)
Definition utf8_2 (b0 b1 : byte) : bool := byte_in b0 194 223 && is_cont b1.
Definition utf8_3 (b0 b1 b2 : byte) : bool :=
  ((byte_in b0 224 224 && byte_in b1 160 191) ||
   (byte_in b0 225 236 && is_cont b1) ||
   (byte_in b0 237 237 && byte_in b1 128 159) ||
   (byte_in b0 238 239 && is_cont b1)) && is_cont b2.
Definition utf8_4 (b0 b1 b2 b3 : byte) : bool :=
  ((byte_in b0 240 240 && byte_in b1 144 191) ||
   (byte_in b0 241 243 && is_cont b1) ||
   (byte_in b0 244 244 && byte_in b1 128 143)) && is_cont b2 && is_cont b3.

(** The test of [str::from_utf8]. *)
Fixpoint utf8_valid (l : list byte) : bool :=
  match l with
  | [] => true
  | b0 :: l1 =>
      if (Byte.to_N b0 <=? 127)%N then utf8_valid l1 else
      match l1 with
      | [] => false
      | b1 :: l2 =>
          if utf8_2 b0 b1 then utf8_valid l2 else
          match l2 with
          | [] => false
          | b2 :: l3 =>
              if utf8_3 b0 b1 b2 then utf8_valid l3 else
              match l3 with
              | [] => false
              | b3 :: l4 => if utf8_4 b0 b1 b2 b3 then utf8_valid l4 else false
              end
          end
      end
  end.

(** [s.chars().take(n).collect()] on the bytes of a valid string: a character
    is a non-continuation byte and the continuation bytes after it. *)
Fixpoint take_chars (n : nat) (l : list byte) : list byte :=
  match l with
  | [] => []
  | b :: l =>
      if is_cont b then b :: take_chars n l
      else match n with O => [] | S n => b :: take_chars n l end
  end.

(** ** Lemmas *)
Lemma length_bytes_of s : length (bytes_of s) = String.length s.
Proof. induction s as [|a s IH]; simpl; [done|]. by f_equal. Qed.

Lemma bytes_of_of_bytes l : bytes_of (of_bytes l) = l.
Proof. apply String.list_byte_of_string_of_list_byte. Qed.

Lemma length_of_bytes l : String.length (of_bytes l) = length l.
Proof. by rewrite <- length_bytes_of, bytes_of_of_bytes. Qed.

Lemma floor_boundary_le l e : floor_boundary l e ≤ e.
Proof. induction e as [|e IH]; simpl; repeat case_match; lia. Qed.

Lemma floor_boundary_boundary l e : is_char_boundary l (floor_boundary l e) = true.
Proof. induction e as [|e IH]; simpl; [done|]. by case_match. Qed.

(** The loop stops at the last boundary not after its start. *)
Lemma floor_boundary_max l e i :
  i ≤ e → is_char_boundary l i = true → i ≤ floor_boundary l e.
Proof.
  induction e as [|e IH]; intros Hie Hi; [lia|]. cbn [floor_boundary].
  destruct (is_char_boundary l (S e)) eqn:Hb; [done|]. apply IH; [|done].
  destruct (decide (i = S e)) as [->|]; [congruence|lia].
Qed.

Lemma utf8_first_not_cont b l : utf8_valid (b :: l) = true → is_cont b = false.
Proof.
  unfold is_cont. simpl. repeat case_match; intros; simplify_eq; try done;
    unfold utf8_2, utf8_3, utf8_4, is_cont, byte_in in *; lia.
Qed.

(** A boundary one character into the string is a boundary of the rest. *)
Lemma boundary_tail b l i : 0 < i →
  is_char_boundary (b :: l) (S i) = is_char_boundary l i.
Proof. destruct i as [|i]; [lia|]. intros _. simpl. case_match; [done|]. apply bool_decide_ext. lia. Qed.

Lemma utf8_take l e :
  utf8_valid l = true → is_char_boundary l e = true → utf8_valid (take e l) = true.
Proof.
  remember (length l) as n eqn:Hn. revert l e Hn.
  induction n as [n IH] using lt_wf_ind. intros l e -> Hv He.
  destruct e as [|e]; [by rewrite take_0|].
  destruct l as [|b0 l1]; [done|].
  assert (∀ k l', length l' < length (b0 :: l1) → utf8_valid l' = true →
    is_char_boundary l' k = true → utf8_valid (take k l') = true) as IH'.
  { intros k l' Hl. by apply (IH (length l')). }
  clear IH. simpl in Hv |- *.
  destruct (Byte.to_N b0 <=? 127)%N eqn:E0.
  { apply IH'; [simpl; lia|done|]. destruct e; [done|]. by rewrite boundary_tail in He by lia. }
  destruct l1 as [|b1 l2]; [done|]. destruct e as [|e].
  { simpl in He. exfalso. revert Hv He. repeat case_match; try done;
      unfold utf8_2, utf8_3, utf8_4, is_cont, byte_in in *; lia. }
  simpl. rewrite boundary_tail in He by lia.
  destruct (utf8_2 b0 b1) eqn:E1.
  { apply IH'; [simpl; lia|done|]. destruct e; [done|]. by rewrite boundary_tail in He by lia. }
  destruct l2 as [|b2 l3]; [done|]. destruct e as [|e].
  { simpl in He. exfalso. revert Hv He. repeat case_match; try done;
      unfold utf8_3, utf8_4, is_cont, byte_in in *; lia. }
  simpl. rewrite boundary_tail in He by lia.
  destruct (utf8_3 b0 b1 b2) eqn:E2.
  { apply IH'; [simpl; lia|done|]. destruct e; [done|]. by rewrite boundary_tail in He by lia. }
  destruct l3 as [|b3 l4]; [done|]. destruct e as [|e].
  { simpl in He. exfalso. revert Hv He. repeat case_match; try done;
      unfold utf8_4, is_cont, byte_in in *; lia. }
  simpl. rewrite boundary_tail in He by lia.
  destruct (utf8_4 b0 b1 b2 b3) eqn:E3; [|done].
  apply IH'; [simpl; lia|done|]. destruct e; [done|]. by rewrite boundary_tail in He by lia.
Qed.

Lemma truncate_bytes_length l max : length (truncate_bytes l max) ≤ max.
Proof.
  unfold truncate_bytes. rewrite length_take.
  pose proof (floor_boundary_le l (length l `min` max)). lia.
Qed.

Lemma truncate_bytes_valid l max :
  utf8_valid l = true → utf8_valid (truncate_bytes l max) = true.
Proof. intros Hv. apply utf8_take; [done|]. apply floor_boundary_boundary. Qed.

Lemma truncate_bytes_id l max : length l ≤ max → truncate_bytes l max = l.
Proof.
  intros Hl. unfold truncate_bytes. rewrite Nat.min_l by done.
  rewrite take_ge; [done|]. apply floor_boundary_max; [done|].
  unfold is_char_boundary. destruct (length l) eqn:E; [done|]. rewrite <- E.
  rewrite lookup_ge_None_2 by lia. by apply bool_decide_eq_true.
Qed.

(** The result is the longest prefix of at most [max] bytes ending at a
    boundary. *)
Lemma truncate_bytes_longest l max i :
  i ≤ max → i ≤ length l → is_char_boundary l i = true →
  i ≤ length (truncate_bytes l max).
Proof.
  intros Hm Hl Hi. unfold truncate_bytes. rewrite length_take.
  pose proof (floor_boundary_max l (length l `min` max) i ltac:(lia) Hi). lia.
Qed.

Lemma truncate_str_len s max : String.length (truncate_str s max) ≤ max.
Proof. unfold truncate_str. rewrite length_of_bytes. apply truncate_bytes_length. Qed.
