(* ===== verification/Types.v ===== *)
(** * Types

    The data the runtime core shares between its components
    ([crates/runtime-core/src/lib.rs], [components.rs], [envelope.rs],
    [operations.rs], [failures.rs]): references, lifecycle, payloads, component
    descriptors, message metadata, envelopes, stored payloads, failure records
    and configuration.  An [Instant] is a number of nanoseconds. *)
From S2P Require Import Prelude Collections Text.

Abbreviation Instant := N (only parsing).

(** ** Enumerations *)
Module Error.
Inductive error :=
| QueueFull | BudgetExceeded | ActorNotReady | ActorStopped | StaleReference
| CrossWorld | LimitExceeded | InvalidConfig | NotFound | DuplicateSubscription
| SchemaMismatch | InvalidPort | InterfaceMismatch | InvalidMetadata | DeadlineExpired.
End Error.
Abbreviation error := Error.error.
#[export] Instance error_eq_dec : EqDecision error.
Proof. solve_decision. Defined.

Module EndpointKind.
Inductive endpoint_kind := Native | Python.
End EndpointKind.
Abbreviation endpoint_kind := EndpointKind.endpoint_kind.
#[export] Instance endpoint_kind_eq_dec : EqDecision endpoint_kind.
Proof. solve_decision. Defined.

Module Lifecycle.
Inductive lifecycle := Starting | Active | Quiescing | Stopping | Stopped.
End Lifecycle.
Abbreviation lifecycle := Lifecycle.lifecycle.
#[export] Instance lifecycle_eq_dec : EqDecision lifecycle.
Proof. solve_decision. Defined.

(** ** References *)
Record ActorRef := MkActorRef { ar_world : N; ar_slot : N; ar_generation : N }.
#[export] Instance ActorRef_eq_dec : EqDecision ActorRef.
Proof. solve_decision. Defined.
#[export] Instance ActorRef_countable : Countable ActorRef.
Proof.
  refine (inj_countable' (λ r, (ar_world r, ar_slot r, ar_generation r))
    (λ '(w, s, g), MkActorRef w s g) _). by intros [].
Defined.

Record OperationId := MkOperationId { op_world : N; op_slot : N; op_generation : N }.
#[export] Instance OperationId_eq_dec : EqDecision OperationId.
Proof. solve_decision. Defined.
#[export] Instance OperationId_countable : Countable OperationId.
Proof.
  refine (inj_countable' (λ r, (op_world r, op_slot r, op_generation r))
    (λ '(w, s, g), MkOperationId w s g) _). by intros [].
Defined.

Record PortRef := MkPortRef { port_owner : ActorRef; port_index : N }.
#[export] Instance PortRef_eq_dec : EqDecision PortRef.
Proof. solve_decision. Defined.

(** ** Payloads *)
Record StructuredRecord := MkStructured {
  sr_world : N; sr_schema : N; sr_bytes : list byte
}.
(** A [Vec<i64>] is charged for its capacity, so it carries one. *)
Inductive Payload :=
| Pulse (v : Z)
| CountSnapshot (count : N) (total : Z)
| PRecord (schema : N) (integers : list Z) (capacity : N)
| Structured (record : StructuredRecord).

Definition payload_bytes (p : Payload) : N :=
  match p with
  | Pulse _ => 8
  | CountSnapshot _ _ => 16
  | PRecord _ _ capacity => 4 + capacity * 8
  | Structured record => 4 + N.of_nat (length (sr_bytes record))
  end.

(** ** Component descriptors *)
Inductive PayloadType := TPulse | TCountSnapshot | TStructured (id : N).
#[export] Instance PayloadType_eq_dec : EqDecision PayloadType.
Proof. solve_decision. Defined.
Definition payload_type_matches (t : PayloadType) (p : Payload) : bool :=
  match t, p with
  | TPulse, Pulse _ => true
  | TCountSnapshot, CountSnapshot _ _ => true
  | TStructured id, Structured record => bool_decide (id = sr_schema record)
  | _, _ => false
  end.

Inductive PortDirection := Input | Output.
#[export] Instance PortDirection_eq_dec : EqDecision PortDirection.
Proof. solve_decision. Defined.
Record PortSpec := MkPortSpec {
  ps_name : string; ps_direction : PortDirection; ps_schema : PayloadType
}.
#[export] Instance PortSpec_eq_dec : EqDecision PortSpec.
Proof. solve_decision. Defined.
Record InterfaceSpec := MkInterfaceSpec {
  if_name : string; if_version : N; if_ports : list PortSpec
}.
#[export] Instance InterfaceSpec_eq_dec : EqDecision InterfaceSpec.
Proof. solve_decision. Defined.
Record ComponentDescriptor := MkDescriptor {
  cd_name : string; cd_version : N; cd_ports : list PortSpec;
  cd_interfaces : list InterfaceSpec
}.

(** ** Message metadata *)
Record TraceContext := MkTrace {
  trace_id : list byte; span_id : list byte; sampled : bool;
  baggage : list (string * string)
}.
#[export] Instance TraceContext_eq_dec : EqDecision TraceContext.
Proof. solve_decision. Defined.

Record MessageOptions := MkOptions {
  mo_source : option ActorRef;
  mo_deadline : option Instant;
  mo_correlation_id : option N;
  mo_causation_id : option N;
  mo_trace : option TraceContext
}.
#[export] Instance MessageOptions_expand : Expand MessageOptions := λ r,
  MkOptions (mo_source r) (mo_deadline r) (mo_correlation_id r) (mo_causation_id r) (mo_trace r).
Definition default_options : MessageOptions := MkOptions None None None None None.

Inductive SchemaKind := KPulse | KCountSnapshot | KRecord | KStructured.
Record SchemaIdentity := MkSchemaIdentity {
  si_kind : SchemaKind; si_id : N; si_version : N
}.

Record Envelope := MkEnvelope {
  env_event_id : N;
  env_schema : SchemaIdentity;
  env_source : option ActorRef;
  env_destination : ActorRef;
  env_dispatcher : option PortRef;
  env_destination_port : option PortRef;
  env_owner : ActorRef;
  env_enqueued_at : Instant;
  env_deadline : option Instant;
  env_correlation_id : option N;
  env_causation_id : option N;
  env_trace : option TraceContext
}.
#[export] Instance Envelope_expand : Expand Envelope := λ r,
  MkEnvelope (env_event_id r) (env_schema r) (env_source r) (env_destination r)
    (env_dispatcher r) (env_destination_port r) (env_owner r) (env_enqueued_at r)
    (env_deadline r) (env_correlation_id r) (env_causation_id r) (env_trace r).

(** A reference-counted payload.  [stored_id] is the identity of the [Arc]:
    two values with the same identity are the same allocation. *)
Record Stored := MkStored {
  stored_id : N;
  stored_payload : Payload;
  stored_options : MessageOptions;
  stored_dispatcher : option PortRef;
  stored_bytes : N
}.
Record HeldPayload := MkHeld {
  held_stored : Stored; held_world : N; held_envelope : option Envelope
}.

(** ** Failure records *)
Inductive FailurePhase := Construction | Configure | Start | Handler | Stop | Supervisor.
#[export] Instance FailurePhase_eq_dec : EqDecision FailurePhase.
Proof. solve_decision. Defined.
Module FailureAction.
Inductive failure_action := StopActor | StopWorld | Continue.
End FailureAction.
Abbreviation failure_action := FailureAction.failure_action.

Record FailureFrame := MkFrame {
  ff_file : string; ff_line : N; ff_function : string; ff_truncated : bool
}.
Record FailureDetails := MkDetails {
  fd_phase : FailurePhase; fd_handler : string; fd_exception_type : string;
  fd_frames : list FailureFrame; fd_truncated : bool
}.
Record FailureRecord := MkFailure {
  fr_sequence : N; fr_elapsed_ns : N; fr_actor : ActorRef; fr_event_id : option N;
  fr_schema : option N; fr_operation : option OperationId;
  fr_details : FailureDetails; fr_action : failure_action
}.

(** ** Configuration *)
Record Config := MkConfig {
  max_actors : N; mailbox_capacity : N; mailbox_bytes : N; native_payload_budget : N;
  max_subscriptions : N; max_event_bytes : N; max_operations : N; diagnostic_capacity : N;
  max_schemas : N; max_services : N; max_service_leases : N; max_leases_per_actor : N;
  max_publications : N; max_publications_per_source : N; max_publication_fanout : N;
  max_routing_snapshot_entries : N; routing_batch_size : N
}.
#[export] Instance Config_expand : Expand Config := λ r,
  MkConfig (max_actors r) (mailbox_capacity r) (mailbox_bytes r) (native_payload_budget r)
    (max_subscriptions r) (max_event_bytes r) (max_operations r) (diagnostic_capacity r)
    (max_schemas r) (max_services r) (max_service_leases r) (max_leases_per_actor r)
    (max_publications r) (max_publications_per_source r) (max_publication_fanout r)
    (max_routing_snapshot_entries r) (routing_batch_size r).
Definition config_default : Config := {|
  max_actors := 1024; mailbox_capacity := 64; mailbox_bytes := 2 ^ 20;
  native_payload_budget := 16 * 2 ^ 20; max_subscriptions := 4096;
  max_event_bytes := 2 ^ 20; max_operations := 1024; diagnostic_capacity := 1024;
  max_schemas := 128; max_services := 64; max_service_leases := 1024;
  max_leases_per_actor := 16; max_publications := 256;
  max_publications_per_source := 32; max_publication_fanout := 4096;
  max_routing_snapshot_entries := 16384; routing_batch_size := 32
|}.

(** The conjunction [World::with_clock] requires (the negation of its
    [InvalidConfig] test). *)
Definition config_valid (cfg : Config) : bool :=
  negb (max_actors cfg =? 0)%N && (max_actors cfg <=? u32_max)%N &&
  negb (mailbox_capacity cfg =? 0)%N && negb (mailbox_bytes cfg =? 0)%N &&
  negb (native_payload_budget cfg =? 0)%N && negb (max_event_bytes cfg =? 0)%N &&
  negb (max_operations cfg =? 0)%N && (max_services cfg <=? 4096)%N &&
  (max_service_leases cfg <=? 65536)%N && (max_leases_per_actor cfg <=? 1024)%N &&
  ((1 <=? max_publications cfg)%N && (max_publications cfg <=? 65536)%N) &&
  ((1 <=? max_publications_per_source cfg)%N &&
   (max_publications_per_source cfg <=? max_publications cfg)%N) &&
  ((1 <=? max_publication_fanout cfg)%N && (max_publication_fanout cfg <=? 65536)%N) &&
  ((1 <=? max_routing_snapshot_entries cfg)%N &&
   (max_routing_snapshot_entries cfg <=? 1048576)%N) &&
  ((1 <=? routing_batch_size cfg)%N && (routing_batch_size cfg <=? 4096)%N).

(** ** Sorting keys of references *)
#[export] Instance OperationId_order_key : OrderKey OperationId := λ id,
  [op_slot id; op_generation id; op_world id].
#[export] Instance OperationId_order_key_inj : OrderKeyInj OperationId.
Proof. intros [] []. unfold order_key, OperationId_order_key. simpl. congruence. Qed.
#[export] Instance ActorRef_order_key : OrderKey ActorRef := λ r,
  [ar_slot r; ar_generation r; ar_world r].
#[export] Instance ActorRef_order_key_inj : OrderKeyInj ActorRef.
Proof. intros [] []. unfold order_key, ActorRef_order_key. simpl. congruence. Qed.
