(* ===== verification/Routing.v ===== *)
(** * Routing table

    [crates/runtime-core/src/routing.rs]: the subscriptions of a World with
    their four secondary indexes.  The specification is the entry map alone:
    [rt_wf] says that every index is determined by it. *)
From S2P Require Import Prelude Collections Text Types.

Record Sub := MkSub {
  sub_owner : ActorRef;
  sub_source : ActorRef;
  sub_target : ActorRef;
  sub_source_port : option N;
  sub_target_port : option N
}.
#[export] Instance Sub_eq_dec : EqDecision Sub.
Proof. solve_decision. Defined.

Record RouteTable := MkRouteTable {
  rt_entries : gmap N Sub;
  by_source : gmap (ActorRef * option N) (gset N);
  by_source_actor : gmap ActorRef (gset N);
  by_owner : gmap ActorRef (gset N);
  by_target : gmap ActorRef (gset N)
}.
#[export] Instance RouteTable_expand : Expand RouteTable := λ r,
  MkRouteTable (rt_entries r) (by_source r) (by_source_actor r) (by_owner r) (by_target r).

Module Routes.
Definition new : RouteTable := MkRouteTable ∅ ∅ ∅ ∅ ∅.
Definition active_len (t : RouteTable) : N := N.of_nat (size (rt_entries t)).
Definition get (t : RouteTable) (id : N) : option Sub := rt_entries t !! id.
Definition contains_active (t : RouteTable) (id : N) : bool :=
  bool_decide (is_Some (rt_entries t !! id)).
Definition source_ids (t : RouteTable) (source : ActorRef) (port : option N) : list N :=
  btree_elems (idx_get (source, port) (by_source t)).
Definition source_count (t : RouteTable) (source : ActorRef) (port : option N) : N :=
  N.of_nat (size (idx_get (source, port) (by_source t))).
Definition source_actor_ids (t : RouteTable) (source : ActorRef) : list N :=
  btree_elems (idx_get source (by_source_actor t)).
Definition target_ids (t : RouteTable) (target : ActorRef) : list N :=
  btree_elems (idx_get target (by_target t)).
Definition actor_route_ids (t : RouteTable) (actor : ActorRef) : list N :=
  btree_elems (idx_get actor (by_owner t) ∪ idx_get actor (by_source_actor t)
               ∪ idx_get actor (by_target t)).
Definition insert (t : RouteTable) (id : N) (route : Sub) : RouteTable := {|
  by_source := idx_add (sub_source route, sub_source_port route) id (by_source t);
  by_source_actor := idx_add (sub_source route) id (by_source_actor t);
  by_owner := idx_add (sub_owner route) id (by_owner t);
  by_target := idx_add (sub_target route) id (by_target t);
  rt_entries := <[id := route]> (rt_entries t)
|}.
Definition remove (t : RouteTable) (id : N) : option Sub * RouteTable :=
  match rt_entries t !! id with
  | None => (None, t)
  | Some route =>
      (Some route, {|
        rt_entries := delete id (rt_entries t);
        by_source := idx_remove (sub_source route, sub_source_port route) id (by_source t);
        by_source_actor := idx_remove (sub_source route) id (by_source_actor t);
        by_owner := idx_remove (sub_owner route) id (by_owner t);
        by_target := idx_remove (sub_target route) id (by_target t)
      |})
  end.
Definition source_target_exists (t : RouteTable) (source target : ActorRef) : bool :=
  existsb (λ id, match rt_entries t !! id with
                 | Some route => bool_decide (sub_target route = target)
                 | None => false
                 end) (source_actor_ids t source).
Definition typed_duplicate (t : RouteTable) (source target : PortRef) : bool :=
  existsb (λ id, match rt_entries t !! id with
                 | Some route => bool_decide (sub_target route = port_owner target)
                 | None => false
                 end) (source_ids t (port_owner source) (Some (port_index source))).
(** The removal loop of [World::fence_locked]. *)
Definition remove_all (t : RouteTable) (ids : list N) : RouteTable :=
  foldl (λ t id, (remove t id).2) t ids.
End Routes.

(** ** Specification *)

(** [entry_rel proj t k id]: the entry [id] of [t] has key [k] under [proj]. *)
Definition entry_rel {K} (proj : Sub → K) (t : RouteTable) (k : K) (id : N) : Prop :=
  ∃ route, rt_entries t !! id = Some route ∧ proj route = k.
Definition sub_source_key (route : Sub) : ActorRef * option N :=
  (sub_source route, sub_source_port route).

Record rt_wf (t : RouteTable) : Prop := {
  rt_source_wf : idx_wf (entry_rel sub_source_key t) (by_source t);
  rt_source_actor_wf : idx_wf (entry_rel sub_source t) (by_source_actor t);
  rt_owner_wf : idx_wf (entry_rel sub_owner t) (by_owner t);
  rt_target_wf : idx_wf (entry_rel sub_target t) (by_target t)
}.

Definition touches (actor : ActorRef) (route : Sub) : Prop :=
  sub_owner route = actor ∨ sub_source route = actor ∨ sub_target route = actor.

(** ** Lemmas *)
Create HintDb routing.

Lemma entry_rel_insert {K} (proj : Sub → K) t id route k id' :
  rt_entries t !! id = None →
  (k = proj route ∧ id' = id) ∨ entry_rel proj t k id' ↔
  entry_rel proj (Routes.insert t id route) k id'.
Proof.
  intros Hid. unfold entry_rel. simpl. split.
  - intros [[-> ->]|(r & Hr & Hk)]; [by exists route; simplify_map_eq|].
    exists r. rewrite lookup_insert_ne; [done|]. by intros ->; simplify_eq.
  - intros (r & [[<- <-]|[Hne Hr]]%lookup_insert_Some & Hk); eauto.
Qed.

Lemma entry_rel_delete {K} (proj : Sub → K) t t' id route k id' :
  rt_entries t !! id = Some route → rt_entries t' = delete id (rt_entries t) →
  entry_rel proj t k id' ∧ ¬ (k = proj route ∧ id' = id) ↔ entry_rel proj t' k id'.
Proof.
  intros Hid Ht'. unfold entry_rel. rewrite Ht'. split.
  - intros [(r & Hr & Hk) Hne]. exists r. split; [|done].
    rewrite lookup_delete_ne; [done|]. intros ->. simplify_eq. by apply Hne.
  - intros (r & [Hne Hr]%lookup_delete_Some & Hk). split; [eauto|naive_solver].
Qed.

Lemma rt_new_wf : rt_wf Routes.new.
Proof.
  split; (eapply idx_wf_iff; [|apply idx_wf_empty]); intros k id; unfold entry_rel; simpl;
    setoid_rewrite lookup_empty; naive_solver.
Qed.

Lemma rt_insert_wf t id route :
  rt_wf t → rt_entries t !! id = None → rt_wf (Routes.insert t id route).
Proof.
  intros [H1 H2 H3 H4] Hid.
  split; simpl; (eapply idx_wf_iff;
    [intros ??; by apply entry_rel_insert | by apply idx_add_wf]).
Qed.

Lemma rt_remove_wf t id : rt_wf t → rt_wf (Routes.remove t id).2.
Proof.
  intros Hwf. unfold Routes.remove. destruct (rt_entries t !! id) as [route|] eqn:Hid; [|done].
  destruct Hwf as [H1 H2 H3 H4].
  split; simpl; (eapply idx_wf_iff;
    [intros ??; by eapply (entry_rel_delete _ t) | by apply idx_remove_wf]).
Qed.
#[export] Hint Resolve rt_new_wf rt_insert_wf rt_remove_wf : routing.

Lemma remove_entries t id : rt_entries (Routes.remove t id).2 = delete id (rt_entries t).
Proof.
  unfold Routes.remove. destruct (rt_entries t !! id) eqn:Hid; simpl; [done|].
  by rewrite delete_id.
Qed.

Lemma remove_all_wf t ids : rt_wf t → rt_wf (Routes.remove_all t ids).
Proof.
  revert t. induction ids as [|id ids IH]; intros t Hwf; simpl; [done|].
  apply IH, rt_remove_wf, Hwf.
Qed.

Lemma remove_all_lookup t ids id route :
  rt_entries (Routes.remove_all t ids) !! id = Some route ↔
  rt_entries t !! id = Some route ∧ id ∉ ids.
Proof.
  revert t. induction ids as [|i ids IH]; intros t; simpl; [set_solver|].
  unfold Routes.remove_all in IH. rewrite IH, remove_entries, lookup_delete_Some. set_solver.
Qed.

Lemma elem_of_source_ids t source port id :
  rt_wf t → id ∈ Routes.source_ids t source port ↔
  ∃ route, rt_entries t !! id = Some route ∧ sub_source route = source ∧
           sub_source_port route = port.
Proof.
  intros Hwf. unfold Routes.source_ids. rewrite elem_of_btree_elems, (idx_mem _ _ (rt_source_wf t Hwf)).
  unfold entry_rel, sub_source_key. naive_solver.
Qed.

Lemma elem_of_source_actor_ids t source id :
  rt_wf t → id ∈ Routes.source_actor_ids t source ↔ entry_rel sub_source t source id.
Proof.
  intros Hwf. unfold Routes.source_actor_ids.
  by rewrite elem_of_btree_elems, (idx_mem _ _ (rt_source_actor_wf t Hwf)).
Qed.

Lemma elem_of_target_ids t target id :
  rt_wf t → id ∈ Routes.target_ids t target ↔ entry_rel sub_target t target id.
Proof.
  intros Hwf. unfold Routes.target_ids.
  by rewrite elem_of_btree_elems, (idx_mem _ _ (rt_target_wf t Hwf)).
Qed.

Lemma elem_of_actor_route_ids t actor id :
  rt_wf t → id ∈ Routes.actor_route_ids t actor ↔
  ∃ route, rt_entries t !! id = Some route ∧ touches actor route.
Proof.
  intros Hwf. unfold Routes.actor_route_ids.
  rewrite elem_of_btree_elems, !elem_of_union, (idx_mem _ _ (rt_owner_wf t Hwf)),
    (idx_mem _ _ (rt_source_actor_wf t Hwf)), (idx_mem _ _ (rt_target_wf t Hwf)).
  unfold entry_rel, touches. naive_solver.
Qed.

Lemma source_target_exists_spec t source target :
  rt_wf t → Routes.source_target_exists t source target = true ↔
  ∃ id route, rt_entries t !! id = Some route ∧ sub_source route = source ∧
              sub_target route = target.
Proof.
  intros Hwf. unfold Routes.source_target_exists. rewrite existsb_exists.
  setoid_rewrite <- list_elem_of_In. split.
  - intros (id & Hid & Ht). destruct (rt_entries t !! id) as [route|] eqn:Hr; [|done].
    apply bool_decide_eq_true in Ht. apply elem_of_source_actor_ids in Hid as (r & ? & ?); [|done].
    simplify_eq. eauto.
  - intros (id & route & Hr & Hs & Ht). exists id. rewrite Hr. split.
    + apply elem_of_source_actor_ids; [done|]. by exists route.
    + by apply bool_decide_eq_true.
Qed.

Lemma source_count_length t source port :
  Routes.source_count t source port = N.of_nat (length (Routes.source_ids t source port)).
Proof. unfold Routes.source_count, Routes.source_ids. by rewrite length_btree_elems. Qed.

(** ** Sequences of operations *)
Inductive route_cmd := RInsert (id : N) (route : Sub) | RRemove (id : N).
(** The caller's precondition of [insert] ([debug_assert!] in the source). *)
Definition route_step (t : RouteTable) (c : route_cmd) : RouteTable :=
  match c with
  | RInsert id route => if decide (rt_entries t !! id = None) then Routes.insert t id route else t
  | RRemove id => (Routes.remove t id).2
  end.
Definition route_run (cs : list route_cmd) : RouteTable := foldl route_step Routes.new cs.

Lemma route_run_wf cs : rt_wf (route_run cs).
Proof.
  unfold route_run. generalize rt_new_wf. generalize Routes.new.
  induction cs as [|[id route|id] cs IH]; intros t Hwf; simpl; [done|..]; apply IH.
  - case_decide; auto with routing.
  - auto with routing.
Qed.

(** ** Properties *)

(** Every table reached by inserts of fresh identifiers and removes has its
    four secondary indexes exact and without empty buckets: [source_ids] lists
    in ascending order, without repetition, exactly the routes with that source
    and source port. *)
Theorem routes_indexed cs source port :
  let t := route_run cs in
  rt_wf t ∧ NoDup (Routes.source_ids t source port) ∧
  StronglySorted key_le (Routes.source_ids t source port) ∧
  ∀ id, id ∈ Routes.source_ids t source port ↔
    ∃ route, Routes.get t id = Some route ∧ sub_source route = source ∧
             sub_source_port route = port.
Proof.
  intros t. pose proof (route_run_wf cs) as Hwf.
  split; [done|]. split; [apply btree_elems_nodup|].
  split; [apply btree_elems_sorted|]. intros id. by apply elem_of_source_ids.
Qed.

(** Removing what [actor_route_ids] lists removes every route the actor
    owns, publishes on or receives from, and no other route. *)
Theorem actor_routes_removed t actor id route :
  rt_wf t →
  let t' := Routes.remove_all t (Routes.actor_route_ids t actor) in
  rt_wf t' ∧
  (Routes.get t' id = Some route ↔ Routes.get t id = Some route ∧ ¬ touches actor route).
Proof.
  intros Hwf t'. split; [by apply remove_all_wf|].
  unfold Routes.get, t'. rewrite remove_all_lookup, elem_of_actor_route_ids by done. naive_solver.
Qed.

(** Inserting a fresh route and removing it again restores the table,
    secondary indexes included. *)
Theorem insert_remove_roundtrip t id route :
  rt_wf t → Routes.get t id = None →
  Routes.remove (Routes.insert t id route) id = (Some route, t).
Proof.
  unfold Routes.get. intros Hwf Hid.
  assert (rt_wf (Routes.remove (Routes.insert t id route) id).2) as Hwf'.
  { auto using rt_insert_wf, rt_remove_wf. }
  assert (rt_entries (Routes.remove (Routes.insert t id route) id).2 = rt_entries t) as He.
  { rewrite remove_entries. simpl. by rewrite delete_insert_id. }
  destruct (Routes.remove (Routes.insert t id route) id) as [o t'] eqn:Hr. simpl in *.
  f_equal.
  { unfold Routes.remove in Hr. simpl in Hr. rewrite lookup_insert_eq in Hr. by simplify_eq. }
  destruct t as [e1 m1 m2 m3 m4], t' as [e1' m1' m2' m3' m4'], Hwf, Hwf'. simpl in *. subst.
  f_equal; by eapply idx_wf_unique.
Qed.

Definition ex_actor (slot : N) : ActorRef := MkActorRef 1 slot 1.
Definition ex_sub : Sub := MkSub (ex_actor 2) (ex_actor 3) (ex_actor 4) (Some 1%N) (Some 0%N).
Definition ex_cmds : list route_cmd :=
  [RInsert 5 ex_sub; RInsert 7 (MkSub (ex_actor 9) (ex_actor 3) (ex_actor 8) None None)].

Lemma actor_routes_removed_witness :
  let t := route_run ex_cmds in
  let t' := Routes.remove_all t (Routes.actor_route_ids t (ex_actor 4)) in
  rt_wf t' ∧
  (Routes.get t' 5 = Some ex_sub ↔ Routes.get t 5 = Some ex_sub ∧ ¬ touches (ex_actor 4) ex_sub).
Proof. exact (actor_routes_removed (route_run ex_cmds) (ex_actor 4) 5 ex_sub (route_run_wf ex_cmds)). Defined.

Lemma insert_remove_roundtrip_witness :
  Routes.remove (Routes.insert (route_run ex_cmds) 6 ex_sub) 6 = (Some ex_sub, route_run ex_cmds).
Proof.
  apply (insert_remove_roundtrip (route_run ex_cmds) 6 ex_sub (route_run_wf ex_cmds)).
  vm_compute. reflexivity.
Defined.
