(* ===== verification/Expiry.v ===== *)
(** * Deadline indexes

    [crates/runtime-core/src/expiry.rs]: [ActorDeadlines], the reference counts
    of one actor's queued and staged deadlines, and [DeadlineIndex], the earliest
    deadline of every actor in due order. *)
From S2P Require Import Prelude Collections Text Types.

(** ** One actor's deadlines *)
Module ActorDeadlines.
(** [counts: BTreeMap<Instant, usize>] *)
Abbreviation t := (gmap Instant N).
Definition new : t := ∅.
Definition add (deadline : option Instant) (counts : t) : t :=
  match deadline with
  | None => counts
  | Some d => cnt_add d counts
  end.
(** [None] is the panic of [expect("deadline reference exists")]. *)
Definition remove (deadline : option Instant) (counts : t) : option t :=
  match deadline with
  | None => Some counts
  | Some d => cnt_sub d counts
  end.
Definition clear (counts : t) : t := ∅.
Definition first (counts : t) : option Instant := btree_first (dom counts).
End ActorDeadlines.

(** ** The World's index *)
Record DeadlineIndex := MkDeadlineIndex {
  di_actors : gmap ActorRef Instant;
  di_ordered : gset (N * N * N * N)
}.

Definition di_entry (actor : ActorRef) (deadline : Instant) : N * N * N * N :=
  (deadline, ar_world actor, ar_slot actor, ar_generation actor).

Module DeadlineIdx.
Definition new : DeadlineIndex := MkDeadlineIndex ∅ ∅.
Definition remove (actor : ActorRef) (i : DeadlineIndex) : DeadlineIndex :=
  match di_actors i !! actor with
  | None => i
  | Some deadline =>
      MkDeadlineIndex (delete actor (di_actors i))
        (di_ordered i ∖ {[di_entry actor deadline]})
  end.
Definition set (actor : ActorRef) (deadline : option Instant) (i : DeadlineIndex) :
    DeadlineIndex :=
  if match deadline with
     | Some d => bool_decide (di_actors i !! actor = Some d)
     | None => false
     end
  then i
  else
    let i := remove actor i in
    match deadline with
    | None => i
    | Some d =>
        MkDeadlineIndex (<[actor := d]> (di_actors i)) ({[di_entry actor d]} ∪ di_ordered i)
    end.
(** [self.ordered.range(..=(now, u64::MAX, u32::MAX, u64::MAX))] *)
Definition due (now : Instant) (i : DeadlineIndex) : list (N * N * N * N) :=
  filter (λ e, key_le e (now, u64_max, u32_max, u64_max)) (btree_elems (di_ordered i)).
Definition take_one (i : DeadlineIndex) (e : N * N * N * N) : DeadlineIndex :=
  let '(deadline, world, slot, generation) := e in
  MkDeadlineIndex (delete (MkActorRef world slot generation) (di_actors i))
    (di_ordered i ∖ {[e]}).
Definition entry_actor (e : N * N * N * N) : ActorRef :=
  let '(_, world, slot, generation) := e in MkActorRef world slot generation.
Definition take_due (now : Instant) (i : DeadlineIndex) : list ActorRef * DeadlineIndex :=
  (sort_keys (entry_actor <$> due now i), foldl take_one i (due now i)).
End DeadlineIdx.

(** ** Specification *)

(** The number of entries of [l] whose deadline is [d]. *)
Definition deadline_count (l : list (option Instant)) (d : Instant) : N :=
  count_by (λ o, bool_decide (o = Some d)) l.
(** [ad] counts the deadlines of the multiset [l] of entries. *)
Definition ad_rep (ad : ActorDeadlines.t) (l : list (option Instant)) : Prop :=
  cnt_wf (deadline_count l) ad.

(** The ordered set is the deadline map. *)
Definition di_wf (i : DeadlineIndex) : Prop :=
  ∀ e, e ∈ di_ordered i ↔ ∃ actor d, di_actors i !! actor = Some d ∧ e = di_entry actor d.

(** References whose fields fit their machine types. *)
Definition ref_in_range (r : ActorRef) : Prop :=
  (ar_world r ≤ u64_max ∧ ar_slot r ≤ u32_max ∧ ar_generation r ≤ u64_max)%N.

(** ** Lemmas: one actor *)
Lemma deadline_count_cons o l d :
  deadline_count (o :: l) d = (b2n (bool_decide (o = Some d)) + deadline_count l d)%N.
Proof. done. Qed.

Lemma deadline_count_pos l d : (0 < deadline_count l d)%N ↔ Some d ∈ l.
Proof.
  induction l as [|o l IH]; [unfold deadline_count, count_by; simpl; split; [lia|set_solver]|].
  rewrite deadline_count_cons, elem_of_cons, <- IH.
  case_bool_decide; simpl; naive_solver lia.
Qed.

Lemma ad_rep_new : ad_rep ActorDeadlines.new [].
Proof. apply cnt_wf_empty. Qed.

Lemma ad_rep_perm ad l l' : l ≡ₚ l' → ad_rep ad l → ad_rep ad l'.
Proof. intros Hp. apply cnt_wf_ext. intros d. by apply sum_by_perm. Qed.

Lemma ad_rep_add ad l o : ad_rep ad l → ad_rep (ActorDeadlines.add o ad) (o :: l).
Proof.
  intros Hr. unfold ActorDeadlines.add. destruct o as [d|].
  - eapply cnt_wf_ext; [|by apply cnt_add_wf]. intros d'. rewrite deadline_count_cons.
    rewrite N.add_comm. f_equal. f_equal. apply bool_decide_ext. naive_solver.
  - eapply cnt_wf_ext; [|done]. intros d. by rewrite deadline_count_cons.
Qed.

Lemma ad_rep_remove ad l o :
  ad_rep ad (o :: l) → ∃ ad', ActorDeadlines.remove o ad = Some ad' ∧ ad_rep ad' l.
Proof.
  intros Hr. unfold ActorDeadlines.remove. destruct o as [d|].
  - destruct (cnt_sub_wf _ _ d Hr) as (ad' & -> & Hr').
    { apply deadline_count_pos. set_solver. }
    eexists. split; [done|]. eapply cnt_wf_ext; [|done]. intros d'. simpl.
    rewrite deadline_count_cons. repeat case_bool_decide; naive_solver lia.
  - eexists. split; [done|]. eapply cnt_wf_ext; [|done]. intros d. by rewrite deadline_count_cons.
Qed.

Lemma ad_first_some ad l d :
  ad_rep ad l → ActorDeadlines.first ad = Some d ↔
  Some d ∈ l ∧ ∀ d', Some d' ∈ l → (d ≤ d')%N.
Proof.
  intros Hr. unfold ActorDeadlines.first. rewrite btree_first_some.
  assert (∀ x, x ∈ dom ad ↔ Some x ∈ l) as Hdom.
  { intros x. rewrite elem_of_dom, Hr, <- deadline_count_pos.
    case_decide as Hx; (split; [intros []|intros ?]); by (done || lia). }
  rewrite Hdom. setoid_rewrite Hdom. unfold key_le, order_key, N_order_key. simpl.
  split; intros [? Hle]; (split; [done|]); intros y Hy; specialize (Hle y Hy); lia.
Qed.

Lemma ad_first_none ad l :
  ad_rep ad l → ActorDeadlines.first ad = None ↔ ∀ d, Some d ∉ l.
Proof.
  intros Hr. unfold ActorDeadlines.first. rewrite btree_first_none.
  setoid_rewrite <- deadline_count_pos. split.
  - intros Hdom d Hd. assert (d ∈ dom ad) as Hin; [|rewrite Hdom in Hin; set_solver].
    rewrite elem_of_dom, Hr, decide_False by lia. done.
  - intros Hl. apply leibniz_equiv, elem_of_equiv_empty. intros d. rewrite elem_of_dom, Hr.
    specialize (Hl d). rewrite decide_True by lia. by intros [].
Qed.

(** ** Lemmas: the index *)
Lemma di_entry_inj a1 d1 a2 d2 : di_entry a1 d1 = di_entry a2 d2 → a1 = a2 ∧ d1 = d2.
Proof. destruct a1, a2. unfold di_entry. simpl. naive_solver. Qed.

Lemma entry_actor_entry a d : DeadlineIdx.entry_actor (di_entry a d) = a.
Proof. by destruct a. Qed.

Lemma di_new_wf : di_wf DeadlineIdx.new.
Proof. intros e. simpl. setoid_rewrite lookup_empty. set_solver. Qed.

Lemma di_delete_wf i actor d :
  di_wf i → di_actors i !! actor = Some d →
  di_wf (MkDeadlineIndex (delete actor (di_actors i)) (di_ordered i ∖ {[di_entry actor d]})).
Proof.
  intros Hwf Ha e. simpl. rewrite elem_of_difference, elem_of_singleton, (Hwf e).
  setoid_rewrite lookup_delete_Some. split.
  - intros [(a' & d' & Ha' & ->) Hne]. exists a', d'. repeat split; try done.
    intros <-. simplify_eq.
  - intros (a' & d' & [Hne Ha'] & ->). split; [eauto|]. intros [<- <-]%di_entry_inj. done.
Qed.

Lemma di_remove_wf i actor : di_wf i → di_wf (DeadlineIdx.remove actor i).
Proof.
  intros Hwf. unfold DeadlineIdx.remove. destruct (di_actors i !! actor) as [d|] eqn:Ha; [|done].
  by apply di_delete_wf.
Qed.

Lemma di_remove_lookup i actor :
  di_actors (DeadlineIdx.remove actor i) = delete actor (di_actors i).
Proof.
  unfold DeadlineIdx.remove. destruct (di_actors i !! actor) eqn:Ha; simpl; [done|].
  by rewrite delete_id.
Qed.

Lemma di_set_lookup i actor deadline :
  di_actors (DeadlineIdx.set actor deadline i) =
  match deadline with
  | Some d => <[actor := d]> (di_actors i)
  | None => delete actor (di_actors i)
  end.
Proof.
  unfold DeadlineIdx.set. destruct deadline as [d|]; [case_bool_decide as Hd|]; simpl;
    rewrite ?di_remove_lookup, ?insert_delete_eq; try done. by rewrite insert_id.
Qed.

Lemma di_set_wf i actor deadline : di_wf i → di_wf (DeadlineIdx.set actor deadline i).
Proof.
  intros Hwf. unfold DeadlineIdx.set. case_match eqn:Hsame; [done|].
  pose proof (di_remove_wf i actor Hwf) as Hr.
  destruct deadline as [d|]; [|done]. intros e. simpl.
  rewrite elem_of_union, elem_of_singleton, (Hr e), di_remove_lookup.
  setoid_rewrite lookup_insert_Some. setoid_rewrite lookup_delete_Some. split.
  - intros [->|(a' & d' & [Hne Ha'] & ->)]; [exists actor, d; auto|]. exists a', d'. auto.
  - intros (a' & d' & [[-> ->]|[Hne Ha']] & ->); [by left|]. right. eauto 10.
Qed.

Definition di_in_range (i : DeadlineIndex) : Prop :=
  ∀ actor d, di_actors i !! actor = Some d → ref_in_range actor.

Lemma elem_of_due i now e :
  di_wf i → di_in_range i →
  e ∈ DeadlineIdx.due now i ↔
  ∃ actor d, di_actors i !! actor = Some d ∧ (d ≤ now)%N ∧ e = di_entry actor d.
Proof.
  intros Hwf Hrange. unfold DeadlineIdx.due. rewrite list_elem_of_filter, elem_of_btree_elems, (Hwf e).
  split.
  - intros [Hle (a & d & Ha & ->)]. exists a, d. split; [done|]. split; [|done].
    apply lex_leb_cons in Hle as [?|[-> _]]; lia.
  - intros (a & d & Ha & Hd & ->). split; [|eauto].
    destruct (Hrange _ _ Ha) as (?&?&?). unfold key_le, order_key, N4_order_key, di_entry.
    rewrite !lex_leb_cons. simpl. lia.
Qed.

Lemma take_one_fold_lookup es i actor d :
  di_actors (foldl DeadlineIdx.take_one i es) !! actor = Some d ↔
  di_actors i !! actor = Some d ∧ actor ∉ (DeadlineIdx.entry_actor <$> es).
Proof.
  revert i. induction es as [|[[[d' w] s] g] es IH]; intros i; simpl; [set_solver|].
  rewrite IH. simpl. rewrite lookup_delete_Some. rewrite not_elem_of_cons. naive_solver.
Qed.

Lemma take_one_fold_wf es i :
  di_wf i → NoDup es → (∀ e, e ∈ es → e ∈ di_ordered i) →
  di_wf (foldl DeadlineIdx.take_one i es).
Proof.
  revert i. induction es as [|e es IH]; intros i Hwf Hnd Hin; [done|].
  apply NoDup_cons in Hnd as [He Hnd]. simpl.
  pose proof (Hin e ltac:(set_solver)) as Hine. apply (Hwf e) in Hine as (a & d & Ha & ->).
  assert (DeadlineIdx.take_one i (di_entry a d) =
    MkDeadlineIndex (delete a (di_actors i)) (di_ordered i ∖ {[di_entry a d]})) as ->.
  { by destruct a. }
  apply IH; [by apply di_delete_wf|done|]. intros e' He'. simpl. set_solver.
Qed.

Lemma due_nodup i now : NoDup (DeadlineIdx.due now i).
Proof. apply NoDup_filter, btree_elems_nodup. Qed.

Lemma take_due_wf i now : di_wf i → di_wf (DeadlineIdx.take_due now i).2.
Proof.
  intros Hwf. apply take_one_fold_wf; [done|apply due_nodup|].
  intros e. unfold DeadlineIdx.due. rewrite list_elem_of_filter, elem_of_btree_elems. tauto.
Qed.

Lemma elem_of_take_due i now actor :
  di_wf i → di_in_range i →
  actor ∈ (DeadlineIdx.take_due now i).1 ↔ ∃ d, di_actors i !! actor = Some d ∧ (d ≤ now)%N.
Proof.
  intros Hwf Hr. simpl. rewrite elem_of_sort_keys, list_elem_of_fmap.
  setoid_rewrite elem_of_due; [|done..]. split.
  - intros (e & -> & a & d & Ha & Hd & ->). rewrite entry_actor_entry. eauto.
  - intros (d & Ha & Hd). exists (di_entry actor d). rewrite entry_actor_entry. eauto 10.
Qed.

Lemma take_due_nodup i now : di_wf i → NoDup (DeadlineIdx.take_due now i).1.
Proof.
  intros Hwf. simpl. rewrite sort_keys_perm. apply NoDup_fmap_2_strong; [|apply due_nodup].
  intros e1 e2 H1 H2 Heq. unfold DeadlineIdx.due in *.
  apply list_elem_of_filter in H1 as [_ H1], H2 as [_ H2].
  rewrite elem_of_btree_elems in H1, H2. apply Hwf in H1, H2.
  destruct H1 as (a1 & d1 & Ha1 & ->), H2 as (a2 & d2 & Ha2 & ->).
  rewrite !entry_actor_entry in Heq. by simplify_eq.
Qed.

(** ** Properties *)

(** [ActorDeadlines] implements the multiset of an actor's entries: adding
    and removing follow it (the removal of a held entry never panics), and
    [first] is the earliest deadline of the held entries, or [None] when none
    has a deadline. *)
Theorem actor_deadlines_multiset ad l o d :
  ad_rep ad l →
  ad_rep (ActorDeadlines.add o ad) (o :: l) ∧
  (∀ l1 l2, l = l1 ++ o :: l2 →
     ∃ ad', ActorDeadlines.remove o ad = Some ad' ∧ ad_rep ad' (l1 ++ l2)) ∧
  (ActorDeadlines.first ad = Some d ↔ Some d ∈ l ∧ ∀ d', Some d' ∈ l → (d ≤ d')%N) ∧
  (ActorDeadlines.first ad = None ↔ ∀ d', Some d' ∉ l).
Proof.
  intros Hr. split; [by apply ad_rep_add|]. split; [|split; [by apply ad_first_some|by apply ad_first_none]].
  intros l1 l2 ->. apply ad_rep_remove. eapply ad_rep_perm; [|done]. by rewrite Permutation_middle.
Qed.

(** [take_due] removes and returns exactly the actors whose earliest
    deadline is due, once each and ordered by slot, generation and world, and
    leaves every other actor's deadline in an index that is still consistent. *)
Theorem take_due_exact i now :
  di_wf i → di_in_range i →
  let '(actors, i') := DeadlineIdx.take_due now i in
  NoDup actors ∧ StronglySorted key_le actors ∧
  (∀ actor, actor ∈ actors ↔ ∃ d, di_actors i !! actor = Some d ∧ (d ≤ now)%N) ∧
  (∀ actor d, di_actors i' !! actor = Some d ↔ di_actors i !! actor = Some d ∧ (now < d)%N) ∧
  di_wf i'.
Proof.
  intros Hwf Hr. destruct (DeadlineIdx.take_due now i) as [actors i'] eqn:Htd.
  pose proof (take_due_nodup i now Hwf) as Hnd. pose proof (take_due_wf i now Hwf) as Hwf'.
  pose proof (λ a, elem_of_take_due i now a Hwf Hr) as Hin. rewrite Htd in *. simpl in *.
  split; [done|]. split; [injection Htd as <- <-; apply sort_keys_sorted|].
  split; [done|]. split; [|done]. intros actor d.
  assert (actor ∈ actors ↔ actor ∈ (DeadlineIdx.entry_actor <$> DeadlineIdx.due now i)) as Hacts.
  { injection Htd as <- _. apply elem_of_sort_keys. }
  injection Htd as _ <-. rewrite take_one_fold_lookup, <- Hacts, Hin. split.
  - intros [Ha Hn]. split; [done|]. destruct (decide (now < d)%N); [done|].
    destruct Hn. exists d. split; [done|lia].
  - intros [Ha Hd]. split; [done|]. intros (d' & Ha' & ?). simplify_eq. lia.
Qed.

Lemma actor_deadlines_multiset_witness :
  let ad := ActorDeadlines.add (Some 5%N) (ActorDeadlines.add (Some 3%N) ActorDeadlines.new) in
  ad_rep (ActorDeadlines.add (Some 9%N) ad) [Some 9%N; Some 5%N; Some 3%N] ∧
  ActorDeadlines.first ad = Some 3%N.
Proof.
  pose proof (actor_deadlines_multiset
    (ActorDeadlines.add (Some 5%N) (ActorDeadlines.add (Some 3%N) ActorDeadlines.new))
    [Some 5%N; Some 3%N] (Some 9%N) 3%N
    (ad_rep_add _ _ (Some 5%N) (ad_rep_add _ _ (Some 3%N) ad_rep_new))) as (H1 & _ & _ & _).
  split; [exact H1|vm_compute; reflexivity].
Defined.

Definition ex_index : DeadlineIndex :=
  DeadlineIdx.set (MkActorRef 7 3 1) (Some 20%N)
    (DeadlineIdx.set (MkActorRef 7 1 2) (Some 10%N) DeadlineIdx.new).
Lemma ex_index_wf : di_wf ex_index ∧ di_in_range ex_index.
Proof.
  split; [by repeat apply di_set_wf; apply di_new_wf|].
  intros actor d. unfold ex_index. rewrite !di_set_lookup, !lookup_insert_Some.
  unfold ref_in_range, u64_max, u32_max. intros [[<- _]|[_ [[<- _]|[_ He]]]]; simpl; [lia|lia|done].
Qed.

Lemma take_due_exact_witness :
  (DeadlineIdx.take_due 15 ex_index).1 = [MkActorRef 7 1 2] ∧
  di_wf (DeadlineIdx.take_due 15 ex_index).2.
Proof.
  split; [vm_compute; reflexivity|].
  exact (proj2 (proj2 (proj2 (proj2
    (take_due_exact ex_index 15 (proj1 ex_index_wf) (proj2 ex_index_wf)))))).
Defined.
