(* ===== verification/Readiness.v ===== *)
(** * Python readiness index

    [crates/runtime-core/src/readiness.rs]: the four ordered maps of readiness
    hints and the cursor query [next].  The specification is the list of
    entries in order; [scan] is the driver that follows the cursor. *)
From S2P Require Import Prelude Collections Text Types.

Inductive PythonReadyPhase := PhStart | PhFailure | PhDelivery | PhCleanup.
#[export] Instance PythonReadyPhase_eq_dec : EqDecision PythonReadyPhase.
Proof. solve_decision. Defined.

Record PythonReadyIndex := MkReady {
  pr_start : gmap N ActorRef;
  pr_failure : gmap N ActorRef;
  pr_delivery : gmap N ActorRef;
  pr_cleanup : gmap N ActorRef
}.

Module Ready.
Definition new : PythonReadyIndex := MkReady ∅ ∅ ∅ ∅.
Definition set_entry (map : gmap N ActorRef) (order : N) (actor : ActorRef) (present : bool) :
    bool * gmap N ActorRef :=
  if present
  then (bool_decide (map !! order = None), <[order := actor]> map)
  else (false, delete order map).
Definition set (order : N) (actor : ActorRef) (start failure delivery cleanup : bool)
    (i : PythonReadyIndex) : bool * PythonReadyIndex :=
  let '(c1, m1) := set_entry (pr_start i) order actor start in
  let '(c2, m2) := set_entry (pr_failure i) order actor failure in
  let '(c3, m3) := set_entry (pr_delivery i) order actor delivery in
  let '(c4, m4) := set_entry (pr_cleanup i) order actor cleanup in
  (c1 || c2 || c3 || c4, MkReady m1 m2 m3 m4).
Definition entries (phase : PythonReadyPhase) (i : PythonReadyIndex) : gmap N ActorRef :=
  match phase with
  | PhStart => pr_start i
  | PhFailure => pr_failure i
  | PhDelivery => pr_delivery i
  | PhCleanup => pr_cleanup i
  end.
(** [entries.get(k)] paired with its key. *)
Definition entry_of (m : gmap N ActorRef) (k : N) : option (N * ActorRef) :=
  (λ a, (k, a)) <$> m !! k.
Definition next (i : PythonReadyIndex) (phase : PythonReadyPhase) (after : option N)
    (through : N) : option (N * ActorRef) :=
  let m := entries phase i in
  match phase with
  | PhCleanup =>
      match match after with
            | Some a => if (a =? 0)%N then None else Some (N.min through (a - 1))
            | None => Some through
            end with
      | None => None
      | Some upper => last (filter (λ k, (k ≤ upper)%N) (btree_keys m)) ≫= entry_of m
      end
  | _ =>
      let after := default 0%N after in
      if (through <=? after)%N then None
      else head (filter (λ k, (after < k ∧ k ≤ through)%N) (btree_keys m)) ≫= entry_of m
  end.
Definition is_empty (i : PythonReadyIndex) : bool :=
  bool_decide (pr_start i = ∅) && bool_decide (pr_failure i = ∅) &&
  bool_decide (pr_delivery i = ∅) && bool_decide (pr_cleanup i = ∅).
End Ready.

(** The driver's loop over one phase: follow the cursor until [None]. *)
Fixpoint scan (fuel : nat) (i : PythonReadyIndex) (phase : PythonReadyPhase)
    (after : option N) (through : N) : list (N * ActorRef) :=
  match fuel with
  | O => []
  | S fuel =>
      match Ready.next i phase after through with
      | None => []
      | Some (order, actor) => (order, actor) :: scan fuel i phase (Some order) through
      end
  end.

Definition before (after : option N) (k : N) : bool :=
  match after with Some a => (k <? a)%N | None => true end.
(** The keys a phase offers from a cursor on, in the order it offers them. *)
Definition offered (i : PythonReadyIndex) (phase : PythonReadyPhase) (after : option N)
    (through : N) : list N :=
  let keys := btree_keys (Ready.entries phase i) in
  match phase with
  | PhCleanup =>
      reverse (filter (λ k, (k ≤ through)%N ∧ before after k = true) keys)
  | _ => filter (λ k, (default 0%N after < k ∧ k ≤ through)%N) keys
  end.

(** ** Lemmas *)

Lemma filter_iff_eq {A} (P Q : A → Prop) `{∀ x, Decision (P x), ∀ x, Decision (Q x)} (l : list A) :
  (∀ x, x ∈ l → P x ↔ Q x) → filter P l = filter Q l.
Proof.
  induction l as [|x l IH]; intros HPQ; [done|]. rewrite !filter_cons.
  pose proof (HPQ x ltac:(set_solver)). rewrite IH by set_solver.
  repeat case_decide; tauto.
Qed.

Lemma filter_all {A} (P : A → Prop) `{∀ x, Decision (P x)} (l : list A) :
  (∀ x, x ∈ l → P x) → filter P l = l.
Proof.
  induction l as [|x l IH]; intros HP; [done|].
  rewrite filter_cons_True by set_solver. f_equal. apply IH. set_solver.
Qed.

Lemma filter_none {A} (P : A → Prop) `{∀ x, Decision (P x)} (l : list A) :
  (∀ x, x ∈ l → ¬ P x) → filter P l = [].
Proof.
  induction l as [|x l IH]; intros HP; [done|].
  rewrite filter_cons_False by set_solver. apply IH. set_solver.
Qed.

(** Strictly ascending lists of orders. *)
Lemma keys_lt {V} (m : gmap N V) : StronglySorted N.lt (btree_keys m).
Proof.
  unfold btree_keys. pose proof (btree_elems_sorted (dom m)) as Hs.
  pose proof (btree_elems_nodup (dom m)) as Hn.
  induction Hs as [|x l Hs IH Hx]; [constructor|]. apply NoDup_cons in Hn as [Hxl Hn].
  constructor; [auto|]. rewrite Forall_forall in *. intros y Hy. specialize (Hx y Hy).
  unfold key_le, order_key, N_order_key in Hx. simpl in Hx.
  assert (x ≠ y) by (intros ->; done). lia.
Qed.

Lemma filter_after_head (P : N → Prop) `{∀ x, Decision (P x)} k l l' :
  StronglySorted N.lt l → filter P l = k :: l' → filter (λ x, P x ∧ (k < x)%N) l = l'.
Proof.
  intros Hs Hf. pose proof (StronglySorted_filter _ P l Hs) as Hsf. rewrite Hf in Hsf.
  apply StronglySorted_inv in Hsf as [_ Hk]. rewrite Forall_forall in Hk.
  transitivity (filter (λ x, (k < x)%N) (filter P l)).
  { rewrite list_filter_filter. apply filter_iff_eq. naive_solver. }
  rewrite Hf, filter_cons_False by lia. by apply filter_all.
Qed.

Lemma filter_before_last (P : N → Prop) `{∀ x, Decision (P x)} k l l' :
  StronglySorted N.lt l → filter P l = l' ++ [k] → filter (λ x, P x ∧ (x < k)%N) l = l'.
Proof.
  intros Hs Hf. pose proof (StronglySorted_filter _ P l Hs) as Hsf. rewrite Hf in Hsf.
  transitivity (filter (λ x, (x < k)%N) (filter P l)).
  { rewrite list_filter_filter. apply filter_iff_eq. naive_solver. }
  rewrite Hf, filter_app, filter_cons_False by lia. rewrite filter_nil, app_nil_r.
  apply filter_all. intros x Hx. eapply StronglySorted_app_1_elem_of; [done..|]. set_solver.
Qed.

Lemma sorted_reverse l : StronglySorted N.lt l → StronglySorted N.gt (reverse l).
Proof.
  induction 1 as [|x l Hs IH Hx]; [constructor|]. rewrite reverse_cons.
  apply StronglySorted_app_2; [|done|repeat constructor].
  intros y z Hy ->%list_elem_of_singleton. rewrite elem_of_reverse in Hy.
  rewrite Forall_forall in Hx. specialize (Hx y Hy). lia.
Qed.

Lemma last_reverse_head {A} (l : list A) : last l = head (reverse l).
Proof. by rewrite head_reverse. Qed.

Lemma next_offered i phase after through :
  Ready.next i phase after through =
  head (offered i phase after through) ≫= Ready.entry_of (Ready.entries phase i).
Proof.
  assert (∀ m : gmap N ActorRef, (if (through <=? default 0 after)%N then None
    else head (filter (λ k, default 0 after < k ∧ k ≤ through)%N (btree_keys m)) ≫= Ready.entry_of m)
    = head (filter (λ k, default 0 after < k ∧ k ≤ through)%N (btree_keys m)) ≫= Ready.entry_of m)
    as Hasc.
  { intros m. destruct (through <=? default 0 after)%N eqn:Hle; [|done].
    rewrite filter_none by lia. done. }
  unfold Ready.next, offered. destruct phase; simpl; [apply Hasc..|].
  destruct after as [a|].
  - simpl. destruct (a =? 0)%N eqn:Ha.
    + rewrite filter_none by lia. done.
    + rewrite last_reverse_head. do 3 f_equal. apply filter_iff_eq. intros; lia.
  - rewrite last_reverse_head. do 3 f_equal. apply filter_iff_eq. simpl. intros; tauto.
Qed.

Lemma offered_tail_ascending (l0 l : list N) a k through :
  StronglySorted N.lt l0 → filter (λ x, a < x ∧ x ≤ through)%N l0 = k :: l →
  filter (λ x, k < x ∧ x ≤ through)%N l0 = l.
Proof.
  intros Hs Hf. rewrite <- (filter_after_head _ _ _ _ Hs Hf). apply filter_iff_eq.
  intros x _. assert (k ∈ filter (λ x, a < x ∧ x ≤ through)%N l0) as Hk by (rewrite Hf; set_solver).
  apply list_elem_of_filter in Hk. lia.
Qed.

Lemma offered_tail i phase after through k l :
  offered i phase after through = k :: l → offered i phase (Some k) through = l.
Proof.
  unfold offered. pose proof (keys_lt (Ready.entries phase i)) as Hs.
  destruct phase; simpl; intros Hf; try (by eapply offered_tail_ascending).
  apply (f_equal reverse) in Hf. rewrite reverse_involutive, reverse_cons in Hf.
  pose proof (filter_before_last _ _ _ _ Hs Hf) as Hb.
  rewrite <- (reverse_involutive l), <- Hb. f_equal. apply filter_iff_eq. intros x _.
  assert (k ∈ filter (λ x, (x ≤ through)%N ∧ before after x = true) (btree_keys (pr_cleanup i)))
    as Hk by (rewrite Hf; set_solver).
  apply list_elem_of_filter in Hk as [[? Hb'] _].
  destruct after as [a|]; simpl in *; lia.
Qed.

Lemma elem_of_offered i phase after through k :
  k ∈ offered i phase after through → is_Some (Ready.entries phase i !! k).
Proof.
  unfold offered. intros Hk. rewrite <- elem_of_btree_keys. destruct phase;
    rewrite ?elem_of_reverse in Hk; by apply list_elem_of_filter in Hk as [_ Hk].
Qed.

Lemma scan_offered fuel i phase after through :
  length (offered i phase after through) ≤ fuel →
  scan fuel i phase after through =
  omap (Ready.entry_of (Ready.entries phase i)) (offered i phase after through).
Proof.
  revert after. induction fuel as [|fuel IH]; intros after Hfuel; simpl.
  - destruct (offered i phase after through); simpl in *; [done|lia].
  - rewrite next_offered. destruct (offered i phase after through) as [|k l] eqn:Ho; [done|]. simpl.
    destruct (elem_of_offered i phase after through k) as [a Ha]; [rewrite Ho; set_solver|].
    assert (Ready.entry_of (Ready.entries phase i) k = Some (k, a)) as He.
    { unfold Ready.entry_of. by rewrite Ha. }
    rewrite He. pose proof (offered_tail _ _ _ _ _ _ Ho) as Htail. rewrite IH, Htail; [done|].
    rewrite Htail. simpl in Hfuel. lia.
Qed.

Lemma length_offered i phase after through :
  length (offered i phase after through) ≤ size (Ready.entries phase i).
Proof.
  unfold offered. rewrite <- size_dom, <- length_btree_elems.
  destruct phase; rewrite ?length_reverse; apply length_filter.
Qed.

Lemma set_entry_lookup m order actor present k :
  (Ready.set_entry m order actor present).2 !! k =
  if decide (k = order) then (if present then Some actor else None) else m !! k.
Proof.
  unfold Ready.set_entry. destruct present; simpl; case_decide; subst; by simplify_map_eq.
Qed.

(** ** Properties *)

(** C40. A driver that starts a phase without a cursor and follows [next] up to
    the cutoff sees every registered entry of that phase with a positive order
    not beyond the cutoff, once each, in ascending order, or in descending
    order for cleanup; it stops after at most as many steps as there are
    entries. *)
Theorem scan_complete i phase through :
  let m := Ready.entries phase i in
  (∀ k, m !! k ≠ None → (0 < k)%N) →
  let seen := scan (size m) i phase None through in
  (∀ order actor, (order, actor) ∈ seen ↔ m !! order = Some actor ∧ (order ≤ through)%N) ∧
  StronglySorted (if decide (phase = PhCleanup) then N.gt else N.lt) seen.*1.
Proof.
  intros m Hpos seen. unfold seen.
  rewrite scan_offered by apply length_offered. fold m.
  assert (∀ l, (∀ k, k ∈ l → is_Some (m !! k)) → (omap (Ready.entry_of m) l).*1 = l) as Hkeys.
  { induction l as [|k l IH]; intros Hl; [done|]. simpl.
    destruct (Hl k ltac:(set_solver)) as [a Ha]. unfold Ready.entry_of at 1. rewrite Ha. simpl.
    f_equal. apply IH. set_solver. }
  rewrite Hkeys by (intros k; apply elem_of_offered).
  assert (∀ k, is_Some (m !! k) → k ∈ offered i phase None through ↔ (k ≤ through)%N) as Hin.
  { intros k Hk. pose proof (Hpos k ltac:(by apply not_eq_None_Some)).
    apply elem_of_btree_keys in Hk. unfold offered. fold m.
    destruct phase; simpl; rewrite ?elem_of_reverse, list_elem_of_filter; naive_solver lia. }
  split.
  - intros order actor. rewrite list_elem_of_omap. unfold Ready.entry_of. split.
    + intros (k & Hk & Heq). destruct (m !! k) as [a|] eqn:Ha; simplify_eq/=.
      split; [done|]. apply Hin; eauto.
    + intros [Ha Hle]. exists order. rewrite Ha. split; [|done]. apply Hin; eauto.
  - pose proof (keys_lt m) as Hs. unfold offered. fold m.
    destruct phase; simpl; try (by apply StronglySorted_filter).
    by apply sorted_reverse, StronglySorted_filter.
Qed.

(** [set] makes the four phases of one order exactly the requested ones,
    leaves every other order alone, and reports a change precisely when some
    requested phase had no entry before. *)
Theorem ready_set_exact i order actor start failure delivery cleanup :
  let '(changed, i') := Ready.set order actor start failure delivery cleanup i in
  let want phase := match phase with
                    | PhStart => start | PhFailure => failure
                    | PhDelivery => delivery | PhCleanup => cleanup
                    end in
  (∀ phase k, Ready.entries phase i' !! k =
     if decide (k = order) then (if want phase then Some actor else None)
     else Ready.entries phase i !! k) ∧
  (changed = true ↔ ∃ phase, want phase = true ∧ Ready.entries phase i !! order = None).
Proof.
  unfold Ready.set.
  destruct (Ready.set_entry (pr_start i) order actor start) as [c1 m1] eqn:E1.
  destruct (Ready.set_entry (pr_failure i) order actor failure) as [c2 m2] eqn:E2.
  destruct (Ready.set_entry (pr_delivery i) order actor delivery) as [c3 m3] eqn:E3.
  destruct (Ready.set_entry (pr_cleanup i) order actor cleanup) as [c4 m4] eqn:E4. simpl.
  split.
  - intros [] k; simpl; [rewrite <- (set_entry_lookup (pr_start i)), E1
      |rewrite <- (set_entry_lookup (pr_failure i)), E2
      |rewrite <- (set_entry_lookup (pr_delivery i)), E3
      |rewrite <- (set_entry_lookup (pr_cleanup i)), E4]; done.
  - assert (∀ m p c m', Ready.set_entry m order actor p = (c, m') →
      c = true ↔ p = true ∧ m !! order = None) as Hc.
    { unfold Ready.set_entry. intros m [] c m' Heq; simplify_eq; [|naive_solver].
      rewrite bool_decide_eq_true. naive_solver. }
    apply Hc in E1, E2, E3, E4. rewrite !orb_true_iff, E1, E2, E3, E4. split.
    + intros [[[[]|[]]|[]]|[]]; [exists PhStart|exists PhFailure|exists PhDelivery|exists PhCleanup]; done.
    + intros [[] Hp]; simpl in Hp; tauto.
Qed.

Definition ex_ready : PythonReadyIndex :=
  (Ready.set 10 (MkActorRef 9 1 1) true false false true
    (Ready.set 20 (MkActorRef 9 2 1) true false false true Ready.new).2).2.

Lemma scan_complete_witness :
  scan 2 ex_ready PhCleanup None 25 = [(20%N, MkActorRef 9 2 1); (10%N, MkActorRef 9 1 1)] ∧
  StronglySorted N.gt (scan 2 ex_ready PhCleanup None 25).*1.
Proof.
  split; [vm_compute; reflexivity|].
  refine (proj2 (scan_complete ex_ready PhCleanup 25 _)).
  intros k Hk. destruct k as [|p]; [|lia].
  exfalso. apply Hk. vm_compute. reflexivity.
Defined.
