(* ===== verification/Operations.v ===== *)
(** * Operation table

    [crates/runtime-core/src/operations.rs]: request/reply operations in
    generational slots, indexed by owner, by target and by deadline.  The
    methods of the source that take [&mut self] are actions on the table; those
    that take [&self] are functions of it. *)
From S2P Require Import Prelude Collections Text Types.

Inductive OperationFailure := HandlerFailed | ResultTooLarge.
Inductive TerminalOutcome :=
| Completed (payload : HeldPayload)
| Failed (code : OperationFailure) (message : string)
| TimedOut
| Cancelled
| OwnerStopped
| TargetStopped.

Record OperationOwner := MkOperationOwner { oo_owner : ActorRef; oo_target : ActorRef }.
Record PendingOperation := MkPending {
  po_owner : ActorRef; po_target : ActorRef; po_deadline : Instant;
  po_context : option HeldPayload
}.
#[export] Instance PendingOperation_expand : Expand PendingOperation := λ r,
  MkPending (po_owner r) (po_target r) (po_deadline r) (po_context r).
Inductive OperationStatus :=
| SPending (p : PendingOperation)
| STerminal (o : TerminalOutcome).
Inductive Entry :=
| EPending (p : PendingOperation)
| ETerminal (o : TerminalOutcome).

Record OperationTable := MkTable {
  ot_world : N;
  ot_max : N;
  ot_slots : list (option Entry);
  ot_generations : list N;
  ot_owners : list (option ActorRef);
  ot_free : list N;   (* a stack: the head is the last element of the [Vec] *)
  ot_live : N;
  ot_pending : N;
  ot_pending_owners : gmap ActorRef N;
  ot_owner_index : gmap ActorRef (gset OperationId);
  ot_target_index : gmap ActorRef (gset OperationId);
  ot_deadlines : gset (N * N * N)
}.
#[export] Instance OperationTable_expand : Expand OperationTable := λ r,
  MkTable (ot_world r) (ot_max r) (ot_slots r) (ot_generations r) (ot_owners r) (ot_free r)
    (ot_live r) (ot_pending r) (ot_pending_owners r) (ot_owner_index r) (ot_target_index r)
    (ot_deadlines r).
Abbreviation OpM := (M OperationTable error).

Definition slot_index (id : OperationId) : nat := N.to_nat (op_slot id).
Definition deadline_key (deadline : Instant) (id : OperationId) : N * N * N :=
  (deadline, op_slot id, op_generation id).

Module Operations.
Definition new (world_id max_operations : N) : error + OperationTable :=
  if (max_operations =? 0)%N || (u32_max <? max_operations)%N
  then inl Error.InvalidConfig
  else inr (MkTable world_id max_operations [] [] [] [] 0 0 ∅ ∅ ∅ ∅).

Definition id (t : OperationTable) (slot : N) : option OperationId :=
  MkOperationId (ot_world t) slot <$> ot_generations t !! N.to_nat slot.

Definition locate (t : OperationTable) (id : OperationId) : outcome error nat :=
  if bool_decide (op_world id ≠ ot_world t) then Err Error.CrossWorld else
  let i := slot_index id in
  if bool_decide (length (ot_slots t) ≤ i) then Err Error.StaleReference else
  match ot_generations t !! i, ot_slots t !! i with
  | Some generation, Some slot =>
      if bool_decide (generation ≠ op_generation id) || bool_decide (slot = None)
      then Err Error.StaleReference else Ok i
  | _, _ => Panic
  end.

Definition index_pending (id : OperationId) (p : PendingOperation) (t : OperationTable) :
    OperationTable :=
  t <| ot_owners ::= <[slot_index id := Some (po_owner p)]> |>
    <| ot_pending_owners ::= cnt_add (po_owner p) |>
    <| ot_owner_index ::= idx_add (po_owner p) id |>
    <| ot_target_index ::= idx_add (po_target p) id |>
    <| ot_deadlines ::= union {[deadline_key (po_deadline p) id]} |>.

Definition remove_pending_owner (owner : ActorRef) (t : OperationTable) : OperationTable :=
  match cnt_sub owner (ot_pending_owners t) with
  | Some m => t <| ot_pending_owners := m |>
  | None => t
  end.
Definition remove_target_index (id : OperationId) (p : PendingOperation) (t : OperationTable) :
    OperationTable :=
  t <| ot_target_index ::= idx_remove (po_target p) id |>.
Definition remove_deadline (id : OperationId) (p : PendingOperation) (t : OperationTable) :
    OperationTable :=
  t <| ot_deadlines ::= λ s, s ∖ {[deadline_key (po_deadline p) id]} |>.
Definition remove_index (id : OperationId) (p : PendingOperation) (t : OperationTable) :
    OperationTable :=
  let t := t <| ot_owners ::= <[slot_index id := None]> |> in
  let t := remove_pending_owner (po_owner p) t in
  let t := t <| ot_owner_index ::= idx_remove (po_owner p) id |> in
  let t := remove_target_index id p t in
  remove_deadline id p t.
Definition remove_owner_index (id : OperationId) (t : OperationTable) : OperationTable :=
  match ot_owners t !! slot_index id with
  | Some (Some owner) =>
      t <| ot_owners ::= <[slot_index id := None]> |>
        <| ot_owner_index ::= idx_remove owner id |>
  | _ => t
  end.

(** The message of a failure is cut to 1024 bytes at a character boundary. *)
Definition normalize_message (message : string) : string := truncate_str message 1024.
Definition normalize (o : TerminalOutcome) : TerminalOutcome :=
  match o with
  | Failed code message => Failed code (normalize_message message)
  | o => o
  end.

Definition retire_generation (index : nat) : OpM unit :=
  let! t := get in
  let! generation := expect (ot_generations t !! index) in
  match checked_add u64_max generation 1 with
  | Some next =>
      modify (λ t, t <| ot_generations ::= <[index := next]> |>
                     <| ot_free ::= cons (N.of_nat index) |>)
  | None => ret tt
  end.

Definition pending_count (t : OperationTable) : N := ot_pending t.
Definition len (t : OperationTable) : N := ot_live t.
Definition retained_terminal_count (t : OperationTable) : N := (ot_live t - ot_pending t)%N.

Definition push_slot : OpM N :=
  let! t := get in
  modify (λ t, t <| ot_slots ::= λ l, l ++ [None] |> <| ot_generations ::= λ l, l ++ [1%N] |>
                 <| ot_owners ::= λ l, l ++ [None] |>) ;;;
  ret (N.of_nat (length (ot_slots t))).

Definition reserve (owner target : ActorRef) (deadline : Instant) : OpM OperationId :=
  let! t := get in
  reject_if (bool_decide (ar_world owner ≠ ot_world t) ||
             bool_decide (ar_world target ≠ ot_world t)) Error.CrossWorld ;;;
  reject_if (ot_max t <=? ot_live t)%N Error.LimitExceeded ;;;
  reject_if (bool_decide (ot_free t = []) &&
             (ot_max t <=? N.of_nat (length (ot_slots t)))%N) Error.LimitExceeded ;;;
  let! slot := match ot_free t with
               | slot :: free => modify (λ t, t <| ot_free := free |>) ;;; ret slot
               | [] => push_slot
               end in
  let! t := get in
  let! new_id := expect (id t slot) in
  let p := MkPending owner target deadline None in
  modify (λ t, t <| ot_slots ::= <[N.to_nat slot := Some (EPending p)]> |>) ;;;
  modify (index_pending new_id p) ;;;
  modify (λ t, t <| ot_live ::= N.succ |> <| ot_pending ::= N.succ |>) ;;;
  ret new_id.

Definition set_context (id : OperationId) (context : HeldPayload) : OpM unit :=
  let! t := get in
  reject_if (bool_decide (held_world context ≠ ot_world t)) Error.CrossWorld ;;;
  let! index := of_outcome (locate t id) in
  match ot_slots t !! index with
  | Some (Some (EPending operation)) =>
      reject_if (bool_decide (is_Some (po_context operation))) Error.InvalidConfig ;;;
      modify (λ t, t <| ot_slots ::=
        <[index := Some (EPending (operation <| po_context := Some context |>))]> |>)
  | Some (Some (ETerminal _)) => fail Error.InvalidConfig
  | Some None => fail Error.StaleReference
  | None => panic
  end.

Definition complete (id : OperationId) (result : TerminalOutcome) : OpM bool :=
  let! t := get in
  reject_if (match result with
             | Completed payload => bool_decide (held_world payload ≠ ot_world t)
             | _ => false
             end) Error.CrossWorld ;;;
  let! i := of_outcome (locate t id) in
  match ot_slots t !! i with
  | Some (Some (EPending p)) =>
      modify (remove_target_index id p) ;;;
      modify (remove_pending_owner (po_owner p)) ;;;
      modify (remove_deadline id p) ;;;
      decr ot_pending ;;;
      modify (λ t, t <| ot_slots ::= <[i := Some (ETerminal (normalize result))]> |>) ;;;
      ret true
  | Some (Some (ETerminal _)) => ret false
  | _ => panic
  end.

Definition status (t : OperationTable) (id : OperationId) : outcome error OperationStatus :=
  match locate t id with
  | Ok i =>
      match ot_slots t !! i with
      | Some (Some (EPending p)) => Ok (SPending p)
      | Some (Some (ETerminal o)) => Ok (STerminal o)
      | _ => Panic
      end
  | Err e => Err e
  | Panic => Panic
  end.

Definition take (id : OperationId) : OpM (option TerminalOutcome) :=
  let! t := get in
  let! i := of_outcome (locate t id) in
  match ot_slots t !! i with
  | Some (Some (EPending p)) => ret None
  | Some (Some (ETerminal o)) =>
      modify (λ t, t <| ot_slots ::= <[i := None]> |>) ;;;
      modify (remove_owner_index id) ;;;
      decr ot_live ;;;
      retire_generation i ;;;
      ret (Some o)
  | _ => panic
  end.

Definition release_unsubmitted (id : OperationId) : OpM bool :=
  let! t := get in
  let! i := of_outcome (locate t id) in
  match ot_slots t !! i with
  | Some (Some (EPending p)) =>
      modify (λ t, t <| ot_slots ::= <[i := None]> |>) ;;;
      modify (remove_index id p) ;;;
      decr ot_pending ;;;
      decr ot_live ;;;
      retire_generation i ;;;
      ret true
  | Some (Some (ETerminal o)) => ret false
  | _ => panic
  end.

(** [for id in ids { if self.complete(id, outcome.clone()).unwrap_or(false) { n += 1; } }] *)
Fixpoint transition_ids (ids : list OperationId) (result : TerminalOutcome) : OpM N :=
  match ids with
  | [] => ret 0%N
  | id :: ids =>
      let! won := unwrap_or false (complete id result) in
      let! n := transition_ids ids result in
      ret (if won then N.succ n else n)
  end.

Definition pending_for (t : OperationTable) (owner : ActorRef) : N :=
  cnt_get owner (ot_pending_owners t).
Definition pending_for_target (t : OperationTable) (target : ActorRef) : N :=
  N.of_nat (size (idx_get target (ot_target_index t))).

Definition participants (t : OperationTable) (id : OperationId) :
    outcome error (ActorRef * option ActorRef) :=
  match locate t id with
  | Ok index =>
      match ot_owners t !! index with
      | Some (Some owner) =>
          match ot_slots t !! index with
          | Some (Some (EPending operation)) => Ok (owner, Some (po_target operation))
          | Some (Some (ETerminal _)) => Ok (owner, None)
          | Some None => Err Error.StaleReference
          | None => Panic
          end
      | Some None => Err Error.StaleReference
      | None => Panic
      end
  | Err e => Err e
  | Panic => Panic
  end.

(** The pending operation behind an identifier, as the [filter_map]s read it. *)
Definition pending_at (t : OperationTable) (id : OperationId) : option OperationOwner :=
  match locate t id with
  | Ok index =>
      match ot_slots t !! index with
      | Some (Some (EPending p)) => Some (MkOperationOwner (po_owner p) (po_target p))
      | _ => None
      end
  | _ => None
  end.
Definition pending_participants_for (t : OperationTable) (actor : ActorRef) :
    list OperationOwner :=
  omap (pending_at t)
    (btree_elems (idx_get actor (ot_owner_index t) ∪ idx_get actor (ot_target_index t))).

Definition located (t : OperationTable) (id : OperationId) : bool :=
  match locate t id with Ok _ => true | _ => false end.
Definition key_id (t : OperationTable) (e : N * N * N) : OperationId :=
  let '(_, slot, generation) := e in MkOperationId (ot_world t) slot generation.
Fixpoint take_while_due (now : Instant) (l : list (N * N * N)) : list (N * N * N) :=
  match l with
  | [] => []
  | (deadline, slot, generation) :: l =>
      if (deadline <=? now)%N then (deadline, slot, generation) :: take_while_due now l else []
  end.
Definition due_participants (t : OperationTable) (now : Instant) : list OperationOwner :=
  omap (pending_at t)
    (sort_keys (filter (λ id, located t id = true)
      (key_id t <$> take_while_due now (btree_elems (ot_deadlines t))))).

Definition scope_ids (t : OperationTable) (scope : gset ActorRef) : gset OperationId :=
  ⋃ ((λ actor, idx_get actor (ot_owner_index t) ∪ idx_get actor (ot_target_index t))
     <$> elements scope).
Definition scope_pending (t : OperationTable) (id : OperationId) : bool :=
  match locate t id with
  | Ok index => match ot_slots t !! index with Some (Some (EPending _)) => true | _ => false end
  | _ => false
  end.
Definition scope_retained (t : OperationTable) (scope : gset ActorRef) (id : OperationId) : bool :=
  match locate t id with
  | Ok index =>
      match ot_slots t !! index, ot_owners t !! index with
      | Some (Some (ETerminal _)), Some (Some owner) => bool_decide (owner ∈ scope)
      | _, _ => false
      end
  | _ => false
  end.
Definition counts_for_scope (t : OperationTable) (scope : gset ActorRef) : N * N :=
  let ids := elements (scope_ids t scope) in
  (count_by (scope_pending t) ids, count_by (scope_retained t scope) ids).

Fixpoint retire_ids (ids : list OperationId) : OpM N :=
  match ids with
  | [] => ret 0%N
  | id :: ids =>
      try_ (complete id OwnerStopped) ;;;
      let! taken := unwrap_or None (take id) in
      let! n := retire_ids ids in
      ret (if taken is Some _ then N.succ n else n)
  end.
Definition retire_owner (owner : ActorRef) : OpM N :=
  let! t := get in
  retire_ids (btree_elems (idx_get owner (ot_owner_index t))).
Definition cancel_owner (owner : ActorRef) : OpM N :=
  let! t := get in
  transition_ids (btree_elems (idx_get owner (ot_owner_index t))) OwnerStopped.
Definition stop_target (target : ActorRef) : OpM N :=
  let! t := get in
  transition_ids (btree_elems (idx_get target (ot_target_index t))) TargetStopped.

(** [while let Some(&first) = self.deadlines.first() { ... pop_first() ... }];
    each round removes an entry, so the size of the set is enough fuel. *)
Fixpoint pop_due (fuel : nat) (now : Instant) : OpM (list OperationId) :=
  match fuel with
  | O => panic
  | S fuel =>
      let! t := get in
      match btree_first (ot_deadlines t) with
      | None => ret []
      | Some (deadline, slot, generation) =>
          if (now <? deadline)%N then ret [] else
          modify (λ t, t <| ot_deadlines ::= λ s, s ∖ {[(deadline, slot, generation)]} |>) ;;;
          let id := MkOperationId (ot_world t) slot generation in
          let! ids := pop_due fuel now in
          ret (if located t id then id :: ids else ids)
      end
  end.
(** One round of the loop that completes the popped operations: an error is
    the panic of [expect]. *)
Definition time_out (id : OperationId) : OpM unit :=
  let! r := try_ (complete id TimedOut) in
  match r with inl _ => panic | inr _ => ret tt end.
Definition expire_ids (now : Instant) : OpM (list OperationId) :=
  let! t := get in
  let! ids := pop_due (S (size (ot_deadlines t))) now in
  for_each time_out ids ;;;
  ret (sort_keys ids).
Definition expire_one (id : OperationId) (now : Instant) : OpM bool :=
  let! t := get in
  let! index := of_outcome (locate t id) in
  match ot_slots t !! index with
  | Some (Some (EPending p)) =>
      if (po_deadline p <=? now)%N then complete id TimedOut else ret false
  | _ => ret false
  end.
End Operations.

(** ** Specification *)

(** [live_at t id e]: the identifier [id] denotes the entry [e]. *)
Definition live_at (t : OperationTable) (id : OperationId) (e : Entry) : Prop :=
  op_world id = ot_world t ∧ ot_slots t !! slot_index id = Some (Some e) ∧
  ot_generations t !! slot_index id = Some (op_generation id).

Definition is_occupied (s : option Entry) : bool := match s with Some _ => true | None => false end.
Definition is_pending (s : option Entry) : bool :=
  match s with Some (EPending _) => true | _ => false end.
Definition pending_of (owner : ActorRef) (s : option Entry) : bool :=
  match s with Some (EPending p) => bool_decide (po_owner p = owner) | _ => false end.

(** The owner recorded for a slot. *)
Definition owner_fits (s : option Entry) (o : option ActorRef) : Prop :=
  match s with
  | None => o = None
  | Some (EPending p) => o = Some (po_owner p)
  | Some (ETerminal _) => is_Some o
  end.

Definition owner_rel (t : OperationTable) (owner : ActorRef) (id : OperationId) : Prop :=
  ∃ e, live_at t id e ∧ ot_owners t !! slot_index id = Some (Some owner).
Definition target_rel (t : OperationTable) (target : ActorRef) (id : OperationId) : Prop :=
  ∃ p, live_at t id (EPending p) ∧ po_target p = target.

(** The table invariant.  [X] are pending operations whose deadline entry has
    been popped by a running [expire_ids]; it is empty between calls. *)
Record ot_wf (X : list OperationId) (t : OperationTable) : Prop := {
  wf_len_gens : length (ot_generations t) = length (ot_slots t);
  wf_len_owners : length (ot_owners t) = length (ot_slots t);
  wf_bound : (N.of_nat (length (ot_slots t)) ≤ ot_max t)%N;
  wf_live : ot_live t = count_by is_occupied (ot_slots t);
  wf_pending : ot_pending t = count_by is_pending (ot_slots t);
  wf_counts : cnt_wf (λ o, count_by (pending_of o) (ot_slots t)) (ot_pending_owners t);
  wf_owners i s o : ot_slots t !! i = Some s → ot_owners t !! i = Some o → owner_fits s o;
  wf_owner_index : idx_wf (owner_rel t) (ot_owner_index t);
  wf_target_index : idx_wf (target_rel t) (ot_target_index t);
  wf_deadlines k : k ∈ ot_deadlines t ↔
    ∃ id p, live_at t id (EPending p) ∧ k = deadline_key (po_deadline p) id ∧ id ∉ X;
  wf_free_nodup : NoDup (ot_free t);
  wf_free s : s ∈ ot_free t → ot_slots t !! N.to_nat s = Some None
}.

(** ** Lemmas *)
Lemma slot_index_inj t id1 id2 e1 e2 :
  live_at t id1 e1 → live_at t id2 e2 → slot_index id1 = slot_index id2 → id1 = id2.
Proof.
  intros (Hw1 & _ & Hg1) (Hw2 & _ & Hg2) Hs. rewrite Hs, Hg2 in Hg1.
  destruct id1 as [w1 s1 g1], id2 as [w2 s2 g2]. unfold slot_index in *. simpl in *.
  apply N2Nat.inj in Hs. naive_solver.
Qed.

Lemma of_slot_index id : N.of_nat (slot_index id) = op_slot id.
Proof. apply N2Nat.id. Qed.

Lemma live_at_fun t id e1 e2 : live_at t id e1 → live_at t id e2 → e1 = e2.
Proof. intros (_ & H1 & _) (_ & H2 & _). congruence. Qed.

Lemma locate_live t id e : live_at t id e → Operations.locate t id = Ok (slot_index id).
Proof.
  intros (Hw & Hs & Hg). unfold Operations.locate.
  rewrite bool_decide_false by tauto. apply lookup_lt_Some in Hs as Hlt.
  rewrite bool_decide_false by lia. rewrite Hg, Hs.
  by rewrite !bool_decide_false by (intros []; done).
Qed.

(** Every outcome of [locate]: a foreign world, a stale identifier, or the slot
    of a live one; never a panic on a well-formed table. *)
Lemma locate_cases X t id :
  ot_wf X t →
  (op_world id ≠ ot_world t ∧ Operations.locate t id = Err Error.CrossWorld) ∨
  (op_world id = ot_world t ∧ (∀ e, ¬ live_at t id e) ∧
   Operations.locate t id = Err Error.StaleReference) ∨
  (∃ e, live_at t id e ∧ Operations.locate t id = Ok (slot_index id)).
Proof.
  intros Hwf. unfold Operations.locate. case_bool_decide as Hw; [auto|].
  right. case_bool_decide as Hlt.
  { left. split; [done|]. split; [|done]. intros e (_ & Hs & _).
    apply lookup_lt_Some in Hs. lia. }
  destruct (lookup_lt_is_Some_2 (ot_slots t) (slot_index id)) as [s Hs]; [lia|].
  destruct (lookup_lt_is_Some_2 (ot_generations t) (slot_index id)) as [g Hg].
  { rewrite (wf_len_gens X t Hwf). lia. }
  rewrite Hg, Hs. repeat case_bool_decide; simpl.
  - left. split; [done|]. split; [|done]. intros e (_ & _ & ?). congruence.
  - left. split; [done|]. split; [|done]. intros e (_ & _ & ?). congruence.
  - left. split; [done|]. split; [|done]. intros e (_ & ? & _). congruence.
  - right. destruct s as [e|]; [|done]. exists e. split; [|done]. split; [done|].
    split; [done|]. by rewrite Hg; f_equal.
Qed.

(** Liveness after the slot of a live identifier is overwritten. *)
Lemma live_at_update t t' id e v id' e' :
  live_at t id e →
  ot_world t' = ot_world t → ot_generations t' = ot_generations t →
  ot_slots t' = <[slot_index id := v]> (ot_slots t) →
  live_at t' id' e' ↔ (id' = id ∧ v = Some e') ∨ (id' ≠ id ∧ live_at t id' e').
Proof.
  intros Hl Hw Hg Hs. pose proof Hl as (Hlw & Hls & Hlg). unfold live_at at 1.
  rewrite Hw, Hg, Hs. split.
  - intros (Hw' & [(Heq & -> & _)|[Hne Hs']]%list_lookup_insert_Some & Hg').
    + left. split; [|done]. destruct id, id'. unfold slot_index in *; simpl in *.
      apply N2Nat.inj in Heq. subst. rewrite Hlg in Hg'. by simplify_eq.
    + right. split; [intros ->; done|]. done.
  - intros [[-> ->]|[Hne Hl']].
    + split; [done|]. split; [|done]. apply list_lookup_insert_eq. by eapply lookup_lt_Some.
    + pose proof Hl' as (? & ? & ?). split; [done|]. split; [|done].
      rewrite list_lookup_insert_ne; [done|]. intros Heq. apply Hne.
      symmetry. by eapply slot_index_inj.
Qed.

(** Liveness after the slot of a live identifier is emptied and its generation
    possibly advanced. *)
Lemma live_at_retire t t' id e g id' e' :
  live_at t id e →
  ot_world t' = ot_world t →
  ot_generations t' = <[slot_index id := g]> (ot_generations t) →
  ot_slots t' = <[slot_index id := None]> (ot_slots t) →
  live_at t' id' e' ↔ id' ≠ id ∧ live_at t id' e'.
Proof.
  intros Hl Hw Hg Hs. unfold live_at at 1. rewrite Hw, Hg, Hs. split.
  - intros (Hw' & [(Heq & ? & _)|[Hne Hs']]%list_lookup_insert_Some & Hg'); [done|].
    rewrite list_lookup_insert_ne in Hg' by done. split; [intros ->; done|done].
  - intros [Hne Hl']. pose proof Hl' as (? & ? & ?).
    assert (slot_index id ≠ slot_index id').
    { intros Heq. apply Hne. symmetry. by eapply slot_index_inj. }
    by rewrite !list_lookup_insert_ne.
Qed.

(** *** Completing a pending operation *)
Definition finish (t : OperationTable) (id : OperationId) (p : PendingOperation)
    (r : TerminalOutcome) : OperationTable :=
  let t := Operations.remove_target_index id p t in
  let t := Operations.remove_pending_owner (po_owner p) t in
  let t := Operations.remove_deadline id p t in
  t <| ot_pending ::= λ x, (x - 1)%N |>
    <| ot_slots ::= <[slot_index id := Some (ETerminal (Operations.normalize r))]> |>.

(** A result payload of another World is refused. *)
Definition outcome_ok (t : OperationTable) (r : TerminalOutcome) : Prop :=
  match r with Completed payload => held_world payload = ot_world t | _ => True end.

Lemma remove_pending_owner_spec X t id p :
  ot_wf X t → live_at t id (EPending p) →
  ∃ m, cnt_sub (po_owner p) (ot_pending_owners t) = Some m ∧
       cnt_wf (λ o, count_by (pending_of o) (ot_slots t) - b2n (bool_decide (o = po_owner p)))%N m.
Proof.
  intros Hwf (_ & Hs & _). apply cnt_sub_wf; [by eapply wf_counts|].
  pose proof (count_by_lookup (pending_of (po_owner p)) _ _ _ Hs) as Hc. simpl in Hc.
  rewrite bool_decide_true in Hc by done. simpl in Hc. lia.
Qed.

Lemma finish_live t id p r id' e' :
  live_at t id (EPending p) →
  live_at (finish t id p r) id' e' ↔
  (id' = id ∧ e' = ETerminal (Operations.normalize r)) ∨ (id' ≠ id ∧ live_at t id' e').
Proof.
  intros Hl.
  rewrite (live_at_update t (finish t id p r) id (EPending p)
    (Some (ETerminal (Operations.normalize r)))); try done; [naive_solver|..];
    unfold finish, Operations.remove_pending_owner; by destruct (cnt_sub _ _).
Qed.

Lemma finish_wf X t id p r :
  ot_wf X t → live_at t id (EPending p) → ot_wf X (finish t id p r).
Proof.
  intros Hwf Hl. pose proof (λ id' e', finish_live t id p r id' e' Hl) as Hlive.
  destruct (remove_pending_owner_spec X t id p Hwf Hl) as (m & Hm & Hmwf).
  revert Hlive. unfold finish, Operations.remove_pending_owner. simpl. rewrite Hm. intros Hlive.
  pose proof Hl as (_ & Hs & _).
  pose proof (λ f, count_by_insert f _ _ _ (Some (ETerminal (Operations.normalize r))) Hs) as Hcount.
  destruct Hwf. split; simpl in *; rewrite ?length_insert; try done.
  - specialize (Hcount is_occupied). simpl in Hcount. lia.
  - specialize (Hcount is_pending). simpl in Hcount. lia.
  - eapply cnt_wf_ext; [|done]. intros o. specialize (Hcount (pending_of o)). simpl in *.
    pose proof (count_by_lookup (pending_of o) _ _ _ Hs) as Hle. simpl in Hle.
    repeat case_bool_decide; simplify_eq; simpl in *; lia || done.
  - intros i s o [(<- & <- & _)|[_ Hs']]%list_lookup_insert_Some Ho; [|by eapply wf_owners0].
    simpl. rewrite (wf_owners0 _ _ _ Hs Ho). done.
  - eapply idx_wf_iff; [|done]. intros o id'. unfold owner_rel. setoid_rewrite Hlive. simpl.
    destruct (decide (id' = id)) as [->|Hne]; naive_solver.
  - eapply idx_wf_iff; [|by apply idx_remove_wf]. intros tg id'. unfold target_rel.
    setoid_rewrite Hlive. split.
    + intros [(p' & Hp' & <-) Hne]. exists p'. split; [|done]. right. split; [|done].
      intros ->. pose proof (live_at_fun _ _ _ _ Hl Hp'). simplify_eq. by apply Hne.
    + intros (p' & [[_ ?]|[Hne Hp']] & <-); [done|]. split; [eauto|]. naive_solver.
  - intros k. rewrite elem_of_difference, elem_of_singleton, wf_deadlines0. setoid_rewrite Hlive.
    split.
    + intros [(id' & p' & Hp' & -> & HX) Hne]. exists id', p'. split; [|done]. right.
      split; [|done]. intros ->. pose proof (live_at_fun _ _ _ _ Hl Hp'). by simplify_eq.
    + intros (id' & p' & [[_ ?]|[Hne Hp']] & -> & HX); [done|]. split; [eauto 10|].
      unfold deadline_key. intros [= _ Hsl Hg]. apply Hne. destruct Hp' as (? & _), Hl as (? & _).
      destruct id, id'. simpl in *. congruence.
  - intros s Hfree. specialize (wf_free0 s Hfree).
    rewrite list_lookup_insert_ne; [done|]. intros Heq. rewrite Heq in Hs. congruence.
Qed.

Lemma complete_pending X t id p r :
  ot_wf X t → live_at t id (EPending p) → outcome_ok t r →
  Operations.complete id r t = (Ok true, finish t id p r).
Proof.
  intros Hwf Hl Hr. pose proof Hl as (_ & Hs & _).
  assert (0 < ot_pending t)%N as Hpos.
  { rewrite (wf_pending X t Hwf). pose proof (count_by_lookup is_pending _ _ _ Hs) as Hc. simpl in Hc. lia. }
  unfold Operations.complete, bind, get, of_outcome, modify, ret, decr, reject_if.
  assert ((match r with Completed payload => bool_decide (held_world payload ≠ ot_world t)
    | _ => false end) = false) as ->.
  { destruct r; try done. apply bool_decide_false. intros Hne. by apply Hne. }
  unfold ret. rewrite (locate_live _ _ _ Hl), Hs. unfold finish.
  assert (ot_pending (Operations.remove_pending_owner (po_owner p)
    (Operations.remove_target_index id p t)) = ot_pending t) as Hp.
  { unfold Operations.remove_pending_owner. by destruct (cnt_sub _ _). }
  simpl. rewrite decide_False; [done|]. simpl. rewrite Hp. lia.
Qed.

(** *** Retiring a slot *)

(** What emptying the slot of a live identifier does to each field. *)
Record retires (t t' : OperationTable) (id : OperationId) (e : Entry) : Prop := {
  re_world : ot_world t' = ot_world t;
  re_max : ot_max t' = ot_max t;
  re_slots : ot_slots t' = <[slot_index id := None]> (ot_slots t);
  re_owners : ot_owners t' = <[slot_index id := None]> (ot_owners t);
  re_gens : ∃ g, ot_generations t' = <[slot_index id := g]> (ot_generations t) ∧
    ((g = op_generation id ∧ ot_free t' = ot_free t) ∨
     ((op_generation id < g)%N ∧ ot_free t' = op_slot id :: ot_free t));
  re_live : ot_live t' = (ot_live t - 1)%N;
  re_pending : ot_pending t' = (ot_pending t - b2n (is_pending (Some e)))%N;
  re_counts : cnt_wf (λ o, count_by (pending_of o) (ot_slots t) - b2n (pending_of o (Some e)))%N
                (ot_pending_owners t');
  re_owner_index : idx_wf (λ o id', owner_rel t o id' ∧ id' ≠ id) (ot_owner_index t');
  re_target_index : idx_wf (λ tg id', target_rel t tg id' ∧ id' ≠ id) (ot_target_index t');
  re_deadlines k : k ∈ ot_deadlines t' ↔
    ∃ id' p, live_at t id' (EPending p) ∧ k = deadline_key (po_deadline p) id' ∧ id' ≠ id
}.

Lemma retires_live t t' id e id' e' :
  live_at t id e → retires t t' id e → live_at t' id' e' ↔ id' ≠ id ∧ live_at t id' e'.
Proof.
  intros Hl Hr. destruct (re_gens _ _ _ _ Hr) as (g & Hg & _).
  eapply live_at_retire; [done|apply Hr|done|apply Hr].
Qed.

Lemma retires_wf t t' id e : ot_wf [] t → live_at t id e → retires t t' id e → ot_wf [] t'.
Proof.
  intros Hwf Hl Hr. pose proof (λ id' e', retires_live t t' id e id' e' Hl Hr) as Hlive.
  pose proof Hl as (_ & Hs & _).
  pose proof (λ f, count_by_insert f _ _ _ None Hs) as Hcount.
  destruct Hwf, Hr. destruct re_gens0 as (g & Hgens & re_free0).
  split; rewrite ?re_slots0, ?re_owners0, ?Hgens, ?re_live0, ?re_pending0, ?re_max0, ?length_insert;
    try done.
  - specialize (Hcount is_occupied). simpl in Hcount. lia.
  - specialize (Hcount is_pending). simpl in Hcount. destruct e; simpl in *; lia.
  - eapply cnt_wf_ext; [|done]. intros o. specialize (Hcount (pending_of o)).
    change (pending_of o None) with false in Hcount. cbn [b2n] in Hcount.
    change ((λ x, count_by (pending_of o) x) (ot_slots t)) with (count_by (pending_of o) (ot_slots t)).
    cbv beta in *. lia.
  - intros i s o [(<- & <- & _)|[Hne Hs']]%list_lookup_insert_Some Ho.
    + apply list_lookup_insert_Some in Ho as [(_ & <- & _)|[? _]]; done.
    + rewrite list_lookup_insert_ne in Ho by done. by eapply wf_owners0.
  - eapply idx_wf_iff; [|done]. intros o id'. unfold owner_rel. setoid_rewrite Hlive.
    rewrite re_owners0. split.
    + intros [(e' & Hl' & Ho) Hne]. exists e'. split; [done|]. rewrite list_lookup_insert_ne; [done|].
      intros Heq. apply Hne. symmetry. by eapply slot_index_inj.
    + intros (e' & [Hne Hl'] & Ho). split; [|done]. exists e'. split; [done|].
      rewrite list_lookup_insert_ne in Ho; [done|].
      intros Heq. apply Hne. symmetry. by eapply slot_index_inj.
  - eapply idx_wf_iff; [|done]. intros tg id'. unfold target_rel. setoid_rewrite Hlive. naive_solver.
  - intros k. rewrite re_deadlines0. setoid_rewrite Hlive. set_solver.
  - destruct re_free0 as [[_ ->]|[_ ->]]; [done|]. apply NoDup_cons. split; [|done].
    intros Hin. specialize (wf_free0 _ Hin). unfold slot_index in Hs. congruence.
  - intros s Hin. destruct (decide (N.to_nat s = slot_index id)) as [Heq|Hne].
    + rewrite Heq. apply list_lookup_insert_eq. by eapply lookup_lt_Some.
    + rewrite list_lookup_insert_ne by done. apply wf_free0.
      destruct re_free0 as [[_ Hf]|[_ Hf]]; rewrite Hf in Hin; [done|].
      apply elem_of_cons in Hin as [->|Hin]; [|done]. by destruct Hne.
Qed.

(** [retire_generation] on a slot in range. *)
Definition retire_gen (i : nat) (g : N) (t : OperationTable) : OperationTable :=
  match checked_add u64_max g 1 with
  | Some next => t <| ot_generations ::= <[i := next]> |> <| ot_free ::= cons (N.of_nat i) |>
  | None => t
  end.
Lemma retire_generation_run t i g :
  ot_generations t !! i = Some g →
  Operations.retire_generation i t = (Ok tt, retire_gen i g t).
Proof.
  intros Hg. unfold Operations.retire_generation, bind, get, expect, modify, ret, retire_gen.
  rewrite Hg. by destruct (checked_add _ _ _).
Qed.

Lemma owner_lookup X t id e :
  ot_wf X t → live_at t id e → ∃ o, ot_owners t !! slot_index id = Some (Some o) ∧
  owner_fits (Some e) (Some o).
Proof.
  intros Hwf (_ & Hs & _).
  destruct (lookup_lt_is_Some_2 (ot_owners t) (slot_index id)) as [o Ho].
  { rewrite (wf_len_owners X t Hwf). by eapply lookup_lt_Some. }
  pose proof (wf_owners X t Hwf _ _ _ Hs Ho) as Hfit.
  destruct e as [p|r]; simpl in Hfit; [subst; by eexists|].
  destruct Hfit as [a ->]. exists a. split; [done|by exists a].
Qed.

Definition taken (t : OperationTable) (id : OperationId) : OperationTable :=
  retire_gen (slot_index id) (op_generation id)
    (Operations.remove_owner_index id (t <| ot_slots ::= <[slot_index id := None]> |>)
       <| ot_live ::= λ x, (x - 1)%N |>).

Lemma retire_gen_fields i g t :
  ot_world (retire_gen i g t) = ot_world t ∧ ot_max (retire_gen i g t) = ot_max t ∧
  ot_slots (retire_gen i g t) = ot_slots t ∧ ot_owners (retire_gen i g t) = ot_owners t ∧
  ot_live (retire_gen i g t) = ot_live t ∧ ot_pending (retire_gen i g t) = ot_pending t ∧
  ot_pending_owners (retire_gen i g t) = ot_pending_owners t ∧
  ot_owner_index (retire_gen i g t) = ot_owner_index t ∧
  ot_target_index (retire_gen i g t) = ot_target_index t ∧
  ot_deadlines (retire_gen i g t) = ot_deadlines t.
Proof. unfold retire_gen. destruct (checked_add _ _ _); simpl; auto 20. Qed.

Lemma retire_gen_gens i g t :
  ot_generations t !! i = Some g →
  ∃ g', ot_generations (retire_gen i g t) = <[i := g']> (ot_generations t) ∧
    ((g' = g ∧ ot_free (retire_gen i g t) = ot_free t) ∨
     ((g < g')%N ∧ ot_free (retire_gen i g t) = N.of_nat i :: ot_free t)).
Proof.
  intros Hg. unfold retire_gen, checked_add. case_decide; simpl.
  - eexists. split; [done|]. right. split; [lia|done].
  - exists g. rewrite list_insert_id by done. auto.
Qed.

Lemma live_pos X t id e : ot_wf X t → live_at t id e → (0 < ot_live t)%N.
Proof.
  intros Hwf (_ & Hs & _). rewrite (wf_live X t Hwf).
  pose proof (count_by_lookup is_occupied _ _ _ Hs) as Hc. simpl in Hc. lia.
Qed.
Lemma pending_pos X t id p : ot_wf X t → live_at t id (EPending p) → (0 < ot_pending t)%N.
Proof.
  intros Hwf (_ & Hs & _). rewrite (wf_pending X t Hwf).
  pose proof (count_by_lookup is_pending _ _ _ Hs) as Hc. simpl in Hc. lia.
Qed.

(** The owner index after the removal of a live identifier. *)
Lemma owner_index_remove X t id e o :
  ot_wf X t → live_at t id e → ot_owners t !! slot_index id = Some (Some o) →
  idx_wf (λ o id', owner_rel t o id' ∧ id' ≠ id) (idx_remove o id (ot_owner_index t)).
Proof.
  intros Hwf Hl Ho. eapply idx_wf_iff; [|apply idx_remove_wf; by eapply wf_owner_index].
  intros o' id'. split; [|naive_solver]. intros [Hrel Hne]. split; [done|]. intros ->.
  destruct Hrel as (? & _ & Ho'). apply Hne. naive_solver.
Qed.

Lemma taken_retires t id r :
  ot_wf [] t → live_at t id (ETerminal r) → retires t (taken t id) id (ETerminal r).
Proof.
  intros Hwf Hl. destruct (owner_lookup _ _ _ _ Hwf Hl) as (o & Ho & _).
  pose proof Hl as (_ & Hs & Hg). unfold taken, Operations.remove_owner_index. simpl. rewrite Ho.
  match goal with |- retires _ (retire_gen ?i ?g ?t1) _ _ =>
    destruct (retire_gen_fields i g t1) as (H1&H2&H3&H4&H5&H6&H7&H8&H9&H10);
    destruct (retire_gen_gens i g t1 Hg) as (g' & Hg' & Hfree) end.
  split; rewrite ?H1, ?H2, ?H3, ?H4, ?H5, ?H6, ?H7, ?H8, ?H9, ?H10; simpl; try done.
  - exists g'. split; [done|]. by rewrite of_slot_index in Hfree.
  - lia.
  - eapply cnt_wf_ext; [|eapply wf_counts, Hwf]. intros o'. simpl. lia.
  - by eapply owner_index_remove.
  - eapply idx_wf_iff; [|eapply wf_target_index, Hwf]. intros tg id'. split; [|tauto].
    intros (p & Hp & Htg). split; [by exists p|]. intros ->. by pose proof (live_at_fun _ _ _ _ Hl Hp).
  - intros k. rewrite (wf_deadlines [] t Hwf). split.
    + intros (id' & p & Hp & -> & _). exists id', p. split; [done|]. split; [done|].
      intros ->. by pose proof (live_at_fun _ _ _ _ Hl Hp).
    + intros (id' & p & Hp & -> & _). exists id', p. set_solver.
Qed.

Lemma take_terminal t id r :
  ot_wf [] t → live_at t id (ETerminal r) →
  Operations.take id t = (Ok (Some r), taken t id).
Proof.
  intros Hwf Hl. pose proof (live_pos _ _ _ _ Hwf Hl) as Hpos. pose proof Hl as (_ & Hs & Hg).
  destruct (owner_lookup _ _ _ _ Hwf Hl) as (o & Ho & _).
  unfold Operations.take, bind, get, of_outcome, modify, decr, ret.
  rewrite (locate_live _ _ _ Hl), Hs. unfold taken, Operations.remove_owner_index. simpl. rewrite Ho. simpl.
  rewrite decide_False by lia. by rewrite (retire_generation_run _ _ (op_generation id)).
Qed.

(** *** Releasing an unsubmitted operation *)
Definition released (t : OperationTable) (id : OperationId) (p : PendingOperation) :
    OperationTable :=
  retire_gen (slot_index id) (op_generation id)
    (Operations.remove_index id p (t <| ot_slots ::= <[slot_index id := None]> |>)
       <| ot_pending ::= λ x, (x - 1)%N |> <| ot_live ::= λ x, (x - 1)%N |>).

Lemma released_retires t id p :
  ot_wf [] t → live_at t id (EPending p) → retires t (released t id p) id (EPending p).
Proof.
  intros Hwf Hl. destruct (remove_pending_owner_spec _ _ _ _ Hwf Hl) as (m & Hm & Hmwf).
  destruct (owner_lookup _ _ _ _ Hwf Hl) as (o & Ho & Hfit). simpl in Hfit. injection Hfit as ->.
  pose proof Hl as (_ & Hs & Hg).
  unfold released, Operations.remove_index, Operations.remove_pending_owner. simpl. rewrite Hm. simpl.
  match goal with |- retires _ (retire_gen ?i ?g ?t1) _ _ =>
    destruct (retire_gen_fields i g t1) as (H1&H2&H3&H4&H5&H6&H7&H8&H9&H10);
    destruct (retire_gen_gens i g t1 Hg) as (g' & Hg' & Hfree) end.
  split; rewrite ?H1, ?H2, ?H3, ?H4, ?H5, ?H6, ?H7, ?H8, ?H9, ?H10; simpl; try done.
  - exists g'. split; [done|]. by rewrite of_slot_index in Hfree.
  - eapply cnt_wf_ext; [|done]. intros o'. simpl. repeat case_bool_decide; simplify_eq; done.
  - by eapply owner_index_remove.
  - eapply idx_wf_iff; [|apply idx_remove_wf; by eapply wf_target_index].
    intros tg id'. split; [|naive_solver]. intros [Hrel Hne]. split; [done|]. intros ->.
    destruct Hrel as (p' & Hp' & <-). pose proof (live_at_fun _ _ _ _ Hl Hp'). simplify_eq. by apply Hne.
  - intros k. rewrite elem_of_difference, elem_of_singleton, (wf_deadlines [] t Hwf). split.
    + intros [(id' & p' & Hp' & -> & _) Hne]. exists id', p'. split; [done|]. split; [done|].
      intros ->. pose proof (live_at_fun _ _ _ _ Hl Hp'). by simplify_eq.
    + intros (id' & p' & Hp' & -> & Hne). split; [exists id', p'; set_solver|].
      unfold deadline_key. intros [= _ Hsl Hgn]. apply Hne. destruct Hp' as (? & _), Hl as (? & _).
      destruct id, id'. simpl in *. congruence.
Qed.

Lemma release_pending t id p :
  ot_wf [] t → live_at t id (EPending p) →
  Operations.release_unsubmitted id t = (Ok true, released t id p).
Proof.
  intros Hwf Hl. pose proof (live_pos _ _ _ _ Hwf Hl). pose proof (pending_pos _ _ _ _ Hwf Hl).
  destruct (remove_pending_owner_spec _ _ _ _ Hwf Hl) as (m & Hm & _). pose proof Hl as (_ & Hs & Hg).
  unfold Operations.release_unsubmitted, bind, get, of_outcome, modify, decr, ret.
  rewrite (locate_live _ _ _ Hl), Hs.
  unfold released, Operations.remove_index, Operations.remove_pending_owner. simpl. rewrite Hm. simpl.
  rewrite !decide_False by lia. simpl. rewrite decide_False by lia.
  by rewrite (retire_generation_run _ _ (op_generation id)).
Qed.

(** *** Reserving a slot *)
Definition reserved (t : OperationTable) (id : OperationId) (p : PendingOperation) : OperationTable :=
  Operations.index_pending id p (t <| ot_slots ::= <[slot_index id := Some (EPending p)]> |>)
    <| ot_live ::= N.succ |> <| ot_pending ::= N.succ |>.

(** The table with an empty slot ready for the new operation. *)
Definition with_slot (t : OperationTable) : N * OperationTable :=
  match ot_free t with
  | slot :: free => (slot, t <| ot_free := free |>)
  | [] => (N.of_nat (length (ot_slots t)),
           t <| ot_slots ::= λ l, l ++ [None] |> <| ot_generations ::= λ l, l ++ [1%N] |>
             <| ot_owners ::= λ l, l ++ [None] |>)
  end.

Lemma lookup_snoc_Some {A} (l : list A) x i y :
  (l ++ [x]) !! i = Some y ↔ l !! i = Some y ∨ (i = length l ∧ x = y).
Proof.
  rewrite lookup_app_Some. split.
  - intros [?|[Hle H]]; [by left|right]. destruct (i - length l) as [|k] eqn:Hi; [|by destruct k].
    simpl in H. split; [lia|congruence].
  - intros [?|[-> ->]]; [by left|right]. split; [lia|]. by rewrite Nat.sub_diag.
Qed.

Lemma with_slot_live t slot t1 id e :
  ot_wf [] t → with_slot t = (slot, t1) → live_at t1 id e ↔ live_at t id e.
Proof.
  intros Hwf Hw. unfold with_slot in Hw. destruct (ot_free t) as [|s free]; simplify_eq; [|done].
  unfold live_at. simpl. rewrite !lookup_snoc_Some. pose proof (wf_len_gens [] t Hwf) as Hlen.
  split; [|naive_solver]. intros (? & [?|[? ?]] & [?|[? ?]]); try done.
  apply lookup_lt_Some in H0 as ?. lia.
Qed.

Lemma with_slot_wf t slot t1 :
  ot_wf [] t → with_slot t = (slot, t1) →
  (ot_free t = [] → N.lt (N.of_nat (length (ot_slots t))) (ot_max t)) →
  ot_wf [] t1 ∧ ot_slots t1 !! (N.to_nat slot) = Some None ∧ slot ∉ ot_free t1 ∧
  is_Some (ot_generations t1 !! N.to_nat slot).
Proof.
  intros Hwf Hw Hroom. pose proof (λ id e, with_slot_live t slot t1 id e Hwf Hw) as Hlive.
  unfold with_slot in Hw. destruct (ot_free t) as [|s free] eqn:Hfree; simplify_eq.
  - specialize (Hroom eq_refl). destruct Hwf. simpl. rewrite Nat2N.id. split; [|split; [|split]].
    + split; simpl in *; rewrite ?length_app, ?count_by_snoc; simpl; try done; try lia.
      * eapply cnt_wf_ext; [|done]. intros o. cbv beta. rewrite count_by_snoc. simpl. lia.
      * intros i s o [Hs|[-> <-]]%lookup_snoc_Some [Ho|[? <-]]%lookup_snoc_Some; try done.
        -- by eapply wf_owners0.
        -- apply lookup_lt_Some in Hs. lia.
        -- apply lookup_lt_Some in Ho. lia.
      * eapply idx_wf_iff; [|done]. intros o id. unfold owner_rel. setoid_rewrite Hlive. simpl.
        setoid_rewrite lookup_snoc_Some. split; [naive_solver|]. intros (e & Hl & [Ho|[? ?]]); [eauto|done].
      * eapply idx_wf_iff; [|done]. intros tg id. unfold target_rel. by setoid_rewrite Hlive.
      * intros k. rewrite wf_deadlines0. by setoid_rewrite Hlive.
      * rewrite Hfree. set_solver.
    + apply lookup_snoc_Some. auto.
    + rewrite Hfree. set_solver.
    + rewrite <- wf_len_gens0. exists 1%N. apply lookup_snoc_Some. auto.
  - pose proof (wf_free_nodup [] t Hwf) as Hnd. rewrite Hfree in Hnd. apply NoDup_cons in Hnd as [Hs Hnd].
    pose proof (wf_free [] t Hwf slot) as Hslot. rewrite Hfree in Hslot.
    specialize (Hslot ltac:(set_solver)). simpl. split; [|split; [done|split; [done|]]].
    + destruct Hwf. split; simpl; try done. intros s Hin. apply wf_free0. rewrite Hfree. set_solver.
    + apply lookup_lt_is_Some_2. rewrite (wf_len_gens [] t Hwf). by eapply lookup_lt_Some.
Qed.

Lemma reserved_live t id p id' e' :
  ot_wf [] t → op_world id = ot_world t →
  ot_slots t !! slot_index id = Some None →
  ot_generations t !! slot_index id = Some (op_generation id) →
  live_at (reserved t id p) id' e' ↔ (id' = id ∧ e' = EPending p) ∨ live_at t id' e'.
Proof.
  intros Hwf Hw Hs Hg. unfold live_at at 1. unfold reserved, Operations.index_pending. simpl. split.
  - intros (Hw' & [(Heq & He & _)|[Hne Hs']]%list_lookup_insert_Some & Hg'); [left|by right].
    simplify_eq. split; [|done]. destruct id, id'. unfold slot_index in *. simpl in *.
    apply N2Nat.inj in Heq. subst. rewrite Hg in Hg'. by simplify_eq.
  - intros [[-> ->]|(Hw' & Hs' & Hg')].
    + split; [done|]. split; [|done]. apply list_lookup_insert_eq. by eapply lookup_lt_Some.
    + split; [done|]. split; [|done]. rewrite list_lookup_insert_ne; [done|]. intros Heq.
      rewrite Heq in Hs. congruence.
Qed.

Lemma reserved_wf t id p :
  ot_wf [] t → op_world id = ot_world t →
  ot_slots t !! slot_index id = Some None → op_slot id ∉ ot_free t →
  ot_generations t !! slot_index id = Some (op_generation id) →
  ot_wf [] (reserved t id p).
Proof.
  intros Hwf Hw Hs Hfree Hg.
  pose proof (λ id' e', reserved_live t id p id' e' Hwf Hw Hs Hg) as Hlive.
  pose proof (λ f, count_by_insert f _ _ _ (Some (EPending p)) Hs) as Hcount.
  assert (∀ e, ¬ live_at t id e) as Hnot by (intros e (_ & ? & _); congruence).
  unfold reserved, Operations.index_pending in *. destruct Hwf.
  split; simpl in *; rewrite ?length_insert; try done.
  - specialize (Hcount is_occupied). simpl in Hcount. lia.
  - specialize (Hcount is_pending). simpl in Hcount. lia.
  - eapply cnt_wf_ext; [|by apply cnt_add_wf]. intros o. specialize (Hcount (pending_of o)).
    simpl in *. repeat case_bool_decide; simplify_eq; simpl in *; lia || done.
  - intros i s o [(<- & <- & _)|[Hne Hs']]%list_lookup_insert_Some Ho.
    + apply list_lookup_insert_Some in Ho as [(_ & <- & _)|[? _]]; done.
    + rewrite list_lookup_insert_ne in Ho by done. by eapply wf_owners0.
  - eapply idx_wf_iff; [|by apply idx_add_wf]. intros o id'. unfold owner_rel.
    setoid_rewrite Hlive. simpl. split.
    + intros [[-> ->]|(e & Hl & Ho)].
      * exists (EPending p). split; [by left|]. apply list_lookup_insert_eq.
        apply lookup_lt_Some in Hs. lia.
      * exists e. split; [by right|]. rewrite list_lookup_insert_ne; [done|].
        intros Heq. destruct Hl as (_ & Hl & _). rewrite <- Heq in Hl. congruence.
    + intros (e & [[-> ->]|Hl] & Ho).
      * left. split; [|done]. apply list_lookup_insert_Some in Ho as [(_ & Ho & _)|[? _]]; congruence.
      * right. exists e. split; [done|]. rewrite list_lookup_insert_ne in Ho; [done|].
        intros Heq. destruct Hl as (_ & Hl & _). rewrite <- Heq in Hl. congruence.
  - eapply idx_wf_iff; [|by apply idx_add_wf]. intros tg id'. unfold target_rel. setoid_rewrite Hlive.
    naive_solver.
  - intros k. rewrite elem_of_union, elem_of_singleton, wf_deadlines0. setoid_rewrite Hlive.
    split; [|set_solver]. intros [->|?]; [|set_solver]. exists id, p. set_solver.
  - intros s Hin. rewrite list_lookup_insert_ne; [by apply wf_free0|]. intros Heq. apply Hfree.
    unfold slot_index in Heq. apply N2Nat.inj in Heq. by subst.
Qed.
