(* ===== verification/OperationRuns.v ===== *)
(** * Operation table: runs

    The operations of [Operations] on every branch, the table's methods as
    commands, and the properties of arbitrary command sequences: the invariant,
    one winner per operation, identifiers that stay stale, and expiry. *)
From S2P Require Import Prelude Collections Text Types Operations.

(** ** Every branch of the operations *)
Lemma complete_cases X t id r :
  ot_wf X t →
  (∃ e, Operations.complete id r t = (Err e, t)) ∨
  (∃ o, live_at t id (ETerminal o) ∧ Operations.complete id r t = (Ok false, t)) ∨
  (∃ p, live_at t id (EPending p) ∧ outcome_ok t r ∧
        Operations.complete id r t = (Ok true, finish t id p r)).
Proof.
  intros Hwf.
  assert (outcome_ok t r ∨ Operations.complete id r t = (Err Error.CrossWorld, t)) as [Hr|?]; [|..|eauto].
  { destruct r as [payload| | | | |]; simpl; try (by left).
    destruct (decide (held_world payload = ot_world t)); [by left|right].
    unfold Operations.complete, bind, get, reject_if. by rewrite bool_decide_true. }
  assert (∀ res, Operations.locate t id = res →
    match res with Ok _ => True | Err e => Operations.complete id r t = (Err e, t)
                 | Panic => True end) as Herr.
  { intros res Hres. destruct res; [done| |done]. unfold Operations.complete, bind, get, reject_if, of_outcome.
    assert ((match r with Completed payload => bool_decide (held_world payload ≠ ot_world t)
      | _ => false end) = false) as ->.
    { destruct r; try done. apply bool_decide_false. intros Hne. by apply Hne. }
    unfold ret. by rewrite Hres. }
  destruct (locate_cases X t id Hwf) as [[_ Hc]|[(_ & _ & Hc)|([p|o] & Hl & Hc)]].
  - left. eexists. apply (Herr _ Hc).
  - left. eexists. apply (Herr _ Hc).
  - right. right. exists p. split; [done|]. split; [done|]. by eapply complete_pending.
  - right. left. exists o. split; [done|]. pose proof Hl as (_ & Hs & _).
    unfold Operations.complete, bind, get, reject_if, of_outcome.
    assert ((match r with Completed payload => bool_decide (held_world payload ≠ ot_world t)
      | _ => false end) = false) as ->.
    { destruct r; try done. apply bool_decide_false. intros Hne. by apply Hne. }
    unfold ret. by rewrite Hc, Hs.
Qed.

Lemma take_cases t id :
  ot_wf [] t →
  (∃ e, Operations.take id t = (Err e, t)) ∨
  (∃ p, live_at t id (EPending p) ∧ Operations.take id t = (Ok None, t)) ∨
  (∃ o, live_at t id (ETerminal o) ∧ Operations.take id t = (Ok (Some o), taken t id)).
Proof.
  intros Hwf.
  destruct (locate_cases [] t id Hwf) as [[_ Hc]|[(_ & _ & Hc)|([p|o] & Hl & Hc)]].
  - left. eexists. unfold Operations.take, bind, get, of_outcome. by rewrite Hc.
  - left. eexists. unfold Operations.take, bind, get, of_outcome. by rewrite Hc.
  - right. left. exists p. split; [done|]. pose proof Hl as (_ & Hs & _).
    unfold Operations.take, bind, get, of_outcome. by rewrite Hc, Hs.
  - right. right. exists o. split; [done|]. by apply take_terminal.
Qed.

Lemma release_cases t id :
  ot_wf [] t →
  (∃ e, Operations.release_unsubmitted id t = (Err e, t)) ∨
  (∃ o, live_at t id (ETerminal o) ∧ Operations.release_unsubmitted id t = (Ok false, t)) ∨
  (∃ p, live_at t id (EPending p) ∧
        Operations.release_unsubmitted id t = (Ok true, released t id p)).
Proof.
  intros Hwf.
  destruct (locate_cases [] t id Hwf) as [[_ Hc]|[(_ & _ & Hc)|([p|o] & Hl & Hc)]].
  - left. eexists. unfold Operations.release_unsubmitted, bind, get, of_outcome. by rewrite Hc.
  - left. eexists. unfold Operations.release_unsubmitted, bind, get, of_outcome. by rewrite Hc.
  - right. right. exists p. split; [done|]. by apply release_pending.
  - right. left. exists o. split; [done|]. pose proof Hl as (_ & Hs & _).
    unfold Operations.release_unsubmitted, bind, get, of_outcome. by rewrite Hc, Hs.
Qed.

Lemma reserve_cases t owner target deadline :
  ot_wf [] t →
  (∃ e, Operations.reserve owner target deadline t = (Err e, t)) ∨
  (∃ slot t1 g,
     with_slot t = (slot, t1) ∧ (ot_live t < ot_max t)%N ∧
     (ot_free t = [] → N.lt (N.of_nat (length (ot_slots t))) (ot_max t)) ∧
     ar_world owner = ot_world t ∧ ar_world target = ot_world t ∧
     ot_generations t1 !! N.to_nat slot = Some g ∧
     let id := MkOperationId (ot_world t) slot g in
     Operations.reserve owner target deadline t =
       (Ok id, reserved t1 id (MkPending owner target deadline None))).
Proof.
  intros Hwf. unfold Operations.reserve, bind, get, reject_if.
  case_bool_decide as Ho; simpl; [left; by eexists|].
  case_bool_decide as Ht; simpl; [left; by eexists|].
  destruct (ot_max t <=? ot_live t)%N eqn:Hlive; [left; by eexists|]. simpl.
  destruct (bool_decide (ot_free t = []) && (ot_max t <=? N.of_nat (length (ot_slots t)))%N)
    eqn:Hroom; [left; by eexists|]. simpl. right.
  assert (ot_free t = [] → N.lt (N.of_nat (length (ot_slots t))) (ot_max t)) as Hroom'.
  { intros Hf. rewrite Hf, bool_decide_true in Hroom by done. simpl in Hroom. lia. }
  destruct (with_slot t) as [slot t1] eqn:Hw.
  destruct (with_slot_wf _ _ _ Hwf Hw Hroom') as (Hwf1 & _ & _ & [g Hg]).
  exists slot, t1, g. split; [done|]. split; [lia|]. split; [done|].
  split; [done|]. split; [done|]. split; [done|].
  assert (ot_world t1 = ot_world t) as Hworld.
  { unfold with_slot in Hw. destruct (ot_free t); by simplify_eq. }
  unfold with_slot in Hw. destruct (ot_free t) as [|s free]; simplify_eq/=;
    unfold Operations.push_slot, bind, get, modify, ret, expect, Operations.id; simpl in *;
    by rewrite Hg.
Qed.

Definition with_context (t : OperationTable) (id : OperationId) (p : PendingOperation)
    (context : HeldPayload) : OperationTable :=
  t <| ot_slots ::= <[slot_index id := Some (EPending (p <| po_context := Some context |>))]> |>.

Lemma set_context_cases t id context :
  ot_wf [] t →
  (∃ e, Operations.set_context id context t = (Err e, t)) ∨
  (∃ p, live_at t id (EPending p) ∧ po_context p = None ∧ held_world context = ot_world t ∧
        Operations.set_context id context t = (Ok tt, with_context t id p context)).
Proof.
  intros Hwf. unfold Operations.set_context, bind, get, reject_if, of_outcome.
  case_bool_decide as Hw; [left; by eexists|]. simpl.
  destruct (locate_cases [] t id Hwf) as [[_ Hc]|[(_ & _ & Hc)|([p|o] & Hl & Hc)]];
    rewrite Hc; try (left; by eexists); pose proof Hl as (_ & Hs & _); rewrite Hs.
  - case_bool_decide as Hctx; [left; by eexists|]. right. exists p. split; [done|].
    split; [by apply eq_None_not_Some|]. done.
  - left. by eexists.
Qed.

Lemma with_context_live t id p context id' e' :
  live_at t id (EPending p) →
  live_at (with_context t id p context) id' e' ↔
  (id' = id ∧ e' = EPending (p <| po_context := Some context |>)) ∨ (id' ≠ id ∧ live_at t id' e').
Proof.
  intros Hl. rewrite (live_at_update t _ id (EPending p)
    (Some (EPending (p <| po_context := Some context |>)))); done || naive_solver.
Qed.

Lemma with_context_wf t id p context :
  ot_wf [] t → live_at t id (EPending p) → ot_wf [] (with_context t id p context).
Proof.
  intros Hwf Hl. pose proof (λ id' e', with_context_live t id p context id' e' Hl) as Hlive.
  pose proof Hl as (_ & Hs & _).
  pose proof (λ f, count_by_insert f _ _ _ (Some (EPending (p <| po_context := Some context |>))) Hs)
    as Hcount.
  destruct Hwf. unfold with_context in *. split; simpl in *; rewrite ?length_insert; try done.
  - specialize (Hcount is_occupied). simpl in Hcount. lia.
  - specialize (Hcount is_pending). simpl in Hcount. lia.
  - eapply cnt_wf_ext; [|done]. intros o. specialize (Hcount (pending_of o)). simpl in Hcount. lia.
  - intros i s o [(<- & <- & _)|[_ Hs']]%list_lookup_insert_Some Ho; [|by eapply wf_owners].
    exact (wf_owners _ _ _ Hs Ho).
  - eapply idx_wf_iff; [|done]. intros o id'. unfold owner_rel. setoid_rewrite Hlive. simpl.
    destruct (decide (id' = id)) as [->|Hne]; naive_solver.
  - eapply idx_wf_iff; [|done]. intros tg id'. unfold target_rel. setoid_rewrite Hlive. simpl.
    destruct (decide (id' = id)) as [->|Hne]; [|naive_solver]. split.
    + intros (p' & Hp' & <-). pose proof (live_at_fun _ _ _ _ Hl Hp'). simplify_eq. eauto.
    + intros (p' & [[_ ?]|[? _]] & <-); [|done]. simplify_eq. eauto.
  - intros k. rewrite wf_deadlines. setoid_rewrite Hlive. split.
    + intros (id' & p' & Hp' & -> & HX). destruct (decide (id' = id)) as [->|Hne]; [|eauto 10].
      pose proof (live_at_fun _ _ _ _ Hl Hp'). simplify_eq. eauto 10.
    + intros (id' & p' & [[-> ?]|[? ?]] & -> & HX); simplify_eq; eauto 10.
  - intros s Hin. rewrite list_lookup_insert_ne; [by apply wf_free|]. intros Heq.
    specialize (wf_free s Hin). rewrite Heq in Hs. congruence.
Qed.

(** ** How a table evolves *)

(** A dead identifier denotes nothing and never will: its generation is behind
    its slot's, or the slot is retired for good. *)
Definition dead (t : OperationTable) (id : OperationId) : Prop :=
  op_world id = ot_world t ∧
  ∃ g, ot_generations t !! slot_index id = Some g ∧
    ((op_generation id < g)%N ∨
     (op_generation id = g ∧ ot_slots t !! slot_index id = Some None ∧ op_slot id ∉ ot_free t)).

Record evolves (t t' : OperationTable) : Prop := {
  ev_world : ot_world t' = ot_world t;
  ev_max : ot_max t' = ot_max t;
  ev_terminal id o : live_at t id (ETerminal o) → live_at t' id (ETerminal o) ∨ dead t' id;
  ev_live id e : live_at t id e → (∃ e', live_at t' id e') ∨ dead t' id;
  ev_dead id : dead t id → dead t' id
}.

#[export] Instance evolves_preorder : PreOrder evolves.
Proof.
  split; [split; eauto|]. intros t1 t2 t3 H1 H2. split.
  - by rewrite (ev_world _ _ H2), (ev_world _ _ H1).
  - by rewrite (ev_max _ _ H2), (ev_max _ _ H1).
  - intros id o Ho. destruct (ev_terminal _ _ H1 id o Ho) as [Ho'|Hd].
    + by apply H2.
    + right. by apply H2.
  - intros id e He. destruct (ev_live _ _ H1 id e He) as [[e' He']|Hd].
    + by apply (ev_live _ _ H2 id e').
    + right. by apply H2.
  - intros id Hd. by apply (ev_dead _ _ H2), (ev_dead _ _ H1).
Qed.

Lemma dead_not_live t id e : dead t id → ¬ live_at t id e.
Proof.
  intros (_ & g & Hg & [Hlt|(_ & Hs & _)]) (_ & Hs' & Hg').
  - rewrite Hg in Hg'. simplify_eq. lia.
  - congruence.
Qed.

Lemma finish_fields t id p r :
  ot_world (finish t id p r) = ot_world t ∧ ot_max (finish t id p r) = ot_max t ∧
  ot_generations (finish t id p r) = ot_generations t ∧
  ot_free (finish t id p r) = ot_free t ∧
  ot_slots (finish t id p r) =
    <[slot_index id := Some (ETerminal (Operations.normalize r))]> (ot_slots t).
Proof. unfold finish, Operations.remove_pending_owner. by destruct (cnt_sub _ _). Qed.

Lemma evolves_overwrite t t' id e v :
  live_at t id e → (∀ o, e ≠ ETerminal o) →
  ot_world t' = ot_world t → ot_max t' = ot_max t → ot_generations t' = ot_generations t →
  ot_free t' = ot_free t → ot_slots t' = <[slot_index id := Some v]> (ot_slots t) →
  evolves t t'.
Proof.
  intros Hl He Hw Hm Hg Hf Hs. split; [done|done|..].
  - intros id' o Ho. left. rewrite (live_at_update t t' id e (Some v)) by done. right.
    split; [|done]. intros ->. apply (He o). by eapply live_at_fun.
  - intros id' e' He'. left. setoid_rewrite (live_at_update t t' id e (Some v)); [|done..].
    destruct (decide (id' = id)); eauto.
  - intros id' (Hw' & g & Hg' & Hd). unfold dead. rewrite Hw, Hg, Hf, Hs. split; [done|].
    exists g. split; [done|]. destruct Hd as [?|(? & Hs' & ?)]; [by left|right].
    split; [done|]. split; [|done]. rewrite list_lookup_insert_ne; [done|]. intros Heq.
    destruct Hl as (_ & Hl & _). rewrite Heq in Hl. congruence.
Qed.

Lemma finish_evolves t id p r : live_at t id (EPending p) → evolves t (finish t id p r).
Proof.
  intros Hl. destruct (finish_fields t id p r) as (?&?&?&?&?).
  by eapply evolves_overwrite.
Qed.

Lemma with_context_evolves t id p context :
  live_at t id (EPending p) → evolves t (with_context t id p context).
Proof. intros Hl. by eapply evolves_overwrite. Qed.

Lemma retires_dead t t' id e : ot_wf [] t → live_at t id e → retires t t' id e → dead t' id.
Proof.
  intros Hwf (Hw & Hs & Hg) Hr. destruct (re_gens _ _ _ _ Hr) as (g & Hgens & Hcase).
  unfold dead. rewrite (re_world _ _ _ _ Hr), Hgens, (re_slots _ _ _ _ Hr). split; [done|].
  exists g. apply lookup_lt_Some in Hg as Hlt. rewrite list_lookup_insert_eq by done. split; [done|].
  destruct Hcase as [[-> Hf]|[? _]]; [right|by left]. split; [done|].
  apply lookup_lt_Some in Hs as Hlt'. rewrite list_lookup_insert_eq by done. split; [done|].
  rewrite Hf. intros Hin%(wf_free [] t Hwf). unfold slot_index in Hs. congruence.
Qed.

Lemma retires_evolves t t' id e : ot_wf [] t → live_at t id e → retires t t' id e → evolves t t'.
Proof.
  intros Hwf Hl Hr. split; [apply Hr|apply Hr|..].
  - intros id' o Ho. destruct (decide (id' = id)) as [->|Hne].
    + right. exact (retires_dead t t' id e Hwf Hl Hr).
    + left. rewrite (retires_live t t' id e) by done. done.
  - intros id' e' He'. destruct (decide (id' = id)) as [->|Hne].
    + right. exact (retires_dead t t' id e Hwf Hl Hr).
    + left. exists e'. by rewrite (retires_live t t' id e).
  - intros id' (Hw & g & Hg & Hd). destruct (re_gens _ _ _ _ Hr) as (g' & Hgens & Hcase).
    unfold dead. rewrite (re_world _ _ _ _ Hr), Hgens, (re_slots _ _ _ _ Hr). split; [done|].
    destruct (decide (slot_index id = slot_index id')) as [Heq|Hne].
    + pose proof Hl as (_ & Hs & Hgid). rewrite <- Heq in *. rewrite Hg in Hgid. simplify_eq.
      apply lookup_lt_Some in Hg as Hlt. exists g'. rewrite list_lookup_insert_eq by done.
      split; [done|]. left. destruct Hd as [Hlt'|(_ & Hs' & _)]; [|congruence].
      destruct Hcase as [[-> _]|[? _]]; lia.
    + exists g. rewrite !list_lookup_insert_ne by done. split; [done|].
      destruct Hd as [?|(? & ? & Hf)]; [by left|right]. split; [done|]. split; [done|].
      destruct Hcase as [[_ ->]|[_ ->]]; [done|]. apply not_elem_of_cons. split; [|done].
      intros Heq. apply Hne. unfold slot_index. congruence.
Qed.

Lemma reserve_evolves t slot t1 g p :
  ot_wf [] t → with_slot t = (slot, t1) →
  (ot_free t = [] → N.lt (N.of_nat (length (ot_slots t))) (ot_max t)) →
  ot_generations t1 !! N.to_nat slot = Some g →
  let id := MkOperationId (ot_world t) slot g in
  evolves t (reserved t1 id p) ∧ ot_wf [] (reserved t1 id p) ∧
  (∀ id' e', live_at (reserved t1 id p) id' e' ↔
     (id' = id ∧ e' = EPending p) ∨ live_at t id' e').
Proof.
  intros Hwf Hw Hroom Hg id.
  destruct (with_slot_wf _ _ _ Hwf Hw Hroom) as (Hwf1 & Hs & Hnf & _).
  pose proof (λ i e, with_slot_live t slot t1 i e Hwf Hw) as Hlive1.
  assert (ot_world t1 = ot_world t ∧ ot_max t1 = ot_max t) as [Hworld Hmax].
  { unfold with_slot in Hw. destruct (ot_free t); by simplify_eq. }
  pose proof (λ i e, reserved_live t1 id p i e Hwf1 (eq_sym Hworld) Hs Hg) as Hlive.
  setoid_rewrite Hlive1 in Hlive.
  split; [|split; [by apply reserved_wf|done]]. split; [done|done|..].
  - intros id' o Ho. left. apply Hlive. by right.
  - intros id' e He. left. exists e. apply Hlive. by right.
  - intros id' (Hw' & g' & Hg' & Hd). unfold dead, reserved, Operations.index_pending. simpl.
    rewrite Hworld. split; [done|]. exists g'.
    assert (ot_generations t1 !! slot_index id' = Some g') as Hg1.
    { unfold with_slot in Hw. destruct (ot_free t); simplify_eq; [|done].
      simpl. apply lookup_snoc_Some. by left. }
    split; [done|]. destruct Hd as [?|(? & Hs' & Hf)]; [by left|right]. split; [done|].
    assert (slot ≠ op_slot id') as Hne.
    { intros ->. unfold with_slot in Hw. destruct (ot_free t) eqn:Hfr; simplify_eq.
      - apply lookup_lt_Some in Hs'. unfold slot_index in Hs'. lia.
      - set_solver. }
    assert (slot_index id ≠ slot_index id') as Hnei.
    { unfold slot_index, id. simpl. intros Heq%N2Nat.inj. done. }
    rewrite list_lookup_insert_ne by done. unfold with_slot in Hw.
    destruct (ot_free t) as [|s fr] eqn:Hfr; simplify_eq; simpl.
    + split; [apply lookup_snoc_Some; by left|]. rewrite Hfr. set_solver.
    + split; [done|]. set_solver.
Qed.

(** ** Expiry *)
Lemma ot_wf_perm X Y t : (∀ id, id ∈ X ↔ id ∈ Y) → ot_wf X t → ot_wf Y t.
Proof.
  intros HXY Hwf. destruct Hwf. split; try done. intros k. rewrite wf_deadlines.
  by setoid_rewrite HXY.
Qed.

Definition pending_due (now : Instant) (t : OperationTable) (id : OperationId) : Prop :=
  ∃ p, live_at t id (EPending p) ∧ (po_deadline p ≤ now)%N.

Definition without_deadline (k : N * N * N) (t : OperationTable) : OperationTable :=
  t <| ot_deadlines ::= λ s, s ∖ {[k]} |>.

Lemma without_deadline_wf X t id p :
  ot_wf X t → live_at t id (EPending p) →
  ot_wf (id :: X) (without_deadline (deadline_key (po_deadline p) id) t).
Proof.
  intros Hwf Hl. destruct Hwf. split; try done. intros k. simpl.
  rewrite elem_of_difference, elem_of_singleton, wf_deadlines. split.
  - intros [(id' & p' & Hp' & -> & HX) Hne]. exists id', p'. split; [done|]. split; [done|].
    apply not_elem_of_cons. split; [|done]. intros ->.
    pose proof (live_at_fun _ _ _ _ Hl Hp'). by simplify_eq.
  - intros (id' & p' & Hp' & -> & [Hne HX]%not_elem_of_cons). split; [eauto 10|].
    unfold deadline_key. intros [= _ Hsl Hgn]. apply Hne. destruct Hp' as (? & _), Hl as (? & _).
    destruct id, id'. simpl in *. congruence.
Qed.

Lemma size_take_out (k : N * N * N) (X : gset (N * N * N)) :
  k ∈ X → size X = S (size (X ∖ {[k]})).
Proof.
  intros Hk. rewrite (union_difference_singleton_L k X Hk) at 1.
  rewrite size_union by set_solver. by rewrite size_singleton.
Qed.

(** The popping loop collects exactly the pending operations that are due. *)
Lemma pop_due_spec now fuel X t :
  ot_wf X t → size (ot_deadlines t) < fuel →
  ∃ ids d, Operations.pop_due fuel now t = (Ok ids, t <| ot_deadlines := d |>) ∧
    ot_wf (ids ++ X) (t <| ot_deadlines := d |>) ∧ NoDup ids ∧
    (∀ id, id ∈ ids ↔ pending_due now t id ∧ id ∉ X).
Proof.
  revert X t. induction fuel as [|fuel IH]; intros X t Hwf Hfuel; [lia|]. simpl.
  unfold bind at 1, get. destruct (btree_first (ot_deadlines t)) as [k|] eqn:Hfirst; last first.
  { exists [], (ot_deadlines t). apply btree_first_none in Hfirst as Hempty.
    split; [by destruct t|]. split; [by destruct t|]. split; [constructor|]. intros id.
    split; [set_solver|]. intros [(p & Hp & _) HX]. exfalso.
    assert (deadline_key (po_deadline p) id ∈ ot_deadlines t) by (apply (wf_deadlines X t Hwf); eauto).
    set_solver. }
  apply btree_first_some in Hfirst as [Hin Hmin].
  apply (wf_deadlines X t Hwf) in Hin as Hk. destruct Hk as (id & p & Hl & -> & HX).
  unfold deadline_key. destruct (now <? po_deadline p)%N eqn:Hlt.
  { exists [], (ot_deadlines t). split; [by destruct t|]. split; [by destruct t|].
    split; [constructor|]. intros id'. split; [set_solver|]. intros [(p' & Hp' & Hd) HX']. exfalso.
    assert (deadline_key (po_deadline p') id' ∈ ot_deadlines t) as Hin'
      by (apply (wf_deadlines X t Hwf); eauto).
    apply Hmin in Hin'. unfold key_le, deadline_key, order_key, N3_order_key in Hin'. simpl in Hin'.
    lia. }
  fold (deadline_key (po_deadline p) id). change (λ s, s ∖ {[deadline_key (po_deadline p) id]}) with
    (λ s : gset (N * N * N), s ∖ {[deadline_key (po_deadline p) id]}).
  pose proof (without_deadline_wf _ _ _ _ Hwf Hl) as Hwf1.
  destruct (IH (id :: X) _ Hwf1) as (ids & d & Hrun & Hwf2 & Hnd & Hids).
  { pose proof (size_take_out _ _ Hin). simpl. lia. }
  assert (MkOperationId (ot_world t) (op_slot id) (op_generation id) = id) as Hid.
  { destruct Hl as (Hw & _). rewrite <- Hw. by destruct id. }
  assert (Operations.located t id = true) as Hloc
    by (unfold Operations.located; by rewrite (locate_live _ _ _ Hl)).
  rewrite Hid. exists (id :: ids), d. unfold bind, modify at 1, ret.
  change (t <| ot_deadlines ::= λ s, s ∖ {[deadline_key (po_deadline p) id]} |>)
    with (without_deadline (deadline_key (po_deadline p) id) t).
  rewrite Hrun. simpl. rewrite Hloc. split; [done|]. split; [|split].
  - eapply ot_wf_perm; [|exact Hwf2]. set_solver.
  - constructor; [|done]. rewrite Hids. set_solver.
  - intros id'. rewrite elem_of_cons, Hids, not_elem_of_cons.
    destruct (decide (id' = id)) as [->|Hne].
    + split; [|by left]. intros _. split; [|done]. exists p. split; [done|lia].
    + change (pending_due now (without_deadline (deadline_key (po_deadline p) id) t) id')
        with (pending_due now t id'). split; [intros [?|(? & ? & ?)]|intros [? ?]; right]; done.
Qed.

Lemma ot_wf_drop X t id p r :
  ot_wf (id :: X) t → live_at t id (EPending p) → ot_wf X (finish t id p r).
Proof.
  intros Hwf Hl. pose proof (finish_wf _ t id p r Hwf Hl) as Hwf'. destruct Hwf'. split; try done.
  intros k. rewrite wf_deadlines. split.
  - intros (id' & p' & Hp' & -> & [_ HX]%not_elem_of_cons). eauto.
  - intros (id' & p' & Hp' & -> & HX). exists id', p'. split; [done|]. split; [done|].
    apply not_elem_of_cons. split; [|done]. intros ->.
    apply finish_live in Hp'; [|done]. naive_solver.
Qed.

(** Completing the popped operations. *)
Lemma time_out_all ids t :
  ot_wf ids t → NoDup ids → (∀ id, id ∈ ids → ∃ p, live_at t id (EPending p)) →
  ∃ t', for_each Operations.time_out ids t = (Ok tt, t') ∧ ot_wf [] t' ∧ evolves t t' ∧
    (∀ id e, live_at t' id e ↔
       (id ∈ ids ∧ e = ETerminal TimedOut) ∨ (id ∉ ids ∧ live_at t id e)).
Proof.
  revert t. induction ids as [|id ids IH]; intros t Hwf Hnd Hp.
  { exists t. split; [done|]. split; [done|]. split; [done|]. set_solver. }
  apply NoDup_cons in Hnd as [Hni Hnd]. destruct (Hp id ltac:(set_solver)) as [p Hl].
  pose proof (λ i e, finish_live t id p TimedOut i e Hl) as Hlive.
  destruct (IH (finish t id p TimedOut)) as (t' & Hrun & Hwf' & Hev & Hlive').
  - by eapply ot_wf_drop.
  - done.
  - intros id' Hin. destruct (Hp id' ltac:(set_solver)) as [p' Hp']. exists p'. apply Hlive.
    right. split; [|done]. by intros ->.
  - exists t'. split; [|split; [done|split; [by etrans; [eapply finish_evolves|]|]]].
    + simpl. unfold bind at 1, Operations.time_out at 1, bind at 1, try_.
      rewrite (complete_pending _ _ _ _ _ Hwf Hl) by done. done.
    + intros id' e'. rewrite Hlive', Hlive, elem_of_cons. simpl.
      destruct (decide (id' = id)) as [->|Hne]; naive_solver.
Qed.

Lemma set_deadlines_evolves t d : evolves t (t <| ot_deadlines := d |>).
Proof. split; try done; eauto. Qed.

Lemma expire_ids_spec now t :
  ot_wf [] t →
  ∃ ids t', Operations.expire_ids now t = (Ok (sort_keys ids), t') ∧ ot_wf [] t' ∧ evolves t t' ∧
    NoDup ids ∧ (∀ id, id ∈ ids ↔ pending_due now t id) ∧
    (∀ id e, live_at t' id e ↔
       (id ∈ ids ∧ e = ETerminal TimedOut) ∨ (id ∉ ids ∧ live_at t id e)).
Proof.
  intros Hwf. destruct (pop_due_spec now (S (size (ot_deadlines t))) [] t Hwf) as
    (ids & d & Hrun & Hwf1 & Hnd & Hids); [lia|]. rewrite app_nil_r in Hwf1.
  destruct (time_out_all ids _ Hwf1 Hnd) as (t' & Hrun' & Hwf' & Hev & Hlive).
  { intros id [(p & Hp & _) _]%Hids. by exists p. }
  exists ids, t'. split; [|split; [done|split; [by etrans; [apply set_deadlines_evolves|]|]]].
  - unfold Operations.expire_ids, bind, get, ret. rewrite Hrun, Hrun'. done.
  - split; [done|]. split; [|done]. intros id. rewrite Hids. set_solver.
Qed.

(** ** Commands

    The table's methods as commands; a caller may issue any sequence of them,
    and the errors it gets back change nothing. *)
Inductive op_cmd :=
| CReserve (owner target : ActorRef) (deadline : Instant)
| CSetContext (id : OperationId) (context : HeldPayload)
| CComplete (id : OperationId) (result : TerminalOutcome)
| CTake (id : OperationId)
| CReleaseUnsubmitted (id : OperationId)
| CRetireOwner (owner : ActorRef)
| CCancelOwner (owner : ActorRef)
| CStopTarget (target : ActorRef)
| CExpire (now : Instant)
| CExpireOne (id : OperationId) (now : Instant).

Definition exec (c : op_cmd) : OpM unit :=
  match c with
  | CReserve owner target deadline => Operations.reserve owner target deadline ;;; ret tt
  | CSetContext id context => Operations.set_context id context
  | CComplete id result => Operations.complete id result ;;; ret tt
  | CTake id => Operations.take id ;;; ret tt
  | CReleaseUnsubmitted id => Operations.release_unsubmitted id ;;; ret tt
  | CRetireOwner owner => Operations.retire_owner owner ;;; ret tt
  | CCancelOwner owner => Operations.cancel_owner owner ;;; ret tt
  | CStopTarget target => Operations.stop_target target ;;; ret tt
  | CExpire now => Operations.expire_ids now ;;; ret tt
  | CExpireOne id now => Operations.expire_one id now ;;; ret tt
  end.
Definition run_cmds (cs : list op_cmd) : OpM unit :=
  for_each (λ c, try_ (exec c) ;;; ret tt) cs.

(** Every operation keeps the invariant and only lets the table evolve. *)
Section run.
Context (t0 : OperationTable).
Definition run_inv (t : OperationTable) : Prop := ot_wf [] t ∧ evolves t0 t.

Lemma run_inv_step t t' : run_inv t → ot_wf [] t' → evolves t t' → run_inv t'.
Proof. intros [_ Hev] Hwf Hev'. split; [done|]. by etrans. Qed.

Lemma complete_run_inv id r : keeps run_inv (Operations.complete id r).
Proof.
  intros t [Hwf Hev]. destruct (complete_cases [] t id r Hwf) as
    [[e ->]|[(o & _ & ->)|(p & Hl & _ & ->)]]; split; try done.
  apply (run_inv_step t); [done|by apply finish_wf|by apply finish_evolves].
Qed.
Lemma take_run_inv id : keeps run_inv (Operations.take id).
Proof.
  intros t [Hwf Hev]. destruct (take_cases t id Hwf) as [[e ->]|[(p & _ & ->)|(o & Hl & ->)]];
    split; try done.
  pose proof (taken_retires t id o Hwf Hl).
  apply (run_inv_step t); [done|by eapply retires_wf|by eapply retires_evolves].
Qed.
Lemma release_run_inv id : keeps run_inv (Operations.release_unsubmitted id).
Proof.
  intros t [Hwf Hev]. destruct (release_cases t id Hwf) as [[e ->]|[(o & _ & ->)|(p & Hl & ->)]];
    split; try done.
  pose proof (released_retires t id p Hwf Hl).
  apply (run_inv_step t); [done|by eapply retires_wf|by eapply retires_evolves].
Qed.
Lemma reserve_run_inv owner target deadline :
  keeps run_inv (Operations.reserve owner target deadline).
Proof.
  intros t [Hwf Hev]. destruct (reserve_cases t owner target deadline Hwf) as
    [[e ->]|(slot & t1 & g & Hw & _ & Hroom & _ & _ & Hg & ->)]; split; try done.
  destruct (reserve_evolves _ _ _ _ (MkPending owner target deadline None) Hwf Hw Hroom Hg)
    as (? & ? & _). by apply (run_inv_step t).
Qed.
Lemma set_context_run_inv id context : keeps run_inv (Operations.set_context id context).
Proof.
  intros t [Hwf Hev]. destruct (set_context_cases t id context Hwf) as
    [[e ->]|(p & Hl & _ & _ & ->)]; split; try done.
  apply (run_inv_step t); [done|by apply with_context_wf|by apply with_context_evolves].
Qed.
Lemma expire_ids_run_inv now : keeps run_inv (Operations.expire_ids now).
Proof.
  intros t [Hwf Hev]. destruct (expire_ids_spec now t Hwf) as (ids & t' & -> & ? & ? & _).
  split; [done|]. by apply (run_inv_step t).
Qed.
Lemma expire_one_run_inv id now : keeps run_inv (Operations.expire_one id now).
Proof.
  intros t Hinv. pose proof Hinv as [Hwf _]. unfold Operations.expire_one, bind, get, of_outcome.
  destruct (locate_cases [] t id Hwf) as [[_ ->]|[(_ & _ & ->)|(e & (_ & Hs & _) & ->)]]; try done.
  rewrite Hs. destruct e as [p|o]; [|done]. destruct (_ <=? _)%N; [|done].
  by apply complete_run_inv.
Qed.
Lemma transition_ids_run_inv ids r : keeps run_inv (Operations.transition_ids ids r).
Proof.
  induction ids as [|id ids IH]; simpl; [apply keeps_ret|].
  apply keeps_bind; [apply keeps_unwrap_or, complete_run_inv|]. intros won.
  apply keeps_bind; [done|]. intros n. apply keeps_ret.
Qed.
Lemma retire_ids_run_inv ids : keeps run_inv (Operations.retire_ids ids).
Proof.
  induction ids as [|id ids IH]; simpl; [apply keeps_ret|].
  apply keeps_bind; [apply keeps_try, complete_run_inv|]. intros _.
  apply keeps_bind; [apply keeps_unwrap_or, take_run_inv|]. intros taken.
  apply keeps_bind; [done|]. intros n. apply keeps_ret.
Qed.
End run.

#[export] Hint Resolve complete_run_inv take_run_inv release_run_inv reserve_run_inv
  set_context_run_inv expire_ids_run_inv expire_one_run_inv transition_ids_run_inv
  retire_ids_run_inv : keeps.

Lemma exec_run_inv t0 c : keeps (run_inv t0) (exec c).
Proof.
  destruct c; unfold exec, Operations.retire_owner, Operations.cancel_owner,
    Operations.stop_target; keeps.
Qed.
Lemma run_cmds_inv t0 cs : keeps (run_inv t0) (run_cmds cs).
Proof.
  apply keeps_for_each. intros c. apply keeps_bind; [|intros _; apply keeps_ret].
  apply keeps_try, exec_run_inv.
Qed.

Lemma run_cmds_noerr cs t e : (run_cmds cs t).1 ≠ Err e.
Proof.
  unfold run_cmds. revert t. induction cs as [|c cs IH]; intros t; simpl; [done|].
  unfold bind at 1, bind at 1, try_. destruct (exec c t) as [[a|e'|] t']; simpl; done || apply IH.
Qed.

(** A run from a well-formed table ends well-formed, evolved, without panic. *)
Lemma run_cmds_ok cs t :
  ot_wf [] t → (run_cmds cs t).1 ≠ Panic ∧ ot_wf [] (run_cmds cs t).2 ∧ evolves t (run_cmds cs t).2.
Proof. intros Hwf. by apply (run_cmds_inv t cs t). Qed.

Lemma new_wf w m t : Operations.new w m = inr t → ot_wf [] t.
Proof.
  unfold Operations.new. destruct (_ || _)%bool; [done|]. intros [= <-].
  split; simpl; try done; try lia.
  - eapply idx_wf_iff; [|apply idx_wf_empty]. intros o id. split; [done|]. intros (e & (_ & ? & _) & _). done.
  - eapply idx_wf_iff; [|apply idx_wf_empty]. intros o id. split; [done|]. intros (e & (_ & ? & _) & _). done.
  - intros k. split; [set_solver|]. intros (? & ? & (_ & ? & _) & _). done.
  - constructor.
  - set_solver.
Qed.

(** The tables a World can hold: built by [new], changed by the methods. *)
Definition ot_reachable (t : OperationTable) : Prop :=
  ∃ w m t0 cs, Operations.new w m = inr t0 ∧ t = (run_cmds cs t0).2.
Lemma ot_reachable_wf t : ot_reachable t → ot_wf [] t.
Proof. intros (w & m & t0 & cs & Ht0%new_wf & ->). by apply run_cmds_ok. Qed.

(** A concrete table for the witnesses: two slots, one operation pending. *)
Definition table_1_2 : OperationTable := MkTable 1 2 [] [] [] [] 0 0 ∅ ∅ ∅ ∅.
Definition sample_actor (slot : N) : ActorRef := MkActorRef 1 slot 1.
Definition sample_id : OperationId := MkOperationId 1 0 1.
Definition sample_table : OperationTable :=
  (run_cmds [CReserve (sample_actor 0) (sample_actor 1) 5] table_1_2).2.
Lemma table_reachable : ot_reachable table_1_2.
Proof. by exists 1%N, 2%N, table_1_2, []. Qed.
Lemma run_reachable cs t : ot_reachable t → ot_reachable (run_cmds cs t).2.
Proof.
  intros (w & m & t0 & cs0 & Hnew & ->). exists w, m, t0, (cs0 ++ cs). split; [done|].
  pose proof (run_cmds_ok cs0 t0 (new_wf _ _ _ Hnew)) as (Hp & _).
  pose proof (run_cmds_noerr cs0 t0) as He. unfold run_cmds in *.
  set (f := λ c : op_cmd, try_ (exec c);;; ret ()) in *. rewrite for_each_app. unfold bind.
  destruct (for_each f cs0 t0) as [[[]|e|] t]; [done|by destruct (He e)|done].
Qed.
Lemma sample_table_reachable : ot_reachable sample_table.
Proof. apply run_reachable, table_reachable. Qed.

(** ** Properties *)

(** C8. No sequence of calls on an operation table panics, and every table it
    reaches is consistent: the live and pending counters, the per-owner counts,
    the owner, target and deadline indexes and the free list all agree with the
    slots. *)
Theorem operation_table_invariant w m t0 cs :
  Operations.new w m = inr t0 →
  (run_cmds cs t0).1 ≠ Panic ∧ ot_wf [] (run_cmds cs t0).2 ∧
  (Operations.len (run_cmds cs t0).2 ≤ m)%N.
Proof.
  intros Hnew. pose proof (new_wf _ _ _ Hnew) as Hwf.
  destruct (run_cmds_ok cs t0 Hwf) as (Hp & Hwf' & Hev). split; [done|]. split; [done|].
  assert (ot_max t0 = m) as Hm.
  { unfold Operations.new in Hnew. destruct (_ || _)%bool; [done|]. by injection Hnew as <-. }
  unfold Operations.len. rewrite (wf_live _ _ Hwf'), <- Hm, <- (ev_max _ _ Hev).
  pose proof (wf_bound _ _ Hwf'). pose proof (count_by_le_length is_occupied (ot_slots (run_cmds cs t0).2)).
  lia.
Qed.

Lemma operation_table_invariant_witness :
  let cs := [CReserve (sample_actor 0) (sample_actor 1) 5; CExpire 9; CTake sample_id] in
  Operations.new 1 2 = inr table_1_2 ∧
  ((run_cmds cs table_1_2).1 ≠ Panic ∧ ot_wf [] (run_cmds cs table_1_2).2 ∧
   (Operations.len (run_cmds cs table_1_2).2 ≤ 2)%N).
Proof. split; [reflexivity|]. apply (operation_table_invariant 1 2). reflexivity. Defined.

(** C7. An operation has one winner: once a completion has won, then after any
    further calls no completion of the same identifier wins, a status read
    gives the winner's outcome or a stale reference, and what [take] hands out
    is the winner's outcome. *)
Theorem complete_single_winner t id r t1 cs :
  ot_reachable t →
  Operations.complete id r t = (Ok true, t1) →
  let t2 := (run_cmds cs t1).2 in
  (∀ r', (Operations.complete id r' t2).1 ≠ Ok true) ∧
  (Operations.status t2 id = Ok (STerminal (Operations.normalize r)) ∨
   Operations.status t2 id = Err Error.StaleReference) ∧
  (∀ o, (Operations.take id t2).1 = Ok (Some o) → o = Operations.normalize r).
Proof.
  intros Hwf%ot_reachable_wf Hc. 
  destruct (complete_cases [] t id r Hwf) as [[e He]|[(o & _ & He)|(p & Hl & Hok & He)]];
    rewrite He in Hc; simplify_eq.
  pose proof (finish_wf _ _ _ _ r Hwf Hl) as Hwf1.
  destruct (run_cmds_ok cs _ Hwf1) as (_ & Hwf2 & Hev). simpl.
  set (t2 := (run_cmds cs (finish t id p r)).2) in *.
  assert (live_at (finish t id p r) id (ETerminal (Operations.normalize r))) as Hl1
    by (apply finish_live; auto).
  assert (op_world id = ot_world t2) as Hw.
  { rewrite (ev_world _ _ Hev). by destruct Hl1. }
  destruct (ev_terminal _ _ Hev _ _ Hl1) as [Hl2|Hd]; (split; [|split]).
  - intros r'. destruct (complete_cases [] t2 id r' Hwf2) as [[e ->]|[(o & _ & ->)|(p' & Hl' & _)]];
      [done..|]. by pose proof (live_at_fun _ _ _ _ Hl2 Hl').
  - left. unfold Operations.status. rewrite (locate_live _ _ _ Hl2). by destruct Hl2 as (_ & -> & _).
  - intros o. destruct (take_cases t2 id Hwf2) as [[e ->]|[(p' & _ & ->)|(o' & Hl' & ->)]]; try done.
    intros [= ->]. pose proof (live_at_fun _ _ _ _ Hl2 Hl'). by simplify_eq.
  - intros r'. destruct (complete_cases [] t2 id r' Hwf2) as [[e ->]|[(o & _ & ->)|(p' & Hl' & _)]];
      [done..|]. by destruct (dead_not_live _ _ _ Hd Hl').
  - right. unfold Operations.status.
    destruct (locate_cases [] t2 id Hwf2) as [[? _]|[(_ & _ & ->)|(e & Hl' & _)]]; [done..|].
    by destruct (dead_not_live _ _ _ Hd Hl').
  - intros o. destruct (take_cases t2 id Hwf2) as [[e ->]|[(p' & _ & ->)|(o' & Hl' & ->)]]; try done.
    by destruct (dead_not_live _ _ _ Hd Hl').
Qed.

Lemma complete_single_winner_witness :
  let t1 := (Operations.complete sample_id Cancelled sample_table).2 in
  Operations.complete sample_id Cancelled sample_table = (Ok true, t1) ∧
  (Operations.complete sample_id OwnerStopped (run_cmds [CExpire 9] t1).2).1 ≠ Ok true.
Proof.
  intros t1. assert (Operations.complete sample_id Cancelled sample_table = (Ok true, t1)) as Hc
    by (vm_compute; reflexivity).
  split; [exact Hc|].
  exact (proj1 (complete_single_winner sample_table sample_id Cancelled t1 [CExpire 9]
    sample_table_reachable Hc) OwnerStopped).
Defined.

(** C27. A result is handed out once: after a successful [take], and after any
    further calls, the identifier is stale for good, even when its slot has been
    reserved again. *)
Theorem take_once t id o t1 cs :
  ot_reachable t →
  Operations.take id t = (Ok (Some o), t1) →
  let t2 := (run_cmds cs t1).2 in
  Operations.status t2 id = Err Error.StaleReference ∧
  Operations.take id t2 = (Err Error.StaleReference, t2).
Proof.
  intros Hwf%ot_reachable_wf Ht.
  destruct (take_cases t id Hwf) as [[e He]|[(p & _ & He)|(o' & Hl & He)]];
    rewrite He in Ht; simplify_eq.
  pose proof (taken_retires t id o Hwf Hl) as Hr. pose proof (retires_wf _ _ _ _ Hwf Hl Hr) as Hwf1.
  pose proof (retires_dead _ _ _ _ Hwf Hl Hr) as Hd.
  destruct (run_cmds_ok cs _ Hwf1) as (_ & Hwf2 & Hev). apply (ev_dead _ _ Hev) in Hd. simpl.
  destruct (locate_cases [] _ id Hwf2) as [[Hw _]|[(_ & _ & Hloc)|(e & Hl' & _)]].
  - by destruct Hd.
  - unfold Operations.status, Operations.take, bind, get, of_outcome. by rewrite Hloc.
  - by destruct (dead_not_live _ _ _ Hd Hl').
Qed.

Lemma take_once_witness :
  let t := (run_cmds [CExpire 9] sample_table).2 in
  let t1 := (Operations.take sample_id t).2 in
  let t2 := (run_cmds [CReserve (sample_actor 0) (sample_actor 1) 7] t1).2 in
  Operations.take sample_id t = (Ok (Some TimedOut), t1) ∧
  Operations.status t2 sample_id = Err Error.StaleReference.
Proof.
  intros t t1 t2.
  assert (Operations.take sample_id t = (Ok (Some TimedOut), t1)) as Ht by (vm_compute; reflexivity).
  split; [exact Ht|].
  exact (proj1 (take_once t sample_id TimedOut t1
    [CReserve (sample_actor 0) (sample_actor 1) 7]
    (run_reachable [CExpire 9] _ sample_table_reachable) Ht)).
Defined.

(** Identifiers are never reused: an identifier that [reserve] returns
    differs from every identifier returned before, whatever was called in
    between. *)
Theorem reserve_fresh t owner target deadline id t1 cs owner' target' deadline' id' t2 :
  ot_reachable t →
  Operations.reserve owner target deadline t = (Ok id, t1) →
  Operations.reserve owner' target' deadline' (run_cmds cs t1).2 = (Ok id', t2) →
  id' ≠ id.
Proof.
  intros Hwf%ot_reachable_wf H1 H2 ->.
  destruct (reserve_cases t owner target deadline Hwf) as
    [[e He]|(s & u & g & Hw & _ & Hroom & _ & _ & Hg & He)]; rewrite He in H1; simplify_eq.
  destruct (reserve_evolves _ _ _ _ (MkPending owner target deadline None) Hwf Hw Hroom Hg)
    as (_ & Hwf1 & Hlive1).
  set (id := MkOperationId (ot_world t) s g) in *.
  set (t1 := reserved u id (MkPending owner target deadline None)) in *.
  destruct (run_cmds_ok cs t1 Hwf1) as (_ & Hwf2 & Hev).
  set (t' := (run_cmds cs t1).2) in *.
  destruct (reserve_cases t' owner' target' deadline' Hwf2) as
    [[e He']|(s' & u' & g' & Hw' & _ & Hroom' & _ & _ & Hg' & He')]; rewrite He' in H2; simplify_eq.
  destruct (reserve_evolves _ _ _ _ (MkPending owner' target' deadline' None) Hwf2 Hw' Hroom' Hg')
    as (Hev' & _ & Hlive2).
  assert (live_at t1 id (EPending (MkPending owner target deadline None))) as Hl
    by (apply Hlive1; auto).
  destruct (ev_live _ _ Hev _ _ Hl) as [[e0 He0]|Hd].
  - destruct (with_slot_wf _ _ _ Hwf2 Hw' Hroom') as (_ & Hs & _).
    apply (with_slot_live t' _ _ _ _ Hwf2 Hw') in He0 as (_ & Hs' & _).
    unfold slot_index, id in Hs'. simpl in Hs'. congruence.
  - apply (ev_dead _ _ Hev') in Hd. unfold id in Hd. rewrite <- H in Hd.
    eapply dead_not_live; [exact Hd|]. apply Hlive2. auto.
Qed.

Lemma reserve_fresh_witness :
  let a := sample_actor 0 in
  let id' := MkOperationId 1 0 2 in
  let t' := (run_cmds [CCancelOwner a; CTake sample_id] sample_table).2 in
  Operations.reserve a a 5 t' = (Ok id', (Operations.reserve a a 5 t').2) ∧ id' ≠ sample_id.
Proof.
  intros a id' t'.
  assert (Operations.reserve a a 5 t' = (Ok id', (Operations.reserve a a 5 t').2)) as H2
    by (vm_compute; reflexivity).
  split; [exact H2|].
  apply (reserve_fresh table_1_2 a (sample_actor 1) 5 sample_id sample_table
    [CCancelOwner a; CTake sample_id] a a 5 id' (Operations.reserve a a 5 t').2 table_reachable); [|exact H2].
  vm_compute. reflexivity.
Defined.

(** [expire_ids now] completes as timed out exactly the pending operations
    whose deadline is at or before [now], reports each of them once in
    identifier order, and touches no other operation. *)
Theorem expire_ids_exact t now :
  ot_reachable t →
  ∃ ids t', Operations.expire_ids now t = (Ok ids, t') ∧
    StronglySorted key_le ids ∧ NoDup ids ∧ (∀ id, id ∈ ids ↔ pending_due now t id) ∧
    (∀ id e, live_at t' id e ↔
      (pending_due now t id ∧ e = ETerminal TimedOut) ∨ (¬ pending_due now t id ∧ live_at t id e)).
Proof.
  intros Hwf%ot_reachable_wf.
  destruct (expire_ids_spec now t Hwf) as (ids & t' & Hrun & _ & _ & Hnd & Hids & Hlive).
  exists (sort_keys ids), t'. split; [done|]. split; [apply sort_keys_sorted|].
  split; [by rewrite sort_keys_perm|]. split; [intros id; by rewrite elem_of_sort_keys|].
  intros id e. by rewrite Hlive, Hids.
Qed.

Lemma expire_ids_exact_witness :
  (Operations.expire_ids 9 sample_table).1 = Ok [sample_id] ∧
  ∃ ids t', Operations.expire_ids 9 sample_table = (Ok ids, t') ∧
    (∀ id, id ∈ ids ↔ pending_due 9 sample_table id).
Proof.
  split; [vm_compute; reflexivity|].
  destruct (expire_ids_exact sample_table 9 sample_table_reachable) as (ids & t' & H1 & _ & _ & H2 & _).
  exists ids, t'. split; [exact H1|exact H2].
Defined.
