(* ===== verification/Metadata.v ===== *)
(** * Bounded metadata

    [crates/runtime-core/src/failures.rs]: failure records whose text and frame
    count are bounded on construction, and [envelope.rs]: trace contexts with
    bounded baggage, message options and their inheritance by child events. *)
From S2P Require Import Prelude Collections Text Types.

(** ** Failure records *)
Definition handler_max : nat := 128.
Definition exception_max : nat := 128.
Definition file_max : nat := 256.
Definition function_max : nat := 128.
Definition max_frames : nat := 8.

Definition bounded (value : string) (max : nat) : string := truncate_str value max.

Module Failures.
Definition frame_new (file : string) (line : N) (function : string) : FailureFrame := {|
  ff_file := bounded file file_max;
  ff_line := line;
  ff_function := bounded function function_max;
  ff_truncated := (N.of_nat file_max <? str_len file)%N ||
                  (N.of_nat function_max <? str_len function)%N
|}.

Definition details_new (phase : FailurePhase) (handler exception_type : string)
    (frames : list FailureFrame) : FailureDetails :=
  let frames_truncated := bool_decide (max_frames < length frames) in
  let text_truncated := (N.of_nat handler_max <? str_len handler)%N ||
                        (N.of_nat exception_max <? str_len exception_type)%N in
  let frames := take max_frames frames in
  let frame_text_truncated := existsb ff_truncated frames in {|
    fd_phase := phase;
    fd_handler := bounded handler handler_max;
    fd_exception_type := bounded exception_type exception_max;
    fd_frames := frames;
    fd_truncated := frames_truncated || frame_text_truncated || text_truncated
  |}.

Definition with_truncated (d : FailureDetails) (truncated : bool) : FailureDetails := {|
  fd_phase := fd_phase d; fd_handler := fd_handler d;
  fd_exception_type := fd_exception_type d; fd_frames := fd_frames d;
  fd_truncated := fd_truncated d || truncated
|}.
End Failures.

(** ** Trace contexts *)
Definition max_baggage : N := 8.
Definition max_key_bytes : N := 64.
Definition max_value_bytes : N := 256.
Definition max_baggage_bytes : N := 1024.

(** [byte.is_ascii_alphanumeric() || b"_.-".contains(&byte)] *)
Definition baggage_byte (b : byte) : bool :=
  byte_in b 48 57 || byte_in b 65 90 || byte_in b 97 122 ||
  byte_in b 95 95 || byte_in b 46 46 || byte_in b 45 45.
Definition key_valid (key : string) : bool :=
  negb (str_len key =? 0)%N && (str_len key <=? max_key_bytes)%N &&
  forallb baggage_byte (bytes_of key).

Module Trace.
(** The loop over the baggage, with the entries accepted so far and their
    total size. *)
Fixpoint normalize (baggage normalized : list (string * string)) (total : N) :
    error + list (string * string) :=
  match baggage with
  | [] => inr normalized
  | (key, value) :: baggage =>
      if negb (key_valid key) || (max_value_bytes <? str_len value)%N
      then inl Error.InvalidMetadata
      else if negb (forallb (λ p : string * string, bool_decide (p.1 ≠ key)) normalized)
      then inl Error.InvalidMetadata
      else match checked_add usize_max total (str_len key) ≫=
                 (λ size, checked_add usize_max size (str_len value)) with
           | None => inl Error.InvalidMetadata
           | Some total =>
               if (max_baggage_bytes <? total)%N then inl Error.InvalidMetadata
               else normalize baggage (normalized ++ [(key, value)]) total
           end
  end.

Definition new (trace_id span_id : list byte) (sampled : bool)
    (baggage : list (string * string)) : error + TraceContext :=
  if forallb (λ b, bool_decide (Byte.to_N b = 0%N)) trace_id ||
     forallb (λ b, bool_decide (Byte.to_N b = 0%N)) span_id
  then inl Error.InvalidMetadata
  else if (max_baggage <? N.of_nat (length baggage))%N then inl Error.InvalidMetadata
  else match normalize baggage [] 0 with
       | inl e => inl e
       | inr normalized => inr (MkTrace trace_id span_id sampled normalized)
       end.

Definition charged_bytes (t : TraceContext) : N :=
  24 + 1 + sum_by (λ p : string * string, str_len p.1 + str_len p.2)%N (baggage t).
End Trace.

Module Options.
Definition validate (o : MessageOptions) : bool :=
  negb (bool_decide (mo_correlation_id o = Some 0%N) ||
        bool_decide (mo_causation_id o = Some 0%N)).
Definition charged_bytes (o : MessageOptions) : N :=
  from_option Trace.charged_bytes 0%N (mo_trace o).
End Options.

(** The options an event caused by this one inherits. *)
Definition child_options (e : Envelope) (source : ActorRef) : MessageOptions := {|
  mo_source := Some source;
  mo_deadline := env_deadline e;
  mo_correlation_id := Some (default (env_event_id e) (env_correlation_id e));
  mo_causation_id := Some (env_event_id e);
  mo_trace := env_trace e
|}.

(** ** Specification *)

(** What a well-formed baggage list is, independently of the loop. *)
Record baggage_ok (l : list (string * string)) : Prop := {
  bo_keys : NoDup l.*1;
  bo_entries p : p ∈ l → key_valid p.1 = true ∧ (str_len p.2 ≤ max_value_bytes)%N;
  bo_total : (sum_by (λ p : string * string, str_len p.1 + str_len p.2)%N l ≤ max_baggage_bytes)%N
}.

(** A frame or text of a stored failure is within its bounds. *)
Definition frame_bounded (f : FailureFrame) : Prop :=
  String.length (ff_file f) ≤ file_max ∧ String.length (ff_function f) ≤ function_max.
Definition details_bounded (d : FailureDetails) : Prop :=
  String.length (fd_handler d) ≤ handler_max ∧
  String.length (fd_exception_type d) ≤ exception_max ∧
  length (fd_frames d) ≤ max_frames ∧ Forall frame_bounded (fd_frames d).

(** ** Lemmas *)
Lemma baggage_ok_app_inv l1 l2 : baggage_ok (l1 ++ l2) → baggage_ok l1.
Proof.
  intros [Hk He Ht]. split.
  - rewrite fmap_app in Hk. by apply NoDup_app in Hk as (? & _).
  - intros p Hp. apply He. set_solver.
  - rewrite sum_by_app in Ht. lia.
Qed.

Lemma baggage_ok_snoc l key value :
  baggage_ok l → key_valid key = true → (str_len value ≤ max_value_bytes)%N → key ∉ l.*1 →
  (sum_by (λ p : string * string, str_len p.1 + str_len p.2)%N l + (str_len key + str_len value)
     ≤ max_baggage_bytes)%N →
  baggage_ok (l ++ [(key, value)]).
Proof.
  intros [Hk He Ht] Hkey Hval Hni Htot. split.
  - rewrite fmap_app. apply NoDup_app. split; [done|]. split; [set_solver|]. apply NoDup_singleton.
  - intros p [Hp| ->%list_elem_of_singleton]%elem_of_app; [by apply He|done].
  - rewrite sum_by_app. simpl. lia.
Qed.

Lemma forallb_fresh (l : list (string * string)) key :
  forallb (λ p : string * string, bool_decide (p.1 ≠ key)) l = true ↔ key ∉ l.*1.
Proof.
  rewrite forallb_forall, list_elem_of_fmap. split.
  - intros H ([k v] & -> & Hin%list_elem_of_In). specialize (H _ Hin).
    by apply bool_decide_eq_true in H.
  - intros H [k v] Hin%list_elem_of_In. apply bool_decide_eq_true. intros <-. apply H.
    by exists (k, v).
Qed.

Definition baggage_size (l : list (string * string)) : N :=
  sum_by (λ p : string * string, str_len p.1 + str_len p.2)%N l.

(** The loop accepts exactly the well-formed baggage and keeps it as it is. *)
Lemma normalize_spec l acc :
  baggage_ok acc →
  (baggage_ok (acc ++ l) ∧ Trace.normalize l acc (baggage_size acc) = inr (acc ++ l)) ∨
  (¬ baggage_ok (acc ++ l) ∧ Trace.normalize l acc (baggage_size acc) = inl Error.InvalidMetadata).
Proof.
  revert acc. induction l as [|[key value] l IH]; intros acc Hacc; simpl.
  { left. by rewrite app_nil_r. }
  assert (∀ P : Prop, (baggage_ok (acc ++ (key, value) :: l) → P) → ¬ P →
    ¬ baggage_ok (acc ++ (key, value) :: l)) as Hcontra by tauto.
  destruct (key_valid key) eqn:Hkey; simpl; last first.
  { right. split; [|done]. intros [_ He _]. destruct (He (key, value)) as [? _]; [set_solver|].
    simpl in *. congruence. }
  destruct (max_value_bytes <? str_len value)%N eqn:Hval.
  { right. split; [|done]. intros [_ He _]. destruct (He (key, value)) as [_ ?]; [set_solver|].
    simpl in *. lia. }
  destruct (forallb _ acc) eqn:Hfresh; simpl; last first.
  { right. split; [|done]. intros [Hk _ _]. apply not_true_iff_false in Hfresh. apply Hfresh.
    apply forallb_fresh. rewrite fmap_app in Hk. apply NoDup_app in Hk as (_ & Hk & _).
    intros Hin. apply (Hk _ Hin). simpl. set_solver. }
  apply forallb_fresh in Hfresh.
  pose proof (bo_total _ Hacc) as Hsz. fold (baggage_size acc) in Hsz.
  assert (N.of_nat (String.length key) ≤ max_key_bytes)%N as Hklen.
  { unfold key_valid, str_len in Hkey. lia. }
  assert (str_len key ≤ max_key_bytes)%N as Hklen' by done.
  unfold checked_add. unfold max_value_bytes, max_key_bytes, max_baggage_bytes, usize_max, u64_max in *.
  rewrite decide_True by lia. simpl. rewrite decide_True by lia. simpl.
  destruct (1024 <? _)%N eqn:Htot.
  { right. split; [|done]. intros [_ _ Ht]. rewrite sum_by_app in Ht. simpl in Ht.
    fold (baggage_size acc) in Ht. unfold max_baggage_bytes in Ht. lia. }
  replace (baggage_size acc + str_len key + str_len value)%N
    with (baggage_size (acc ++ [(key, value)]))
    by (unfold baggage_size; rewrite sum_by_app; simpl; lia).
  replace (acc ++ (key, value) :: l) with ((acc ++ [(key, value)]) ++ l) by by rewrite <- app_assoc.
  apply IH. apply baggage_ok_snoc; try done; unfold max_value_bytes, max_baggage_bytes; [lia|].
  fold (baggage_size acc). lia.
Qed.

Lemma baggage_ok_nil : baggage_ok [].
Proof. split; [constructor|set_solver|done]. Qed.

Lemma bounded_length s max : String.length (bounded s max) ≤ max.
Proof. apply truncate_str_len. Qed.

Lemma bounded_valid s max :
  utf8_valid (bytes_of s) = true → utf8_valid (bytes_of (bounded s max)) = true.
Proof.
  intros Hv. unfold bounded, truncate_str. rewrite bytes_of_of_bytes. by apply truncate_bytes_valid.
Qed.

Lemma bounded_id s max : String.length s ≤ max → bounded s max = s.
Proof.
  intros Hl. unfold bounded, truncate_str. rewrite truncate_bytes_id by by rewrite length_bytes_of.
  apply String.string_of_list_byte_of_string.
Qed.

(** ** Properties *)

(** [TraceContext::new] accepts exactly the contexts whose identifiers are
    not all zero and whose baggage has at most eight entries with distinct
    keys of allowed characters, keys, values and total size within their
    bounds; it keeps what it accepts unchanged and its charge is at most 1049
    bytes. *)
Theorem trace_new_exact trace_id span_id s l :
  let ok := (∃ b, b ∈ trace_id ∧ Byte.to_N b ≠ 0%N) ∧ (∃ b, b ∈ span_id ∧ Byte.to_N b ≠ 0%N) ∧
            (N.of_nat (length l) ≤ max_baggage)%N ∧ baggage_ok l in
  (ok ∧ Trace.new trace_id span_id s l = inr (MkTrace trace_id span_id s l) ∧
   (Trace.charged_bytes (MkTrace trace_id span_id s l) ≤ 1049)%N) ∨
  (¬ ok ∧ Trace.new trace_id span_id s l = inl Error.InvalidMetadata).
Proof.
  intros ok. unfold Trace.new.
  assert (∀ bs, forallb (λ b, bool_decide (Byte.to_N b = 0%N)) bs = false ↔
    ∃ b, b ∈ bs ∧ Byte.to_N b ≠ 0%N) as Hzero.
  { intros bs. induction bs as [|b bs IH]; simpl; [set_solver|].
    rewrite andb_false_iff, IH, bool_decide_eq_false. setoid_rewrite elem_of_cons. naive_solver. }
  destruct (forallb _ trace_id) eqn:Ht.
  { right. split; [|done]. intros (H%Hzero & _). congruence. }
  destruct (forallb _ span_id) eqn:Hs; simpl.
  { right. split; [|done]. intros (_ & H%Hzero & _). congruence. }
  destruct (max_baggage <? _)%N eqn:Hl.
  { right. split; [|done]. intros (_ & _ & ? & _). lia. }
  destruct (normalize_spec l [] baggage_ok_nil) as [[Hok Hn]|[Hok Hn]]; simpl in *;
    change (baggage_size []) with 0%N in Hn; rewrite Hn.
  - left. split; [|split; [done|]].
    + split; [by apply Hzero|]. split; [by apply Hzero|]. split; [lia|done].
    + unfold Trace.charged_bytes. simpl. pose proof (bo_total _ Hok) as Htot.
      unfold max_baggage_bytes in Htot. lia.
  - right. split; [|done]. by intros (_ & _ & _ & ?).
Qed.

(** A failure record keeps at most eight frames and each of its texts within
    its byte bound; when nothing was cut it keeps everything and is not marked,
    and its texts stay valid UTF-8. *)
Theorem failure_details_bounded phase handler exception_type (frames : list FailureFrame) :
  Forall frame_bounded frames →
  let d := Failures.details_new phase handler exception_type frames in
  details_bounded d ∧
  (fd_truncated d = false ↔
     String.length handler ≤ handler_max ∧ String.length exception_type ≤ exception_max ∧
     length frames ≤ max_frames ∧ Forall (λ f, ff_truncated f = false) frames) ∧
  (fd_truncated d = false →
     fd_handler d = handler ∧ fd_exception_type d = exception_type ∧ fd_frames d = frames) ∧
  (utf8_valid (bytes_of handler) = true → utf8_valid (bytes_of (fd_handler d)) = true) ∧
  (utf8_valid (bytes_of exception_type) = true →
     utf8_valid (bytes_of (fd_exception_type d)) = true).
Proof.
  intros Hframes d.
  assert (fd_truncated d = false ↔
     String.length handler ≤ handler_max ∧ String.length exception_type ≤ exception_max ∧
     length frames ≤ max_frames ∧ Forall (λ f, ff_truncated f = false) frames) as Hcut.
  { unfold d, Failures.details_new. simpl. rewrite !orb_false_iff, bool_decide_eq_false.
    assert (existsb ff_truncated (take max_frames frames) = false ↔
      Forall (λ f, ff_truncated f = false) (take max_frames frames)) as ->.
    { generalize (take max_frames frames). intros l. induction l as [|f l IH]; simpl; [done|].
      by rewrite orb_false_iff, Forall_cons, IH. }
    unfold str_len. split.
    - intros [[Hn Hf] [Hh He]]. rewrite take_ge in Hf by lia. split; [lia|]. split; [lia|].
      split; [lia|done].
    - intros (Hh & He & Hn & Hf). rewrite take_ge by lia. split; [split; [lia|done]|].
      unfold handler_max, exception_max in *. lia. }
  split; [|split; [done|split; [|split; apply bounded_valid]]].
  - split; [apply bounded_length|]. split; [apply bounded_length|]. split.
    + unfold d. simpl. rewrite length_take. lia.
    + unfold d. simpl. by apply Forall_take.
  - intros (Hh & He & Hn & Hf)%Hcut. unfold d. simpl. rewrite !bounded_id by done.
    rewrite take_ge by done. done.
Qed.

Lemma failure_details_bounded_witness :
  let f := Failures.frame_new "a.py" 3 "f" in
  Forall frame_bounded [f] ∧ details_bounded (Failures.details_new Handler "h" "E" [f]).
Proof.
  intros f. assert (Forall frame_bounded [f]) as Hf.
  { constructor; [|constructor]. split; apply bounded_length. }
  split; [exact Hf|]. exact (proj1 (failure_details_bounded Handler "h" "E" [f] Hf)).
Defined.

(** Every frame the constructor builds is within its bounds, and a frame
    that is not marked truncated keeps its texts. *)
Theorem frame_new_bounded file line function :
  let f := Failures.frame_new file line function in
  frame_bounded f ∧
  (ff_truncated f = false → ff_file f = file ∧ ff_function f = function).
Proof.
  intros f. split; [split; apply bounded_length|].
  unfold f. simpl. rewrite orb_false_iff. unfold str_len. intros [? ?].
  split; apply bounded_id; unfold file_max, function_max in *; lia.
Qed.
