(* ===== verification/Diagnostics.v ===== *)
(** * Clock and diagnostic history

    [crates/runtime-core/src/clock.rs]: system and manual clocks, and
    [diagnostics.rs]: the bounded ring of diagnostic records with its read
    cursor. *)
From S2P Require Import Prelude Collections Text Types.

(** ** Clock

    An instant is a number of nanoseconds.  A system clock may advance between
    any two readings: [ck_ticks] are the advances of the readings to come (no
    advance once the list is exhausted).  A manual clock only moves by
    [advance]. *)
Record Clock := MkClock { ck_manual : bool; ck_time : Instant; ck_ticks : list N }.

(** The largest [Instant]: whole seconds are kept in an [i64]. *)
Definition instant_max : N := 2 ^ 63 * 10 ^ 9 - 1.

Module Clocks.
Definition system (start : Instant) (ticks : list N) : Clock := MkClock false start ticks.
Definition manual_at (initial : Instant) : Clock := MkClock true initial [].
Definition now (c : Clock) : Instant * Clock :=
  if ck_manual c then (ck_time c, c)
  else match ck_ticks c with
       | [] => (ck_time c, c)
       | d :: ticks => ((ck_time c + d)%N, MkClock false (ck_time c + d) ticks)
       end.
Definition is_virtual (c : Clock) : bool := ck_manual c.
Definition advance (by_ : N) (c : Clock) : (error + Instant) * Clock :=
  if negb (ck_manual c) then (inl Error.InvalidConfig, c)
  else match checked_add instant_max (ck_time c) by_ with
       | None => (inl Error.LimitExceeded, c)
       | Some next =>
           if (next <? ck_time c)%N then (inl Error.LimitExceeded, c)
           else (inr next, MkClock true next (ck_ticks c))
       end.
End Clocks.

(** [saturating_duration_since(epoch).as_nanos().min(u64::MAX)] *)
Definition elapsed_ns (epoch now : Instant) : N := N.min u64_max (now - epoch).

(** ** Diagnostic records *)
Module Code.
Inductive code :=
| QueueFull | BudgetExceeded | ActorNotReady | ActorStopped | StaleReference | CrossWorld
| LimitExceeded | InvalidConfig | NotFound | DuplicateSubscription | SchemaMismatch
| InvalidPort | InterfaceMismatch | InvalidMetadata | DeadlineExpired | HandlerFailed
| StartupFailed | CleanupFailed | SupervisorFailed | OperationTimedOut | OperationLateResult
| OwnerStopped | TargetStopped | DrainTimeout | Cancelled.
Definition of_error (e : error) : code :=
  match e with
  | Error.QueueFull => QueueFull
  | Error.BudgetExceeded => BudgetExceeded
  | Error.ActorNotReady => ActorNotReady
  | Error.ActorStopped => ActorStopped
  | Error.StaleReference => StaleReference
  | Error.CrossWorld => CrossWorld
  | Error.LimitExceeded => LimitExceeded
  | Error.InvalidConfig => InvalidConfig
  | Error.NotFound => NotFound
  | Error.DuplicateSubscription => DuplicateSubscription
  | Error.SchemaMismatch => SchemaMismatch
  | Error.InvalidPort => InvalidPort
  | Error.InterfaceMismatch => InterfaceMismatch
  | Error.InvalidMetadata => InvalidMetadata
  | Error.DeadlineExpired => DeadlineExpired
  end.
End Code.
Abbreviation DiagnosticCode := Code.code.
#[export] Instance DiagnosticCode_eq_dec : EqDecision DiagnosticCode.
Proof. solve_decision. Defined.

Record DiagnosticEntry := MkDiagnostic {
  dg_sequence : N; dg_elapsed_ns : N; dg_code : DiagnosticCode; dg_actor : option ActorRef;
  dg_operation : option OperationId; dg_event_id : option N; dg_correlation_id : option N;
  dg_causation_id : option N; dg_failure : option FailureRecord
}.
Record DiagnosticGap := MkGap { gap_first_available : N; gap_requested_after : N }.
Record DiagnosticRead := MkRead {
  rd_entries : list DiagnosticEntry; rd_next_sequence : N; rd_dropped : N;
  rd_gap : option DiagnosticGap
}.
Record History := MkHistory {
  h_capacity : N; h_next : N; h_dropped : N; h_entries : list DiagnosticEntry;
  h_epoch : Instant; h_exhausted : bool
}.
#[export] Instance History_expand : Expand History := λ r,
  MkHistory (h_capacity r) (h_next r) (h_dropped r) (h_entries r) (h_epoch r) (h_exhausted r).

Module Hist.
Definition new (capacity : N) (epoch : Instant) : History :=
  MkHistory capacity 1 0 [] epoch false.

(** The clock is shared with the World: a record that is kept reads it. *)
Definition record_entry (code : DiagnosticCode) (actor : option ActorRef)
    (operation : option OperationId) (failure : option FailureRecord)
    (envelope : option Envelope) (h : History) (c : Clock) : History * Clock :=
  if (h_capacity h =? 0)%N || h_exhausted h
  then (h <| h_dropped ::= λ d, saturating_add u64_max d 1 |>, c)
  else
    let h := if (N.of_nat (length (h_entries h)) =? h_capacity h)%N
             then h <| h_entries ::= tail |> <| h_dropped ::= λ d, saturating_add u64_max d 1 |>
             else h in
    let sequence := h_next h in
    let h := if (sequence =? u64_max)%N then h <| h_exhausted := true |>
             else h <| h_next ::= N.succ |> in
    let '(now, c) := Clocks.now c in
    let entry := {|
      dg_sequence := sequence;
      dg_elapsed_ns := elapsed_ns (h_epoch h) now;
      dg_code := code; dg_actor := actor; dg_operation := operation;
      dg_event_id := match envelope with
                     | Some e => Some (env_event_id e)
                     | None => failure ≫= fr_event_id
                     end;
      dg_correlation_id := envelope ≫= env_correlation_id;
      dg_causation_id := envelope ≫= env_causation_id;
      dg_failure := failure
    |} in
    (h <| h_entries ::= λ l, l ++ [entry] |>, c).

Definition record (code : DiagnosticCode) (actor : option ActorRef)
    (operation : option OperationId) : History → Clock → History * Clock :=
  record_entry code actor operation None None.
Definition record_event (code : DiagnosticCode) (envelope : Envelope)
    (operation : option OperationId) : History → Clock → History * Clock :=
  record_entry code (Some (env_destination envelope)) operation None (Some envelope).
Definition failure_code (f : FailureRecord) : DiagnosticCode :=
  match fd_phase (fr_details f) with
  | Handler => Code.HandlerFailed
  | Stop => Code.CleanupFailed
  | Supervisor => Code.SupervisorFailed
  | _ => Code.StartupFailed
  end.
Definition record_failure (f : FailureRecord) : History → Clock → History * Clock :=
  record_entry (failure_code f) (Some (fr_actor f)) (fr_operation f) (Some f) None.

Definition read (h : History) (after limit : N) : DiagnosticRead :=
  let first := match h_entries h with [] => h_next h | e :: _ => dg_sequence e end in {|
    rd_entries := take (N.to_nat limit)
      (filter (λ e, (after <? dg_sequence e)%N = true) (h_entries h));
    rd_next_sequence := h_next h;
    rd_dropped := h_dropped h;
    rd_gap := if (saturating_add u64_max after 1 <? first)%N
              then Some (MkGap first after) else None
  |}.
End Hist.

(** ** Specification *)

(** A call to one of the recording entry points, with what it records. *)
Record rec_call := MkCall {
  rc_code : DiagnosticCode; rc_actor : option ActorRef; rc_operation : option OperationId;
  rc_failure : option FailureRecord; rc_envelope : option Envelope
}.
Definition do_call (hc : History * Clock) (r : rec_call) : History * Clock :=
  Hist.record_entry (rc_code r) (rc_actor r) (rc_operation r) (rc_failure r) (rc_envelope r)
    hc.1 hc.2.
Definition do_calls (hc : History * Clock) (rs : list rec_call) : History * Clock :=
  foldl do_call hc rs.

(** The sequence numbers of the kept records are consecutive. *)
Definition consecutive (first : N) (l : list DiagnosticEntry) : Prop :=
  ∀ i e, l !! i = Some e → dg_sequence e = (first + N.of_nat i)%N.

(** [n] records were made since the history was new. *)
Record hist_wf (n : N) (h : History) : Prop := {
  hw_len : (N.of_nat (length (h_entries h)) ≤ h_capacity h)%N;
  hw_dropped : h_dropped h = N.min u64_max (n - N.of_nat (length (h_entries h)));
  hw_next : h_capacity h ≠ 0%N → h_next h = N.min u64_max (n + 1);
  hw_exhausted : h_capacity h ≠ 0%N → h_exhausted h = (u64_max <=? n)%N;
  hw_len_eq : N.of_nat (length (h_entries h)) = N.min (h_capacity h) (N.min u64_max n);
  hw_seq : consecutive (N.min u64_max n + 1 - N.of_nat (length (h_entries h))) (h_entries h);
  hw_zero : h_capacity h = 0%N → h_next h = 1%N
}.

(** ** Lemmas *)
Lemma consecutive_snoc first l e :
  consecutive first l → dg_sequence e = (first + N.of_nat (length l))%N →
  consecutive first (l ++ [e]).
Proof.
  intros Hl He i e' [Hi|[Hge Hi]]%lookup_app_Some; [by apply Hl|].
  destruct (i - length l) as [|k] eqn:Hk; [|by destruct k].
  simpl in Hi. simplify_eq. rewrite He. lia.
Qed.

Lemma consecutive_tail first x l : consecutive first (x :: l) → consecutive (first + 1) l.
Proof. intros Hl i e Hi. rewrite (Hl (S i) e Hi). lia. Qed.

Lemma record_wf n h c r :
  hist_wf n h → hist_wf (n + 1) (do_call (h, c) r).1 ∧ h_capacity (do_call (h, c) r).1 = h_capacity h.
Proof.
  intros Hwf. pose proof Hwf as [Hlen Hdrop Hnext Hex Hleq Hseq Hz].
  unfold do_call, Hist.record_entry. simpl.
  destruct (h_capacity h =? 0)%N eqn:Hcap; simpl.
  { split; [|done]. split; simpl; try done; unfold saturating_add; try lia.
    destruct (h_entries h); simpl in *; [by intros ? ? ?|lia]. }
  destruct (h_exhausted h) eqn:Hexh; simpl.
  { rewrite Hex in Hexh by lia. split; [|done].
    split; simpl; try done; unfold saturating_add, u64_max in *; try lia.
    by replace (N.min (2 ^ 64 - 1) (n + 1)) with (N.min (2 ^ 64 - 1) n) by lia. }
  pose proof Hexh as Hexf. rewrite Hex in Hexh by lia. specialize (Hnext ltac:(lia)).
  assert (n < u64_max)%N as Hn by lia.
  destruct (Clocks.now c) as [now c'].
  match goal with |- context [set_field h_entries (λ l, l ++ [?e])] => set (mk := e) end.
  set (h1 := if (N.of_nat (length (h_entries h)) =? h_capacity h)%N then _ else h).
  assert (dg_sequence mk = h_next h1) as Hmk by done. clearbody mk.
  assert (h_exhausted h1 = false ∧ h_capacity h1 = h_capacity h ∧ h_next h1 = h_next h ∧ h_epoch h1 = h_epoch h ∧
    (N.of_nat (length (h_entries h1)) < h_capacity h)%N ∧
    N.of_nat (length (h_entries h1)) = N.min (h_capacity h - 1) n ∧
    h_dropped h1 = (n - N.of_nat (length (h_entries h1)))%N ∧
    consecutive (n + 1 - N.of_nat (length (h_entries h1))) (h_entries h1))
    as (Hex1 & Hc1 & Hn1 & He1 & Hlt & Hl1 & Hd1 & Hs1).
  { rewrite N.min_r in Hseq by lia. unfold h1.
    destruct (_ =? h_capacity h)%N eqn:Hfull; apply N.eqb_eq in Hfull || apply N.eqb_neq in Hfull.
    - destruct (h_entries h) as [|x l] eqn:Hes; simpl in *; [lia|]. rewrite Hes. simpl.
      do 4 (split; [done|]). split; [lia|]. split; [lia|].
      split; [unfold saturating_add, u64_max in *; lia|].
      apply consecutive_tail in Hseq. by replace (n + 1 - N.of_nat (length l))%N with
        (n + 1 - N.of_nat (S (length l)) + 1)%N by lia.
    - do 4 (split; [done|]). split; [lia|]. split; [lia|]. split; [|done].
      rewrite Hdrop. lia. }
  clearbody h1. assert (h_next h1 = (n + 1)%N) as Hseqno by lia.
  clear Hdrop Hseq Hlen Hleq Hnext Hexh Hz Hwf.
  split; [|destruct (h_next h1 =? u64_max)%N; exact Hc1].
  destruct (h_next h1 =? u64_max)%N eqn:Hmax; apply N.eqb_eq in Hmax || apply N.eqb_neq in Hmax;
    (split; simpl; rewrite ?length_app; simpl; rewrite ?Hc1; try done; try lia).
  - apply consecutive_snoc; [|lia]. by replace (u64_max `min` (n + 1) + 1 - _)%N with
      (n + 1 - N.of_nat (length (h_entries h1)))%N by lia.
  - apply consecutive_snoc; [|lia]. by replace (u64_max `min` (n + 1) + 1 - _)%N with
      (n + 1 - N.of_nat (length (h_entries h1)))%N by lia.
Qed.

Lemma new_hist_wf capacity epoch : hist_wf 0 (Hist.new capacity epoch).
Proof. split; simpl; try done; unfold u64_max; lia || by intros ???. Qed.

Lemma do_calls_wf rs n h c :
  hist_wf n h → hist_wf (n + N.of_nat (length rs)) (do_calls (h, c) rs).1 ∧
  h_capacity (do_calls (h, c) rs).1 = h_capacity h.
Proof.
  revert n h c. induction rs as [|r rs IH]; intros n h c Hwf; simpl.
  { by rewrite N.add_0_r. }
  destruct (record_wf n h c r Hwf) as [Hwf' Hc]. unfold do_calls. simpl.
  destruct (do_call (h, c) r) as [h' c']. simpl in *.
  destruct (IH (n + 1)%N h' c' Hwf') as [Hwf'' Hc'']. unfold do_calls in *. split; [|congruence].
  by replace (n + N.of_nat (S (length rs)))%N with (n + 1 + N.of_nat (length rs))%N by lia.
Qed.

(** The last records are kept, in order: each kept record carries what its call
    recorded. *)
Definition of_call (e : DiagnosticEntry) (r : rec_call) : Prop :=
  dg_code e = rc_code r ∧ dg_actor e = rc_actor r ∧ dg_operation e = rc_operation r ∧
  dg_failure e = rc_failure r.

Lemma do_call_entries h c r :
  h_capacity h ≠ 0%N → h_exhausted h = false → (N.of_nat (length (h_entries h)) ≤ h_capacity h)%N →
  ∃ e, of_call e r ∧ h_entries (do_call (h, c) r).1 =
    (if (N.of_nat (length (h_entries h)) =? h_capacity h)%N then tail (h_entries h)
     else h_entries h) ++ [e].
Proof.
  intros Hcap Hex Hlen. unfold do_call, Hist.record_entry. simpl.
  rewrite (proj2 (N.eqb_neq _ _) Hcap), Hex. simpl. destruct (Clocks.now c) as [now c'].
  eexists. split; [|by do 2 destruct (_ =? _)%N]. done.
Qed.

Lemma filter_consecutive first after l :
  consecutive first l →
  filter (λ e, (after <? dg_sequence e)%N = true) l = drop (N.to_nat (after + 1 - first)) l.
Proof.
  revert first. induction l as [|e l IH]; intros first Hl; [by rewrite drop_nil|].
  rewrite filter_cons. pose proof (Hl 0 e eq_refl) as He.
  rewrite (IH _ (consecutive_tail _ _ _ Hl)).
  case_decide as Hlt.
  - replace (N.to_nat (after + 1 - first)) with 0 by lia.
    by replace (N.to_nat (after + 1 - (first + 1))) with 0 by lia.
  - replace (N.to_nat (after + 1 - first)) with (S (N.to_nat (after + 1 - (first + 1)))) by lia.
    done.
Qed.

Definition lastn {A} (k : nat) (l : list A) : list A := drop (length l - k) l.

Lemma drop_S_tail {A} k (l : list A) : drop (S k) l = tail (drop k l).
Proof. revert l. induction k as [|k IH]; intros [|x l]; try done. apply (IH l). Qed.

Lemma lastn_snoc {A} k (l : list A) x :
  k ≠ 0 → lastn k (l ++ [x]) = (if decide (length l < k) then l else tail (lastn k l)) ++ [x].
Proof.
  intros Hk. unfold lastn. rewrite length_app. simpl.
  case_decide as Hlt.
  - replace (length l + 1 - k) with 0 by lia. done.
  - rewrite drop_app_le by lia. f_equal.
    replace (length l + 1 - k) with (S (length l - k)) by lia. apply drop_S_tail.
Qed.

Lemma history_entries capacity epoch c rs :
  capacity ≠ 0%N → (N.of_nat (length rs) < u64_max)%N →
  Forall2 of_call (h_entries (do_calls (Hist.new capacity epoch, c) rs).1)
    (lastn (N.to_nat capacity) rs).
Proof.
  intros Hcap. induction rs as [|r rs IH] using rev_ind; intros Hlen; [constructor|].
  rewrite length_app in Hlen. simpl in Hlen. specialize (IH ltac:(lia)).
  unfold do_calls in *. rewrite foldl_app. simpl.
  destruct (do_calls_wf rs 0 _ c (new_hist_wf capacity epoch)) as [Hwf Hc].
  unfold do_calls in *. destruct (foldl do_call _ rs) as [h c'] eqn:Hrun. simpl in Hwf, Hc, IH.
  destruct (do_call_entries h c' r) as (e & He & ->).
  { by rewrite Hc. }
  { rewrite (hw_exhausted _ _ Hwf) by by rewrite Hc. lia. }
  { apply Hwf. }
  pose proof (Forall2_length _ _ _ IH) as Hl. unfold lastn in Hl. rewrite length_drop in Hl.
  pose proof (hw_len_eq _ _ Hwf) as Heq. rewrite Hc in Heq.
  rewrite lastn_snoc by lia. apply Forall2_app; [|by constructor].
  rewrite Hc. case_decide as Hlt; destruct (_ =? capacity)%N eqn:Hfull; try lia.
  - replace (lastn (N.to_nat capacity) rs) with rs in IH; [done|].
    unfold lastn. by replace (length rs - N.to_nat capacity) with 0 by lia.
  - destruct IH; simpl; [by constructor|done].
Qed.

(** ** Properties *)

(** The history keeps the most recent records, as many as its capacity, in
    order and under consecutive sequence numbers that end at the number of
    records made; it counts the others as dropped. *)
Theorem history_keeps_last capacity epoch c rs :
  capacity ≠ 0%N → (N.of_nat (length rs) < u64_max)%N →
  let h := (do_calls (Hist.new capacity epoch, c) rs).1 in
  Forall2 of_call (h_entries h) (lastn (N.to_nat capacity) rs) ∧
  consecutive (N.of_nat (length rs) + 1 - N.of_nat (length (h_entries h))) (h_entries h) ∧
  h_next h = (N.of_nat (length rs) + 1)%N ∧
  (h_dropped h + N.of_nat (length (h_entries h)) = N.of_nat (length rs))%N.
Proof.
  intros Hcap Hlen h. split; [by apply history_entries|].
  destruct (do_calls_wf rs 0 _ c (new_hist_wf capacity epoch)) as [Hwf Hc].
  fold h in Hwf, Hc. rewrite N.add_0_l in Hwf. destruct Hwf as [H1 H2 H3 H4 H5 H6 _].
  rewrite Hc in *. simpl in Hcap. rewrite N.min_r in H6 by lia. split; [done|].
  split; [rewrite H3 by done; lia|]. lia.
Qed.

Definition ex_call (actor : N) : rec_call :=
  MkCall Code.Cancelled (Some (MkActorRef 1 actor 1)) None None None.
Lemma history_keeps_last_witness :
  let rs := [ex_call 0; ex_call 1; ex_call 2] in
  (N.of_nat (length rs) < u64_max)%N ∧
  Forall2 of_call (h_entries (do_calls (Hist.new 2 0, Clocks.system 0 [5%N]) rs).1)
    (lastn 2 rs).
Proof.
  intros rs. assert (N.of_nat (length rs) < u64_max)%N as Hl by (vm_compute; reflexivity).
  split; [exact Hl|].
  exact (proj1 (history_keeps_last 2 0 (Clocks.system 0 [5%N]) rs ltac:(done) Hl)).
Defined.

(** Sequence numbers are never reused, even when they run out: over any
    number of records the kept sequence numbers stay consecutive and end at the
    last one issued, and once the last number is issued every further record is
    dropped. *)
Theorem history_never_reuses capacity epoch c rs :
  let h := (do_calls (Hist.new capacity epoch, c) rs).1 in
  let n := N.of_nat (length rs) in
  consecutive (N.min u64_max n + 1 - N.of_nat (length (h_entries h))) (h_entries h) ∧
  (N.of_nat (length (h_entries h)) ≤ capacity)%N ∧
  h_dropped h = N.min u64_max (n - N.of_nat (length (h_entries h))) ∧
  (∀ r, (u64_max ≤ n)%N → h_entries (do_call (h, c) r).1 = h_entries h).
Proof.
  intros h n. destruct (do_calls_wf rs 0 _ c (new_hist_wf capacity epoch)) as [Hwf Hc].
  fold h in Hwf, Hc. rewrite N.add_0_l in Hwf. fold n in Hwf.
  split; [by apply Hwf|]. split; [pose proof (hw_len _ _ Hwf); simpl in Hc; congruence|].
  split; [by apply Hwf|]. intros r Hn. unfold do_call, Hist.record_entry. simpl.
  destruct (h_capacity h =? 0)%N eqn:Hcap; [done|]. simpl.
  rewrite (hw_exhausted _ _ Hwf) by lia. by replace (u64_max <=? n)%N with true by lia.
Qed.

(** A read returns the first [limit] kept records after the cursor, and
    reports a gap exactly when a record between the cursor and the first kept
    one is gone; a reader that continues from the last record it saw misses
    nothing and sees nothing twice. *)
Theorem history_read_pages n h after limit limit' :
  hist_wf n h → (N.of_nat (length (h_entries h)) ≤ n)%N → (n < u64_max)%N →
  let r := Hist.read h after limit in
  let first := (n + 1 - N.of_nat (length (h_entries h)))%N in
  rd_entries r = take (N.to_nat limit) (drop (N.to_nat (after + 1 - first)) (h_entries h)) ∧
  (h_capacity h ≠ 0%N → is_Some (rd_gap r) ↔ (after + 1 < first)%N) ∧
  (∀ e, last (rd_entries r) = Some e →
     rd_entries (Hist.read h after (limit + limit')) =
     rd_entries r ++ rd_entries (Hist.read h (dg_sequence e) limit')).
Proof.
  intros Hwf Hle Hn r first.
  assert (consecutive first (h_entries h)) as Hseq.
  { pose proof (hw_seq _ _ Hwf) as Hs. by rewrite N.min_r in Hs by lia. }
  assert (∀ a l, rd_entries (Hist.read h a l) =
    take (N.to_nat l) (drop (N.to_nat (a + 1 - first)) (h_entries h))) as Hread.
  { intros a l. simpl. by rewrite (filter_consecutive first). }
  split; [apply Hread|]. split.
  - intros Hcap. unfold r, Hist.read. simpl.
    assert (match h_entries h with [] => h_next h | e :: _ => dg_sequence e end = first) as ->.
    { destruct (h_entries h) as [|e l] eqn:He.
      - rewrite (hw_next _ _ Hwf) by done. unfold first. simpl. lia.
      - rewrite (Hseq 0 e eq_refl). lia. }
    destruct (_ <? first)%N eqn:Hlt; unfold saturating_add in Hlt; rewrite is_Some_alt.
    + split; [intros _|done]. lia.
    + split; [done|]. unfold first in *. lia.
  - intros e He. unfold r in *. rewrite !Hread in *.
    set (L := drop (N.to_nat (after + 1 - first)) (h_entries h)) in *.
    rewrite last_lookup, length_take in He. apply lookup_take_Some in He as [He Hpos].
    unfold L in He. rewrite lookup_drop in He. apply lookup_lt_Some in He as Hlt. fold L in Hlt.
    apply Hseq in He. fold L in He.
    rewrite He. replace (N.to_nat (limit + limit')) with (N.to_nat limit + N.to_nat limit') by lia.
    rewrite <- take_take_drop. f_equal. f_equal. unfold L. rewrite drop_drop.
    assert (length L = length (h_entries h) - N.to_nat (after + 1 - first)) as HL by apply length_drop.
    destruct (decide (N.to_nat limit ≤ length L)) as [Hll|Hll].
    + fold L. f_equal. lia.
    + fold L. rewrite !drop_ge; [done| |]; lia.
Qed.

Lemma history_read_pages_witness :
  let h := (do_calls (Hist.new 2 0, Clocks.system 0 [5%N]) [ex_call 0; ex_call 1; ex_call 2]).1 in
  hist_wf 3 h ∧ (h_capacity h ≠ 0%N → is_Some (rd_gap (Hist.read h 0 1)) ↔ (0 + 1 < 2)%N).
Proof.
  intros h. assert (hist_wf 3 h) as Hwf.
  { exact (proj1 (do_calls_wf [ex_call 0; ex_call 1; ex_call 2] 0 _ _ (new_hist_wf 2 0))). }
  split; [exact Hwf|].
  exact (proj1 (proj2 (history_read_pages 3 h 0 1 1 Hwf ltac:(vm_compute; congruence)
    ltac:(vm_compute; reflexivity)))).
Defined.

(** Clock readings never go backwards, an advance of a manual clock is
    exactly the amount asked for and is what later readings return, and a
    refused advance changes nothing. *)
Theorem clock_monotone c by_ :
  (ck_time c ≤ (Clocks.now c).1)%N ∧ (Clocks.now c).1 = ck_time (Clocks.now c).2 ∧
  match Clocks.advance by_ c with
  | (inr t, c') => ck_manual c = true ∧ t = (ck_time c + by_)%N ∧ (Clocks.now c').1 = t
  | (inl e, c') => c' = c ∧
      (e = Error.InvalidConfig ∧ ck_manual c = false ∨
       e = Error.LimitExceeded ∧ (instant_max < ck_time c + by_)%N)
  end.
Proof.
  destruct c as [m t ticks]. unfold Clocks.now, Clocks.advance, checked_add. simpl.
  split; [|split].
  - destruct m; simpl; [lia|]. destruct ticks; simpl; lia.
  - destruct m; [done|]. by destruct ticks.
  - destruct m; simpl; [|auto]. case_decide; simpl.
    + destruct (_ <? t)%N eqn:Hlt; [lia|]. done.
    + split; [done|]. right. split; [done|]. lia.
Qed.
