(* ===== verification/Publications.v ===== *)
(** * Publication table

    [crates/runtime-core/src/publications.rs], the part that is a data
    structure: publications waiting to be routed, queued per source, with the
    round-robin list of ready sources, the deadline index, the count of
    captured routing-snapshot entries, and the tickets that hold the bounded
    result slots.  The World operations that drive it are in [Publishing]. *)
From S2P Require Import Prelude Collections Text Types.

Module PublicationOutcome.
Inductive outcome := Pending | Routed | Cancelled | Expired | FanoutLimit | SnapshotFull.
End PublicationOutcome.
Abbreviation publication_outcome := PublicationOutcome.outcome.
#[export] Instance publication_outcome_eq_dec : EqDecision publication_outcome.
Proof. solve_decision. Defined.

Record DeliveryReport := MkReport {
  dr_admitted : N; dr_rejected : N; dr_staged : N; dr_matched : N;
  dr_outcome : publication_outcome
}.
#[export] Instance DeliveryReport_eq_dec : EqDecision DeliveryReport.
Proof. solve_decision. Defined.
#[export] Instance DeliveryReport_expand : Expand DeliveryReport := λ r,
  MkReport (dr_admitted r) (dr_rejected r) (dr_staged r) (dr_matched r) (dr_outcome r).
Definition default_report : DeliveryReport := MkReport 0 0 0 0 PublicationOutcome.Pending.

Inductive PublicationStatus :=
| PStaged
| PQueued
| PRouting (report : DeliveryReport)
| PTerminal (report : DeliveryReport).

(** A ticket state is shared by the table and by the handles callers hold;
    [ts_strong] is the number of clones alive.  Its permit is returned when the
    last clone is dropped. *)
Record TicketState := MkTicket { ts_source : ActorRef; ts_status : PublicationStatus; ts_strong : N }.
#[export] Instance TicketState_expand : Expand TicketState := λ r,
  MkTicket (ts_source r) (ts_status r) (ts_strong r).

Record Publication := MkPublication {
  pub_source : ActorRef;
  pub_source_port : option N;
  pub_stored : Stored;
  pub_staged : bool;
  pub_completion : bool;
  pub_ticket : N;
  pub_routes : option (list (N * ActorRef));
  pub_cursor : N;
  pub_report : DeliveryReport
}.
#[export] Instance Publication_expand : Expand Publication := λ r,
  MkPublication (pub_source r) (pub_source_port r) (pub_stored r) (pub_staged r)
    (pub_completion r) (pub_ticket r) (pub_routes r) (pub_cursor r) (pub_report r).
Definition pub_deadline (p : Publication) : option Instant := mo_deadline (stored_options (pub_stored p)).
Definition pub_routes_len (p : Publication) : N :=
  match pub_routes p with Some routes => N.of_nat (length routes) | None => 0 end.

Record PublicationTable := MkPubTable {
  pt_entries : gmap N Publication;
  pt_by_source : gmap ActorRef (list N);
  pt_ready : list ActorRef;
  pt_ready_set : gset ActorRef;
  pt_deadlines : gset (N * N);
  pt_next_id : N;
  pt_limit : N;
  pt_per_source : N;
  pt_total : N;
  pt_counts : gmap ActorRef N;
  pt_snapshot_entries : N;
  pt_tickets : gmap N TicketState
}.
#[export] Instance PublicationTable_expand : Expand PublicationTable := λ r,
  MkPubTable (pt_entries r) (pt_by_source r) (pt_ready r) (pt_ready_set r) (pt_deadlines r)
    (pt_next_id r) (pt_limit r) (pt_per_source r) (pt_total r) (pt_counts r)
    (pt_snapshot_entries r) (pt_tickets r).
Abbreviation PubM := (M PublicationTable error).

Module Publications.
Definition new (limit per_source : N) : PublicationTable :=
  MkPubTable ∅ ∅ [] ∅ ∅ 1 limit per_source 0 ∅ 0 ∅.

(** The new ticket has one handle, the caller's. *)
Definition reserve (source : ActorRef) (staged : bool) : PubM N :=
  let! t := get in
  let! next_id := ok_or Error.LimitExceeded (checked_add u64_max (pt_next_id t) 1) in
  reject_if ((pt_limit t <=? pt_total t)%N ||
             (pt_per_source t <=? cnt_get source (pt_counts t))%N) Error.QueueFull ;;;
  modify (λ t, t <| pt_total ::= N.succ |> <| pt_counts ::= cnt_add source |>) ;;;
  let id := pt_next_id t in
  let ticket := MkTicket source (if staged then PStaged else PQueued) 1 in
  modify (λ t, t <| pt_tickets ::= <[id := ticket]> |> <| pt_next_id := next_id |>) ;;;
  ret id.

Definition set_status (id : N) (status : PublicationStatus) : PubM unit :=
  let! t := get in
  let! ticket := expect (pt_tickets t !! id) in
  modify (λ t, t <| pt_tickets ::= <[id := ticket <| ts_status := status |>]> |>).

Definition clone_ticket (id : N) : PubM unit :=
  let! t := get in
  let! ticket := expect (pt_tickets t !! id) in
  modify (λ t, t <| pt_tickets ::= <[id := ticket <| ts_strong ::= N.succ |>]> |>).

(** [Drop for TicketPermit] *)
Definition drop_permit (source : ActorRef) : PubM unit :=
  decr pt_total ;;;
  let! t := get in
  let! counts := expect (cnt_sub source (pt_counts t)) in
  modify (λ t, t <| pt_counts := counts |>).
Definition drop_ticket (id : N) : PubM unit :=
  let! t := get in
  let! ticket := expect (pt_tickets t !! id) in
  if (ts_strong ticket <=? 1)%N then
    modify (λ t, t <| pt_tickets ::= delete id |>) ;;;
    drop_permit (ts_source ticket)
  else
    modify (λ t, t <| pt_tickets ::= <[id := ticket <| ts_strong ::= N.pred |>]> |>).

Definition queue_of (t : PublicationTable) (source : ActorRef) : list N :=
  default [] (pt_by_source t !! source).

(** The publication at the head of a source's queue. *)
Definition head_of (t : PublicationTable) (source : ActorRef) : option Publication :=
  head (queue_of t source) ≫= λ id, pt_entries t !! id.

Definition ready_source (source : ActorRef) (t : PublicationTable) : PublicationTable :=
  let ready := match head_of t source with Some p => negb (pub_staged p) | None => false end in
  if ready && bool_decide (source ∉ pt_ready_set t)
  then t <| pt_ready_set ::= union {[source]} |> <| pt_ready ::= λ l, l ++ [source] |>
  else t.

Definition insert (p : Publication) (t : PublicationTable) : PublicationTable :=
  let id := pub_ticket p in
  let source := pub_source p in
  let t := match pub_deadline p with
           | Some deadline => t <| pt_deadlines ::= union {[(deadline, id)]} |>
           | None => t
           end in
  let t := t <| pt_by_source ::= <[source := queue_of t source ++ [id]]> |> in
  let t := t <| pt_entries ::= <[id := p]> |> in
  ready_source source t.

Definition remove_indexes (p : Publication) : PubM unit :=
  let source := pub_source p in
  let id := pub_ticket p in
  modify (λ t, match pub_deadline p with
               | Some deadline => t <| pt_deadlines ::= λ s, s ∖ {[(deadline, id)]} |>
               | None => t
               end) ;;;
  match pub_routes p with
  | Some routes =>
      let! t := get in
      let! n := expect (checked_sub (pt_snapshot_entries t) (N.of_nat (length routes))) in
      modify (λ t, t <| pt_snapshot_entries := n |>)
  | None => ret tt
  end ;;;
  modify (λ t, match pt_by_source t !! source with
               | Some queue =>
                   let queue := filter (λ candidate, candidate ≠ id) queue in
                   if bool_decide (queue = []) then t <| pt_by_source ::= delete source |>
                   else t <| pt_by_source ::= <[source := queue]> |>
               | None => t
               end) ;;;
  modify (λ t, if bool_decide (source ∈ pt_ready_set t)
               then t <| pt_ready_set ::= λ s, s ∖ {[source]} |>
                      <| pt_ready ::= filter (λ candidate, candidate ≠ source) |>
               else t) ;;;
  modify (ready_source source).

Definition pending_for (t : PublicationTable) (source : ActorRef) : N :=
  N.of_nat (length (queue_of t source)).
Definition last_issued (t : PublicationTable) : N := (pt_next_id t - 1)%N.
Definition pending (t : PublicationTable) : N := N.of_nat (size (pt_entries t)).
Definition retained (t : PublicationTable) : N := (pt_total t - pending t)%N.
Definition counts_for_scope (t : PublicationTable) (scope : gset ActorRef) : N * N :=
  let pending := sum_by (pending_for t) (elements scope) in
  let total := sum_by (λ source, cnt_get source (pt_counts t)) (elements scope) in
  (pending, (total - pending)%N).

(** The table's part of [enqueue_publication_locked]: the source of the
    publication that became ready. *)
Definition enqueue (id : N) : PubM (option ActorRef) :=
  let! t := get in
  match pt_entries t !! id with
  | None => ret None
  | Some p =>
      modify (λ t, t <| pt_entries ::= <[id := p <| pub_staged := false |>]> |>) ;;;
      set_status (pub_ticket p) PQueued ;;;
      modify (ready_source (pub_source p)) ;;;
      ret (Some (pub_source p))
  end.

(** [entries.remove(&id)] *)
Definition take_entry (id : N) : PubM (option Publication) :=
  let! t := get in
  modify (λ t, t <| pt_entries ::= delete id |>) ;;;
  ret (pt_entries t !! id).

(** The table's part of [finish_publication_locked], on a publication that is
    out of [entries], with its final report; its ticket is dropped last. *)
Definition finish (p : Publication) : PubM unit :=
  remove_indexes p ;;;
  set_status (pub_ticket p) (PTerminal (pub_report p)) ;;;
  drop_ticket (pub_ticket p).

(** The ids the loops of [cancel_source_publications_locked] and
    [expire_publications_locked] collect. *)
Definition due (t : PublicationTable) (now : Instant) : list N :=
  snd <$> filter (λ e : N * N, e.1 ≤ now)%N (btree_elems (pt_deadlines t)).

(** The table's part of the start of [route_batch]: the oldest publication of
    the first ready source, taken out of [entries]. *)
Definition pop_ready : PubM (option Publication) :=
  let! t := get in
  match pt_ready t with
  | [] => ret None
  | source :: ready =>
      modify (λ t, t <| pt_ready := ready |> <| pt_ready_set ::= λ s, s ∖ {[source]} |>) ;;;
      let! queue := expect (pt_by_source t !! source) in
      let! id := expect (head queue) in
      let! p := take_entry id in
      let! p := expect p in
      ret (Some p)
  end.

(** The snapshot of the matching routes, captured once. *)
Definition capture (routes : list (N * ActorRef)) (p : Publication) : PubM Publication :=
  let count := N.of_nat (length routes) in
  modify (λ t, t <| pt_snapshot_entries ::= λ n, (n + count)%N |>) ;;;
  ret (p <| pub_routes := Some routes |> <| pub_report ::= λ r, r <| dr_matched := count |> |>).

(** A publication that is not done goes back, and its source to the end of the
    ready list. *)
Definition put_back (p : Publication) : PubM unit :=
  set_status (pub_ticket p) (PRouting (pub_report p)) ;;;
  modify (λ t, ready_source (pub_source p) (t <| pt_entries ::= <[pub_ticket p := p]> |>)).
End Publications.

(** [report.outcome = outcome] and the remaining destinations counted as
    rejected; the count is returned for the World's metrics. *)
Definition closed_report (outcome : publication_outcome) (p : Publication) : option (Publication * N) :=
  let p := p <| pub_report ::= λ r, r <| dr_outcome := outcome |> |> in
  match pub_routes p with
  | None => Some (p, 0%N)
  | Some _ =>
      match checked_sub (dr_matched (pub_report p)) (pub_cursor p) with
      | None => None
      | Some remaining =>
          Some (p <| pub_report ::= λ r, r <| dr_rejected ::= λ n, (n + remaining)%N |> |>, remaining)
      end
  end.
