(* ===== verification/PublicationRuns.v ===== *)
(** * Publication table: invariant and runs

    The invariant of the publication table (what the source's test helper
    [assert_indexes] asserts, and the accounting of tickets), its preservation
    by every operation, and the properties of call sequences. *)
From S2P Require Import Prelude Collections Text Types Publications.

(** ** The invariant *)
Definition is_terminal (s : PublicationStatus) : bool := match s with PTerminal _ => true | _ => false end.
Definition pub_ok (p : Publication) : Prop :=
  match pub_routes p with
  | Some routes => dr_matched (pub_report p) = N.of_nat (length routes) ∧
                   (pub_cursor p ≤ N.of_nat (length routes))%N
  | None => pub_cursor p = 0%N
  end.
Definition count_id (id : N) (held : list N) : N := count_by (λ x, bool_decide (x = id)) held.
Definition tickets_of (source : ActorRef) (m : gmap N TicketState) : N :=
  sum_map (λ _ ts, b2n (bool_decide (ts_source ts = source))) m.
Definition in_entries (t : PublicationTable) (id : N) : bool := bool_decide (is_Some (pt_entries t !! id)).

Definition extra (x : option N) (id : N) : N := b2n (bool_decide (x = Some id)).

(** [held] are the ticket handles of callers; [x] is a ticket of which a running
    operation holds one more handle. *)
Record pt_core (held : list N) (x : option N) (t : PublicationTable) : Prop := {
  pc_entry id p : pt_entries t !! id = Some p → pub_ticket p = id ∧ pub_ok p;
  pc_queue id s : id ∈ Publications.queue_of t s ↔ ∃ p, pt_entries t !! id = Some p ∧ pub_source p = s;
  pc_sorted s : StronglySorted N.lt (Publications.queue_of t s);
  pc_nonempty s : pt_by_source t !! s ≠ Some [];
  pc_deadlines d id : (d, id) ∈ pt_deadlines t ↔
    ∃ p, pt_entries t !! id = Some p ∧ pub_deadline p = Some d;
  pc_snapshot : pt_snapshot_entries t = sum_map (λ _ p, pub_routes_len p) (pt_entries t);
  pc_ticket id ts : pt_tickets t !! id = Some ts →
    (id < pt_next_id t)%N ∧
    ts_strong ts = (count_id id held + b2n (in_entries t id) + extra x id)%N ∧
    (0 < ts_strong ts)%N;
  pc_held id : id ∈ held → is_Some (pt_tickets t !! id);
  pc_entry_ticket id p : pt_entries t !! id = Some p →
    ∃ ts, pt_tickets t !! id = Some ts ∧ ts_source ts = pub_source p ∧ is_terminal (ts_status ts) = false;
  pc_terminal id ts : pt_tickets t !! id = Some ts → pt_entries t !! id = None → Some id ≠ x →
    is_terminal (ts_status ts) = true;
  pc_next : (1 ≤ pt_next_id t ≤ u64_max)%N;
  pc_total : pt_total t = N.of_nat (size (pt_tickets t));
  pc_counts : cnt_wf (λ s, tickets_of s (pt_tickets t)) (pt_counts t);
  pc_total_le : (pt_total t ≤ pt_limit t)%N;
  pc_counts_le s : (tickets_of s (pt_tickets t) ≤ pt_per_source t)%N
}.

Lemma extra_self id : extra (Some id) id = 1%N.
Proof. unfold extra. by rewrite bool_decide_true. Qed.
Lemma extra_none id : extra None id = 0%N.
Proof. done. Qed.

Definition head_ready (t : PublicationTable) (s : ActorRef) : Prop :=
  ∃ p, Publications.head_of t s = Some p ∧ pub_staged p = false.

(** The ready list, exact for every source but [x]. *)
Record ready_ok (x : option ActorRef) (t : PublicationTable) : Prop := {
  ro_nodup : NoDup (pt_ready t);
  ro_set s : s ∈ pt_ready t ↔ s ∈ pt_ready_set t;
  ro_exact s : Some s ≠ x → s ∈ pt_ready t ↔ head_ready t s
}.

Definition pt_wf (held : list N) (t : PublicationTable) : Prop := pt_core held None t ∧ ready_ok None t.

(** A publication is out of [entries] while an operation works on it. *)
Definition with_entry (p : Publication) (t : PublicationTable) : PublicationTable :=
  t <| pt_entries ::= <[pub_ticket p := p]> |>.
Record pt_hole (held : list N) (p : Publication) (t : PublicationTable) : Prop := {
  ph_core : pt_core held None (with_entry p t);
  ph_ready : ready_ok (Some (pub_source p)) (with_entry p t);
  ph_out : pt_entries t !! pub_ticket p = None
}.

(** Tickets only progress: a terminal report never changes, a ticket that is
    gone never comes back. *)
Record pub_evolves (t t' : PublicationTable) : Prop := {
  pe_next : (pt_next_id t ≤ pt_next_id t')%N;
  pe_limits : pt_limit t' = pt_limit t ∧ pt_per_source t' = pt_per_source t;
  pe_gone id : (id < pt_next_id t)%N → pt_tickets t !! id = None → pt_tickets t' !! id = None;
  pe_final id ts r : pt_tickets t !! id = Some ts → ts_status ts = PTerminal r →
    pt_tickets t' !! id = None ∨ ∃ ts', pt_tickets t' !! id = Some ts' ∧ ts_status ts' = PTerminal r
}.
#[export] Instance pub_evolves_refl : Reflexive pub_evolves.
Proof. intros t. split; [lia|done|done|]. intros id ts r Hts Hr. right. eauto. Qed.
Lemma pub_evolves_trans t1 t2 t3 :
  (∀ id ts, pt_tickets t1 !! id = Some ts → (id < pt_next_id t1)%N) → pub_evolves t1 t2 → pub_evolves t2 t3 → pub_evolves t1 t3.
Proof.
  intros Hc [N1 [L1 P1] G1 F1] [N2 [L2 P2] G2 F2]. split; [lia|split; congruence|..].
  - intros id Hlt Hn. apply G2; [lia|]. by apply G1.
  - intros id ts r Hts Hr. destruct (F1 id ts r Hts Hr) as [Hn|(ts' & Hts' & Hr')]; [|by eapply F2].
    left. apply G2; [|done]. apply Hc in Hts. lia.
Qed.
(** A change of one live ticket that was not terminal, or that keeps its
    status. *)
Lemma pub_evolves_ticket t t' id :
  (∀ ts, pt_tickets t !! id = Some ts → is_terminal (ts_status ts) = true →
     ∀ ts', pt_tickets t' !! id = Some ts' → ts_status ts' = ts_status ts) →
  (is_Some (pt_tickets t !! id) ∨ (pt_next_id t ≤ id)%N) →
  (∀ id', id' ≠ id → pt_tickets t' !! id' = pt_tickets t !! id') →
  (pt_next_id t ≤ pt_next_id t')%N → pt_limit t' = pt_limit t → pt_per_source t' = pt_per_source t →
  pub_evolves t t'.
Proof.
  intros Hst Hsome Hoth Hn Hl Hp. split; [done|done|..].
  - intros id' Hlt Hnone. destruct (decide (id' = id)) as [->|Hne]; [|by rewrite Hoth].
    destruct Hsome as [[ts Hts]|?]; [congruence|lia].
  - intros id' ts r Hts Hr. destruct (decide (id' = id)) as [->|Hne]; [|rewrite Hoth by done; eauto].
    destruct (pt_tickets t' !! id) as [ts'|] eqn:Hts'; [|by left]. right. exists ts'. split; [done|].
    rewrite (Hst ts Hts); [done|by rewrite Hr|done].
Qed.

(** ** Ready sources *)
Lemma ready_source_fields s t :
  pt_entries (Publications.ready_source s t) = pt_entries t ∧
  pt_by_source (Publications.ready_source s t) = pt_by_source t ∧
  pt_deadlines (Publications.ready_source s t) = pt_deadlines t ∧
  pt_next_id (Publications.ready_source s t) = pt_next_id t ∧
  pt_limit (Publications.ready_source s t) = pt_limit t ∧
  pt_per_source (Publications.ready_source s t) = pt_per_source t ∧
  pt_total (Publications.ready_source s t) = pt_total t ∧
  pt_counts (Publications.ready_source s t) = pt_counts t ∧
  pt_snapshot_entries (Publications.ready_source s t) = pt_snapshot_entries t ∧
  pt_tickets (Publications.ready_source s t) = pt_tickets t.
Proof. unfold Publications.ready_source. destruct (_ && _)%bool; simpl; auto 20. Qed.

(** The core invariant does not look at the ready list. *)
Lemma pt_core_ready held x t t' :
  pt_entries t' = pt_entries t → pt_by_source t' = pt_by_source t →
  pt_deadlines t' = pt_deadlines t → pt_next_id t' = pt_next_id t →
  pt_limit t' = pt_limit t → pt_per_source t' = pt_per_source t →
  pt_total t' = pt_total t → pt_counts t' = pt_counts t →
  pt_snapshot_entries t' = pt_snapshot_entries t → pt_tickets t' = pt_tickets t →
  pt_core held x t → pt_core held x t'.
Proof.
  intros H1 H2 H3 H4 H5 H6 H7 H8 H9 H10 Hc. destruct Hc.
  split; unfold Publications.queue_of, in_entries in *; rewrite ?H1, ?H2, ?H3, ?H4, ?H5, ?H6, ?H7, ?H8, ?H9, ?H10;
    done.
Qed.
Lemma ready_source_core held x s t :
  pt_core held x t → pt_core held x (Publications.ready_source s t).
Proof.
  destruct (ready_source_fields s t) as (?&?&?&?&?&?&?&?&?&?). by apply pt_core_ready.
Qed.

(** [ready_source] repairs the ready list for its source. *)
Lemma ready_source_ok s t :
  ready_ok (Some s) t → (s ∈ pt_ready t → head_ready t s) →
  ready_ok None (Publications.ready_source s t).
Proof.
  intros [Hnd Hset Hex] Hs.
  assert (∀ s', head_ready (Publications.ready_source s t) s' ↔ head_ready t s') as Hhead.
  { intros s'. unfold head_ready, Publications.head_of, Publications.queue_of.
    destruct (ready_source_fields s t) as (-> & -> & _). done. }
  assert (head_ready t s ↔
    match Publications.head_of t s with Some p => negb (pub_staged p) | None => false end = true) as Hb.
  { unfold head_ready. destruct (Publications.head_of t s) as [p|]; [|naive_solver].
    rewrite negb_true_iff. naive_solver. }
  split.
  - unfold Publications.ready_source. destruct (_ && _)%bool eqn:E; [|done]. simpl.
    apply andb_true_iff in E as [_ Hn%bool_decide_eq_true]. rewrite <- Hset in Hn.
    apply NoDup_app. split; [done|]. split; [set_solver|apply NoDup_singleton].
  - intros s'. unfold Publications.ready_source. destruct (_ && _)%bool; [|done]. simpl.
    rewrite elem_of_app, list_elem_of_singleton, Hset. set_solver.
  - intros s' _. rewrite Hhead. unfold Publications.ready_source.
    destruct (decide (s' = s)) as [->|Hne].
    + rewrite Hb. clear Hhead.
      destruct (match Publications.head_of t s with Some p => negb (pub_staged p) | None => false end);
        simpl; [|split; [intros Hin; by apply Hb, Hs|done]].
      split; [done|intros _]. case_bool_decide as Hin; simpl.
      * apply elem_of_app. right. by apply list_elem_of_singleton.
      * by apply Hset.
    + rewrite <- Hex by congruence. destruct (_ && _)%bool; [|done]. simpl.
      rewrite elem_of_app, list_elem_of_singleton. tauto.
Qed.

(** ** Tickets *)
Lemma count_id_cons id x held : count_id id (x :: held) = (b2n (bool_decide (x = id)) + count_id id held)%N.
Proof. done. Qed.

Lemma count_id_pos id held : id ∈ held ↔ (0 < count_id id held)%N.
Proof.
  induction held as [|x held IH]; [unfold count_id; simpl; split; [set_solver|done]|].
  rewrite count_id_cons, elem_of_cons, IH.
  case_bool_decide; simpl; [split; [lia|by left]|]. rewrite N.add_0_l. naive_solver.
Qed.

(** Changes of one ticket that keep its source. *)
Lemma tickets_of_update s m id ts ts' :
  m !! id = Some ts → ts_source ts' = ts_source ts →
  tickets_of s (<[id := ts']> m) = tickets_of s m.
Proof.
  intros Hid Hsrc. unfold tickets_of.
  pose proof (sum_map_update (λ _ ts, b2n (bool_decide (ts_source ts = s))) m id ts ts' Hid) as H.
  simpl in H. rewrite Hsrc in H. lia.
Qed.
Lemma tickets_of_insert s m id ts :
  m !! id = None → tickets_of s (<[id := ts]> m) = (b2n (bool_decide (ts_source ts = s)) + tickets_of s m)%N.
Proof. intros Hid. unfold tickets_of. by rewrite sum_map_insert. Qed.
Lemma tickets_of_delete s m id ts :
  m !! id = Some ts → tickets_of s m = (b2n (bool_decide (ts_source ts = s)) + tickets_of s (delete id m))%N.
Proof. intros Hid. unfold tickets_of. by rewrite (sum_map_delete _ _ _ _ Hid). Qed.
Lemma tickets_of_le s m : (tickets_of s m ≤ N.of_nat (size m))%N.
Proof.
  induction m as [|id ts m Hid IH] using map_ind; [done|].
  rewrite tickets_of_insert, map_size_insert_None by done. case_bool_decide; simpl; lia.
Qed.

Definition update_ticket (id : N) (ts : TicketState) (t : PublicationTable) : PublicationTable :=
  t <| pt_tickets ::= <[id := ts]> |>.

(** A ticket's status and handle count change together with the callers'
    handles. *)
Lemma update_ticket_core held held' x x' t id ts ts' :
  pt_core held x t → pt_tickets t !! id = Some ts → ts_source ts' = ts_source ts →
  ts_strong ts' = (count_id id held' + b2n (in_entries t id) + extra x' id)%N →
  (0 < ts_strong ts')%N →
  (∀ id', id' ≠ id → count_id id' held' = count_id id' held) →
  (is_Some (pt_entries t !! id) → is_terminal (ts_status ts') = false) →
  (pt_entries t !! id = None → Some id ≠ x' → is_terminal (ts_status ts') = true) →
  (∀ id', id' ≠ id → x = Some id' ↔ x' = Some id') →
  pt_core held' x' (update_ticket id ts' t).
Proof.
  intros Hc Hid Hsrc Hstr Hpos Hheld Hlive Hterm Hx. destruct Hc.
  split; unfold in_entries in *; simpl; try done.
  - intros id' ts0. rewrite lookup_insert_Some. intros [[<- <-]|[Hne Hts]].
    + apply pc_ticket0 in Hid. naive_solver.
    + apply pc_ticket0 in Hts. rewrite Hheld by done. unfold extra in *.
      by rewrite <- (bool_decide_ext (x = Some id') (x' = Some id') (Hx id' (not_eq_sym Hne))).
  - intros id' Hin%count_id_pos. destruct (decide (id = id')) as [<-|Hne].
    + rewrite lookup_insert_eq. by eexists.
    + rewrite lookup_insert_ne by done. apply pc_held0, count_id_pos. by rewrite <- Hheld by done.
  - intros id' p Hp. apply pc_entry_ticket0 in Hp as Hts. destruct (decide (id = id')) as [<-|Hne].
    + rewrite lookup_insert_eq. destruct Hts as (ts0 & Hts & ? & ?). exists ts'. split; [done|].
      split; [congruence|]. apply Hlive. by eexists.
    + by rewrite lookup_insert_ne.
  - intros id' ts0. rewrite lookup_insert_Some. intros [[<- <-]|[Hne Hts]] Hp Hx'; [by apply Hterm|].
    eapply pc_terminal0; [done..|]. intros <-. apply Hx'. symmetry. by apply (Hx id').
  - rewrite map_size_insert_Some by by eexists. done.
  - eapply cnt_wf_ext; [|done]. intros s. simpl. by rewrite (tickets_of_update _ _ _ ts).
  - intros s. by rewrite (tickets_of_update _ _ _ ts).
Qed.

(** The last handle of a ticket goes: the permit comes back. *)
Definition without_ticket (id : N) (s : ActorRef) (counts : gmap ActorRef N) (t : PublicationTable) :
    PublicationTable :=
  t <| pt_tickets ::= delete id |> <| pt_total ::= λ n, (n - 1)%N |> <| pt_counts := counts |>.

Lemma without_ticket_core held held' x t id ts :
  pt_core held x t → pt_tickets t !! id = Some ts → pt_entries t !! id = None → id ∉ held' →
  (∀ id', id' ≠ id → count_id id' held' = count_id id' held) →
  ∃ counts, cnt_sub (ts_source ts) (pt_counts t) = Some counts ∧ (0 < pt_total t)%N ∧
    pt_core held' (if decide (x = Some id) then None else x) (without_ticket id (ts_source ts) counts t).
Proof.
  intros Hc Hid Hent Hni Hheld. destruct Hc.
  assert (size (pt_tickets t) = S (size (delete id (pt_tickets t)))) as Hsize.
  { rewrite <- (map_size_insert_None id ts) by apply lookup_delete_eq.
    by rewrite insert_delete_id. }
  pose proof (λ s, tickets_of_delete s _ _ _ Hid) as Hof.
  destruct (cnt_sub_wf (λ s, tickets_of s (pt_tickets t)) (pt_counts t) (ts_source ts)) as (counts & Hcs & Hcwf);
    [done| |].
  { rewrite (Hof (ts_source ts)), bool_decide_true by done. simpl. lia. }
  exists counts. split; [done|]. split; [lia|].
  split; unfold in_entries in *; simpl; try done.
  - intros id' ts0. rewrite lookup_delete_Some. intros [Hne Hts]. apply pc_ticket0 in Hts.
    rewrite Hheld by done. replace (extra (if decide (x = Some id) then None else x) id') with (extra x id');
      [done|]. case_decide as Hxi; [|done]. rewrite Hxi. unfold extra.
    by rewrite bool_decide_false by congruence.
  - intros id' Hin. assert (id ≠ id') as Hne by (intros ->; done).
    rewrite lookup_delete_ne by done. apply pc_held0, count_id_pos. rewrite <- Hheld by done.
    by apply count_id_pos.
  - intros id' p Hp. rewrite lookup_delete_ne by congruence. by apply pc_entry_ticket0.
  - intros id' ts0. rewrite lookup_delete_Some. intros [Hne Hts] Hp Hx'.
    eapply pc_terminal0; [done..|]. case_decide as Hxi; [|done]. rewrite Hxi. congruence.
  - lia.
  - eapply cnt_wf_ext; [|done]. intros s. simpl. rewrite (Hof s).
    repeat case_bool_decide; simplify_eq; simpl; lia.
  - lia.
  - intros s. specialize (pc_counts_le0 s). rewrite (Hof s) in pc_counts_le0. lia.
Qed.

Lemma set_status_run id status t ts :
  pt_tickets t !! id = Some ts →
  Publications.set_status id status t =
    (Ok tt, update_ticket id (ts <| ts_status := status |>) t).
Proof. intros Hid. unfold Publications.set_status, bind, get, expect. by rewrite Hid. Qed.

Lemma clone_ticket_run id t ts :
  pt_tickets t !! id = Some ts →
  Publications.clone_ticket id t =
    (Ok tt, update_ticket id (ts <| ts_strong ::= N.succ |>) t).
Proof. intros Hid. unfold Publications.clone_ticket, bind, get, expect. by rewrite Hid. Qed.

(** Dropping a handle, a caller's or a running operation's. *)
Lemma drop_ticket_core held held' x x' t id ts :
  pt_core held x t → pt_tickets t !! id = Some ts →
  (count_id id held' + extra x' id + 1 = count_id id held + extra x id)%N →
  (∀ id', id' ≠ id → count_id id' held' = count_id id' held) →
  (∀ id', id' ≠ id → x = Some id' ↔ x' = Some id') →
  (pt_entries t !! id = None → is_terminal (ts_status ts) = true ∨ x' = Some id ∨
     (count_id id held' = 0%N)) →
  (x = Some id → x' = None) →
  ∃ t', Publications.drop_ticket id t = (Ok tt, t') ∧ pt_core held' x' t' ∧
    pt_entries t' = pt_entries t ∧ pt_by_source t' = pt_by_source t ∧
    pt_ready t' = pt_ready t ∧ pt_ready_set t' = pt_ready_set t ∧
    (∀ ts', pt_tickets t' !! id = Some ts' → ts_status ts' = ts_status ts) ∧
    (∀ id', id' ≠ id → pt_tickets t' !! id' = pt_tickets t !! id') ∧
    pt_next_id t' = pt_next_id t ∧ pt_limit t' = pt_limit t ∧ pt_per_source t' = pt_per_source t.
Proof.
  intros Hc Hid Hone Hheld Hx Hterm Hxn. pose proof (pc_ticket _ _ _ Hc _ _ Hid) as (_ & Hstr & Hpos).
  unfold Publications.drop_ticket, bind, get, expect. rewrite Hid. simpl.
  destruct (ts_strong ts <=? 1)%N eqn:Hlast.
  - assert (pt_entries t !! id = None) as Hent.
    { unfold in_entries in Hstr. case_bool_decide as He; simpl in Hstr; [lia|]. by apply eq_None_not_Some. }
    assert (id ∉ held') as Hni.
    { intros Hin%count_id_pos. lia. }
    destruct (without_ticket_core held held' x t id ts Hc Hid Hent Hni Hheld) as (counts & Hcs & Htot & Hc').
    assert ((if decide (x = Some id) then None else x) = x') as Hx'.
    { case_decide as Hxi; [by rewrite Hxn|]. destruct x as [j|].
      - symmetry. apply Hx; [|done]. intros ->. done.
      - destruct x' as [j|]; [|done]. destruct (decide (j = id)) as [->|Hj].
        + unfold extra in *. rewrite bool_decide_true in Hone by done. simpl in Hone. lia.
        + by pose proof (proj2 (Hx j Hj) eq_refl). }
    rewrite Hx' in Hc'. exists (without_ticket id (ts_source ts) counts t).
    unfold modify, Publications.drop_permit, bind, decr, get, expect. simpl.
    rewrite decide_False by lia. simpl. rewrite Hcs.
    do 6 (split; [done|]). split; [intros ts'; by rewrite lookup_delete_eq|].
    split; [|done]. intros id' Hne. by rewrite lookup_delete_ne.
  - exists (update_ticket id (ts <| ts_strong ::= N.pred |>) t). split; [done|]. split; [|do 4 (split; [done|]); split; simpl].
    2: { intros ts'. rewrite lookup_insert_eq. by intros [= <-]. }
    2: { split; [|done]. intros id' Hne. by rewrite lookup_insert_ne. }
    eapply update_ticket_core; try done; simpl; try lia.
    + intros [p Hp]. apply (pc_entry_ticket _ _ _ Hc) in Hp as (ts' & Hts' & _ & Ht). congruence.
    + intros Hent Hne. destruct (Hterm Hent) as [?|[?|Hz]]; [done|congruence|].
      unfold in_entries in Hstr. rewrite bool_decide_false in Hstr by (rewrite Hent; by intros []).
      unfold extra in Hone at 1. rewrite bool_decide_false in Hone by congruence. simpl in *. lia.
Qed.

Lemma reserve_ticket_cases held t source staged :
  pt_core held None t →
  (∃ e, Publications.reserve source staged t = (Err e, t) ∧
     ((e = Error.LimitExceeded ∧ pt_next_id t = u64_max) ∨
      (e = Error.QueueFull ∧
       (pt_total t = pt_limit t ∨ cnt_get source (pt_counts t) = pt_per_source t)))) ∨
  (∃ t', Publications.reserve source staged t = (Ok (pt_next_id t), t') ∧
     pt_core held (Some (pt_next_id t)) t' ∧
     pt_tickets t' =
       <[pt_next_id t := MkTicket source (if staged then PStaged else PQueued) 1]> (pt_tickets t) ∧
     pt_next_id t' = (pt_next_id t + 1)%N ∧ pt_limit t' = pt_limit t ∧
     pt_per_source t' = pt_per_source t ∧ pt_entries t' = pt_entries t ∧ pt_by_source t' = pt_by_source t ∧
     pt_ready t' = pt_ready t ∧ pt_ready_set t' = pt_ready_set t).
Proof.
  intros Hc. unfold Publications.reserve, bind, get, ok_or, checked_add, reject_if.
  pose proof (pc_next _ _ _ Hc) as Hnext. pose proof (pc_total_le _ _ _ Hc) as Htot.
  pose proof (pc_counts_le _ _ _ Hc source) as Hcnt.
  pose proof (cnt_get_wf _ _ source (pc_counts _ _ _ Hc)) as Hget. simpl in Hget.
  case_decide as Hid; simpl; last first.
  { left. eexists. split; [done|]. left. split; [done|lia]. }
  destruct (_ || _)%bool eqn:Hfull; simpl.
  { left. eexists. split; [done|]. right. split; [done|]. lia. }
  right. eexists. split; [done|]. simpl.
  assert (pt_tickets t !! pt_next_id t = None) as Hnone.
  { destruct (pt_tickets t !! pt_next_id t) as [ts|] eqn:Hts; [|done].
    apply (pc_ticket _ _ _ Hc) in Hts as (? & _). lia. }
  assert (pt_entries t !! pt_next_id t = None) as Hent.
  { destruct (pt_entries t !! pt_next_id t) as [p|] eqn:Hp; [|done].
    apply (pc_entry_ticket _ _ _ Hc) in Hp as (ts & ? & _). congruence. }
  assert (count_id (pt_next_id t) held = 0%N) as Hcount.
  { destruct (decide (0 < count_id (pt_next_id t) held)%N) as [Hin%count_id_pos|]; [|lia].
    apply (pc_held _ _ _ Hc) in Hin as [ts Hts]. congruence. }
  split; [|done].
  destruct Hc. split; unfold in_entries in *; simpl; try done; try lia.
  - intros id ts. rewrite lookup_insert_Some. intros [[<- <-]|[Hne Hts]]; simpl.
    + split; [lia|]. rewrite Hcount, Hent. unfold extra.
      rewrite bool_decide_false by (by intros []). rewrite bool_decide_true by done. simpl. lia.
    + apply pc_ticket0 in Hts as (? & -> & ?). split; [lia|].
      replace (extra (Some (pt_next_id t)) id) with (extra None id); [lia|]. unfold extra.
      by rewrite !bool_decide_false by congruence.
  - intros id Hin. destruct (decide (pt_next_id t = id)) as [<-|Hne].
    + rewrite lookup_insert_eq. by eexists.
    + rewrite lookup_insert_ne by done. by apply pc_held0.
  - intros id p Hp. destruct (decide (pt_next_id t = id)) as [<-|Hne]; [congruence|].
    rewrite lookup_insert_ne by done. by apply pc_entry_ticket0.
  - intros id ts. rewrite lookup_insert_Some. intros [[<- <-]|[Hne Hts]] Hp Hx; [done|].
    by eapply pc_terminal0.
  - rewrite map_size_insert_None by done. lia.
  - eapply cnt_wf_ext; [|by apply cnt_add_wf]. intros s. simpl. rewrite tickets_of_insert by done.
    simpl. rewrite (bool_decide_ext (s = source) (source = s)) by (split; by intros ->). lia.
  - intros s. rewrite tickets_of_insert by done. simpl. specialize (pc_counts_le0 s).
    case_bool_decide; simpl; [subst; lia|done].
Qed.

(** ** Queuing a publication *)
Lemma sorted_snoc (l : list N) x :
  StronglySorted N.lt l → (∀ y, y ∈ l → N.lt y x) → StronglySorted N.lt (l ++ [x]).
Proof.
  induction l as [|y l IH]; intros Hs Hx; simpl; [repeat constructor|].
  apply StronglySorted_inv in Hs as [Hs Hy]. constructor.
  - apply IH; [done|]. set_solver.
  - apply Forall_app. split; [done|]. constructor; [|constructor]. apply Hx. set_solver.
Qed.

Definition queued (p : Publication) (t : PublicationTable) : PublicationTable :=
  let t := match pub_deadline p with
           | Some deadline => t <| pt_deadlines ::= union {[(deadline, pub_ticket p)]} |>
           | None => t
           end in
  let t := t <| pt_by_source ::=
              <[pub_source p := Publications.queue_of t (pub_source p) ++ [pub_ticket p]]> |> in
  t <| pt_entries ::= <[pub_ticket p := p]> |>.

Lemma queued_fields p t :
  pt_entries (queued p t) = <[pub_ticket p := p]> (pt_entries t) ∧
  pt_by_source (queued p t) =
    <[pub_source p := Publications.queue_of t (pub_source p) ++ [pub_ticket p]]> (pt_by_source t) ∧
  (∀ d id, (d, id) ∈ pt_deadlines (queued p t) ↔
     (pub_deadline p = Some d ∧ id = pub_ticket p) ∨ (d, id) ∈ pt_deadlines t) ∧
  pt_ready (queued p t) = pt_ready t ∧ pt_ready_set (queued p t) = pt_ready_set t ∧
  pt_next_id (queued p t) = pt_next_id t ∧ pt_limit (queued p t) = pt_limit t ∧
  pt_per_source (queued p t) = pt_per_source t ∧ pt_total (queued p t) = pt_total t ∧
  pt_counts (queued p t) = pt_counts t ∧
  pt_snapshot_entries (queued p t) = pt_snapshot_entries t ∧ pt_tickets (queued p t) = pt_tickets t.
Proof.
  unfold queued. destruct (pub_deadline p) as [d|]; simpl; repeat (split; [done|]); split; try done.
  - intros d' id. set_solver.
  - intros d' id. split; [by right|]. by intros [[? _]|].
Qed.

Lemma queue_of_insert t t' s q :
  pt_by_source t' = <[s := q]> (pt_by_source t) →
  ∀ s', Publications.queue_of t' s' = if decide (s' = s) then q else Publications.queue_of t s'.
Proof.
  intros Hb s'. unfold Publications.queue_of. rewrite Hb. case_decide as Hs.
  - subst. by rewrite lookup_insert_eq.
  - by rewrite lookup_insert_ne.
Qed.

Lemma queued_core held t p ts id :
  pub_ticket p = id →
  pt_core held (Some id) t → pt_tickets t !! id = Some ts → pt_entries t !! id = None →
  ts_source ts = pub_source p → is_terminal (ts_status ts) = false → pub_routes p = None → pub_cursor p = 0%N →
  (∀ id', is_Some (pt_entries t !! id') → N.lt id' id) →
  pt_core held (Some id) (queued p (update_ticket id (ts <| ts_strong ::= N.succ |>) t)).
Proof.
  intros Hpid Hc Hts Hent Hsrc Hst Hroutes Hcur Hmax.
  set (t1 := update_ticket id (ts <| ts_strong ::= N.succ |>) t).
  destruct (queued_fields p t1) as (He & Hb & Hd & _ & _ & Hn & Hl & Hps & Htot & Hcnt & Hsn & Htk).
  pose proof (queue_of_insert t1 _ _ _ Hb) as Hq. rewrite Hpid in *.
  change (Publications.queue_of t1) with (Publications.queue_of t) in Hq.
  set (t' := queued p t1) in *. clearbody t'. unfold t1, update_ticket in *. clear t1.
  simpl in He, Hb, Hd, Hn, Hl, Hps, Htot, Hcnt, Hsn, Htk.
  destruct Hc. split; unfold in_entries in *; rewrite ?Hn, ?Hl, ?Hps, ?Htot, ?Hcnt, ?Hsn, ?Htk, ?He; try done.
  - intros id' p'. rewrite lookup_insert_Some. intros [[<- <-]|[_ Hp]]; [|by apply pc_entry0].
    split; [done|]. unfold pub_ok. by rewrite Hroutes.
  - intros id' s. rewrite Hq. setoid_rewrite lookup_insert_Some. case_decide as Hs.
    + subst s. rewrite elem_of_app, list_elem_of_singleton, pc_queue0. split.
      * intros [(p' & Hp' & Hs)| ->]; [|by exists p; auto]. exists p'. split; [|done]. right.
        split; [|done]. intros <-. congruence.
      * intros (p' & [[<- _]|[_ Hp']] & Hs); [by right|]. left. eauto.
    + rewrite pc_queue0. split.
      * intros (p' & Hp' & Hs'). exists p'. split; [|done]. right. split; [|done]. intros <-. congruence.
      * intros (p' & [[<- <-]|[_ Hp']] & Hs'); [done|eauto].
  - intros s. rewrite Hq. case_decide; [|done]. apply sorted_snoc; [done|].
    intros y (p' & Hp' & _)%pc_queue0. apply Hmax. by eexists.
  - intros s. rewrite Hb, lookup_insert_Some. intros [[_ Hnil]|[_ Hs]]; [|by apply (pc_nonempty0 s)].
    by destruct (Publications.queue_of _ _).
  - intros d id'. rewrite Hd, pc_deadlines0. setoid_rewrite lookup_insert_Some. split.
    + intros [[Hpd ->]|(p' & Hp' & Hpd)]; [by exists p; auto|]. exists p'. split; [|done]. right.
      split; [|done]. intros <-. congruence.
    + intros (p' & [[<- <-]|[_ Hp']] & Hpd); [by left|]. right. eauto.
  - rewrite sum_map_insert by done. unfold pub_routes_len at 1. by rewrite Hroutes, pc_snapshot0.
  - intros id' ts'. rewrite lookup_insert_Some. intros [[<- <-]|[Hne Hts']].
    + apply pc_ticket0 in Hts as (? & Hstr & ?). split; [done|]. simpl. rewrite Hstr.
      rewrite lookup_insert_eq, Hent, (bool_decide_true (is_Some (Some p))) by by eexists.
      rewrite (bool_decide_false (is_Some None)) by (by intros []). simpl. lia.
    + rewrite lookup_insert_ne by done. by apply pc_ticket0.
  - intros id' Hin. destruct (decide (id = id')) as [<-|Hne].
    + rewrite lookup_insert_eq. by eexists.
    + rewrite lookup_insert_ne by done. by apply pc_held0.
  - intros id' p'. rewrite lookup_insert_Some. intros [[<- <-]|[Hne Hp]].
    + rewrite lookup_insert_eq. by eexists.
    + rewrite lookup_insert_ne by done. by apply pc_entry_ticket0.
  - intros id' ts' Hts' Hp' Hx. apply lookup_insert_None in Hp' as [Hp' Hne].
    rewrite lookup_insert_ne in Hts' by done. by eapply pc_terminal0.
  - by rewrite map_size_insert_Some by by eexists.
  - eapply cnt_wf_ext; [|done]. intros s. simpl. by rewrite (tickets_of_update _ _ _ ts).
  - intros s. by rewrite (tickets_of_update _ _ _ ts).
Qed.

(** Readiness of the other sources does not depend on this one's queue. *)
Lemma head_ready_other t t' s s' :
  s' ≠ s → Publications.queue_of t' s' = Publications.queue_of t s' →
  (∀ id, id ∈ Publications.queue_of t s' → pt_entries t' !! id = pt_entries t !! id) →
  head_ready t' s' ↔ head_ready t s'.
Proof.
  intros Hne Hq He. unfold head_ready, Publications.head_of. rewrite Hq.
  destruct (Publications.queue_of t s') as [|id q]; simpl; [done|]. rewrite He by set_solver. done.
Qed.

Lemma queued_ready t p ts id :
  pub_ticket p = id →
  ready_ok None t → (∀ s, id ∉ Publications.queue_of t s) →
  (∀ s i, i ∈ Publications.queue_of t s → is_Some (pt_entries t !! i)) →
  ready_ok None (Publications.ready_source (pub_source p)
    (queued p (update_ticket id ts t))).
Proof.
  intros Hpid [Hnd Hset Hex] Hni Hall.
  set (t1 := update_ticket id ts t).
  destruct (queued_fields p t1) as (He & Hb & _ & Hr & Hrs & _).
  pose proof (queue_of_insert t1 _ _ _ Hb) as Hq. rewrite Hpid in *.
  change (Publications.queue_of t1) with (Publications.queue_of t) in Hq.
  fold t1. set (t' := queued p t1) in *. clearbody t'. unfold t1, update_ticket in *. clear t1.
  simpl in He, Hr, Hrs.
  apply ready_source_ok; [split|].
  - by rewrite Hr.
  - intros s. by rewrite Hr, Hrs.
  - intros s Hs. rewrite Hr, Hex by done. symmetry. apply (head_ready_other t _ (pub_source p)).
    + congruence.
    + rewrite Hq. by rewrite decide_False by congruence.
    + intros i Hi. rewrite He, lookup_insert_ne; [done|]. intros <-. by apply (Hni s).
  - rewrite Hr, Hex by done. unfold head_ready, Publications.head_of. rewrite Hq, decide_True by done.
    destruct (Publications.queue_of t (pub_source p)) as [|i q] eqn:Hqs; simpl; [by intros (? & ? & _)|].
    rewrite He, lookup_insert_ne; [done|]. intros <-. apply (Hni (pub_source p)). rewrite Hqs. set_solver.
Qed.

(** ** Finishing a publication *)
Definition unindexed (p : Publication) (t : PublicationTable) : PublicationTable :=
  let source := pub_source p in
  let t := match pub_deadline p with
           | Some deadline => t <| pt_deadlines ::= λ s, s ∖ {[(deadline, pub_ticket p)]} |>
           | None => t
           end in
  let t := t <| pt_snapshot_entries ::= λ n, (n - pub_routes_len p)%N |> in
  let t := match pt_by_source t !! source with
           | Some queue =>
               let queue := filter (λ candidate, candidate ≠ pub_ticket p) queue in
               if bool_decide (queue = []) then t <| pt_by_source ::= delete source |>
               else t <| pt_by_source ::= <[source := queue]> |>
           | None => t
           end in
  if bool_decide (source ∈ pt_ready_set t)
  then t <| pt_ready_set ::= λ s, s ∖ {[source]} |>
         <| pt_ready ::= filter (λ candidate, candidate ≠ source) |>
  else t.

Lemma remove_indexes_run p t :
  (pub_routes_len p ≤ pt_snapshot_entries t)%N →
  Publications.remove_indexes p t =
    (Ok tt, Publications.ready_source (pub_source p) (unindexed p t)).
Proof.
  intros Hle. unfold Publications.remove_indexes, unindexed, bind, modify, get, expect, ret, checked_sub.
  assert (∀ u : PublicationTable, u <| pt_snapshot_entries ::= λ n, (n - 0)%N |> = u) as Hzero.
  { intros []. unfold set_field. simpl. by rewrite N.sub_0_r. }
  unfold pub_routes_len in *. destruct (pub_routes p) as [routes|]; cbv beta iota.
  - destruct (pub_deadline p) as [d|]; simpl; rewrite decide_True by done; done.
  - rewrite Hzero. done.
Qed.

Lemma unindexed_fields p t :
  pt_entries (unindexed p t) = pt_entries t ∧
  (∀ d id, (d, id) ∈ pt_deadlines (unindexed p t) ↔
     (d, id) ∈ pt_deadlines t ∧ ¬ (pub_deadline p = Some d ∧ id = pub_ticket p)) ∧
  pt_next_id (unindexed p t) = pt_next_id t ∧ pt_limit (unindexed p t) = pt_limit t ∧
  pt_per_source (unindexed p t) = pt_per_source t ∧ pt_total (unindexed p t) = pt_total t ∧
  pt_counts (unindexed p t) = pt_counts t ∧
  pt_snapshot_entries (unindexed p t) = (pt_snapshot_entries t - pub_routes_len p)%N ∧
  pt_tickets (unindexed p t) = pt_tickets t.
Proof.
  unfold unindexed. destruct (pub_deadline p) as [d|]; simpl;
    (destruct (pt_by_source t !! pub_source p) as [q|]; simpl; [destruct (bool_decide (filter _ q = [])); simpl|]);
    case_bool_decide; simpl; (split; [done|split; [|done]]); intros d' id; try set_solver; naive_solver.
Qed.

Lemma unindexed_queue p t :
  (∀ s, s ≠ pub_source p → Publications.queue_of (unindexed p t) s = Publications.queue_of t s) ∧
  Publications.queue_of (unindexed p t) (pub_source p) =
    filter (λ c, c ≠ pub_ticket p) (Publications.queue_of t (pub_source p)) ∧
  ((∀ s, pt_by_source t !! s ≠ Some []) → ∀ s, pt_by_source (unindexed p t) !! s ≠ Some []).
Proof.
  assert (∃ m, pt_by_source (unindexed p t) = m ∧ m =
    match pt_by_source t !! pub_source p with
    | Some queue =>
        let queue := filter (λ candidate, candidate ≠ pub_ticket p) queue in
        if bool_decide (queue = []) then delete (pub_source p) (pt_by_source t)
        else <[pub_source p := queue]> (pt_by_source t)
    | None => pt_by_source t
    end) as (m & Hm & Heq).
  { eexists. split; [done|]. unfold unindexed. destruct (pub_deadline p); simpl;
      (destruct (pt_by_source t !! pub_source p) as [q|]; simpl; [destruct (bool_decide (filter _ q = [])); simpl|]);
      by destruct (bool_decide (pub_source p ∈ pt_ready_set t)). }
  unfold Publications.queue_of. rewrite Hm, Heq.
  destruct (pt_by_source t !! pub_source p) as [q|] eqn:Hq; simpl; [case_bool_decide as Hnil|]; simpl.
  - split; [intros s Hs; by rewrite lookup_delete_ne|]. rewrite lookup_delete_eq, Hnil. split; [done|].
    intros Hne s. rewrite lookup_delete_Some. intros [_ Hs]. by apply (Hne s).
  - split; [intros s Hs; by rewrite lookup_insert_ne|]. rewrite lookup_insert_eq. split; [done|].
    intros Hne s. rewrite lookup_insert_Some. intros [[_ Hs]|[_ Hs]]; [by rewrite Hs in Hnil|by apply (Hne s)].
  - rewrite Hq. done.
Qed.

Lemma unindexed_ready p t :
  NoDup (pt_ready t) → (∀ s, s ∈ pt_ready t ↔ s ∈ pt_ready_set t) →
  NoDup (pt_ready (unindexed p t)) ∧
  (∀ s, s ∈ pt_ready (unindexed p t) ↔ s ∈ pt_ready t ∧ s ≠ pub_source p) ∧
  (∀ s, s ∈ pt_ready_set (unindexed p t) ↔ s ∈ pt_ready_set t ∧ s ≠ pub_source p).
Proof.
  intros Hnd Hset.
  assert (∃ r rs, pt_ready (unindexed p t) = r ∧ pt_ready_set (unindexed p t) = rs ∧
    (r, rs) = if bool_decide (pub_source p ∈ pt_ready_set t)
    then (filter (λ c, c ≠ pub_source p) (pt_ready t), pt_ready_set t ∖ {[pub_source p]})
    else (pt_ready t, pt_ready_set t)) as (r & rs & -> & -> & Heq).
  { do 2 eexists. split; [done|]. split; [done|]. unfold unindexed. destruct (pub_deadline p); simpl;
      (destruct (pt_by_source t !! pub_source p) as [q|]; simpl; [destruct (bool_decide (filter _ q = [])); simpl|]);
      by destruct (bool_decide (pub_source p ∈ pt_ready_set t)). }
  case_bool_decide as Hin; simplify_eq.
  - split; [by apply NoDup_filter|]. split; intros s; [|set_solver]. rewrite list_elem_of_filter. tauto.
  - split; [done|]. split; intros s; split; try tauto; intros Hs; (split; [done|]); intros ->; [by apply Hin, Hset|done].
Qed.

Lemma with_entry_id p t :
  pt_entries t !! pub_ticket p = Some p → with_entry p t = t.
Proof. intros Hp. destruct t. unfold with_entry, set_field. simpl in *. by rewrite insert_id. Qed.

(** The hole an operation works in, opened on a queued publication. *)
Lemma take_entry_hole held t id p :
  pt_wf held t → pt_entries t !! id = Some p →
  ∃ t', Publications.take_entry id t = (Ok (Some p), t') ∧ pt_hole held p t' ∧
    t' = t <| pt_entries ::= delete id |>.
Proof.
  intros [Hc [Hnd Hset Hex]] Hp. pose proof (proj1 (pc_entry _ _ _ Hc _ _ Hp)) as <-.
  unfold Publications.take_entry, bind, get, modify, ret.
  eexists. split; [by rewrite Hp|]. split; [|done].
  assert (with_entry p (t <| pt_entries ::= delete (pub_ticket p) |>) = t) as Heq.
  { destruct t. unfold with_entry, set_field. simpl in *. by rewrite insert_delete_id. }
  split; rewrite ?Heq; [done| |by apply lookup_delete_eq].
  split; [done|done|]. intros s _. by apply Hex.
Qed.

Lemma hole_facts held p t :
  pt_hole held p t →
  pub_ok p ∧ (pub_routes_len p ≤ pt_snapshot_entries t)%N ∧
  pub_ticket p ∈ Publications.queue_of t (pub_source p) ∧
  ∃ ts, pt_tickets t !! pub_ticket p = Some ts ∧ ts_source ts = pub_source p ∧
    is_terminal (ts_status ts) = false.
Proof.
  intros [Hc _ Hout].
  assert (pt_entries (with_entry p t) !! pub_ticket p = Some p) as Hp by apply lookup_insert_eq.
  split; [by apply (pc_entry _ _ _ Hc) in Hp as [_ ?]|]. split; [|split].
  - pose proof (pc_snapshot _ _ _ Hc) as Hs. simpl in Hs. rewrite Hs.
    by apply (sum_map_lookup (λ _ p, pub_routes_len p)) in Hp.
  - apply (pc_queue _ _ _ Hc). by exists p.
  - by apply (pc_entry_ticket _ _ _ Hc).
Qed.

Lemma unindexed_core held p t :
  pt_hole held p t → pt_core held (Some (pub_ticket p)) (unindexed p t).
Proof.
  intros Hh. pose proof (hole_facts _ _ _ Hh) as (_ & _ & _ & ts & Hts & Hsrc & Hst).
  destruct Hh as [Hc _ Hout].
  destruct (unindexed_fields p t) as (He & Hd & Hn & Hl & Hps & Htot & Hcnt & Hsn & Htk).
  destruct (unindexed_queue p t) as (Hq & Hqs & Hne).
  destruct Hc. unfold in_entries in *. simpl in *.
  change (Publications.queue_of (with_entry p t)) with (Publications.queue_of t) in *.
  split; unfold in_entries; rewrite ?He, ?Hn, ?Hl, ?Hps, ?Htot, ?Hcnt, ?Hsn, ?Htk; try done.
  - intros id p' Hp'. apply pc_entry0. by rewrite lookup_insert_ne by congruence.
  - intros id s. destruct (decide (s = pub_source p)) as [->|Hs].
    + rewrite Hqs, list_elem_of_filter, pc_queue0. setoid_rewrite lookup_insert_Some. split.
      * intros [Hid (p' & [[? _]|[_ Hp']] & Hs)]; [done|eauto].
      * intros (p' & Hp' & Hs). assert (id ≠ pub_ticket p) by congruence. split; [done|].
        exists p'. split; [by right|done].
    + rewrite Hq, pc_queue0 by done. setoid_rewrite lookup_insert_Some. split.
      * intros (p' & [[_ <-]|[_ Hp']] & Hs'); [done|eauto].
      * intros (p' & Hp' & Hs'). exists p'. split; [|done]. right. split; [congruence|done].
  - intros s. destruct (decide (s = pub_source p)) as [->|Hs]; [|by rewrite Hq].
    rewrite Hqs. apply StronglySorted_filter. done.
  - by apply Hne.
  - intros d id. rewrite Hd, pc_deadlines0. setoid_rewrite lookup_insert_Some. split.
    + intros [(p' & [[<- <-]|[_ Hp']] & Hpd) Hnot]; [by destruct Hnot|eauto].
    + intros (p' & Hp' & Hpd). split; [exists p'; split; [right; split; [congruence|done]|done]|].
      intros [_ ->]. congruence.
  - rewrite pc_snapshot0, sum_map_insert by done. lia.
  - intros id ts' Hts'. apply pc_ticket0 in Hts' as (? & -> & ?). split; [done|].
    unfold extra in *. destruct (decide (id = pub_ticket p)) as [->|Hid].
    + rewrite lookup_insert_eq, Hout, (bool_decide_true (is_Some (Some p))) in * by by eexists.
      rewrite (bool_decide_false (is_Some None)) by (by intros []).
      rewrite (bool_decide_true (Some (pub_ticket p) = _)) by done. simpl in *. lia.
    + rewrite lookup_insert_ne in * by done. rewrite (bool_decide_false (Some (pub_ticket p) = _)) by congruence.
      done.
  - intros id p' Hp'. apply pc_entry_ticket0. by rewrite lookup_insert_ne by congruence.
  - intros id ts' Hts' Hp' Hid. eapply pc_terminal0; [done| |done].
    rewrite lookup_insert_ne; congruence.
Qed.

Lemma unindexed_ready_ok held p t :
  pt_hole held p t → ready_ok (Some (pub_source p)) (unindexed p t) ∧ pub_source p ∉ pt_ready (unindexed p t).
Proof.
  intros Hh. destruct Hh as [Hc [Hnd Hset Hex] Hout]. simpl in *.
  destruct (unindexed_ready p t Hnd Hset) as (Hnd' & Hr & Hrs).
  destruct (unindexed_fields p t) as (He & _). destruct (unindexed_queue p t) as (Hq & _ & _).
  split; [split|rewrite Hr; tauto].
  - done.
  - intros s. rewrite Hr, Hrs, Hset. done.
  - intros s Hs. assert (s ≠ pub_source p) as Hne by congruence. rewrite Hr.
    rewrite (head_ready_other (with_entry p t) (unindexed p t) (pub_source p) s) by
      first [done | by rewrite Hq | intros id Hid; rewrite He; simpl; rewrite lookup_insert_ne; [done|];
      intros <-; apply (pc_queue _ _ _ Hc) in Hid as (p' & Hp' & Hs'); simpl in Hp';
      rewrite lookup_insert_eq in Hp'; congruence].
    rewrite <- Hex by done. tauto.
Qed.

Lemma ready_source_list s t :
  pt_ready (Publications.ready_source s t) = pt_ready t ∨
  pt_ready (Publications.ready_source s t) = pt_ready t ++ [s].
Proof. unfold Publications.ready_source. destruct (_ && _)%bool; auto. Qed.

Lemma unindexed_ready_same p t :
  (∀ s, s ∈ pt_ready t ↔ s ∈ pt_ready_set t) → pub_source p ∉ pt_ready t →
  pt_ready (unindexed p t) = pt_ready t.
Proof.
  intros Hset Hni. rewrite Hset in Hni. unfold unindexed. destruct (pub_deadline p); simpl;
    (destruct (pt_by_source t !! pub_source p) as [q|]; simpl; [destruct (bool_decide (filter _ q = [])); simpl|]);
    by rewrite bool_decide_false.
Qed.

(** [finish] closes the hole: the table is well formed again, without the
    publication, and its ticket is terminal with the final report. *)
Lemma finish_spec held p t :
  pt_hole held p t →
  ∃ t', Publications.finish p t = (Ok tt, t') ∧ pt_wf held t' ∧ pt_entries t' = pt_entries t ∧
    (∀ s, Publications.queue_of t' s =
       filter (λ c, c ≠ pub_ticket p) (Publications.queue_of t s)) ∧
    (∀ ts, pt_tickets t' !! pub_ticket p = Some ts → ts_status ts = PTerminal (pub_report p)) ∧
    (∀ id, id ≠ pub_ticket p → pt_tickets t' !! id = pt_tickets t !! id) ∧
    (pub_source p ∉ pt_ready t →
       pt_ready t' = pt_ready t ∨ pt_ready t' = pt_ready t ++ [pub_source p]) ∧
    pub_evolves t t'.
Proof.
  intros Hh. pose proof (hole_facts _ _ _ Hh) as (_ & Hsn & _ & ts & Hts & Hsrc & Hst).
  pose proof (unindexed_core _ _ _ Hh) as Hc1.
  destruct (unindexed_ready_ok _ _ _ Hh) as [Hr1 Hni].
  unfold Publications.finish, bind. rewrite remove_indexes_run by done.
  set (u := Publications.ready_source (pub_source p) (unindexed p t)).
  assert (pt_core held (Some (pub_ticket p)) u) as Hc2 by by apply ready_source_core.
  assert (ready_ok None u) as Hr2 by by apply ready_source_ok.
  destruct (ready_source_fields (pub_source p) (unindexed p t)) as (He & Hb & _ & Hnu & Hlu & Hpu & _ & _ & _ & Htk).
  fold u in He, Hb, Htk, Hnu, Hlu, Hpu.
  destruct (unindexed_fields p t) as (He1 & _ & Hn1 & Hl1 & Hp1 & _ & _ & _ & Htk1).
  rewrite He1 in He. rewrite Htk1 in Htk. pose proof (ph_out _ _ _ Hh) as Hout.
  assert (pt_tickets u !! pub_ticket p = Some ts) as Htu by by rewrite Htk.
  pose proof (ready_source_list (pub_source p) (unindexed p t)) as Hlist. fold u in Hlist.
  rewrite (set_status_run _ _ _ _ Htu). clearbody u. set (ts' := ts <| ts_status := PTerminal (pub_report p) |>).
  assert (pt_core held (Some (pub_ticket p)) (update_ticket (pub_ticket p) ts' u)) as Hc3.
  { pose proof (pc_ticket _ _ _ Hc2 _ _ Htu) as (_ & Hstr & Hpos).
    eapply update_ticket_core; try done. rewrite He, Hout. by intros []. }
  destruct (drop_ticket_core held held (Some (pub_ticket p)) None _ (pub_ticket p) ts' Hc3) as
    (t' & Hrun & Hc4 & He4 & Hb4 & Hr4 & Hrs4 & Hst4 & Hoth4 & Hn4 & Hl4 & Hps4); try done.
  { apply lookup_insert_eq. }
  { rewrite extra_self, extra_none. lia. }
  { intros id' Hne. split; congruence. }
  { by left. }
  simpl in He4, Hb4, Hr4, Hrs4.
  exists t'. split; [exact Hrun|]. split; [split; [done|]|].
  - destruct Hr2 as [Hnd Hset Hex]. split; rewrite ?Hr4, ?Hrs4; [done|done|]. intros s Hs.
    rewrite (Hex s Hs). unfold head_ready, Publications.head_of, Publications.queue_of.
    by rewrite He4, Hb4.
  - split; [by rewrite He4|]. split.
    + intros s. unfold Publications.queue_of. rewrite Hb4, Hb.
      change (Publications.queue_of (unindexed p t) s =
        filter (λ c, c ≠ pub_ticket p) (Publications.queue_of t s)).
      destruct (unindexed_queue p t) as (Hq & Hqs & _).
      destruct (decide (s = pub_source p)) as [->|Hs]; [done|]. rewrite Hq by done.
      rewrite filter_id; [done|]. intros id Hid ->.
      apply (pc_queue _ _ _ (ph_core _ _ _ Hh)) in Hid as (p' & Hp' & Hs'). simpl in Hp'.
      rewrite lookup_insert_eq in Hp'. congruence.
    + assert (∀ id, id ≠ pub_ticket p → pt_tickets t' !! id = pt_tickets t !! id) as Hoth.
      { intros id Hid. rewrite Hoth4 by done. simpl. rewrite lookup_insert_ne by done. by rewrite Htk. }
      split; [intros ts0 Hts0; by rewrite (Hst4 _ Hts0)|]. split; [done|]. split.
      2: { apply (pub_evolves_ticket _ _ (pub_ticket p)); [congruence|left; by eexists|done|..];
             rewrite ?Hn4, ?Hl4, ?Hps4; simpl; rewrite ?Hnu, ?Hlu, ?Hpu, ?Hn1, ?Hl1, ?Hp1; done. }
      intros Hnir. rewrite Hr4. rewrite <- (unindexed_ready_same p t); [done| |done].
        apply (ro_set _ _ (ph_ready _ _ _ Hh)).
Qed.

(** ** Routing turns *)

(** Two versions of a publication that the indexes do not tell apart. *)
Record same_keys (p p' : Publication) : Prop := {
  sk_ticket : pub_ticket p' = pub_ticket p;
  sk_source : pub_source p' = pub_source p;
  sk_deadline : pub_deadline p' = pub_deadline p
}.

Lemma entry_update_core held x t id p p' n :
  pt_core held x t → pt_entries t !! id = Some p → same_keys p p' → pub_ok p' →
  (n + pub_routes_len p = pt_snapshot_entries t + pub_routes_len p')%N →
  pt_core held x (t <| pt_entries ::= <[id := p']> |> <| pt_snapshot_entries := n |>).
Proof.
  intros Hc Hp [Htk Hsrc Hdl] Hok Hn.
  assert (∀ P : Publication → Prop, (P p ↔ P p') → ∀ i,
    (∃ q, <[id := p']> (pt_entries t) !! i = Some q ∧ P q) ↔ (∃ q, pt_entries t !! i = Some q ∧ P q)) as Hex.
  { intros P HP i. destruct (decide (id = i)) as [<-|Hne].
    - rewrite lookup_insert_eq, Hp. naive_solver.
    - by rewrite lookup_insert_ne. }
  assert (∀ i, is_Some (<[id := p']> (pt_entries t) !! i) ↔ is_Some (pt_entries t !! i)) as Hin.
  { intros i. rewrite lookup_insert_is_Some. split; [intros [<-|[_ ?]]|]; [by eexists|done|].
    intros ?. destruct (decide (id = i)); [by left|by right]. }
  destruct Hc. split; unfold in_entries in *; simpl; try done.
  - intros i q. rewrite lookup_insert_Some. intros [[<- <-]|[_ Hq]]; [|by apply pc_entry0].
    apply pc_entry0 in Hp as [<- _]. done.
  - intros i s. rewrite Hex by by rewrite Hsrc. apply pc_queue0.
  - intros d i. rewrite Hex by by rewrite Hdl. apply pc_deadlines0.
  - pose proof (sum_map_update (λ _ q, pub_routes_len q) _ _ _ p' Hp). simpl in *. lia.
  - intros i ts Hts. apply pc_ticket0 in Hts as (? & -> & ?).
    rewrite (bool_decide_ext _ _ (Hin i)). done.
  - intros i q. rewrite lookup_insert_Some. intros [[<- <-]|[_ Hq]]; [|by apply pc_entry_ticket0].
    rewrite Hsrc. by apply pc_entry_ticket0.
  - intros i ts Hts Hi. eapply pc_terminal0; [done|]. apply eq_None_not_Some.
    rewrite <- Hin, Hi. by intros [].
Qed.

Lemma hole_update held p p' t n :
  pt_hole held p t → same_keys p p' → pub_ok p' →
  (n + pub_routes_len p = pt_snapshot_entries t + pub_routes_len p')%N →
  pt_hole held p' (t <| pt_snapshot_entries := n |>).
Proof.
  intros [Hc Hr Hout] Hsk Hok Hn. pose proof Hsk as [Htk Hsrc _].
  assert (pt_entries (with_entry p t) !! pub_ticket p = Some p) as Hp by apply lookup_insert_eq.
  pose proof (entry_update_core _ _ _ _ _ p' n Hc Hp Hsk Hok Hn) as Hc'.
  assert ((with_entry p t) <| pt_entries ::= <[pub_ticket p := p']> |> <| pt_snapshot_entries := n |> =
          with_entry p' (t <| pt_snapshot_entries := n |>)) as Heq.
  { unfold with_entry, set_field. simpl. by rewrite Htk, insert_insert_eq. }
  rewrite Heq in Hc'. split; [done| |by rewrite Htk]. rewrite Hsrc.
  destruct Hr as [Hnd Hset Hex]. split; [done|done|]. intros s Hs. rewrite <- Heq. simpl.
  rewrite (Hex s Hs). symmetry. apply (head_ready_other _ _ (pub_source p)); [congruence|done|].
  intros i Hi. simpl. rewrite lookup_insert_ne; [done|]. intros <-.
  apply (pc_queue _ _ _ Hc) in Hi as (q & Hq & Hqs). simpl in Hq. rewrite lookup_insert_eq in Hq. congruence.
Qed.

Lemma hole_same held p p' t :
  pt_hole held p t → same_keys p p' → pub_ok p' → pub_routes p' = pub_routes p → pt_hole held p' t.
Proof.
  intros Hh Hsk Hok Hr. pose proof (hole_update _ _ p' t (pt_snapshot_entries t) Hh Hsk Hok) as Hh'.
  assert (t <| pt_snapshot_entries := pt_snapshot_entries t |> = t) as Heq by by destruct t.
  rewrite Heq in Hh'. apply Hh'. unfold pub_routes_len. by rewrite Hr.
Qed.

Lemma capture_spec held p t routes :
  pt_hole held p t → pub_routes p = None →
  ∃ t', Publications.capture routes p t = (Ok (p <| pub_routes := Some routes |>
      <| pub_report ::= λ r, r <| dr_matched := N.of_nat (length routes) |> |>), t') ∧
    pt_hole held (p <| pub_routes := Some routes |>
      <| pub_report ::= λ r, r <| dr_matched := N.of_nat (length routes) |> |>) t' ∧
    pt_ready t' = pt_ready t ∧ pub_evolves t t'.
Proof.
  intros Hh Hnone. pose proof (hole_facts _ _ _ Hh) as (Hok & _). unfold pub_ok in Hok. rewrite Hnone in Hok.
  pose proof (hole_facts _ _ _ Hh) as (_ & _ & _ & ts & Hts & _ & _).
  eexists. split; [done|]. unfold Publications.capture, bind, modify, ret. simpl.
  split; [|split; [done|apply (pub_evolves_ticket _ _ (pub_ticket p)); simpl; try done; [congruence|left; by eexists]]].
  apply (hole_update _ p _ t (pt_snapshot_entries t + N.of_nat (length routes))); [done|done| |].
  - unfold pub_ok. simpl. lia.
  - unfold pub_routes_len. rewrite Hnone. simpl. lia.
Qed.

(** [pop_ready] hands out the oldest publication of the first ready source. *)
Lemma pop_ready_spec held t :
  pt_wf held t →
  (pt_ready t = [] ∧ Publications.pop_ready t = (Ok None, t)) ∨
  (∃ s rest p t', pt_ready t = s :: rest ∧ Publications.pop_ready t = (Ok (Some p), t') ∧
     pub_source p = s ∧ Publications.head_of t s = Some p ∧ pub_staged p = false ∧
     pt_hole held p t' ∧ pt_ready t' = rest ∧ s ∉ rest ∧
     pt_entries t' = delete (pub_ticket p) (pt_entries t) ∧ pt_by_source t' = pt_by_source t ∧
     pub_evolves t t').
Proof.
  intros [Hc [Hnd Hset Hex]]. unfold Publications.pop_ready, bind, get.
  destruct (pt_ready t) as [|s rest] eqn:Hready; [by left|]. right.
  apply NoDup_cons in Hnd as [Hni Hnd].
  assert (head_ready t s) as (p & Hp & Hst) by (apply Hex; [done|set_solver]).
  pose proof Hp as Hhead. unfold Publications.head_of, Publications.queue_of in Hp.
  destruct (pt_by_source t !! s) as [q|] eqn:Hq; [|done]. destruct q as [|id q]; [done|]. simpl in Hp.
  assert (pub_source p = s) as Hsrc.
  { assert (id ∈ Publications.queue_of t s) as (p' & Hp' & <-)%(pc_queue _ _ _ Hc).
    { unfold Publications.queue_of. rewrite Hq. set_solver. }
    congruence. }
  pose proof (proj1 (pc_entry _ _ _ Hc _ _ Hp)) as Htk.
  eexists s, rest, p, _. split; [done|].
  unfold Publications.take_entry, modify, bind, get, expect, ret. simpl. rewrite Hp.
  split; [done|]. split; [done|]. split; [done|]. split; [done|]. simpl.
  split; [|split; [done|split; [done|split; [by rewrite Htk|split; [done|apply (pub_evolves_ticket _ _ id); simpl; try done]]]]].
  2: { intros ts Hts _ ts' Hts'. congruence. }
  2: { apply (pc_entry_ticket _ _ _ Hc) in Hp as (ts & Hts & _). left. by eexists. }
  assert (<[pub_ticket p := p]> (delete id (pt_entries t)) = pt_entries t) as Hid.
  { rewrite Htk. by rewrite insert_delete_id. }
  split.
  - eapply pt_core_ready; [..|exact Hc]; try done.
  - split; simpl; [done| |].
    + intros s'. specialize (Hset s'). rewrite elem_of_cons in Hset. rewrite elem_of_difference, elem_of_singleton.
      rewrite <- Hset. split; [|naive_solver]. intros Hs'. split; [by right|]. by intros ->.
    + intros s' Hs'. specialize (Hex s' ltac:(done)). rewrite elem_of_cons in Hex. rewrite Hsrc in Hs'.
      unfold head_ready, Publications.head_of, Publications.queue_of in *. simpl. rewrite Hid.
      rewrite <- Hex. split; [by right|]. intros [->|?]; [congruence|done].
  - simpl. rewrite Htk. apply lookup_delete_eq.
Qed.

(** A publication that is not done goes back, its source last. *)
Lemma put_back_spec held p t :
  pt_hole held p t → pub_source p ∉ pt_ready t →
  ∃ t', Publications.put_back p t = (Ok tt, t') ∧ pt_wf held t' ∧
    pt_entries t' = <[pub_ticket p := p]> (pt_entries t) ∧ pt_by_source t' = pt_by_source t ∧
    (head_ready t' (pub_source p) → pt_ready t' = pt_ready t ++ [pub_source p]) ∧
    (pt_ready t' = pt_ready t ∨ pt_ready t' = pt_ready t ++ [pub_source p]) ∧ pub_evolves t t'.
Proof.
  intros Hh Hni. pose proof (hole_facts _ _ _ Hh) as (_ & _ & _ & ts & Hts & Hsrc & Hst).
  destruct Hh as [Hc Hr Hout]. unfold Publications.put_back, bind. rewrite (set_status_run _ _ _ _ Hts).
  set (ts' := ts <| ts_status := PRouting (pub_report p) |>).
  set (t1 := update_ticket (pub_ticket p) ts' (with_entry p t)).
  assert (pt_core held None t1) as Hc1.
  { pose proof (pc_ticket _ _ _ Hc _ _ Hts) as (_ & Hstr & Hpos).
    eapply update_ticket_core; try done. simpl. by rewrite lookup_insert_eq. }
  assert (ready_ok (Some (pub_source p)) t1) as Hr1 by (destruct Hr; by split).
  eexists. split; [done|]. unfold modify.
  change (Publications.ready_source (pub_source p) ((update_ticket (pub_ticket p) ts' t) <| pt_entries ::=
    <[pub_ticket p:=p]> |>)) with (Publications.ready_source (pub_source p) t1).
  destruct (ready_source_fields (pub_source p) t1) as (He & Hb & _ & Hn1 & Hl1 & Hp1 & _ & _ & _ & Htk1).
  split; [split; [by apply ready_source_core|by apply ready_source_ok]|].
  split; [by rewrite He|]. split; [by rewrite Hb|]. split; [|split; [exact (ready_source_list (pub_source p) t1)|]].
  2: { apply (pub_evolves_ticket _ _ (pub_ticket p));
         rewrite ?Hn1, ?Hl1, ?Hp1, ?Htk1; simpl; [congruence|left; by eexists| |done..]. intros id' Hne. by rewrite lookup_insert_ne. }
  intros (p' & Hp' & Hst'). unfold Publications.head_of, Publications.queue_of in Hp'. rewrite He, Hb in Hp'.
  unfold Publications.ready_source. unfold Publications.head_of, Publications.queue_of. rewrite Hp', Hst'.
  rewrite bool_decide_true; [done|]. rewrite <- (ro_set _ _ Hr1). done.
Qed.

(** [enqueue] makes a staged publication ready for its turn. *)
Lemma enqueue_spec held t id :
  pt_wf held t →
  (pt_entries t !! id = None ∧ Publications.enqueue id t = (Ok None, t)) ∨
  (∃ p t', pt_entries t !! id = Some p ∧
     Publications.enqueue id t = (Ok (Some (pub_source p)), t') ∧ pt_wf held t' ∧
     pt_entries t' = <[id := p <| pub_staged := false |>]> (pt_entries t) ∧
     pt_by_source t' = pt_by_source t ∧ pub_evolves t t').
Proof.
  intros [Hc Hr]. unfold Publications.enqueue, bind, get.
  destruct (pt_entries t !! id) as [p|] eqn:Hp; [|by left]. right.
  pose proof (pc_entry _ _ _ Hc _ _ Hp) as [Htk Hok].
  destruct (pc_entry_ticket _ _ _ Hc _ _ Hp) as (ts & Hts & Hsrc & Hst).
  set (p' := p <| pub_staged := false |>).
  pose proof (entry_update_core _ _ _ _ _ p' (pt_snapshot_entries t) Hc Hp) as Hc1.
  set (t1 := t <| pt_entries ::= <[id := p']> |> <| pt_snapshot_entries := pt_snapshot_entries t |>) in *.
  assert (pt_core held None t1) as Hc2 by (by apply Hc1).
  set (t2 := update_ticket (pub_ticket p) (ts <| ts_status := PQueued |>) t1).
  assert (pt_core held None t2) as Hc3.
  { rewrite <- Htk in Hts. pose proof (pc_ticket _ _ _ Hc2 _ _ Hts) as (_ & Hstr & Hpos).
    eapply update_ticket_core; try done. simpl. rewrite Htk, lookup_insert_eq. done. }
  eexists p, _. split; [done|]. unfold bind, modify.
  rewrite (set_status_run _ _ _ ts) by (simpl; by rewrite Htk).
  assert (update_ticket (pub_ticket p) (ts <| ts_status := PQueued |>) (t <| pt_entries ::= <[id:=p']> |>) = t2)
    as Heq by by destruct t. fold p'. rewrite Heq. unfold ret. split; [done|].
  destruct (ready_source_fields (pub_source p) t2) as (He & Hb & _ & Hn1 & Hl1 & Hp1 & _ & _ & _ & Htk1).
  split; [split; [by apply ready_source_core|]|split; [by rewrite He|split; [by rewrite Hb|]]].
  2: { apply (pub_evolves_ticket _ _ (pub_ticket p));
         rewrite ?Hn1, ?Hl1, ?Hp1, ?Htk1; simpl; rewrite ?Htk; [congruence|left; by eexists| |done..]. intros id' Hne. by rewrite lookup_insert_ne. }
  destruct Hr as [Hnd Hset Hex].
  assert (∀ s, s ≠ pub_source p → head_ready t2 s ↔ head_ready t s) as Hother.
  { intros s Hs. apply (head_ready_other _ _ (pub_source p)); [done|done|]. intros i Hi.
    simpl. rewrite lookup_insert_ne; [done|]. intros <-. apply (pc_queue _ _ _ Hc) in Hi as (q & Hq & Hqs).
    congruence. }
  apply ready_source_ok.
  - split; [done|done|]. intros s Hs. rewrite Hother by congruence. by apply Hex.
  - intros (q & Hq & Hqs)%Hex; [|done]. unfold Publications.head_of, Publications.queue_of in Hq.
    unfold head_ready, Publications.head_of, Publications.queue_of. simpl.
    destruct (default [] (pt_by_source t !! pub_source p)) as [|i l]; [done|]. simpl in *.
    destruct (decide (id = i)) as [<-|Hne].
    + rewrite lookup_insert_eq. by exists p'.
    + rewrite lookup_insert_ne by done. by exists q.
Qed.

(** ** Runs

    The callers of the table as commands on the table and the handles they
    hold.  [PSubmit] carries what the World decides once the ticket is reserved: the copy
    of the payload, or the error of the copy or of the full staging area; a routing turn
    carries what the World decides during it.  [Submissions] shows that this is what the
    World's [submit_publication] does to the table. *)
Record route_turn := MkTurn {
  tn_early : option publication_outcome;   (* source stopped or deadline passed *)
  tn_routes : list (N * ActorRef);
  tn_steps : N; tn_admitted : N;
  tn_done : option publication_outcome
}.
Inductive pub_cmd :=
| PSubmit (source : ActorRef) (port : option N) (payload : error + Stored) (staged completion : bool)
| PEnqueue (id : N)
| PCancel (id : N) (outcome : publication_outcome)
| PRoute (turn : route_turn)
| PClone (id : N)
| PDrop (id : N).

Definition new_publication source port stored (staged completion : bool) (id : N) : Publication :=
  MkPublication source port stored staged completion id None 0
    (default_report <| dr_staged := b2n staged |>).
Definition submit (source : ActorRef) (port : option N) (payload : error + Stored)
    (staged completion : bool) : PubM N :=
  let! id := Publications.reserve source staged in
  match payload with
  | inl e => Publications.drop_ticket id ;;; fail e
  | inr stored =>
      Publications.clone_ticket id ;;;
      modify (Publications.insert (new_publication source port stored staged completion id)) ;;;
      ret id
  end.
Definition close_publication (outcome : publication_outcome) (p : Publication) : PubM unit :=
  let! pr := expect (closed_report outcome p) in
  Publications.finish pr.1.
Definition cancel (id : N) (outcome : publication_outcome) : PubM unit :=
  let! p := Publications.take_entry id in
  match p with None => ret tt | Some p => close_publication outcome p end.
Definition progress (turn : route_turn) (p : Publication) : Publication :=
  p <| pub_cursor ::= λ c, N.min (pub_routes_len p) (c + tn_steps turn) |>
    <| pub_report ::= λ r, r <| dr_admitted ::= λ n, (n + tn_admitted turn)%N |> |>.
Definition route (turn : route_turn) : PubM unit :=
  let! o := Publications.pop_ready in
  match o with
  | None => ret tt
  | Some p =>
      match tn_early turn with
      | Some outcome => close_publication outcome p
      | None =>
          let! p := match pub_routes p with
                    | Some _ => ret p
                    | None => Publications.capture (tn_routes turn) p
                    end in
          let p := progress turn p in
          match tn_done turn with
          | Some outcome => close_publication outcome p
          | None => Publications.put_back p
          end
      end
  end.

Fixpoint remove_one (id : N) (l : list N) : list N :=
  match l with
  | [] => []
  | x :: l => if decide (x = id) then l else x :: remove_one id l
  end.

(** One command: the table after it and the handles callers hold. *)
Definition pub_exec (c : pub_cmd) (held : list N) (t : PublicationTable) :
    outcome error unit * (list N * PublicationTable) :=
  match c with
  | PSubmit source port payload staged completion =>
      match submit source port payload staged completion t with
      | (Ok id, t') => (Ok tt, (id :: held, t'))
      | (Err e, t') => (Err e, (held, t'))
      | (Panic, t') => (Panic, (held, t'))
      end
  | PEnqueue id => let '(o, t') := (Publications.enqueue id ;;; ret tt) t in (o, (held, t'))
  | PCancel id outcome => let '(o, t') := cancel id outcome t in (o, (held, t'))
  | PRoute turn => let '(o, t') := route turn t in (o, (held, t'))
  | PClone id =>
      if decide (id ∈ held) then
        let '(o, t') := Publications.clone_ticket id t in (o, (id :: held, t'))
      else (Ok tt, (held, t))
  | PDrop id =>
      if decide (id ∈ held) then
        let '(o, t') := Publications.drop_ticket id t in (o, (remove_one id held, t'))
      else (Ok tt, (held, t))
  end.

Fixpoint pub_run (cs : list pub_cmd) (held : list N) (t : PublicationTable) :
    bool * (list N * PublicationTable) :=
  match cs with
  | [] => (true, (held, t))
  | c :: cs =>
      match pub_exec c held t with
      | (Panic, s) => (false, s)
      | (_, (held, t)) => pub_run cs held t
      end
  end.

(** *** One command *)
Lemma closed_report_ok outcome p :
  pub_ok p → ∃ p' n, closed_report outcome p = Some (p', n) ∧ same_keys p p' ∧ pub_ok p' ∧
    pub_routes p' = pub_routes p ∧ dr_outcome (pub_report p') = outcome.
Proof.
  intros Hok. unfold closed_report, checked_sub. simpl. unfold pub_ok in Hok.
  destruct (pub_routes p) as [routes|] eqn:Hr.
  - rewrite decide_True by lia. do 2 eexists. split; [done|]. split; [done|].
    unfold pub_ok. simpl. rewrite Hr. done.
  - do 2 eexists. split; [done|]. split; [done|]. unfold pub_ok. simpl. rewrite Hr. done.
Qed.

Lemma close_spec held p t outcome :
  pt_hole held p t →
  ∃ t', close_publication outcome p t = (Ok tt, t') ∧ pt_wf held t' ∧ pub_evolves t t' ∧
    (pub_source p ∉ pt_ready t →
       pt_ready t' = pt_ready t ∨ pt_ready t' = pt_ready t ++ [pub_source p]).
Proof.
  intros Hh. destruct (hole_facts _ _ _ Hh) as (Hok & _).
  destruct (closed_report_ok outcome p Hok) as (p' & n & Hcl & Hsk & Hok' & Hr & _).
  pose proof (hole_same _ _ _ _ Hh Hsk Hok' Hr) as Hh'.
  destruct (finish_spec _ _ _ Hh') as (t' & Hrun & Hwf & _ & _ & _ & _ & Hready & Hev).
  exists t'. unfold close_publication, bind, expect. rewrite Hcl. simpl. rewrite <- (sk_source _ _ Hsk). done.
Qed.

Lemma route_spec held turn t :
  pt_wf held t →
  ∃ t', route turn t = (Ok tt, t') ∧ pt_wf held t' ∧ pub_evolves t t' ∧
    match pt_ready t with
    | [] => t' = t
    | s :: rest => pt_ready t' = rest ∨ pt_ready t' = rest ++ [s]
    end.
Proof.
  intros Hwf. unfold route, bind at 1.
  destruct (pop_ready_spec held t Hwf) as [[Hr ->]|(s & rest & p & t1 & Hr & -> & Hs & _ & _ & Hh & Hr1 & Hni & _ & _ & Hev1)].
  { exists t. by rewrite Hr. }
  rewrite Hr, <- Hr1. rewrite <- Hs, <- Hr1 in Hni.
  assert (∀ t' p', pub_source p' = pub_source p →
    (pt_ready t' = pt_ready t1 ∨ pt_ready t' = pt_ready t1 ++ [pub_source p']) →
    pt_ready t' = pt_ready t1 ∨ pt_ready t' = pt_ready t1 ++ [s]) as Hfin by (intros ?? ->; by rewrite Hs).
  assert (∀ t', pub_evolves t1 t' → pub_evolves t t') as Hev
    by (intros t'; eapply pub_evolves_trans; [intros id ts Hts; by apply (pc_ticket _ _ _ (proj1 Hwf)) in Hts as [? _]|done]).
  destruct (tn_early turn) as [o|].
  { destruct (close_spec _ _ _ o Hh) as (t' & Hrun & Hwf' & Hev' & Hr'). exists t'. eauto 10. }
  assert (∃ p2 t2, (match pub_routes p with Some _ => ret p | None => Publications.capture (tn_routes turn) p end) t1
    = (Ok p2, t2) ∧ pt_hole held p2 t2 ∧ pub_source p2 = pub_source p ∧ pt_ready t2 = pt_ready t1 ∧
    is_Some (pub_routes p2) ∧ pub_evolves t1 t2) as (p2 & t2 & Hrun2 & Hh2 & Hs2 & Hr2 & Hsome & Hev2).
  { destruct (pub_routes p) as [routes|] eqn:Hroutes.
    - exists p, t1. rewrite Hroutes. do 4 (split; [done|]). split; [by eexists|done].
    - destruct (capture_spec _ _ _ (tn_routes turn) Hh Hroutes) as (t2 & Hrun & Hh2 & Hr2 & Hev2).
      do 2 eexists. split; [done|]. split; [done|]. split; [done|]. split; [done|]. split; [by eexists|done]. }
  unfold bind at 1. rewrite Hrun2.
  destruct (hole_facts _ _ _ Hh2) as (Hok2 & _). destruct Hsome as [routes Hroutes].
  assert (pt_hole held (progress turn p2) t2) as Hh3.
  { eapply hole_same; [done|done| |done]. unfold pub_ok in *. simpl. rewrite Hroutes in *.
    split; [by apply Hok2|]. unfold pub_routes_len. rewrite Hroutes. lia. }
  assert (∀ t', pub_evolves t2 t' → pub_evolves t1 t') as Hev12.
  { intros t'. eapply pub_evolves_trans; [|done]. intros id ts Hts.
    by apply (pc_ticket _ _ _ (ph_core _ _ _ Hh)) in Hts as [? _]. }
  rewrite <- Hr2 in Hni. rewrite <- Hs2 in Hni.
  destruct (tn_done turn) as [o|].
  - destruct (close_spec _ _ _ o Hh3) as (t' & Hrun & Hwf' & Hev' & Hr'). exists t'.
    split; [done|]. split; [done|]. split; [by apply Hev, Hev12|]. rewrite <- Hr2.
    rewrite <- Hs, <- Hs2. by apply Hr'.
  - destruct (put_back_spec _ _ _ Hh3 Hni) as (t' & Hrun & Hwf' & _ & _ & _ & Hr' & Hev'). exists t'.
    split; [done|]. split; [done|]. split; [by apply Hev, Hev12|]. rewrite <- Hr2.
    rewrite <- Hs, <- Hs2. done.
Qed.

Lemma core_hand_out held id t :
  pt_core held (Some id) t → is_Some (pt_entries t !! id) → pt_core (id :: held) None t.
Proof.
  intros Hc [p Hp]. pose proof (pc_entry_ticket _ _ _ Hc _ _ Hp) as (ts & Hts & _).
  destruct Hc. split; try done.
  - intros i ts' Hts'. apply pc_ticket0 in Hts' as (? & -> & ?). split; [done|].
    rewrite count_id_cons. unfold extra in *. rewrite (bool_decide_false (None = _)) by done.
    rewrite (bool_decide_ext (Some id = Some i) (id = i)) in * by (split; congruence).
    simpl in *. lia.
  - intros i [->|Hi]%elem_of_cons; [by eexists|by apply pc_held0].
  - intros i ts' Hts' Hi _. eapply pc_terminal0; [done|done|]. intros [= ->]. congruence.
Qed.

Lemma submit_spec held source port payload staged completion t :
  pt_wf held t →
  (∃ e t', submit source port payload staged completion t = (Err e, t') ∧ pt_wf held t' ∧
     pt_entries t' = pt_entries t ∧ pub_evolves t t') ∨
  (∃ stored t', payload = inr stored ∧
     submit source port payload staged completion t = (Ok (pt_next_id t), t') ∧
     pt_wf (pt_next_id t :: held) t' ∧ pub_evolves t t' ∧
     pt_entries t' = <[pt_next_id t :=
       new_publication source port stored staged completion (pt_next_id t)]> (pt_entries t)).
Proof.
  intros [Hc Hr]. unfold submit, bind.
  destruct (reserve_ticket_cases held t source staged Hc) as
    [(e & -> & _)|(t1 & -> & Hc1 & Htk1 & Hn1 & Hl1 & Hp1 & He1 & Hb1 & Hr1 & Hrs1)].
  { left. exists e, t. split; [done|]. split; [done|]. split; done. }
  set (id := pt_next_id t) in *.
  assert (∀ i, is_Some (pt_entries t !! i) → N.lt i id) as Hlt.
  { intros i [p Hp]. apply (pc_entry_ticket _ _ _ Hc) in Hp as (ts & Hts & _).
    by apply (pc_ticket _ _ _ Hc) in Hts as [? _]. }
  assert (pt_entries t1 !! id = None) as Hout.
  { rewrite He1. apply eq_None_not_Some. intros Hin%Hlt. lia. }
  assert (ready_ok None t1) as Hrok.
  { destruct Hr as [Hnd Hset Hex]. split; rewrite ?Hr1, ?Hrs1; [done|done|]. intros s Hs. rewrite (Hex s Hs).
    unfold head_ready, Publications.head_of, Publications.queue_of. by rewrite He1, Hb1. }
  assert (pt_tickets t1 !! id = Some (MkTicket source (if staged then PStaged else PQueued) 1)) as Hts1
    by (rewrite Htk1; apply lookup_insert_eq).
  assert (∀ t', (∀ i, i ≠ id → pt_tickets t' !! i = pt_tickets t1 !! i) →
    pt_next_id t' = pt_next_id t1 → pt_limit t' = pt_limit t1 → pt_per_source t' = pt_per_source t1 →
    pub_evolves t t') as Hev.
  { intros t' Hoth Hn Hl Hp. apply (pub_evolves_ticket _ _ id); [|by right|..]; try (congruence || lia).
    - intros ts Hts. apply (pc_ticket _ _ _ Hc) in Hts as [? _]. lia.
    - intros i Hi. rewrite Hoth, Htk1 by done. by rewrite lookup_insert_ne. }
  destruct payload as [refusal|stored]; cycle 1.
  - right. exists stored. rewrite (clone_ticket_run _ _ _ Hts1). unfold modify, ret.
    set (p := new_publication source port stored staged completion id).
    set (ts := MkTicket source (if staged then PStaged else PQueued) 1) in *.
    assert (pt_core held (Some id) (queued p (update_ticket id (ts <| ts_strong ::= N.succ |>) t1))) as Hc2.
    { apply queued_core; try done; [by destruct staged|]. by rewrite He1. }
    assert (ready_ok None (Publications.ready_source source
      (queued p (update_ticket id (ts <| ts_strong ::= N.succ |>) t1)))) as Hr2.
    { apply (queued_ready _ p _ id); [done|done|..].
      - intros s Hin. apply (pc_queue _ _ _ Hc1) in Hin as (q & Hq & _). congruence.
      - intros s i Hin. apply (pc_queue _ _ _ Hc1) in Hin as (q & Hq & _). by eexists. }
    set (u := queued p (update_ticket id (ts <| ts_strong ::= N.succ |>) t1)) in *.
    destruct (queued_fields p (update_ticket id (ts <| ts_strong ::= N.succ |>) t1)) as
      (Heu & _ & _ & _ & _ & Hnu & Hlu & Hpu & _ & _ & _ & Htu). fold u in Heu, Hnu, Hlu, Hpu, Htu.
    exists (Publications.ready_source source u). split; [done|]. split; [done|]. clearbody u.
    destruct (ready_source_fields source u) as (He & _ & _ & Hn & Hl & Hp & _ & _ & _ & Htk).
    simpl in Heu, Hnu, Hlu, Hpu, Htu.
    split; [split; [|done]|split].
    + apply core_hand_out; [by apply ready_source_core|]. rewrite He, Heu, lookup_insert_eq. by eexists.
    + apply Hev; [|congruence..]. intros i Hi. rewrite Htk, Htu. by rewrite lookup_insert_ne.
    + rewrite He, Heu, He1. done.
  - left. destruct (drop_ticket_core held held (Some id) None t1 id _ Hc1 Hts1) as
      (t2 & Hrun & Hc2 & He2 & Hb2 & Hr2 & Hrs2 & _ & Hoth & Hn2 & Hl2 & Hp2).
    + rewrite extra_self, extra_none. lia.
    + done.
    + intros i Hi. split; congruence.
    + intros _. right. right. destruct (decide (0 < count_id id held)%N) as [Hin%count_id_pos|]; [|lia].
      apply (pc_held _ _ _ Hc) in Hin as [ts Hts]. apply (pc_ticket _ _ _ Hc) in Hts as [? _]. lia.
    + done.
    + exists refusal, t2. unfold fail. rewrite Hrun. split; [done|]. split; [split; [done|]|].
      * destruct Hrok as [Hnd Hset Hex]. split; rewrite ?Hr2, ?Hrs2; [done|done|]. intros s Hs.
        rewrite (Hex s Hs). unfold head_ready, Publications.head_of, Publications.queue_of. by rewrite He2, Hb2.
      * split; [congruence|]. by apply Hev.
Qed.

Lemma count_remove_one id i held :
  id ∈ held → (count_id i (remove_one id held) + b2n (bool_decide (id = i)) = count_id i held)%N.
Proof.
  induction held as [|x held IH]; intros Hin; [set_solver|]. simpl. rewrite count_id_cons.
  destruct (decide (x = id)) as [->|Hx].
  - apply N.add_comm.
  - rewrite count_id_cons, <- IH; [lia|]. set_solver.
Qed.

Lemma pub_exec_ok c held t :
  pt_wf held t →
  ∃ o held' t', pub_exec c held t = (o, (held', t')) ∧ o ≠ Panic ∧ pt_wf held' t' ∧ pub_evolves t t'.
Proof.
  intros Hwf. pose proof Hwf as [Hc Hr]. destruct c; simpl.
  - destruct (submit_spec held source port payload staged completion t Hwf) as
      [(e & t' & -> & ? & _ & ?)|(stored & t' & _ & -> & ? & ? & _)]; do 3 eexists; done.
  - unfold bind. destruct (enqueue_spec held t id Hwf) as [[_ ->]|(p & t' & _ & -> & ? & _ & _ & ?)];
      do 3 eexists; done.
  - unfold cancel, bind. destruct (pt_entries t !! id) as [p|] eqn:Hp.
    + destruct (take_entry_hole held t id p Hwf Hp) as (t1 & -> & Hh & Ht1).
      destruct (close_spec held p t1 outcome Hh) as (t' & -> & Hwf' & Hev & _).
      do 3 eexists. split; [done|]. split; [done|]. split; [done|]. rewrite Ht1 in Hev. by destruct Hev.
    + unfold Publications.take_entry, bind, get, modify, ret. rewrite Hp.
      assert (t <| pt_entries ::= delete id |> = t) as ->.
      { destruct t. unfold set_field. simpl in *. by rewrite delete_id. }
      do 3 eexists. done.
  - destruct (route_spec held turn t Hwf) as (t' & -> & ? & ? & _). do 3 eexists. done.
  - case_decide as Hin; [|by do 3 eexists]. pose proof (pc_held _ _ _ Hc _ Hin) as [ts Hts].
    pose proof (pc_ticket _ _ _ Hc _ _ Hts) as (_ & Hstr & Hpos).
    rewrite (clone_ticket_run _ _ _ Hts). do 3 eexists. split; [done|]. split; [done|]. split; [split|].
    + eapply update_ticket_core; try done; simpl; try lia.
      * rewrite extra_none in *. rewrite count_id_cons, (bool_decide_true (id = id)) by done. simpl. lia.
      * intros i Hi. rewrite count_id_cons, bool_decide_false by done. done.
      * intros [p Hp]. apply (pc_entry_ticket _ _ _ Hc) in Hp as (ts' & Hts' & _ & Ht). congruence.
      * intros He _. by eapply (pc_terminal _ _ _ Hc).
    + destruct Hr. by split.
    + apply (pub_evolves_ticket _ _ id); simpl; try done; [|by left|].
      * intros ts0 Hts0 _ ts'. rewrite lookup_insert_eq. intros [= <-]. simpl. congruence.
      * intros i Hi. by rewrite lookup_insert_ne.
  - case_decide as Hin; [|by do 3 eexists]. pose proof (pc_held _ _ _ Hc _ Hin) as [ts Hts].
    pose proof (λ i, count_remove_one id i held Hin) as Hcount.
    destruct (drop_ticket_core held (remove_one id held) None None t id ts Hc Hts) as
      (t2 & -> & Hc2 & He2 & Hb2 & Hr2 & Hrs2 & Hst2 & Hoth & Hn2 & Hl2 & Hp2); try done.
    + specialize (Hcount id). rewrite bool_decide_true in Hcount by done. simpl in Hcount. lia.
    + intros i Hi. specialize (Hcount i). rewrite bool_decide_false in Hcount by done. simpl in Hcount. lia.
    + intros He. left. by eapply (pc_terminal _ _ _ Hc).
    + do 3 eexists. split; [done|]. split; [done|]. split; [split; [done|]|].
      * destruct Hr as [Hnd Hset Hex]. split; rewrite ?Hr2, ?Hrs2; [done|done|]. intros s Hs.
        rewrite (Hex s Hs). unfold head_ready, Publications.head_of, Publications.queue_of. by rewrite He2, Hb2.
      * apply (pub_evolves_ticket _ _ id); [|left; by eexists|done|lia|done|done].
        intros ts0 Hts0 _ ts' Hts'. rewrite (Hst2 _ Hts'). congruence.
Qed.

Lemma new_pt_wf limit per_source : pt_wf [] (Publications.new limit per_source).
Proof.
  split; split; simpl; try done; try (unfold u64_max; lia).
  - intros id s. change (Publications.queue_of _ s) with ([] : list N).
    split; [set_solver|]. by intros (p & ? & _).
  - intros s. constructor.
  - intros d id. split; [set_solver|]. by intros (p & ? & _).
  - set_solver.
  - intros s. apply N.le_0_l.
  - constructor.
  - set_solver.
  - intros s _. split; [set_solver|]. by intros (p & ? & _).
Qed.

Lemma pub_run_ok cs held t :
  pt_wf held t →
  (pub_run cs held t).1 = true ∧ pt_wf (pub_run cs held t).2.1 (pub_run cs held t).2.2 ∧
  pub_evolves t (pub_run cs held t).2.2.
Proof.
  revert held t. induction cs as [|c cs IH]; intros held t Hwf; simpl; [done|].
  destruct (pub_exec_ok c held t Hwf) as (o & held' & t' & -> & Ho & Hwf' & Hev).
  destruct (IH held' t' Hwf') as (H1 & H2 & H3).
  destruct o; [| |done]; (split; [done|split; [done|]]);
    (eapply pub_evolves_trans; [|done..]); intros id ts Hts;
    by apply (pc_ticket _ _ _ (proj1 Hwf)) in Hts as [? _].
Qed.

(** ** Properties *)

(** C25. No sequence of submissions, releases, routing turns, cancellations and
    handle drops makes the publication table panic; its queues, ready list,
    deadline index, snapshot count and permit counts always agree with its
    entries and tickets, and the permit counts stay within the limits. *)
Theorem publication_table_invariant limit per_source cs :
  let run := pub_run cs [] (Publications.new limit per_source) in
  run.1 = true ∧ pt_wf run.2.1 run.2.2 ∧
  (pt_total run.2.2 ≤ limit)%N ∧ (∀ s, cnt_get s (pt_counts run.2.2) ≤ per_source)%N ∧
  (Publications.pending run.2.2 ≤ pt_total run.2.2)%N.
Proof.
  intros run. destruct (pub_run_ok cs [] _ (new_pt_wf limit per_source)) as (H1 & Hwf & Hev).
  fold run in H1, Hwf, Hev. split; [done|]. split; [done|]. destruct Hwf as [Hc _].
  destruct (pe_limits _ _ Hev) as [Hl Hp]. simpl in Hl, Hp.
  split; [rewrite <- Hl; apply Hc|]. split.
  - intros s. rewrite (cnt_get_wf _ _ _ (pc_counts _ _ _ Hc)), <- Hp. apply Hc.
  - rewrite (pc_total _ _ _ Hc). unfold Publications.pending.
    assert (dom (pt_entries run.2.2) ⊆ dom (pt_tickets run.2.2)) as Hsub.
    { intros id [p Hp']%elem_of_dom. apply (pc_entry_ticket _ _ _ Hc) in Hp' as (ts & Hts & _).
      apply elem_of_dom. by eexists. }
    apply subseteq_size in Hsub. rewrite !size_dom in Hsub. lia.
Qed.

(** C28. A ticket's report is final: whatever happens after a ticket became
    terminal, a caller that still holds it reads the same report; and a held
    ticket is terminal exactly when its publication has left the table. *)
Theorem ticket_terminal_final limit per_source cs cs' id ts report :
  let s := (pub_run cs [] (Publications.new limit per_source)).2 in
  let s' := (pub_run cs' s.1 s.2).2 in
  pt_tickets s.2 !! id = Some ts → ts_status ts = PTerminal report →
  pt_entries s'.2 !! id = None ∧
  (id ∈ s'.1 → ∃ ts', pt_tickets s'.2 !! id = Some ts' ∧ ts_status ts' = PTerminal report).
Proof.
  intros s s' Hts Hst.
  destruct (pub_run_ok cs [] _ (new_pt_wf limit per_source)) as (_ & Hwf & _). fold s in Hwf.
  destruct (pub_run_ok cs' _ _ Hwf) as (_ & Hwf' & Hev). fold s' in Hwf', Hev.
  destruct Hwf' as [Hc' _].
  assert (pt_tickets s'.2 !! id = None ∨ ∃ ts', pt_tickets s'.2 !! id = Some ts' ∧
    ts_status ts' = PTerminal report) as Hfin by by eapply (pe_final _ _ Hev).
  split.
  - destruct (pt_entries s'.2 !! id) as [p|] eqn:Hp; [|done].
    apply (pc_entry_ticket _ _ _ Hc') in Hp as (ts' & Hts' & _ & Hnt).
    destruct Hfin as [Hn|(ts'' & Hts'' & Hr)]; [congruence|]. simplify_eq. by rewrite Hr in Hnt.
  - intros Hin%(pc_held _ _ _ Hc'). destruct Hfin as [Hn|?]; [|done]. rewrite Hn in Hin. by destruct Hin.
Qed.

Definition ex_source : ActorRef := MkActorRef 1 0 1.
Definition ex_stored : Stored := MkStored 0 (Pulse 7) default_options None 8.
Lemma ticket_terminal_final_witness :
  let cs := [PSubmit ex_source None (inr ex_stored) false false; PCancel 1 PublicationOutcome.Cancelled] in
  let cs' := [PSubmit ex_source None (inr ex_stored) false false; PRoute (MkTurn None [] 0 0 None)] in
  let s := (pub_run cs [] (Publications.new 2 2)).2 in
  let s' := (pub_run cs' s.1 s.2).2 in
  let report := default_report <| dr_outcome := PublicationOutcome.Cancelled |> in
  pt_tickets s.2 !! 1%N = Some (MkTicket ex_source (PTerminal report) 1) ∧
  pt_entries s'.2 !! 1%N = None.
Proof.
  intros cs cs' s s' report.
  assert (pt_tickets s.2 !! 1%N = Some (MkTicket ex_source (PTerminal report) 1)) as Hts
    by (vm_compute; reflexivity).
  split; [exact Hts|].
  exact (proj1 (ticket_terminal_final 2 2 cs cs' 1 _ report Hts eq_refl)).
Defined.

(** C29. Routing is first in first out per source and round robin between
    sources: a turn serves the oldest pending publication of the first ready
    source, the other ready sources move up in order, and the served source
    goes to the end if it is ready again. *)
Theorem route_fifo_round_robin limit per_source cs turn :
  let held := (pub_run cs [] (Publications.new limit per_source)).2.1 in
  let t := (pub_run cs [] (Publications.new limit per_source)).2.2 in
  ∃ t', route turn t = (Ok tt, t') ∧
  match pt_ready t with
  | [] => t' = t ∧ ∀ id p, pt_entries t !! id = Some p →
            ∃ p', Publications.head_of t (pub_source p) = Some p' ∧ pub_staged p' = true
  | s :: rest =>
      (∃ p, (Publications.pop_ready t).1 = Ok (Some p) ∧ pub_source p = s ∧
         ∀ id q, pt_entries t !! id = Some q → pub_source q = s → (pub_ticket p ≤ id)%N) ∧
      (pt_ready t' = rest ∨ pt_ready t' = rest ++ [s])
  end.
Proof.
  intros held t. destruct (pub_run_ok cs [] _ (new_pt_wf limit per_source)) as (_ & Hwf & _).
  fold held t in Hwf. destruct (route_spec held turn t Hwf) as (t' & Hrun & _ & _ & Hready).
  exists t'. split; [done|].
  destruct (pop_ready_spec held t Hwf) as [[Hr _]|(s & rest & p & t1 & Hr & Hpop & Hs & Hhead & _)];
    rewrite Hr in *; destruct Hwf as [Hc Hrok].
  - split; [done|]. intros id p Hp.
    assert (id ∈ Publications.queue_of t (pub_source p)) as Hin by (apply (pc_queue _ _ _ Hc); eauto).
    destruct (Publications.queue_of t (pub_source p)) as [|i q] eqn:Hq; [set_solver|].
    assert (i ∈ Publications.queue_of t (pub_source p)) as Hi by (rewrite Hq; set_solver).
    apply (pc_queue _ _ _ Hc) in Hi as (p' & Hp' & Hs'). exists p'.
    assert (Publications.head_of t (pub_source p) = Some p') as Hhead
      by (unfold Publications.head_of; by rewrite Hq).
    split; [done|]. destruct (pub_staged p') eqn:Hst; [done|]. exfalso.
    assert (pub_source p ∈ pt_ready t) as Hin' by (apply (ro_exact _ _ Hrok); [done|by exists p']).
    rewrite Hr in Hin'. set_solver.
  - split; [|done]. exists p. split; [by rewrite Hpop|]. split; [done|]. intros id q Hq Hqs.
    assert (id ∈ Publications.queue_of t s) as Hin by (apply (pc_queue _ _ _ Hc); eauto).
    pose proof (pc_sorted _ _ _ Hc s) as Hsort. unfold Publications.head_of in Hhead.
    destruct (Publications.queue_of t s) as [|i l]; [done|]. simpl in Hhead.
    apply (pc_entry _ _ _ Hc) in Hhead as [-> _].
    apply StronglySorted_inv in Hsort as [_ Hall]. rewrite Forall_forall in Hall.
    apply elem_of_cons in Hin as [->|Hin]; [done|]. specialize (Hall _ Hin). lia.
Qed.
