(* ===== verification/Schema.v ===== *)
(** * Schemas and their canonical codec

    [crates/runtime-core/src/schema.rs] and [schema/encode.rs]: structural
    schemas, their validation, and the canonical little-endian encoding of
    typed values.  Errors are the source's messages, cut to 256 characters and
    prefixed with the path of the field they come from. *)
From S2P Require Import Prelude Collections Text.
From stdpp Require Import pretty.

(** ** Little-endian integers *)
Definition byte_of (n : N) : byte := default Byte.x00 (Byte.of_N n).
Fixpoint le_encode (k : nat) (x : N) : list byte :=
  match k with
  | O => []
  | S k => byte_of (x mod 256) :: le_encode k (x / 256)
  end.
Fixpoint le_decode (l : list byte) : N :=
  match l with
  | [] => 0
  | b :: l => Byte.to_N b + 256 * le_decode l
  end.
(** Two's complement of an [i64]. *)
Definition i64_bits (x : Z) : N := Z.to_N (x mod 2 ^ 64).
Definition i64_of_bits (n : N) : Z :=
  if (n <? 2 ^ 63)%N then Z.of_N n else Z.of_N n - 2 ^ 64.

(** ** IEEE 754 bit patterns; a double is its bits *)
Definition f64_exponent (x : N) : N := N.land (N.shiftr x 52) 2047.
Definition f64_mantissa (x : N) : N := N.land x (2 ^ 52 - 1).
Definition is_finite (x : N) : bool := negb (f64_exponent x =? 2047)%N.
Definition is_nan (x : N) : bool := (f64_exponent x =? 2047)%N && negb (f64_mantissa x =? 0)%N.
Definition canonical_nan : N := 9221120237041090560. (* 0x7ff8000000000000 *)

(** ** Schemas and values *)
#[local] Set Warnings "-register-all".
Record field (T : Type) := MkField { f_name : string; f_ty : T }.
Arguments MkField {T} _ _.
Arguments f_name {T} _.
Arguments f_ty {T} _.
Record schema (T : Type) := MkSchema {
  s_name : string; s_version : N; s_fields : list (field T)
}.
Arguments MkSchema {T} _ _ _.
Arguments s_name {T} _.
Arguments s_version {T} _.
Arguments s_fields {T} _.

Inductive FieldType :=
| TyInt (min max : Z)
| TyUInt (min max : N)
| TyFloat (allow_non_finite : bool)
| TyBool
| TyString (max_bytes : N)
| TyBytes (max_bytes : N)
| TyEnum (name : string) (variants : list string)
| TyOptional (x : FieldType)
| TySequence (item : FieldType) (max_len : N)
| TyRecord (s : schema FieldType).
Abbreviation Schema := (schema FieldType).
Abbreviation Field := (field FieldType).

Inductive Value :=
| VInt (x : Z)
| VUInt (x : N)
| VFloat (bits : N)
| VBool (x : bool)
| VString (x : string)
| VBytes (x : list byte)
| VEnum (x : N)
| VOptional (x : option Value)
| VSequence (x : list Value)
| VRecord (x : list Value).

(** ** Errors *)
Definition err (s : string) : string := of_bytes (take_chars 256 (bytes_of s)).
Definition at_field (e name : string) : string := err (name ++ "." ++ e)%string.
Definition at_index (e : string) (index : N) : string :=
  at_field e ("[" ++ pretty index ++ "]")%string.

(** [r.map_err(|e| e.at(name))] *)
Definition map_err {S E A} (f : E → E) (m : M S E A) : M S E A := λ s,
  match m s with
  | (Err e, s) => (Err (f e), s)
  | r => r
  end.

Definition max_depth : N := 16.
Definition max_schema_nodes : N := 1024.
Definition max_value_nodes : N := 4096.
Definition max_event : N := 2 ^ 20.

(** Byte order of strings. *)
Definition str_key (s : string) : list N := Byte.to_N <$> bytes_of s.
Fixpoint has_unsorted_pair (l : list string) : bool :=
  match l with
  | a :: (b :: _) as l' => lex_leb (str_key b) (str_key a) || has_unsorted_pair l'
  | _ => false
  end.

(** ** Validation: the state is the number of nodes visited *)
Module SchemaCheck.
Section fields.
Context (valid_ty : FieldType → N → M N string unit).
Fixpoint valid_fields (fields : list Field) (names : list string) (d : N) : M N string unit :=
  match fields with
  | [] => ret tt
  | MkField name ty :: fields =>
      reject_if ((str_len name =? 0)%N || (128 <? str_len name)%N) (err "invalid field metadata") ;;;
      reject_if (bool_decide (name ∈ names)) (err "duplicate field name") ;;;
      map_err (λ e, at_field e name) (valid_ty ty (d + 1)%N) ;;;
      valid_fields fields (name :: names) d
  end.
Definition validate_schema (s : Schema) (d : N) : M N string unit :=
  let 'MkSchema name version fields := s in
  reject_if (max_depth <? d)%N (err "schema depth limit") ;;;
  modify N.succ ;;;
  let! nodes := get in
  reject_if (max_schema_nodes <? nodes)%N (err "schema node limit") ;;;
  reject_if ((str_len name =? 0)%N || (256 <? str_len name)%N || (version =? 0)%N ||
             (256 <? N.of_nat (length fields))%N) (err "invalid schema metadata") ;;;
  valid_fields fields [] d.
End fields.

Fixpoint valid_ty (t : FieldType) (d : N) {struct t} : M N string unit :=
  match t with
  | TyRecord s => validate_schema valid_ty s d
  | _ =>
      modify N.succ ;;;
      let! nodes := get in
      reject_if (max_schema_nodes <? nodes)%N (err "schema node limit 1024") ;;;
      reject_if (max_depth <? d)%N (err "schema depth limit") ;;;
      match t with
      | TyInt min max => reject_if (max <? min)%Z (err "invalid integer range")
      | TyUInt min max => reject_if (max <? min)%N (err "invalid unsigned range")
      | TyString max_bytes | TyBytes max_bytes => reject_if (max_event <? max_bytes)%N (err "byte limit")
      | TyEnum name variants =>
          reject_if ((str_len name =? 0)%N || (256 <? str_len name)%N || bool_decide (variants = []) ||
                     (256 <? N.of_nat (length variants))%N ||
                     existsb (λ v, (str_len v =? 0)%N || (256 <? str_len v)%N) variants ||
                     has_unsorted_pair variants) (err "enum limit")
      | TyOptional x => valid_ty x (d + 1)%N
      | TySequence item max_len =>
          reject_if (4096 <? max_len)%N (err "sequence limit") ;;;
          valid_ty item (d + 1)%N
      | _ => ret tt
      end
  end.

(** [Schema::validate] *)
Definition validate (s : Schema) : outcome string unit := (validate_schema valid_ty s 0 0%N).1.
End SchemaCheck.

(** ** Decoding: the reader's state is what is left of the input *)
Record Reader := MkReader { rd_rest : list byte; rd_nodes : N }.
#[export] Instance Reader_expand : Expand Reader := λ r, MkReader (rd_rest r) (rd_nodes r).
Abbreviation RdM := (M Reader string).

Module Decode.
Definition take_n (n : N) : RdM (list byte) :=
  let! r := get in
  reject_if (N.of_nat (length (rd_rest r)) <? n)%N (err "truncated value") ;;;
  modify (λ r, r <| rd_rest ::= drop (N.to_nat n) |>) ;;;
  ret (take (N.to_nat n) (rd_rest r)).
Definition uint (k : nat) : RdM N := let! b := take_n (N.of_nat k) in ret (le_decode b).
(** [self.take(1)?[0]] *)
Definition one : RdM byte := let! b := take_n 1 in expect (head b).

Section record.
Context (build : bool) (val : FieldType → N → RdM Value).
Fixpoint fields (l : list Field) (d : N) : RdM (list Value) :=
  match l with
  | [] => ret []
  | MkField name ty :: l =>
      let! value := map_err (λ e, at_field e name) (val ty (d + 1)%N) in
      let! out := fields l d in
      ret (if build then value :: out else out)
  end.
Definition record (s : Schema) (d : N) : RdM Value :=
  let 'MkSchema name version l := s in
  modify (λ r, r <| rd_nodes ::= N.succ |>) ;;;
  let! r := get in
  reject_if ((max_value_nodes <? rd_nodes r)%N || (max_depth <? d)%N) (err "value node limit") ;;;
  let! out := fields l d in
  ret (VRecord out).
Fixpoint items (item : RdM Value) (n : nat) (index : N) : RdM (list Value) :=
  match n with
  | O => ret []
  | S n =>
      let! value := map_err (λ e, at_index e index) item in
      let! out := items item n (N.succ index) in
      ret (if build then value :: out else out)
  end.
End record.

Fixpoint val (build : bool) (t : FieldType) (d : N) {struct t} : RdM Value :=
  match t with
  | TyRecord s => record build (val build) s d
  | _ =>
      modify (λ r, r <| rd_nodes ::= N.succ |>) ;;;
      let! r := get in
      reject_if (max_value_nodes <? rd_nodes r)%N (err "value node limit") ;;;
      reject_if (max_depth <? d)%N (err "value depth limit") ;;;
      match t with
      | TyInt min max =>
          let! n := uint 8 in
          let v := i64_of_bits n in
          reject_if ((v <? min)%Z || (max <? v)%Z) (err "integer range") ;;;
          ret (VInt v)
      | TyUInt min max =>
          let! v := uint 8 in
          reject_if ((v <? min)%N || (max <? v)%N) (err "unsigned range") ;;;
          ret (VUInt v)
      | TyFloat allow_non_finite =>
          let! x := uint 8 in
          reject_if (negb allow_non_finite && negb (is_finite x)) (err "non-finite float") ;;;
          reject_if (allow_non_finite && is_nan x && negb (x =? canonical_nan)%N)
            (err "non-canonical NaN") ;;;
          ret (VFloat x)
      | TyBool =>
          let! b := one in
          if (Byte.to_N b =? 0)%N then ret (VBool false)
          else if (Byte.to_N b =? 1)%N then ret (VBool true)
          else fail (err "invalid bool")
      | TyString max_bytes =>
          let! n := uint 4 in
          reject_if (max_bytes <? n)%N (err "string limit") ;;;
          let! text := take_n n in
          reject_if (negb (utf8_valid text)) (err "expected valid UTF-8 string") ;;;
          ret (VString (if build then of_bytes text else ""%string))
      | TyBytes max_bytes =>
          let! n := uint 4 in
          reject_if (max_bytes <? n)%N (err "bytes limit") ;;;
          let! bytes := take_n n in
          ret (VBytes (if build then bytes else []))
      | TyEnum _ variants =>
          let! n := uint 4 in
          reject_if (N.of_nat (length variants) <=? n)%N (err "enum index") ;;;
          ret (VEnum n)
      | TyOptional x =>
          let! p := one in
          if (Byte.to_N p =? 0)%N then ret (VOptional None)
          else if (Byte.to_N p =? 1)%N then
            let! value := val build x (d + 1)%N in
            ret (VOptional (if build then Some value else None))
          else fail (err "invalid option")
      | TySequence item max_len =>
          let! n := uint 4 in
          let! r := get in
          reject_if ((max_len <? n)%N || (max_value_nodes - rd_nodes r <? n)%N) (err "sequence length") ;;;
          let! v := items build (val build item (d + 1)%N) (N.to_nat n) 0 in
          ret (VSequence v)
      | TyRecord _ => panic
      end
  end.

(** [Schema::read] *)
Definition read (build : bool) (s : Schema) (b : list byte) : outcome string Value :=
  if (max_event <? N.of_nat (length b))%N then Err (err "event exceeds 1048576 bytes") else
  match map_err (λ e, at_field e (s_name s)) (record build (val build) s 0) (MkReader b 0) with
  | (Ok out, r) => if bool_decide (rd_rest r = []) then Ok out else Err (err "trailing bytes")
  | (o, _) => o
  end.
Definition validate_registered_bytes (s : Schema) (b : list byte) : outcome string unit :=
  match read false s b with Ok _ => Ok tt | Err e => Err e | Panic => Panic end.
Definition validate_bytes (s : Schema) (b : list byte) : outcome string unit :=
  match SchemaCheck.validate s with Ok _ => validate_registered_bytes s b | Err e => Err e | Panic => Panic end.
Definition decode (s : Schema) (b : list byte) : outcome string Value :=
  match SchemaCheck.validate s with Ok _ => read true s b | Err e => Err e | Panic => Panic end.
End Decode.

(** ** Encoding *)
Record Writer := MkWriter { wr_out : list byte; wr_nodes : N }.
#[export] Instance Writer_expand : Expand Writer := λ r, MkWriter (wr_out r) (wr_nodes r).
Abbreviation WrM := (M Writer string).

Module Encode.
Section writer.
Context (max : N).
Definition add (b : list byte) : WrM unit :=
  let! w := get in
  match checked_add usize_max (N.of_nat (length (wr_out w))) (N.of_nat (length b)) with
  | None => fail (err "event size")
  | Some size =>
      reject_if (max <? size)%N (err "event size") ;;;
      modify (λ w, w <| wr_out ::= λ out, out ++ b |>)
  end.
Definition node (d : N) : WrM unit :=
  modify (λ w, w <| wr_nodes ::= N.succ |>) ;;;
  let! w := get in
  reject_if ((max_value_nodes <? wr_nodes w)%N || (max_depth <? d)%N) (err "value node/depth limit").

Section record.
Context (val : FieldType → Value → N → WrM unit).
Fixpoint fields (l : list Field) (vals : list Value) (d : N) : WrM unit :=
  match l, vals with
  | MkField name ty :: l, x :: vals =>
      map_err (λ e, at_field e name) (val ty x (d + 1)%N) ;;;
      fields l vals d
  | _, _ => ret tt
  end.
Definition record (s : Schema) (v : Value) (d : N) : WrM unit :=
  let 'MkSchema name version l := s in
  node d ;;;
  match v with
  | VRecord vals =>
      reject_if (bool_decide (length vals ≠ length l)) (err "record field count") ;;;
      fields l vals d
  | _ => fail (err "expected record")
  end.
Fixpoint items (item : Value → WrM unit) (l : list Value) (index : N) : WrM unit :=
  match l with
  | [] => ret tt
  | x :: l => map_err (λ e, at_index e index) (item x) ;;; items item l (N.succ index)
  end.
End record.

Definition u32_bytes (n : N) : list byte := le_encode 4 (n mod 2 ^ 32).

Fixpoint val (t : FieldType) (v : Value) (d : N) {struct t} : WrM unit :=
  match t with
  | TyRecord s => record val s v d
  | _ =>
      node d ;;;
      let mismatch := fail (err "value does not match schema") in
      match t, v with
      | TyInt min max_, VInt x =>
          if (min <=? x)%Z && (x <=? max_)%Z then add (le_encode 8 (i64_bits x)) else mismatch
      | TyUInt min max_, VUInt x =>
          if (min <=? x)%N && (x <=? max_)%N then add (le_encode 8 x) else mismatch
      | TyFloat allow_non_finite, VFloat x =>
          reject_if (negb allow_non_finite && negb (is_finite x)) (err "invalid float") ;;;
          add (le_encode 8 (if is_nan x then canonical_nan else x))
      | TyBool, VBool x => add [byte_of (b2n x)]
      | TyString max_bytes, VString x =>
          reject_if (max_bytes <? str_len x)%N (err "string limit") ;;;
          add (u32_bytes (str_len x)) ;;;
          add (bytes_of x)
      | TyBytes max_bytes, VBytes b =>
          reject_if (max_bytes <? N.of_nat (length b))%N (err "bytes limit") ;;;
          add (u32_bytes (N.of_nat (length b))) ;;;
          add b
      | TyEnum _ variants, VEnum x =>
          if (x <? N.of_nat (length variants))%N then add (le_encode 4 x) else mismatch
      | TyOptional x, VOptional v =>
          match v with
          | None => add [byte_of 0]
          | Some v => add [byte_of 1] ;;; val x v (d + 1)%N
          end
      | TySequence item max_len, VSequence v =>
          if (N.of_nat (length v) <=? max_len)%N then
            let! w := get in
            reject_if (max_value_nodes - wr_nodes w <? N.of_nat (length v))%N
              (err "remaining value node limit") ;;;
            add (u32_bytes (N.of_nat (length v))) ;;;
            items (λ x, val item x (d + 1)%N) v 0
          else mismatch
      | TyRecord _, _ => panic
      | _, _ => mismatch
      end
  end.
End writer.

(** [encode::encode] *)
Definition encode (s : Schema) (v : Value) (max_bytes : N) : outcome string (list byte) :=
  match SchemaCheck.validate s with
  | Err e => Err e
  | Panic => Panic
  | Ok _ =>
      if (max_event <? max_bytes)%N then Err (err "event byte limit") else
      match map_err (λ e, at_field e (s_name s)) (record (val max_bytes) s v 0) (MkWriter [] 0) with
      | (Ok _, w) => Ok (wr_out w)
      | (Err e, _) => Err e
      | (Panic, _) => Panic
      end
  end.
End Encode.

(** ** Cloning *)
Fixpoint normalize_ty (t : FieldType) : FieldType :=
  match t with
  | TyOptional x => TyOptional (normalize_ty x)
  | TySequence item max_len => TySequence (normalize_ty item) max_len
  | TyRecord (MkSchema name version fields) =>
      TyRecord (MkSchema name version (map (λ x, let 'MkField n t := x in MkField n (normalize_ty t)) fields))
  | TyEnum name variants => TyEnum name variants
  | t => t
  end.
Definition normalized_clone (s : Schema) : Schema :=
  MkSchema (s_name s) (s_version s)
    (map (λ x, let 'MkField n t := x in MkField n (normalize_ty t)) (s_fields s)).
