(* ===== verification/SchemaCodec.v ===== *)
(** * Schema codec: correctness

    Encoding and decoding are inverse to each other, the two modes of the
    reader accept the same inputs, and validation bounds a schema. *)
From S2P Require Import Prelude Collections Text Schema.

(** ** Little-endian integers *)
Lemma to_N_byte_of n : (n < 256)%N → Byte.to_N (byte_of n) = n.
Proof.
  intros Hn. unfold byte_of. destruct (Byte.of_N n) as [b|] eqn:Hb; simpl.
  - by apply Byte.to_of_N.
  - apply Byte.of_N_None_iff in Hb. lia.
Qed.
Lemma byte_of_to_N b : byte_of (Byte.to_N b) = b.
Proof. unfold byte_of. by rewrite Byte.of_to_N. Qed.
Lemma to_N_bound b : (Byte.to_N b < 256)%N.
Proof. pose proof (Byte.to_N_bounded b). lia. Qed.

Lemma length_le_encode k x : length (le_encode k x) = k.
Proof. revert x. induction k as [|k IH]; intros x; simpl; [done|]. by rewrite IH. Qed.

Lemma le_decode_encode k x : (x < 256 ^ N.of_nat k)%N → le_decode (le_encode k x) = x.
Proof.
  revert x. induction k as [|k IH]; intros x Hx; simpl.
  { change (256 ^ N.of_nat 0)%N with 1%N in Hx. lia. }
  rewrite Nat2N.inj_succ, N.pow_succ_r' in Hx.
  rewrite to_N_byte_of by (apply N.mod_lt; lia). rewrite IH.
  - pose proof (N.div_mod x 256). lia.
  - apply N.Div0.div_lt_upper_bound. lia.
Qed.

Lemma le_encode_decode l : le_encode (length l) (le_decode l) = l.
Proof.
  induction l as [|b l IH]; simpl; [done|]. pose proof (to_N_bound b).
  replace ((Byte.to_N b + 256 * le_decode l) mod 256)%N with (Byte.to_N b).
  2: { rewrite N.mul_comm, N.Div0.mod_add, N.mod_small; done. }
  replace ((Byte.to_N b + 256 * le_decode l) / 256)%N with (le_decode l).
  2: { rewrite N.mul_comm, N.div_add, N.div_small; done. }
  by rewrite byte_of_to_N, IH.
Qed.

Lemma le_decode_bound l : (le_decode l < 256 ^ N.of_nat (length l))%N.
Proof.
  induction l as [|b l IH]; [done|]. cbn [le_decode length]. pose proof (to_N_bound b).
  rewrite Nat2N.inj_succ, N.pow_succ_r'. nia.
Qed.

Lemma i64_of_bits_bits x : (- 2 ^ 63 ≤ x < 2 ^ 63)%Z → i64_of_bits (i64_bits x) = x.
Proof.
  intros Hx. unfold i64_of_bits, i64_bits.
  pose proof (Z.mod_pos_bound x (2 ^ 64) ltac:(lia)) as Hm.
  pose proof (Z.div_mod x (2 ^ 64) ltac:(lia)) as Hd.
  assert (x / 2 ^ 64 = 0 ∨ x / 2 ^ 64 = -1)%Z as Hq by lia.
  case_match eqn:E; rewrite Z2N.id by lia; lia.
Qed.
Lemma i64_bits_of_bits n : (n < 2 ^ 64)%N → i64_bits (i64_of_bits n) = n.
Proof.
  intros Hn. unfold i64_of_bits, i64_bits. case_match eqn:E.
  - rewrite Z.mod_small by lia. lia.
  - replace (Z.of_N n - 2 ^ 64)%Z with (Z.of_N n + (-1) * 2 ^ 64)%Z by lia.
    rewrite Z.mod_add by lia. rewrite Z.mod_small by lia. lia.
Qed.
Lemma i64_of_bits_range n : (n < 2 ^ 64)%N → (- 2 ^ 63 ≤ i64_of_bits n < 2 ^ 63)%Z.
Proof. intros Hn. unfold i64_of_bits. case_match; lia. Qed.
Lemma pow_256_8 : (256 ^ N.of_nat 8 = 2 ^ 64)%N.
Proof. reflexivity. Qed.
Lemma pow_256_4 : (256 ^ N.of_nat 4 = 2 ^ 32)%N.
Proof. reflexivity. Qed.
Lemma i64_bits_bound x : (i64_bits x < 256 ^ N.of_nat 8)%N.
Proof.
  rewrite pow_256_8.
  unfold i64_bits. pose proof (Z.mod_pos_bound x (2 ^ 64) ltac:(lia)).
  lia.
Qed.

#[local] Arguments le_encode : simpl never.
#[local] Arguments le_decode : simpl never.
#[local] Arguments i64_bits : simpl never.
#[local] Arguments i64_of_bits : simpl never.
#[local] Arguments is_nan : simpl never.
#[local] Arguments is_finite : simpl never.
#[local] Arguments canonical_nan : simpl never.
#[local] Arguments byte_of : simpl never.
#[local] Arguments N.pow : simpl never.
#[local] Arguments Z.pow : simpl never.
#[local] Arguments Decode.uint : simpl never.
#[local] Arguments Decode.one : simpl never.
#[local] Arguments Decode.take_n : simpl never.
#[local] Arguments Encode.add : simpl never.
#[local] Arguments Encode.node : simpl never.
#[local] Arguments Encode.u32_bytes : simpl never.
#[local] Arguments String.list_byte_of_string : simpl never.

(** ** Induction over types *)
Section ty_ind.
Context (P : FieldType → Prop).
Context (Hint : ∀ a b, P (TyInt a b)) (Huint : ∀ a b, P (TyUInt a b)) (Hfloat : ∀ a, P (TyFloat a)).
Context (Hbool : P TyBool) (Hstring : ∀ m, P (TyString m)) (Hbytes : ∀ m, P (TyBytes m)).
Context (Henum : ∀ n vs, P (TyEnum n vs)) (Hopt : ∀ x, P x → P (TyOptional x)).
Context (Hseq : ∀ x m, P x → P (TySequence x m)).
Context (Hrec : ∀ s, Forall (λ f, P (f_ty f)) (s_fields s) → P (TyRecord s)).
Fixpoint FieldType_nested_ind (t : FieldType) : P t :=
  match t with
  | TyInt a b => Hint a b
  | TyUInt a b => Huint a b
  | TyFloat a => Hfloat a
  | TyBool => Hbool
  | TyString m => Hstring m
  | TyBytes m => Hbytes m
  | TyEnum n vs => Henum n vs
  | TyOptional x => Hopt x (FieldType_nested_ind x)
  | TySequence x m => Hseq x m (FieldType_nested_ind x)
  | TyRecord s => Hrec s
      (match s with
       | MkSchema _ _ fields =>
           (fix go (l : list Field) : Forall (λ f, P (f_ty f)) l :=
              match l with
              | [] => Forall_nil_2 _
              | MkField n t :: l => Forall_cons_2 _ (MkField n t) l (FieldType_nested_ind t) (go l)
              end) fields
       end)
  end.
End ty_ind.

(** ** What validation establishes *)
#[local] Set Warnings "-register-all".
Inductive ty_ok : FieldType → Prop :=
| ok_int a b : (a ≤ b)%Z → ty_ok (TyInt a b)
| ok_uint a b : (a ≤ b)%N → ty_ok (TyUInt a b)
| ok_float a : ty_ok (TyFloat a)
| ok_bool : ty_ok TyBool
| ok_string m : (m ≤ max_event)%N → ty_ok (TyString m)
| ok_bytes m : (m ≤ max_event)%N → ty_ok (TyBytes m)
| ok_enum n vs : (N.of_nat (length vs) ≤ 256)%N → vs ≠ [] → ty_ok (TyEnum n vs)
| ok_opt x : ty_ok x → ty_ok (TyOptional x)
| ok_seq x m : (m ≤ 4096)%N → ty_ok x → ty_ok (TySequence x m)
| ok_rec s : NoDup (f_name <$> s_fields s) → (N.of_nat (length (s_fields s)) ≤ 256)%N →
    Forall (λ f, ty_ok (f_ty f)) (s_fields s) → ty_ok (TyRecord s).

(** ** Monadic inversion *)
Lemma bind_run {S E A B} (m : M S E A) (k : A → M S E B) s a s1 :
  m s = (Ok a, s1) → bind m k s = k a s1.
Proof. unfold bind. by intros ->. Qed.
Lemma reject_if_ok {S E} c (e : E) (s s' : S) u :
  reject_if c e s = (Ok u, s') → c = false ∧ s' = s.
Proof. destruct c; simpl; [done|]. unfold ret. intros [= <- <-]. done. Qed.
Lemma reject_if_run {S E} c (e : E) (s : S) : c = false → reject_if c e s = (Ok tt, s).
Proof. by intros ->. Qed.
Lemma map_err_ok {S E A} (f : E → E) (m : M S E A) s a s' :
  map_err f m s = (Ok a, s') ↔ m s = (Ok a, s').
Proof. unfold map_err. destruct (m s) as [[?|?|] ?]; naive_solver. Qed.

Ltac inv_ok H :=
  match type of H with
  | bind get _ _ = (Ok _, _) => unfold bind at 1, get in H
  | bind (modify _) _ _ = (Ok _, _) => unfold bind at 1, modify in H
  | bind (reject_if _ _) _ _ = (Ok _, _) =>
      let a := fresh in let s := fresh "s" in let H1 := fresh in let Hc := fresh "Hc" in
      apply bind_ok in H as (a & s & H1 & H); apply reject_if_ok in H1 as [Hc ->]
  | bind _ _ _ = (Ok _, _) =>
      let a := fresh "a" in let s := fresh "s" in let H1 := fresh "Hrun" in
      apply bind_ok in H as (a & s & H1 & H)
  | reject_if _ _ _ = (Ok _, _) => let Hc := fresh "Hc" in apply reject_if_ok in H as [Hc H]
  | ret _ _ = (Ok _, _) => unfold ret in H; injection H as <- <-
  | fail _ _ = (Ok _, _) => discriminate H
  end.

(** ** Validation implies well-formedness *)
Lemma valid_fields_ok fields names d n u n' :
  Forall (λ f : Field, ∀ d n u n', SchemaCheck.valid_ty (f_ty f) d n = (Ok u, n') → ty_ok (f_ty f)) fields →
  SchemaCheck.valid_fields SchemaCheck.valid_ty fields names d n = (Ok u, n') →
  Forall (λ f, ty_ok (f_ty f)) fields ∧ NoDup (f_name <$> fields) ∧
  (∀ f, f ∈ fields → f_name f ∉ names).
Proof.
  revert names n. induction fields as [|[name ty] fields IH]; intros names n Hall Hrun; simpl in Hrun.
  { split; [done|]. split; [constructor|set_solver]. }
  apply Forall_cons in Hall as [Hty Hall]. repeat inv_ok Hrun.
  apply map_err_ok in Hrun0. simpl in Hty. apply Hty in Hrun0.
  destruct (IH _ _ Hall Hrun) as (Hok & Hnd & Hnew). apply bool_decide_eq_false in Hc0.
  split; [by constructor|]. split.
  - simpl. constructor; [|done]. intros (f & Hf & Hin)%list_elem_of_fmap.
    apply Hnew in Hin. set_solver.
  - intros f [->|Hin]%elem_of_cons; [done|]. apply Hnew in Hin. set_solver.
Qed.

Lemma valid_ty_ok t : ∀ d n u n', SchemaCheck.valid_ty t d n = (Ok u, n') → ty_ok t.
Proof.
  induction t using FieldType_nested_ind; intros d n' u n'' Hrun; simpl in Hrun;
    try (repeat inv_ok Hrun; constructor; by try lia).
  - repeat inv_ok Hrun. rewrite !orb_false_iff in Hc1. constructor; [lia|].
    destruct Hc1 as (((((_ & _) & Hnil) & _) & _) & _). by apply bool_decide_eq_false in Hnil.
  - repeat inv_ok Hrun. constructor. by eapply IHt.
  - repeat inv_ok Hrun. constructor; [lia|]. by eapply IHt.
  - destruct s as [name version fields]. simpl in *. repeat inv_ok Hrun.
    destruct (valid_fields_ok _ _ _ _ _ _ H Hrun) as (Hok & Hnd & _).
    rewrite !orb_false_iff in Hc1. constructor; simpl; [done|lia|done].
Qed.

Lemma validate_ok s : SchemaCheck.validate s = Ok tt → ty_ok (TyRecord s).
Proof.
  unfold SchemaCheck.validate. destruct (SchemaCheck.validate_schema _ s 0 0%N) as [o n] eqn:Hrun.
  simpl. intros ->. by apply (valid_ty_ok (TyRecord s) 0 0%N tt n).
Qed.

(** ** Values as the source's types hold them *)
Fixpoint value_ok (v : Value) : bool :=
  match v with
  | VInt x => ((- 2 ^ 63 <=? x) && (x <? 2 ^ 63))%Z
  | VUInt x | VFloat x => (x <? 2 ^ 64)%N
  | VEnum x => (x <? 2 ^ 32)%N
  | VString x => utf8_valid (bytes_of x)
  | VOptional (Some v) => value_ok v
  | VSequence l | VRecord l => forallb value_ok l
  | _ => true
  end.
(** Encoding replaces a NaN by the canonical one. *)
Fixpoint canon (v : Value) : Value :=
  match v with
  | VFloat x => VFloat (if is_nan x then canonical_nan else x)
  | VOptional (Some v) => VOptional (Some (canon v))
  | VSequence l => VSequence (map canon l)
  | VRecord l => VRecord (map canon l)
  | v => v
  end.

(** ** Writing *)
Lemma add_ok max b w u w' :
  Encode.add max b w = (Ok u, w') → w' = MkWriter (wr_out w ++ b) (wr_nodes w).
Proof.
  unfold Encode.add. intros H. inv_ok H. case_match; [|done]. inv_ok H.
  unfold modify in H. injection H as <- <-. by destruct w.
Qed.
Lemma add_run max b w :
  (N.of_nat (length (wr_out w) + length b) ≤ max)%N → (max ≤ max_event)%N →
  Encode.add max b w = (Ok tt, MkWriter (wr_out w ++ b) (wr_nodes w)).
Proof.
  intros Hl Hm. unfold Encode.add, checked_add. unfold bind at 1, get.
  unfold max_event, usize_max, u64_max in *. rewrite decide_True by lia.
  rewrite (bind_run _ _ w tt w); [by destruct w|]. apply reject_if_run. lia.
Qed.
Lemma node_ok d w u w' :
  Encode.node d w = (Ok u, w') →
  w' = MkWriter (wr_out w) (N.succ (wr_nodes w)) ∧
  (N.succ (wr_nodes w) ≤ max_value_nodes)%N ∧ (d ≤ max_depth)%N.
Proof.
  unfold Encode.node. intros H. inv_ok H. inv_ok H. inv_ok H. subst w'.
  rewrite orb_false_iff in Hc. destruct w. simpl in *. split_and!; [done|lia..].
Qed.
Lemma node_run d w :
  (N.succ (wr_nodes w) ≤ max_value_nodes)%N → (d ≤ max_depth)%N →
  Encode.node d w = (Ok tt, MkWriter (wr_out w) (N.succ (wr_nodes w))).
Proof.
  intros Hn Hd. unfold Encode.node. unfold bind, modify, get. destruct w; simpl in *.
  rewrite reject_if_run; [done|]. rewrite orb_false_iff. split; lia.
Qed.

(** ** Reading *)
Lemma take_n_ok n r l r' :
  Decode.take_n n r = (Ok l, r') →
  rd_rest r = l ++ rd_rest r' ∧ N.of_nat (length l) = n ∧ rd_nodes r' = rd_nodes r.
Proof.
  unfold Decode.take_n. intros H. inv_ok H. inv_ok H. inv_ok H. inv_ok H. simpl.
  rewrite take_drop, length_take. split_and!; [done|lia|done].
Qed.
Lemma take_n_run n l rest k :
  N.of_nat (length l) = n → Decode.take_n n (MkReader (l ++ rest) k) = (Ok l, MkReader rest k).
Proof.
  intros <-. unfold Decode.take_n. unfold bind, get. simpl. rewrite reject_if_run.
  - unfold modify, ret. simpl. unfold set_field. simpl.
    rewrite Nat2N.id, take_app_length, drop_app_length. done.
  - rewrite length_app. lia.
Qed.
Lemma uint_ok k r n r' :
  Decode.uint k r = (Ok n, r') →
  rd_rest r = le_encode k n ++ rd_rest r' ∧ (n < 256 ^ N.of_nat k)%N ∧ rd_nodes r' = rd_nodes r.
Proof.
  unfold Decode.uint. intros H. inv_ok H. inv_ok H. apply take_n_ok in Hrun as (-> & Hl & ->).
  apply Nat2N.inj in Hl as <-. rewrite le_encode_decode. split_and!; [done|apply le_decode_bound|done].
Qed.
Lemma uint_run k n rest c :
  (n < 256 ^ N.of_nat k)%N →
  Decode.uint k (MkReader (le_encode k n ++ rest) c) = (Ok n, MkReader rest c).
Proof.
  intros Hn. unfold Decode.uint. rewrite (bind_run _ _ _ (le_encode k n) (MkReader rest c)).
  - unfold ret. by rewrite le_decode_encode.
  - apply take_n_run. by rewrite length_le_encode.
Qed.
Lemma one_ok r b r' :
  Decode.one r = (Ok b, r') → rd_rest r = [b] ++ rd_rest r' ∧ rd_nodes r' = rd_nodes r.
Proof.
  unfold Decode.one. intros H. inv_ok H. apply take_n_ok in Hrun as (Hr & Hl & Hn).
  destruct a as [|b' [|]]; simpl in Hl; try lia. simpl in H. unfold ret in H. by simplify_eq.
Qed.
Lemma one_run b rest c : Decode.one (MkReader ([b] ++ rest) c) = (Ok b, MkReader rest c).
Proof.
  unfold Decode.one. by rewrite (bind_run _ _ _ [b] (MkReader rest c)) by by apply (take_n_run 1 [b]).
Qed.

Definition rd_head (d : N) : RdM unit :=
  modify (λ r, r <| rd_nodes ::= N.succ |>) ;;;
  let! r := get in
  reject_if (max_value_nodes <? rd_nodes r)%N (err "value node limit") ;;;
  reject_if (max_depth <? d)%N (err "value depth limit").
Lemma rd_head_bind {A} d (k : RdM A) r :
  bind (rd_head d) (λ _, k) r =
  (modify (λ r, r <| rd_nodes ::= N.succ |>) ;;;
   let! r := get in
   reject_if (max_value_nodes <? rd_nodes r)%N (err "value node limit") ;;;
   reject_if (max_depth <? d)%N (err "value depth limit") ;;; k) r.
Proof. unfold rd_head, bind, modify, get. by repeat case_match; simplify_eq. Qed.
Lemma rd_head_run {A} d (k : RdM A) l n :
  (N.succ n ≤ max_value_nodes)%N → (d ≤ max_depth)%N →
  (modify (λ r, r <| rd_nodes ::= N.succ |>) ;;;
   let! r := get in
   reject_if (max_value_nodes <? rd_nodes r)%N (err "value node limit") ;;;
   reject_if (max_depth <? d)%N (err "value depth limit") ;;; k) (MkReader l n) = k (MkReader l (N.succ n)).
Proof.
  intros Hn Hd. unfold bind at 1 2, modify, get. cbn.
  rewrite (bind_run _ _ _ tt (MkReader l (N.succ n))) by (apply reject_if_run; lia).
  by rewrite (bind_run _ _ _ tt (MkReader l (N.succ n))) by (apply reject_if_run; lia).
Qed.
Lemma rd_head_ok {A} d (k : RdM A) r a r' :
  (modify (λ r, r <| rd_nodes ::= N.succ |>) ;;;
   let! r := get in
   reject_if (max_value_nodes <? rd_nodes r)%N (err "value node limit") ;;;
   reject_if (max_depth <? d)%N (err "value depth limit") ;;; k) r = (Ok a, r') →
  (N.succ (rd_nodes r) ≤ max_value_nodes)%N ∧ (d ≤ max_depth)%N ∧
  k (MkReader (rd_rest r) (N.succ (rd_nodes r))) = (Ok a, r').
Proof.
  intros H. inv_ok H. inv_ok H. inv_ok H. inv_ok H. destruct r. simpl in *. split_and!; [lia..|done].
Qed.

(** ** What is written is read back *)
Definition reads_back (t : FieldType) (v : Value) (d : N) (w w' : Writer) : Prop :=
  ∃ bs, wr_out w' = wr_out w ++ bs ∧ ∀ rest,
    Decode.val true t d (MkReader (bs ++ rest) (wr_nodes w)) =
      (Ok (canon v), MkReader rest (wr_nodes w')).
Definition writes_readable (t : FieldType) : Prop :=
  ∀ max v d w u w', value_ok v = true → Encode.val max t v d w = (Ok u, w') → reads_back t v d w w'.

Lemma fields_readable l : Forall (λ f : Field, writes_readable (f_ty f)) l →
  ∀ max vs d w u w', forallb value_ok vs = true → length vs = length l →
  Encode.fields (Encode.val max) l vs d w = (Ok u, w') →
  ∃ bs, wr_out w' = wr_out w ++ bs ∧ ∀ rest,
    Decode.fields true (Decode.val true) l d (MkReader (bs ++ rest) (wr_nodes w)) =
      (Ok (map canon vs), MkReader rest (wr_nodes w')).
Proof.
  induction 1 as [|[name t] l Ht Hall IH]; intros max vs d w u w' Hv Hl H;
    destruct vs as [|v vs]; simplify_eq/=.
  { unfold ret in H. simplify_eq. exists []. by rewrite app_nil_r. }
  apply andb_prop in Hv as [Hv Hvs]. inv_ok H. apply map_err_ok in Hrun.
  destruct (Ht _ _ _ _ _ _ Hv Hrun) as (bs1 & Hw1 & Hr1).
  destruct (IH _ _ _ _ _ _ Hvs Hl H) as (bs2 & Hw2 & Hr2).
  exists (bs1 ++ bs2). split; [by rewrite Hw2, Hw1, <- app_assoc|]. intros rest.
  rewrite <- app_assoc. erewrite bind_run by (apply map_err_ok, Hr1).
  by erewrite bind_run by apply Hr2.
Qed.

Lemma items_readable t : writes_readable t →
  ∀ max vs d i w u w', forallb value_ok vs = true →
  Encode.items (λ x, Encode.val max t x d) vs i w = (Ok u, w') →
  ∃ bs, wr_out w' = wr_out w ++ bs ∧ ∀ rest,
    Decode.items true (Decode.val true t d) (length vs) i (MkReader (bs ++ rest) (wr_nodes w)) =
      (Ok (map canon vs), MkReader rest (wr_nodes w')).
Proof.
  intros Ht max. induction vs as [|v vs IH]; intros d i w u w' Hv H; simplify_eq/=.
  { unfold ret in H. simplify_eq. exists []. by rewrite app_nil_r. }
  apply andb_prop in Hv as [Hv Hvs]. inv_ok H. apply map_err_ok in Hrun.
  destruct (Ht _ _ _ _ _ _ Hv Hrun) as (bs1 & Hw1 & Hr1).
  destruct (IH _ _ _ _ _ Hvs H) as (bs2 & Hw2 & Hr2).
  exists (bs1 ++ bs2). split; [by rewrite Hw2, Hw1, <- app_assoc|]. intros rest.
  rewrite <- app_assoc. erewrite bind_run by (apply map_err_ok, Hr1).
  by erewrite bind_run by apply Hr2.
Qed.

Lemma record_readable s : Forall (λ f : Field, writes_readable (f_ty f)) (s_fields s) →
  ∀ max v d w u w', value_ok v = true →
  Encode.record (Encode.val max) s v d w = (Ok u, w') →
  ∃ bs, wr_out w' = wr_out w ++ bs ∧ ∀ rest,
    Decode.record true (Decode.val true) s d (MkReader (bs ++ rest) (wr_nodes w)) =
      (Ok (canon v), MkReader rest (wr_nodes w')).
Proof.
  destruct s as [name version l]. simpl. intros Hall max v d w u w' Hv H.
  inv_ok H. apply node_ok in Hrun as (-> & Hn & Hd). destruct v; try discriminate H.
  inv_ok H. rewrite bool_decide_eq_false in Hc. apply dec_stable in Hc.
  destruct (fields_readable l Hall _ _ _ _ _ _ Hv Hc H) as (bs & Hw & Hr).
  exists bs. split; [done|]. intros rest. unfold bind at 1 2, modify, get. cbn.
  rewrite (bind_run _ _ _ tt (MkReader (bs ++ rest) (N.succ (wr_nodes w)))).
  - by erewrite bind_run by apply Hr.
  - apply reject_if_run. rewrite orb_false_iff. simpl. lia.
Qed.

Lemma canonical_nan_facts : is_nan canonical_nan = true ∧ is_finite canonical_nan = false ∧
  (canonical_nan < 2 ^ 64)%N.
Proof. split_and!; vm_compute; reflexivity. Qed.
Lemma finite_not_nan x : is_finite x = true → is_nan x = false.
Proof. unfold is_finite, is_nan. intros ->%negb_true_iff. done. Qed.
Lemma canon_nan_bound x : (x < 2 ^ 64)%N → ((if is_nan x then canonical_nan else x) < 256 ^ N.of_nat 8)%N.
Proof. intros. rewrite pow_256_8. case_match; [apply canonical_nan_facts|done]. Qed.

Lemma u32_bytes_run n rest c :
  (n ≤ max_event)%N → Decode.uint 4 (MkReader (Encode.u32_bytes n ++ rest) c) = (Ok n, MkReader rest c).
Proof.
  unfold max_event, Encode.u32_bytes. intros Hn. rewrite N.mod_small by lia.
  apply uint_run. rewrite pow_256_4. lia.
Qed.
Lemma byte_len m n : (m ≤ max_event)%N → (n ≤ m)%N → (n ≤ max_event)%N.
Proof. lia. Qed.

Ltac wrote H :=
  apply add_ok in H; subst; cbn [wr_out wr_nodes]; eexists; (split; [reflexivity|]); intros rest;
  rewrite rd_head_run by done.

Lemma writes_readable_leaf t :
  (∀ s, t ≠ TyRecord s) → (∀ x, t ≠ TyOptional x) → (∀ x m, t ≠ TySequence x m) →
  ty_ok t → writes_readable t.
Proof.
  intros Hr Ho Hs Ht max v d w u w' Hv H.
  destruct t as [a b|a b|nf| |m|m|en vs|x|x m|s]; [..|by destruct (Ho x)|by destruct (Hs x m)|by destruct (Hr s)];
    clear Hr Ho Hs; cbn [Encode.val] in H; inv_ok H; apply node_ok in Hrun as (-> & Hn & Hd);
    destruct v; try discriminate H; simpl in Hv; unfold reads_back; cbn [Decode.val]; inversion_clear Ht.
  - case_match eqn:Hab; [|discriminate H]. wrote H.
    rewrite (bind_run _ _ _ _ _ (uint_run 8 _ _ _ (i64_bits_bound x))), i64_of_bits_bits by lia.
    rewrite (bind_run _ _ _ tt (MkReader rest (N.succ (wr_nodes w)))); [done|].
    apply reject_if_run. lia.
  - case_match eqn:Hab; [|discriminate H]. wrote H.
    rewrite (bind_run _ _ _ _ _ (uint_run 8 x _ _ ltac:(rewrite pow_256_8; lia))).
    rewrite (bind_run _ _ _ tt (MkReader rest (N.succ (wr_nodes w)))); [done|].
    apply reject_if_run. lia.
  - inv_ok H. wrote H.
    rewrite (bind_run _ _ _ _ _ (uint_run 8 _ _ _ (canon_nan_bound bits ltac:(lia)))).
    rewrite !(bind_run _ _ _ tt (MkReader rest (N.succ (wr_nodes w)))); [done|apply reject_if_run..].
    + destruct nf; [|done]. destruct (is_nan bits) eqn:Hnan; [by rewrite N.eqb_refl, andb_false_r|by rewrite Hnan].
    + destruct nf; [done|]. cbn [negb andb] in *. apply negb_false_iff in Hc.
      by rewrite (finite_not_nan _ Hc), Hc.
  - wrote H. rewrite (bind_run _ _ _ _ _ (one_run _ _ _)). by destruct x.
  - inv_ok H. inv_ok H. apply add_ok in Hrun. subst. apply add_ok in H. subst. cbn [wr_out wr_nodes].
    eexists. split; [by rewrite <- app_assoc|]. intros rest. rewrite <- app_assoc, rd_head_run by done.
    rewrite (bind_run _ _ _ _ _ (u32_bytes_run _ _ _ (byte_len _ _ H0 (proj1 (N.ltb_ge _ _) Hc)))).
    rewrite (bind_run _ _ _ tt _ (reject_if_run _ _ _ Hc)).
    rewrite (bind_run _ _ _ _ _ (take_n_run _ (bytes_of x) _ _ ltac:(unfold str_len; by rewrite length_bytes_of))).
    rewrite Hv. simpl. unfold bind, ret. f_equal. f_equal. f_equal.
    apply String.string_of_list_byte_of_string.
  - inv_ok H. inv_ok H. apply add_ok in Hrun. subst. apply add_ok in H. subst. cbn [wr_out wr_nodes].
    eexists. split; [by rewrite <- app_assoc|]. intros rest. rewrite <- app_assoc, rd_head_run by done.
    rewrite (bind_run _ _ _ _ _ (u32_bytes_run _ _ _ (byte_len _ _ H0 (proj1 (N.ltb_ge _ _) Hc)))).
    rewrite (bind_run _ _ _ tt _ (reject_if_run _ _ _ Hc)).
    by rewrite (bind_run _ _ _ _ _ (take_n_run _ x _ _ eq_refl)).
  - case_match eqn:Hab; [|discriminate H]. wrote H.
    rewrite (bind_run _ _ _ _ _ (uint_run 4 x _ _ ltac:(rewrite pow_256_4; lia))).
    rewrite (bind_run _ _ _ tt (MkReader rest (N.succ (wr_nodes w)))); [done|].
    apply reject_if_run. lia.
Qed.

Lemma all_readable t : ty_ok t → writes_readable t.
Proof.
  induction t using FieldType_nested_ind; intros Ht; try (apply writes_readable_leaf; done).
  - inversion_clear Ht as [| | | | | | |? Hx| |]. intros max v d w u w' Hv H. cbn [Encode.val] in H.
    inv_ok H. apply node_ok in Hrun as (-> & Hn & Hd). unfold reads_back.
    destruct v as [| | | | | | |[v|]| |]; try discriminate H; cbn [Decode.val].
    + inv_ok H. apply add_ok in Hrun. subst.
      destruct (IHt Hx _ v _ _ _ _ Hv H) as (bs & Hw & Hr). cbn [wr_out wr_nodes] in *.
      exists ([byte_of 1] ++ bs). split; [by rewrite Hw, <- app_assoc|]. intros rest.
      rewrite rd_head_run, <- app_assoc by done. rewrite (bind_run _ _ _ _ _ (one_run _ _ _)).
      simpl. by rewrite (bind_run _ _ _ _ _ (Hr rest)).
    + wrote H. by rewrite (bind_run _ _ _ _ _ (one_run _ _ _)).
  - inversion_clear Ht as [| | | | | | | |? ? Hm Hx|]. intros max v d w u w' Hv H. cbn [Encode.val] in H.
    inv_ok H. apply node_ok in Hrun as (-> & Hn & Hd). unfold reads_back.
    destruct v; try discriminate H; cbn [Decode.val]. case_match eqn:Hlen; [|discriminate H].
    inv_ok H. inv_ok H. inv_ok H. apply add_ok in Hrun. subst.
    destruct (items_readable t (IHt Hx) _ _ _ _ _ _ _ Hv H) as (bs & Hw & Hr). cbn [wr_out wr_nodes] in *.
    eexists. split; [by rewrite Hw, <- app_assoc|]. intros rest. rewrite <- app_assoc, rd_head_run by done.
    rewrite (bind_run _ _ _ _ _ (u32_bytes_run (N.of_nat (length x)) _ _ ltac:(unfold max_event; lia))).
    unfold bind at 1, get. cbn [rd_nodes].
    rewrite (bind_run _ _ _ tt (MkReader (bs ++ rest) (N.succ (wr_nodes w)))) by (apply reject_if_run; lia).
    by rewrite Nat2N.id, (bind_run _ _ _ _ _ (Hr rest)).
  - inversion_clear Ht as [| | | | | | | | |? Hnd Hl Hall]. intros max v d w u w' Hv Hrun.
    eapply record_readable in Hrun as (bs & Hw & Hr); [by exists bs| |done].
    rewrite Forall_forall in *. eauto.
Qed.

(** ** What is read is written back *)
Definition writes_back (t : FieldType) (v : Value) (d : N) (r r' : Reader) : Prop :=
  value_ok v = true ∧ canon v = v ∧
  ∃ bs, rd_rest r = bs ++ rd_rest r' ∧ ∀ max out,
    (N.of_nat (length out + length bs) ≤ max)%N → (max ≤ max_event)%N →
    Encode.val max t v d (MkWriter out (rd_nodes r)) = (Ok tt, MkWriter (out ++ bs) (rd_nodes r')).
Definition reads_writable (t : FieldType) : Prop :=
  ∀ d r v r', Decode.val true t d r = (Ok v, r') → writes_back t v d r r'.

Lemma fields_writable l : Forall (λ f : Field, reads_writable (f_ty f)) l →
  ∀ d r vs r', Decode.fields true (Decode.val true) l d r = (Ok vs, r') →
  forallb value_ok vs = true ∧ map canon vs = vs ∧ length vs = length l ∧
  ∃ bs, rd_rest r = bs ++ rd_rest r' ∧ ∀ max out,
    (N.of_nat (length out + length bs) ≤ max)%N → (max ≤ max_event)%N →
    Encode.fields (Encode.val max) l vs d (MkWriter out (rd_nodes r)) =
      (Ok tt, MkWriter (out ++ bs) (rd_nodes r')).
Proof.
  induction 1 as [|[name t] l Ht Hall IH]; intros d r vs r' H; cbn [Decode.fields] in H.
  { inv_ok H. split_and!; try done. exists []. split; [done|]. intros max out _ _. by rewrite app_nil_r. }
  inv_ok H. apply map_err_ok in Hrun. inv_ok H. inv_ok H.
  destruct (Ht _ _ _ _ Hrun) as (Hv & Hc & bs1 & Hr1 & Hw1).
  destruct (IH _ _ _ _ Hrun0) as (Hvs & Hcs & Hl & bs2 & Hr2 & Hw2). simpl.
  rewrite Hv, Hvs, Hc, Hcs, Hl. split_and!; try done. exists (bs1 ++ bs2).
  split; [by rewrite Hr1, Hr2, app_assoc|]. intros max out Hlen Hm. rewrite length_app in Hlen.
  erewrite bind_run by (apply map_err_ok, Hw1; [lia|done]). rewrite app_assoc. apply Hw2; [|done].
  rewrite length_app. lia.
Qed.

Lemma items_writable t : reads_writable t →
  ∀ n d i r vs r', Decode.items true (Decode.val true t d) n i r = (Ok vs, r') →
  forallb value_ok vs = true ∧ map canon vs = vs ∧ length vs = n ∧
  ∃ bs, rd_rest r = bs ++ rd_rest r' ∧ ∀ max out,
    (N.of_nat (length out + length bs) ≤ max)%N → (max ≤ max_event)%N →
    Encode.items (λ x, Encode.val max t x d) vs i (MkWriter out (rd_nodes r)) =
      (Ok tt, MkWriter (out ++ bs) (rd_nodes r')).
Proof.
  intros Ht n d. induction n as [|n IH]; intros i r vs r' H; cbn [Decode.items] in H.
  { inv_ok H. split_and!; try done. exists []. split; [done|]. intros max out _ _. by rewrite app_nil_r. }
  inv_ok H. apply map_err_ok in Hrun. inv_ok H. inv_ok H.
  destruct (Ht _ _ _ _ Hrun) as (Hv & Hc & bs1 & Hr1 & Hw1).
  destruct (IH _ _ _ _ Hrun0) as (Hvs & Hcs & Hl & bs2 & Hr2 & Hw2). simpl.
  rewrite Hv, Hvs, Hc, Hcs, Hl. split_and!; try done. exists (bs1 ++ bs2).
  split; [by rewrite Hr1, Hr2, app_assoc|]. intros max out Hlen Hm. rewrite length_app in Hlen.
  erewrite bind_run by (apply map_err_ok, Hw1; [lia|done]). rewrite app_assoc. apply Hw2; [|done].
  rewrite length_app. lia.
Qed.

Lemma record_writable s : Forall (λ f : Field, reads_writable (f_ty f)) (s_fields s) →
  ∀ d r v r', Decode.record true (Decode.val true) s d r = (Ok v, r') →
  value_ok v = true ∧ canon v = v ∧
  ∃ bs, rd_rest r = bs ++ rd_rest r' ∧ ∀ max out,
    (N.of_nat (length out + length bs) ≤ max)%N → (max ≤ max_event)%N →
    Encode.record (Encode.val max) s v d (MkWriter out (rd_nodes r)) =
      (Ok tt, MkWriter (out ++ bs) (rd_nodes r')).
Proof.
  destruct s as [name version l]. simpl. intros Hall d r v r' H.
  inv_ok H. inv_ok H. inv_ok H. inv_ok H. inv_ok H. apply orb_false_iff in Hc as [Hn Hd].
  destruct (fields_writable l Hall _ _ _ _ Hrun) as (Hv & Hcs & Hl & bs & Hr & Hw).
  destruct r as [rest n]. simpl in *. rewrite Hv, Hcs. split_and!; [done..|].
  exists bs. split; [done|]. intros max out Hlen Hm.
  erewrite bind_run by (apply node_run; simpl; lia). cbn [wr_out wr_nodes].
  rewrite (bind_run _ _ _ tt (MkWriter out (N.succ n))); [by apply Hw|].
  apply reject_if_run. apply bool_decide_eq_false. by intros [].
Qed.

Lemma canonical_float nf x :
  negb nf && negb (is_finite x) = false → nf && is_nan x && negb (x =? canonical_nan)%N = false →
  (if is_nan x then canonical_nan else x) = x.
Proof.
  destruct nf; cbn [negb andb].
  - intros _. destruct (is_nan x) eqn:E; [|done]. cbn [andb]. intros H%negb_false_iff.
    by apply N.eqb_eq in H.
  - intros Hf%negb_false_iff _. by rewrite (finite_not_nan _ Hf).
Qed.
Lemma byte_eqb b n : (n < 256)%N → (Byte.to_N b =? n)%N = true → b = byte_of n.
Proof. intros Hn Hb%N.eqb_eq. by rewrite <- Hb, byte_of_to_N. Qed.

Lemma u32_bytes_id n : (n < 256 ^ N.of_nat 4)%N → Encode.u32_bytes n = le_encode 4 n.
Proof. rewrite pow_256_4. intros Hn. unfold Encode.u32_bytes. by rewrite N.mod_small. Qed.

(** Finish a leaf: the node check, then the one or two writes. *)
Ltac write_node := erewrite bind_run by (apply node_run; done); cbn [wr_out wr_nodes rd_nodes].

Lemma reads_writable_leaf t :
  (∀ s, t ≠ TyRecord s) → (∀ x, t ≠ TyOptional x) → (∀ x m, t ≠ TySequence x m) →
  reads_writable t.
Proof.
  intros Hr Ho Hs d [l c] v r' H. unfold writes_back.
  destruct t as [a b|a b|nf| |m|m|en vs|x|x m|s]; [..|by destruct (Ho x)|by destruct (Hs x m)|by destruct (Hr s)];
    clear Hr Ho Hs; cbn [Decode.val] in H; apply rd_head_ok in H as (Hn & Hd & H);
    cbn [rd_rest rd_nodes] in *; inv_ok H.
  - apply uint_ok in Hrun as (Hr & Hb & Hc). rewrite pow_256_8 in Hb. inv_ok H. inv_ok H.
    apply orb_false_iff in Hc0. pose proof (i64_of_bits_range _ Hb).
    split; [simpl; lia|]. split; [done|]. eexists. split; [done|]. intros max out Hl Hm. cbn [Encode.val].
    write_node. rewrite i64_bits_of_bits, Hc by done.
    replace (_ && _)%Z with true by lia. apply add_run; done.
  - apply uint_ok in Hrun as (Hr & Hb & Hc). rewrite pow_256_8 in Hb. inv_ok H. inv_ok H.
    apply orb_false_iff in Hc0.
    split; [simpl; lia|]. split; [done|]. eexists. split; [done|]. intros max out Hl Hm. cbn [Encode.val].
    write_node. rewrite Hc. replace (_ && _)%N with true by lia. apply add_run; done.
  - apply uint_ok in Hrun as (Hr & Hb & Hc). rewrite pow_256_8 in Hb. inv_ok H. inv_ok H. inv_ok H.
    pose proof (canonical_float _ _ Hc0 Hc1) as Hcan. cbn [canon value_ok]. rewrite Hcan.
    split; [lia|]. split; [done|]. eexists. split; [done|]. intros max out Hl Hm. cbn [Encode.val].
    write_node. rewrite (bind_run _ _ _ tt _ (reject_if_run _ _ _ Hc0)), Hcan, Hc. apply add_run; done.
  - apply one_ok in Hrun as (Hr & Hc). cbn [rd_rest rd_nodes] in *. case_match eqn:E0.
    + apply byte_eqb in E0 as ->; [|done]. inv_ok H. split; [done|]. split; [done|].
      eexists. split; [done|]. intros max out Hl Hm. cbn [Encode.val]. write_node. rewrite Hc. by apply add_run.
    + case_match eqn:E1; [|discriminate H]. apply byte_eqb in E1 as ->; [|done]. inv_ok H.
      split; [done|]. split; [done|].
      eexists. split; [done|]. intros max out Hl Hm. cbn [Encode.val]. write_node. rewrite Hc. by apply add_run.
  - apply uint_ok in Hrun as (Hr & Hb & Hc). cbn [rd_rest rd_nodes] in *. inv_ok H. inv_ok H. apply take_n_ok in Hrun as (Hr2 & Hl2 & Hc2).
    inv_ok H. inv_ok H. apply negb_false_iff in Hc1.
    cbn [canon value_ok]. rewrite bytes_of_of_bytes. split; [done|]. split; [done|].
    eexists. split; [rewrite Hr, Hr2; apply app_assoc|]. intros max out Hl Hm. cbn [Encode.val]. write_node.
    rewrite length_app in Hl. unfold str_len. rewrite bytes_of_of_bytes, length_of_bytes, Hl2.
    rewrite (bind_run _ _ _ tt _ (reject_if_run _ _ _ Hc0)), u32_bytes_id by done.
    erewrite bind_run by (apply add_run; [cbn [wr_out]; lia|done]). rewrite add_run; [|cbn [wr_out]; rewrite length_app; lia|done].
    simpl. by rewrite <- app_assoc, Hc2, Hc.
  - apply uint_ok in Hrun as (Hr & Hb & Hc). cbn [rd_rest rd_nodes] in *. inv_ok H. inv_ok H. apply take_n_ok in Hrun as (Hr2 & Hl2 & Hc2).
    inv_ok H. split; [done|]. split; [done|].
    eexists. split; [rewrite Hr, Hr2; apply app_assoc|]. intros max out Hl Hm. cbn [Encode.val]. write_node.
    rewrite length_app in Hl. rewrite Hl2.
    rewrite (bind_run _ _ _ tt _ (reject_if_run _ _ _ Hc0)), u32_bytes_id by done.
    erewrite bind_run by (apply add_run; [cbn [wr_out]; lia|done]). rewrite add_run; [|cbn [wr_out]; rewrite length_app; lia|done].
    simpl. by rewrite <- app_assoc, Hc2, Hc.
  - apply uint_ok in Hrun as (Hr & Hb & Hc). inv_ok H. inv_ok H. rewrite pow_256_4 in Hb.
    split; [simpl; lia|]. split; [done|]. eexists. split; [done|]. intros max out Hl Hm. cbn [Encode.val].
    write_node. rewrite Hc. replace (_ <? _)%N with true by lia. apply add_run; done.
Qed.

Lemma all_writable t : reads_writable t.
Proof.
  induction t using FieldType_nested_ind; try (apply reads_writable_leaf; done).
  - intros d r v r' H. cbn [Decode.val] in H. destruct r as [l c]. apply rd_head_ok in H as (Hn & Hd & H).
    cbn [rd_rest rd_nodes] in *. unfold writes_back. inv_ok H. apply one_ok in Hrun as (Hr & Hc).
    cbn [rd_rest rd_nodes] in *. case_match eqn:E0.
    + apply byte_eqb in E0 as ->; [|done]. inv_ok H. split; [done|]. split; [done|].
      eexists. split; [done|]. intros max out Hl Hm. cbn [Encode.val]. write_node. rewrite Hc. by apply add_run.
    + case_match eqn:E1; [|discriminate H]. apply byte_eqb in E1 as ->; [|done].
      inv_ok H. inv_ok H. destruct (IHt _ _ _ _ Hrun) as (Hv & Hcan & bs & Hr2 & Hw).
      cbn [value_ok canon]. rewrite Hcan. split; [done|]. split; [done|]. exists ([byte_of 1] ++ bs).
      split; [rewrite Hr, Hr2; apply app_assoc|]. intros max out Hl Hm. rewrite length_app in Hl.
      cbn [Encode.val]. write_node. erewrite bind_run by (apply add_run; [cbn [wr_out]; lia|done]). cbn [wr_out wr_nodes].
      rewrite app_assoc, <- Hc. apply Hw; [|done]. rewrite length_app. lia.
  - intros d r v r' H. cbn [Decode.val] in H. destruct r as [l c]. apply rd_head_ok in H as (Hn & Hd & H).
    cbn [rd_rest rd_nodes] in *. unfold writes_back. inv_ok H. apply uint_ok in Hrun as (Hr & Hb & Hc).
    cbn [rd_rest rd_nodes] in *. inv_ok H. inv_ok H. inv_ok H. inv_ok H. rewrite orb_false_iff, Hc in Hc0.
    destruct (items_writable t IHt _ _ _ _ _ _ Hrun) as (Hv & Hcan & Hlen & bs & Hr2 & Hw).
    cbn [value_ok canon]. rewrite Hcan. split; [done|]. split; [done|]. exists (le_encode 4 a ++ bs).
    split; [rewrite Hr, Hr2; apply app_assoc|]. intros max out Hl Hm. rewrite length_app in Hl.
    cbn [Encode.val]. write_node. replace (N.of_nat (length a0)) with a by lia.
    replace (a <=? m)%N with true by lia. unfold bind at 1, get. cbn [wr_nodes].
    rewrite (bind_run _ _ _ tt (MkWriter out (N.succ c))) by (apply reject_if_run; lia).
    rewrite u32_bytes_id by done. erewrite bind_run by (apply add_run; [cbn [wr_out]; lia|done]). cbn [wr_out wr_nodes].
    rewrite app_assoc, <- Hc. apply Hw; [|done]. rewrite length_app. lia.
  - intros d r v r' Hrun. by apply record_writable.
Qed.

(** ** Checking without building *)
Definition same_result {A B} (p : outcome string A) (q : outcome string B) : Prop :=
  match p, q with
  | Ok _, Ok _ => True
  | Err e, Err e' => e = e'
  | _, _ => False
  end.
(** The two runs end in the same state and neither panics. *)
Definition same_read {A B} (m : RdM A) (m' : RdM B) : Prop :=
  ∀ r, (m r).2 = (m' r).2 ∧ same_result (m r).1 (m' r).1.

Lemma same_bind {A A' B B'} (m : RdM A) (m' : RdM A') (k : A → RdM B) (k' : A' → RdM B') :
  same_read m m' → (∀ a a', same_read (k a) (k' a')) → same_read (bind m k) (bind m' k').
Proof.
  intros Hm Hk r. unfold bind. destruct (Hm r) as [Hs Ho].
  destruct (m r) as [[a|e|] r1], (m' r) as [[a'|e'|] r2]; simpl in *; subst; try done. apply Hk.
Qed.
Lemma same_bind_eq {A B B'} (m : RdM A) (k : A → RdM B) (k' : A → RdM B') :
  same_read m m → (∀ a, same_read (k a) (k' a)) → same_read (bind m k) (bind m k').
Proof.
  intros Hm Hk r. unfold bind. destruct (Hm r) as [Hs Ho].
  destruct (m r) as [[a|e|] r1]; simpl in *; subst; try done. apply Hk.
Qed.
Lemma same_map_err {A A'} f (m : RdM A) (m' : RdM A') : same_read m m' → same_read (map_err f m) (map_err f m').
Proof.
  intros Hm r. unfold map_err. destruct (Hm r) as [Hs Ho].
  destruct (m r) as [[a|e|] r1], (m' r) as [[a'|e'|] r2]; simpl in *; subst; done.
Qed.
Lemma same_get : same_read get get.
Proof. done. Qed.
Lemma same_modify f : same_read (modify f) (modify f).
Proof. done. Qed.
Lemma same_ret {A B} (a : A) (b : B) : same_read (ret a) (ret b).
Proof. done. Qed.
Lemma same_fail {A B} e : same_read (fail (A:=A) e) (fail (A:=B) e).
Proof. done. Qed.
Lemma same_reject c e : same_read (reject_if c e) (reject_if c e).
Proof. by destruct c. Qed.
Lemma same_take n : same_read (Decode.take_n n) (Decode.take_n n).
Proof.
  unfold Decode.take_n. repeat (apply same_bind_eq; [|intros ?]);
    eauto using same_get, same_reject, same_modify, same_ret.
Qed.
Lemma same_uint k : same_read (Decode.uint k) (Decode.uint k).
Proof. apply same_bind_eq; [apply same_take|]. intros. apply same_ret. Qed.
Lemma same_one : same_read Decode.one Decode.one.
Proof.
  intros r. unfold Decode.one, bind. destruct (same_take 1 r) as [Hs Ho].
  destruct (Decode.take_n 1 r) as [[a|e|] r1] eqn:H; simpl in *; try done.
  apply take_n_ok in H as (_ & Hl & _). destruct a; simpl in *; [lia|done].
Qed.

Create HintDb same_read.
#[local] Hint Resolve same_get same_modify same_ret same_fail same_reject same_take same_uint same_one : same_read.
Ltac same_read := repeat first
  [ solve [eauto with same_read] | apply same_bind_eq; [|intros ?] | apply same_bind; [|intros ??]
  | match goal with |- context [if ?c then _ else _] => destruct c end ].

Lemma fields_same l : Forall (λ f : Field, ∀ d, same_read (Decode.val false (f_ty f) d) (Decode.val true (f_ty f) d)) l →
  ∀ d, same_read (Decode.fields false (Decode.val false) l d) (Decode.fields true (Decode.val true) l d).
Proof.
  induction 1 as [|[name t] l Ht Hall IH]; intros d; cbn [Decode.fields]; [done|].
  apply same_bind; [apply same_map_err, Ht|]. intros. apply same_bind; [apply IH|]. intros. done.
Qed.
Lemma items_same (m m' : RdM Value) : same_read m m' →
  ∀ n i, same_read (Decode.items false m n i) (Decode.items true m' n i).
Proof.
  intros Hm. induction n as [|n IH]; intros i; cbn [Decode.items]; [done|].
  apply same_bind; [by apply same_map_err|]. intros. apply same_bind; [apply IH|]. intros. done.
Qed.
Lemma record_same s : Forall (λ f : Field, ∀ d, same_read (Decode.val false (f_ty f) d) (Decode.val true (f_ty f) d)) (s_fields s) →
  ∀ d, same_read (Decode.record false (Decode.val false) s d) (Decode.record true (Decode.val true) s d).
Proof.
  destruct s as [name version l]. simpl. intros Hall d.
  do 3 (apply same_bind_eq; [eauto with same_read|intros ?]).
  apply same_bind; [by apply fields_same|]. intros. apply same_ret.
Qed.
Lemma val_same t : ∀ d, same_read (Decode.val false t d) (Decode.val true t d).
Proof.
  induction t using FieldType_nested_ind; intros d; cbn [Decode.val]; try (by same_read).
  - do 7 (apply same_bind_eq; [eauto with same_read|intros ?]).
    apply same_bind; [exact (items_same _ _ (IHt _) _ _)|]. intros. apply same_ret.
  - by apply record_same.
Qed.
Lemma all_fields_same l : Forall (λ f : Field, ∀ d, same_read (Decode.val false (f_ty f) d) (Decode.val true (f_ty f) d)) l.
Proof. apply Forall_forall. intros f _ d. apply val_same. Qed.

(** ** The codec's contract *)
Lemma encode_ok s v max b :
  Encode.encode s v max = Ok b →
  SchemaCheck.validate s = Ok tt ∧ (max ≤ max_event)%N ∧
  ∃ w, Encode.record (Encode.val max) s v 0 (MkWriter [] 0) = (Ok tt, w) ∧ wr_out w = b.
Proof.
  unfold Encode.encode. destruct (SchemaCheck.validate s) as [[]|e|] eqn:Hs; [|done..].
  case_match eqn:Hm; [done|]. case_match eqn:Hrun. case_match; intros; simplify_eq.
  apply map_err_ok in Hrun. destruct a. split_and!; [done|lia|]. by eexists.
Qed.
Lemma add_bound max b w u w' : Encode.add max b w = (Ok u, w') → (N.of_nat (length (wr_out w')) ≤ max)%N.
Proof.
  intros H. pose proof (add_ok _ _ _ _ _ H) as ->. unfold Encode.add in H. inv_ok H. unfold checked_add in H.
  case_match eqn:E; [|done]. inv_ok H. case_decide; simplify_eq. simpl. rewrite length_app. lia.
Qed.
Lemma all_types_ok {P : FieldType → Prop} (l : list Field) : (∀ t, P t) → Forall (λ f, P (f_ty f)) l.
Proof. intros H. apply Forall_forall. auto. Qed.

(** The bytes written never exceed the limit the writer is given. *)
Definition bounded_by (max : N) (m : WrM unit) : Prop :=
  ∀ w u w', (N.of_nat (length (wr_out w)) ≤ max)%N → m w = (Ok u, w') →
    (N.of_nat (length (wr_out w')) ≤ max)%N.
Lemma bounded_bind max (m : WrM unit) (k : unit → WrM unit) :
  bounded_by max m → (∀ u, bounded_by max (k u)) → bounded_by max (bind m k).
Proof.
  intros Hm Hk w u w' Hw H. apply bind_ok in H as (a & w1 & H1 & H).
  eapply (Hk a w1); [|done]. by eapply Hm.
Qed.
Lemma bounded_get max (k : Writer → WrM unit) : (∀ w, bounded_by max (k w)) → bounded_by max (bind get k).
Proof. intros Hk w u w' Hw H. inv_ok H. by eapply Hk. Qed.
Lemma bounded_map_err max f m : bounded_by max m → bounded_by max (map_err f m).
Proof. intros Hm w u w' Hw H%map_err_ok. eauto. Qed.
Lemma bounded_add max b : bounded_by max (Encode.add max b).
Proof. intros w u w' _. apply add_bound. Qed.
Lemma bounded_node max d : bounded_by max (Encode.node d).
Proof. intros w u w' Hw H. apply node_ok in H as (-> & _). done. Qed.
Lemma bounded_reject max c e : bounded_by max (reject_if c e).
Proof. intros w u w' Hw H. by inv_ok H; subst. Qed.
Lemma bounded_fail max e : bounded_by max (fail e).
Proof. done. Qed.
Lemma bounded_ret max u : bounded_by max (ret u).
Proof. intros w u' w' Hw H. unfold ret in H. by simplify_eq. Qed.
Ltac bounded := repeat match goal with
  | |- bounded_by _ (bind get _) => apply bounded_get; intros ?
  | |- bounded_by _ (bind _ _) => apply bounded_bind; [|intros ?]
  | |- bounded_by _ (Encode.add _ _) => apply bounded_add
  | |- bounded_by _ (Encode.node _) => apply bounded_node
  | |- bounded_by _ (reject_if _ _) => apply bounded_reject
  | |- bounded_by _ (fail _) => apply bounded_fail
  | |- bounded_by _ (ret _) => apply bounded_ret
  | |- bounded_by _ (match ?c with _ => _ end) => destruct c
  end.

Lemma fields_bounded max l : Forall (λ f : Field, ∀ v d, bounded_by max (Encode.val max (f_ty f) v d)) l →
  ∀ vs d, bounded_by max (Encode.fields (Encode.val max) l vs d).
Proof.
  induction 1 as [|[name t] l Ht Hall IH]; intros [|v vs] d; cbn [Encode.fields]; try apply bounded_ret.
  apply bounded_bind; [apply bounded_map_err, Ht|]. intros _. apply IH.
Qed.
Lemma items_bounded max f : (∀ v, bounded_by max (f v)) →
  ∀ vs i, bounded_by max (Encode.items f vs i).
Proof.
  intros Hf. induction vs as [|v vs IH]; intros i; cbn [Encode.items]; [apply bounded_ret|].
  apply bounded_bind; [apply bounded_map_err, Hf|]. intros _. apply IH.
Qed.
Lemma record_bounded max s : Forall (λ f : Field, ∀ v d, bounded_by max (Encode.val max (f_ty f) v d)) (s_fields s) →
  ∀ v d, bounded_by max (Encode.record (Encode.val max) s v d).
Proof.
  destruct s as [name version l]. simpl. intros Hall v d. apply bounded_bind; [apply bounded_node|]. intros _.
  destruct v; try apply bounded_fail. apply bounded_bind; [apply bounded_reject|]. intros _. by apply fields_bounded.
Qed.
Lemma val_bounded max t : ∀ v d, bounded_by max (Encode.val max t v d).
Proof.
  induction t using FieldType_nested_ind; intros v d; cbn [Encode.val]; bounded; [apply IHt| |by apply record_bounded].
  apply items_bounded. intros. apply IHt.
Qed.

(** Validation ends without panicking. *)
Lemma keeps_map_err {S E A} (P : S → Prop) (f : E → E) (m : M S E A) : keeps P m → keeps P (map_err f m).
Proof. intros Hm s Hs. unfold map_err. specialize (Hm s Hs). destruct (m s) as [[a|e|] s']; simpl in *; naive_solver. Qed.
Lemma valid_ty_total t : ∀ d, keeps (λ _, True) (SchemaCheck.valid_ty t d).
Proof.
  induction t using FieldType_nested_ind; intros d; cbn [SchemaCheck.valid_ty]; try (by keeps).
  - destruct s as [name version l]. cbn [SchemaCheck.validate_schema s_fields] in *.
    keeps; [done|]. clear -H. generalize (@nil string) as names.
    induction H as [|[fname ty] l Ht Hall IH]; intros names; cbn [SchemaCheck.valid_fields]; [by keeps|].
    keeps. apply keeps_map_err. apply (Ht (d + 1)%N).
Qed.
Lemma validate_total s : SchemaCheck.validate s ≠ Panic.
Proof.
  unfold SchemaCheck.validate. destruct (valid_ty_total (TyRecord s) 0 0%N I) as [H _]. exact H.
Qed.

Lemma read_same s b : same_result (Decode.read false s b) (Decode.read true s b).
Proof.
  unfold Decode.read. case_match; [done|].
  destruct (same_map_err (λ e, at_field e (s_name s)) _ _ (record_same s (all_fields_same _) 0) (MkReader b 0)) as [Hs Ho].
  destruct (map_err _ (Decode.record false _ s 0) _) as [[a|e|] r1], (map_err _ (Decode.record true _ s 0) _) as [[a'|e'|] r2];
    simpl in *; subst; try done. by destruct (bool_decide _).
Qed.

Lemma read_roundtrip s v max b :
  value_ok v = true → Encode.encode s v max = Ok b →
  Decode.decode s b = Ok (canon v) ∧ (N.of_nat (length b) ≤ max)%N.
Proof.
  intros Hv H. apply encode_ok in H as (Hs & Hm & w & Hrun & <-).
  pose proof (validate_ok s Hs) as Hty. inversion Hty as [| | | | | | | | |? _ _ Hall]; subst.
  assert (N.of_nat (length (wr_out w)) ≤ max)%N as Hlen.
  { refine (record_bounded max s _ v 0%N (MkWriter [] 0) tt w _ Hrun); [|simpl; lia].
    apply Forall_forall. intros f _ ??. apply val_bounded. }
  split; [|done].
  assert (Forall (λ f : Field, writes_readable (f_ty f)) (s_fields s)) as Hread.
  { eapply Forall_impl; [exact Hall|]. intros f. apply all_readable. }
  destruct (record_readable s Hread _ _ _ _ _ _ Hv Hrun) as (bs & Hout & Hback). clear Hread. rename Hback into Hread.
  simpl in *. rewrite Hout in Hlen |- *. unfold Decode.decode, Decode.read. rewrite Hs.
  replace (max_event <? N.of_nat (length bs))%N with false by lia.
  specialize (Hread []). rewrite app_nil_r in Hread. unfold map_err. rewrite Hread. done.
Qed.

(** What was decoded is written back, whenever the limit leaves room for it. *)
Lemma write_within s b v max :
  Decode.decode s b = Ok v → (N.of_nat (length b) ≤ max)%N → (max ≤ max_event)%N →
  value_ok v = true ∧ canon v = v ∧ Encode.encode s v max = Ok b.
Proof.
  unfold Decode.decode, Encode.encode, Decode.read. destruct (SchemaCheck.validate s) as [[]|e|]; [|done..].
  case_match eqn:Hlen; [done|]. case_match eqn:Hrun. case_match; try done. subst.
  case_bool_decide as Hrest; [|done]. intros ? Hb Hm; simplify_eq. apply map_err_ok in Hrun.
  apply record_writable in Hrun as (Hv & Hc & bs & Hbs & Hw); [|by apply all_types_ok, all_writable].
  simpl in Hbs. rewrite Hrest, app_nil_r in Hbs. subst b. split; [done|]. split; [done|].
  replace (max_event <? max)%N with false by lia.
  erewrite (proj2 (map_err_ok _ _ _ _ _)); [|apply Hw; [simpl; lia|done]]. done.
Qed.
Lemma write_roundtrip s b v :
  Decode.decode s b = Ok v → value_ok v = true ∧ canon v = v ∧ Encode.encode s v max_event = Ok b.
Proof.
  intros H. apply write_within; [done| |done]. unfold Decode.decode, Decode.read in H.
  destruct (SchemaCheck.validate s); [|done..]. case_match eqn:Hl; [done|]. lia.
Qed.

Lemma normalize_ty_id t : normalize_ty t = t.
Proof.
  induction t using FieldType_nested_ind; simpl; try congruence.
  destruct s as [name version l]. simpl in *. do 2 f_equal.
  induction H as [|[n t] l Ht Hall IH]; simpl in *; [done|]. by rewrite Ht, IH.
Qed.

Definition codec_example : Schema := MkSchema "Order" 3
  [MkField "id" (TyUInt 1 1000); MkField "delta" (TyInt (-5) 5); MkField "price" (TyFloat true);
   MkField "side" (TyEnum "Side" ["buy"; "sell"]%string); MkField "note" (TyOptional (TyString 16));
   MkField "legs" (TySequence (TyRecord (MkSchema "Leg" 1 [MkField "raw" (TyBytes 8); MkField "ok" TyBool])) 4)].
Definition codec_value : Value := VRecord
  [VUInt 7; VInt (-3); VFloat 18444492273895866369; VEnum 1; VOptional (Some (VString "hi"));
   VSequence [VRecord [VBytes [byte_of 1; byte_of 255]; VBool true]; VRecord [VBytes []; VBool false]]].

(** C10. Encode, then decode: the bytes the encoder returns stay within the
    byte limit it was given and decode to the encoded value with every NaN
    replaced by the canonical one; on values of the source's types (machine
    ranges, valid UTF-8), for every schema and limit. *)
Theorem encode_decode_roundtrip s v max b :
  value_ok v = true → Encode.encode s v max = Ok b →
  Decode.decode s b = Ok (canon v) ∧ (N.of_nat (length b) ≤ max)%N.
Proof. apply read_roundtrip. Qed.
Lemma encode_decode_roundtrip_witness :
  ∃ b, Decode.decode codec_example b = Ok (canon codec_value) ∧ (N.of_nat (length b) ≤ 100)%N ∧
       canon codec_value ≠ codec_value.
Proof.
  destruct (Encode.encode codec_example codec_value 100) as [b| |] eqn:H; [|vm_compute in H; discriminate..].
  exists b. destruct (encode_decode_roundtrip codec_example codec_value 100 b) as [Hd Hl];
    [vm_compute; reflexivity|exact H|]. split; [exact Hd|]. split; [exact Hl|]. vm_compute. congruence.
Defined.

(** C32. The encoding is canonical: bytes that decode are exactly the bytes the
    encoder writes for the decoded value, which is in range and has canonical
    NaNs only; so no two byte strings decode to the same value. *)
Theorem decode_canonical s b v :
  Decode.decode s b = Ok v →
  value_ok v = true ∧ canon v = v ∧ Encode.encode s v max_event = Ok b ∧
  ∀ b', Decode.decode s b' = Ok v → b' = b.
Proof.
  intros H. pose proof (write_roundtrip s b v H) as (Hv & Hc & He). split_and!; [done..|].
  intros b' (_ & _ & He')%write_roundtrip. congruence.
Qed.
Lemma decode_canonical_witness :
  ∃ b v, Decode.decode codec_example b = Ok v ∧ Encode.encode codec_example v max_event = Ok b.
Proof.
  destruct (Encode.encode codec_example (canon codec_value) 100) as [b| |] eqn:H; [|vm_compute in H; discriminate..].
  destruct (Decode.decode codec_example b) as [v| |] eqn:Hd; [|vm_compute in H; injection H as <-; vm_compute in Hd; discriminate..].
  exists b, v. split; [exact Hd|]. apply (decode_canonical codec_example b v Hd).
Defined.

(** C33. Validating bytes is decoding without building: it never panics, it
    accepts exactly what [decode] accepts and fails with the same message. *)
Theorem validate_bytes_agrees s b : same_result (Decode.validate_bytes s b) (Decode.decode s b).
Proof.
  unfold Decode.validate_bytes, Decode.decode, Decode.validate_registered_bytes.
  pose proof (validate_total s). destruct (SchemaCheck.validate s); [|done..].
  pose proof (read_same s b) as Hs. by destruct (Decode.read false s b), (Decode.read true s b).
Qed.
