(* ===== verification/SchemaTypes.v ===== *)
(** * Which values a schema accepts

    A typing of values by schemas, and the size, the number of nodes and the depth of a
    value.  [encode_typed]: [Encode.encode] accepts exactly the well-typed values within
    the limits, and writes as many bytes as their size. *)
From S2P Require Import Prelude.
From S2P Require Import Collections.
From S2P Require Import Text.
From S2P Require Import Schema.
From S2P Require Import SchemaCodec.

#[local] Set Warnings "-register-all".
(** ** Types and measures *)
Inductive has_type : FieldType → Value → Prop :=
| ty_int a b x : (a ≤ x ≤ b)%Z → has_type (TyInt a b) (VInt x)
| ty_uint a b x : (a ≤ x ≤ b)%N → has_type (TyUInt a b) (VUInt x)
| ty_float nf x : (nf = false → is_finite x = true) → has_type (TyFloat nf) (VFloat x)
| ty_bool x : has_type TyBool (VBool x)
| ty_string m x : (str_len x ≤ m)%N → has_type (TyString m) (VString x)
| ty_bytes m x : (N.of_nat (length x) ≤ m)%N → has_type (TyBytes m) (VBytes x)
| ty_enum n vs x : (x < N.of_nat (length vs))%N → has_type (TyEnum n vs) (VEnum x)
| ty_none t : has_type (TyOptional t) (VOptional None)
| ty_some t v : has_type t v → has_type (TyOptional t) (VOptional (Some v))
| ty_seq t m vs : (N.of_nat (length vs) ≤ m)%N → Forall (has_type t) vs → has_type (TySequence t m) (VSequence vs)
| ty_record s vs : Forall2 (λ f, has_type (f_ty f)) (s_fields s) vs → has_type (TyRecord s) (VRecord vs).
(** Bytes written, nodes visited, and how deep they are nested. *)
Fixpoint value_size (v : Value) : N :=
  match v with
  | VInt _ | VUInt _ | VFloat _ => 8
  | VBool _ => 1
  | VString x => 4 + str_len x
  | VBytes x => 4 + N.of_nat (length x)
  | VEnum _ => 4
  | VOptional o => 1 + match o with Some v => value_size v | None => 0 end
  | VSequence l => 4 + foldr (λ v n, value_size v + n)%N 0%N l
  | VRecord l => foldr (λ v n, value_size v + n)%N 0%N l
  end.
Fixpoint value_nodes (v : Value) : N :=
  match v with
  | VOptional (Some v) => 1 + value_nodes v
  | VSequence l | VRecord l => 1 + foldr (λ v n, value_nodes v + n)%N 0%N l
  | _ => 1
  end.
Fixpoint value_depth (v : Value) : N :=
  match v with
  | VOptional (Some v) => 1 + value_depth v
  | VSequence l | VRecord l => foldr (λ v n, N.max (1 + value_depth v) n)%N 0%N l
  | _ => 0
  end.

(** ** Exactly when a writer succeeds *)
Section writes.
Context (max : N) (Hmax : (max ≤ max_event)%N).
(** [m] never panics; it succeeds iff [c] holds and [n] bytes and [k] nodes still fit,
    and then adds just those. *)
Definition writes (m : WrM unit) (n k : N) (c : Prop) : Prop :=
  ∀ w, (N.of_nat (length (wr_out w)) ≤ max)%N → (wr_nodes w ≤ max_value_nodes)%N →
    (m w).1 ≠ Panic ∧
    ((m w).1 = Ok tt ↔
      c ∧ (N.of_nat (length (wr_out w)) + n ≤ max)%N ∧ (wr_nodes w + k ≤ max_value_nodes)%N) ∧
    ((m w).1 = Ok tt →
      N.of_nat (length (wr_out (m w).2)) = (N.of_nat (length (wr_out w)) + n)%N ∧ wr_nodes (m w).2 = (wr_nodes w + k)%N).
Lemma writes_iff m n k (c c' : Prop) : writes m n k c → (c ↔ c') → writes m n k c'.
Proof. intros H Hc w Hl Hn. rewrite <- Hc. by apply H. Qed.
Lemma writes_conv m n n' k k' (c c' : Prop) : writes m n k c → n = n' → k = k' → (c ↔ c') → writes m n' k' c'.
Proof. intros H -> ->. by apply writes_iff. Qed.
Lemma writes_bind m m' n n' k k' c c' :
  writes m n k c → (c → writes m' n' k' c') → writes (m ;;; m') (n + n') (k + k') (c ∧ c').
Proof.
  intros H H' w Hl Hn. unfold bind. destruct (H w Hl Hn) as (Hp & Hok & Hout).
  destruct (m w) as [[[]|e|] w1]; simpl in *; [| |done].
  2: { split_and!; [done| |done]. split; [done|]. intros ([? ?] & ? & ?). apply Hok. split_and!; [done|lia..]. }
  destruct (Hout eq_refl) as [Ho1 Ho2]. destruct Hok as [Hok _]. specialize (Hok eq_refl) as (Hc & Hl1 & Hn1).
  destruct (H' Hc w1) as (Hp' & Hok' & Hout'); [lia..|]. rewrite Ho1, Ho2 in Hok', Hout'. split_and!; [done|..].
  - rewrite Hok'. rewrite !N.add_assoc. tauto.
  - rewrite !N.add_assoc. done.
Qed.
Lemma writes_map_err f m n k c : writes m n k c → writes (map_err f m) n k c.
Proof.
  intros H w Hl Hn. destruct (H w Hl Hn) as (Hp & Hok & Hout). unfold map_err.
  destruct (m w) as [[[]|e|] w1]; simpl in *; split_and!; try done. split; [done|]. intros Hc. apply Hok in Hc. done.
Qed.
Lemma writes_nothing m : (∀ w, m w = (Ok tt, w)) → writes m 0 0 True.
Proof.
  intros H w Hl Hn. rewrite H. simpl. rewrite !N.add_0_r. split; [done|]. split; [|done].
  split; [|done]. intros _. by split_and!.
Qed.
Lemma writes_refused m (c : Prop) n k : ¬ c → (∀ w, ∃ e, m w = (Err e, w)) → writes m n k c.
Proof. intros Hc H w Hl Hn. destruct (H w) as [e ->]. simpl. split; [done|]. split; [|done]. split; [done|]. by intros [? _]. Qed.
Lemma writes_ret : writes (ret tt) 0 0 True.
Proof. by apply writes_nothing. Qed.
Lemma writes_fail e n k : writes (fail e) n k False.
Proof. apply writes_refused; [tauto|]. intros w. by exists e. Qed.
Lemma writes_reject (b : bool) e : writes (reject_if b e) 0 0 (b = false).
Proof.
  destruct b; [apply writes_refused; [done|intros w; by exists e]|].
  eapply writes_iff; [by apply writes_nothing|done].
Qed.
Lemma writes_node d : writes (Encode.node d) 0 1 (d ≤ max_depth)%N.
Proof.
  intros w Hl Hn. unfold Encode.node, bind, modify, get. destruct w as [out nodes]. simpl in *.
  destruct (_ || _) eqn:Hc; simpl.
  - apply orb_true_iff in Hc. split_and!; [done|split; [done|lia]|done].
  - apply orb_false_iff in Hc. split_and!; [done|split; [intros _; split_and!; lia|done]|lia].
Qed.
Lemma writes_add b : writes (Encode.add max b) (N.of_nat (length b)) 0 True.
Proof.
  intros w Hl Hn. unfold Encode.add, bind, get, checked_add, max_event, usize_max, u64_max in *.
  destruct w as [out nodes]. simpl in *. case_decide; simpl.
  - destruct (max <? _)%N eqn:Hc; simpl.
    + split_and!; [done|split; [done|lia]|done].
    + rewrite length_app. split_and!; [done|split; [intros _; split_and!; [done|lia..]|done]|lia].
  - split_and!; [done|split; [done|lia]|done].
Qed.
Lemma writes_bytes b n : N.of_nat (length b) = n → writes (Encode.add max b) n 0 True.
Proof. intros <-. apply writes_add. Qed.
(** The check before a sequence: implied by its nodes. *)
Lemma writes_remaining (l k : N) e m n c :
  (l ≤ k)%N → writes m n k c →
  writes (let! w := get in reject_if (max_value_nodes - wr_nodes w <? l)%N e ;;; m) n k c.
Proof.
  intros Hlk H w Hl Hn. unfold bind, get. destruct (_ <? _)%N eqn:Hc; cbn [reject_if fail ret]; [|by apply H].
  simpl. split_and!; [done|split; [done|lia]|done].
Qed.

(** ** The encoder *)
Lemma total_cons (f : Value → N) v vs : foldr (λ v n, f v + n)%N 0%N (v :: vs) = (f v + foldr (λ v n, f v + n)%N 0%N vs)%N.
Proof. done. Qed.
Lemma depth_le d v vs :
  (d + foldr (λ v n, N.max (1 + value_depth v) n) 0 (v :: vs) ≤ max_depth ↔
   d + 1 + value_depth v ≤ max_depth ∧ d + foldr (λ v n, N.max (1 + value_depth v) n) 0 vs ≤ max_depth)%N.
Proof. simpl. lia. Qed.
Definition checks_type (t : FieldType) : Prop :=
  ∀ v d, writes (Encode.val max t v d) (value_size v) (value_nodes v) (has_type t v ∧ (d + value_depth v ≤ max_depth)%N).
Lemma fields_writes l : Forall (λ f : Field, checks_type (f_ty f)) l →
  ∀ vs d, length vs = length l → (d ≤ max_depth)%N →
  writes (Encode.fields (Encode.val max) l vs d)
    (foldr (λ v n, value_size v + n)%N 0%N vs) (foldr (λ v n, value_nodes v + n)%N 0%N vs)
    (Forall2 (λ f, has_type (f_ty f)) l vs ∧
     (d + foldr (λ v n, N.max (1 + value_depth v) n) 0 vs ≤ max_depth)%N).
Proof.
  induction 1 as [|[name t] l Ht Hall IH]; intros [|v vs] d Hl Hd; simplify_eq/=.
  - eapply writes_iff; [apply writes_ret|]. split; [intros _; split; [constructor|lia]|done].
  - eapply writes_iff; [eapply writes_bind; [apply writes_map_err, Ht|intros _; by apply IH]|].
    rewrite Forall2_cons. simpl. split; [intros [[? ?] [? ?]]|intros [[? ?] ?]]; split_and!; try done; lia.
Qed.
Lemma items_writes t d : checks_type t → ∀ vs i,
  (d ≤ max_depth)%N →
  writes (Encode.items (λ x, Encode.val max t x (d + 1)%N) vs i)
    (foldr (λ v n, value_size v + n)%N 0%N vs) (foldr (λ v n, value_nodes v + n)%N 0%N vs)
    (Forall (has_type t) vs ∧ (d + foldr (λ v n, N.max (1 + value_depth v) n) 0 vs ≤ max_depth)%N).
Proof.
  intros Ht. induction vs as [|v vs IH]; intros i Hd; simpl.
  - eapply writes_iff; [apply writes_ret|]. split; [intros _; split; [constructor|lia]|done].
  - eapply writes_iff; [eapply writes_bind; [apply writes_map_err, Ht|intros _; by apply IH]|].
    rewrite Forall_cons. split; [intros [[? ?] [? ?]]|intros [[? ?] ?]]; split_and!; try done; lia.
Qed.
Lemma u32_writes n : writes (Encode.add max (Encode.u32_bytes n)) 4 0 True.
Proof. apply writes_bytes. unfold Encode.u32_bytes. by rewrite length_le_encode. Qed.
Lemma num_writes k n : writes (Encode.add max (le_encode k n)) (N.of_nat k) 0 True.
Proof. apply writes_bytes. by rewrite length_le_encode. Qed.
Lemma mismatch_writes d n k (c : Prop) e : ¬ c → writes (Encode.node d ;;; fail e) n k c.
Proof.
  intros Hc w Hl Hn. unfold bind. destruct (writes_node d w Hl Hn) as (Hp & _).
  destruct (Encode.node d w) as [[[]|e'|] w']; simpl in *; [..|done]; split; try done; (split; [|done]); split; try done; by intros [? _].
Qed.
Lemma seq_nodes vs : (N.of_nat (length vs) ≤ foldr (λ v n, value_nodes v + n)%N 0%N vs)%N.
Proof.
  induction vs as [|v vs IH]; simpl; [lia|]. assert (1 ≤ value_nodes v)%N; [destruct v as [| | | | | | |[]| |]; simpl; lia|lia].
Qed.
Lemma record_writes s : Forall (λ f : Field, checks_type (f_ty f)) (s_fields s) →
  ∀ v d, writes (Encode.record (Encode.val max) s v d) (value_size v) (value_nodes v)
    (has_type (TyRecord s) v ∧ (d + value_depth v ≤ max_depth)%N).
Proof.
  destruct s as [name version l]. simpl. intros Hall v d.
  destruct v as [| | | | | | | | |vs]; try (apply mismatch_writes; by intros [H _]; inversion H).
  eapply writes_conv; [eapply writes_bind; [apply writes_node|intros Hd; eapply writes_bind; [apply writes_reject|intros Hl]]|..].
  - apply bool_decide_eq_false, dec_stable in Hl. by apply (fields_writes l Hall).
  - simpl. lia.
  - simpl. lia.
  - rewrite bool_decide_eq_false. split.
    + intros (Hd & Hl & Hf & Hdep). split; [by constructor|done].
    + intros [H Hdep]. inversion H as [| | | | | | | | | |? ? Hf]; subst. simpl in *.
      split_and!; [lia|intros Hl; apply Hl; symmetry; eapply Forall2_length; exact Hf|done|done].
Qed.
(** One case of [Encode.val] after its node. *)
Lemma leaf_writes m d n c (c' : Prop) :
  ((d ≤ max_depth)%N → writes m n 0 c) → (c ↔ c') →
  writes (Encode.node d ;;; m) n 1 (c' ∧ (d + 0 ≤ max_depth)%N).
Proof.
  intros H Hc. eapply writes_conv; [eapply writes_bind; [apply writes_node|exact H]|lia|lia|]. rewrite N.add_0_r. tauto.
Qed.
Lemma guarded_writes (b : bool) m e n c : writes m n 0 c → writes (if b then m else fail e) n 0 (b = true ∧ c).
Proof. intros H. destruct b; [eapply writes_iff; [exact H|tauto]|eapply writes_iff; [apply writes_fail|naive_solver]]. Qed.
Ltac mismatched := apply mismatch_writes; intros [Ht _]; inversion Ht.
Lemma bytes_writes (b : bool) e n body :
  N.of_nat (length body) = n →
  writes (reject_if b e ;;; Encode.add max (Encode.u32_bytes n) ;;; Encode.add max body) (4 + n) 0 (b = false).
Proof.
  intros Hn. eapply writes_conv.
  - eapply writes_bind; [apply writes_reject|]. intros _. eapply writes_bind; [apply u32_writes|].
    intros _. by apply writes_bytes.
  - lia.
  - lia.
  - tauto.
Qed.
Lemma val_writes_leaf t :
  (∀ s, t ≠ TyRecord s) → (∀ x, t ≠ TyOptional x) → (∀ x m, t ≠ TySequence x m) → checks_type t.
Proof.
  intros Hr Ho Hs v d.
  destruct t as [a b|a b|nf| |m|m|en vs|x|x m|s]; [..|by destruct (Ho x)|by destruct (Hs x m)|by destruct (Hr s)];
    clear Hr Ho Hs; destruct v; try mismatched; cbn [Encode.val value_size value_nodes value_depth]; (eapply leaf_writes; [intros _|]).
  - apply guarded_writes, (num_writes 8).
  - split; [intros [? _]; constructor; lia|inversion 1; lia].
  - apply guarded_writes, (num_writes 8).
  - split; [intros [? _]; constructor; lia|inversion 1; lia].
  - eapply writes_conv; [eapply writes_bind; [apply writes_reject|intros _; apply (num_writes 8)]|done|done|reflexivity].
  - split.
    + intros [Hf _]. constructor. intros ->. by apply negb_false_iff in Hf.
    + inversion 1 as [| |? ? Hf| | | | | | | |]; subst. split; [|exact I]. destruct nf; [reflexivity|]. rewrite (Hf eq_refl). reflexivity.
  - by apply writes_bytes.
  - split; [constructor|done].
  - apply bytes_writes. unfold str_len. by rewrite length_bytes_of.
  - split; [constructor; lia|inversion 1; lia].
  - by apply bytes_writes.
  - split; [constructor; lia|inversion 1; lia].
  - apply guarded_writes, (num_writes 4).
  - split; [intros [? _]; constructor; lia|inversion 1; lia].
Qed.
Lemma val_writes t : checks_type t.
Proof.
  induction t using FieldType_nested_ind; try (apply val_writes_leaf; done).
  - intros v d. destruct v as [| | | | | | |[v|]| |]; try mismatched; cbn [Encode.val].
    + eapply writes_conv; [eapply writes_bind; [apply writes_node|]; intros Hd; eapply writes_bind; [by apply writes_bytes|intros _; apply IHt]|..];
        [simpl; lia|simpl; lia|]. simpl. split; [intros (? & _ & ? & ?); split; [by constructor|lia]|].
      intros [Ht ?]. inversion Ht. split_and!; try done; lia.
    + apply leaf_writes with (c:=True); [intros _; by apply writes_bytes|]. split; [constructor|done].
  - intros v d. destruct v as [| | | | | | | |vs|]; try mismatched; cbn [Encode.val].
    destruct (_ <=? _)%N eqn:Hlen; [|apply mismatch_writes; intros [Ht _]; inversion Ht; lia].
    eapply writes_conv; [eapply writes_bind; [apply writes_node|intros Hd]|..].
    + apply (writes_remaining _ _ _ _ _ _ (seq_nodes vs)).
      eapply writes_conv; [eapply writes_bind; [apply u32_writes|intros _; by apply items_writes]|reflexivity|by rewrite N.add_0_l|reflexivity].
    + simpl. lia.
    + simpl. lia.
    + simpl. split; [intros (? & _ & ? & ?); split; [constructor; [lia|done]|done]|].
      intros [Ht ?]. inversion Ht. split_and!; try done; lia.
  - intros v d. by apply record_writes.
Qed.
End writes.

(** C12. Encoding is exactly typing: for a valid schema, a value is accepted iff it is
    well typed, within the byte limit given (itself at most 1 MiB), has at most 4096
    nodes and is at most 16 levels deep; the bytes written are as many as its size; and
    no value makes the encoder panic. *)
Theorem encode_typed s v max :
  SchemaCheck.validate s = Ok tt →
  Encode.encode s v max ≠ Panic ∧
  ((∃ b, Encode.encode s v max = Ok b) ↔
   has_type (TyRecord s) v ∧ (max ≤ max_event)%N ∧ (value_size v ≤ max)%N ∧
   (value_nodes v ≤ max_value_nodes)%N ∧ (value_depth v ≤ max_depth)%N) ∧
  (∀ b, Encode.encode s v max = Ok b → N.of_nat (length b) = value_size v).
Proof.
  intros Hs. unfold Encode.encode. rewrite Hs. destruct (max_event <? max)%N eqn:Hmax.
  { split_and!; [done|split; [by intros [? ?]|intros (_ & ? & _); lia]|done]. }
  assert (max ≤ max_event)%N as Hle by lia.
  assert (Forall (λ f : Field, checks_type max (f_ty f)) (s_fields s)) as Hall
    by (apply Forall_forall; intros; apply val_writes; lia).
  destruct (writes_map_err _ (λ e, at_field e (s_name s)) _ _ _ _ (record_writes max Hle s Hall v 0) (MkWriter [] 0)) as (Hp & Hok & Hlen);
    [simpl; lia..|].
  destruct (map_err _ _ _) as [[[]|e|] w]; simpl in *; [..|done].
  - split_and!; [done| |intros b [= <-]; by destruct (Hlen eq_refl) as [-> _]].
    split; [intros _|eauto]. destruct Hok as [Hok _]. specialize (Hok eq_refl) as ([? ?] & ? & ?). split_and!; try done; lia.
  - split_and!; [done| |done]. split; [by intros [? ?]|]. intros (? & ? & ? & ? & ?).
    destruct Hok as [_ Hok]. enough (Err (E:=string) (A:=unit) e = Ok tt) by done. apply Hok. split_and!; try done; lia.
Qed.
Lemma encode_typed_witness :
  SchemaCheck.validate codec_example = Ok tt ∧
  ∀ b, Encode.encode codec_example codec_value 100 = Ok b → N.of_nat (length b) = value_size codec_value.
Proof.
  assert (SchemaCheck.validate codec_example = Ok tt) as H by (vm_compute; reflexivity).
  split; [exact H|]. apply (encode_typed codec_example codec_value 100 H).
Defined.
