(* ===== verification/SchemaRegistry.v ===== *)
(** * Schema registry

    [SchemaRegistry] of [crates/runtime-core/src/schema.rs]: schemas are
    registered in batches under their (name, version) identity.  A batch is
    validated, checked for identity collisions in nested records, against
    itself and against everything registered, staged, and committed as a whole;
    ids are never reused. *)
From S2P Require Import Prelude Collections Text Schema SchemaCodec.

(** ** [PartialEq] of the source's derives *)
Section fields_eqb.
Context (ty_eqb : FieldType → FieldType → bool).
Fixpoint fields_eqb (l l' : list Field) : bool :=
  match l, l' with
  | [], [] => true
  | MkField n t :: l, MkField n' t' :: l' => bool_decide (n = n') && ty_eqb t t' && fields_eqb l l'
  | _, _ => false
  end.
Definition schema_eqb_ (s s' : Schema) : bool :=
  let 'MkSchema n v l := s in
  let 'MkSchema n' v' l' := s' in
  bool_decide (n = n') && (v =? v')%N && fields_eqb l l'.
End fields_eqb.
Fixpoint ty_eqb (t t' : FieldType) : bool :=
  match t, t' with
  | TyInt a b, TyInt a' b' => (a =? a')%Z && (b =? b')%Z
  | TyUInt a b, TyUInt a' b' => (a =? a')%N && (b =? b')%N
  | TyFloat x, TyFloat x' => Bool.eqb x x'
  | TyBool, TyBool => true
  | TyString m, TyString m' | TyBytes m, TyBytes m' => (m =? m')%N
  | TyEnum n vs, TyEnum n' vs' => bool_decide (n = n') && bool_decide (vs = vs')
  | TyOptional x, TyOptional x' => ty_eqb x x'
  | TySequence x m, TySequence x' m' => ty_eqb x x' && (m =? m')%N
  | TyRecord s, TyRecord s' => schema_eqb_ ty_eqb s s'
  | _, _ => false
  end.
Definition schema_eqb : Schema → Schema → bool := schema_eqb_ ty_eqb.

Lemma fields_eqb_eq l : Forall (λ f : Field, ∀ t', ty_eqb (f_ty f) t' = true ↔ f_ty f = t') l →
  ∀ l', fields_eqb ty_eqb l l' = true ↔ l = l'.
Proof.
  induction 1 as [|[n t] l Ht Hall IH]; intros [|[n' t'] l']; simpl; try done.
  simpl in Ht. rewrite !andb_true_iff, bool_decide_eq_true, Ht, IH. naive_solver.
Qed.
Lemma ty_eqb_eq t : ∀ t', ty_eqb t t' = true ↔ t = t'.
Proof.
  induction t using FieldType_nested_ind; intros []; simpl;
    rewrite ?andb_true_iff, ?bool_decide_eq_true, ?Z.eqb_eq, ?N.eqb_eq, ?eqb_true_iff, ?IHt;
    try (split; [discriminate|congruence]); try naive_solver.
  destruct s as [n v l], s0 as [n' v' l']. simpl in *.
  rewrite !andb_true_iff, bool_decide_eq_true, N.eqb_eq, fields_eqb_eq by done. naive_solver.
Qed.
Lemma schema_eqb_eq s s' : schema_eqb s s' = true ↔ s = s'.
Proof.
  pose proof (ty_eqb_eq (TyRecord s) (TyRecord s')) as H. simpl in H. unfold schema_eqb.
  rewrite H. split; congruence.
Qed.
#[export] Instance schema_eq_dec : EqDecision Schema.
Proof.
  intros s s'. destruct (schema_eqb s s') eqn:H; [left|right].
  - by apply schema_eqb_eq.
  - intros Hs%schema_eqb_eq. congruence.
Defined.

(** ** State *)
Abbreviation Key := (string * N)%type.
Definition key_of (s : Schema) : Key := (s_name s, s_version s).
Record SchemaRegistry := MkSchemaRegistry {
  sr_max : N;
  sr_next : N;
  sr_items : gmap Key (N * Schema);
}.
#[export] Instance SchemaRegistry_expand : Expand SchemaRegistry := λ r,
  MkSchemaRegistry (sr_max r) (sr_next r) (sr_items r).
Abbreviation SrM := (M SchemaRegistry string).

Module Registry.
(** ** [collect] and [walk]: the state is the [seen] map *)
Definition visit (s : Schema) : M (gmap Key Schema) string unit :=
  let! seen := get in
  match seen !! key_of s with
  | Some old => reject_if (negb (schema_eqb old s)) (err "nested schema identity collision")
  | None => modify (<[key_of s := s]>)
  end.
Section collect.
Context (walk : FieldType → M (gmap Key Schema) string unit).
Fixpoint walk_fields (l : list Field) : M (gmap Key Schema) string unit :=
  match l with
  | [] => ret tt
  | MkField _ ty :: l => walk ty ;;; walk_fields l
  end.
Definition collect_ (s : Schema) : M (gmap Key Schema) string unit :=
  visit s ;;;
  let 'MkSchema _ _ fields := s in
  walk_fields fields.
End collect.
Fixpoint walk (t : FieldType) : M (gmap Key Schema) string unit :=
  match t with
  | TyOptional x | TySequence x _ => walk x
  | TyRecord s => collect_ walk s
  | _ => ret tt
  end.
Definition collect : Schema → M (gmap Key Schema) string unit := collect_ walk.

Definition len (r : SchemaRegistry) : N := N.of_nat (size (sr_items r)).
Definition is_empty (r : SchemaRegistry) : bool := (len r =? 0)%N.

Definition new (max : N) : outcome string SchemaRegistry :=
  if (max =? 0)%N || (65536 <? max)%N then Err (err "schema registry limit")
  else Ok (MkSchemaRegistry (N.min max 65536) 1 ∅).

(** The staging loop, over the copies of [items] and [next]. *)
Record Staged := MkStaged { sg_items : gmap Key (N * Schema); sg_next : N; sg_ids : list N }.
Fixpoint stage (max : N) (schemas : list Schema) (g : Staged) : outcome string Staged :=
  match schemas with
  | [] => Ok g
  | s :: schemas =>
      match sg_items g !! key_of s with
      | Some (id, old) =>
          if schema_eqb old s then stage max schemas (MkStaged (sg_items g) (sg_next g) (sg_ids g ++ [id]))
          else Err (err "schema identity collision")
      | None =>
          if (max <=? N.of_nat (size (sg_items g)))%N then Err (err "schema registry limit") else
          match checked_add u32_max (sg_next g) 1 with
          | None => Err (err "schema id limit")
          | Some next =>
              stage max schemas (MkStaged (<[key_of s := (sg_next g, normalized_clone s)]> (sg_items g)) next
                                   (sg_ids g ++ [sg_next g]))
          end
      end
  end.

Definition register_batch (schemas : list Schema) : SrM (list N) :=
  let! r := get in
  reject_if (sr_max r <? N.of_nat (length schemas))%N (err "schema registration batch exceeds limit") ;;;
  for_each (λ s, of_outcome (SchemaCheck.validate s)) schemas ;;;
  of_outcome (for_each collect (schemas ++ (snd <$> (map_to_list (sr_items r)).*2)) ∅).1 ;;;
  let! g := of_outcome (stage (sr_max r) schemas (MkStaged (sr_items r) (sr_next r) [])) in
  modify (λ r, r <| sr_items := sg_items g |> <| sr_next := sg_next g |>) ;;;
  ret (sg_ids g).

Definition register (s : Schema) : SrM N :=
  let! ids := register_batch [s] in
  expect (head ids).

Definition schema (r : SchemaRegistry) (id : N) : outcome string Schema :=
  match find (λ '(i, _), (i =? id)%N) (map_to_list (sr_items r)).*2 with
  | Some (_, s) => Ok s
  | None => Err (err "unknown schema")
  end.
End Registry.

(** ** The schemas a schema contains, itself first, in the order [collect] visits them *)
Section subs.
Context (subs_ty : FieldType → list Schema).
Fixpoint subs_fields (l : list Field) : list Schema :=
  match l with
  | [] => []
  | MkField _ ty :: l => subs_ty ty ++ subs_fields l
  end.
Definition subschemas_ (s : Schema) : list Schema :=
  s :: (let 'MkSchema _ _ fields := s in subs_fields fields).
End subs.
Fixpoint subs_ty (t : FieldType) : list Schema :=
  match t with
  | TyOptional x | TySequence x _ => subs_ty x
  | TyRecord s => subschemas_ subs_ty s
  | _ => []
  end.
Definition subschemas : Schema → list Schema := subschemas_ subs_ty.

Lemma walk_visits t : ∀ m, Registry.walk t m = for_each Registry.visit (subs_ty t) m.
Proof.
  induction t using FieldType_nested_ind; intros m'; cbn [Registry.walk subs_ty]; auto.
  destruct s as [n v l]. unfold Registry.collect_, bind. cbn [subschemas_ for_each s_fields] in *. unfold bind.
  destruct (Registry.visit _ m') as [[u|e|] m1]; try done. clear m'. revert m1.
  induction H as [|[fn ft] l Ht Hall IH]; intros m1; cbn [Registry.walk_fields subs_fields]; [done|].
  rewrite for_each_app. unfold bind. simpl in Ht. rewrite Ht.
  destruct (for_each _ (subs_ty ft) m1) as [[?|?|] ?]; [apply IH|done..].
Qed.
Lemma collect_visits s m : Registry.collect s m = for_each Registry.visit (subschemas s) m.
Proof. exact (walk_visits (TyRecord s) m). Qed.
Lemma collect_all_visits l : ∀ m, for_each Registry.collect l m = for_each Registry.visit (l ≫= subschemas) m.
Proof.
  induction l as [|s l IH]; intros m; [done|]. cbn [for_each]. change ((s :: l) ≫= subschemas) with (subschemas s ++ (l ≫= subschemas)).
  rewrite for_each_app. unfold bind. rewrite collect_visits.
  destruct (for_each _ (subschemas s) m) as [[?|?|] ?]; [apply IH|done..].
Qed.

(** One schema per identity. *)
Definition coherent (m : gmap Key Schema) (l : list Schema) : Prop :=
  ∀ x, x ∈ l → m !! key_of x = Some x.

Lemma visits_ok l : ∀ m u m', for_each Registry.visit l m = (Ok u, m') → m ⊆ m' ∧ coherent m' l.
Proof.
  induction l as [|s l IH]; intros m u m' H; cbn [for_each] in H.
  { unfold ret in H. simplify_eq. split; [done|]. intros x Hx. set_solver. }
  apply bind_ok in H as (a & m1 & H1 & H). apply IH in H as [Hsub Hc].
  assert (m ⊆ m1 ∧ m1 !! key_of s = Some s) as [Hm1 Hs].
  { unfold Registry.visit in H1. inv_ok H1. destruct (m !! key_of s) as [old|] eqn:Hold.
    - inv_ok H1. subst. apply negb_false_iff, schema_eqb_eq in Hc0 as ->. done.
    - unfold modify in H1. simplify_eq. split; [by apply insert_subseteq|by simplify_map_eq]. }
  split; [by etrans|]. intros x [->|Hx]%elem_of_cons; [by eapply lookup_weaken|by apply Hc].
Qed.
Lemma visits_succeed l M : coherent M l → ∀ m, m ⊆ M → (for_each Registry.visit l m).1 = Ok tt.
Proof.
  induction l as [|s l IH]; intros Hc m Hm; cbn [for_each]; [done|].
  pose proof (Hc s ltac:(set_solver)) as Hs. unfold bind, Registry.visit at 1, bind at 1, get.
  destruct (m !! key_of s) as [old|] eqn:Hold.
  - assert (old = s) as -> by (eapply lookup_weaken in Hold; [|done]; congruence).
    rewrite (proj2 (schema_eqb_eq s s) eq_refl). simpl. apply IH; [|done]. intros x Hx. apply Hc. set_solver.
  - apply IH; [intros x Hx; apply Hc; set_solver|]. by apply insert_subseteq_l.
Qed.
Lemma visits_total l : ∀ m, (for_each Registry.visit l m).1 ≠ Panic.
Proof.
  intros m. apply (keeps_for_each (λ _, True)); [|done]. intros s. unfold Registry.visit. by keeps.
Qed.

(** ** Invariant *)
Record items_wf (m : gmap Key Schema) (items : gmap Key (N * Schema)) (next : N) : Prop := {
  iw_next : next = N.succ (N.of_nat (size items));
  iw_item : ∀ k id s, items !! k = Some (id, s) →
    (1 ≤ id < next)%N ∧ key_of s = k ∧ SchemaCheck.validate s = Ok tt ∧ coherent m (subschemas s);
  iw_inj : ∀ k k' id s s', items !! k = Some (id, s) → items !! k' = Some (id, s') → k = k';
}.
Record registry_wf (r : SchemaRegistry) : Prop := {
  rw_max : (1 ≤ sr_max r ≤ 65536)%N;
  rw_size : (N.of_nat (size (sr_items r)) ≤ sr_max r)%N;
  rw_items : ∃ m, items_wf m (sr_items r) (sr_next r);
}.

Lemma items_wf_weaken m m' items next :
  (∀ k id s, items !! k = Some (id, s) → coherent m' (subschemas s)) →
  items_wf m items next → items_wf m' items next.
Proof.
  intros Hm [Hn Hi Hj]. split; [done| |done]. intros k id s Hk.
  destruct (Hi k id s Hk) as (? & ? & ? & ?). split_and!; eauto; lia.
Qed.

Lemma schema_lookup m r id s k :
  items_wf m (sr_items r) (sr_next r) → sr_items r !! k = Some (id, s) → Registry.schema r id = Ok s.
Proof.
  intros [_ _ Hj] Hk. unfold Registry.schema.
  destruct (find _ _) as [[id' s']|] eqn:Hf.
  - apply find_some in Hf as [Hin Heq]. apply N.eqb_eq in Heq as ->.
    apply list_elem_of_In, list_elem_of_fmap in Hin as ([k' [? ?]] & ? & Hin). simpl in *. simplify_eq.
    apply elem_of_map_to_list in Hin. pose proof (Hj _ _ _ _ _ Hk Hin) as <-. by simplify_eq.
  - exfalso. assert ((id, s) ∈ (map_to_list (sr_items r)).*2) as Hin.
    { apply list_elem_of_fmap. exists (k, (id, s)). by rewrite elem_of_map_to_list. }
    apply list_elem_of_In in Hin. pose proof (find_none _ _ Hf _ Hin) as Hid. simpl in Hid.
    by rewrite N.eqb_refl in Hid.
Qed.

Lemma normalized_clone_id s : normalized_clone s = s.
Proof.
  pose proof (normalize_ty_id (TyRecord s)) as H. destruct s as [n v l]. simpl in H. unfold normalized_clone. simpl. congruence.
Qed.

(** ** Staging *)
Record stage_spec (m : gmap Key Schema) (l : list Schema) (g g' : Registry.Staged) : Prop := {
  ss_wf : items_wf m (Registry.sg_items g') (Registry.sg_next g');
  ss_sub : Registry.sg_items g ⊆ Registry.sg_items g';
  ss_ids : ∃ ids, Registry.sg_ids g' = Registry.sg_ids g ++ ids ∧
    Forall2 (λ s id, Registry.sg_items g' !! key_of s = Some (id, s)) l ids;
}.
Lemma stage_ok max m l : ∀ g,
  Forall (λ s, SchemaCheck.validate s = Ok tt ∧ coherent m (subschemas s)) l →
  items_wf m (Registry.sg_items g) (Registry.sg_next g) →
  (N.of_nat (size (Registry.sg_items g)) ≤ max)%N →
  match Registry.stage max l g with
  | Ok g' => stage_spec m l g g' ∧ (N.of_nat (size (Registry.sg_items g')) ≤ max)%N
  | Err _ => True
  | Panic => False
  end.
Proof.
  induction l as [|s l IH]; intros g Hl Hg Hmax; cbn [Registry.stage].
  { split; [|done]. split; [done..|]. exists []. by rewrite app_nil_r. }
  apply Forall_cons in Hl as [[Hval Hcoh] Hl]. destruct (Registry.sg_items g !! key_of s) as [[id old]|] eqn:Hk.
  - destruct (schema_eqb old s) eqn:Hs; [|done]. apply schema_eqb_eq in Hs as ->.
    specialize (IH (Registry.MkStaged (Registry.sg_items g) (Registry.sg_next g) (Registry.sg_ids g ++ [id])) Hl Hg Hmax).
    destruct (Registry.stage _ _ _) as [g'|e|]; [|done..]. destruct IH as [[Hw Hsub (ids & Hids & Hall)] Hsz].
    split; [|done]. split; [done..|]. exists (id :: ids). simpl in *. rewrite Hids, <- app_assoc. split; [done|].
    constructor; [|done]. by eapply lookup_weaken.
  - destruct (max <=? _)%N eqn:Hsz; [done|]. unfold checked_add. case_decide as Hb; [|done].
    rewrite normalized_clone_id. destruct Hg as [Hn Hi Hj].
    assert (items_wf m (<[key_of s := (Registry.sg_next g, s)]> (Registry.sg_items g)) (Registry.sg_next g + 1)) as Hwf.
    { split.
      - rewrite map_size_insert_None by done. lia.
      - intros k id s' [[<- [= <- <-]]|[Hne Hk']]%lookup_insert_Some; [split_and!; auto; lia|].
        destruct (Hi _ _ _ Hk') as (? & ? & ? & ?). split_and!; auto; lia.
      - intros k k' id s1 s2 [[<- [= <- <-]]|[Hne H1]]%lookup_insert_Some [[<- Heq]|[Hne' H2]]%lookup_insert_Some;
          [done| | |by eapply Hj].
        + apply Hi in H2. lia.
        + simplify_eq. apply Hi in H1. lia. }
    specialize (IH (Registry.MkStaged _ _ (Registry.sg_ids g ++ [Registry.sg_next g])) Hl Hwf).
    cbn [Registry.sg_items] in IH. rewrite map_size_insert_None in IH by done. specialize (IH ltac:(lia)).
    destruct (Registry.stage _ _ _) as [g'|e|]; [|done..]. destruct IH as [[Hw Hsub (ids & Hids & Hall)] Hsz'].
    cbn [Registry.sg_items Registry.sg_ids] in *. split; [|done]. split; [done| |].
    + etrans; [|exact Hsub]. by apply insert_subseteq.
    + exists (Registry.sg_next g :: ids). rewrite Hids, <- app_assoc. split; [done|]. constructor; [|done].
      eapply lookup_weaken; [|exact Hsub]. by simplify_map_eq.
Qed.

(** Staging a batch that is already there only reads. *)
Lemma stage_known max l ids items next ids0 :
  Forall2 (λ s id, items !! key_of s = Some (id, s)) l ids →
  Registry.stage max l (Registry.MkStaged items next ids0) = Ok (Registry.MkStaged items next (ids0 ++ ids)).
Proof.
  intros Hall. revert ids0. induction Hall as [|s id l ids Hs Hall IH]; intros ids0; cbn [Registry.stage Registry.sg_items].
  { by rewrite app_nil_r. }
  rewrite Hs, (proj2 (schema_eqb_eq s s) eq_refl), IH. simpl. by rewrite <- app_assoc.
Qed.

(** ** Registration *)
Lemma validate_all_ok l (r : SchemaRegistry) :
  match for_each (E:=string) (λ s, of_outcome (SchemaCheck.validate s)) l r with
  | (Ok _, r') => r' = r ∧ Forall (λ s, SchemaCheck.validate s = Ok tt) l
  | (Err _, r') => r' = r
  | (Panic, _) => False
  end.
Proof.
  induction l as [|s l IH]; simpl; [done|]. unfold bind, of_outcome at 1.
  pose proof (validate_total s). destruct (SchemaCheck.validate s) as [[]|e|] eqn:Hs; [|done..].
  destruct (for_each _ l r) as [[u|e|] r']; [|done..]. destruct IH as [-> Hl]. split; [done|]. by constructor.
Qed.

Lemma elem_of_nested items (l : list Schema) s x :
  (s ∈ l ∨ ∃ k id, items !! k = Some (id, s)) → x ∈ subschemas s →
  x ∈ (l ++ (snd <$> (map_to_list (items : gmap Key (N * Schema))).*2)) ≫= subschemas.
Proof.
  intros Hs Hx. apply list_elem_of_bind. exists s. split; [done|]. apply elem_of_app.
  destruct Hs as [|(k & id & Hk)]; [by left|right]. apply list_elem_of_fmap. exists (id, s). split; [done|].
  apply list_elem_of_fmap. exists (k, (id, s)). by rewrite elem_of_map_to_list.
Qed.

Definition registered (r : SchemaRegistry) (l : list Schema) (ids : list N) : Prop :=
  Forall2 (λ s id, sr_items r !! key_of s = Some (id, s)) l ids.
Definition register_spec (l : list Schema) (r : SchemaRegistry) (o : outcome string (list N)) (r' : SchemaRegistry) : Prop :=
  registry_wf r' ∧
  match o with
  | Ok ids => sr_items r ⊆ sr_items r' ∧ sr_max r' = sr_max r ∧ (N.of_nat (length l) ≤ sr_max r)%N ∧
      registered r' l ids
  | Err _ => r' = r
  | Panic => False
  end.
Lemma register_batch_ok l r : registry_wf r →
  register_spec l r (Registry.register_batch l r).1 (Registry.register_batch l r).2.
Proof.
  intros Hwf. pose proof Hwf as [Hmax Hsize [m Hm]]. unfold Registry.register_batch, register_spec.
  rewrite (bind_run get _ r r r) by done.
  destruct (sr_max r <? _)%N eqn:Hlen; [by split|]. rewrite (bind_run (reject_if false _) _ r tt r) by done.
  unfold bind, ret.
  pose proof (validate_all_ok l r) as Hv.
  destruct (for_each (λ s, of_outcome (SchemaCheck.validate s)) l r) as [[u|e|] r0]; [|by subst|done].
  destruct Hv as [-> Hv]. rewrite collect_all_visits. unfold of_outcome, modify.
  set (all := (l ++ _) ≫= subschemas). pose proof (visits_total all ∅) as Htot.
  destruct (for_each Registry.visit all ∅) as [[u'|e|] m'] eqn:Hvis; cbn [fst snd] in *; [|done..].
  apply visits_ok in Hvis as [_ Hc].
  assert (items_wf m' (sr_items r) (sr_next r)) as Hm'.
  { eapply items_wf_weaken; [|exact Hm]. intros k id s Hk x Hx. apply Hc. eapply elem_of_nested; eauto. }
  pose proof (stage_ok (sr_max r) m' l (Registry.MkStaged (sr_items r) (sr_next r) [])) as Hst.
  cbn [Registry.sg_items Registry.sg_next] in Hst.
  destruct (Registry.stage _ _ _) as [g|e|]; cbn [fst snd].
  - destruct Hst as [[Hw Hsub (ids & Hids & Hall)] Hsz]; [|done..|].
    { rewrite Forall_forall in *. intros s Hs. split; [by apply Hv|]. intros x Hx. apply Hc. eapply elem_of_nested; eauto. }
    cbn [Registry.sg_ids] in Hids. simpl in Hids. subst.
    split; [split; [done..|by exists m']|]. split_and!; [done|done|lia|done].
  - split; [done|done].
  - exfalso. apply Hst; [|done..]. rewrite Forall_forall in *. intros s Hs. split; [by apply Hv|].
    intros x Hx. apply Hc. eapply elem_of_nested; eauto.
Qed.

Lemma registry_new_wf max r : Registry.new max = Ok r → registry_wf r.
Proof.
  unfold Registry.new. case_match eqn:H; [done|]. intros [= <-]. apply orb_false_iff in H.
  split; simpl; [lia|rewrite map_size_empty; lia|]. exists ∅. split; [by rewrite map_size_empty|..]; intros *; by rewrite lookup_empty.
Qed.

Lemma register_again l ids r : registry_wf r → (N.of_nat (length l) ≤ sr_max r)%N →
  registered r l ids → Registry.register_batch l r = (Ok ids, r).
Proof.
  intros [Hmax Hsize [m Hm]] Hlen Hreg. unfold Registry.register_batch.
  assert (Forall (λ s, ∃ k id, sr_items r !! k = Some (id, s)) l) as Hin.
  { clear -Hreg. induction Hreg; constructor; eauto. }
  rewrite Forall_forall in Hin. rewrite (bind_run _ _ _ r r) by done.
  rewrite (bind_run _ _ _ tt r) by (apply reject_if_run; lia).
  pose proof (validate_all_ok l r) as Hv.
  assert (for_each (E:=string) (λ s, of_outcome (SchemaCheck.validate s)) l r = (Ok tt, r)) as Hval.
  { clear -Hin Hm. induction l as [|s l IH]; cbn [for_each]; [done|].
    destruct (Hin s) as (k & id & Hk); [set_solver|]. apply (iw_item _ _ _ Hm) in Hk as (_ & _ & Hs & _).
    unfold bind, of_outcome at 1. rewrite Hs. apply IH. intros x Hx. apply Hin. set_solver. }
  rewrite (bind_run _ _ _ tt r) by exact Hval. rewrite collect_all_visits.
  rewrite (bind_run _ _ _ tt r).
  2: { unfold of_outcome. f_equal. apply (visits_succeed _ m); [|apply map_empty_subseteq].
    intros x (s & Hx & Hs)%list_elem_of_bind. apply elem_of_app in Hs as [Hs|Hs].
    - destruct (Hin s Hs) as (k & id & Hk). by apply (iw_item _ _ _ Hm) in Hk as (_ & _ & _ & Hc); apply Hc.
    - apply list_elem_of_fmap in Hs as ([id s0] & -> & Hs). apply list_elem_of_fmap in Hs as ([k p] & Hp & Hs). simpl in Hp, Hx. subst p.
      apply elem_of_map_to_list in Hs. by apply (iw_item _ _ _ Hm) in Hs as (_ & _ & _ & Hc); apply Hc. }
  rewrite (stage_known _ _ _ _ _ _ Hreg). unfold of_outcome, bind, modify, ret. simpl. by destruct r.
Qed.

(** Batches registered one after another, each error ignored. *)
Definition register_all (batches : list (list Schema)) (r : SchemaRegistry) : SchemaRegistry :=
  foldl (λ r l, (Registry.register_batch l r).2) r batches.

(** C31. Registering a batch is all or nothing, and identities are permanent.
    From any registry reached from [new] by any batches: a failing batch changes
    nothing; a batch that succeeds keeps every earlier registration under its id,
    gives each schema of the batch an id under which [schema] returns that very
    schema, and the same batch again returns the same ids and changes nothing.
    Throughout, the registry stays within its limit, and a (name, version) pair
    names one schema everywhere, nested records included. *)
Theorem register_batch_exact max r0 batches l :
  Registry.new max = Ok r0 →
  let r := register_all batches r0 in
  let '(o, r') := Registry.register_batch l r in
  registry_wf r ∧ registry_wf r' ∧
  match o with
  | Panic => False
  | Err _ => r' = r
  | Ok ids =>
      sr_items r ⊆ sr_items r' ∧
      Forall2 (λ s id, Registry.schema r' id = Ok s) l ids ∧
      Registry.register_batch l r' = (Ok ids, r')
  end.
Proof.
  intros Hnew. cbv zeta. destruct (Registry.register_batch l _) as [o r'] eqn:Hrun.
  assert (registry_wf (register_all batches r0)) as Hwf.
  { apply registry_new_wf in Hnew. clear Hrun. revert r0 Hnew. induction batches as [|b bs IH]; intros r0 Hr; [done|].
    apply IH. apply (register_batch_ok b r0 Hr). }
  split; [done|]. pose proof (register_batch_ok l _ Hwf) as [Hwf' Ho]. rewrite Hrun in *. simpl in *.
  split; [done|]. destruct o as [ids|e|]; [|done..]. destruct Ho as (Hsub & Hmax & Hlen & Hreg).
  split; [done|]. split; [|apply register_again; [done|lia|done]].
  destruct Hwf' as [_ _ [m Hm]]. eapply Forall2_impl; [exact Hreg|]. intros s id Hs. exact (schema_lookup m r' id s _ Hm Hs).
Qed.
Lemma register_batch_exact_witness :
  ∃ r0, Registry.new 4 = Ok r0 ∧
  let leg := MkSchema "Leg" 1 [MkField "ok" TyBool] in
  let r := register_all [[leg]; [MkSchema "Leg" 1 []]] r0 in
  registry_wf r ∧ (Registry.register_batch [codec_example] r).1 = Err "nested schema identity collision"%string.
Proof.
  eexists. split; [reflexivity|]. cbv zeta. split; [|vm_compute; reflexivity].
  pose proof (register_batch_exact 4 _ [[MkSchema "Leg" 1 [MkField "ok" TyBool]]; [MkSchema "Leg" 1 []]] [codec_example] eq_refl) as H.
  cbv zeta in H. destruct (Registry.register_batch _ _) in H. apply H.
Defined.
