(* ===== verification/Activity.v ===== *)
(** * Activity versions

    [ActivityRegistry] of [crates/runtime-core/src/activity.rs]: one version
    counter and at most one waiting observer per actor slot.  A waker is its
    identity, a number ([will_wake] compares identities); the wakers an
    operation invokes or hands back are values it returns. *)
From S2P Require Import Prelude Collections Text Types.

Record Slot := MkSlot { sl_actor : ActorRef; sl_version : N; sl_overflow : bool; sl_waker : option N }.
#[export] Instance Slot_expand : Expand Slot := λ r,
  MkSlot (sl_actor r) (sl_version r) (sl_overflow r) (sl_waker r).
Record Retired := MkRetired { re_waker : N; re_wake : bool }.
Record ActivityRegistry := MkActivity { ac_slots : gmap N Slot; ac_dirty : gset N }.
#[export] Instance ActivityRegistry_expand : Expand ActivityRegistry := λ r,
  MkActivity (ac_slots r) (ac_dirty r).

Inductive poll_result :=
| Pending
| Ready (r : error + N).

Module Activity.
Definition new : ActivityRegistry := MkActivity ∅ ∅.
Definition fresh_slot (actor : ActorRef) : Slot := MkSlot actor 1 false None.
(** [entry(actor.slot).or_insert_with(..)] *)
Definition slot_of (actor : ActorRef) (g : ActivityRegistry) : Slot :=
  default (fresh_slot actor) (ac_slots g !! ar_slot actor).
Definition put (actor : ActorRef) (s : Slot) (g : ActivityRegistry) : ActivityRegistry :=
  g <| ac_slots ::= <[ar_slot actor := s]> |>.
(** The slot of another generation is replaced; its observer is woken. *)
Definition replace (actor : ActorRef) (old : Slot) (g : ActivityRegistry) :
    option Retired * ActivityRegistry :=
  ((λ w, MkRetired w true) <$> sl_waker old,
   put actor (fresh_slot actor) g <| ac_dirty ::= λ d, d ∖ {[ar_slot actor]} |>).

Definition version (actor : ActorRef) (g : ActivityRegistry) :
    (error + N) * option Retired * ActivityRegistry :=
  let slot := slot_of actor g in
  if bool_decide (sl_actor slot ≠ actor) then
    let '(retired, g) := replace actor slot g in (inr 1%N, retired, g)
  else
    let g := put actor slot g in
    if sl_overflow slot then (inl Error.LimitExceeded, None, g) else (inr (sl_version slot), None, g).

(** The last component is what is left of [incoming]. *)
Definition poll (actor : ActorRef) (observed incoming : N) (g : ActivityRegistry) :
    poll_result * option Retired * ActivityRegistry :=
  let slot := slot_of actor g in
  if bool_decide (sl_actor slot ≠ actor) then
    let '(retired, g) := replace actor slot g in (Ready (inr 1%N), retired, g)
  else
    let g := put actor slot g in
    if sl_overflow slot then (Ready (inl Error.LimitExceeded), None, g)
    else if negb (sl_version slot =? observed)%N then (Ready (inr (sl_version slot)), None, g)
    else if match sl_waker slot with Some old => negb (old =? incoming)%N | None => true end then
      (Pending, (λ w, MkRetired w false) <$> sl_waker slot,
       put actor (slot <| sl_waker := Some incoming |>) g)
    else (Pending, None, g).

Definition mark (actor : ActorRef) (g : ActivityRegistry) : ActivityRegistry :=
  match ac_slots g !! ar_slot actor with
  | None => g
  | Some slot =>
      let dirty := ac_dirty g ∪ {[ar_slot actor]} in
      if bool_decide (sl_actor slot ≠ actor) then g <| ac_dirty := dirty |>
      else
        let slot := if (sl_version slot =? u64_max)%N then slot <| sl_overflow := true |>
                    else slot <| sl_version ::= N.succ |> in
        put actor slot g <| ac_dirty := dirty |>
  end.

Definition take_waker (slots : gmap N Slot) (slot : N) : list N * gmap N Slot :=
  match slots !! slot with
  | Some entry => (option_list (sl_waker entry), <[slot := entry <| sl_waker := None |>]> slots)
  | None => ([], slots)
  end.
Fixpoint take_wakers (dirty : list N) (slots : gmap N Slot) : list N * gmap N Slot :=
  match dirty with
  | [] => ([], slots)
  | slot :: dirty =>
      let '(w, slots) := take_waker slots slot in
      let '(ws, slots) := take_wakers dirty slots in
      (w ++ ws, slots)
  end.
Definition notify_marked (g : ActivityRegistry) : list N * ActivityRegistry :=
  let '(wakers, slots) := take_wakers (btree_elems (ac_dirty g)) (ac_slots g) in
  (wakers, MkActivity slots ∅).
End Activity.

(** ** An observer that waits *)
Inductive act_cmd :=
| AMark (actor : ActorRef)
| AVersion (actor : ActorRef)
| APoll (actor : ActorRef) (observed incoming : N)
| ANotify.

(** The wakers a command invokes, and the registry it leaves. *)
Definition woken_by (r : option Retired) : list N :=
  match r with Some r => if re_wake r then [re_waker r] else [] | None => [] end.
Definition act_step (g : ActivityRegistry) (c : act_cmd) : list N * ActivityRegistry :=
  match c with
  | AMark actor => ([], Activity.mark actor g)
  | AVersion actor => let '(_, r, g) := Activity.version actor g in (woken_by r, g)
  | APoll actor observed incoming => let '(_, r, g) := Activity.poll actor observed incoming g in (woken_by r, g)
  | ANotify => Activity.notify_marked g
  end.
Fixpoint act_run (g : ActivityRegistry) (cs : list act_cmd) : list N * ActivityRegistry :=
  match cs with
  | [] => ([], g)
  | c :: cs =>
      let '(w, g) := act_step g c in
      let '(ws, g) := act_run g cs in (w ++ ws, g)
  end.

(** A command that does not take the observer's place: no poll on its slot. *)
Definition not_poll (slot : N) (c : act_cmd) : Prop :=
  match c with APoll actor _ _ => ar_slot actor ≠ slot | _ => True end.

(** [w] waits for a change from version [observed] of [actor]. *)
Definition waiting (actor : ActorRef) (observed w : N) (g : ActivityRegistry) : Prop :=
  ∃ s, ac_slots g !! ar_slot actor = Some s ∧ sl_actor s = actor ∧ sl_waker s = Some w ∧
    (sl_version s = observed ∧ sl_overflow s = false ∨ ar_slot actor ∈ ac_dirty g).

Lemma take_wakers_spec dirty : NoDup dirty → ∀ slots,
  let '(ws, slots') := Activity.take_wakers dirty slots in
  (∀ i, i ∉ dirty → slots' !! i = slots !! i) ∧
  (∀ i s w, i ∈ dirty → slots !! i = Some s → sl_waker s = Some w → w ∈ ws).
Proof.
  induction 1 as [|d dirty Hd Hnd IH]; intros slots; cbn [Activity.take_wakers]; [split; set_solver|].
  destruct (Activity.take_waker slots d) as [w0 slots1] eqn:Ht. specialize (IH slots1).
  destruct (Activity.take_wakers dirty slots1) as [ws slots']. destruct IH as [Hout Hin].
  assert (∀ i, i ≠ d → slots1 !! i = slots !! i) as Hsame.
  { intros i Hi. unfold Activity.take_waker in Ht. destruct (slots !! d); simplify_eq; [|done].
    by rewrite lookup_insert_ne by done. }
  split.
  - intros i Hi. rewrite Hout by set_solver. apply Hsame. set_solver.
  - intros i s w Hi Hs Hw. apply elem_of_app. destruct (decide (i = d)) as [->|Hne].
    + left. unfold Activity.take_waker in Ht. rewrite Hs in Ht. simplify_eq. rewrite Hw. set_solver.
    + right. eapply (Hin i s w); [set_solver| |done]. by rewrite Hsame.
Qed.

Lemma notify_waiting actor observed w g :
  waiting actor observed w g →
  w ∈ (Activity.notify_marked g).1 ∨
  (waiting actor observed w (Activity.notify_marked g).2 ∧ ar_slot actor ∉ ac_dirty g).
Proof.
  intros (s & Hs & Ha & Hw & Hor). unfold Activity.notify_marked.
  pose proof (take_wakers_spec (btree_elems (ac_dirty g)) (btree_elems_nodup _) (ac_slots g)) as Hspec.
  destruct (Activity.take_wakers _ _) as [ws slots]. destruct Hspec as [Hout Hin]. cbn [fst snd].
  destruct (decide (ar_slot actor ∈ ac_dirty g)) as [Hd|Hd].
  - left. apply (Hin (ar_slot actor) s w); [by apply elem_of_btree_elems|done..].
  - right. split; [|done]. exists s. cbn [ac_slots ac_dirty].
    rewrite Hout by by rewrite elem_of_btree_elems. split_and!; [done..|]. naive_solver.
Qed.

Lemma mark_waiting actor observed w a g :
  waiting actor observed w g → waiting actor observed w (Activity.mark a g).
Proof.
  intros (s & Hs & Ha & Hw & Hor). unfold Activity.mark, waiting.
  destruct (ac_slots g !! ar_slot a) as [s'|] eqn:Hs'; [|by exists s].
  destruct (decide (ar_slot a = ar_slot actor)) as [He|He].
  - rewrite He in *. simplify_eq. case_bool_decide.
    + exists s. simpl. split_and!; [done..|]. right. set_solver.
    + destruct (sl_version s =? u64_max)%N; unfold Activity.put; simpl; rewrite He; simplify_map_eq;
        eexists; (split; [done|]); simpl; (split_and!; [done..|]); right; set_solver.
  - case_bool_decide; simpl.
    + exists s. split_and!; [done..|]. destruct Hor; [by left|right; set_solver].
    + exists s. destruct (sl_version s' =? u64_max)%N; unfold Activity.put; simpl; rewrite lookup_insert_ne by done;
        (split_and!; [done..|]); (destruct Hor; [by left|right; set_solver]).
Qed.

Lemma put_other actor observed w a s g :
  ar_slot a ≠ ar_slot actor → waiting actor observed w g → waiting actor observed w (Activity.put a s g).
Proof.
  intros Ha (s' & Hs & Hr). exists s'. unfold Activity.put. simpl. rewrite lookup_insert_ne by done. done.
Qed.
Lemma replace_other actor observed w a old g :
  ar_slot a ≠ ar_slot actor → waiting actor observed w g → waiting actor observed w (Activity.replace a old g).2.
Proof.
  intros Ha Hw. unfold Activity.replace. cbn [snd].
  apply (put_other _ _ _ a (Activity.fresh_slot a)) in Hw; [|done]. destruct Hw as (s' & Hs & Hl & Hk & Hor).
  exists s'. split_and!; [done..|]. destruct Hor as [?|Hd]; [by left|right]. simpl in *. set_solver.
Qed.

Lemma version_waiting actor observed w a g :
  waiting actor observed w g →
  w ∈ woken_by (Activity.version a g).1.2 ∨ waiting actor observed w (Activity.version a g).2.
Proof.
  intros Hw. unfold Activity.version. destruct (decide (ar_slot a = ar_slot actor)) as [He|He].
  - destruct Hw as (s & Hs & Ha & Hk & Hor). unfold Activity.slot_of. rewrite He, Hs. change (default _ (Some s)) with s.
    case_bool_decide as Hne.
    + left. simpl. rewrite Hk. simpl. set_solver.
    + right. destruct (sl_overflow s) eqn:Ho; cbn [snd]; exists s; unfold Activity.put; simpl;
        rewrite He; simplify_map_eq; rewrite ?Ho; done.
  - right. case_bool_decide; [|case_match].
    + pose proof (replace_other actor observed w a (Activity.slot_of a g) g He Hw).
      by destruct (Activity.replace _ _ _).
    + by apply put_other.
    + by apply put_other.
Qed.
Lemma poll_waiting actor observed w a o i g :
  ar_slot a ≠ ar_slot actor → waiting actor observed w g → waiting actor observed w (Activity.poll a o i g).2.
Proof.
  intros He Hw. unfold Activity.poll. case_bool_decide.
  - pose proof (replace_other actor observed w a (Activity.slot_of a g) g He Hw).
    by destruct (Activity.replace _ _ _).
  - repeat case_match; simpl; repeat apply put_other; done.
Qed.

Lemma act_step_waiting actor observed w g c :
  not_poll (ar_slot actor) c → waiting actor observed w g →
  w ∈ (act_step g c).1 ∨ waiting actor observed w (act_step g c).2.
Proof.
  intros Hc Hw. destruct c as [a|a|a o i|]; cbn [act_step].
  - right. by apply mark_waiting.
  - destruct (version_waiting actor observed w a g Hw); destruct (Activity.version a g) as [[??]?]; auto.
  - right. pose proof (poll_waiting actor observed w a o i g Hc Hw). by destruct (Activity.poll a o i g) as [[??]?].
  - destruct (notify_waiting actor observed w g Hw) as [?|[??]]; auto.
Qed.

Lemma act_run_waiting actor observed w cs : ∀ g,
  Forall (not_poll (ar_slot actor)) cs → waiting actor observed w g →
  w ∈ (act_run g cs).1 ∨ waiting actor observed w (act_run g cs).2.
Proof.
  induction cs as [|c cs IH]; intros g Hall Hw; cbn [act_run]; [by right|].
  apply Forall_cons in Hall as [Hc Hall]. destruct (act_step_waiting actor observed w g c Hc Hw) as [Hin|Hw'];
    destruct (act_step g c) as [ws g1]; cbn [fst snd] in *.
  - destruct (act_run g1 cs). left. simpl. set_solver.
  - destruct (IH g1 Hall Hw') as [Hin|?]; destruct (act_run g1 cs); simpl in *; [left; set_solver|by right].
Qed.

Lemma poll_pending actor observed w g g' r :
  Activity.poll actor observed w g = (Pending, r, g') → waiting actor observed w g'.
Proof.
  unfold Activity.poll. generalize (Activity.slot_of actor g) as s. intros s. case_bool_decide as Ha.
  { destruct (Activity.replace actor s g). intros; simplify_eq. }
  destruct (sl_overflow s) eqn:Ho; [intros; simplify_eq|].
  destruct (sl_version s =? observed)%N eqn:Hv; [|intros; simplify_eq]. apply N.eqb_eq in Hv. cbn [negb].
  intros Heq. destruct (sl_waker s) as [old|] eqn:Hk; cbn in Heq.
  - destruct (old =? w)%N eqn:Hold; simplify_eq/=; eexists; (split; [by unfold Activity.put; simplify_map_eq|]);
      simpl; [|by auto 10]. apply N.eqb_eq in Hold. subst. by auto 10.
  - simplify_eq/=. eexists. split; [by unfold Activity.put; simplify_map_eq|]. simpl. by auto 10.
Qed.

(** C26. No lost wakeup: when a poll parks a waker on the version the observer
    has seen, then after any marks, notifications and queries of any actors, and
    polls by others, either the version is still the one observed, or the waker
    has been invoked, or the next notification invokes it. *)
Theorem no_lost_wakeup actor observed w g r g1 cs :
  Activity.poll actor observed w g = (Pending, r, g1) →
  Forall (not_poll (ar_slot actor)) cs →
  let '(woken, g2) := act_run g1 cs in
  w ∈ woken ∨ w ∈ (Activity.notify_marked g2).1 ∨ (Activity.version actor g2).1.1 = inr observed.
Proof.
  intros Hp Hall. apply poll_pending in Hp. destruct (act_run_waiting _ _ _ cs g1 Hall Hp) as [Hin|Hw];
    destruct (act_run g1 cs) as [woken g2]; [by left|right]. cbn [snd] in Hw.
  destruct (notify_waiting _ _ _ _ Hw) as [?|[_ Hd]]; [by left|right].
  destruct Hw as (s & Hs & Ha & Hk & Hor). unfold Activity.version, Activity.slot_of. rewrite Hs. change (default _ (Some s)) with s.
  rewrite bool_decide_false by naive_solver. destruct Hor as [[<- ->]|?]; [done|naive_solver].
Qed.
Lemma no_lost_wakeup_witness :
  (act_run (Activity.poll (MkActorRef 1 0 1) 1 77 Activity.new).2
     [AMark (MkActorRef 1 1 1); APoll (MkActorRef 1 1 1) 1 78; AMark (MkActorRef 1 0 1); ANotify]).1 = [77]%N ∧
  (let '(woken, g2) := act_run (Activity.poll (MkActorRef 1 0 1) 1 77 Activity.new).2
     [AMark (MkActorRef 1 1 1); APoll (MkActorRef 1 1 1) 1 78; AMark (MkActorRef 1 0 1)] in
   77%N ∈ woken ∨ 77%N ∈ (Activity.notify_marked g2).1 ∨
   (Activity.version (MkActorRef 1 0 1) g2).1.1 = inr 1%N).
Proof.
  split; [vm_compute; reflexivity|].
  apply (no_lost_wakeup (MkActorRef 1 0 1) 1 77 Activity.new None); [vm_compute; reflexivity|].
  repeat constructor; vm_compute; discriminate.
Defined.
