(* ===== verification/WorldState.v ===== *)
(** * World state

    The data of [crates/runtime-core/src/lib.rs] ([Inner], [State], [Actor],
    [Delivery], [Metrics]) and of [services.rs] ([Registry]), in one record: every
    public method of [World] takes the state lock for its whole body, so an
    operation is a function on this record.

    The handles a caller holds (payload handles, delivery leases, task and
    callback leases, buffer permits) are part of the record, because dropping
    the last reference to a payload changes [retained_bytes]: the counter of the source
    is the derived sum [retained_bytes] over the payloads that are still reachable. *)
From S2P Require Import Prelude Collections Text Types Routing Expiry Readiness Operations Diagnostics.
From S2P Require Import Publications SchemaRegistry Activity.

(** ** Actors *)
Record Delivery := MkDelivery {
  d_event_id : N; d_envelope : Envelope; d_payload : Stored; d_subscription : option N;
  d_operation : option OperationId
}.
#[export] Instance Delivery_expand : Expand Delivery := λ r,
  MkDelivery (d_event_id r) (d_envelope r) (d_payload r) (d_subscription r) (d_operation r).
Record Notification := MkNotification { nt_failure : FailureRecord; nt_coalesced : N }.
#[export] Instance Notification_expand : Expand Notification := λ r,
  MkNotification (nt_failure r) (nt_coalesced r).

Record Actor := MkActor {
  a_reference : ActorRef;
  a_ready_order : N;
  a_kind : endpoint_kind;
  a_state : lifecycle;
  a_parent : option ActorRef;
  a_children : list ActorRef;
  a_queue : list Delivery;
  a_queue_bytes : N;
  a_staged : list (N * Stored * N);
  a_staged_bytes : N;
  a_deadlines : ActorDeadlines.t;
  a_in_flight : bool;
  a_control_in_flight : bool;
  a_notification : option Notification;
  a_pending_failures : N;
  a_reported_failure : option N;
  a_native_tasks : N;
  a_python_done : bool;
  a_drain_root : option ActorRef;
  a_drain_deadline : option Instant;
  a_publication_cutoff : option N;
  a_drain_timed_out : bool;
  a_errors : N;
  a_last_error : option FailureRecord;
  a_component : option ComponentDescriptor
}.
#[export] Instance Actor_expand : Expand Actor := λ r,
  MkActor (a_reference r) (a_ready_order r) (a_kind r) (a_state r) (a_parent r) (a_children r)
    (a_queue r) (a_queue_bytes r) (a_staged r) (a_staged_bytes r) (a_deadlines r) (a_in_flight r)
    (a_control_in_flight r) (a_notification r) (a_pending_failures r) (a_reported_failure r)
    (a_native_tasks r) (a_python_done r) (a_drain_root r) (a_drain_deadline r)
    (a_publication_cutoff r) (a_drain_timed_out r) (a_errors r) (a_last_error r) (a_component r).

(** ** Metrics *)
Record Metrics := MkMetrics {
  m_publication_submitted : N; m_publication_admitted : N; m_publication_rejected : N;
  m_publication_completed : N; m_publication_cancelled : N; m_publication_expired : N;
  m_publication_failed : N; m_submitted : N; m_admitted : N; m_rejected : N; m_started : N;
  m_completed : N; m_failed : N; m_cancelled : N; m_discarded : N; m_expired : N;
  m_drain_timeouts : N; m_operation_completed : N; m_operation_timed_out : N;
  m_operation_cancelled : N; m_operation_late_results : N; m_failures : N;
  m_notifications_coalesced : N; m_notifications_delivered : N; m_notifications_discarded : N
}.
#[export] Instance Metrics_expand : Expand Metrics := λ r,
  MkMetrics (m_publication_submitted r) (m_publication_admitted r) (m_publication_rejected r)
    (m_publication_completed r) (m_publication_cancelled r) (m_publication_expired r)
    (m_publication_failed r) (m_submitted r) (m_admitted r) (m_rejected r) (m_started r)
    (m_completed r) (m_failed r) (m_cancelled r) (m_discarded r) (m_expired r)
    (m_drain_timeouts r) (m_operation_completed r) (m_operation_timed_out r)
    (m_operation_cancelled r) (m_operation_late_results r) (m_failures r)
    (m_notifications_coalesced r) (m_notifications_delivered r) (m_notifications_discarded r).
Definition default_metrics : Metrics :=
  MkMetrics 0 0 0 0 0 0 0 0 0 0 0 0 0 0 0 0 0 0 0 0 0 0 0 0 0.

(** ** Services *)
Record ServiceLease := MkServiceLease { lease_scope : ActorRef; lease_owner : ActorRef; lease_service : ActorRef }.
#[export] Instance ServiceLease_eq_dec : EqDecision ServiceLease.
Proof. solve_decision. Defined.
Record ServiceRecord := MkServiceRecord {
  sv_name : string; sv_service : ActorRef; sv_contract : InterfaceSpec; sv_scopes : gset ActorRef
}.
#[export] Instance ServiceRecord_expand : Expand ServiceRecord := λ r,
  MkServiceRecord (sv_name r) (sv_service r) (sv_contract r) (sv_scopes r).
Record ServiceRegistry := MkServices {
  sv_records : gmap string ServiceRecord;
  sv_by_target : gmap ActorRef string;
  sv_leases : gmap ActorRef ServiceLease;
  sv_by_holder : gmap ActorRef (gset ActorRef)
}.
#[export] Instance ServiceRegistry_expand : Expand ServiceRegistry := λ r,
  MkServices (sv_records r) (sv_by_target r) (sv_leases r) (sv_by_holder r).
Definition new_services : ServiceRegistry := MkServices ∅ ∅ ∅ ∅.

(** ** Handles outside the World *)
Record RoutingSignal := MkSignal { rs_dirty : bool; rs_waker : option N; rs_closed : bool }.
#[export] Instance RoutingSignal_expand : Expand RoutingSignal := λ r,
  MkSignal (rs_dirty r) (rs_waker r) (rs_closed r).
Record DeliveryLease := MkDeliveryLease {
  dl_target : ActorRef; dl_operation : option OperationId; dl_delivery : Delivery
}.
(** The registration behind clones of a [TaskLease]. *)
Record TaskRegistration := MkTask { tk_owner : ActorRef; tk_strong : N }.
#[export] Instance TaskRegistration_expand : Expand TaskRegistration := λ r, MkTask (tk_owner r) (tk_strong r).
Record FailureLease := MkFailureLease { fl_supervisor : ActorRef; fl_notification : Notification }.

(** ** The World *)
Record World := MkWorld {
  w_id : N;
  w_cfg : Config;
  w_next_event : N;
  w_next_sub : N;
  w_epoch : Instant;
  w_clock : Clock;
  w_actors : list (option Actor);
  w_live_actors : N;
  w_next_ready_order : N;
  w_python_ready : PythonReadyIndex;
  w_event_deadlines : DeadlineIndex;
  w_staged_actors : gmap N ActorRef;
  w_drain_roots : gmap N ActorRef;
  w_free : list N;   (* a stack: the head is the last element of the [Vec] *)
  w_subs : RouteTable;
  w_metrics : Metrics;
  w_closed : bool;
  w_operations : OperationTable;
  w_publications : PublicationTable;
  w_diagnostics : History;
  w_next_failure : N;
  w_failure_epoch : Instant;
  w_last_error : option FailureRecord;
  w_schemas : SchemaRegistry;
  w_interfaces : gmap (string * N) InterfaceSpec;
  w_services : ServiceRegistry;
  w_activity : ActivityRegistry;
  w_routing_signal : RoutingSignal;
  (* handles held by callers, and the wakers invoked so far *)
  w_next_stored : N;
  w_next_handle : N;
  w_held : list Stored;
  w_permits : gmap N N;
  w_leases : gmap N DeliveryLease;
  w_tasks : gmap N TaskRegistration;
  w_failure_leases : gmap N FailureLease;
  w_callbacks : gmap N ActorRef;
  w_woken : list N
}.
#[export] Instance World_expand : Expand World := λ r,
  MkWorld (w_id r) (w_cfg r) (w_next_event r) (w_next_sub r) (w_epoch r) (w_clock r) (w_actors r)
    (w_live_actors r) (w_next_ready_order r) (w_python_ready r) (w_event_deadlines r)
    (w_staged_actors r) (w_drain_roots r) (w_free r) (w_subs r) (w_metrics r) (w_closed r)
    (w_operations r) (w_publications r) (w_diagnostics r) (w_next_failure r) (w_failure_epoch r)
    (w_last_error r) (w_schemas r) (w_interfaces r) (w_services r) (w_activity r)
    (w_routing_signal r) (w_next_stored r) (w_next_handle r) (w_held r) (w_permits r) (w_leases r)
    (w_tasks r) (w_failure_leases r) (w_callbacks r) (w_woken r).
Abbreviation WM := (M World error).

(** ** Retained bytes *)
Definition actor_stored (a : Actor) : list Stored :=
  (d_payload <$> a_queue a) ++ ((λ e : N * Stored * N, e.1.2) <$> a_staged a).
Definition entry_stored (e : Entry) : list Stored :=
  match e with
  | EPending p => held_stored <$> option_list (po_context p)
  | ETerminal (Completed payload) => [held_stored payload]
  | ETerminal _ => []
  end.
(** Every payload some value of the program still refers to. *)
Definition reachable (w : World) : list Stored :=
  (omap id (w_actors w) ≫= actor_stored) ++
  (pub_stored <$> (map_to_list (pt_entries (w_publications w))).*2) ++
  (omap id (ot_slots (w_operations w)) ≫= entry_stored) ++
  ((λ l, d_payload (dl_delivery l)) <$> (map_to_list (w_leases w)).*2) ++
  w_held w.
Definition live_payloads (w : World) : gmap N N :=
  list_to_map ((λ s, (stored_id s, stored_bytes s)) <$> reachable w).
(** [inner.retained], shared by payloads and native buffers. *)
Definition retained_bytes (w : World) : N :=
  (sum_map (λ _ b, b) (live_payloads w) + sum_map (λ _ b, b) (w_permits w))%N.

(** ** References *)
Definition actor_at (w : World) (slot : N) : option Actor :=
  match w_actors w !! N.to_nat slot with Some (Some a) => Some a | _ => None end.
(** [check_ref] *)
Definition find_ref (w : World) (r : ActorRef) : error + Actor :=
  if bool_decide (ar_world r ≠ w_id w) then inl Error.CrossWorld else
  match actor_at w (ar_slot r) with
  | None => inl Error.StaleReference
  | Some a =>
      if bool_decide (ar_generation (a_reference a) ≠ ar_generation r) then inl Error.StaleReference
      else inr a
  end.
Definition check_ref (r : ActorRef) : WM Actor := λ w,
  match find_ref w r with inl e => (Err e, w) | inr a => (Ok a, w) end.
Definition set_slot (slot : N) (f : Actor → Actor) (w : World) : World :=
  w <| w_actors ::= alter (fmap f) (N.to_nat slot) |>.
(** [check_ref_mut], and what is done with the reference it returns. *)
Definition update_ref (r : ActorRef) (f : Actor → Actor) : WM unit :=
  check_ref r ;;; modify (set_slot (ar_slot r) f).
(** [actors.get_mut(slot)] without a generation check. *)
Definition update_slot (slot : N) (f : Actor → Actor) : WM unit := modify (set_slot slot f).

(** ** Metrics, time and diagnostics *)
Definition count (f : Metrics → Metrics) : WM unit := modify (λ w, w <| w_metrics ::= f |>).
Definition now : WM Instant := λ w,
  let '(t, c) := Clocks.now (w_clock w) in (Ok t, w <| w_clock := c |>).
Definition with_history (f : History → Clock → History * Clock) : WM unit := modify (λ w,
  let '(h, c) := f (w_diagnostics w) (w_clock w) in w <| w_diagnostics := h |> <| w_clock := c |>).
(** [World::diagnostic] and [World::reject] *)
Definition diagnostic (code : DiagnosticCode) (actor : option ActorRef)
    (operation : option OperationId) : WM unit :=
  with_history (Hist.record code actor operation).
Definition reject (e : error) (actor : ActorRef) : WM unit :=
  count (λ m, m <| m_rejected ::= N.succ |>) ;;;
  diagnostic (Code.of_error e) (Some actor) None.

(** ** Components of the state *)
Definition operations {A} (m : M OperationTable error A) : WM A :=
  zoom w_operations (λ t w, w <| w_operations := t |>) m.
Definition publications {A} (m : M PublicationTable error A) : WM A :=
  zoom w_publications (λ t w, w <| w_publications := t |>) m.

(** ** Execution state: the lifecycle seen through every ancestor *)
Definition walk_fuel (w : World) : nat := S (length (w_actors w)).
Fixpoint execution_walk (fuel : nat) (w : World) (current : Actor) (saw_starting saw_quiescing : bool) :
    outcome error lifecycle :=
  match fuel with
  | O => Panic
  | S fuel =>
      match a_state current with
      | Lifecycle.Stopping | Lifecycle.Stopped => Ok Lifecycle.Stopping
      | state =>
          let saw_starting := saw_starting || bool_decide (state = Lifecycle.Starting) in
          let saw_quiescing := saw_quiescing || bool_decide (state = Lifecycle.Quiescing) in
          match a_parent current with
          | None =>
              Ok (if saw_quiescing then Lifecycle.Quiescing
                  else if saw_starting then Lifecycle.Starting else Lifecycle.Active)
          | Some parent =>
              match find_ref w parent with
              | inl e => Err e
              | inr a => execution_walk fuel w a saw_starting saw_quiescing
              end
          end
      end
  end.
Definition execution_of (w : World) (r : ActorRef) : outcome error lifecycle :=
  match find_ref w r with
  | inl e => Err e
  | inr a => execution_walk (walk_fuel w) w a false false
  end.
Definition execution_state (r : ActorRef) : WM lifecycle := λ w, (execution_of w r, w).
Definition active_or_quiescing (l : lifecycle) : bool :=
  bool_decide (l = Lifecycle.Active) || bool_decide (l = Lifecycle.Quiescing).
Definition starting_or_active (l : lifecycle) : bool :=
  bool_decide (l = Lifecycle.Starting) || bool_decide (l = Lifecycle.Active).

(** ** Activity marks *)
Fixpoint mark_ancestors (fuel : nat) (w : World) (r : ActorRef) (g : ActivityRegistry) :
    option ActivityRegistry :=
  match fuel with
  | O => None
  | S fuel =>
      match find_ref w r with
      | inl _ => Some g
      | inr a =>
          let g := Activity.mark r g in
          match a_parent a with None => Some g | Some p => mark_ancestors fuel w p g end
      end
  end.
Definition draining_or_done (l : lifecycle) : bool :=
  match l with Lifecycle.Quiescing | Lifecycle.Stopping | Lifecycle.Stopped => true | _ => false end.
(** The loop over the routes that leave an actor: draining consumers are marked. *)
Fixpoint mark_consumers (w : World) (ids : list N) (g : ActivityRegistry) : option ActivityRegistry :=
  match ids with
  | [] => Some g
  | id :: ids =>
      match Routes.get (w_subs w) id with
      | None => None
      | Some route =>
          let quiescing := match find_ref w (sub_target route) with
                           | inr target => bool_decide (a_state target = Lifecycle.Quiescing)
                           | inl _ => false
                           end in
          if quiescing then mark_ancestors (walk_fuel w) w (sub_target route) g ≫= mark_consumers w ids
          else mark_consumers w ids g
      end
  end.
Fixpoint mark_dependents (fuel : nat) (w : World) (r : ActorRef) (g : ActivityRegistry) :
    option ActivityRegistry :=
  match fuel with
  | O => None
  | S fuel =>
      match find_ref w r with
      | inl _ => Some g
      | inr a =>
          (if draining_or_done (a_state a)
           then mark_consumers w (Routes.source_actor_ids (w_subs w) r) (Activity.mark r g)
           else Some (Activity.mark r g)) ≫= λ g,
          match a_parent a with None => Some g | Some p => mark_dependents fuel w p g end
      end
  end.
Definition marking (f : World → ActivityRegistry → option ActivityRegistry) : WM unit := λ w,
  match f w (w_activity w) with
  | Some g => (Ok tt, w <| w_activity := g |>)
  | None => (Panic, w)
  end.
Definition mark_activity_dependents (r : ActorRef) : WM unit :=
  marking (λ w, mark_dependents (walk_fuel w) w r).
Fixpoint mark_tree (fuel : nat) (w : World) (r : ActorRef) (g : ActivityRegistry) :
    option ActivityRegistry :=
  match fuel with
  | O => None
  | S fuel =>
      match find_ref w r with
      | inl _ => Some g
      | inr a =>
          mark_dependents (walk_fuel w) w r g ≫= λ g,
          foldl (λ g child, g ≫= mark_tree fuel w child) (Some g) (a_children a)
      end
  end.
Definition mark_activity_tree (r : ActorRef) : WM unit := marking (λ w, mark_tree (walk_fuel w) w r).
Definition mark_route_activity (route : Sub) : WM unit :=
  mark_activity_dependents (sub_owner route) ;;;
  (if bool_decide (sub_source route ≠ sub_owner route)
   then mark_activity_dependents (sub_source route) else ret tt) ;;;
  (if bool_decide (sub_target route ≠ sub_owner route ∧ sub_target route ≠ sub_source route)
   then mark_activity_dependents (sub_target route) else ret tt).
Definition mark_operation_activity (owner : ActorRef) (target : option ActorRef) : WM unit :=
  mark_activity_dependents owner ;;;
  match target with
  | Some target => if bool_decide (target ≠ owner) then mark_activity_dependents target else ret tt
  | None => ret tt
  end.

(** [wake_routing] and [touch_activity]: the wakers are invoked after the state
    lock is released. *)
Definition wake_routing : WM unit := modify (λ w,
  let signal := w_routing_signal w in
  if rs_dirty signal
  then w <| w_routing_signal := MkSignal false None (rs_closed signal) |>
         <| w_woken ::= λ l, l ++ option_list (rs_waker signal) |>
  else w).
Definition touch_activity : WM unit :=
  wake_routing ;;;
  modify (λ w, let '(wakers, g) := Activity.notify_marked (w_activity w) in
               w <| w_activity := g |> <| w_woken ::= λ l, l ++ wakers |>).
(** [let _activity = self.activity_change();]: the guard is dropped on every way out. *)
Definition with_activity {A} (m : WM A) : WM A := λ w,
  let '(o, w) := m w in (o, (touch_activity w).2).
Definition mark_routing : WM unit := modify (λ w, w <| w_routing_signal ::= λ s, s <| rs_dirty := true |> |>).
Definition close_routing : WM unit := modify (λ w,
  w <| w_routing_signal ::= λ s, s <| rs_closed := true |> <| rs_dirty := true |> |>).

(** ** Python readiness *)
Definition refresh_python_ready (r : ActorRef) : WM unit :=
  let! w := get in
  match find_ref w r with
  | inl _ => ret tt
  | inr a =>
      if bool_decide (a_kind a ≠ EndpointKind.Python) then ret tt else
      let registered := negb (a_python_done a) in
      let! executable :=
        if registered && negb (a_in_flight a) && negb (a_control_in_flight a) then
          let! execution := try_ (execution_state r) in
          ret (match execution with inr l => active_or_quiescing l | inl _ => false end)
        else ret false in
      let start := registered && bool_decide (a_state a = Lifecycle.Starting) in
      let failure := executable && (0 <? a_pending_failures a)%N in
      let delivery := executable && bool_decide (a_queue a ≠ []) in
      let cleanup := registered && match a_state a with
                                   | Lifecycle.Stopping | Lifecycle.Stopped => true
                                   | _ => false
                                   end in
      modify (λ w, w <| w_python_ready ::= λ i,
        (Ready.set (a_ready_order a) r start failure delivery cleanup i).2 |>)
  end.
Fixpoint refresh_subtree (fuel : nat) (r : ActorRef) : WM unit :=
  match fuel with
  | O => panic
  | S fuel =>
      let! w := get in
      match find_ref w r with
      | inl _ => ret tt
      | inr a => refresh_python_ready r ;;; for_each (refresh_subtree fuel) (a_children a)
      end
  end.
Definition refresh_python_subtree (r : ActorRef) : WM unit := λ w, refresh_subtree (walk_fuel w) r w.

(** ** Operations with their activity marks *)
Definition complete_operation_locked (id : OperationId) (result : TerminalOutcome) : WM bool :=
  let! w := get in
  let! (owner, target) := of_outcome (Operations.participants (w_operations w) id) in
  let! changed := operations (Operations.complete id result) in
  (if changed then mark_operation_activity owner target else ret tt) ;;;
  ret changed.
Definition expire_operation (id : OperationId) (now : Instant) : WM bool :=
  let! w := get in
  let! (owner, target) := of_outcome (Operations.participants (w_operations w) id) in
  let! changed := operations (Operations.expire_one id now) in
  (if changed then mark_operation_activity owner target else ret tt) ;;;
  ret changed.
(** [if self.expire_operation_locked(..).unwrap_or(false) { operation_timed_out += 1; diagnostic(..) }] *)
Definition expire_and_count (id : OperationId) (now : Instant) (actor : option ActorRef) : WM unit :=
  let! expired := unwrap_or false (expire_operation id now) in
  if expired then
    count (λ m, m <| m_operation_timed_out ::= N.succ |>) ;;;
    diagnostic Code.OperationTimedOut actor (Some id)
  else ret tt.
