(* ===== verification/Admission.v ===== *)
(** * Admission

    The path every event takes into a mailbox: the byte budget and
    [make_stored_with] ([lib.rs]), the metadata checks and the envelope
    ([envelope_runtime.rs]), and [World::admit]. *)
From S2P Require Import Prelude Collections Text Types Metadata Schema Routing Expiry Operations Diagnostics.
From S2P Require Import Publications SchemaRegistry Activity WorldState.

(** ** Payloads *)

(** [World::reserve]: the compare-and-swap loop takes effect at its successful
    exchange.  The bytes are counted from the moment the payload is reachable. *)
Definition reserve_bytes (n : N) : WM unit :=
  let! w := get in
  reject_if (saturating_sub (native_payload_budget (w_cfg w)) (retained_bytes w) <? n)%N Error.BudgetExceeded.

Definition make_stored_with (p : Payload) (options : MessageOptions) (dispatcher : option PortRef) :
    WM Stored :=
  let! w := get in
  reject_if (negb (Options.validate options)) Error.InvalidMetadata ;;;
  reject_if (match mo_source options with
             | Some source => bool_decide (ar_world source ≠ w_id w)
             | None => false
             end) Error.CrossWorld ;;;
  reject_if (match p with
             | Structured record => bool_decide (sr_world record ≠ w_id w)
             | _ => false
             end) Error.CrossWorld ;;;
  let! n := ok_or Error.LimitExceeded
              (checked_add usize_max (payload_bytes p) (Options.charged_bytes options)) in
  reject_if (max_event_bytes (w_cfg w) <? n)%N Error.LimitExceeded ;;;
  reserve_bytes n ;;;
  modify (λ w, w <| w_next_stored ::= N.succ |>) ;;;
  ret (MkStored (w_next_stored w) p options dispatcher n).

(** ** Metadata *)
Definition deadline_passed (deadline : option Instant) (now : Instant) : bool :=
  match deadline with Some d => (d <=? now)%N | None => false end.
Definition check_deadline (options : MessageOptions) (now : Instant) : WM unit :=
  reject_if (deadline_passed (mo_deadline options) now) Error.DeadlineExpired.

Definition validate_source (options : MessageOptions) (allow_pending : bool) : WM unit :=
  reject_if (negb (Options.validate options)) Error.InvalidMetadata ;;;
  match mo_source options with
  | None => ret tt
  | Some source =>
      let! execution := execution_state source in
      match execution with
      | Lifecycle.Active => ret tt
      | Lifecycle.Starting => if allow_pending then ret tt else fail Error.ActorNotReady
      | Lifecycle.Quiescing => if allow_pending then ret tt else fail Error.ActorStopped
      | _ => fail Error.ActorStopped
      end
  end.

Definition next_event_id : WM N :=
  let! w := get in
  let! next := ok_or Error.LimitExceeded (checked_add u64_max (w_next_event w) 1) in
  modify (λ w, w <| w_next_event := next |>) ;;;
  ret (w_next_event w).

Definition schema_identity (w : World) (p : Payload) : outcome error SchemaIdentity :=
  match p with
  | Pulse _ => Ok (MkSchemaIdentity KPulse 0 1)
  | CountSnapshot _ _ => Ok (MkSchemaIdentity KCountSnapshot 0 1)
  | PRecord schema _ _ => Ok (MkSchemaIdentity KRecord schema 0)
  | Structured record =>
      match Registry.schema (w_schemas w) (sr_schema record) with
      | Ok s => Ok (MkSchemaIdentity KStructured (sr_schema record) (Schema.s_version s))
      | Err _ => Err Error.SchemaMismatch
      | Panic => Panic
      end
  end.

(** [ports.iter().position(..).map(|index| index as u16)] *)
Definition port_position (f : PortSpec → bool) (ports : list PortSpec) : option N :=
  (λ p : nat * PortSpec, (N.of_nat p.1 mod 2 ^ 16)%N) <$> list_find (λ port, f port = true) ports.
Definition accepts (p : Payload) (port : PortSpec) : bool :=
  bool_decide (ps_direction port = Input) && payload_type_matches (ps_schema port) p.

(** [or_else] *)
Definition option_or {A} (x y : option A) : option A := match x with Some a => Some a | None => y end.

Definition envelope_for (w : World) (target : ActorRef) (stored : Stored) (subscription : option N)
    (event_id : N) (now : Instant) : outcome error Envelope :=
  match find_ref w target with
  | inl e => Err e
  | inr actor =>
      let destination_port :=
        (λ index, MkPortRef target index) <$>
        option_or (subscription ≫= λ id, Routes.get (w_subs w) id ≫= sub_target_port)
          (a_component actor ≫= λ c, port_position (accepts (stored_payload stored)) (cd_ports c)) in
      match schema_identity w (stored_payload stored) with
      | Ok schema =>
          let options := stored_options stored in
          Ok {|
            env_event_id := event_id;
            env_schema := schema;
            env_source := mo_source options;
            env_destination := target;
            env_dispatcher := stored_dispatcher stored;
            env_destination_port := destination_port;
            env_owner := target;
            env_enqueued_at := now;
            env_deadline := mo_deadline options;
            env_correlation_id := mo_correlation_id options;
            env_causation_id := mo_causation_id options;
            env_trace := mo_trace options
          |}
      | Err e => Err e
      | Panic => Panic
      end
  end.

(** ** [World::admit] *)
Definition admit_event (r : ActorRef) (stored : Stored) (sub : option N) (completion : bool)
    (operation : option OperationId) : WM N :=
  let! now := now in
  check_deadline (stored_options stored) now ;;;
  validate_source (stored_options stored) completion ;;;
  let! id := next_event_id in
  let! w := get in
  let! envelope := of_outcome (envelope_for w r stored sub id now) in
  let envelope := match operation, env_correlation_id envelope with
                  | Some _, None => envelope <| env_correlation_id := Some id |>
                  | _, _ => envelope
                  end in
  let! execution := execution_state r in
  let! a := check_ref r in
  reject_if (negb (bool_decide (execution = Lifecycle.Active)) &&
             negb (completion && bool_decide (execution = Lifecycle.Quiescing)))
    (if bool_decide (execution = Lifecycle.Starting) || bool_decide (a_state a = Lifecycle.Starting)
     then Error.ActorNotReady else Error.ActorStopped) ;;;
  reject_if (match a_component a with
             | Some descriptor => negb (existsb (accepts (stored_payload stored)) (cd_ports descriptor))
             | None => false
             end) Error.SchemaMismatch ;;;
  reject_if ((mailbox_capacity (w_cfg w) <=? N.of_nat (length (a_queue a)))%N ||
             (mailbox_bytes (w_cfg w) <? a_queue_bytes a + stored_bytes stored)%N) Error.QueueFull ;;;
  let deadlines := ActorDeadlines.add (env_deadline envelope) (a_deadlines a) in
  update_slot (ar_slot r) (λ a,
    a <| a_queue_bytes ::= λ n, (n + stored_bytes stored)%N |>
      <| a_deadlines := deadlines |>
      <| a_queue ::= λ q, q ++ [MkDelivery id envelope stored sub operation] |>) ;;;
  modify (λ w, w <| w_event_deadlines ::= DeadlineIdx.set r (ActorDeadlines.first deadlines) |>) ;;;
  refresh_python_ready r ;;;
  count (λ m, m <| m_admitted ::= N.succ |>) ;;;
  mark_activity_dependents r ;;;
  ret id.

(** ** Expiry of one delivery *)
Definition expire_delivery (d : Delivery) (now : Instant) : WM unit :=
  count (λ m, m <| m_expired ::= N.succ |> <| m_cancelled ::= N.succ |> <| m_discarded ::= N.succ |>) ;;;
  with_history (Hist.record_event Code.DeadlineExpired (d_envelope d) (d_operation d)) ;;;
  match d_operation d with
  | Some operation => expire_and_count operation now (Some (env_destination (d_envelope d)))
  | None => ret tt
  end.

(** [deadlines.remove(deadline)] on the actor in a slot. *)
Definition remove_deadline (slot : N) (deadline : option Instant) : WM unit :=
  let! w := get in
  let! a := expect (actor_at w slot) in
  let! counts := expect (ActorDeadlines.remove deadline (a_deadlines a)) in
  update_slot slot (λ a, a <| a_deadlines := counts |>).
(** [state.event_deadlines.set(owner, actor.deadlines.first())] *)
Definition refresh_event_deadline (owner : ActorRef) : WM unit :=
  let! w := get in
  let! a := expect (actor_at w (ar_slot owner)) in
  modify (λ w, w <| w_event_deadlines ::= DeadlineIdx.set owner (ActorDeadlines.first (a_deadlines a)) |>).
