(* ===== verification/Publishing.v ===== *)
(** * Publishing

    The World operations of [crates/runtime-core/src/publications.rs] over the
    publication table, [expire_events_locked] of [envelope_runtime.rs], and
    [flush_staged_locked] of [components.rs]. *)
From S2P Require Import Prelude Collections Text Types Metadata Routing Expiry Operations Diagnostics.
From S2P Require Import Publications SchemaRegistry Activity WorldState Admission.

Record RoutingProgress := MkProgress {
  rp_destinations : N; rp_publications : N; rp_pending : N; rp_ready : bool
}.

Definition enqueue_publication (id : N) : WM unit :=
  let! source := publications (Publications.enqueue id) in
  match source with
  | Some source => mark_activity_dependents source ;;; mark_routing
  | None => ret tt
  end.

(** Between [reserve] and [insert] the ticket has one handle, the local of the
    method: every error return drops it, success makes it two. *)
Definition drop_ticket_on_error {A} (ticket : N) (m : WM A) : WM A :=
  let! result := try_ m in
  match result with
  | inr a => ret a
  | inl e => publications (Publications.drop_ticket ticket) ;;; fail e
  end.
Definition submit_publication (source : ActorRef) (source_port : option N) (payload : Payload)
    (options : MessageOptions) (completion : bool) : WM N :=
  let! execution := execution_state source in
  let staged := bool_decide (execution = Lifecycle.Starting) in
  let! ticket := publications (Publications.reserve source staged) in
  drop_ticket_on_error ticket (
    let! stored := make_stored_with payload options ((λ index, MkPortRef source index) <$> source_port) in
    (if staged then
       let! w := get in
       let! actor := check_ref source in
       reject_if ((mailbox_capacity (w_cfg w) <=? N.of_nat (length (a_staged actor)))%N ||
                  (saturating_sub (mailbox_bytes (w_cfg w)) (a_staged_bytes actor) <? stored_bytes stored)%N)
         Error.QueueFull ;;;
       let deadlines := ActorDeadlines.add (mo_deadline (stored_options stored)) (a_deadlines actor) in
       let! port := expect source_port in
       update_slot (ar_slot source) (λ a,
         a <| a_staged_bytes ::= λ n, (n + stored_bytes stored)%N |>
           <| a_deadlines := deadlines |>
           <| a_staged ::= λ l, l ++ [(port, stored, ticket)] |>) ;;;
       modify (λ w, w <| w_event_deadlines ::= DeadlineIdx.set source (ActorDeadlines.first deadlines) |>
                      <| w_staged_actors ::= <[ar_slot source := source]> |>)
     else ret tt) ;;;
    publications (Publications.clone_ticket ticket) ;;;
    publications (modify (Publications.insert {|
      pub_source := source;
      pub_source_port := source_port;
      pub_stored := stored;
      pub_staged := staged;
      pub_completion := completion;
      pub_ticket := ticket;
      pub_routes := None;
      pub_cursor := 0;
      pub_report := default_report <| dr_staged := b2n staged |>
    |})) ;;;
    count (λ m, m <| m_publication_admitted ::= N.succ |>) ;;;
    mark_activity_dependents source ;;;
    (if staged then ret tt else mark_routing) ;;;
    ret ticket).

Definition finish_publication (p : Publication) (result : publication_outcome) : WM unit :=
  let! (p, remaining) := expect (closed_report result p) in
  count (λ m, m <| m_rejected ::= λ n, (n + remaining)%N |>) ;;;
  publications (Publications.finish p) ;;;
  count (λ m, match result with
              | PublicationOutcome.Routed => m <| m_publication_completed ::= N.succ |>
              | PublicationOutcome.Expired => m <| m_publication_expired ::= N.succ |>
              | PublicationOutcome.FanoutLimit | PublicationOutcome.SnapshotFull =>
                  m <| m_publication_failed ::= N.succ |>
              | _ => m <| m_publication_cancelled ::= N.succ |>
              end) ;;;
  mark_activity_dependents (pub_source p) ;;;
  let! w := get in
  if bool_decide (pt_ready (w_publications w) = []) then ret tt else mark_routing.

Definition cancel_publication (id : N) (result : publication_outcome) : WM unit :=
  let! p := publications (Publications.take_entry id) in
  match p with
  | Some p => finish_publication p result
  | None => ret tt
  end.
Definition cancel_source_publications (source : ActorRef) : WM unit :=
  let! w := get in
  for_each (λ id, cancel_publication id PublicationOutcome.Cancelled)
    (Publications.queue_of (w_publications w) source).
Definition expire_publications (now : Instant) : WM unit :=
  let! w := get in
  for_each (λ id, cancel_publication id PublicationOutcome.Expired)
    (Publications.due (w_publications w) now).

(** ** [route_batch] *)

(** One destination attempt. *)
Definition route_one (p : Publication) (route : N) (target : ActorRef) : WM N :=
  let! w := get in
  let! sub := ok_or Error.NotFound (Routes.get (w_subs w) route) in
  let! execution := execution_state (sub_owner sub) in
  match execution with
  | Lifecycle.Active | Lifecycle.Quiescing => ret tt
  | Lifecycle.Starting => fail Error.ActorNotReady
  | _ => fail Error.ActorStopped
  end ;;;
  let! target_actor := check_ref target in
  let! execution := execution_state target in
  reject_if (bool_decide (execution = Lifecycle.Quiescing) && negb (pub_completion p) &&
             match a_publication_cutoff target_actor with
             | Some cutoff => (cutoff <? pub_ticket p)%N
             | None => true
             end) Error.ActorStopped ;;;
  admit_event target (pub_stored p) (Some route) true None.

(** The loop over the captured routes from the cursor on. *)
Fixpoint route_targets (batch : N) (routes : list (N * ActorRef)) (p : Publication) (destinations : N) :
    WM (Publication * N * option publication_outcome) :=
  match routes with
  | [] => ret (p, destinations, None)
  | (route, target) :: routes =>
      if (batch <=? destinations)%N then ret (p, destinations, None) else
      let! t := now in
      if deadline_passed (mo_deadline (stored_options (pub_stored p))) t
      then ret (p, destinations, Some PublicationOutcome.Expired)
      else
        let p := p <| pub_cursor ::= N.succ |> in
        let! result := try_ (route_one p route target) in
        match result with
        | inr _ =>
            route_targets batch routes (p <| pub_report ::= λ r, r <| dr_admitted ::= N.succ |> |>)
              (N.succ destinations)
        | inl e =>
            reject e target ;;;
            route_targets batch routes (p <| pub_report ::= λ r, r <| dr_rejected ::= N.succ |> |>)
              (N.succ destinations)
        end
  end.

(** The checks on the publication before any destination, and the capture of
    its routes. *)
Definition route_prepare (p : Publication) : WM (Publication * option publication_outcome) :=
  let! execution := try_ (execution_state (pub_source p)) in
  if negb (match execution with inr l => active_or_quiescing l | inl _ => false end)
  then ret (p, Some PublicationOutcome.Cancelled)
  else
    let! t := now in
    if deadline_passed (mo_deadline (stored_options (pub_stored p))) t
    then ret (p, Some PublicationOutcome.Expired)
    else
      match pub_routes p with
      | Some _ => ret (p, None)
      | None =>
          let! w := get in
          let count := Routes.source_count (w_subs w) (pub_source p) (pub_source_port p) in
          if (max_publication_fanout (w_cfg w) <? count)%N then ret (p, Some PublicationOutcome.FanoutLimit)
          else if (saturating_sub (max_routing_snapshot_entries (w_cfg w))
                     (pt_snapshot_entries (w_publications w)) <? count)%N
          then ret (p, Some PublicationOutcome.SnapshotFull)
          else
            let! routes := expect (mapM (λ id, (λ sub, (id, sub_target sub)) <$> Routes.get (w_subs w) id)
                                     (Routes.source_ids (w_subs w) (pub_source p) (pub_source_port p))) in
            let! p := publications (Publications.capture routes p) in
            ret (p, None)
      end.

Definition route_batch_locked : WM RoutingProgress :=
  let! p := publications Publications.pop_ready in
  match p with
  | None =>
      let! w := get in
      ret (MkProgress 0 0 (Publications.pending (w_publications w)) false)
  | Some p =>
      let! (p, outcome) := route_prepare p in
      let! w := get in
      let! (p, destinations, outcome) :=
        match outcome with
        | Some _ => ret (p, 0%N, outcome)
        | None =>
            let! routes := expect (pub_routes p) in
            let! (p, destinations, outcome) :=
              route_targets (routing_batch_size (w_cfg w)) (drop (N.to_nat (pub_cursor p)) routes) p 0 in
            ret (p, destinations,
                 if bool_decide (outcome = None) && (pub_cursor p =? N.of_nat (length routes))%N
                 then Some PublicationOutcome.Routed else outcome)
        end in
      match outcome with
      | Some result => finish_publication p result
      | None => publications (Publications.put_back p)
      end ;;;
      let! w := get in
      ret (MkProgress destinations (if outcome is Some _ then 1 else 0)
             (Publications.pending (w_publications w))
             (negb (bool_decide (pt_ready (w_publications w) = []))))
  end.
Definition route_batch : WM RoutingProgress := with_activity route_batch_locked.

(** ** Expiry of queued and staged events *)
Definition delivery_due (now : Instant) (d : Delivery) : bool := deadline_passed (env_deadline (d_envelope d)) now.
Definition staged_due (now : Instant) (e : N * Stored * N) : bool :=
  deadline_passed (mo_deadline (stored_options e.1.2)) now.

Definition expire_owner (now : Instant) (owner : ActorRef) : WM unit :=
  let slot := ar_slot owner in
  let! w := get in
  let! actor := match find_ref w owner with inr a => ret a | inl _ => panic end in
  let queue := a_queue actor in
  update_slot slot (λ a, a <| a_queue := [] |>) ;;;
  for_each (λ d, if delivery_due now d
                 then remove_deadline slot (env_deadline (d_envelope d)) ;;; expire_delivery d now
                 else ret tt) queue ;;;
  let! w := get in
  let! actor := expect (actor_at w slot) in
  let removed := sum_by (λ d, stored_bytes (d_payload d)) (filter (λ d, delivery_due now d = true) queue) in
  let! queue_bytes := expect (checked_sub (a_queue_bytes actor) removed) in
  update_slot slot (λ a,
    a <| a_queue := filter (λ d, delivery_due now d = false) queue |> <| a_queue_bytes := queue_bytes |>) ;;;
  let expired := filter (λ e, staged_due now e = true) (a_staged actor) in
  for_each (λ e : N * Stored * N, remove_deadline slot (mo_deadline (stored_options e.1.2))) expired ;;;
  let! staged_bytes := expect (checked_sub (a_staged_bytes actor) (sum_by (λ e : N * Stored * N, stored_bytes e.1.2) expired)) in
  let staged := filter (λ e, staged_due now e = false) (a_staged actor) in
  update_slot slot (λ a, a <| a_staged := staged |> <| a_staged_bytes := staged_bytes |>) ;;;
  refresh_event_deadline owner ;;;
  (if bool_decide (staged = []) then modify (λ w, w <| w_staged_actors ::= delete slot |>) else ret tt) ;;;
  for_each (λ e : N * Stored * N, cancel_publication e.2 PublicationOutcome.Expired) expired ;;;
  mark_activity_dependents owner ;;;
  refresh_python_ready owner ;;;
  let n := N.of_nat (length expired) in
  count (λ m, m <| m_expired ::= λ x, (x + n)%N |> <| m_cancelled ::= λ x, (x + n)%N |>
                <| m_discarded ::= λ x, (x + n)%N |>) ;;;
  for_each (λ _, diagnostic Code.DeadlineExpired (Some owner) None) expired.
Definition expire_events (now : Instant) : WM unit :=
  let! w := get in
  let '(owners, index) := DeadlineIdx.take_due now (w_event_deadlines w) in
  modify (λ w, w <| w_event_deadlines := index |>) ;;;
  for_each (expire_owner now) owners.

(** ** Release of staged publications *)
Definition flush_source (source : ActorRef) : WM unit :=
  let! w := get in
  let! actor := match find_ref w source with inr a => ret a | inl _ => panic end in
  let queued := a_staged actor in
  update_slot (ar_slot source) (λ a, a <| a_staged := [] |> <| a_staged_bytes := 0%N |>) ;;;
  for_each (λ e : N * Stored * N, remove_deadline (ar_slot source) (mo_deadline (stored_options e.1.2))) queued ;;;
  refresh_event_deadline source ;;;
  modify (λ w, w <| w_staged_actors ::= delete (ar_slot source) |>) ;;;
  for_each (λ e : N * Stored * N, enqueue_publication e.2) queued ;;;
  mark_activity_dependents source.
Definition flush_staged : WM unit :=
  let! t := now in
  expire_events t ;;;
  let! w := get in
  for_each flush_source
    (filter (λ source, execution_of w source = Ok Lifecycle.Active) (btree_values (w_staged_actors w))).
