(* ===== verification/Actors.v ===== *)
(** * Actors: allocation, activation, shutdown

    [crates/runtime-core/src/lib.rs]: [allocate], [activate], the stop fence,
    finalisation, draining and [close]; [shutdown.rs]: reports; the detachment
    of services ([services.rs]) and of failure notifications
    ([supervision.rs]) that the fence performs. *)
From S2P Require Import Prelude Collections Text Types Metadata Routing Expiry Operations Diagnostics.
From S2P Require Import Publications SchemaRegistry Activity WorldState Admission Publishing.

(** ** Allocation *)

(** The loop over the ancestors of the parent: [fuel] more are allowed. *)
Fixpoint depth_check (fuel : nat) (w : World) (ancestor : option ActorRef) : outcome error unit :=
  match ancestor with
  | None => Ok tt
  | Some next =>
      match fuel with
      | O => Err Error.LimitExceeded
      | S fuel =>
          match find_ref w next with
          | inl e => Err e
          | inr a => depth_check fuel w (a_parent a)
          end
      end
  end.
Definition new_actor (r : ActorRef) (order : N) (kind : endpoint_kind) (parent : option ActorRef) : Actor := {|
  a_reference := r;
  a_ready_order := order;
  a_kind := kind;
  a_state := Lifecycle.Starting;
  a_parent := parent;
  a_children := [];
  a_queue := [];
  a_queue_bytes := 0;
  a_staged := [];
  a_staged_bytes := 0;
  a_deadlines := ActorDeadlines.new;
  a_in_flight := false;
  a_control_in_flight := false;
  a_notification := None;
  a_pending_failures := 0;
  a_reported_failure := None;
  a_native_tasks := 0;
  a_python_done := bool_decide (kind = EndpointKind.Native);
  a_drain_root := None;
  a_drain_deadline := None;
  a_publication_cutoff := None;
  a_drain_timed_out := false;
  a_errors := 0;
  a_last_error := None;
  a_component := None
|}.
(** [st.free.pop().unwrap_or(st.actors.len() as u32)] *)
Definition pop_free : WM N :=
  let! w := get in
  match w_free w with
  | slot :: free => modify (λ w, w <| w_free := free |>) ;;; ret slot
  | [] => ret (N.of_nat (length (w_actors w)) mod 2 ^ 32)%N
  end.
Definition install (slot : N) (a : Actor) : WM unit :=
  let! w := get in
  if bool_decide (N.to_nat slot = length (w_actors w))
  then modify (λ w, w <| w_actors ::= λ l, l ++ [Some a] |>)
  else if bool_decide (N.to_nat slot < length (w_actors w))
  then modify (λ w, w <| w_actors ::= <[N.to_nat slot := Some a]> |>)
  else panic.
Definition allocate_locked (kind : endpoint_kind) (parent : option ActorRef) : WM ActorRef :=
  let! w := get in
  reject_if (max_actors (w_cfg w) <=? w_live_actors w)%N Error.LimitExceeded ;;;
  match parent with
  | None => ret tt
  | Some p =>
      let! pa := check_ref p in
      reject_if (negb (starting_or_active (a_state pa))) Error.ActorStopped ;;;
      of_outcome (depth_check 127 w (a_parent pa))
  end ;;;
  let! next_ready_order := ok_or Error.LimitExceeded (checked_add u64_max (w_next_ready_order w) 1) in
  let! slot := pop_free in
  let! generation :=
    match actor_at w slot with
    | Some a => expect (checked_add u64_max (ar_generation (a_reference a)) 1)
    | None => ret 1%N
    end in
  let r := MkActorRef (w_id w) slot generation in
  install slot (new_actor r (w_next_ready_order w) kind parent) ;;;
  match parent with
  | Some p => update_ref p (λ a, a <| a_children ::= λ l, l ++ [r] |>)
  | None => ret tt
  end ;;;
  modify (λ w, w <| w_live_actors ::= N.succ |> <| w_next_ready_order := next_ready_order |>) ;;;
  refresh_python_ready r ;;;
  mark_activity_dependents r ;;;
  ret r.
Definition allocate (kind : endpoint_kind) (parent : option ActorRef) : WM ActorRef :=
  with_activity (
    let! w := get in
    reject_if (w_closed w) Error.ActorStopped ;;;
    allocate_locked kind parent).

Definition activate (r : ActorRef) : WM unit :=
  let! a := check_ref r in
  match a_parent a with
  | Some p =>
      let! pa := check_ref p in
      reject_if (negb (starting_or_active (a_state pa))) Error.ActorStopped
  | None => ret tt
  end ;;;
  let! a := check_ref r in
  reject_if (negb (bool_decide (a_state a = Lifecycle.Starting))) Error.ActorStopped ;;;
  update_slot (ar_slot r) (λ a, a <| a_state := Lifecycle.Active |>) ;;;
  refresh_python_subtree r ;;;
  mark_activity_tree r ;;;
  flush_staged ;;;
  touch_activity.

(** ** Reports *)
Record StopReport := MkStopReport {
  sp_native_done : bool; sp_python_done : bool; sp_in_flight : N; sp_discarded : N;
  sp_timed_out : bool; sp_queued : N; sp_delivery_in_flight : N; sp_control_in_flight : N;
  sp_native_tasks : N; sp_python_pending : N; sp_pending_notifications : N;
  sp_outstanding_operations : N; sp_retained_operations : N; sp_outstanding_publications : N;
  sp_retained_publications : N; sp_errors : N; sp_last_error : option FailureRecord
}.
#[export] Instance StopReport_expand : Expand StopReport := λ r,
  MkStopReport (sp_native_done r) (sp_python_done r) (sp_in_flight r) (sp_discarded r)
    (sp_timed_out r) (sp_queued r) (sp_delivery_in_flight r) (sp_control_in_flight r)
    (sp_native_tasks r) (sp_python_pending r) (sp_pending_notifications r)
    (sp_outstanding_operations r) (sp_retained_operations r) (sp_outstanding_publications r)
    (sp_retained_publications r) (sp_errors r) (sp_last_error r).
Definition default_stop_report : StopReport :=
  MkStopReport false false 0 0 false 0 0 0 0 0 0 0 0 0 0 0 None.

Definition keep_latest (current candidate : option FailureRecord) : option FailureRecord :=
  match candidate with
  | None => current
  | Some c =>
      if match current with Some old => (fr_sequence old <? fr_sequence c)%N | None => true end
      then Some c else current
  end.
Definition add_actor (r : StopReport) (a : Actor) : StopReport :=
  r <| sp_queued ::= λ n, (n + (N.of_nat (length (a_queue a)) + N.of_nat (length (a_staged a))))%N |>
    <| sp_delivery_in_flight ::= λ n, (n + b2n (a_in_flight a))%N |>
    <| sp_control_in_flight ::= λ n, (n + b2n (a_control_in_flight a))%N |>
    <| sp_native_tasks ::= λ n, (n + a_native_tasks a)%N |>
    <| sp_python_pending ::= λ n, (n + b2n (negb (a_python_done a)))%N |>
    <| sp_pending_notifications ::= λ n, (n + b2n (bool_decide (is_Some (a_notification a))))%N |>
    <| sp_errors ::= λ n, saturating_add u64_max n (a_errors a) |>
    <| sp_last_error ::= λ e, keep_latest e (a_last_error a) |>
    <| sp_timed_out ::= λ b, b || a_drain_timed_out a |>.
Definition finish_counts (r : StopReport) : StopReport :=
  let in_flight := (sp_delivery_in_flight r + sp_control_in_flight r + sp_native_tasks r)%N in
  r <| sp_in_flight := in_flight |>
    <| sp_native_done := (sp_queued r =? 0)%N && (in_flight =? 0)%N && (sp_pending_notifications r =? 0)%N &&
         (sp_outstanding_operations r =? 0)%N && (sp_outstanding_publications r =? 0)%N |>
    <| sp_python_done := (sp_python_pending r =? 0)%N |>.
(** The traversal of an ownership scope, with a stack (its head is the next). *)
Fixpoint report_walk (fuel : nat) (w : World) (pending : list ActorRef) (report : StopReport)
    (scope : gset ActorRef) : outcome error (StopReport * gset ActorRef) :=
  match pending with
  | [] => Ok (report, scope)
  | r :: pending =>
      match fuel with
      | O => Panic
      | S fuel =>
          match find_ref w r with
          | inl e => Err e
          | inr a => report_walk fuel w (rev (a_children a) ++ pending) (add_actor report a) ({[r]} ∪ scope)
          end
      end
  end.
Definition report_of (w : World) (r : ActorRef) : outcome error StopReport :=
  match report_walk (walk_fuel w) w [r] default_stop_report ∅ with
  | Ok (report, scope) =>
      let '(outstanding, kept) := Operations.counts_for_scope (w_operations w) scope in
      let '(outstanding_p, kept_p) := Publications.counts_for_scope (w_publications w) scope in
      Ok (finish_counts (report
        <| sp_outstanding_operations := outstanding |> <| sp_retained_operations := kept |>
        <| sp_outstanding_publications := outstanding_p |> <| sp_retained_publications := kept_p |>))
  | Err e => Err e
  | Panic => Panic
  end.
Definition report_locked (r : ActorRef) : WM StopReport := λ w, (report_of w r, w).
Definition world_report (w : World) : StopReport :=
  finish_counts ((foldl add_actor default_stop_report (omap id (w_actors w)))
    <| sp_errors := m_failures (w_metrics w) |>
    <| sp_last_error := w_last_error w |>
    <| sp_timed_out := negb (m_drain_timeouts (w_metrics w) =? 0)%N |>
    <| sp_outstanding_operations := Operations.pending_count (w_operations w) |>
    <| sp_retained_operations := Operations.retained_terminal_count (w_operations w) |>
    <| sp_outstanding_publications := Publications.pending (w_publications w) |>
    <| sp_retained_publications := Publications.retained (w_publications w) |>).

(** ** Finalisation *)
Definition child_done (w : World) (c : ActorRef) : bool :=
  match actor_at w (ar_slot c) with
  | Some x => negb (bool_decide (a_reference x = c)) || bool_decide (a_state x = Lifecycle.Stopped)
  | None => true
  end.
Definition finalizable (w : World) (a : Actor) : bool :=
  bool_decide (a_state a = Lifecycle.Stopping) && negb (a_in_flight a) && negb (a_control_in_flight a) &&
  negb (bool_decide (is_Some (a_notification a))) && (a_native_tasks a =? 0)%N && a_python_done a &&
  forallb (child_done w) (a_children a).
(** What a retired child hands to its parent. *)
Definition absorb (r : ActorRef) (retired parent : Actor) : Actor :=
  parent <| a_children ::= filter (λ child, child ≠ r) |>
         <| a_drain_timed_out ::= λ b, b || a_drain_timed_out retired |>
         <| a_errors ::= λ n, saturating_add u64_max n (a_errors retired) |>
         <| a_last_error ::= λ e, keep_latest e (a_last_error retired) |>.
Fixpoint finalize (fuel : nat) (r : ActorRef) : WM unit :=
  match fuel with
  | O => panic
  | S fuel =>
      refresh_python_ready r ;;;
      mark_activity_dependents r ;;;
      let! w := get in
      match actor_at w (ar_slot r) with
      | None => ret tt
      | Some a =>
          if negb (bool_decide (a_reference a = r) && finalizable w a) then ret tt else
          update_slot (ar_slot r) (λ a, a <| a_state := Lifecycle.Stopped |>) ;;;
          refresh_python_ready r ;;;
          decr w_live_actors ;;;
          operations (Operations.retire_owner r) ;;;
          modify (λ w, w <| w_free ::= λ l, ar_slot r :: l |>) ;;;
          match a_parent a with
          | None => ret tt
          | Some p =>
              let! w := get in
              match actor_at w (ar_slot p) with
              | Some parent =>
                  if bool_decide (a_reference parent = p) then update_slot (ar_slot p) (absorb r a) else ret tt
              | None => ret tt
              end ;;;
              finalize fuel p
          end
      end
  end.
Definition try_finalize (r : ActorRef) : WM unit := λ w, finalize (walk_fuel w) r w.

(** ** Detachment *)
Definition remove_holder (owner scope : ActorRef) (s : ServiceRegistry) : ServiceRegistry :=
  s <| sv_by_holder ::= idx_remove owner scope |>.
Definition detach_scope (scope : ActorRef) : WM unit :=
  let! w := get in
  match sv_leases (w_services w) !! scope with
  | None => ret tt
  | Some lease =>
      modify (λ w, w <| w_services ::= λ s, s <| sv_leases ::= delete scope |> |>) ;;;
      modify (λ w, w <| w_services ::= λ s,
        match sv_by_target s !! lease_service lease with
        | Some name => s <| sv_records ::= alter (λ rec, rec <| sv_scopes ::= λ l, l ∖ {[scope]} |>) name |>
        | None => s
        end |>) ;;;
      modify (λ w, w <| w_services ::= remove_holder (lease_owner lease) scope |>) ;;;
      mark_activity_dependents (lease_owner lease) ;;;
      mark_activity_dependents (lease_service lease)
  end.
Section detach_service.
Context (fence : ActorRef → WM unit).
Definition detach_one (service scope : ActorRef) : WM unit :=
  let! w := get in
  modify (λ w, w <| w_services ::= λ s, s <| sv_leases ::= delete scope |> |>) ;;;
  match sv_leases (w_services w) !! scope with
  | Some lease =>
      modify (λ w, w <| w_services ::= remove_holder (lease_owner lease) scope |>) ;;;
      mark_activity_dependents (lease_owner lease)
  | None => ret tt
  end ;;;
  mark_activity_dependents service ;;;
  try_ (fence scope) ;;;
  ret tt.
Definition detach_service (service : ActorRef) : WM unit :=
  let! w := get in
  match sv_by_target (w_services w) !! service with
  | None => ret tt
  | Some name =>
      modify (λ w, w <| w_services ::= λ s, s <| sv_by_target ::= delete service |> |>) ;;;
      match sv_records (w_services w) !! name with
      | None => ret tt
      | Some record =>
          modify (λ w, w <| w_services ::= λ s, s <| sv_records ::= delete name |> |>) ;;;
          for_each (detach_one service) (btree_elems (sv_scopes record))
      end
  end.
End detach_service.

Definition has_notification (w : World) (child : ActorRef) : bool :=
  match find_ref w child with
  | inr a => bool_decide (is_Some (a_notification a))
  | inl _ => false
  end.
(** [actor.pending_failures -= 1] *)
Definition decr_pending_failures (supervisor : ActorRef) : WM unit :=
  let! w := get in
  let! a := match find_ref w supervisor with inr a => ret a | inl _ => panic end in
  let! n := expect (checked_sub (a_pending_failures a) 1) in
  update_slot (ar_slot supervisor) (λ a, a <| a_pending_failures := n |>).
Definition discard_notification (supervisor source : ActorRef) : WM unit :=
  update_slot (ar_slot source) (λ a, a <| a_notification := None |>) ;;;
  decr_pending_failures supervisor ;;;
  count (λ m, m <| m_notifications_discarded ::= N.succ |>) ;;;
  try_finalize source.
Definition discard_notifications_for (supervisor : ActorRef) : WM unit :=
  let! w := get in
  match find_ref w supervisor with
  | inl _ => ret tt
  | inr a =>
      let sources := filter (λ child, has_notification w child = true) (a_children a) in
      for_each (discard_notification supervisor) sources ;;;
      (if bool_decide (sources = []) then ret tt else mark_activity_dependents supervisor) ;;;
      refresh_python_ready supervisor
  end.

(** ** The stop fence *)
Definition remove_route (id : N) : WM unit :=
  let! w := get in
  let '(route, subs) := Routes.remove (w_subs w) id in
  match route with
  | Some route => modify (λ w, w <| w_subs := subs |>) ;;; mark_route_activity route
  | None => ret tt
  end.
Definition fence_operations (r : ActorRef) : WM unit :=
  let! w := get in
  let participants := Operations.pending_participants_for (w_operations w) r in
  let! n := operations (Operations.cancel_owner r) in
  let! m := operations (Operations.stop_target r) in
  for_each (λ p, mark_operation_activity (oo_owner p) (Some (oo_target p))) participants ;;;
  count (λ x, x <| m_operation_cancelled ::= λ c, (c + (n + m))%N |>) ;;;
  for_each (λ _, diagnostic Code.Cancelled (Some r) None) (replicate (N.to_nat (n + m)) tt).
(** The actor loses its queue and staging area and is [Stopping]. *)
Definition fence_actor (r : ActorRef) : WM unit :=
  let! a := check_ref r in
  update_slot (ar_slot r) (λ a,
    a <| a_state := Lifecycle.Stopping |> <| a_staged := [] |> <| a_staged_bytes := 0%N |>
      <| a_deadlines ::= ActorDeadlines.clear |> <| a_queue := [] |> <| a_queue_bytes := 0%N |>) ;;;
  let n := (N.of_nat (length (a_staged a)) + N.of_nat (length (a_queue a)))%N in
  count (λ m, m <| m_cancelled ::= λ c, (c + n)%N |> <| m_discarded ::= λ c, (c + n)%N |>).
Fixpoint fence (fuel : nat) (r : ActorRef) : WM unit :=
  match fuel with
  | O => panic
  | S fuel =>
      check_ref r ;;;
      cancel_source_publications r ;;;
      modify (λ w, w <| w_event_deadlines ::= DeadlineIdx.remove r |>
                     <| w_staged_actors ::= delete (ar_slot r) |>
                     <| w_drain_roots ::= delete (ar_slot r) |>) ;;;
      detach_scope r ;;;
      detach_service (fence fuel) r ;;;
      discard_notifications_for r ;;;
      fence_operations r ;;;
      let! a := check_ref r in
      for_each (fence fuel) (a_children a) ;;;
      let! a := check_ref r in
      if bool_decide (a_state a = Lifecycle.Stopped) then ret tt else
      let! w := get in
      for_each remove_route (Routes.actor_route_ids (w_subs w) r) ;;;
      fence_actor r ;;;
      try_finalize r
  end.
(** A descent through children, a service's scopes (owned by others), and
    their children: a service has no parent, so at most two chains. *)
Definition fence_locked (r : ActorRef) : WM unit := λ w, fence (2 * walk_fuel w) r w.
Definition stop_locked (r : ActorRef) : WM StopReport :=
  let! w := get in
  fence_locked r ;;;
  let! report := report_locked r in
  let! w' := get in
  ret (report <| sp_discarded := saturating_sub (m_discarded (w_metrics w')) (m_discarded (w_metrics w)) |>).
Definition stop (r : ActorRef) : WM StopReport :=
  let! result := try_ (stop_locked r) in
  touch_activity ;;;
  match result with inr report => ret report | inl e => fail e end.

Definition close_locked : WM StopReport :=
  let! w := get in
  modify (λ w, w <| w_closed := true |>) ;;;
  close_routing ;;;
  for_each (λ r, try_ (fence_locked r) ;;; ret tt)
    (a_reference <$> filter (λ a, a_parent a = None) (omap id (w_actors w))) ;;;
  let! w' := get in
  ret ((world_report w') <| sp_discarded := saturating_sub (m_discarded (w_metrics w')) (m_discarded (w_metrics w)) |>).
Definition close : WM StopReport :=
  let! report := close_locked in
  touch_activity ;;;
  ret report.

(** ** Draining *)
Fixpoint quiesce (fuel : nat) (root r : ActorRef) (deadline : Instant) : WM Instant :=
  match fuel with
  | O => panic
  | S fuel =>
      let! w := get in
      let cutoff := Publications.last_issued (w_publications w) in
      let! a := check_ref r in
      match a_state a with
      | Lifecycle.Stopping | Lifecycle.Stopped => ret deadline
      | _ =>
          let deadline := match a_drain_deadline a with
                          | Some previous => N.min deadline previous
                          | None => deadline
                          end in
          update_slot (ar_slot r) (λ a,
            a <| a_state := Lifecycle.Quiescing |>
              <| a_publication_cutoff ::= λ c, Some (default cutoff c) |>
              <| a_drain_root := Some root |> <| a_drain_deadline := None |>) ;;;
          modify (λ w, w <| w_drain_roots ::= delete (ar_slot r) |>) ;;;
          let! deadline :=
            (fix children (l : list ActorRef) (deadline : Instant) : WM Instant :=
               match l with
               | [] => ret deadline
               | child :: l => let! deadline := quiesce fuel root child deadline in children l deadline
               end) (a_children a) deadline in
          refresh_python_ready r ;;;
          mark_activity_dependents r ;;;
          ret deadline
      end
  end.
Definition mark_quiescing (r root : ActorRef) (deadline : Instant) : WM Instant := λ w,
  quiesce (walk_fuel w) root r deadline w.
Definition drain_locked (r : ActorRef) (deadline : Instant) : WM unit :=
  let! actor := check_ref r in
  match a_state actor with
  | Lifecycle.Stopped | Lifecycle.Stopping => ret tt
  | Lifecycle.Starting => stop_locked r ;;; ret tt
  | Lifecycle.Quiescing =>
      let root := default r (a_drain_root actor) in
      let! _ := check_ref root in
      update_slot (ar_slot root) (λ a,
        a <| a_drain_deadline ::= λ old, Some (match old with Some old => N.min old deadline | None => deadline end) |>) ;;;
      mark_activity_dependents root
  | Lifecycle.Active =>
      let! deadline := mark_quiescing r r deadline in
      update_ref r (λ a, a <| a_drain_deadline := Some deadline |>) ;;;
      modify (λ w, w <| w_drain_roots ::= <[ar_slot r := r]> |>)
  end.

Fixpoint drained (fuel : nat) (w : World) (r : ActorRef) : option bool :=
  match fuel with
  | O => None
  | S fuel =>
      match find_ref w r with
      | inl _ => Some true
      | inr a =>
          if bool_decide (a_queue a = []) && bool_decide (a_staged a = []) &&
             (Publications.pending_for (w_publications w) r =? 0)%N &&
             negb (a_in_flight a) && negb (a_control_in_flight a) &&
             negb (bool_decide (is_Some (a_notification a))) && (a_native_tasks a =? 0)%N &&
             (Operations.pending_for (w_operations w) (a_reference a) =? 0)%N &&
             (Operations.pending_for_target (w_operations w) (a_reference a) =? 0)%N
          then
            (fix all (l : list ActorRef) : option bool :=
               match l with
               | [] => Some true
               | child :: l =>
                   match drained fuel w child with Some true => all l | x => x end
               end) (a_children a)
          else Some false
      end
  end.
Definition drained_locked (r : ActorRef) : WM bool := λ w,
  match drained (walk_fuel w) w r with Some b => (Ok b, w) | None => (Panic, w) end.

Definition maintain_root (now : Instant) (root : ActorRef) : WM unit :=
  let! w := get in
  if negb (bool_decide (w_drain_roots w !! ar_slot root = Some root)) then ret tt else
  let expired := match find_ref w root with
                 | inr a => match a_drain_deadline a with Some d => (d <=? now)%N | None => false end
                 | inl _ => false
                 end in
  let! drained := drained_locked root in
  if expired || drained then
    (if expired && negb drained then
       match find_ref w root with
       | inr _ => update_slot (ar_slot root) (λ a, a <| a_drain_timed_out := true |>)
       | inl _ => panic
       end ;;;
       count (λ m, m <| m_drain_timeouts ::= N.succ |>) ;;;
       diagnostic Code.DrainTimeout (Some root) None
     else ret tt) ;;;
    try_ (stop_locked root) ;;;
    ret tt
  else ret tt.
Definition maintain_locked (now : Instant) : WM unit :=
  expire_events now ;;;
  expire_publications now ;;;
  let! w := get in
  let participants := Operations.due_participants (w_operations w) now in
  let! expired := operations (Operations.expire_ids now) in
  for_each (λ p, mark_operation_activity (oo_owner p) (Some (oo_target p))) participants ;;;
  count (λ m, m <| m_operation_timed_out ::= λ n, (n + N.of_nat (length expired))%N |>) ;;;
  for_each (λ id, diagnostic Code.OperationTimedOut None (Some id)) expired ;;;
  let! w := get in
  for_each (maintain_root now) (btree_values (w_drain_roots w)).
Definition stamp (w : World) : N * N * N * nat :=
  (m_expired (w_metrics w), m_operation_timed_out (w_metrics w), m_publication_expired (w_metrics w),
   size (w_drain_roots w)).
Definition maintain (now : Instant) : WM unit :=
  let! before := gets stamp in
  maintain_locked now ;;;
  let! after := gets stamp in
  if bool_decide (before ≠ after) then touch_activity else ret tt.

Definition request_drain (r : ActorRef) (deadline : Instant) : WM StopReport :=
  drain_locked r deadline ;;;
  let! t := now in
  maintain_locked t ;;;
  let! report := try_ (report_locked r) in
  touch_activity ;;;
  match report with inr report => ret report | inl e => fail e end.
Definition drain_all (deadline : Instant) : WM StopReport :=
  let! w := get in
  modify (λ w, w <| w_closed := true |>) ;;;
  for_each (λ r, try_ (drain_locked r deadline) ;;; ret tt)
    (a_reference <$> filter (λ a, a_parent a = None ∧ a_state a ≠ Lifecycle.Stopped) (omap id (w_actors w))) ;;;
  let! t := now in
  maintain_locked t ;;;
  let! w' := get in
  touch_activity ;;;
  ret ((world_report w') <| sp_discarded := saturating_sub (m_discarded (w_metrics w')) (m_discarded (w_metrics w)) |>).

(** ** Executor handles *)
Definition finish_python (r : ActorRef) : WM unit :=
  with_activity (
    update_ref r (λ a, a <| a_python_done := true |>) ;;;
    try_finalize r).
Definition new_handle : WM N :=
  let! w := get in
  modify (λ w, w <| w_next_handle ::= N.succ |>) ;;;
  ret (w_next_handle w).
Definition track_task (r : ActorRef) : WM N :=
  let! a := check_ref r in
  reject_if (negb (starting_or_active (a_state a))) Error.ActorStopped ;;;
  update_slot (ar_slot r) (λ a, a <| a_native_tasks ::= N.succ |>) ;;;
  mark_activity_dependents r ;;;
  touch_activity ;;;
  let! handle := new_handle in
  modify (λ w, w <| w_tasks ::= <[handle := MkTask r 1]> |>) ;;;
  ret handle.
(** [Clone for TaskLease], and dropping one; the last drop is
    [Drop for TaskRegistration]. *)
Definition clone_task (handle : N) : WM unit :=
  let! w := get in
  let! task := expect (w_tasks w !! handle) in
  modify (λ w, w <| w_tasks ::= <[handle := task <| tk_strong ::= N.succ |>]> |>).
Definition drop_registration (owner : ActorRef) : WM unit :=
  let! w := get in
  match actor_at w (ar_slot owner) with
  | Some a =>
      if bool_decide (a_reference a = owner) && (0 <? a_native_tasks a)%N
      then update_slot (ar_slot owner) (λ a, a <| a_native_tasks ::= N.pred |>) else ret tt
  | None => ret tt
  end ;;;
  try_finalize owner ;;;
  touch_activity.
Definition drop_task (handle : N) : WM unit :=
  let! w := get in
  let! task := expect (w_tasks w !! handle) in
  if (tk_strong task <=? 1)%N then
    modify (λ w, w <| w_tasks ::= delete handle |>) ;;;
    drop_registration (tk_owner task)
  else modify (λ w, w <| w_tasks ::= <[handle := task <| tk_strong ::= N.pred |>]> |>).
