(* ===== verification/Messaging.v ===== *)
(** * Messaging

    The World operations of [crates/runtime-core/src/lib.rs] that carry events:
    construction of a World, holding and sending payloads, request/reply
    operations, subscriptions, publication requests, and claiming deliveries. *)
From S2P Require Import Prelude Collections Text Types Metadata Schema Routing Expiry Readiness Operations.
From S2P Require Import Diagnostics Publications SchemaRegistry Activity WorldState Admission Publishing.
From S2P Require Import Actors.

(** ** Construction *)

(** [World::with_clock], with the next value of [NEXT_WORLD]. *)
Definition with_clock (world_id : N) (cfg : Config) (clock : Clock) : outcome error World :=
  if negb (config_valid cfg) then Err Error.InvalidConfig else
  let '(epoch, clock) := Clocks.now clock in
  match Operations.new world_id (max_operations cfg), Registry.new (max_schemas cfg) with
  | inl e, _ => Err e
  | inr operations, Ok schemas =>
      Ok {|
        w_id := world_id; w_cfg := cfg; w_next_event := 1; w_next_sub := 1; w_epoch := epoch;
        w_clock := clock; w_actors := []; w_live_actors := 0; w_next_ready_order := 1;
        w_python_ready := Ready.new; w_event_deadlines := DeadlineIdx.new; w_staged_actors := ∅;
        w_drain_roots := ∅; w_free := []; w_subs := Routes.new; w_metrics := default_metrics;
        w_closed := false; w_operations := operations;
        w_publications := Publications.new (max_publications cfg) (max_publications_per_source cfg);
        w_diagnostics := Hist.new (diagnostic_capacity cfg) epoch; w_next_failure := 1;
        w_failure_epoch := epoch; w_last_error := None; w_schemas := schemas; w_interfaces := ∅;
        w_services := new_services; w_activity := Activity.new;
        w_routing_signal := MkSignal false None false;
        w_next_stored := 1; w_next_handle := 1; w_held := []; w_permits := ∅; w_leases := ∅;
        w_tasks := ∅; w_failure_leases := ∅; w_callbacks := ∅; w_woken := []
      |}
  | _, Err _ => Err Error.InvalidConfig
  | _, Panic => Panic
  end.

(** [register_schemas] and [structured], whose errors are schema errors. *)
Definition register_schemas (schemas : list Schema) : M World string (list N) :=
  let! w := get in
  reject_if (w_closed w &&
    negb (existsb (λ a, bool_decide (a_state a = Lifecycle.Quiescing) || a_in_flight a) (omap id (w_actors w))))
    (err "World is closed") ;;;
  zoom w_schemas (λ t w, w <| w_schemas := t |>) (Registry.register_batch schemas).
Definition structured (id : N) (bytes : list byte) : M World string Payload :=
  let! w := get in
  reject_if (max_event_bytes (w_cfg w) <? saturating_add usize_max (N.of_nat (length bytes)) 4)%N
    (err "event exceeds configured byte limit") ;;;
  let! descriptor := of_outcome (Registry.schema (w_schemas w) id) in
  of_outcome (Decode.validate_registered_bytes descriptor bytes) ;;;
  ret (Structured (MkStructured (w_id w) id bytes)).
Definition diagnostics_read (after limit : N) : WM DiagnosticRead :=
  let! w := get in
  reject_if (diagnostic_capacity (w_cfg w) <? limit)%N Error.LimitExceeded ;;;
  ret (Hist.read (w_diagnostics w) after limit).

(** ** Holding and sending *)
Definition hold_payload (stored : Stored) : WM unit := modify (λ w, w <| w_held ::= λ l, l ++ [stored] |>).
Definition hold_with (p : Payload) (options : MessageOptions) : WM HeldPayload :=
  let! w := get in
  reject_if (w_closed w) Error.ActorStopped ;;;
  validate_source options true ;;;
  let! t := now in
  check_deadline options t ;;;
  let! stored := make_stored_with p options None in
  hold_payload stored ;;;
  ret (MkHeld stored (w_id w) None).
(** Dropping the caller's [i]-th payload handle. *)
Definition drop_held (i : nat) : WM unit := modify (λ w, w <| w_held ::= delete i |>).

(** [Err(e) => { self.reject(&mut st, &e, actor); return Err(e); }] *)
Definition or_reject {A} (actor : ActorRef) (m : WM A) : WM A :=
  let! result := try_ m in
  match result with
  | inr a => ret a
  | inl e => reject e actor ;;; fail e
  end.
Definition submitted : WM unit := count (λ m, m <| m_submitted ::= N.succ |>).
Definition send_with (r : ActorRef) (p : Payload) (options : MessageOptions) : WM N :=
  submitted ;;;
  let! stored := or_reject r (make_stored_with p options None) in
  let! id := or_reject r (admit_event r stored None false None) in
  touch_activity ;;;
  ret id.
Definition send_held (r : ActorRef) (held : HeldPayload) : WM N :=
  submitted ;;;
  let! w := get in
  or_reject r (reject_if (bool_decide (held_world held ≠ w_id w)) Error.CrossWorld) ;;;
  let! id := or_reject r (admit_event r (held_stored held) None false None) in
  touch_activity ;;;
  ret id.
Definition send_held_from (owner target : ActorRef) (held : HeldPayload) : WM N :=
  submitted ;;;
  let! w := get in
  or_reject target (reject_if (bool_decide (held_world held ≠ w_id w)) Error.CrossWorld) ;;;
  let! a := or_reject owner (check_ref owner) in
  (if bool_decide (a_state a = Lifecycle.Active) then
     let! execution := execution_state owner in
     or_reject owner (reject_if (negb (bool_decide (execution = Lifecycle.Active))) Error.ActorStopped)
   else or_reject owner (fail Error.ActorStopped)) ;;;
  let! id := or_reject target (admit_event target (held_stored held) None false None) in
  touch_activity ;;;
  ret id.

(** ** Request and reply *)
Definition option_min (a b : option N) : option N :=
  match a, b with
  | Some a, Some b => Some (N.min a b)
  | Some a, None => Some a
  | None, b => b
  end.
(** [queue.back_mut().expect("admitted ..").envelope.destination_port = Some(port)] *)
Definition set_last_port (r : ActorRef) (port : PortRef) : WM unit :=
  let! a := check_ref r in
  let! d := expect (last (a_queue a)) in
  update_slot (ar_slot r) (λ a, a <| a_queue ::= λ q,
    take (length q - 1) q ++ [d <| d_envelope ::= λ e, e <| env_destination_port := Some port |> |>] |>).
(** [let _ = st.operations.release_unsubmitted(id);] before a rejection. *)
Definition release_on_error {A} (id : OperationId) (m : WM A) : WM A :=
  let! result := try_ m in
  match result with
  | inr a => ret a
  | inl e => try_ (operations (Operations.release_unsubmitted id)) ;;; fail e
  end.
Definition request_with_port (owner target : ActorRef) (payload : Payload) (deadline : Instant)
    (options : MessageOptions) (destination_port : option PortRef) : WM OperationId :=
  with_activity (
    reject_if (match mo_source options with
               | Some source => bool_decide (source ≠ owner)
               | None => false
               end) Error.InvalidMetadata ;;;
    let deadline := match mo_deadline options with Some other => N.min other deadline | None => deadline end in
    let options := options <| mo_source := Some owner |> <| mo_deadline := Some deadline |> in
    submitted ;;;
    let! owner_ready := or_reject owner (execution_state owner) in
    let! target_ready := or_reject target (execution_state target) in
    or_reject target (reject_if (bool_decide (owner_ready ≠ Lifecycle.Active) ||
                                 bool_decide (target_ready ≠ Lifecycle.Active)) Error.ActorNotReady) ;;;
    let! id := or_reject owner (operations (Operations.reserve owner target deadline)) in
    let! stored := or_reject target (release_on_error id (make_stored_with payload options None)) in
    let! event_id := or_reject target (release_on_error id (admit_event target stored None false (Some id))) in
    match destination_port with
    | Some port => set_last_port target port
    | None => ret tt
    end ;;;
    let! w := get in
    let! a := check_ref target in
    let! d := expect (last (a_queue a)) in
    operations (Operations.set_context id (MkHeld stored (w_id w) (Some (d_envelope d)))) ;;;
    mark_activity_dependents owner ;;;
    ret id).

Definition late_result (target : ActorRef) (id : OperationId) : WM unit :=
  count (λ m, m <| m_operation_late_results ::= N.succ |>) ;;;
  diagnostic Code.OperationLateResult (Some target) (Some id).
(** [if self.complete_operation_locked(id, TimedOut, ..)? { .. } return Ok(false)] *)
Definition time_out_operation (target : ActorRef) (id : OperationId) : WM bool :=
  let! won := complete_operation_locked id TimedOut in
  (if won then
     count (λ m, m <| m_operation_timed_out ::= N.succ |>) ;;;
     diagnostic Code.OperationTimedOut (Some target) (Some id)
   else ret tt) ;;;
  ret false.
(** The metadata of a reply: what the request's envelope passes on, overridden. *)
Definition merge_options (metadata options : MessageOptions) : MessageOptions :=
  metadata <| mo_deadline := option_min (mo_deadline metadata) (mo_deadline options) |>
           <| mo_correlation_id := option_or (mo_correlation_id options) (mo_correlation_id metadata) |>
           <| mo_causation_id := option_or (mo_causation_id options) (mo_causation_id metadata) |>
           <| mo_trace := option_or (mo_trace options) (mo_trace metadata) |>.
Definition expired_now (options : MessageOptions) : WM bool :=
  let! t := now in
  ret (deadline_passed (mo_deadline options) t).
Definition complete_pending (id : OperationId) (target : ActorRef) (payload : Payload)
    (options : option MessageOptions) (pending : PendingOperation) : WM bool :=
  reject_if (bool_decide (po_target pending ≠ target)) Error.StaleReference ;;;
  let! owner_state := execution_state (po_owner pending) in
  reject_if (negb (active_or_quiescing owner_state)) Error.ActorStopped ;;;
  let! target_state := execution_state target in
  reject_if (negb (active_or_quiescing target_state)) Error.ActorStopped ;;;
  let metadata := match po_context pending ≫= held_envelope with
                  | Some envelope => child_options envelope target
                  | None => default_options
                  end in
  let! metadata :=
    match options with
    | None => ret metadata
    | Some options =>
        reject_if (negb (Options.validate options)) Error.InvalidMetadata ;;;
        reject_if (match mo_source options with
                   | Some source => bool_decide (source ≠ target)
                   | None => false
                   end) Error.InvalidMetadata ;;;
        ret (merge_options metadata options)
    end in
  let metadata := metadata <| mo_source := Some target |> in
  let! expired := expired_now metadata in
  if expired then time_out_operation target id else
  let! made := try_ (make_stored_with payload metadata None) in
  match made with
  | inl _ =>
      let! won := complete_operation_locked id
        (Failed ResultTooLarge "operation result exceeds configured budget") in
      (if won then count (λ m, m <| m_operation_completed ::= N.succ |>) else ret tt) ;;;
      ret won
  | inr stored =>
      let! event_id := next_event_id in
      let! t := now in
      let! w := get in
      let! envelope := of_outcome (envelope_for w (po_owner pending) stored None event_id t) in
      let! expired := expired_now (stored_options stored) in
      if expired then time_out_operation target id else
      let! won := complete_operation_locked id (Completed (MkHeld stored (w_id w) (Some envelope))) in
      (if won then count (λ m, m <| m_operation_completed ::= N.succ |>)
       else late_result target id) ;;;
      ret won
  end.
Definition complete_operation_with (id : OperationId) (target : ActorRef) (payload : Payload)
    (options : option MessageOptions) : WM bool :=
  with_activity (
    let! t := now in
    expire_and_count id t (Some target) ;;;
    let! w := get in
    match Operations.status (w_operations w) id with
    | Ok (SPending pending) => complete_pending id target payload options pending
    | Ok (STerminal _) | Err Error.StaleReference => late_result target id ;;; ret false
    | Err e => fail e
    | Panic => panic
    end).
Definition cancel_operation (id : OperationId) : WM bool :=
  with_activity (
    let! won := complete_operation_locked id Cancelled in
    (if won then count (λ m, m <| m_operation_cancelled ::= N.succ |>) else ret tt) ;;;
    ret won).
(** The payload handles a returned status or outcome carries. *)
Definition outcome_handles (o : TerminalOutcome) : list Stored :=
  match o with Completed payload => [held_stored payload] | _ => [] end.
Definition operation_status (id : OperationId) : WM OperationStatus :=
  let! w := get in
  let! status := of_outcome (Operations.status (w_operations w) id) in
  for_each hold_payload
    (match status with
     | SPending p => held_stored <$> option_list (po_context p)
     | STerminal o => outcome_handles o
     end) ;;;
  ret status.
Definition take_operation (id : OperationId) : WM (option TerminalOutcome) :=
  with_activity (
    let! w := get in
    let! (owner, _) := of_outcome (Operations.participants (w_operations w) id) in
    let! result := operations (Operations.take id) in
    match result with
    | Some o => for_each hold_payload (outcome_handles o) ;;; mark_activity_dependents owner
    | None => ret tt
    end ;;;
    ret result).

(** ** Subscriptions *)

(** [next_sub.fetch_add(1)], which wraps. *)
Definition next_subscription : WM N :=
  let! w := get in
  modify (λ w, w <| w_next_sub ::= λ n, ((n + 1) mod 2 ^ 64)%N |>) ;;;
  ret (w_next_sub w).
Definition insert_route (id : N) (route : Sub) : WM unit :=
  modify (λ w, w <| w_subs ::= λ t, Routes.insert t id route |>).
Definition subscribe (source target : ActorRef) : WM N :=
  let! source_actor := check_ref source in
  let! target_actor := check_ref target in
  reject_if (negb (starting_or_active (a_state source_actor)) ||
             negb (starting_or_active (a_state target_actor))) Error.ActorStopped ;;;
  let! w := get in
  reject_if (max_subscriptions (w_cfg w) <=? Routes.active_len (w_subs w))%N Error.LimitExceeded ;;;
  reject_if (Routes.source_target_exists (w_subs w) source target) Error.DuplicateSubscription ;;;
  let! id := next_subscription in
  let route := MkSub source source target None None in
  insert_route id route ;;;
  mark_route_activity route ;;;
  touch_activity ;;;
  ret id.
Definition unsubscribe (id : N) : WM unit :=
  let! w := get in
  let '(route, subs) := Routes.remove (w_subs w) id in
  let! route := ok_or Error.NotFound route in
  modify (λ w, w <| w_subs := subs |>) ;;;
  mark_route_activity route ;;;
  touch_activity.

(** ** Publication requests *)
Definition find_port (w : World) (port : PortRef) : error + PortSpec :=
  match find_ref w (port_owner port) with
  | inl e => inl e
  | inr a =>
      match a_component a ≫= λ c, cd_ports c !! N.to_nat (port_index port) with
      | Some spec => inr spec
      | None => inl Error.InvalidPort
      end
  end.
Definition port_locked (port : PortRef) : WM PortSpec := λ w,
  match find_port w port with inl e => (Err e, w) | inr spec => (Ok spec, w) end.
(** [while current != owner { current = self.check_ref(current)?.parent.ok_or(CrossWorld)?; }] *)
Fixpoint owned_by (fuel : nat) (w : World) (current owner : ActorRef) : outcome error unit :=
  if bool_decide (current = owner) then Ok tt else
  match fuel with
  | O => Panic
  | S fuel =>
      match find_ref w current with
      | inl e => Err e
      | inr a =>
          match a_parent a with
          | None => Err Error.CrossWorld
          | Some parent => owned_by fuel w parent owner
          end
      end
  end.
Definition publish_checked (source : ActorRef) (p : Payload) (completion_owner : option ActorRef)
    (source_port : option N) (options : MessageOptions) : WM N :=
  let! w := get in
  reject_if (match mo_source options with
             | Some owner => bool_decide (owner ≠ source)
             | None => false
             end) Error.InvalidMetadata ;;;
  let options := options <| mo_source := Some source |> in
  validate_source options true ;;;
  let! t := now in
  check_deadline options t ;;;
  reject_if (match p with
             | Structured record => bool_decide (sr_world record ≠ w_id w)
             | _ => false
             end) Error.CrossWorld ;;;
  match source_port with
  | Some index =>
      let! spec := port_locked (MkPortRef source index) in
      reject_if (negb (bool_decide (ps_direction spec = Output)) ||
                 negb (payload_type_matches (ps_schema spec) p)) Error.SchemaMismatch
  | None => ret tt
  end ;;;
  let! execution := execution_state source in
  let completion := bool_decide (is_Some completion_owner) in
  let staged := bool_decide (execution = Lifecycle.Starting) && negb completion &&
                bool_decide (is_Some source_port) in
  reject_if (negb staged && negb (bool_decide (execution = Lifecycle.Active)) &&
             negb (completion && bool_decide (execution = Lifecycle.Quiescing))) Error.ActorNotReady ;;;
  match completion_owner with
  | Some owner =>
      let! owner_state := execution_state owner in
      reject_if (negb (active_or_quiescing owner_state)) Error.ActorStopped ;;;
      let! w := get in
      of_outcome (owned_by (walk_fuel w) w source owner)
  | None => ret tt
  end ;;;
  submit_publication source source_port p options completion.
Definition publish_internal (source : ActorRef) (p : Payload) (completion_owner : option ActorRef)
    (source_port : option N) (options : MessageOptions) : WM N :=
  with_activity (
    count (λ m, m <| m_publication_submitted ::= N.succ |> <| m_submitted ::= N.succ |>) ;;;
    let! result := try_ (publish_checked source p completion_owner source_port options) in
    match result with
    | inr ticket => ret ticket
    | inl e =>
        count (λ m, m <| m_publication_rejected ::= N.succ |>) ;;;
        reject e source ;;;
        fail e
    end).
Definition publish_with (source : ActorRef) (p : Payload) (options : MessageOptions) : WM N :=
  publish_internal source p None None options.
(** [TaskLease::publish_completion] *)
Definition publish_completion (handle : N) (source : ActorRef) (p : Payload) : WM N :=
  let! w := get in
  let! task := expect (w_tasks w !! handle) in
  publish_internal source p (Some (tk_owner task)) None default_options.

(** ** Claiming deliveries *)

(** The head of the queue is taken out, its bytes and deadline with it. *)
Definition pop_delivery (r : ActorRef) : WM (option Delivery) :=
  let! a := check_ref r in
  match a_queue a with
  | [] => ret None
  | d :: queue =>
      let! bytes := expect (checked_sub (a_queue_bytes a) (stored_bytes (d_payload d))) in
      let! deadlines := expect (ActorDeadlines.remove (env_deadline (d_envelope d)) (a_deadlines a)) in
      update_slot (ar_slot r) (λ a, a <| a_queue := queue |> <| a_queue_bytes := bytes |> <| a_deadlines := deadlines |>) ;;;
      modify (λ w, w <| w_event_deadlines ::= DeadlineIdx.set r (ActorDeadlines.first deadlines) |>) ;;;
      refresh_python_ready r ;;;
      mark_activity_dependents r ;;;
      ret (Some d)
  end.
Definition cancelled : WM unit := count (λ m, m <| m_cancelled ::= N.succ |>).
(** Whether a popped delivery is still to be handled; if not, it is counted. *)
Definition still_valid (r : ActorRef) (d : Delivery) : WM bool :=
  let! t := now in
  if deadline_passed (env_deadline (d_envelope d)) t then expire_delivery d t ;;; ret false else
  let! pending :=
    match d_operation d with
    | None => ret true
    | Some operation =>
        let! t := now in
        expire_and_count operation t (Some r) ;;;
        let! w := get in
        match Operations.status (w_operations w) operation with
        | Ok (SPending _) => ret true
        | Panic => panic
        | _ => ret false
        end
    end in
  if negb pending then cancelled ;;; ret false else
  let! w := get in
  if match d_subscription d with
     | Some id => Routes.contains_active (w_subs w) id
     | None => true
     end then ret true
  else cancelled ;;; ret false.
Fixpoint claim_loop (fuel : nat) (r : ActorRef) : WM (option N) :=
  match fuel with
  | O => panic
  | S fuel =>
      let! d := pop_delivery r in
      match d with
      | None => ret None
      | Some d =>
          let! valid := still_valid r d in
          if negb valid then claim_loop fuel r else
          update_ref r (λ a, a <| a_in_flight := true |>) ;;;
          refresh_python_ready r ;;;
          count (λ m, m <| m_started ::= N.succ |>) ;;;
          let! handle := new_handle in
          modify (λ w, w <| w_leases ::= <[handle := MkDeliveryLease r (d_operation d) d]> |>) ;;;
          ret (Some handle)
      end
  end.
Definition claim (r : ActorRef) : WM (option N) :=
  with_activity (
    let! a := check_ref r in
    let! execution := execution_state r in
    if negb (active_or_quiescing execution) || a_in_flight a || a_control_in_flight a then ret None
    else claim_loop (S (length (a_queue a))) r).

(** ** Finishing a delivery *)
Definition end_lease (handle : N) : WM DeliveryLease :=
  let! w := get in
  let! lease := expect (w_leases w !! handle) in
  modify (λ w, w <| w_leases ::= delete handle |>) ;;;
  ret lease.
(** [DeliveryLease::finish] *)
Definition finish_delivery (handle : N) (success : bool) : WM unit :=
  let! lease := end_lease handle in
  let target := dl_target lease in
  update_slot (ar_slot target) (λ a, a <| a_in_flight := false |>) ;;;
  count (λ m, m <| m_completed ::= λ n, (n + b2n success)%N |> <| m_failed ::= λ n, (n + b2n (negb success))%N |>) ;;;
  (if success then ret tt else
     let! w := get in
     let! slot := expect (w_actors w !! N.to_nat (ar_slot target)) in
     if match slot with
        | Some a => bool_decide (a_reported_failure a ≠ Some (d_event_id (dl_delivery lease)))
        | None => true
        end
     then diagnostic Code.HandlerFailed (Some target) (dl_operation lease)
     else ret tt) ;;;
  match dl_operation lease with
  | Some operation =>
      if success then ret tt else
      let! won := unwrap_or false (complete_operation_locked operation
                    (Failed HandlerFailed "operation handler failed")) in
      if won then count (λ m, m <| m_operation_completed ::= N.succ |>) else ret tt
  | None => ret tt
  end ;;;
  try_finalize target ;;;
  touch_activity.
(** [Drop for DeliveryLease] *)
Definition drop_delivery (handle : N) : WM unit :=
  let! lease := end_lease handle in
  let target := dl_target lease in
  update_slot (ar_slot target) (λ a, a <| a_in_flight := false |>) ;;;
  cancelled ;;;
  match dl_operation lease with
  | Some operation =>
      let! won := unwrap_or false (complete_operation_locked operation Cancelled) in
      if won then
        count (λ m, m <| m_operation_cancelled ::= N.succ |>) ;;;
        diagnostic Code.Cancelled (Some target) (Some operation)
      else ret tt
  | None => ret tt
  end ;;;
  try_finalize target ;;;
  touch_activity.
