(* ===== verification/Components.v ===== *)
(** * Components, services, supervision and buffers

    [crates/runtime-core/src/components.rs]: descriptors, ports, links and
    typed sends; [services.rs]: the service registry and its leases;
    [supervision.rs]: failure reports and their notifications; [callbacks.rs]:
    native callback claims; [buffers.rs]: native buffer permits. *)
From S2P Require Import Prelude Collections Text Types Metadata Schema Routing Expiry Readiness Operations.
From S2P Require Import Diagnostics Publications SchemaRegistry Activity WorldState Admission Publishing.
From S2P Require Import Actors Messaging.

(** ** Descriptors *)
Definition max_ports : N := 64.
Definition max_interfaces : N := 16.
Definition max_world_interfaces : N := 1024.
Definition valid_name (name : string) : bool :=
  negb (str_len name =? 0)%N && (str_len name <=? 128)%N.

Module Ports.
(** The loop of [validate_ports], with the names and input schemas seen. *)
Fixpoint validate_from (w : World) (ports : list PortSpec) (names : list string)
    (inputs : list PayloadType) : outcome error unit :=
  match ports with
  | [] => Ok tt
  | port :: ports =>
      if negb (valid_name (ps_name port)) || bool_decide (ps_name port ∈ names) then Err Error.InvalidPort else
      let input := bool_decide (ps_direction port = Input) in
      if input && bool_decide (ps_schema port ∈ inputs) then Err Error.InvalidPort else
      let inputs := if input then ps_schema port :: inputs else inputs in
      match ps_schema port with
      | TStructured id =>
          match Registry.schema (w_schemas w) id with
          | Ok _ => validate_from w ports (ps_name port :: names) inputs
          | Err _ => Err Error.SchemaMismatch
          | Panic => Panic
          end
      | _ => validate_from w ports (ps_name port :: names) inputs
      end
  end.
Definition validate_ports (w : World) (ports : list PortSpec) : outcome error unit :=
  if (max_ports <? N.of_nat (length ports))%N then Err Error.LimitExceeded
  else validate_from w ports [] [].

(** [ports.sort_by(|a, b| a.name.cmp(&b.name))], which is stable. *)
Definition port_le (a b : PortSpec) : Prop := lex_leb (str_key (ps_name a)) (str_key (ps_name b)) = true.
#[export] Instance port_le_dec : RelDecision port_le.
Proof. intros a b. unfold port_le. apply _. Defined.
Fixpoint insert_port (p : PortSpec) (l : list PortSpec) : list PortSpec :=
  match l with
  | [] => [p]
  | q :: l => if decide (port_le p q) then p :: q :: l else q :: insert_port p l
  end.
Definition sort_ports (l : list PortSpec) : list PortSpec := foldr insert_port [] l.
Definition normalize (i : InterfaceSpec) : InterfaceSpec :=
  MkInterfaceSpec (if_name i) (if_version i) (sort_ports (if_ports i)).

(** The loop over the interfaces of a descriptor: the identities seen, and the
    new interfaces. *)
Fixpoint check_interfaces (w : World) (ports : list PortSpec) (interfaces : list InterfaceSpec)
    (identities : list (string * N)) (incoming : gmap (string * N) InterfaceSpec) :
    outcome error (gmap (string * N) InterfaceSpec) :=
  match interfaces with
  | [] => Ok incoming
  | interface :: interfaces =>
      if negb (valid_name (if_name interface)) || (if_version interface =? 0)%N
      then Err Error.InterfaceMismatch else
      match validate_ports w (if_ports interface) with
      | Err e => Err e
      | Panic => Panic
      | Ok _ =>
          if existsb (λ port, bool_decide (port ∉ ports)) (if_ports interface)
          then Err Error.InterfaceMismatch else
          let key := (if_name interface, if_version interface) in
          if bool_decide (key ∈ identities) then Err Error.InterfaceMismatch else
          let normalized := normalize interface in
          match w_interfaces w !! key with
          | Some prior =>
              if bool_decide (prior ≠ normalized) then Err Error.InterfaceMismatch
              else check_interfaces w ports interfaces (key :: identities) incoming
          | None =>
              if bool_decide (is_Some (incoming !! key)) then Err Error.InterfaceMismatch
              else check_interfaces w ports interfaces (key :: identities) (<[key := normalized]> incoming)
          end
      end
  end.

Definition register_component (owner : ActorRef) (descriptor : ComponentDescriptor) : WM (list PortRef) :=
  let! w := get in
  let! actor := check_ref owner in
  reject_if (w_closed w || negb (bool_decide (a_state actor = Lifecycle.Starting)) ||
             bool_decide (is_Some (a_component actor))) Error.ActorNotReady ;;;
  let! execution := execution_state owner in
  reject_if (negb (starting_or_active execution)) Error.ActorStopped ;;;
  reject_if (negb (valid_name (cd_name descriptor)) || (cd_version descriptor =? 0)%N ||
             (max_interfaces <? N.of_nat (length (cd_interfaces descriptor)))%N) Error.InvalidConfig ;;;
  of_outcome (validate_ports w (cd_ports descriptor)) ;;;
  let! incoming := of_outcome (check_interfaces w (cd_ports descriptor) (cd_interfaces descriptor) [] ∅) in
  reject_if (max_world_interfaces <? N.of_nat (size (w_interfaces w)) + N.of_nat (size incoming))%N
    Error.LimitExceeded ;;;
  let ports := imap (λ index _, MkPortRef owner (N.of_nat index mod 2 ^ 16)%N) (cd_ports descriptor) in
  modify (λ w, w <| w_interfaces ::= λ m, incoming ∪ m |>) ;;;
  update_ref owner (λ a, a <| a_component := Some descriptor |>) ;;;
  ret ports.

(** A declared interface satisfies a requirement. *)
Definition interface_matches (required contract : InterfaceSpec) : bool :=
  bool_decide (if_name contract = if_name required) && (if_version contract =? if_version required)%N &&
  bool_decide (length (if_ports contract) = length (if_ports required)) &&
  forallb (λ port, bool_decide (port ∈ if_ports contract)) (if_ports required).
Definition require_interface (owner : ActorRef) (required : InterfaceSpec) : WM unit :=
  let! w := get in
  of_outcome (validate_ports w (if_ports required)) ;;;
  let! actor := check_ref owner in
  let! descriptor := ok_or Error.InterfaceMismatch (a_component actor) in
  reject_if (negb (existsb (interface_matches required) (cd_interfaces descriptor))) Error.InterfaceMismatch.
Definition port (owner : ActorRef) (name : string) : WM PortRef :=
  let! actor := check_ref owner in
  let! descriptor := ok_or Error.InvalidPort (a_component actor) in
  let! index := ok_or Error.InvalidPort
                  (port_position (λ p, bool_decide (ps_name p = name)) (cd_ports descriptor)) in
  ret (MkPortRef owner index).

Definition check_live (r : ActorRef) : WM unit :=
  let! execution := execution_state r in
  reject_if (negb (starting_or_active execution)) Error.ActorStopped.
Definition link (owner : ActorRef) (source target : PortRef) : WM N :=
  with_activity (
    for_each check_live [owner; port_owner source; port_owner target] ;;;
    let! src := port_locked source in
    let! dst := port_locked target in
    reject_if (negb (bool_decide (ps_direction src = Output)) ||
               negb (bool_decide (ps_direction dst = Input))) Error.InvalidPort ;;;
    reject_if (negb (bool_decide (ps_schema src = ps_schema dst))) Error.SchemaMismatch ;;;
    let! w := get in
    reject_if (max_subscriptions (w_cfg w) <=? Routes.active_len (w_subs w))%N Error.LimitExceeded ;;;
    reject_if (Routes.typed_duplicate (w_subs w) source target) Error.DuplicateSubscription ;;;
    let! id := next_subscription in
    let route := MkSub owner (port_owner source) (port_owner target)
                   (Some (port_index source)) (Some (port_index target)) in
    insert_route id route ;;;
    mark_route_activity route ;;;
    ret id).
Definition send_port_with (port : PortRef) (payload : Payload) (options : MessageOptions) : WM N :=
  with_activity (
    submitted ;;;
    or_reject (port_owner port) (
      let! spec := port_locked port in
      reject_if (negb (bool_decide (ps_direction spec = Input))) Error.InvalidPort ;;;
      reject_if (negb (payload_type_matches (ps_schema spec) payload)) Error.SchemaMismatch ;;;
      let! stored := make_stored_with payload options None in
      let! id := admit_event (port_owner port) stored None false None in
      set_last_port (port_owner port) port ;;;
      ret id)).
Definition publish_port_with (source : PortRef) (payload : Payload) (options : MessageOptions) : WM N :=
  publish_internal (port_owner source) payload None (Some (port_index source)) options.
(** [TaskLease::publish_port_completion_with] *)
Definition task_publish_port (handle : N) (source : PortRef) (payload : Payload) (options : MessageOptions) : WM N :=
  let! w := get in
  let! task := expect (w_tasks w !! handle) in
  publish_internal (port_owner source) payload (Some (tk_owner task)) (Some (port_index source)) options.
(** [DeliveryLease::publish_port_completion_with] *)
Definition delivery_publish_port (handle : N) (source : PortRef) (payload : Payload) (options : MessageOptions) : WM N :=
  reject_if (negb (Options.validate options)) Error.InvalidMetadata ;;;
  reject_if (match mo_source options with
             | Some owner => bool_decide (owner ≠ port_owner source)
             | None => false
             end) Error.InvalidMetadata ;;;
  let! w := get in
  let! lease := expect (w_leases w !! handle) in
  let metadata := merge_options (child_options (d_envelope (dl_delivery lease)) (port_owner source)) options in
  publish_internal (port_owner source) payload (Some (dl_target lease)) (Some (port_index source)) metadata.

Definition producer_done (w : World) (id : N) : option bool :=
  match Routes.get (w_subs w) id with
  | None => None
  | Some sub =>
      Some match find_ref w (sub_source sub) with
           | inl _ => false
           | inr source =>
               draining_or_done (a_state source) && (a_native_tasks source =? 0)%N &&
               (Publications.pending_for (w_publications w) (a_reference source) =? 0)%N &&
               bool_decide (a_queue source = []) && negb (a_in_flight source)
           end
  end.
Definition upstream_done (target : ActorRef) : WM bool :=
  let! w := get in
  let! a := check_ref target in
  if bool_decide (a_queue a = []) && negb (a_in_flight a) &&
     (Publications.pending_for (w_publications w) (a_reference a) =? 0)%N
  then
    let! done := expect (mapM (producer_done w) (Routes.target_ids (w_subs w) (a_reference a))) in
    ret (forallb (λ b, b) done)
  else ret false.
End Ports.

(** ** Services *)
Module Services.
Fixpoint unique_names (ports : list PortSpec) (names : list string) : bool :=
  match ports with
  | [] => true
  | port :: ports => bool_decide (ps_name port ∉ names) && unique_names ports (ps_name port :: names)
  end.
Definition contract_matches (descriptor : ComponentDescriptor) (required : InterfaceSpec) : bool :=
  if negb (valid_name (if_name required)) || (if_version required =? 0)%N ||
     (64 <? N.of_nat (length (if_ports required)))%N
  then false
  else if negb (unique_names (if_ports required) []) then false
  else existsb (Ports.interface_matches required) (cd_interfaces descriptor).
Definition contracts_equal (left right : InterfaceSpec) : bool :=
  bool_decide (if_name left = if_name right) && (if_version left =? if_version right)%N &&
  bool_decide (length (if_ports left) = length (if_ports right)) &&
  unique_names (if_ports left) [] && unique_names (if_ports right) [] &&
  forallb (λ port, bool_decide (port ∈ if_ports left)) (if_ports right).

Definition lease_in_world (w : World) (lease : ServiceLease) : bool :=
  (ar_world (lease_scope lease) =? w_id w)%N && (ar_world (lease_owner lease) =? w_id w)%N &&
  (ar_world (lease_service lease) =? w_id w)%N.
Definition validate_lease (lease : ServiceLease) : WM ServiceRecord :=
  let! w := get in
  reject_if (negb (lease_in_world w lease)) Error.CrossWorld ;;;
  reject_if (negb (bool_decide (sv_leases (w_services w) !! lease_scope lease = Some lease))) Error.StaleReference ;;;
  let! scope_state := execution_state (lease_scope lease) in
  (if starting_or_active scope_state then
     let! service_state := execution_state (lease_service lease) in
     reject_if (negb (bool_decide (service_state = Lifecycle.Active))) Error.ActorStopped
   else fail Error.ActorStopped) ;;;
  let! name := ok_or Error.StaleReference (sv_by_target (w_services w) !! lease_service lease) in
  let! record := ok_or Error.StaleReference (sv_records (w_services w) !! name) in
  reject_if (negb (bool_decide (lease_scope lease ∈ sv_scopes record))) Error.StaleReference ;;;
  ret record.

(** The first port of that name and direction. *)
Definition named (name : string) (direction : PortDirection) (spec : PortSpec) : bool :=
  bool_decide (ps_name spec = name) && bool_decide (ps_direction spec = direction).
(** What [service_request] and [service_link] check under their first lock.  The lock is
    released before the request or the link takes it again: other calls come between. *)
Definition service_port (lease : ServiceLease) (name : string) (payload : Payload) : WM PortRef :=
  let! record := validate_lease lease in
  let! scope_state := execution_state (lease_scope lease) in
  reject_if (negb (bool_decide (scope_state = Lifecycle.Active))) Error.ActorNotReady ;;;
  let! declared := ok_or Error.InvalidPort
    (snd <$> list_find (λ spec, named name Input spec = true) (if_ports (sv_contract record))) in
  reject_if (negb (payload_type_matches (ps_schema declared) payload)) Error.SchemaMismatch ;;;
  let! service_actor := check_ref (sv_service record) in
  let! descriptor := ok_or Error.InterfaceMismatch (a_component service_actor) in
  let! index := ok_or Error.InvalidPort (port_position (named name Input) (cd_ports descriptor)) in
  let! spec := ok_or Error.InvalidPort (cd_ports descriptor !! N.to_nat index) in
  reject_if (negb (payload_type_matches (ps_schema spec) payload)) Error.SchemaMismatch ;;;
  ret (MkPortRef (sv_service record) index).
Definition service_source (lease : ServiceLease) (output : string) : WM PortRef :=
  let! record := validate_lease lease in
  reject_if (negb (existsb (named output Output) (if_ports (sv_contract record)))) Error.InvalidPort ;;;
  let! service_actor := check_ref (sv_service record) in
  let! descriptor := ok_or Error.InterfaceMismatch (a_component service_actor) in
  let! index := ok_or Error.InvalidPort (port_position (named output Output) (cd_ports descriptor)) in
  ret (MkPortRef (sv_service record) index).

Definition on_services (f : ServiceRegistry → ServiceRegistry) : WM unit :=
  modify (λ w, w <| w_services ::= f |>).
Definition register_service (name : string) (target : ActorRef) (required : InterfaceSpec) : WM unit :=
  let! w := get in
  reject_if (negb (valid_name name)) Error.InvalidConfig ;;;
  reject_if (bool_decide (is_Some (sv_records (w_services w) !! name)) ||
             bool_decide (is_Some (sv_by_target (w_services w) !! target))) Error.InvalidConfig ;;;
  reject_if (max_services (w_cfg w) <=? N.of_nat (size (sv_records (w_services w))))%N Error.LimitExceeded ;;;
  let! actor := check_ref target in
  reject_if (negb (bool_decide (a_kind actor = EndpointKind.Native)) ||
             bool_decide (is_Some (a_parent actor)) ||
             negb (bool_decide (a_state actor = Lifecycle.Active)) ||
             match a_component actor with
             | Some descriptor => negb (contract_matches descriptor required)
             | None => true
             end) Error.InterfaceMismatch ;;;
  on_services (λ s, s <| sv_by_target ::= <[target := name]> |>
                      <| sv_records ::= <[name := MkServiceRecord name target required ∅]> |>) ;;;
  mark_activity_dependents target ;;;
  touch_activity.

Definition acquire_service_target (owner : ActorRef) (name : string) (required : InterfaceSpec)
    (expected : option ActorRef) : WM ServiceLease :=
  let! w := get in
  reject_if (w_closed w) Error.ActorStopped ;;;
  reject_if (negb (valid_name name)) Error.InvalidConfig ;;;
  let! owner_state := execution_state owner in
  reject_if (negb (starting_or_active owner_state)) Error.ActorStopped ;;;
  let! record := ok_or (if bool_decide (is_Some expected) then Error.StaleReference else Error.NotFound)
                   (sv_records (w_services w) !! name) in
  reject_if (match expected with
             | Some e => bool_decide (e ≠ sv_service record)
             | None => false
             end) Error.StaleReference ;;;
  reject_if (negb (contracts_equal (sv_contract record) required)) Error.InterfaceMismatch ;;;
  let service := sv_service record in
  let! service_actor := check_ref service in
  reject_if (negb (bool_decide (a_state service_actor = Lifecycle.Active))) Error.ActorStopped ;;;
  reject_if ((max_service_leases (w_cfg w) <=? N.of_nat (size (sv_leases (w_services w))))%N ||
             (max_leases_per_actor (w_cfg w) <=? N.of_nat (size (idx_get owner (sv_by_holder (w_services w)))))%N)
    Error.LimitExceeded ;;;
  let! scope := allocate_locked EndpointKind.Native (Some owner) in
  update_ref scope (λ a, a <| a_state := Lifecycle.Active |>) ;;;
  refresh_python_ready scope ;;;
  let lease := MkServiceLease scope owner service in
  let! w := get in
  let! record := expect (sv_records (w_services w) !! name) in
  on_services (λ s, s <| sv_records ::= <[name := record <| sv_scopes ::= union {[scope]} |>]> |>
                      <| sv_leases ::= <[scope := lease]> |>
                      <| sv_by_holder ::= idx_add owner scope |>) ;;;
  mark_activity_dependents scope ;;;
  mark_activity_dependents service ;;;
  touch_activity ;;;
  ret lease.
Definition acquire_service (owner : ActorRef) (name : string) (required : InterfaceSpec) : WM ServiceLease :=
  acquire_service_target owner name required None.
Definition acquire_service_from (owner : ActorRef) (name : string) (required : InterfaceSpec)
    (expected : ActorRef) : WM ServiceLease :=
  let! w := get in
  reject_if (bool_decide (ar_world expected ≠ w_id w)) Error.CrossWorld ;;;
  acquire_service_target owner name required (Some expected).
Definition release_service (lease : ServiceLease) : WM bool :=
  let! w := get in
  reject_if (negb (lease_in_world w lease)) Error.CrossWorld ;;;
  match sv_leases (w_services w) !! lease_scope lease with
  | None => ret false
  | Some current =>
      reject_if (bool_decide (current ≠ lease)) Error.StaleReference ;;;
      stop_locked (lease_scope lease) ;;;
      touch_activity ;;;
      ret true
  end.
End Services.

(** ** Supervision *)
Module Supervision.
Definition apply_failure_action (r : ActorRef) (action : failure_action) : WM unit :=
  match action with
  | FailureAction.Continue => ret tt
  | FailureAction.StopWorld => close_locked ;;; ret tt
  | FailureAction.StopActor =>
      let! result := try_ (stop_locked r) in
      match result with
      | inr _ | inl Error.StaleReference => ret tt
      | inl e => fail e
      end
  end.

(** The walk from the target of a pending operation up to the reporting actor. *)
Fixpoint owns_target (fuel : nat) (w : World) (current reference : ActorRef) : outcome error bool :=
  if bool_decide (current = reference) then Ok true else
  match fuel with
  | O => Panic
  | S fuel =>
      match find_ref w current with
      | inl e => Err e
      | inr a =>
          match a_parent a with
          | None => Ok false
          | Some parent => owns_target fuel w parent reference
          end
      end
  end.
Definition check_operation_owner (r : ActorRef) (operation : option OperationId) : WM unit :=
  let! w := get in
  match operation with
  | None => ret tt
  | Some id =>
      reject_if (bool_decide (op_world id ≠ w_id w)) Error.CrossWorld ;;;
      match Operations.status (w_operations w) id with
      | Ok (SPending pending) =>
          let! owned := of_outcome (owns_target (walk_fuel w) w (po_target pending) r) in
          reject_if (negb owned) Error.InvalidConfig
      | Panic => panic
      | _ => ret tt
      end
  end.
Definition supervised (w : World) (parent : option ActorRef) : bool :=
  match parent with
  | Some p => match find_ref w p with
              | inr a => negb (match a_state a with Lifecycle.Stopping | Lifecycle.Stopped => true | _ => false end)
              | inl _ => false
              end
  | None => false
  end.
Definition fail_operation (operation : option OperationId) : WM unit :=
  match operation with
  | None => ret tt
  | Some id =>
      let! t := now in
      expire_and_count id t None ;;;
      let! won := unwrap_or false (complete_operation_locked id
                    (Failed HandlerFailed "operation handler failed")) in
      if won then count (λ m, m <| m_operation_completed ::= N.succ |>) else ret tt
  end.
(** The record enters the actor; a pending notification absorbs it. *)
Definition note_failure (r : ActorRef) (event_id : option N) (record : FailureRecord) (notify : bool) : WM bool :=
  let! a := check_ref r in
  update_slot (ar_slot r) (λ a,
    a <| a_reported_failure := event_id |> <| a_errors ::= λ n, saturating_add u64_max n 1 |>
      <| a_last_error := Some record |>) ;;;
  if negb notify then ret false else
  match a_notification a with
  | Some pending =>
      update_slot (ar_slot r) (λ a, a <| a_notification :=
        Some (pending <| nt_coalesced ::= λ n, saturating_add u64_max n 1 |>) |>) ;;;
      count (λ m, m <| m_notifications_coalesced ::= N.succ |>) ;;;
      ret false
  | None =>
      update_slot (ar_slot r) (λ a, a <| a_notification := Some (MkNotification record 0) |>) ;;;
      ret true
  end.
Definition report_failure_locked (r : ActorRef) (event_id schema : option N) (operation : option OperationId)
    (details : FailureDetails) (action : failure_action) : WM FailureRecord :=
  let! actor := check_ref r in
  reject_if (bool_decide (a_state actor = Lifecycle.Stopped)) Error.ActorStopped ;;;
  let parent := a_parent actor in
  check_operation_owner r operation ;;;
  let! w := get in
  let sequence := w_next_failure w in
  let! next := ok_or Error.LimitExceeded (checked_add u64_max sequence 1) in
  modify (λ w, w <| w_next_failure := next |>) ;;;
  let notify := negb (bool_decide (fd_phase details = Supervisor)) && supervised w parent in
  let! t := now in
  let record := MkFailure sequence (elapsed_ns (w_failure_epoch w) t) r event_id schema operation details action in
  count (λ m, m <| m_failures ::= N.succ |>) ;;;
  with_history (Hist.record_failure record) ;;;
  modify (λ w, w <| w_last_error := Some record |>) ;;;
  fail_operation operation ;;;
  let! new_notification := note_failure r event_id record notify in
  (if new_notification then
     let! p := expect parent in
     update_ref p (λ a, a <| a_pending_failures ::= N.succ |>)
   else ret tt) ;;;
  mark_activity_dependents r ;;;
  apply_failure_action r action ;;;
  match parent with
  | Some p => refresh_python_ready p
  | None => ret tt
  end ;;;
  ret record.
Definition report_failure (r : ActorRef) (event_id schema : option N) (operation : option OperationId)
    (details : FailureDetails) (action : failure_action) : WM FailureRecord :=
  with_activity (report_failure_locked r event_id schema operation details action).

(** [min_by_key], which keeps the first of equal keys. *)
Fixpoint min_sequence (l : list (ActorRef * N)) : option (ActorRef * N) :=
  match l with
  | [] => None
  | x :: l => Some match min_sequence l with
                   | Some y => if (x.2 <=? y.2)%N then x else y
                   | None => x
                   end
  end.
Definition notified_children (w : World) (children : list ActorRef) : list (ActorRef * N) :=
  omap (λ child, match find_ref w child with
                 | inr a => (λ n, (child, fr_sequence (nt_failure n))) <$> a_notification a
                 | inl _ => None
                 end) children.
Definition claim_failure (supervisor : ActorRef) : WM (option N) :=
  with_activity (
    let! actor := check_ref supervisor in
    let! idle := (if a_in_flight actor || a_control_in_flight actor then ret false else
      let! execution := execution_state supervisor in ret (active_or_quiescing execution)) in
    if negb idle then ret None else
    let! w := get in
    match min_sequence (notified_children w (a_children actor)) with
    | None => ret None
    | Some (source, _) =>
        let! a := check_ref source in
        let! notification := expect (a_notification a) in
        update_slot (ar_slot source) (λ a, a <| a_notification := None |>) ;;;
        let! a := check_ref supervisor in
        let! n := expect (checked_sub (a_pending_failures a) 1) in
        update_slot (ar_slot supervisor) (λ a, a <| a_pending_failures := n |> <| a_control_in_flight := true |>) ;;;
        mark_activity_dependents supervisor ;;;
        refresh_python_ready supervisor ;;;
        count (λ m, m <| m_notifications_delivered ::= N.succ |>) ;;;
        try_finalize source ;;;
        let! handle := new_handle in
        modify (λ w, w <| w_failure_leases ::= <[handle := MkFailureLease supervisor notification]> |>) ;;;
        ret (Some handle)
    end).
Definition end_failure_lease (handle : N) : WM FailureLease :=
  let! w := get in
  let! lease := expect (w_failure_leases w !! handle) in
  modify (λ w, w <| w_failure_leases ::= delete handle |>) ;;;
  ret lease.
(** [FailureLease::finish]: the action runs first, the lease ends in any case. *)
Definition finish_failure (handle : N) (action : option failure_action) : WM unit :=
  with_activity (
    let! lease := end_failure_lease handle in
    let! result := try_ (match action with
                         | Some action => apply_failure_action (fr_actor (nt_failure (fl_notification lease))) action
                         | None => ret tt
                         end) in
    update_ref (fl_supervisor lease) (λ a, a <| a_control_in_flight := false |>) ;;;
    try_finalize (fl_supervisor lease) ;;;
    match result with inr _ => ret tt | inl e => fail e end).
(** [Drop for FailureLease] *)
Definition drop_failure (handle : N) : WM unit :=
  with_activity (
    let! lease := end_failure_lease handle in
    try_ (update_ref (fl_supervisor lease) (λ a, a <| a_control_in_flight := false |>)) ;;;
    count (λ m, m <| m_notifications_discarded ::= N.succ |>) ;;;
    try_finalize (fl_supervisor lease)).
End Supervision.

(** ** Native callbacks *)
Module Callbacks.
Definition claim_native_hook (owner : ActorRef) (expected : lifecycle) : WM (option N) :=
  with_activity (
    let! execution := execution_state owner in
    let! actor := check_ref owner in
    let eligible := bool_decide (execution = expected) &&
      (negb (bool_decide (expected = Lifecycle.Starting)) || bool_decide (a_state actor = Lifecycle.Starting)) in
    if negb (bool_decide (a_kind actor = EndpointKind.Native)) || negb eligible || a_in_flight actor ||
       a_control_in_flight actor || bool_decide (is_Some (a_notification actor))
    then ret None
    else
      update_slot (ar_slot owner) (λ a, a <| a_control_in_flight := true |>) ;;;
      mark_activity_dependents owner ;;;
      refresh_python_ready owner ;;;
      let! handle := new_handle in
      modify (λ w, w <| w_callbacks ::= <[handle := owner]> |>) ;;;
      ret (Some handle)).
Definition claim_native_callback (owner : ActorRef) (startup : bool) : WM (option N) :=
  claim_native_hook owner (if startup then Lifecycle.Starting else Lifecycle.Active).
Definition claim_native_drain_callback (owner : ActorRef) : WM (option N) :=
  claim_native_hook owner Lifecycle.Quiescing.
(** [Drop for NativeCallbackLease] *)
Definition drop_callback (handle : N) : WM unit :=
  with_activity (
    let! w := get in
    let! owner := expect (w_callbacks w !! handle) in
    modify (λ w, w <| w_callbacks ::= delete handle |>) ;;;
    try_ (update_ref owner (λ a, a <| a_control_in_flight := false |>)) ;;;
    try_finalize owner).
End Callbacks.

(** ** Native buffers *)
Module Buffers.
(** [NativeBufferBudget::reserve_bytes], on the counter payloads share. *)
Definition reserve_bytes (bytes : N) : WM unit :=
  let! w := get in
  let! next := ok_or Error.BudgetExceeded (checked_add usize_max (retained_bytes w) bytes) in
  reject_if (native_payload_budget (w_cfg w) <? next)%N Error.BudgetExceeded.
Definition reserve (bytes : N) : WM N :=
  reserve_bytes bytes ;;;
  let! handle := new_handle in
  modify (λ w, w <| w_permits ::= <[handle := bytes]> |>) ;;;
  ret handle.
Definition try_grow (handle additional : N) : WM unit :=
  let! w := get in
  let! bytes := expect (w_permits w !! handle) in
  if (additional =? 0)%N then ret tt else
  let! total := ok_or Error.BudgetExceeded (checked_add usize_max bytes additional) in
  reserve_bytes additional ;;;
  modify (λ w, w <| w_permits ::= <[handle := total]> |>).
(** [Drop for NativeBufferPermit] *)
Definition drop_permit (handle : N) : WM unit :=
  modify (λ w, w <| w_permits ::= delete handle |>).
End Buffers.
