(* ===== verification/Views.v ===== *)
(** * Reading and polling the World

    The methods that only read the state ([state], [snapshot], [links],
    [services], the Python readiness queries) and the two polls that leave an
    observer behind: [poll_activity] and [activity] ([activity.rs]),
    [poll_routing_ready] ([publications.rs]). *)
From S2P Require Import Prelude Collections Text Types Metadata Schema Routing Expiry Readiness Operations.
From S2P Require Import Diagnostics Publications SchemaRegistry Activity WorldState Admission Publishing Actors.
From S2P Require Import Messaging Components.

(** ** Snapshots *)
Record ActorSnapshot := MkActorSnapshot {
  as_reference : ActorRef; as_kind : endpoint_kind; as_state : lifecycle; as_queue_entries : N; as_queue_bytes : N;
  as_staged_entries : N; as_staged_bytes : N; as_component : option ComponentDescriptor; as_in_flight : bool;
  as_control_in_flight : bool; as_failure_pending : bool; as_native_tasks : N; as_python_done : bool;
  as_parent : option ActorRef; as_drain_deadline : option Instant
}.
Record WorldSnapshot := MkWorldSnapshot {
  ws_actors : list ActorSnapshot; ws_retained_payload_bytes : N; ws_subscriptions : N; ws_metrics : Metrics;
  ws_operation_pending : N; ws_operation_retained : N; ws_publications_pending : N; ws_publications_retained : N;
  ws_routing_snapshot_entries : N
}.
Definition actor_snapshot (a : Actor) : ActorSnapshot := {|
  as_reference := a_reference a;
  as_kind := a_kind a;
  as_state := a_state a;
  as_queue_entries := N.of_nat (length (a_queue a));
  as_queue_bytes := a_queue_bytes a;
  as_staged_entries := N.of_nat (length (a_staged a));
  as_staged_bytes := a_staged_bytes a;
  as_component := a_component a;
  as_in_flight := a_in_flight a;
  as_control_in_flight := a_control_in_flight a;
  as_failure_pending := bool_decide (is_Some (a_notification a));
  as_native_tasks := a_native_tasks a;
  as_python_done := a_python_done a;
  as_parent := a_parent a;
  as_drain_deadline := a_drain_deadline a
|}.
Definition snapshot (w : World) : WorldSnapshot := {|
  ws_actors := actor_snapshot <$> omap id (w_actors w);
  ws_retained_payload_bytes := retained_bytes w;
  ws_subscriptions := Routes.active_len (w_subs w);
  ws_metrics := w_metrics w;
  ws_operation_pending := Operations.pending_count (w_operations w);
  ws_operation_retained := Operations.retained_terminal_count (w_operations w);
  ws_publications_pending := Publications.pending (w_publications w);
  ws_publications_retained := Publications.retained (w_publications w);
  ws_routing_snapshot_entries := pt_snapshot_entries (w_publications w)
|}.
Definition state (r : ActorRef) : WM lifecycle := let! a := check_ref r in ret (a_state a).
Definition component (owner : ActorRef) : WM (option ComponentDescriptor) :=
  let! a := check_ref owner in ret (a_component a).

(** ** Links and services *)
Record LinkSnapshot := MkLink { ls_id : N; ls_owner : ActorRef; ls_source : PortRef; ls_target : PortRef }.
(** One element of [filter_map]: nothing, a link, or the failed [expect]. *)
Definition link_of (w : World) (id : N) : option (option LinkSnapshot) :=
  match Routes.get (w_subs w) id with
  | None => Some None
  | Some sub =>
      match sub_source_port sub, sub_target_port sub with
      | None, _ => Some None
      | Some index, Some target =>
          Some (Some (MkLink id (sub_owner sub) (MkPortRef (sub_source sub) index) (MkPortRef (sub_target sub) target)))
      | Some _, None => None
      end
  end.
Definition links : WM (list LinkSnapshot) :=
  let! w := get in
  let! all := expect (mapM (link_of w) (btree_keys (rt_entries (w_subs w)))) in
  ret (omap id all).
Record ServiceSnapshot := MkServiceSnapshot {
  ss_name : string; ss_service : ActorRef; ss_contract : InterfaceSpec; ss_leases : N
}.
Definition name_le (a b : ServiceSnapshot) : Prop := lex_leb (str_key (ss_name a)) (str_key (ss_name b)) = true.
#[export] Instance name_le_dec : RelDecision name_le.
Proof. intros a b. unfold name_le. apply _. Defined.
Definition services (w : World) : list ServiceSnapshot :=
  merge_sort name_le
    ((λ r, MkServiceSnapshot (sv_name r) (sv_service r) (sv_contract r) (N.of_nat (size (sv_scopes r))))
     <$> (map_to_list (sv_records (w_services w))).*2).
Definition scope_le (a b : ServiceLease) : Prop :=
  lex_leb [ar_slot (lease_scope a); ar_generation (lease_scope a)]
          [ar_slot (lease_scope b); ar_generation (lease_scope b)] = true.
#[export] Instance scope_le_dec : RelDecision scope_le.
Proof. intros a b. unfold scope_le. apply _. Defined.
Definition service_leases (w : World) : list ServiceLease :=
  merge_sort scope_le (map_to_list (sv_leases (w_services w))).*2.

(** ** Time *)
Definition instant_ns (w : World) (t : Instant) : N := elapsed_ns (w_epoch w) t.
Definition world_elapsed_ns : WM N := let! t := now in let! w := get in ret (instant_ns w t).

(** ** Python readiness *)
Definition python_ready_cutoff : WM N := let! w := get in expect (checked_sub (w_next_ready_order w) 1).
Definition python_ready_next (phase : PythonReadyPhase) (after : option N) (through : N) : WM (option (N * ActorRef)) :=
  let! w := get in ret (Ready.next (w_python_ready w) phase after through).

(** ** Polls *)

(** [wake_retired], after the locks are released. *)
Definition wake_retired (r : option Retired) : WM unit := modify (λ w, w <| w_woken ::= λ l, l ++ woken_by r |>).
Definition activity_version (actor : ActorRef) : WM N :=
  let! w := get in
  let '(result, retired, g) := Activity.version actor (w_activity w) in
  modify (λ w, w <| w_activity := g |>) ;;;
  wake_retired retired ;;;
  match result with inr v => ret v | inl e => fail e end.
Definition activity (actor : ActorRef) : WM N :=
  check_ref actor ;;;
  activity_version actor.
Definition poll_activity (actor : ActorRef) (observed waker : N) : WM poll_result :=
  let! w := get in
  match find_ref w actor with
  | inl e => ret (Ready (inl e))
  | inr a =>
      match a_state a with
      | Lifecycle.Stopping | Lifecycle.Stopped =>
          let! result := try_ (activity_version actor) in
          ret (Ready result)
      | _ =>
          let '(result, retired, g) := Activity.poll actor observed waker (w_activity w) in
          modify (λ w, w <| w_activity := g |>) ;;;
          wake_retired retired ;;;
          ret result
      end
  end.

Inductive routing_poll :=
| RoutingReady
| RoutingClosed
| RoutingPending.
Definition poll_routing_ready (waker : N) : WM routing_poll :=
  let! w := get in
  let signal := w_routing_signal w in
  if rs_closed signal then
    modify (λ w, w <| w_routing_signal ::= λ s, s <| rs_waker := None |> |>) ;;;
    ret RoutingClosed
  else if negb (bool_decide (pt_ready (w_publications w) = [])) then ret RoutingReady
  else
    modify (λ w, w <| w_routing_signal ::= λ s, s <| rs_waker := Some waker |> |>) ;;;
    ret RoutingPending.
Definition routing_pending (w : World) : N := Publications.pending (w_publications w).
Definition routing_ready (w : World) : bool := negb (bool_decide (pt_ready (w_publications w) = [])).
