(* ===== verification/Steps.v ===== *)
(** * Steps of the World, abstractly

    What the operations of the World do to the parts that carry its resource
    invariants: the actor slots, the payloads that are reachable, and the
    counters.  [frame] is a step that changes none of the slots, [evolves] what
    may happen to an actor in its slot, and [Accounting] is the interface of an
    invariant that survives every kind of step; the operations are verified once
    against it ([WorldSteps]), and each invariant is an instance ([WorldSlots], [Mailboxes], [Budget], [Lifecycles]).

    An invariant is indexed by the payloads the running method holds in local
    variables and by the event id it has drawn but not used. *)
From S2P Require Import Prelude Collections Text Types Metadata Schema Routing Expiry Operations Diagnostics.
From S2P Require Import Publications SchemaRegistry Activity WorldState Admission Publishing Actors.

(** ** Views *)
Definition queue_view (a : Actor) : list (N * Stored) := (λ d, (d_event_id d, d_payload d)) <$> a_queue a.
Definition staged_view (a : Actor) : list Stored := (λ e : N * Stored * N, e.1.2) <$> a_staged a.
Definition bytes_of_queue (a : Actor) : N := sum_by (λ p : N * Stored, stored_bytes p.2) (queue_view a).
Definition bytes_of_staged (a : Actor) : N := sum_by stored_bytes (staged_view a).

Definition rank (l : lifecycle) : N :=
  match l with
  | Lifecycle.Starting => 0
  | Lifecycle.Active => 1
  | Lifecycle.Quiescing => 2
  | Lifecycle.Stopping => 3
  | Lifecycle.Stopped => 4
  end.

(** The payloads held outside the actors. *)
Definition shelf (w : World) : list Stored :=
  (pub_stored <$> (map_to_list (pt_entries (w_publications w))).*2) ++
  (omap id (ot_slots (w_operations w)) ≫= entry_stored) ++
  ((λ l, d_payload (dl_delivery l)) <$> (map_to_list (w_leases w)).*2) ++
  w_held w.
Lemma reachable_split w : reachable w = (omap id (w_actors w) ≫= actor_stored) ++ shelf w.
Proof. done. Qed.

(** ** Kinds of steps *)
Record frame (x : list Stored) (w w' : World) : Prop := {
  fr_id : w_id w' = w_id w;
  fr_cfg : w_cfg w' = w_cfg w;
  fr_event : w_next_event w' = w_next_event w;
  fr_actors : w_actors w' = w_actors w;
  fr_live : w_live_actors w' = w_live_actors w;
  fr_free : w_free w' = w_free w;
  fr_next_stored : w_next_stored w' = w_next_stored w;
  fr_next_order : w_next_ready_order w' = w_next_ready_order w;
  fr_permits : w_permits w' = w_permits w;
  fr_shelf : ∀ s, s ∈ shelf w' → s ∈ x ∨ s ∈ reachable w;
}.
(** The byte counter follows the content, or both are cleared. *)
Definition accounted (bytes bytes' content content' : N) (empty : Prop) : Prop :=
  (bytes' + content = bytes + content')%N ∨ (empty ∧ bytes' = 0%N).
Record evolves (a a' : Actor) : Prop := {
  ev_reference : a_reference a' = a_reference a;
  ev_rank : (rank (a_state a) ≤ rank (a_state a'))%N;
  ev_stopped : a_state a' = Lifecycle.Stopped ↔ a_state a = Lifecycle.Stopped;
  ev_queue : queue_view a' `sublist_of` queue_view a;
  ev_queue_bytes : accounted (a_queue_bytes a) (a_queue_bytes a') (bytes_of_queue a) (bytes_of_queue a') (a_queue a' = []);
  ev_staged : staged_view a' `sublist_of` staged_view a;
  ev_staged_bytes : accounted (a_staged_bytes a) (a_staged_bytes a') (bytes_of_staged a) (bytes_of_staged a') (a_staged a' = []);
  ev_order : a_ready_order a' = a_ready_order a;
  ev_parent : a_parent a' = a_parent a;
}.
(** One more delivery at the end of the queue, within the limits. *)
Record enqueues (cfg : Config) (id : N) (s : Stored) (a a' : Actor) : Prop := {
  en_reference : a_reference a' = a_reference a;
  en_state : a_state a' = a_state a;
  en_room : (N.of_nat (length (a_queue a)) < mailbox_capacity cfg)%N;
  en_bytes_room : (a_queue_bytes a + stored_bytes s ≤ mailbox_bytes cfg)%N;
  en_queue : queue_view a' = queue_view a ++ [(id, s)];
  en_queue_bytes : a_queue_bytes a' = (a_queue_bytes a + stored_bytes s)%N;
  en_staged : staged_view a' = staged_view a;
  en_staged_bytes : a_staged_bytes a' = a_staged_bytes a;
  en_order : a_ready_order a' = a_ready_order a;
  en_parent : a_parent a' = a_parent a;
}.
Record stages (cfg : Config) (s : Stored) (a a' : Actor) : Prop := {
  sg_reference : a_reference a' = a_reference a;
  sg_state : a_state a' = a_state a;
  sg_room : (N.of_nat (length (a_staged a)) < mailbox_capacity cfg)%N;
  sg_bytes_room : (stored_bytes s ≤ mailbox_bytes cfg - a_staged_bytes a)%N;
  sg_queue : queue_view a' = queue_view a;
  sg_queue_bytes : a_queue_bytes a' = a_queue_bytes a;
  sg_staged : staged_view a' = staged_view a ++ [s];
  sg_staged_bytes : a_staged_bytes a' = (a_staged_bytes a + stored_bytes s)%N;
  sg_order : a_ready_order a' = a_ready_order a;
  sg_parent : a_parent a' = a_parent a;
}.
Definition stopped (a : Actor) : bool := bool_decide (a_state a = Lifecycle.Stopped).

(** Retirement of the actor in a slot, and its replacement or a new slot. *)
Definition retire_slot (slot : N) (w : World) : World :=
  (set_slot slot (λ a, a <| a_state := Lifecycle.Stopped |>) w)
    <| w_live_actors ::= N.pred |> <| w_free ::= cons slot |>.
Definition reuse_slot (slot : N) (a : Actor) (free : list N) (w : World) : World :=
  w <| w_actors ::= <[N.to_nat slot := Some a]> |> <| w_free := free |> <| w_live_actors ::= N.succ |>
    <| w_next_ready_order ::= N.succ |>.
Definition push_actor (a : Actor) (w : World) : World :=
  w <| w_actors ::= λ l, l ++ [Some a] |> <| w_live_actors ::= N.succ |> <| w_next_ready_order ::= N.succ |>.
(** A new actor may be attached below a parent that has not begun to stop. *)
Definition attachable (w : World) (parent : option ActorRef) : Prop :=
  match parent with
  | None => True
  | Some p => ∃ a, find_ref w p = inr a ∧ starting_or_active (a_state a) = true
  end.

(** Slots, their references, the free list and the count of live actors. *)
Record slots_wf (w : World) : Prop := {
  sw_slot i o : w_actors w !! i = Some o → ∃ a, o = Some a ∧
    ar_slot (a_reference a) = N.of_nat i ∧ ar_world (a_reference a) = w_id w ∧ (1 ≤ ar_generation (a_reference a))%N;
  sw_free slot : slot ∈ w_free w ↔ ∃ a, actor_at w slot = Some a ∧ a_state a = Lifecycle.Stopped;
  sw_free_nodup : NoDup (w_free w);
  sw_live : w_live_actors w = count_by (λ o, match o with Some a => negb (stopped a) | None => false end) (w_actors w);
  sw_length : (N.of_nat (length (w_actors w)) ≤ max_actors (w_cfg w))%N;
  sw_max : (max_actors (w_cfg w) ≤ u32_max)%N;
}.

(** ** The interface of an invariant *)
Class Accounting (P : list Stored → option N → World → Prop) : Prop := {
  ac_slots x e w : P x e w → slots_wf w;
  ac_dup x e w s : s ∈ reachable w → P x e w → P (s :: x) e w;
  ac_drop x e w s : P (s :: x) e w → P x e w;
  ac_forget x e w : P x e w → P x None w;
  ac_frame x e w w' : frame x w w' → P x e w → P x e w';
  ac_update x e w slot f :
    (∀ a, actor_at w slot = Some a → evolves a (f a)) → P x e w → P x e (set_slot slot f w);
  ac_event x w : P x None w → P x (Some (w_next_event w)) (w <| w_next_event ::= N.succ |>);
  ac_enqueue x id w slot f s a :
    actor_at w slot = Some a → enqueues (w_cfg w) id s a (f a) →
    P (s :: x) (Some id) w → P (s :: x) None (set_slot slot f w);
  ac_stage x e w slot f s a :
    actor_at w slot = Some a → stages (w_cfg w) s a (f a) →
    P (s :: x) e w → P (s :: x) e (set_slot slot f w);
  ac_store e w s :
    stored_id s = w_next_stored w →
    (stored_bytes s ≤ native_payload_budget (w_cfg w) - retained_bytes w)%N →
    P [] e w → P [s] e (w <| w_next_stored ::= N.succ |>);
  ac_permit e w h bytes :
    (retained_bytes w + bytes ≤ native_payload_budget (w_cfg w) + default 0 (w_permits w !! h))%N →
    P [] e w → P [] e (w <| w_permits ::= <[h := bytes]> |>);
  ac_release e w h : P [] e w → P [] e (w <| w_permits ::= delete h |>);
  ac_retire x e w slot a :
    actor_at w slot = Some a → a_state a = Lifecycle.Stopping →
    P x e w → P x e (retire_slot slot w);
  ac_reuse x e w slot free old r kind parent :
    attachable w parent → w_free w = slot :: free → actor_at w slot = Some old →
    r = MkActorRef (w_id w) slot (ar_generation (a_reference old) + 1) →
    P x e w → P x e (reuse_slot slot (new_actor r (w_next_ready_order w) kind parent) free w);
  ac_push x e w slot r kind parent :
    attachable w parent → w_free w = [] → slot = N.of_nat (length (w_actors w)) → (w_live_actors w < max_actors (w_cfg w))%N →
    r = MkActorRef (w_id w) slot 1 →
    P x e w → P x e (push_actor (new_actor r (w_next_ready_order w) kind parent) w);
}.

(** ** Frames *)
Lemma frame_refl x w : frame x w w.
Proof. split; try done. intros s Hs. right. rewrite reachable_split. set_solver. Qed.
Lemma frame_trans x w1 w2 w3 : frame x w1 w2 → frame x w2 w3 → frame x w1 w3.
Proof.
  intros [] []. split; try congruence. intros s Hs. destruct (fr_shelf1 s Hs) as [?|Hr]; [by left|].
  rewrite reachable_split in Hr. apply elem_of_app in Hr as [Hr|Hr]; [|auto].
  right. rewrite reachable_split. apply elem_of_app. left. by rewrite <- fr_actors0.
Qed.
#[export] Instance frame_preorder x : PreOrder (frame x).
Proof. split; [intros ?; apply frame_refl|intros ???; apply frame_trans]. Qed.
Lemma frame_weaken x y w w' : x ⊆ y → frame x w w' → frame y w w'.
Proof. intros Hxy []. split; try done. intros s Hs. destruct (fr_shelf0 s Hs); auto. Qed.
(** A step that leaves all payload containers alone. *)
Lemma frame_same x w w' :
  w_id w' = w_id w → w_cfg w' = w_cfg w → w_next_event w' = w_next_event w → w_actors w' = w_actors w →
  w_live_actors w' = w_live_actors w → w_free w' = w_free w → w_next_stored w' = w_next_stored w →
  w_next_ready_order w' = w_next_ready_order w → w_permits w' = w_permits w → w_publications w' = w_publications w → w_operations w' = w_operations w →
  w_leases w' = w_leases w → w_held w' = w_held w → frame x w w'.
Proof.
  intros ????????? Hp Ho Hl Hh. split; try done. intros s Hs. right. rewrite reachable_split. apply elem_of_app. right.
  unfold shelf in *. by rewrite Hp, Ho, Hl, Hh in Hs.
Qed.
Lemma frame_find_ref x w w' r : frame x w w' → find_ref w' r = find_ref w r.
Proof. intros []. unfold find_ref, actor_at. by rewrite fr_id0, fr_actors0. Qed.
Lemma frame_actor_at x w w' slot : frame x w w' → actor_at w' slot = actor_at w slot.
Proof. intros []. unfold actor_at. by rewrite fr_actors0. Qed.

(** ** Computations that only take steps of a preorder *)
Definition steps {S} (R : S → S → Prop) {E A} (m : M S E A) : Prop := ∀ s, R s (m s).2.
Section steps.
Context {S : Type} (R : S → S → Prop) `{!PreOrder R} {E : Type}.
Lemma steps_ret {A} (a : A) : steps R (ret (E:=E) a).
Proof. by intros s. Qed.
Lemma steps_fail {A} (e : E) : steps R (fail (A:=A) e).
Proof. by intros s. Qed.
Lemma steps_panic {A} : steps R (panic (E:=E) (A:=A)).
Proof. by intros s. Qed.
Lemma steps_get : steps R (get (E:=E)).
Proof. by intros s. Qed.
Lemma steps_gets {A} (f : S → A) : steps R (gets (E:=E) f).
Proof. by intros s. Qed.
Lemma steps_of_outcome {A} (o : outcome E A) : steps R (of_outcome o).
Proof. by intros s. Qed.
Lemma steps_ok_or {A} (e : E) (o : option A) : steps R (ok_or e o).
Proof. destruct o; [apply steps_ret|apply steps_fail]. Qed.
Lemma steps_expect {A} (o : option A) : steps R (expect (E:=E) o).
Proof. destruct o; [apply steps_ret|apply steps_panic]. Qed.
Lemma steps_reject_if c (e : E) : steps R (reject_if c e).
Proof. destruct c; [apply steps_fail|apply steps_ret]. Qed.
Lemma steps_bind {A B} (m : M S E A) (k : A → M S E B) :
  steps R m → (∀ a, steps R (k a)) → steps R (bind m k).
Proof.
  intros Hm Hk s. unfold bind. specialize (Hm s). destruct (m s) as [[a|e|] s']; simpl in *; [|done..].
  etrans; [done|apply Hk].
Qed.
Lemma steps_try {A} (m : M S E A) : steps R m → steps R (try_ (E:=E) m).
Proof. intros Hm s. unfold try_. specialize (Hm s). by destruct (m s) as [[a|e|] s']. Qed.
Lemma steps_unwrap_or {A} (d : A) (m : M S E A) : steps R m → steps R (unwrap_or d m).
Proof. intros Hm. apply steps_bind; [by apply steps_try|]. intros. apply steps_ret. Qed.
Lemma steps_for_each {A} (f : A → M S E unit) l : (∀ a, steps R (f a)) → steps R (for_each f l).
Proof. intros Hf. induction l as [|a l IH]; [apply steps_ret|]. by apply steps_bind. Qed.
Lemma steps_modify f : (∀ s, R s (f s)) → steps R (modify (E:=E) f).
Proof. intros Hf s. apply Hf. Qed.
Lemma steps_run {A} (m : M S E A) : (∀ s, steps R (λ _, m s)) → steps R m.
Proof. intros H s. apply (H s s). Qed.
End steps.
(** A component's computation, seen from the World. *)
Lemma steps_zoom {S T} (R : S → S → Prop) (Q : T → T → Prop) (field : S → T) (set : T → S → S)
    {E A} (m : M T E A) :
  (∀ s t, Q (field s) t → R s (set t s)) → steps Q m → steps R (zoom field set m).
Proof. intros HR Hm s. unfold zoom. specialize (Hm (field s)). destruct (m (field s)) as [o t]. by apply HR. Qed.

Create HintDb steps.
#[export] Hint Resolve steps_ret steps_fail steps_panic steps_get steps_gets steps_of_outcome steps_ok_or
  steps_expect steps_reject_if steps_try steps_unwrap_or steps_for_each : steps.
Abbreviation framed x := (steps (frame x)).
Ltac steps_step :=
  match goal with
  | |- steps _ (bind _ _) => apply (steps_bind _); [|intros ?]
  | |- steps (frame _) (modify _) => apply steps_modify; intros ?; try (apply frame_same; reflexivity)
  | |- steps _ (modify _) => apply steps_modify; intros ?
  | |- steps _ (match ?x with _ => _ end) => destruct x eqn:?
  | |- steps _ _ => solve [eauto with steps typeclass_instances]
  end.
Ltac steps := repeat steps_step.

(** ** Actor updates *)
Lemma evolves_same a a' :
  a_reference a' = a_reference a → a_state a' = a_state a → a_queue a' = a_queue a →
  a_queue_bytes a' = a_queue_bytes a → a_staged a' = a_staged a → a_staged_bytes a' = a_staged_bytes a →
  a_ready_order a' = a_ready_order a → a_parent a' = a_parent a → evolves a a'.
Proof.
  intros Hr Hs Hq Hqb Hg Hgb Ho Hp. unfold bytes_of_queue, bytes_of_staged.
  assert (queue_view a' = queue_view a) as Hqv by (unfold queue_view; by rewrite Hq).
  assert (staged_view a' = staged_view a) as Hgv by (unfold staged_view; by rewrite Hg).
  split; rewrite ?Hr, ?Hs, ?Hqv, ?Hgv; try done.
  - left. unfold bytes_of_queue. rewrite Hqv, Hqb. lia.
  - left. unfold bytes_of_staged. rewrite Hgv, Hgb. lia.
Qed.

(** ** Triples

    [triple Pre m Post Fail]: from a state satisfying [Pre], [m] panics, or
    returns a value and a state satisfying [Post], or fails in a state
    satisfying [Fail]. *)
Definition triple {E A} (Pre : World → Prop) (m : M World E A) (Post : A → World → Prop) (Fail : World → Prop) : Prop :=
  ∀ w, Pre w → match m w with
               | (Ok a, w') => Post a w'
               | (Err _, w') => Fail w'
               | (Panic, _) => True
               end.
Section triple.
Context {E : Type}.
Implicit Types (Pre Q : World → Prop).
Lemma triple_conseq {A} Pre Pre' (m : M World E A) Post Post' Q Q' :
  triple Pre' m Post' Q' → (∀ w, Pre w → Pre' w) → (∀ a w, Post' a w → Post a w) → (∀ w, Q' w → Q w) →
  triple Pre m Post Q.
Proof. intros H H1 H2 H3 w Hw. specialize (H w (H1 w Hw)). destruct (m w) as [[a|e|] w']; auto. Qed.
Lemma triple_ret {A} Pre (a : A) (Post : A → World → Prop) Q :
  (∀ w, Pre w → Post a w) → triple (E:=E) Pre (ret a) Post Q.
Proof. intros H w Hw. by apply H. Qed.
Lemma triple_fail {A} Pre (e : E) (Post : A → World → Prop) Q :
  (∀ w, Pre w → Q w) → triple Pre (fail e) Post Q.
Proof. intros H w Hw. by apply H. Qed.
Lemma triple_panic {A} Pre (Post : A → World → Prop) Q : triple (E:=E) Pre panic Post Q.
Proof. by intros w Hw. Qed.
Lemma triple_bind {A B} Pre Mid Post Q (m : M World E A) (k : A → M World E B) :
  triple Pre m Mid Q → (∀ a, triple (Mid a) (k a) Post Q) → triple Pre (bind m k) Post Q.
Proof.
  intros Hm Hk w Hw. specialize (Hm w Hw). unfold bind. destruct (m w) as [[a|e|] w']; [|done..].
  by apply Hk.
Qed.
Lemma triple_get {B} Pre Post Q (k : World → M World E B) :
  (∀ w, Pre w → triple (λ w', w' = w) (k w) Post Q) → triple Pre (bind get k) Post Q.
Proof. intros H w Hw. unfold bind, get. by apply (H w Hw w). Qed.
Lemma triple_try {A} Pre (m : M World E A) (Post : E + A → World → Prop) Q :
  triple Pre m (λ a, Post (inr a)) (λ w, ∀ e, Post (inl e) w) → triple (E:=E) Pre (try_ m) Post Q.
Proof. intros H w Hw. specialize (H w Hw). unfold try_. destruct (m w) as [[a|e|] w']; [done|apply H|done]. Qed.
Lemma triple_for_each {A} (I : World → Prop) (f : A → M World E unit) l :
  (∀ a, a ∈ l → triple I (f a) (λ _, I) I) → triple I (for_each f l) (λ _, I) I.
Proof.
  induction l as [|a l IH]; intros Hf; [by apply triple_ret|]. eapply triple_bind; [apply Hf; set_solver|].
  intros []. apply IH. intros b Hb. apply Hf. set_solver.
Qed.
(** A pure condition of the precondition. *)
Lemma triple_pure {A} (φ : Prop) Pre (m : M World E A) Post Q :
  (φ → triple Pre m Post Q) → triple (λ w, φ ∧ Pre w) m Post Q.
Proof. intros H w [Hφ Hw]. by apply H. Qed.
End triple.

(** Computations that return or panic. *)
Definition errless {S E A} (m : M S E A) : Prop := ∀ s e, (m s).1 ≠ Err e.
Section errless.
Context {S E : Type}.
Lemma errless_ret {A} (a : A) : errless (S:=S) (E:=E) (ret a).
Proof. by intros s e. Qed.
Lemma errless_panic {A} : errless (S:=S) (E:=E) (A:=A) panic.
Proof. by intros s e. Qed.
Lemma errless_get : errless (S:=S) (E:=E) get.
Proof. by intros s e. Qed.
Lemma errless_modify f : errless (S:=S) (E:=E) (modify f).
Proof. by intros s e. Qed.
Lemma errless_expect {A} (o : option A) : errless (S:=S) (E:=E) (expect o).
Proof. destruct o; [apply errless_ret|apply errless_panic]. Qed.
Lemma errless_try {A} (m : M S E A) : errless (E:=E) (try_ (E:=E) m).
Proof. intros s e. unfold try_. by destruct (m s) as [[]]. Qed.
Lemma errless_bind {A B} (m : M S E A) (k : A → M S E B) : errless m → (∀ a, errless (k a)) → errless (bind m k).
Proof.
  intros Hm Hk s e. unfold bind. specialize (Hm s e). destruct (m s) as [[a|e'|] s']; simpl in *; [apply Hk|naive_solver|done].
Qed.
Lemma errless_unwrap_or {A} (d : A) (m : M S E A) : errless (unwrap_or d m).
Proof. apply errless_bind; [apply errless_try|]. intros. apply errless_ret. Qed.
Lemma errless_for_each {A} (f : A → M S E unit) l : (∀ a, errless (f a)) → errless (for_each f l).
Proof. intros Hf. induction l as [|a l IH]; [apply errless_ret|]. by apply errless_bind. Qed.
End errless.
Lemma errless_zoom {S T} (field : S → T) set {E A} (m : M T E A) : errless m → errless (zoom field set m).
Proof. intros Hm s e. unfold zoom. specialize (Hm (field s) e). by destruct (m (field s)). Qed.
Create HintDb errless.
#[export] Hint Resolve errless_ret errless_panic errless_get errless_modify errless_expect errless_try
  errless_unwrap_or errless_for_each : errless.
Ltac errless :=
  repeat match goal with
  | |- errless (bind _ _) => apply errless_bind; [|intros ?]
  | |- errless (match ?x with _ => _ end) => destruct x eqn:?
  | |- errless _ => solve [eauto with errless]
  end.
Lemma triple_errless {E A} Pre (m : M World E A) Post Q Q' :
  errless m → triple Pre m Post Q → triple Pre m Post Q'.
Proof.
  intros He Hm w Hw. specialize (Hm w Hw). specialize (He w). destruct (m w) as [[a|e|] w']; [done| |done].
  by destruct (He e).
Qed.

(** The constant at the head of a term. *)
Ltac head_of t := lazymatch t with ?f _ => head_of f | _ => t end.

(** [m] keeps the invariant whatever it holds. *)
Definition stable (P : list Stored → option N → World → Prop) {E A} (m : M World E A) : Prop :=
  ∀ x e, triple (P x e) m (λ _, P x e) (P x e).

Section stable.
Context `{!Accounting P} {E : Type}.
Lemma stable_framed {A} (m : M World E A) : framed [] m → stable P m.
Proof.
  intros Hm x e w Hw. assert (P x e (m w).2) as H.
  { eapply ac_frame; [|done]. eapply frame_weaken; [|apply Hm]. set_solver. }
  by destruct (m w) as [[a|e'|] w'].
Qed.
Lemma triple_framed {A} x e (m : M World E A) : framed x m → triple (P x e) m (λ _, P x e) (P x e).
Proof.
  intros Hm w Hw. assert (P x e (m w).2) as H by (eapply ac_frame; [apply Hm|done]).
  by destruct (m w) as [[a|e'|] w'].
Qed.
Lemma stable_bind {A B} (m : M World E A) (k : A → M World E B) :
  stable P m → (∀ a, stable P (k a)) → stable P (bind m k).
Proof. intros Hm Hk x e. eapply triple_bind; [apply Hm|]. intros a. apply Hk. Qed.
Lemma stable_try {A} (m : M World E A) : stable P m → stable P (try_ (E:=E) m).
Proof. intros Hm x e. apply triple_try. eapply triple_conseq; [apply Hm|done|done|intros w Hw ?; exact Hw]. Qed.
Lemma stable_unwrap_or {A} (d : A) (m : M World E A) : stable P m → stable P (unwrap_or d m).
Proof. intros Hm. apply stable_bind; [by apply stable_try|]. intros r. apply stable_framed. steps. Qed.
Lemma stable_for_each {A} (f : A → M World E unit) l : (∀ a, stable P (f a)) → stable P (for_each f l).
Proof. intros Hf x e. apply triple_for_each. intros a _. apply Hf. Qed.
Lemma stable_slot slot f : (∀ a, evolves a (f a)) → stable P (modify (E:=E) (set_slot slot f)).
Proof. intros Hf x e w Hw. unfold modify. apply ac_update; [|done]. intros a _. apply Hf. Qed.
Lemma stable_run {A} (m : M World E A) : (∀ w, stable P (λ w', m w)) → stable P m.
Proof. intros H x e w Hw. by apply (H w x e w). Qed.
End stable.
