(* ===== verification/WorldFrames.v ===== *)
(** * Operations of the World that leave the actors alone

    Bookkeeping (time, metrics, diagnostics, activity, readiness), the operation
    table and the publication table: each operation only takes [frame] steps. *)
From S2P Require Import Prelude Collections Text Types Metadata Schema Routing Expiry Readiness Operations.
From S2P Require Import Diagnostics Publications SchemaRegistry Activity WorldState Admission Publishing.
From S2P Require Import Actors Messaging Steps.

(** ** The payloads of the operation table *)
Definition ops_stored (t : OperationTable) : list Stored := omap id (ot_slots t) ≫= entry_stored.
Definition ops_step (x : list Stored) (t t' : OperationTable) : Prop :=
  ∀ s, s ∈ ops_stored t' → s ∈ x ∨ s ∈ ops_stored t.
#[export] Instance ops_step_preorder x : PreOrder (ops_step x).
Proof.
  split; [by right|]. intros t1 t2 t3 H1 H2 s Hs. destruct (H2 s Hs); auto.
Qed.
Lemma ops_step_same x t t' : ot_slots t' = ot_slots t → ops_step x t t'.
Proof. intros Ht s. unfold ops_stored. rewrite Ht. auto. Qed.
Lemma elem_of_ops_stored s t :
  s ∈ ops_stored t ↔ ∃ i e, ot_slots t !! i = Some (Some e) ∧ s ∈ entry_stored e.
Proof.
  unfold ops_stored. rewrite list_elem_of_bind. split.
  - intros (e & Hs & He). apply list_elem_of_omap in He as ([e'|] & He & [= ->]).
    apply list_elem_of_lookup in He as [i Hi]. eauto.
  - intros (i & e & Hi & Hs). exists e. split; [done|]. apply list_elem_of_omap. exists (Some e). split; [|done].
    by eapply list_elem_of_lookup_2.
Qed.
(** A slot is emptied, or gets an entry with payloads from [x] or its own. *)
Lemma ops_step_slot x t t' i o :
  ot_slots t' = <[i := o]> (ot_slots t) →
  (∀ e s, o = Some e → s ∈ entry_stored e → s ∈ x ∨ s ∈ ops_stored t) → ops_step x t t'.
Proof.
  intros Ht Ho s Hs. apply elem_of_ops_stored in Hs as (j & e & Hj & Hs). rewrite Ht in Hj.
  apply list_lookup_insert_Some in Hj as [(_ & Heq & _)|[_ Hj]]; [by eapply Ho|].
  right. apply elem_of_ops_stored. eauto.
Qed.
Lemma ops_step_push x t t' : ot_slots t' = ot_slots t ++ [None] → ops_step x t t'.
Proof.
  intros Ht s Hs. apply elem_of_ops_stored in Hs as (j & e & Hj & Hs). rewrite Ht in Hj. right.
  apply elem_of_ops_stored. rewrite lookup_snoc_Some in Hj. naive_solver.
Qed.

Abbreviation op_framed x := (steps (ops_step x)).
Ltac op_framed := repeat (steps_step; try (apply ops_step_same; reflexivity)).

Section op_framed.
Context (x : list Stored).
Lemma op_framed_modify_same f : (∀ t, ot_slots (f t) = ot_slots t) → op_framed x (modify (E:=error) f).
Proof. intros Hf. apply steps_modify. intros t. by apply ops_step_same. Qed.
Lemma op_framed_decr f `{!Setter f} : (∀ g t, ot_slots (set_field f g t) = ot_slots t) → op_framed x (decr (E:=error) f).
Proof. intros Hf t. unfold decr. case_decide; [reflexivity|]. simpl. apply ops_step_same, Hf. Qed.
Lemma remove_target_slots id p t : ot_slots (Operations.remove_target_index id p t) = ot_slots t.
Proof. done. Qed.
Lemma remove_owner_slots o t : ot_slots (Operations.remove_pending_owner o t) = ot_slots t.
Proof. unfold Operations.remove_pending_owner. by repeat case_match. Qed.
End op_framed.

(** What a completion may put into the table. *)
Definition result_stored (r : TerminalOutcome) : list Stored := outcome_handles r.
Lemma entry_stored_terminal r : entry_stored (ETerminal (Operations.normalize r)) = result_stored r.
Proof. by destruct r. Qed.

Lemma op_complete x id r : result_stored r ⊆ x → op_framed x (Operations.complete id r).
Proof.
  intros Hr. unfold Operations.complete. steps.
  - by apply ops_step_same.
  - apply ops_step_same, remove_owner_slots.
  - by apply ops_step_same.
  - by apply op_framed_decr.
  - eapply ops_step_slot; [done|]. intros e'' s' [= <-]. rewrite entry_stored_terminal. auto.
Qed.
Lemma op_transition x ids r : result_stored r ⊆ x → op_framed x (Operations.transition_ids ids r).
Proof.
  intros Hr. induction ids as [|id ids IH]; cbn [Operations.transition_ids]; steps.
  apply (steps_unwrap_or _). by apply op_complete.
Qed.
Lemma op_retire_generation x i : op_framed x (Operations.retire_generation i).
Proof. unfold Operations.retire_generation. steps. by apply ops_step_same. Qed.
Lemma op_remove_owner_index x id : op_framed x (modify (E:=error) (Operations.remove_owner_index id)).
Proof. apply op_framed_modify_same. intros t. unfold Operations.remove_owner_index. by repeat case_match. Qed.
Lemma op_clear_slot x i : op_framed x (modify (E:=error) (λ t, t <| ot_slots ::= <[i := None]> |>)).
Proof. apply steps_modify. intros t. by eapply ops_step_slot. Qed.
#[local] Hint Resolve op_retire_generation op_remove_owner_index op_clear_slot : steps.
Lemma op_take x id : op_framed x (Operations.take id).
Proof.
  unfold Operations.take. repeat match goal with
  | |- steps _ (modify _) => eauto with steps
  | |- steps _ (decr _) => by apply op_framed_decr
  | _ => steps_step
  end.
Qed.
Lemma op_release x id : op_framed x (Operations.release_unsubmitted id).
Proof.
  unfold Operations.release_unsubmitted. repeat match goal with
  | |- steps _ (modify (λ t, t <| ot_slots ::= _ |>)) => eauto with steps
  | |- steps _ (decr _) => by apply op_framed_decr
  | _ => steps_step
  end.
  apply ops_step_same. unfold Operations.remove_index. cbn. by rewrite remove_owner_slots.
Qed.
Lemma op_reserve x owner target deadline : op_framed x (Operations.reserve owner target deadline).
Proof.
  unfold Operations.reserve, Operations.push_slot. steps; try (by apply ops_step_same).
  - by apply ops_step_push.
  - eapply ops_step_slot; [done|]. intros e s' [= <-] Hs. simpl in Hs. set_solver.
Qed.
Lemma op_set_context x id context : held_stored context ∈ x → op_framed x (Operations.set_context id context).
Proof.
  intros Hx. unfold Operations.set_context. steps.
  eapply ops_step_slot; [done|]. intros e' s' [= <-] Hs. simpl in Hs. left. set_solver.
Qed.
Lemma op_retire_owner x owner : op_framed x (Operations.retire_owner owner).
Proof.
  unfold Operations.retire_owner. steps. generalize (btree_elems (idx_get owner (ot_owner_index a))) as ids.
  induction ids as [|id ids IH]; cbn [Operations.retire_ids]; steps.
  - apply steps_try. apply op_complete. set_solver.
  - apply (steps_unwrap_or _). apply op_take.
Qed.
Lemma op_cancel_owner x owner : op_framed x (Operations.cancel_owner owner).
Proof. unfold Operations.cancel_owner. steps. apply op_transition. set_solver. Qed.
Lemma op_stop_target x target : op_framed x (Operations.stop_target target).
Proof. unfold Operations.stop_target. steps. apply op_transition. set_solver. Qed.
Lemma op_expire_one x id now : op_framed x (Operations.expire_one id now).
Proof. unfold Operations.expire_one. steps. apply op_complete. set_solver. Qed.
Lemma op_expire_ids x now : op_framed x (Operations.expire_ids now).
Proof.
  unfold Operations.expire_ids. steps.
  - generalize (S (size (ot_deadlines a))) as fuel. induction fuel as [|fuel IH]; cbn [Operations.pop_due]; steps.
    by apply ops_step_same.
  - apply (steps_for_each _). intros id. unfold Operations.time_out. steps.
    apply steps_try. apply op_complete. set_solver.
Qed.

(** ** The payloads of the publication table *)
Definition pubs_stored (t : PublicationTable) : list Stored := pub_stored <$> (map_to_list (pt_entries t)).*2.
Lemma elem_of_pubs_stored s t :
  s ∈ pubs_stored t ↔ ∃ id p, pt_entries t !! id = Some p ∧ pub_stored p = s.
Proof.
  unfold pubs_stored. rewrite list_elem_of_fmap. split.
  - intros (p & -> & Hp). apply list_elem_of_fmap in Hp as ([id p'] & -> & Hp).
    apply elem_of_map_to_list in Hp. eauto.
  - intros (id & p & Hp & <-). exists p. split; [done|]. apply list_elem_of_fmap. exists (id, p).
    by rewrite elem_of_map_to_list.
Qed.
Definition pubs_step (x : list Stored) (t t' : PublicationTable) : Prop :=
  ∀ s, s ∈ pubs_stored t' → s ∈ x ∨ s ∈ pubs_stored t.
#[export] Instance pubs_step_preorder x : PreOrder (pubs_step x).
Proof.
  split; [by right|]. intros t1 t2 t3 H1 H2 s Hs. destruct (H2 s Hs); auto.
Qed.
Lemma pubs_step_same x t t' : pt_entries t' = pt_entries t → pubs_step x t t'.
Proof. intros Ht s. unfold pubs_stored. rewrite Ht. auto. Qed.
Lemma pubs_step_insert x t t' id p :
  pt_entries t' = <[id := p]> (pt_entries t) → (pub_stored p ∈ x ∨ pub_stored p ∈ pubs_stored t) → pubs_step x t t'.
Proof.
  intros Ht Hp s Hs. apply elem_of_pubs_stored in Hs as (id' & p' & Hid & <-). rewrite Ht in Hid.
  apply lookup_insert_Some in Hid as [[_ <-]|[_ Hid]]; [done|]. right. apply elem_of_pubs_stored. eauto.
Qed.
Lemma pubs_step_delete x t t' id : pt_entries t' = delete id (pt_entries t) → pubs_step x t t'.
Proof.
  intros Ht s Hs. apply elem_of_pubs_stored in Hs as (id' & p & Hid & <-). rewrite Ht in Hid.
  apply lookup_delete_Some in Hid as [_ Hid]. right. apply elem_of_pubs_stored. eauto.
Qed.
Lemma ready_source_entries source t : pt_entries (Publications.ready_source source t) = pt_entries t.
Proof. unfold Publications.ready_source. by case_match. Qed.

Abbreviation pub_framed x := (steps (pubs_step x)).
Section pub_framed.
Context (x : list Stored).
Lemma pub_modify_same f : (∀ t, pt_entries (f t) = pt_entries t) → pub_framed x (modify (E:=error) f).
Proof. intros Hf. apply steps_modify. intros t. by apply pubs_step_same. Qed.
Lemma pub_ready_source source : pub_framed x (modify (E:=error) (Publications.ready_source source)).
Proof. apply pub_modify_same, ready_source_entries. Qed.
#[local] Hint Resolve pub_ready_source : steps.
Lemma pub_set_status id status : pub_framed x (Publications.set_status id status).
Proof. unfold Publications.set_status. steps. by apply pubs_step_same. Qed.
Lemma pub_clone_ticket id : pub_framed x (Publications.clone_ticket id).
Proof. unfold Publications.clone_ticket. steps. by apply pubs_step_same. Qed.
Lemma pub_drop_ticket id : pub_framed x (Publications.drop_ticket id).
Proof.
  unfold Publications.drop_ticket, Publications.drop_permit. steps; try (by apply pubs_step_same).
  intros t. unfold decr. case_decide; [reflexivity|]. by apply pubs_step_same.
Qed.
#[local] Hint Resolve pub_set_status pub_drop_ticket : steps.
Lemma pub_reserve source staged : pub_framed x (Publications.reserve source staged).
Proof. unfold Publications.reserve. steps; by apply pubs_step_same. Qed.
Lemma pub_enqueue id : pub_framed x (Publications.enqueue id).
Proof.
  intros t. unfold Publications.enqueue. unfold bind at 1, get. destruct (pt_entries t !! id) as [p|] eqn:Hp; [|by right].
  match goal with |- context [bind (Publications.set_status ?i ?s) ?k] => set (m := bind (Publications.set_status i s) k) end. assert (pub_framed x m) as Hm.
  { unfold m. repeat match goal with
      | |- steps _ (modify (Publications.ready_source _)) => apply pub_ready_source
      | _ => steps_step
      end. }
  unfold bind at 1, modify. etrans; [|apply Hm]. eapply pubs_step_insert; [done|]. right.
  apply elem_of_pubs_stored. exists id, p. split; [done|]. done.
Qed.
Lemma pub_insert p : pub_stored p ∈ x → pub_framed x (modify (E:=error) (Publications.insert p)).
Proof.
  intros Hp. apply steps_modify. intros t. unfold Publications.insert.
  eapply pubs_step_insert; [|by left]. rewrite ready_source_entries. by destruct (pub_deadline p).
Qed.
Lemma pub_take_entry id : pub_framed x (Publications.take_entry id).
Proof. unfold Publications.take_entry. steps. by eapply pubs_step_delete. Qed.
Lemma pub_remove_indexes p : pub_framed x (Publications.remove_indexes p).
Proof.
  unfold Publications.remove_indexes. steps; try (apply pubs_step_same; done).
  - apply pubs_step_same. by case_match.
  - apply pubs_step_same. by repeat case_match.
  - apply pubs_step_same. by case_match.
  - apply pubs_step_same, ready_source_entries.
Qed.
Lemma pub_finish p : pub_framed x (Publications.finish p).
Proof. unfold Publications.finish. steps. apply pub_remove_indexes. Qed.
Lemma pub_pop_ready : pub_framed x Publications.pop_ready.
Proof. unfold Publications.pop_ready, Publications.take_entry. steps; [by apply pubs_step_same|by eapply pubs_step_delete]. Qed.
Lemma pub_capture routes p : pub_framed x (Publications.capture routes p).
Proof. unfold Publications.capture. steps. by apply pubs_step_same. Qed.
Lemma pub_put_back p : pub_stored p ∈ x → pub_framed x (Publications.put_back p).
Proof.
  intros Hp. unfold Publications.put_back. steps. eapply pubs_step_insert; [|by left].
  by rewrite ready_source_entries.
Qed.
End pub_framed.

(** ** Lifting to the World *)
Lemma shelf_elem s w :
  s ∈ shelf w ↔ s ∈ pubs_stored (w_publications w) ∨ s ∈ ops_stored (w_operations w) ∨
    s ∈ ((λ l, d_payload (dl_delivery l)) <$> (map_to_list (w_leases w)).*2) ∨ s ∈ w_held w.
Proof. unfold shelf. rewrite !elem_of_app. done. Qed.
Lemma shelf_reachable s w : s ∈ shelf w → s ∈ reachable w.
Proof. intros. rewrite reachable_split. set_solver. Qed.
Lemma frame_operations x w t : ops_step x (w_operations w) t → frame x w (w <| w_operations := t |>).
Proof.
  intros Ht. split; try done. intros s Hs. rewrite shelf_elem in Hs. cbn in Hs.
  destruct Hs as [Hs|[Hs|Hs]]; [|apply Ht in Hs as [?|Hs]; [by left|]|];
    right; apply shelf_reachable; rewrite shelf_elem; naive_solver.
Qed.
Lemma frame_publications x w t : pubs_step x (w_publications w) t → frame x w (w <| w_publications := t |>).
Proof.
  intros Ht. split; try done. intros s Hs. rewrite shelf_elem in Hs. cbn in Hs.
  destruct Hs as [Hs|Hs]; [apply Ht in Hs as [?|Hs]; [by left|]|];
    right; apply shelf_reachable; rewrite shelf_elem; naive_solver.
Qed.
Lemma framed_operations x {A} (m : M OperationTable error A) : op_framed x m → framed x (operations m).
Proof. apply steps_zoom. intros w t. apply frame_operations. Qed.
Lemma framed_publications x {A} (m : M PublicationTable error A) : pub_framed x m → framed x (publications m).
Proof. apply steps_zoom. intros w t. apply frame_publications. Qed.

(** ** Bookkeeping *)
Section bookkeeping.
Context (x : list Stored).
Lemma framed_check_ref r : framed x (check_ref r).
Proof. intros w. unfold check_ref. by destruct (find_ref w r). Qed.
Lemma framed_execution r : framed x (execution_state r).
Proof. by intros w. Qed.
Lemma framed_count f : framed x (count f).
Proof. unfold count. steps. Qed.
Lemma framed_now : framed x now.
Proof. intros w. unfold now. destruct (Clocks.now _). by apply frame_same. Qed.
Lemma framed_with_history f : framed x (with_history f).
Proof. unfold with_history. steps. destruct (f _ _). by apply frame_same. Qed.
Lemma framed_diagnostic code actor operation : framed x (diagnostic code actor operation).
Proof. apply framed_with_history. Qed.
#[local] Hint Resolve framed_check_ref framed_execution framed_count framed_now framed_with_history framed_diagnostic : steps.
Lemma framed_reject e actor : framed x (reject e actor).
Proof. unfold reject. steps. Qed.
Lemma framed_marking f : framed x (marking f).
Proof. intros w. unfold marking. case_match; [by apply frame_same|done]. Qed.
Lemma framed_mark r : framed x (mark_activity_dependents r).
Proof. apply framed_marking. Qed.
Lemma framed_mark_tree r : framed x (mark_activity_tree r).
Proof. apply framed_marking. Qed.
#[local] Hint Resolve framed_mark framed_mark_tree : steps.
Lemma framed_mark_route route : framed x (mark_route_activity route).
Proof. unfold mark_route_activity. steps. Qed.
Lemma framed_mark_operation owner target : framed x (mark_operation_activity owner target).
Proof. unfold mark_operation_activity. steps. Qed.
Lemma framed_wake_routing : framed x wake_routing.
Proof. unfold wake_routing. steps. case_match; by apply frame_same. Qed.
#[local] Hint Resolve framed_mark_operation framed_wake_routing : steps.
Lemma framed_touch : framed x touch_activity.
Proof. unfold touch_activity. steps. destruct (Activity.notify_marked _). by apply frame_same. Qed.
Lemma framed_mark_routing : framed x mark_routing.
Proof. unfold mark_routing. steps. Qed.
Lemma framed_close_routing : framed x close_routing.
Proof. unfold close_routing. steps. Qed.
Lemma framed_refresh r : framed x (refresh_python_ready r).
Proof. unfold refresh_python_ready. steps. Qed.
#[local] Hint Resolve framed_refresh : steps.
Lemma framed_refresh_fuel fuel : ∀ r, framed x (refresh_subtree fuel r).
Proof. induction fuel as [|fuel IH]; intros r; cbn [refresh_subtree]; steps. Qed.
Lemma framed_refresh_subtree r : framed x (refresh_python_subtree r).
Proof. intros w. apply framed_refresh_fuel. Qed.
Lemma framed_complete id result :
  result_stored result ⊆ x → framed x (complete_operation_locked id result).
Proof. intros Hr. unfold complete_operation_locked. steps. by apply framed_operations, op_complete. Qed.
Lemma framed_expire id now : framed x (expire_operation id now).
Proof. unfold expire_operation. steps. apply framed_operations, op_expire_one. Qed.
#[local] Hint Resolve framed_expire : steps.
Lemma framed_expire_and_count id now actor : framed x (expire_and_count id now actor).
Proof. unfold expire_and_count. steps. Qed.
#[local] Hint Resolve framed_expire_and_count : steps.
Lemma framed_check_deadline options now : framed x (check_deadline options now).
Proof. unfold check_deadline. steps. Qed.
Lemma framed_validate_source options allow : framed x (validate_source options allow).
Proof. unfold validate_source. steps. Qed.
Lemma framed_expire_delivery d now : framed x (expire_delivery d now).
Proof. unfold expire_delivery. steps. Qed.
Lemma framed_refresh_event_deadline owner : framed x (refresh_event_deadline owner).
Proof. unfold refresh_event_deadline. steps. Qed.
Lemma framed_reserve_bytes n : framed x (reserve_bytes n).
Proof. unfold reserve_bytes. steps. Qed.
End bookkeeping.
#[export] Hint Resolve framed_check_ref framed_execution framed_count framed_now framed_with_history framed_diagnostic
  framed_reject framed_mark framed_mark_tree framed_mark_route framed_mark_operation framed_wake_routing framed_touch
  framed_mark_routing framed_close_routing framed_refresh framed_refresh_subtree framed_expire framed_expire_and_count
  framed_check_deadline framed_validate_source framed_expire_delivery framed_refresh_event_deadline
  framed_reserve_bytes : steps.
#[export] Hint Resolve framed_operations op_take op_release op_reserve op_retire_owner op_cancel_owner op_stop_target
  op_expire_one op_expire_ids : steps.
#[export] Hint Resolve framed_publications pub_clone_ticket pub_drop_ticket pub_reserve pub_enqueue pub_take_entry
  pub_finish pub_pop_ready pub_capture pub_set_status : steps.

(** ** Publishing *)
Lemma framed_enqueue_publication x id : framed x (enqueue_publication id).
Proof. unfold enqueue_publication. steps. Qed.
Lemma framed_finish_publication x p result : framed x (finish_publication p result).
Proof. unfold finish_publication. steps. Qed.
#[export] Hint Resolve framed_enqueue_publication framed_finish_publication : steps.
Lemma framed_cancel_publication x id result : framed x (cancel_publication id result).
Proof. unfold cancel_publication. steps. Qed.
#[export] Hint Resolve framed_cancel_publication : steps.
Lemma framed_cancel_source x source : framed x (cancel_source_publications source).
Proof. unfold cancel_source_publications. steps. Qed.
Lemma framed_expire_publications x now : framed x (expire_publications now).
Proof. unfold expire_publications. steps. Qed.
#[export] Hint Resolve framed_cancel_source framed_expire_publications : steps.
Lemma framed_route_prepare x p : framed x (route_prepare p).
Proof. unfold route_prepare. steps. Qed.

(** ** Services and routes *)
Lemma framed_detach_scope x scope : framed x (detach_scope scope).
Proof. unfold detach_scope. steps. Qed.
Lemma framed_remove_route x id : framed x (remove_route id).
Proof. unfold remove_route. steps. Qed.
Lemma framed_fence_operations x r : framed x (fence_operations r).
Proof. unfold fence_operations. steps. Qed.
#[export] Hint Resolve framed_route_prepare framed_detach_scope framed_remove_route framed_fence_operations : steps.
Lemma framed_new_handle x : framed x new_handle.
Proof. unfold new_handle. steps. Qed.
Lemma framed_report x r : framed x (report_locked r).
Proof. by intros w. Qed.
Lemma framed_port_locked x port : framed x (port_locked port).
Proof. intros w. unfold port_locked. by destruct (find_port w port). Qed.
Lemma framed_next_subscription x : framed x next_subscription.
Proof. unfold next_subscription. steps. Qed.
Lemma framed_insert_route x id route : framed x (insert_route id route).
Proof. unfold insert_route. steps. Qed.
#[export] Hint Resolve framed_new_handle framed_report framed_port_locked framed_next_subscription framed_insert_route : steps.
