(* ===== verification/WorldSteps.v ===== *)
(** * The operations of the World, against the accounting interface

    Every operation that changes an actor slot or moves a payload keeps every
    [Accounting] invariant. *)
From S2P Require Import Prelude Collections Text Types Metadata Schema Routing Expiry Readiness Operations.
From S2P Require Import Diagnostics Publications SchemaRegistry Activity WorldState Admission Publishing.
From S2P Require Import Actors Messaging Components Steps WorldFrames.

(** ** Rules for the readers of the state *)
Section readers.
Context {E A B : Type}.
Implicit Types (Pre Q : World → Prop).
Lemma triple_read Pre Q Post (m : M World E A) (k : A → M World E B) :
  (∀ w, (m w).2 = w) → (∀ w, Pre w → Q w) → (∀ a, triple Pre (k a) Post Q) → triple Pre (bind m k) Post Q.
Proof.
  intros Hm HQ Hk w Hw. specialize (Hm w). unfold bind. destruct (m w) as [[a|e|] w']; simpl in Hm; subst; [|auto|done].
  by apply Hk.
Qed.
Lemma triple_reject Pre Q Post c (e : E) (k : unit → M World E B) :
  (∀ w, Pre w → Q w) → (c = false → triple Pre (k tt) Post Q) → triple Pre (bind (reject_if c e) k) Post Q.
Proof.
  intros HQ Hk w Hw. unfold bind. destruct c; simpl; [auto|]. unfold ret. by apply Hk.
Qed.
Lemma triple_expect Pre Q Post (o : option A) (k : A → M World E B) :
  (∀ a, o = Some a → triple Pre (k a) Post Q) → triple Pre (bind (expect o) k) Post Q.
Proof. intros Hk w Hw. destruct o as [a|]; [|done]. by apply (Hk a). Qed.
Lemma triple_ok_or Pre Q Post (e : E) (o : option A) (k : A → M World E B) :
  (∀ w, Pre w → Q w) → (∀ a, o = Some a → triple Pre (k a) Post Q) → triple Pre (bind (ok_or e o) k) Post Q.
Proof. intros HQ Hk w Hw. destruct o as [a|]; [by apply (Hk a)|by apply HQ]. Qed.
Lemma triple_ret_bind Pre Q Post a (k : A → M World E B) :
  triple Pre (k a) Post Q → triple Pre (bind (ret a) k) Post Q.
Proof. intros Hk w Hw. exact (Hk w Hw). Qed.
Lemma triple_panic_bind Pre Q Post (k : A → M World E B) : triple Pre (bind panic k) Post Q.
Proof. by intros w Hw. Qed.
End readers.
Lemma triple_check_ref {B} (Pre Q : World → Prop) Post r (k : Actor → WM B) :
  (∀ w, Pre w → Q w) → (∀ a, triple (λ w, find_ref w r = inr a ∧ Pre w) (k a) Post Q) →
  triple Pre (bind (check_ref r) k) Post Q.
Proof.
  intros HQ Hk w Hw. unfold bind, check_ref. destruct (find_ref w r) as [e|a] eqn:Hr; [auto|]. by apply Hk.
Qed.
Lemma find_ref_actor w r a : find_ref w r = inr a → actor_at w (ar_slot r) = Some a.
Proof. unfold find_ref. repeat case_match; congruence. Qed.

(** What a computation returns, whatever the state. *)
Definition returns {S E A} (m : M S E A) (φ : A → Prop) : Prop := ∀ w a w', m w = (Ok a, w') → φ a.
Section returns.
Context {S E : Type}.
Lemma returns_bind {A B} (m : M S E A) (k : A → M S E B) φ : (∀ a, returns (k a) φ) → returns (bind m k) φ.
Proof. intros Hk w b w'. unfold bind. destruct (m w) as [[a|?|] ?]; [|done..]. apply Hk. Qed.
Lemma returns_bind_with {A B} (m : M S E A) (k : A → M S E B) φ ψ :
  returns m φ → (∀ a, φ a → returns (k a) ψ) → returns (bind m k) ψ.
Proof.
  intros Hm Hk w b w'. unfold bind. specialize (Hm w). destruct (m w) as [[a|?|] ?]; [|done..].
  apply Hk. eauto.
Qed.
Lemma returns_ret {A} (a : A) φ : φ a → returns (ret (S:=S) (E:=E) a) φ.
Proof. intros H w b w' [= <- _]. done. Qed.
End returns.
Lemma returns_publications {A} (m : M PublicationTable error A) φ : returns m φ → returns (publications m) φ.
Proof.
  intros Hm w a w'. unfold publications, zoom. specialize (Hm (w_publications w)).
  destruct (m _) as [o t]. intros [= -> <-]. by eapply Hm.
Qed.
Lemma triple_returns {E A} Pre (m : M World E A) φ Post Q :
  returns m φ → triple Pre m Post Q → triple Pre m (λ a w, φ a ∧ Post a w) Q.
Proof.
  intros Hφ Hm w Hw. specialize (Hm w Hw). specialize (Hφ w). destruct (m w) as [[a|?|] ?]; [|done..].
  split; [by eapply Hφ|done].
Qed.

Ltac evolves := apply evolves_same; reflexivity.

(** ** Actors in their slots *)
Lemma actor_at_set_slot slot f w : actor_at (set_slot slot f w) slot = f <$> actor_at w slot.
Proof.
  unfold actor_at, set_slot. cbn. rewrite list_lookup_alter_eq. by destruct (w_actors w !! _) as [[]|].
Qed.
Lemma set_slot_ext slot f g w : (∀ a, actor_at w slot = Some a → f a = g a) → set_slot slot f w = set_slot slot g w.
Proof.
  intros Hfg. unfold set_slot, set_field. cbn. f_equal. apply list_alter_ext; [|done].
  unfold actor_at in Hfg. intros [a|] Ha; [|done]. rewrite Ha in Hfg. simpl. by rewrite Hfg.
Qed.
Lemma set_slot_compose slot f g w : set_slot slot f (set_slot slot g w) = set_slot slot (λ a, f (g a)) w.
Proof.
  unfold set_slot, set_field. cbn. f_equal. rewrite list_alter_alter_eq.
  apply list_alter_ext; [|done]. by intros [a|] _.
Qed.
(** Removing some of the queue, with its bytes. *)
Lemma evolves_dequeue a queue' bytes :
  queue' `sublist_of` a_queue a →
  (bytes + sum_by (λ d, stored_bytes (d_payload d)) (a_queue a) =
     a_queue_bytes a + sum_by (λ d, stored_bytes (d_payload d)) queue')%N →
  evolves a (a <| a_queue := queue' |> <| a_queue_bytes := bytes |>).
Proof.
  intros Hq Hb. split; try done.
  - by apply sublist_of_fmap.
  - left. unfold bytes_of_queue, queue_view. rewrite !sum_by_fmap. simpl. exact Hb.
  - by left.
Qed.
Lemma evolves_unstage a staged' bytes :
  staged' `sublist_of` a_staged a →
  (bytes + sum_by (λ e : N * Stored * N, stored_bytes e.1.2) (a_staged a) =
     a_staged_bytes a + sum_by (λ e : N * Stored * N, stored_bytes e.1.2) staged')%N →
  evolves a (a <| a_staged := staged' |> <| a_staged_bytes := bytes |>).
Proof.
  intros Hq Hb. split; try done.
  - by left.
  - by apply sublist_of_fmap.
  - left. unfold bytes_of_staged, staged_view. rewrite !sum_by_fmap. exact Hb.
Qed.

(** A body decomposed along its binds and branches: steps that leave the actors
    alone, updates that do not touch queues or states, and the hints. *)
Create HintDb stable.
Ltac stable_step :=
  match goal with
  | |- stable _ (bind _ _) => apply stable_bind; [|intros ?]
  | |- stable _ (match ?c with _ => _ end) => destruct c eqn:?
  | |- stable _ (update_slot _ _) => apply stable_slot; intros ?; evolves
  | |- stable _ (update_ref _ _) => apply stable_bind; [apply stable_framed; steps|intros ?; apply stable_slot; intros ?; evolves]
  | |- stable _ (for_each _ _) => apply stable_for_each; intros ?
  | |- stable _ (try_ _) => apply stable_try
  | |- stable _ (unwrap_or _ _) => apply stable_unwrap_or
  | |- stable _ _ => solve [eauto with stable nocore typeclass_instances | apply stable_framed; steps]
  end.
Ltac stable := repeat stable_step.

Section accounting.
Context `{!Accounting P}.
Implicit Types (x : list Stored) (e : option N).

Lemma triple_framed_bind {E A B} x e Post (m : M World E A) (k : A → M World E B) :
  framed x m → (∀ a, triple (P x e) (k a) Post (P x e)) → triple (P x e) (bind m k) Post (P x e).
Proof. intros Hm Hk. eapply triple_bind; [by apply triple_framed|done]. Qed.
Lemma triple_stable_bind {E A B} x e Post (m : M World E A) (k : A → M World E B) :
  stable P m → (∀ a, triple (P x e) (k a) Post (P x e)) → triple (P x e) (bind m k) Post (P x e).
Proof. intros Hm Hk. eapply triple_bind; [apply Hm|done]. Qed.
(** A framed action keeps what is known of an actor. *)
Lemma triple_framed_actor {E A B} x e Post r a (m : M World E A) (k : A → M World E B) :
  framed x m → (∀ b, triple (λ w, find_ref w r = inr a ∧ P x e w) (k b) Post (P x e)) →
  triple (λ w, find_ref w r = inr a ∧ P x e w) (bind m k) Post (P x e).
Proof.
  intros Hm Hk w [Hr Hw]. specialize (Hm w). pose proof (frame_find_ref _ _ _ r Hm) as Hr'.
  pose proof (ac_frame _ _ _ _ Hm Hw) as Hw'. unfold bind. destruct (m w) as [[b|e'|] w']; simpl in *; [|done..].
  apply Hk. by rewrite Hr'.
Qed.

Lemma stable_update_slot slot f : (∀ a, evolves a (f a)) → stable P (update_slot slot f).
Proof. apply stable_slot. Qed.
Lemma stable_update_ref r f : (∀ a, evolves a (f a)) → stable P (update_ref r f).
Proof.
  intros Hf. apply stable_bind; [apply stable_framed; steps|]. intros _. by apply stable_slot.
Qed.
(** Updating the actor that was just looked up. *)
Lemma triple_update_actor x e r a f :
  evolves a (f a) →
  triple (λ w, find_ref w r = inr a ∧ P x e w) (update_slot (ar_slot r) f) (λ _, P x e) (P x e).
Proof.
  intros Hf w [Hr Hw]. unfold update_slot, modify. apply ac_update; [|done].
  intros a' Ha'. rewrite (find_ref_actor _ _ _ Hr) in Ha'. by simplify_eq.
Qed.

(** ** Admission *)
Lemma stable_remove_deadline slot deadline : stable P (remove_deadline slot deadline).
Proof.
  unfold remove_deadline. apply stable_bind; [apply stable_framed; steps|]. intros w.
  apply stable_bind; [apply stable_framed; steps|]. intros a.
  apply stable_bind; [apply stable_framed; steps|]. intros counts.
  apply stable_update_slot. intros a'. evolves.
Qed.
Lemma triple_next_event x :
  triple (P x None) next_event_id (λ id, P x (Some id)) (P x None).
Proof.
  intros w Hw. unfold next_event_id. unfold bind, get. unfold checked_add.
  case_decide; simpl; [|done]. unfold modify, ret. replace (w_next_event w + 1)%N with (N.succ (w_next_event w)) by lia.
  by apply (ac_event x w).
Qed.
Lemma triple_admit x r s sub completion operation :
  triple (P (s :: x) None) (admit_event r s sub completion operation) (λ _, P (s :: x) None) (P (s :: x) None).
Proof.
  unfold admit_event. do 3 (apply triple_framed_bind; [steps|intros ?]).
  eapply triple_bind; [apply triple_next_event|]. intros id.
  apply triple_get. intros w Hw.
  assert (∀ w', w' = w → P (s :: x) None w') as HQ by (intros ? ->; by eapply ac_forget).
  apply triple_read; [done|done|]. intros envelope.
  set (env := match operation with Some _ => _ | None => _ end). clearbody env.
  apply triple_read; [done|done|]. intros execution.
  apply triple_check_ref; [done|]. intros act.
  assert (∀ w', find_ref w' r = inr act ∧ w' = w → P (s :: x) None w') as HQ' by (intros ? [_ ->]; by eapply ac_forget).
  apply triple_reject; [done|]. intros _. apply triple_reject; [done|]. intros _.
  apply triple_reject; [done|]. intros Hroom. rewrite orb_false_iff in Hroom.
  cbv zeta. eapply (triple_bind _ (λ _, P (s :: x) None)).
  - intros w' [Ha ->]. unfold update_slot, modify. eapply ac_enqueue; [by apply find_ref_actor| |exact Hw].
    destruct Hroom. split; try reflexivity; [lia..|]. unfold queue_view. simpl. by rewrite fmap_app.
  - intros _. apply triple_framed. steps.
Qed.
Lemma triple_reserve {B} (Pre Q : World → Prop) Post n (k : unit → WM B) :
  (∀ w, Pre w → Q w) →
  (∀ w, Pre w → (n ≤ native_payload_budget (w_cfg w) - retained_bytes w)%N → triple (λ w', w' = w) (k tt) Post Q) →
  triple Pre (bind (reserve_bytes n) k) Post Q.
Proof.
  intros HQ Hk w Hw. unfold reserve_bytes, saturating_sub, bind, get, reject_if.
  destruct (_ <? n)%N eqn:Hn; simpl; [by apply HQ|]. apply (Hk w); [done|lia|done].
Qed.
Lemma triple_make_stored p options dispatcher e :
  triple (P [] e) (make_stored_with p options dispatcher) (λ s, P [s] e) (P [] e).
Proof.
  unfold make_stored_with. apply triple_get. intros w Hw.
  assert (∀ w', w' = w → P [] e w') as HQ by (by intros ? ->).
  do 3 (apply triple_reject; [done|intros _]).
  apply triple_ok_or; [done|]. intros n _. apply triple_reject; [done|]. intros _.
  apply triple_reserve; [done|]. intros ? -> Hn w' ->. by apply ac_store.
Qed.
Lemma ac_drop_list x y e w : P (x ++ y) e w → P y e w.
Proof. induction x as [|s x IH]; [done|]. intros Hw. by eapply IH, ac_drop. Qed.
Lemma ac_drop_all x e w : P x e w → P [] e w.
Proof. rewrite <- (app_nil_r x) at 1. apply ac_drop_list. Qed.
(** With a payload held only for the rest of the computation. *)
Lemma triple_drop {A} x s e (m : WM A) :
  triple (P (s :: x) e) m (λ _, P (s :: x) e) (P (s :: x) e) →
  triple (P (s :: x) e) m (λ _, P x e) (P x e).
Proof.
  intros Hm w Hw. specialize (Hm w Hw). destruct (m w) as [[a|e'|] w']; [by eapply ac_drop..|done].
Qed.

(** ** Publications *)
Lemma triple_drop_ticket {A} x e ticket (m : WM A) :
  triple (P x e) m (λ _, P x e) (P x e) →
  triple (P x e) (drop_ticket_on_error ticket m) (λ _, P x e) (P x e).
Proof.
  intros Hm. unfold drop_ticket_on_error. eapply (triple_bind _ (λ _, P x e)).
  - apply triple_try. eapply triple_conseq; [apply Hm|done|done|by intros].
  - intros []; apply triple_framed; steps.
Qed.
Lemma triple_stage x e source options port s ticket :
  triple (P (s :: x) e) (
    let! w := get in
    let! actor := check_ref source in
    reject_if ((mailbox_capacity (w_cfg w) <=? N.of_nat (length (a_staged actor)))%N ||
               (saturating_sub (mailbox_bytes (w_cfg w)) (a_staged_bytes actor) <? stored_bytes s)%N)
      Error.QueueFull ;;;
    let deadlines := ActorDeadlines.add (mo_deadline options) (a_deadlines actor) in
    let! port := expect port in
    update_slot (ar_slot source) (λ a,
      a <| a_staged_bytes ::= λ n, (n + stored_bytes s)%N |>
        <| a_deadlines := deadlines |>
        <| a_staged ::= λ l, l ++ [(port, s, ticket)] |>) ;;;
    modify (λ w, w <| w_event_deadlines ::= DeadlineIdx.set source (ActorDeadlines.first deadlines) |>
                   <| w_staged_actors ::= <[ar_slot source := source]> |>))
    (λ _, P (s :: x) e) (P (s :: x) e).
Proof.
  apply triple_get. intros w Hw. apply triple_check_ref; [by intros ? ->|]. intros act.
  apply triple_reject; [by intros ? [_ ->]|]. intros Hroom. rewrite orb_false_iff in Hroom. destruct Hroom.
  cbv zeta. apply triple_expect. intros i _. eapply (triple_bind _ (λ _, P (s :: x) e)).
  - intros w' [Ha ->]. unfold update_slot, modify. eapply ac_stage; [by eapply find_ref_actor| |exact Hw].
    unfold saturating_sub in *. split; try reflexivity; [lia..|]. unfold staged_view. simpl. by rewrite fmap_app.
  - intros _. apply triple_framed. steps.
Qed.
Lemma triple_submit e source port p options completion :
  triple (P [] e) (submit_publication source port p options completion) (λ _, P [] e) (P [] e).
Proof.
  unfold submit_publication. do 2 (apply triple_framed_bind; [steps|intros ?]).
  apply triple_drop_ticket. eapply triple_bind; [apply triple_make_stored|]. intros s.
  apply triple_drop. eapply (triple_bind _ (λ _, P [s] e)).
  - destruct (bool_decide _); [apply triple_stage|apply triple_framed; steps].
  - intros _. apply triple_framed. steps. apply framed_publications, pub_insert. simpl. set_solver.
Qed.

(** ** Routing *)
Lemma returns_prepare p : returns (route_prepare p) (λ r, pub_stored r.1 = pub_stored p).
Proof.
  unfold route_prepare. apply returns_bind. intros execution. destruct (negb _); [by apply returns_ret|].
  apply returns_bind. intros t. destruct (deadline_passed _ _); [by apply returns_ret|].
  destruct (pub_routes p); [by apply returns_ret|]. apply returns_bind. intros w.
  do 2 (case_match; [by apply returns_ret|]). apply returns_bind. intros routes.
  apply (returns_bind_with _ _ (λ p', pub_stored p' = pub_stored p)).
  - apply returns_publications. unfold Publications.capture. apply returns_bind. intros _. by apply returns_ret.
  - intros p' Hp. by apply returns_ret.
Qed.
Lemma returns_targets batch routes : ∀ p n, returns (route_targets batch routes p n) (λ r, pub_stored r.1.1 = pub_stored p).
Proof.
  induction routes as [|[route target] routes IH]; intros p n; cbn [route_targets]; [by apply returns_ret|].
  case_match; [by apply returns_ret|]. apply returns_bind. intros t. case_match; [by apply returns_ret|].
  cbv zeta. apply returns_bind. intros []; [apply returns_bind; intros _|]; exact (IH _ _).
Qed.
Lemma triple_route_one x p route target :
  triple (P (pub_stored p :: x) None) (route_one p route target)
    (λ _, P (pub_stored p :: x) None) (P (pub_stored p :: x) None).
Proof.
  unfold route_one. do 7 (apply triple_framed_bind; [steps|intros ?]). apply triple_admit.
Qed.
Lemma triple_route_targets x s batch routes : ∀ p n, pub_stored p = s →
  triple (P (s :: x) None) (route_targets batch routes p n) (λ _, P (s :: x) None) (P (s :: x) None).
Proof.
  induction routes as [|[route target] routes IH]; intros p n <-; cbn [route_targets]; [by apply triple_ret|].
  case_match; [by apply triple_ret|]. apply triple_framed_bind; [steps|]. intros t.
  case_match; [by apply triple_ret|]. cbv zeta. eapply (triple_bind _ (λ _, P (pub_stored p :: x) None)).
  - apply triple_try. eapply triple_conseq; [apply (triple_route_one x (p <| pub_cursor ::= N.succ |>))|done|done|by intros].
  - intros []; [apply triple_framed_bind; [steps|intros _]|]; by apply IH.
Qed.
Lemma pop_ready_stored p t t' : Publications.pop_ready t = (Ok (Some p), t') → pub_stored p ∈ pubs_stored t.
Proof.
  unfold Publications.pop_ready, Publications.take_entry, bind, get, modify, expect, ret, panic.
  repeat case_match; intros [= <- _]; simplify_eq/=. apply elem_of_pubs_stored.
  repeat case_match; simplify_eq/=. eauto.
Qed.
(** A publication popped from the table is held until it goes back or ends. *)
Lemma triple_pop_ready {B} x Post (k : option Publication → WM B) :
  (∀ p, triple (P (pub_stored p :: x) None) (k (Some p)) Post (P x None)) →
  triple (P x None) (k None) Post (P x None) →
  triple (P x None) (bind (publications Publications.pop_ready) k) Post (P x None).
Proof.
  intros Hs Hn w Hw. unfold bind. pose proof (framed_publications x _ (pub_pop_ready x) w) as Hf.
  pose proof (pop_ready_stored) as Hp. unfold publications, zoom in *.
  destruct (Publications.pop_ready (w_publications w)) as [[[p|]|e|] t] eqn:Hpop; simpl in *.
  - apply Hs. eapply ac_frame; [eapply frame_weaken; [|apply Hf]; set_solver|]. apply ac_dup; [|done].
    apply shelf_reachable, shelf_elem. left. eauto.
  - apply Hn. by eapply ac_frame.
  - by eapply ac_frame.
  - done.
Qed.
Lemma triple_route_batch : triple (P [] None) route_batch_locked (λ _, P [] None) (P [] None).
Proof.
  unfold route_batch_locked. apply triple_pop_ready; [|apply triple_framed; steps]. intros p.
  apply triple_drop. set (s := pub_stored p).
  eapply (triple_bind _ (λ r w, pub_stored r.1 = s ∧ P [s] None w)).
  { apply triple_returns; [apply returns_prepare|]. apply triple_framed. steps. }
  intros [p1 outcome]. apply triple_pure. cbn [fst]. intros Hp1. apply triple_framed_bind; [steps|]. intros w.
  eapply (triple_bind _ (λ r w, pub_stored r.1.1 = s ∧ P [s] None w)).
  { apply triple_returns.
    - destruct outcome; [by apply returns_ret|]. apply returns_bind. intros routes.
      eapply returns_bind_with; [apply returns_targets|]. intros [[p2 ?] ?] Hp2. apply returns_ret. simpl in *. congruence.
    - destruct outcome; [by apply triple_ret|]. apply triple_framed_bind; [steps|]. intros routes.
      eapply triple_bind; [by apply triple_route_targets|]. intros [[]]. by apply triple_ret. }
  intros [[p2 n] outcome']. apply triple_pure. cbn [fst]. intros Hp2. apply triple_framed. steps.
  apply framed_publications, pub_put_back. set_solver.
Qed.

(** ** Expiry of queued and staged events *)
(** A fact about the actor in a slot, beside a property of the World. *)
Definition with_actor slot (φ : Actor → Prop) (Q : World → Prop) (w : World) : Prop :=
  ∃ a, actor_at w slot = Some a ∧ φ a ∧ Q w.
Definition frame_closed x (Q : World → Prop) : Prop := ∀ w w', frame x w w' → Q w → Q w'.
Lemma triple_closed {E A} x Q (m : M World E A) : frame_closed x Q → framed x m → triple Q m (λ _, Q) Q.
Proof.
  intros HQ Hm w Hw. assert (Q (m w).2) as H by (eapply HQ; [apply Hm|done]).
  by destruct (m w) as [[a|e'|] w'].
Qed.
Lemma closed_with_actor x e slot φ : frame_closed x (with_actor slot φ (P x e)).
Proof.
  intros w w' Hf (a & Ha & Hφ & Hw). exists a. rewrite (frame_actor_at _ _ _ slot Hf). split_and!; [done..|].
  by eapply ac_frame.
Qed.
Lemma triple_with_actor_deadline Q slot φ deadline :
  (∀ a d, φ a → φ (a <| a_deadlines := d |>)) →
  (∀ w d, with_actor slot φ Q w → Q (set_slot slot (λ a, a <| a_deadlines := d |>) w)) →
  triple (with_actor slot φ Q) (remove_deadline slot deadline) (λ _, with_actor slot φ Q) (with_actor slot φ Q).
Proof.
  intros Hφ HQ w Hw. pose proof (λ d, HQ w d Hw) as HQ'. destruct Hw as (a & Ha & Hφa & Hw).
  unfold remove_deadline, bind, get. rewrite Ha. simpl.
  destruct (ActorDeadlines.remove _ _) as [counts|]; simpl; [|done].
  exists (a <| a_deadlines := counts |>). rewrite actor_at_set_slot, Ha. auto.
Qed.

(** While the queue is taken, the invariant is that of the World with the
    queue back in place. *)
Definition restore slot queue (w : World) : World := set_slot slot (λ a, a <| a_queue := queue |>) w.
Definition hollow slot queue x e : World → Prop :=
  with_actor slot (λ a, a_queue a = []) (λ w, P x e (restore slot queue w)).
Lemma elem_of_actor_stored w s :
  s ∈ (omap id (w_actors w) ≫= actor_stored) ↔ ∃ slot a, actor_at w slot = Some a ∧ s ∈ actor_stored a.
Proof.
  rewrite list_elem_of_bind. split.
  - intros (a & Ha & Hin). apply list_elem_of_omap in Hin as (o & Ho & Hoa).
    destruct o as [b|]; simplify_eq/=. apply list_elem_of_lookup in Ho as [i Hi].
    exists (N.of_nat i), a. unfold actor_at. by rewrite Nat2N.id, Hi.
  - intros (slot & a & Ha & Hin). exists a. split; [done|]. apply list_elem_of_omap. exists (Some a).
    unfold actor_at in Ha. repeat case_match; simplify_eq. split; [|done]. by eapply list_elem_of_lookup_2.
Qed.
Lemma actor_at_set_slot_ne slot slot' f w : slot ≠ slot' → actor_at (set_slot slot f w) slot' = actor_at w slot'.
Proof. intros ?. unfold actor_at, set_slot. cbn. by rewrite list_lookup_alter_ne by lia. Qed.
Lemma reachable_restore slot queue w a s :
  actor_at w slot = Some a → a_queue a = [] → s ∈ reachable w → s ∈ reachable (restore slot queue w).
Proof.
  intros Ha Hq. rewrite !reachable_split, !elem_of_app. intros [Hs|Hs]; [left|by right].
  apply elem_of_actor_stored in Hs as (slot' & b & Hb & Hs). apply elem_of_actor_stored.
  destruct (decide (slot = slot')) as [<-|Hne].
  - exists slot, (a <| a_queue := queue |>). unfold restore. rewrite actor_at_set_slot, Ha. split; [done|].
    simplify_eq. unfold actor_stored in *. rewrite Hq in Hs. simpl in *. rewrite elem_of_app. by right.
  - exists slot', b. unfold restore. by rewrite actor_at_set_slot_ne.
Qed.
Lemma closed_hollow slot queue x e : frame_closed x (hollow slot queue x e).
Proof.
  intros w w' Hf (a & Ha & Hq & Hw). exists a. rewrite (frame_actor_at _ _ _ slot Hf). split_and!; [done..|].
  eapply ac_frame; [|done]. destruct Hf. split; try done.
  - unfold restore, set_slot. cbn. by rewrite fr_actors.
  - intros s Hs. destruct (fr_shelf s Hs) as [?|Hr]; [by left|]. right. by eapply reachable_restore.
Qed.
Lemma hollow_deadline slot queue x e deadline :
  triple (hollow slot queue x e) (remove_deadline slot deadline) (λ _, hollow slot queue x e) (hollow slot queue x e).
Proof.
  apply triple_with_actor_deadline; [done|]. intros w d (a & Ha & Hq & Hw). unfold restore in *.
  rewrite set_slot_compose. rewrite (set_slot_ext _ _ (λ a, (a <| a_queue := queue |>) <| a_deadlines := d |>)) by done.
  rewrite <- (set_slot_compose slot (λ a, a <| a_deadlines := d |>)). apply ac_update; [|done].
  intros b _. evolves.
Qed.

Definition staged_is (a0 a : Actor) : Prop := a_staged a = a_staged a0 ∧ a_staged_bytes a = a_staged_bytes a0.
Lemma staged_deadlines slot a0 x e l :
  triple (with_actor slot (staged_is a0) (P x e))
    (for_each (λ e : N * Stored * N, remove_deadline slot (mo_deadline (stored_options e.1.2))) l)
    (λ _, with_actor slot (staged_is a0) (P x e)) (with_actor slot (staged_is a0) (P x e)).
Proof.
  apply triple_for_each. intros entry _. apply triple_with_actor_deadline; [done|].
  intros w d (a & Ha & Hs & Hw). apply ac_update; [|done]. intros b _. evolves.
Qed.
Lemma errless_remove_deadline slot deadline : errless (remove_deadline slot deadline).
Proof. unfold remove_deadline, update_slot. errless. Qed.
Lemma errless_expire_delivery d now : errless (expire_delivery d now).
Proof. unfold expire_delivery, expire_and_count, diagnostic, count, with_history. errless. Qed.
#[local] Hint Resolve errless_remove_deadline errless_expire_delivery : errless.
(** The queue of [a0] is taken, then the due deliveries expire. *)
Lemma take_queue slot x e a0 Q :
  triple (λ w, actor_at w slot = Some a0 ∧ P x e w) (update_slot slot (λ a, a <| a_queue := [] |>))
    (λ _, hollow slot (a_queue a0) x e) Q.
Proof.
  intros w [Ha Hw]. unfold update_slot, modify. exists (a0 <| a_queue := [] |>). rewrite actor_at_set_slot, Ha.
  split_and!; [done..|]. unfold restore. rewrite set_slot_compose. apply ac_update; [|done].
  intros b Hb. rewrite Ha in Hb. injection Hb as <-. evolves.
Qed.
Lemma expire_taken now slot queue x e l Q :
  triple (hollow slot queue x e)
    (for_each (λ d, if delivery_due now d
                    then remove_deadline slot (env_deadline (d_envelope d)) ;;; expire_delivery d now
                    else ret tt) l)
    (λ _, hollow slot queue x e) Q.
Proof.
  eapply triple_errless; [errless|]. { apply errless_for_each. intros d. errless. }
  apply triple_for_each. intros d _. destruct (delivery_due now d); [|by apply triple_ret].
  eapply triple_bind; [apply hollow_deadline|]. intros ?. eapply triple_closed; [apply closed_hollow|]. steps.
Qed.
Lemma hollow_fill slot queue x e w a queue' bytes :
  actor_at w slot = Some a → queue' `sublist_of` queue →
  (bytes + sum_by (λ d, stored_bytes (d_payload d)) queue =
     a_queue_bytes a + sum_by (λ d, stored_bytes (d_payload d)) queue')%N →
  hollow slot queue x e w → P x e (set_slot slot (λ a, a <| a_queue := queue' |> <| a_queue_bytes := bytes |>) w).
Proof.
  intros Ha Hq Hb (a' & Ha' & _ & Hw). rewrite Ha in Ha'. injection Ha' as <-. unfold restore in Hw.
  rewrite (set_slot_ext _ _ (λ a, (a <| a_queue := queue |>) <| a_queue := queue' |> <| a_queue_bytes := bytes |>)) by done.
  rewrite <- (set_slot_compose slot (λ a, a <| a_queue := queue' |> <| a_queue_bytes := bytes |>)).
  apply ac_update; [|done]. intros b. rewrite actor_at_set_slot, Ha. intros [= <-]. by apply evolves_dequeue.
Qed.
Lemma stable_expire_owner now owner : stable P (expire_owner now owner).
Proof.
  intros x e. unfold expire_owner. apply triple_get. intros w0 Hw0.
  destruct (find_ref w0 owner) as [|a0] eqn:Hr; [apply triple_panic_bind|]. apply triple_ret_bind. cbv zeta.
  set (slot := ar_slot owner).
  eapply (triple_bind _ (λ _, hollow slot (a_queue a0) x e)).
  { eapply triple_conseq; [apply (take_queue slot x e a0 (P x e))|intros w ->; split; [by apply find_ref_actor|done]|done..]. }
  intros _. eapply (triple_bind _ (λ _, hollow slot (a_queue a0) x e)); [apply expire_taken|]. intros _.
  apply triple_get. intros w1 Hw1. apply triple_expect. intros a1 Ha1. apply triple_expect. intros bytes Hbytes.
  apply checked_sub_Some in Hbytes. eapply (triple_bind _ (λ _, with_actor slot (staged_is a1) (P x e))).
  { intros w ->. unfold update_slot, modify. exists (a1 <| a_queue := filter (λ d, delivery_due now d = false) (a_queue a0) |> <| a_queue_bytes := bytes |>).
    rewrite actor_at_set_slot, Ha1. split_and!; [done..|]. eapply hollow_fill; [done|apply sublist_of_filter| |done].
    rewrite <- (sum_by_split _ (delivery_due now)). lia. }
  intros _. eapply (triple_bind _ (λ _, with_actor slot (staged_is a1) (P x e))).
  { eapply triple_errless; [|apply staged_deadlines]. apply errless_for_each. intros. errless. }
  intros _. apply triple_expect. intros staged_bytes Hstaged. apply checked_sub_Some in Hstaged.
  eapply (triple_bind _ (λ _, P x e)).
  { intros w (a & Ha & [Hs Hsb] & Hw). unfold update_slot, modify. apply ac_update; [|done].
    intros b Hb. rewrite Ha in Hb. injection Hb as <-. apply evolves_unstage; rewrite Hs; [apply sublist_of_filter|].
    rewrite <- (sum_by_split _ (staged_due now)), Hsb. lia. }
  intros _. apply triple_framed. steps.
Qed.
#[local] Hint Resolve stable_remove_deadline stable_expire_owner : stable.
Lemma stable_expire_events now : stable P (expire_events now).
Proof. unfold expire_events. stable. Qed.
Lemma stable_clear_staged slot : stable P (update_slot slot (λ a, a <| a_staged := [] |> <| a_staged_bytes := 0%N |>)).
Proof.
  apply stable_update_slot. intros a. split; try done; [by left|apply sublist_nil_l|by right].
Qed.
#[local] Hint Resolve stable_expire_events stable_clear_staged : stable.
Lemma stable_flush_source source : stable P (flush_source source).
Proof. unfold flush_source. stable. Qed.
#[local] Hint Resolve stable_flush_source : stable.
Lemma stable_flush_staged : stable P flush_staged.
Proof. unfold flush_staged. stable. Qed.
#[local] Hint Resolve stable_flush_staged : stable.
End accounting.
#[export] Hint Resolve stable_remove_deadline stable_expire_events stable_clear_staged stable_flush_staged : stable.
