(* ===== verification/ActorSteps.v ===== *)
(** * Actors, against the accounting interface

    Allocation, activation, finalisation, the stop fence and draining keep every
    [Accounting] invariant. *)
From S2P Require Import Prelude Collections Text Types Metadata Schema Routing Expiry Readiness Operations.
From S2P Require Import Diagnostics Publications SchemaRegistry Activity WorldState Admission Publishing Actors.
From S2P Require Import Messaging Steps WorldFrames WorldSteps.

Section accounting.
Context `{!Accounting P}.
Implicit Types (x : list Stored) (e : option N).

(** ** Allocation *)
Definition starting (r : ActorRef) (w : World) : Prop :=
  ∃ a, find_ref w r = inr a ∧ a_state a = Lifecycle.Starting.
Lemma starting_frame x r w w' : frame x w w' → starting r w → starting r w'.
Proof. intros Hf (a & Ha & Hs). exists a. by rewrite (frame_find_ref _ _ _ r Hf). Qed.
Lemma starting_set_slot r w slot f :
  (∀ a, a_reference (f a) = a_reference a ∧ a_state (f a) = a_state a) → starting r w → starting r (set_slot slot f w).
Proof.
  intros Hf (a & Ha & Hs). unfold starting, find_ref in *. change (w_id (set_slot slot f w)) with (w_id w).
  case_bool_decide; [done|]. destruct (decide (slot = ar_slot r)) as [->|Hne].
  - rewrite actor_at_set_slot. destruct (actor_at w (ar_slot r)) as [b|]; [|done]. simpl.
    destruct (Hf b) as [Hr Hst]. rewrite Hr. case_bool_decide; [done|]. injection Ha as <-. exists (f b). by rewrite Hst.
  - rewrite actor_at_set_slot_ne by done. destruct (actor_at w (ar_slot r)); [|done]. eauto.
Qed.
Lemma closed_starting x e r : frame_closed x (λ w, starting r w ∧ P x e w).
Proof. intros w w' Hf [Hs Hw]. split; [by eapply starting_frame|by eapply ac_frame]. Qed.
Lemma triple_starting {A} x e r (m : WM A) :
  framed x m → triple (λ w, starting r w ∧ P x e w) m (λ _ w, starting r w ∧ P x e w) (P x e).
Proof.
  intros Hm w Hw. pose proof (triple_closed x _ m (closed_starting x e r) Hm w Hw) as H.
  by destruct (m w) as [[a|err|] w']; [|destruct H|].
Qed.
(** What follows the installation of the new actor. *)
Lemma triple_attach x e w parent r order :
  P x e (w <| w_live_actors ::= N.succ |> <| w_next_ready_order := order |>) → (∀ p, parent = Some p → ∃ a, find_ref w p = inr a) → starting r w →
  triple (λ w', w' = w) (
    match parent with
    | Some p => update_ref p (λ a, a <| a_children ::= λ l, l ++ [r] |>)
    | None => ret tt
    end ;;;
    modify (λ w, w <| w_live_actors ::= N.succ |> <| w_next_ready_order := order |>) ;;;
    refresh_python_ready r ;;;
    mark_activity_dependents r ;;;
    ret r) (λ r w, starting r w ∧ P x e w) (P x e).
Proof.
  intros Hw Hp Hr. eapply (triple_bind _ (λ _ w, starting r w ∧ P x e (w <| w_live_actors ::= N.succ |> <| w_next_ready_order := order |>))).
  - destruct parent as [p|]; [|by intros w' ->]. intros w' ->. destruct (Hp p eq_refl) as [a Ha].
    unfold update_ref, check_ref, bind, modify. rewrite Ha. split; [by apply starting_set_slot|].
    change (P x e (set_slot (ar_slot p) (λ a, a <| a_children ::= λ l, l ++ [r] |>) (w <| w_live_actors ::= N.succ |> <| w_next_ready_order := order |>))).
    apply ac_update; [|done]. intros b _. evolves.
  - intros _. eapply (triple_bind _ (λ _ w, starting r w ∧ P x e w)).
    + by intros w' [Hs Hw'].
    + intros _. eapply triple_bind; [apply triple_starting; steps|intros ?].
      eapply triple_bind; [apply triple_starting; steps|intros ?]. by apply triple_ret.
Qed.
Lemma find_ref_free w p slot a b :
  find_ref w p = inr a → starting_or_active (a_state a) = true →
  actor_at w slot = Some b → a_state b = Lifecycle.Stopped → ar_slot p ≠ slot.
Proof.
  intros Ha Hs Hb Hst <-. rewrite (find_ref_actor _ _ _ Ha) in Hb. injection Hb as <-. by rewrite Hst in Hs.
Qed.

Lemma find_ref_actor_at w w' p a :
  w_id w' = w_id w → actor_at w' (ar_slot p) = actor_at w (ar_slot p) → find_ref w p = inr a → find_ref w' p = inr a.
Proof. intros Hid Hat. unfold find_ref. by rewrite Hid, Hat. Qed.
Lemma actor_at_length w slot a : actor_at w slot = Some a → N.to_nat slot < length (w_actors w).
Proof. unfold actor_at. intros Ha. apply lookup_lt_is_Some. by destruct (w_actors w !! _). Qed.
Lemma triple_place x e w parent kind :
  P x e w → attachable w parent → (w_live_actors w < max_actors (w_cfg w))%N →
  triple (λ w', w' = w) (
    let! next_ready_order := ok_or Error.LimitExceeded (checked_add u64_max (w_next_ready_order w) 1) in
    let! slot := pop_free in
    let! generation :=
      match actor_at w slot with
      | Some a => expect (checked_add u64_max (ar_generation (a_reference a)) 1)
      | None => ret 1%N
      end in
    let r := MkActorRef (w_id w) slot generation in
    install slot (new_actor r (w_next_ready_order w) kind parent) ;;;
    match parent with
    | Some p => update_ref p (λ a, a <| a_children ::= λ l, l ++ [r] |>)
    | None => ret tt
    end ;;;
    modify (λ w, w <| w_live_actors ::= N.succ |> <| w_next_ready_order := next_ready_order |>) ;;;
    refresh_python_ready r ;;;
    mark_activity_dependents r ;;;
    ret r) (λ r w, starting r w ∧ P x e w) (P x e).
Proof.
  intros Hw Hparent Hlive. apply triple_ok_or; [by intros ? ->|]. intros order Horder.
  assert (order = N.succ (w_next_ready_order w)) as -> by (unfold checked_add in Horder; case_decide; simplify_eq; lia).
  intros w' ->. pose proof (ac_slots _ _ _ Hw) as Hwf. unfold pop_free, bind at 1. unfold bind at 1, get.
  destruct (w_free w) as [|slot free] eqn:Hfree.
  - unfold ret at 1. pose proof (sw_length _ Hwf). pose proof (sw_max _ Hwf). unfold u32_max in *.
    rewrite (N.mod_small (N.of_nat (length (w_actors w)))) by lia.
    set (slot := N.of_nat (length (w_actors w))).
    assert (actor_at w slot = None) as Hat.
    { unfold actor_at, slot. rewrite Nat2N.id, lookup_ge_None_2; [done|lia]. }
    rewrite Hat. unfold bind at 1, ret at 1. cbv zeta. unfold install. unfold bind at 1. unfold bind at 1, get.
    rewrite bool_decide_true by (unfold slot; lia). unfold modify at 1.
    refine (triple_attach x e _ parent _ _ _ _ _ _ eq_refl).
    + by apply (ac_push x e w slot (MkActorRef (w_id w) slot 1) kind parent).
    + intros p ->. destruct Hparent as (a & Ha & Hs). exists a. apply (find_ref_actor_at w); [done| |done].
      unfold actor_at at 1. cbn. rewrite lookup_app_l; [done|]. apply (actor_at_length _ _ a). by apply find_ref_actor.
    + exists (new_actor (MkActorRef (w_id w) slot 1) (w_next_ready_order w) kind parent). split; [|done].
      unfold find_ref, actor_at. cbn. rewrite bool_decide_false by auto. unfold slot.
      rewrite Nat2N.id, list_lookup_middle by done. by rewrite bool_decide_false by auto.
  - destruct (proj1 (sw_free _ Hwf slot)) as (old & Hold & Hstopped); [rewrite Hfree; set_solver|].
    unfold bind at 1, modify, ret at 1. rewrite Hold. unfold bind at 1.
    unfold checked_add. case_decide as Hgen; [|done]. unfold expect, ret at 1. cbv zeta.
    pose proof (actor_at_length _ _ _ Hold) as Hslot.
    unfold install. unfold bind at 1. unfold bind at 1, get. cbn [w_actors set_field].
    rewrite bool_decide_false, bool_decide_true by (cbn; lia). unfold modify at 1.
    refine (triple_attach x e _ parent _ _ _ _ _ _ eq_refl).
    + by apply (ac_reuse x e w slot free old).
    + intros p ->. destruct Hparent as (a & Ha & Hs). exists a. apply (find_ref_actor_at w); [done| |done].
      unfold actor_at. cbn. rewrite list_lookup_insert_ne; [done|].
      pose proof (find_ref_free w p slot a old Ha Hs Hold Hstopped). lia.
    + exists (new_actor (MkActorRef (w_id w) slot (ar_generation (a_reference old) + 1)) (w_next_ready_order w) kind parent).
      split; [|done]. unfold find_ref, actor_at. cbn. rewrite bool_decide_false by auto.
      rewrite list_lookup_insert_eq by done. by rewrite bool_decide_false by auto.
Qed.
Lemma triple_allocate_locked x e kind parent :
  triple (P x e) (allocate_locked kind parent) (λ r w, starting r w ∧ P x e w) (P x e).
Proof.
  unfold allocate_locked. apply triple_get. intros w Hw.
  apply triple_reject; [by intros ? ->|]. intros Hlive. apply N.leb_gt in Hlive.
  eapply (triple_bind _ (λ _ w', attachable w parent ∧ w' = w)).
  - destruct parent as [p|]; [|by apply triple_ret].
    apply triple_check_ref; [by intros ? ->|]. intros pa. apply triple_reject; [by intros ? [_ ->]|]. intros Hs.
    intros w' [Ha ->]. unfold of_outcome. destruct (depth_check _ _ _); [|done..]. split; [|done].
    exists pa. split; [done|]. by apply negb_false_iff.
  - intros _. apply triple_pure. intros Hparent. by apply triple_place.
Qed.
Lemma stable_allocate_locked kind parent : stable P (allocate_locked kind parent).
Proof. intros x e. eapply triple_conseq; [apply triple_allocate_locked|done|by intros ? ? []|done]. Qed.
Lemma stable_with_activity {A} (m : WM A) : stable P m → stable P (with_activity m).
Proof.
  intros Hm x e w Hw. specialize (Hm x e w Hw). unfold with_activity.
  destruct (m w) as [[a|err|] w']; [| |done]; (eapply ac_frame; [apply framed_touch|done]).
Qed.
Lemma stable_allocate kind parent : stable P (allocate kind parent).
Proof. apply stable_with_activity. stable. apply stable_allocate_locked. Qed.

(** ** Activation *)
Lemma evolves_state a l :
  (rank (a_state a) ≤ rank l)%N → (l = Lifecycle.Stopped ↔ a_state a = Lifecycle.Stopped) →
  evolves a (a <| a_state := l |>).
Proof. intros Hr Hs. split; try done; by left. Qed.
Lemma stable_activate r : stable P (activate r).
Proof.
  unfold activate. intros x e. do 2 (apply triple_framed_bind; [steps|intros ?]).
  apply triple_check_ref; [done|]. intros b. apply triple_reject; [by intros w [_ ?]|]. intros Hs.
  apply negb_false_iff, bool_decide_eq_true in Hs.
  eapply triple_bind; [apply triple_update_actor, evolves_state; rewrite Hs; [done|by split]|].
  intros ?. revert x e. change (stable P (refresh_python_subtree r ;;; mark_activity_tree r ;;; flush_staged ;;; touch_activity)).
  stable.
Qed.

(** ** Finalisation *)
Lemma errless_retire_owner r : errless (operations (Operations.retire_owner r)).
Proof.
  apply errless_zoom. unfold Operations.retire_owner. errless.
  generalize (btree_elems (idx_get r (ot_owner_index a))) as ids.
  induction ids; cbn [Operations.retire_ids]; errless.
Qed.
Lemma errless_refresh r : errless (refresh_python_ready r).
Proof. unfold refresh_python_ready. errless. Qed.
Lemma errless_marking f : errless (marking f).
Proof. intros w e. unfold marking. by destruct (f w _). Qed.
Lemma errless_touch : errless touch_activity.
Proof. unfold touch_activity, wake_routing. errless. Qed.
(** The bookkeeping of a retirement, done one field at a time. *)
Definition retired (live : bool) (slot : N) (w : World) : World :=
  (if live then w <| w_live_actors ::= N.pred |> else w) <| w_free ::= cons slot |>.
Lemma closed_retired live slot x e : frame_closed x (λ w, P x e (retired live slot w)).
Proof.
  intros w w' Hf Hw. eapply ac_frame; [|exact Hw]. destruct Hf.
  destruct live; split; try done; cbn; congruence.
Qed.
Lemma triple_retire x e r a (k : unit → WM unit) :
  a_state a = Lifecycle.Stopping → (∀ u, triple (P x e) (k u) (λ _, P x e) (P x e)) →
  triple (λ w, actor_at w (ar_slot r) = Some a ∧ P x e w) (
    update_slot (ar_slot r) (λ a, a <| a_state := Lifecycle.Stopped |>) ;;;
    refresh_python_ready r ;;;
    decr w_live_actors ;;;
    operations (Operations.retire_owner r) ;;;
    let! u := modify (λ w, w <| w_free ::= λ l, ar_slot r :: l |>) in k u) (λ _, P x e) (P x e).
Proof.
  intros Hs Hk. eapply (triple_bind _ (λ _ w, P x e (retired true (ar_slot r) w))).
  { intros w [Ha Hw]. unfold update_slot, modify. exact (ac_retire x e w (ar_slot r) a Ha Hs Hw). }
  intros _. eapply (triple_bind _ (λ _ w, P x e (retired true (ar_slot r) w))).
  { eapply triple_errless; [apply errless_refresh|]. eapply triple_closed; [apply closed_retired|steps]. }
  intros _. eapply (triple_bind _ (λ _ w, P x e (retired false (ar_slot r) w))).
  { intros w Hw. unfold decr. case_decide; [done|]. unfold retired in *. unfold set_field in *.
    cbn in *. by rewrite <- N.sub_1_r in Hw. }
  intros _. eapply (triple_bind _ (λ _ w, P x e (retired false (ar_slot r) w))).
  { eapply triple_errless; [apply errless_retire_owner|]. eapply triple_closed; [apply closed_retired|steps]. }
  intros _. eapply (triple_bind _ (λ _, P x e)); [|exact Hk]. by intros w Hw.
Qed.
Lemma stable_finalize fuel : ∀ r, stable P (finalize fuel r).
Proof.
  induction fuel as [|fuel IH]; intros r x e; cbn [finalize]; [apply triple_panic|].
  do 2 (apply triple_framed_bind; [steps|intros _]). apply triple_get. intros w Hw.
  destruct (actor_at w (ar_slot r)) as [a|] eqn:Ha; [|by apply triple_ret; intros ? ->].
  destruct (negb _) eqn:Hc; [by apply triple_ret; intros ? ->|].
  apply negb_false_iff, andb_prop in Hc as [_ Hfin].
  eapply triple_conseq; [apply (triple_retire x e r a)|by intros ? ->|done..].
  - unfold finalizable in Hfin. rewrite !andb_true_iff in Hfin. destruct Hfin as ((((((Hs & _) & _) & _) & _) & _) & _).
    by apply bool_decide_eq_true in Hs.
  - intros _. destruct (a_parent a) as [p|]; [|by apply triple_ret]. apply triple_get. intros w' Hw'.
    assert (stable P (match actor_at w' (ar_slot p) with
      | Some parent => if bool_decide (a_reference parent = p) then update_slot (ar_slot p) (absorb r a) else ret tt
      | None => ret tt end ;;; finalize fuel p)) as Hm by (stable; apply IH).
    intros ? ->. by apply Hm.
Qed.
Lemma stable_try_finalize r : stable P (try_finalize r).
Proof. intros x e w Hw. by apply stable_finalize. Qed.
#[local] Hint Resolve stable_try_finalize : stable.

(** ** Detachment and the stop fence *)
Lemma stable_detach_service fence service : (∀ r, stable P (fence r)) → stable P (detach_service fence service).
Proof.
  intros Hf. unfold detach_service, detach_one. stable.
Qed.
Lemma stable_discard_notification supervisor source : stable P (discard_notification supervisor source).
Proof. unfold discard_notification, decr_pending_failures. stable. Qed.
#[local] Hint Resolve stable_discard_notification : stable.
Lemma stable_discard_notifications_for supervisor : stable P (discard_notifications_for supervisor).
Proof. unfold discard_notifications_for. stable. Qed.
#[local] Hint Resolve stable_discard_notifications_for : stable.
Lemma evolves_fence a f :
  a_state a ≠ Lifecycle.Stopped →
  evolves a (a <| a_state := Lifecycle.Stopping |> <| a_staged := [] |> <| a_staged_bytes := 0%N |>
               <| a_deadlines ::= f |> <| a_queue := [] |> <| a_queue_bytes := 0%N |>).
Proof.
  intros Hs. split; try done; try (by right); try apply sublist_nil_l. by destruct (a_state a).
Qed.
Lemma triple_fence_actor x e r a :
  a_state a ≠ Lifecycle.Stopped →
  triple (λ w, find_ref w r = inr a ∧ P x e w) (fence_actor r) (λ _, P x e) (P x e).
Proof.
  intros Hs. unfold fence_actor. apply triple_check_ref; [by intros w [_ ?]|]. intros a'.
  eapply (triple_bind _ (λ _, P x e)); [|intros _; apply triple_framed; steps].
  intros w (Ha' & Ha & Hw). rewrite Ha in Ha'. injection Ha' as <-. unfold update_slot, modify.
  apply ac_update; [|done]. intros b Hb. rewrite (find_ref_actor _ _ _ Ha) in Hb. injection Hb as <-.
  by apply evolves_fence.
Qed.
Lemma stable_fence fuel : ∀ r, stable P (fence fuel r).
Proof.
  induction fuel as [|fuel IH]; intros r x e; cbn [fence]; [apply triple_panic|].
  do 4 (apply triple_framed_bind; [steps|intros _]).
  apply triple_stable_bind; [by apply stable_detach_service|intros _].
  apply triple_stable_bind; [stable|intros _]. do 2 (apply triple_framed_bind; [steps|intros ?]).
  apply triple_stable_bind; [by apply stable_for_each|intros _].
  apply triple_check_ref; [done|]. intros b. case_bool_decide as Hs; [by apply triple_ret; intros w [_ ?]|].
  do 2 (apply triple_framed_actor; [steps|intros ?]).
  eapply (triple_bind _ (λ _, P x e)); [|intros _; apply stable_try_finalize].
  by apply triple_fence_actor.
Qed.
Lemma stable_fence_locked r : stable P (fence_locked r).
Proof. intros x e w Hw. by apply stable_fence. Qed.
#[local] Hint Resolve stable_fence_locked : stable.
Lemma stable_stop_locked r : stable P (stop_locked r).
Proof. unfold stop_locked. stable. Qed.
#[local] Hint Resolve stable_stop_locked : stable.
Lemma stable_stop r : stable P (stop r).
Proof. unfold stop. stable. Qed.
Lemma stable_close_locked : stable P close_locked.
Proof. unfold close_locked. stable. Qed.
#[local] Hint Resolve stable_close_locked : stable.
Lemma stable_close : stable P close.
Proof. unfold close. stable. Qed.

(** ** Draining *)
Lemma evolves_quiesce a cutoff root :
  a_state a ≠ Lifecycle.Stopping → a_state a ≠ Lifecycle.Stopped →
  evolves a (a <| a_state := Lifecycle.Quiescing |>
               <| a_publication_cutoff ::= λ c, Some (default cutoff c) |>
               <| a_drain_root := Some root |> <| a_drain_deadline := None |>).
Proof. intros H1 H2. split; try done; try (by left). all: cbn; by destruct (a_state a). Qed.
Lemma stable_quiesce fuel : ∀ root r deadline, stable P (quiesce fuel root r deadline).
Proof.
  induction fuel as [|fuel IH]; intros root r deadline x e; cbn [quiesce]; [apply triple_panic|].
  apply triple_framed_bind; [steps|]. intros w. cbv zeta. apply triple_check_ref; [done|]. intros a.
  assert (∀ d, stable P (modify (E:=error) (λ w, w <| w_drain_roots ::= delete (ar_slot r) |>) ;;;
    (let! deadline := (fix children (l : list ActorRef) (deadline : Instant) : WM Instant :=
       match l with
       | [] => ret deadline
       | child :: l => let! deadline := quiesce fuel root child deadline in children l deadline
       end) (a_children a) d in
     refresh_python_ready r ;;; mark_activity_dependents r ;;; ret deadline))) as Hrest.
  { intros d. apply stable_bind; [stable|intros _]. apply stable_bind; [|intros; stable].
    revert d. induction (a_children a) as [|child l IHl]; intros d; [stable|].
    apply stable_bind; [apply IH|]. intros d'. apply IHl. }
  destruct (a_state a) eqn:Hs; try (by apply triple_ret; intros ? [_ ?]);
    (eapply triple_bind; [apply triple_update_actor, evolves_quiesce; by rewrite Hs|]; intros ?; apply Hrest).
Qed.
Lemma stable_mark_quiescing r root deadline : stable P (mark_quiescing r root deadline).
Proof. intros x e w Hw. by apply stable_quiesce. Qed.
#[local] Hint Resolve stable_mark_quiescing : stable.
Lemma stable_drain_locked r deadline : stable P (drain_locked r deadline).
Proof. unfold drain_locked. stable. Qed.
#[local] Hint Resolve stable_drain_locked : stable.
Lemma framed_drained x r : framed x (drained_locked r).
Proof. intros w. unfold drained_locked. by destruct (drained _ _ _). Qed.
#[local] Hint Resolve framed_drained : steps.
Lemma stable_maintain_root now root : stable P (maintain_root now root).
Proof. unfold maintain_root. stable. Qed.
#[local] Hint Resolve stable_maintain_root : stable.
Lemma stable_maintain_locked now : stable P (maintain_locked now).
Proof. unfold maintain_locked. stable. Qed.
#[local] Hint Resolve stable_maintain_locked : stable.
Lemma stable_maintain now : stable P (maintain now).
Proof. unfold maintain. stable. Qed.
Lemma stable_request_drain r deadline : stable P (request_drain r deadline).
Proof. unfold request_drain. stable. Qed.
Lemma stable_drain_all deadline : stable P (drain_all deadline).
Proof. unfold drain_all. stable. Qed.

(** ** Executor handles *)
Lemma stable_finish_python r : stable P (finish_python r).
Proof. apply stable_with_activity. stable. Qed.
Lemma stable_track_task r : stable P (track_task r).
Proof. unfold track_task. stable. Qed.
Lemma stable_clone_task handle : stable P (clone_task handle).
Proof. unfold clone_task. stable. Qed.
Lemma stable_drop_task handle : stable P (drop_task handle).
Proof. unfold drop_task, drop_registration. stable. Qed.
End accounting.
#[export] Hint Resolve stable_allocate_locked stable_allocate stable_activate stable_try_finalize stable_fence_locked
  stable_stop_locked stable_stop stable_close_locked stable_close stable_maintain_locked : stable.
#[export] Hint Resolve stable_maintain stable_request_drain stable_drain_all stable_finish_python stable_track_task
  stable_clone_task stable_drop_task stable_with_activity : stable.
