(* ===== verification/WorldClock.v ===== *)
(** * Who moves a virtual clock

    A manual clock ([clock.rs]) is moved by its [VirtualClock] and by nothing else: what
    a driver of a virtual World calls, [maintain] and [close], leaves it where it is.
    [maintain] has no error to return. *)
From S2P Require Import Prelude Collections Text Types Metadata Schema Routing Expiry Readiness Operations.
From S2P Require Import Diagnostics Publications SchemaRegistry Activity WorldState Admission Publishing Actors Steps.

Definition timeless (w w' : World) : Prop := ck_manual (w_clock w) = true → w_clock w' = w_clock w.
#[export] Instance timeless_preorder : PreOrder timeless.
Proof.
  split; [by intros w _|]. intros w1 w2 w3 H12 H23 H. rewrite H23; [by apply H12|]. by rewrite H12.
Qed.
Abbreviation clocked := (steps timeless).

Lemma timeless_same w w' : w_clock w' = w_clock w → timeless w w'.
Proof. by intros H _. Qed.
Lemma manual_now c : ck_manual c = true → Clocks.now c = (ck_time c, c).
Proof. unfold Clocks.now. by intros ->. Qed.
Lemma manual_record code actor operation failure envelope h c :
  ck_manual c = true → (Hist.record_entry code actor operation failure envelope h c).2 = c.
Proof. intros Hc. unfold Hist.record_entry. rewrite (manual_now c Hc). by case_match. Qed.

Lemma clocked_now : clocked now.
Proof. intros w Hw. unfold now. by rewrite manual_now. Qed.
Lemma clocked_zoom {T A} (field : World → T) (set : T → World → World) (m : M T error A) :
  (∀ t w, w_clock (set t w) = w_clock w) → clocked (zoom field set m).
Proof. intros Hs. apply (steps_zoom _ (λ _ _, True)); [|done]. intros w t _. apply timeless_same, Hs. Qed.
Lemma clocked_operations {A} (m : M OperationTable error A) : clocked (operations m).
Proof. by apply clocked_zoom. Qed.
Lemma clocked_publications {A} (m : M PublicationTable error A) : clocked (publications m).
Proof. by apply clocked_zoom. Qed.
Lemma clocked_history f : (∀ h c, ck_manual c = true → (f h c).2 = c) → clocked (with_history f).
Proof.
  intros Hf. apply steps_modify. intros w Hw. specialize (Hf (w_diagnostics w) (w_clock w) Hw).
  by destruct (f (w_diagnostics w) (w_clock w)).
Qed.
Lemma clocked_marking f : clocked (marking f).
Proof. intros w Hw. unfold marking. by destruct (f w (w_activity w)). Qed.
Lemma clocked_read {A} (f : World → outcome error A) : clocked (λ w, (f w, w)).
Proof. by intros w. Qed.
Lemma clocked_drained r : clocked (drained_locked r).
Proof. intros w Hw. unfold drained_locked. by destruct (drained _ w r). Qed.
Lemma clocked_check_ref r : clocked (check_ref r).
Proof. intros w Hw. unfold check_ref. by destruct (find_ref w r). Qed.
Lemma clocked_decr f `{!Setter f} : (∀ g w, w_clock (set_field f g w) = w_clock w) → clocked (decr (E:=error) f).
Proof. intros Hf w. unfold decr. case_decide; [done|]. apply timeless_same, Hf. Qed.
Lemma clocked_wake : clocked wake_routing.
Proof. apply steps_modify. intros w. apply timeless_same. cbv beta zeta. by case_match. Qed.
Lemma clocked_touch : clocked touch_activity.
Proof.
  apply (steps_bind _); [apply clocked_wake|]. intros _. apply steps_modify. intros w. apply timeless_same.
  by destruct (Activity.notify_marked _).
Qed.
Create HintDb clock.
#[export] Hint Resolve clocked_now clocked_operations clocked_publications clocked_marking clocked_drained clocked_check_ref
  clocked_touch clocked_wake : clock.
#[export] Hint Extern 1 (clocked (execution_state _)) => exact (clocked_read _) : clock.
#[export] Hint Extern 1 (clocked (report_locked _)) => exact (clocked_read _) : clock.

(** The leaves by their lemmas, other methods by their definitions. *)
Ltac clocked_step :=
  match goal with
  | |- clocked (bind _ _) => apply (steps_bind _); [|intros ?]
  | |- clocked (modify _) => apply steps_modify; intros ?; apply timeless_same; try reflexivity; by repeat case_match
  | |- clocked (try_ _) => apply steps_try
  | |- clocked (unwrap_or _ _) => apply (steps_unwrap_or _)
  | |- clocked (for_each _ _) => apply (steps_for_each _); intros ?
  | |- clocked (with_history _) => apply clocked_history; intros; by apply manual_record
  | |- clocked (decr _) => by apply clocked_decr
  | |- clocked (match ?x with _ => _ end) => destruct x eqn:?
  | |- clocked (let _ := _ in _) => cbv zeta
  | |- clocked _ => solve [eauto with clock steps nocore typeclass_instances]
  end.
Ltac clocked := repeat (clocked_step || match goal with |- clocked ?m => let h := head_of m in unfold h end).

Lemma clocked_expire_publications t : clocked (expire_publications t).
Proof. clocked. Qed.
Lemma clocked_expire_events t : clocked (expire_events t).
Proof. clocked. Qed.
#[export] Hint Resolve clocked_expire_publications clocked_expire_events : clock.

(** ** The stop fence *)
Lemma clocked_finalize fuel : ∀ r, clocked (finalize fuel r).
Proof. induction fuel as [|fuel IH]; intros r; cbn [finalize]; clocked. Qed.
Lemma clocked_try_finalize r : clocked (try_finalize r).
Proof. intros w. apply clocked_finalize. Qed.
#[export] Hint Resolve clocked_try_finalize : clock.
Lemma clocked_detach_service fence service : (∀ r, clocked (fence r)) → clocked (detach_service fence service).
Proof. intros Hf. clocked. Qed.
Lemma clocked_detach_scope r : clocked (detach_scope r).
Proof. clocked. Qed.
Lemma clocked_discard r : clocked (discard_notifications_for r).
Proof. clocked. Qed.
Lemma clocked_fence_operations r : clocked (fence_operations r).
Proof. clocked. Qed.
Lemma clocked_remove_route id : clocked (remove_route id).
Proof. clocked. Qed.
Lemma clocked_cancel_source r : clocked (cancel_source_publications r).
Proof. clocked. Qed.
#[local] Hint Resolve clocked_detach_service clocked_detach_scope clocked_discard clocked_fence_operations
  clocked_remove_route clocked_cancel_source : clock.
Lemma clocked_fence fuel : ∀ r, clocked (fence fuel r).
Proof. induction fuel as [|fuel IH]; intros r; cbn [fence]; clocked. Qed.
Lemma clocked_fence_locked r : clocked (fence_locked r).
Proof. intros w. apply clocked_fence. Qed.
#[local] Hint Resolve clocked_fence_locked : clock.

(** ** What the driver calls *)
Lemma clocked_maintain t : clocked (maintain t).
Proof. clocked. Qed.
Lemma clocked_close : clocked close.
Proof. clocked. Qed.

(** ** Calls without an error *)

(** Through the definitions. *)
Ltac errless_step :=
  match goal with
  | |- errless (bind _ _) => apply errless_bind; [|intros ?]
  | |- errless (for_each _ _) => apply errless_for_each; intros ?
  | |- errless (zoom _ _ _) => apply errless_zoom
  | |- errless (match ?x with _ => _ end) => destruct x eqn:?
  | |- errless (let _ := _ in _) => cbv zeta
  | H : ∀ _, errless _ |- errless _ => apply H
  | |- errless (λ _, _) => by intros ??; repeat case_match
  | |- errless _ => solve [eauto with errless]
  | |- errless _ => done
  | |- errless ?m => let h := head_of m in unfold h
  end.
Lemma errless_pop_due fuel t : errless (Operations.pop_due fuel t).
Proof. induction fuel as [|fuel IH]; cbn [Operations.pop_due]; repeat errless_step. Qed.
Lemma errless_expire_ids t : errless (operations (Operations.expire_ids t)).
Proof. apply errless_zoom. pose proof (λ fuel, errless_pop_due fuel t). repeat errless_step. Qed.
Lemma errless_maintain t : errless (maintain t).
Proof. pose proof errless_expire_ids. repeat errless_step. Qed.
