(* ===== verification/MessageSteps.v ===== *)
(** * Messages, against the accounting interface

    Sending, request and reply, publication requests, claims and the component,
    service, supervision, callback and buffer operations keep every
    [Accounting] invariant. *)
From S2P Require Import Prelude Collections Text Types Metadata Schema Routing Expiry Readiness Operations.
From S2P Require Import Diagnostics Publications SchemaRegistry Activity WorldState Admission Publishing Actors.
From S2P Require Import Messaging Components Steps WorldFrames WorldSteps ActorSteps.

(** A method that holds nothing when it is entered and when it returns. *)
Definition sound (P : list Stored → option N → World → Prop) {E A} (m : M World E A) : Prop :=
  triple (P [] None) m (λ _, P [] None) (P [] None).

Section accounting.
Context `{!Accounting P}.
Implicit Types (x : list Stored) (e : option N).

Lemma sound_stable {E A} (m : M World E A) : stable P m → sound P m.
Proof. intros Hm. apply Hm. Qed.
Lemma sound_bind {E A B} (m : M World E A) (k : A → M World E B) :
  sound P m → (∀ a, sound P (k a)) → sound P (bind m k).
Proof. intros Hm Hk. eapply triple_bind; [apply Hm|apply Hk]. Qed.
Lemma sound_try {E A} (m : M World E A) : sound P m → sound P (try_ (E:=E) m).
Proof. intros Hm. apply triple_try. eapply triple_conseq; [apply Hm|done|done|by intros w Hw ?]. Qed.
Lemma sound_with_activity {A} (m : WM A) : sound P m → sound P (with_activity m).
Proof.
  intros Hm w Hw. specialize (Hm w Hw). unfold with_activity.
  destruct (m w) as [[a|err|] w']; [| |done]; (eapply ac_frame; [apply framed_touch|done]).
Qed.
Lemma triple_or_reject {A} x e (Pre : World → Prop) (Post : A → World → Prop) actor m :
  triple Pre m Post (P x e) → triple Pre (or_reject actor m) Post (P x e).
Proof.
  intros Hm. unfold or_reject. eapply (triple_bind _ (λ o w, match o with inr a => Post a w | inl _ => P x e w end)).
  - apply triple_try. eapply triple_conseq; [apply Hm|done|done|by intros].
  - intros [err|a]; [|by apply triple_ret]. cbv beta iota.
    apply triple_framed_bind; [steps|intros _; by apply triple_fail].
Qed.
Lemma sound_or_reject {A} actor (m : WM A) : sound P m → sound P (or_reject actor m).
Proof. apply triple_or_reject. Qed.

(** ** Holding and sending *)
Lemma framed_hold x s : s ∈ x → framed x (hold_payload s).
Proof.
  intros Hs. unfold hold_payload. steps. split; try done. intros s' Hs'. rewrite shelf_elem in Hs'. cbn in Hs'.
  rewrite elem_of_app, list_elem_of_singleton in Hs'.
  destruct Hs' as [?|[?|[?|[?| ->]]]]; [right; apply shelf_reachable; rewrite shelf_elem; tauto..|by left].
Qed.
Lemma framed_drop_held x i : framed x (drop_held i).
Proof.
  unfold drop_held. steps. split; try done. intros p Hp. right. apply shelf_reachable.
  rewrite shelf_elem in *. cbn in *. destruct Hp as [?|[?|[?|Hp]]]; [tauto..|].
  apply list_elem_of_lookup in Hp as [j Hj]. do 3 right. apply list_elem_of_lookup.
  destruct (decide (j < i)); [rewrite list_lookup_delete_lt in Hj by done|rewrite list_lookup_delete_ge in Hj by lia]; eauto.
Qed.
Lemma sound_hold_with p options : sound P (hold_with p options).
Proof.
  unfold hold_with. do 5 (apply triple_framed_bind; [steps|intros ?]).
  eapply triple_bind; [apply triple_make_stored|]. intros s. apply triple_drop.
  apply triple_framed. steps. apply framed_hold. set_solver.
Qed.
Lemma sound_submitted : sound P submitted.
Proof. apply triple_framed. unfold submitted. steps. Qed.
(** Admission of a payload the method has made or found. *)
Lemma triple_admit_drop r s sub completion operation :
  triple (P [s] None) (admit_event r s sub completion operation) (λ _, P [] None) (P [] None).
Proof. apply triple_drop, triple_admit. Qed.
Lemma sound_send_with r p options : sound P (send_with r p options).
Proof.
  unfold send_with. apply sound_bind; [apply sound_submitted|intros _].
  eapply triple_bind; [apply triple_or_reject, triple_make_stored|]. intros s.
  eapply triple_bind; [apply triple_or_reject, triple_admit_drop|]. intros id. apply triple_framed. steps.
Qed.
Lemma triple_held {A} s (m : WM A) Post Q :
  triple (P [s] None) m Post Q → triple (λ w, s ∈ w_held w ∧ P [] None w) m Post Q.
Proof.
  intros Hm w [Hs Hw]. apply Hm. apply ac_dup; [|done]. apply shelf_reachable, shelf_elem. tauto.
Qed.
Lemma triple_drop_pre {A} s x e (m : WM A) Post :
  triple (P (s :: x) e) m Post (P (s :: x) e) → triple (P (s :: x) e) m Post (P x e).
Proof. intros Hm w Hw. specialize (Hm w Hw). destruct (m w) as [[]]; [done|by eapply ac_drop|done]. Qed.
Lemma framed_or_reject {A} x actor (m : WM A) : framed x m → framed x (or_reject actor m).
Proof. intros Hm. unfold or_reject. steps. Qed.
Lemma framed_submitted x : framed x submitted.
Proof. unfold submitted. steps. Qed.
#[local] Hint Resolve framed_or_reject framed_submitted : steps.
(** A step of a method that holds [s]; on an error it returns and drops it. *)
Lemma triple_keep_bind {A B} s e Post (m : WM A) (k : A → WM B) :
  framed [s] m → (∀ a, triple (P [s] e) (k a) Post (P [] e)) → triple (P [s] e) (bind m k) Post (P [] e).
Proof. intros Hm Hk. eapply triple_bind; [by apply triple_drop_pre, triple_framed|done]. Qed.
Lemma triple_send_held r h :
  triple (P [held_stored h] None) (send_held r h) (λ _, P [] None) (P [] None).
Proof.
  unfold send_held. do 3 (apply triple_keep_bind; [steps|intros ?]).
  eapply triple_bind; [apply triple_or_reject, triple_admit_drop|]. intros id. apply triple_framed. steps.
Qed.
Lemma triple_send_held_from owner target h :
  triple (P [held_stored h] None) (send_held_from owner target h) (λ _, P [] None) (P [] None).
Proof.
  unfold send_held_from. do 5 (apply triple_keep_bind; [steps|intros ?]).
  eapply triple_bind; [apply triple_or_reject, triple_admit_drop|]. intros id. apply triple_framed. steps.
Qed.

(** ** Request and reply *)
Lemma evolves_last a d port :
  last (a_queue a) = Some d →
  evolves a (a <| a_queue ::= λ q, take (length q - 1) q ++
               [d <| d_envelope ::= λ env, env <| env_destination_port := Some port |> |>] |>).
Proof.
  intros Hd. apply last_Some in Hd as [q Hq].
  assert (queue_view (a <| a_queue ::= λ q, take (length q - 1) q ++
    [d <| d_envelope ::= λ env, env <| env_destination_port := Some port |> |>] |>) = queue_view a) as Hv.
  { unfold queue_view. cbn. rewrite Hq, length_app, Nat.add_sub, take_app_length, !fmap_app. done. }
  split; try done; rewrite ?Hv; try done; left; unfold bytes_of_queue; by rewrite ?Hv.
Qed.
Lemma stable_set_last_port r port : stable P (set_last_port r port).
Proof.
  intros x e. unfold set_last_port. apply triple_check_ref; [done|]. intros a. apply triple_expect. intros d Hd.
  apply triple_update_actor. by apply evolves_last.
Qed.
Lemma triple_release_on_error {A} Pre (Post : A → World → Prop) id m e :
  triple Pre m Post (P [] e) → triple Pre (release_on_error id m) Post (P [] e).
Proof.
  intros Hm. unfold release_on_error. eapply (triple_bind _ (λ o w, match o with inr a => Post a w | inl _ => P [] e w end)).
  - apply triple_try. eapply triple_conseq; [apply Hm|done|done|by intros].
  - intros [err|a]; [|by apply triple_ret]. cbv beta iota.
    apply triple_framed_bind; [apply steps_try; steps|intros _; by apply triple_fail].
Qed.
Lemma sound_request owner target p deadline options port :
  sound P (request_with_port owner target p deadline options port).
Proof.
  unfold request_with_port. apply sound_with_activity. apply triple_framed_bind; [steps|intros _]. cbv zeta.
  do 5 (apply triple_framed_bind; [steps|intros ?]).
  eapply triple_bind; [apply triple_or_reject, triple_release_on_error, triple_make_stored|]. intros s.
  eapply triple_bind.
  { apply triple_or_reject, triple_release_on_error, triple_drop_pre, triple_admit. }
  intros event_id. apply triple_drop. eapply (triple_bind _ (λ _, P [s] None)).
  { destruct port; [apply stable_set_last_port|by apply triple_ret]. }
  intros _. apply triple_framed. steps. apply framed_operations, op_set_context. simpl. set_solver.
Qed.

Lemma framed_complete_empty x id r : result_stored r = [] → framed x (complete_operation_locked id r).
Proof. intros Hr. apply framed_complete. rewrite Hr. set_solver. Qed.
Lemma framed_late x target id : framed x (late_result target id).
Proof. unfold late_result. steps. Qed.
Lemma framed_time_out x target id : framed x (time_out_operation target id).
Proof. unfold time_out_operation. steps. by apply framed_complete_empty. Qed.
Lemma framed_expired_now x options : framed x (expired_now options).
Proof. unfold expired_now. steps. Qed.
#[local] Hint Resolve framed_late framed_time_out framed_expired_now : steps.
Lemma triple_forget {A} x e (m : WM A) Post Q : triple (P x None) m Post Q → triple (P x e) m Post Q.
Proof. intros Hm w Hw. eapply Hm, ac_forget, Hw. Qed.
Lemma sound_complete_pending id target p options pending : sound P (complete_pending id target p options pending).
Proof.
  unfold complete_pending, sound. do 5 (apply triple_framed_bind; [steps|intros ?]). cbv zeta.
  do 2 (apply triple_framed_bind; [steps|intros ?]). case_match; [apply triple_framed; steps|].
  eapply (triple_bind _ (λ r w, match r with inr s => P [s] None w | inl _ => P [] None w end)).
  { apply triple_try. eapply triple_conseq; [apply triple_make_stored|done|done|by intros]. }
  intros [err|s]; [apply triple_framed; steps; by apply framed_complete_empty|]. apply triple_drop.
  eapply triple_bind; [apply triple_next_event|]. intros event_id.
  apply triple_forget.
  apply triple_framed. steps. apply framed_complete. simpl. set_solver.
Qed.
Lemma sound_complete_with id target p options : sound P (complete_operation_with id target p options).
Proof.
  unfold complete_operation_with. apply sound_with_activity. do 3 (apply triple_framed_bind; [steps|intros ?]).
  case_match; [case_match; [apply sound_complete_pending|]|case_match|]; apply triple_framed; steps.
Qed.
Lemma sound_cancel_operation id : sound P (cancel_operation id).
Proof.
  unfold cancel_operation. apply sound_with_activity, triple_framed. steps. by apply framed_complete_empty.
Qed.

Lemma ac_dup_list l x e w : l ⊆ reachable w → P x e w → P (l ++ x) e w.
Proof.
  induction l as [|s l IH]; intros Hl Hw; [done|]. apply ac_dup; [set_solver|]. apply IH; [set_solver|done].
Qed.
Lemma framed_hold_all x l : l ⊆ x → framed x (for_each hold_payload l).
Proof.
  induction l as [|s l IH]; intros Hl; cbn [for_each]; [apply steps_ret; apply _|].
  apply (steps_bind _); [apply framed_hold; set_solver|intros _; apply IH; set_solver].
Qed.
Lemma ops_reachable w s : s ∈ ops_stored (w_operations w) → s ∈ reachable w.
Proof. intros Hs. apply shelf_reachable, shelf_elem. tauto. Qed.
Lemma status_handles t id st :
  Operations.status t id = Ok st →
  match st with SPending p => held_stored <$> option_list (po_context p) | STerminal o => outcome_handles o end ⊆ ops_stored t.
Proof.
  unfold Operations.status. destruct (Operations.locate t id) as [i| |]; [|done..].
  destruct (ot_slots t !! i) as [[[p|o]|]|] eqn:Hi; intros [= <-]; intros s Hs; apply elem_of_ops_stored; [by eauto|].
  exists i, (ETerminal o). split; [done|]. by destruct o.
Qed.
(** Payloads found in the World are handed to the caller. *)
Lemma framed_at {E A} l w (m : M World E A) :
  l ⊆ reachable w → framed l m → P [] None w → triple (λ w', w' = w) m (λ _, P [] None) (P [] None).
Proof.
  intros Hl Hm Hw w' ->. apply (ac_dup_list l) in Hw; [|done]. rewrite app_nil_r in Hw.
  pose proof (triple_framed l None m Hm w Hw) as H. destruct (m w) as [[a|err|] w']; [|idtac|done]; by apply ac_drop_all in H.
Qed.
Lemma sound_operation_status id : sound P (operation_status id).
Proof.
  unfold operation_status, sound. apply triple_get. intros w Hw.
  destruct (Operations.status (w_operations w) id) as [st|err|] eqn:Hst; [|by intros ? ->|done].
  apply status_handles in Hst. change (of_outcome (Ok st)) with (ret (S:=World) (E:=error) st). apply triple_ret_bind.
  eapply (framed_at _ w); [intros s Hs; apply ops_reachable, Hst, Hs| |done].
  apply (steps_bind _); [by apply framed_hold_all|]. intros _. steps.
Qed.
Lemma take_handles t t' id o : Operations.take id t = (Ok (Some o), t') → outcome_handles o ⊆ ops_stored t.
Proof.
  unfold Operations.take. unfold bind at 1, get. unfold bind at 1, of_outcome.
  destruct (Operations.locate t id) as [i| |]; [|done..].
  destruct (ot_slots t !! i) as [[[p|o']|]|] eqn:Hi; [done| |done..].
  intros H s Hs. apply elem_of_ops_stored. exists i, (ETerminal o'). split; [done|].
  assert (o' = o) as -> by (revert H; unfold bind, modify, ret; repeat case_match; congruence).
  by destruct o.
Qed.
Lemma triple_drop_list {A} l e (m : WM A) : framed l m → triple (P l e) m (λ _, P [] e) (P [] e).
Proof.
  intros Hm w Hw. apply (triple_framed l e m Hm) in Hw. destruct (m w) as [[a|err|] w']; [|idtac|done]; by apply ac_drop_all in Hw.
Qed.
Lemma triple_take {B} id Post (k : option TerminalOutcome → WM B) :
  (∀ o, triple (P (outcome_handles o) None) (k (Some o)) Post (P [] None)) →
  triple (P [] None) (k None) Post (P [] None) →
  triple (P [] None) (bind (operations (Operations.take id)) k) Post (P [] None).
Proof.
  intros Hs Hn w Hw. pose proof (framed_operations [] _ (op_take [] id) w) as Hf.
  unfold operations, zoom in *. unfold bind at 1. pose proof (take_handles (w_operations w)) as Ht.
  destruct (Operations.take id (w_operations w)) as [[[o|]|err|] t] eqn:Htake; simpl in Hf; [|eapply Hn|..].
  - apply Hs. eapply ac_frame; [eapply frame_weaken; [|exact Hf]; set_solver|].
    rewrite <- (app_nil_r (outcome_handles o)). apply ac_dup_list; [|done]. intros s Hs'.
    eapply ops_reachable, Ht; [done|exact Hs'].
  - by eapply ac_frame.
  - by eapply ac_frame.
  - done.
Qed.
Lemma sound_take_operation id : sound P (take_operation id).
Proof.
  unfold take_operation. apply sound_with_activity. do 2 (apply triple_framed_bind; [steps|intros ?]).
  case_match. apply triple_take; [intros res; apply triple_drop_list|apply triple_framed]; steps.
  by apply framed_hold_all.
Qed.

(** ** Subscriptions and publication requests *)
Lemma sound_subscribe source target : sound P (subscribe source target).
Proof. apply triple_framed. unfold subscribe. steps. Qed.
Lemma sound_unsubscribe id : sound P (unsubscribe id).
Proof. apply triple_framed. unfold unsubscribe. steps. Qed.
Lemma sound_publish_checked source p owner port options : sound P (publish_checked source p owner port options).
Proof.
  unfold publish_checked, sound. do 2 (apply triple_framed_bind; [steps|intros ?]). cbv zeta.
  do 8 (apply triple_framed_bind; [steps|intros ?]). apply triple_submit.
Qed.
Lemma sound_publish source p owner port options : sound P (publish_internal source p owner port options).
Proof.
  unfold publish_internal. apply sound_with_activity. apply sound_bind; [apply triple_framed; steps|intros _].
  apply sound_bind; [apply sound_try, sound_publish_checked|]. intros []; apply triple_framed; steps.
Qed.

(** ** Claiming and finishing deliveries *)
Lemma evolves_deadlines a a' d : evolves a a' → evolves a (a' <| a_deadlines := d |>).
Proof. by intros []. Qed.
Lemma queue_reachable w slot a d : actor_at w slot = Some a → d ∈ a_queue a → d_payload d ∈ reachable w.
Proof.
  intros Ha Hd. rewrite reachable_split, elem_of_app. left. apply elem_of_actor_stored.
  exists slot, a. split; [done|]. unfold actor_stored. rewrite elem_of_app, list_elem_of_fmap. eauto.
Qed.
Lemma triple_pop_delivery r :
  triple (P [] None) (pop_delivery r)
    (λ o w, match o with Some d => P [d_payload d] None w | None => P [] None w end) (P [] None).
Proof.
  unfold pop_delivery. apply triple_check_ref; [done|]. intros a.
  destruct (a_queue a) as [|d queue] eqn:Hq; [by apply triple_ret; intros w [_ ?]|].
  apply triple_expect. intros bytes Hb. apply triple_expect. intros deadlines _.
  apply checked_sub_Some in Hb. eapply (triple_bind _ (λ _, P [d_payload d] None)).
  - intros w [Ha Hw]. apply find_ref_actor in Ha. unfold update_slot, modify. apply ac_update.
    + intros b Hb'. rewrite Ha in Hb'. injection Hb' as <-. apply evolves_deadlines, evolves_dequeue; rewrite Hq; [by constructor|].
      simpl. lia.
    + apply ac_dup; [|done]. eapply queue_reachable; [done|]. rewrite Hq. set_solver.
  - intros _. do 3 (apply triple_keep_bind; [steps|intros _]). by apply triple_ret.
Qed.
Lemma framed_still_valid x r d : framed x (still_valid r d).
Proof. unfold still_valid, cancelled. steps. Qed.
Lemma elem_of_leases s (m : gmap N DeliveryLease) :
  s ∈ ((λ l, d_payload (dl_delivery l)) <$> (map_to_list m).*2) ↔ ∃ k l, m !! k = Some l ∧ s = d_payload (dl_delivery l).
Proof.
  rewrite list_elem_of_fmap. split.
  - intros (l & -> & Hl). apply list_elem_of_fmap in Hl as ([k l'] & -> & Hl). apply elem_of_map_to_list in Hl. eauto.
  - intros (k & l & Hl & ->). exists l. split; [done|]. apply list_elem_of_fmap. exists (k, l). by rewrite elem_of_map_to_list.
Qed.
(** Leases may go, or come with a payload that is held. *)
Lemma frame_leases x w m :
  (∀ k l, m !! k = Some l → d_payload (dl_delivery l) ∈ x ∨ w_leases w !! k = Some l) → frame x w (w <| w_leases := m |>).
Proof.
  intros Hm. split; try done. intros s Hs. rewrite shelf_elem in Hs. cbn in Hs.
  destruct Hs as [Hs|[Hs|[Hs|Hs]]]; try (right; apply shelf_reachable; rewrite shelf_elem; tauto).
  apply elem_of_leases in Hs as (k & l & Hl & ->). destruct (Hm k l Hl) as [?|Hk]; [by left|]. right.
  apply shelf_reachable. rewrite shelf_elem. right. right. left. apply elem_of_leases. eauto.
Qed.
#[local] Hint Resolve framed_still_valid : steps.
Lemma stable_update_ref_in_flight r : stable P (update_ref r (λ a, a <| a_in_flight := true |>)).
Proof. stable. Qed.
Lemma sound_claim_loop fuel : ∀ r, sound P (claim_loop fuel r).
Proof.
  induction fuel as [|fuel IH]; intros r; cbn [claim_loop]; [apply triple_panic|].
  eapply triple_bind; [apply triple_pop_delivery|]. intros [d|]; [|by apply triple_ret].
  cbv beta iota. apply triple_keep_bind; [steps|]. intros valid. destruct (negb valid).
  - eapply triple_conseq; [apply IH|intros w; apply ac_drop|done|done].
  - apply triple_drop. apply triple_stable_bind; [apply stable_update_ref_in_flight|intros _]. apply triple_framed. steps.
    apply frame_leases. intros k l. cbn. rewrite lookup_insert_Some. intros [[_ <-]|[_ ?]]; [left; cbn; set_solver|by right].
Qed.
Lemma sound_claim r : sound P (claim r).
Proof.
  unfold claim. apply sound_with_activity. do 2 (apply triple_framed_bind; [steps|intros ?]).
  case_match; [apply triple_framed; steps|apply sound_claim_loop].
Qed.
Lemma framed_end_lease x handle : framed x (end_lease handle).
Proof.
  unfold end_lease. steps. apply frame_leases. intros k l. rewrite lookup_delete_Some. intros [_ ?]. by right.
Qed.
#[local] Hint Resolve framed_end_lease framed_complete_empty : steps.
Lemma stable_finish_delivery handle success : stable P (finish_delivery handle success).
Proof. unfold finish_delivery. stable. Qed.
Lemma stable_drop_delivery handle : stable P (drop_delivery handle).
Proof. unfold drop_delivery, cancelled. stable. Qed.

(** ** Components and services *)
Lemma stable_register_component owner descriptor : stable P (Ports.register_component owner descriptor).
Proof. unfold Ports.register_component. stable. Qed.
Lemma framed_check_live x r : framed x (Ports.check_live r).
Proof. unfold Ports.check_live. steps. Qed.
#[local] Hint Resolve framed_check_live : steps.
Lemma sound_link owner source target : sound P (Ports.link owner source target).
Proof. unfold Ports.link. apply sound_with_activity, triple_framed. steps. Qed.
Lemma sound_send_port port p options : sound P (Ports.send_port_with port p options).
Proof.
  unfold Ports.send_port_with. apply sound_with_activity. apply triple_framed_bind; [steps|intros _].
  apply sound_or_reject. unfold sound. do 3 (apply triple_framed_bind; [steps|intros ?]).
  eapply triple_bind; [apply triple_make_stored|]. intros s. apply triple_drop.
  eapply triple_bind; [apply triple_admit|]. intros id.
  apply triple_stable_bind; [apply stable_set_last_port|intros _]. by apply triple_ret.
Qed.
Lemma sound_task_publish handle source p options : sound P (Ports.task_publish_port handle source p options).
Proof. unfold Ports.task_publish_port, sound. do 2 (apply triple_framed_bind; [steps|intros ?]). apply sound_publish. Qed.
Lemma sound_delivery_publish handle source p options : sound P (Ports.delivery_publish_port handle source p options).
Proof. unfold Ports.delivery_publish_port, sound. do 4 (apply triple_framed_bind; [steps|intros ?]). apply sound_publish. Qed.
Lemma framed_validate_lease x lease : framed x (Services.validate_lease lease).
Proof. unfold Services.validate_lease. steps. Qed.
#[local] Hint Resolve framed_validate_lease : steps.
Lemma framed_service_port x lease name p : framed x (Services.service_port lease name p).
Proof. unfold Services.service_port. steps. Qed.
Lemma framed_service_source x lease output : framed x (Services.service_source lease output).
Proof. unfold Services.service_source. steps. Qed.
Lemma stable_register_service name target required : stable P (Services.register_service name target required).
Proof. unfold Services.register_service, Services.on_services. stable. Qed.
(** The scope of a lease is active as soon as it exists. *)
Lemma triple_activate_scope x e r :
  triple (λ w, starting r w ∧ P x e w) (update_ref r (λ a, a <| a_state := Lifecycle.Active |>)) (λ _, P x e) (P x e).
Proof.
  intros w [(a & Ha & Hs) Hw]. unfold update_ref, check_ref, bind, modify. rewrite Ha. apply ac_update; [|done].
  intros b Hb. rewrite (find_ref_actor _ _ _ Ha) in Hb. injection Hb as <-. apply evolves_state; rewrite Hs; [done|by split].
Qed.
Lemma stable_acquire_target owner name required expected :
  stable P (Services.acquire_service_target owner name required expected).
Proof.
  unfold Services.acquire_service_target, Services.on_services. intros x e.
  do 11 (apply triple_framed_bind; [steps|intros ?]).
  eapply triple_bind; [apply triple_allocate_locked|]. intros scope.
  eapply triple_bind; [apply triple_activate_scope|]. intros ?. apply triple_framed. steps.
Qed.
Lemma stable_acquire_from owner name required expected :
  stable P (Services.acquire_service_from owner name required expected).
Proof. unfold Services.acquire_service_from. stable. apply stable_acquire_target. Qed.
Lemma stable_release_service lease : stable P (Services.release_service lease).
Proof. unfold Services.release_service. stable. Qed.

(** ** Supervision *)
Lemma stable_apply_failure_action r action : stable P (Supervision.apply_failure_action r action).
Proof. unfold Supervision.apply_failure_action. stable. Qed.
Lemma framed_check_operation_owner x r operation : framed x (Supervision.check_operation_owner r operation).
Proof. unfold Supervision.check_operation_owner. steps. Qed.
Lemma framed_fail_operation x operation : framed x (Supervision.fail_operation operation).
Proof. unfold Supervision.fail_operation. steps. Qed.
#[local] Hint Resolve framed_check_operation_owner framed_fail_operation : steps.
Lemma stable_note_failure r event_id record notify : stable P (Supervision.note_failure r event_id record notify).
Proof. unfold Supervision.note_failure. stable. Qed.
#[local] Hint Resolve stable_apply_failure_action stable_note_failure : stable.
Lemma stable_report_failure r event_id schema operation details action :
  stable P (Supervision.report_failure r event_id schema operation details action).
Proof. apply stable_with_activity. unfold Supervision.report_failure_locked. stable. Qed.
Lemma stable_claim_failure supervisor : stable P (Supervision.claim_failure supervisor).
Proof. apply stable_with_activity. stable. Qed.
Lemma stable_finish_failure handle action : stable P (Supervision.finish_failure handle action).
Proof. apply stable_with_activity. unfold Supervision.end_failure_lease. stable. Qed.
Lemma stable_drop_failure handle : stable P (Supervision.drop_failure handle).
Proof. apply stable_with_activity. unfold Supervision.end_failure_lease. stable. Qed.

(** ** Callbacks *)
Lemma stable_claim_hook owner expected : stable P (Callbacks.claim_native_hook owner expected).
Proof. apply stable_with_activity. stable. cbv zeta. stable. Qed.
Lemma stable_drop_callback handle : stable P (Callbacks.drop_callback handle).
Proof. apply stable_with_activity. stable. Qed.

(** ** Buffers *)
Lemma triple_buffer_bytes {B} w n Post Q (k : unit → WM B) :
  Q w → ((retained_bytes w + n ≤ native_payload_budget (w_cfg w))%N → triple (λ w', w' = w) (k tt) Post Q) →
  triple (λ w', w' = w) (bind (Buffers.reserve_bytes n) k) Post Q.
Proof.
  intros HQ Hk w' ->. unfold Buffers.reserve_bytes, bind, get, ok_or, checked_add.
  case_decide; [|done]. unfold ret. unfold reject_if. destruct (_ <? _)%N eqn:Hn; [done|]. apply Hk; [lia|done].
Qed.
Lemma sound_reserve_buffer bytes : sound P (Buffers.reserve bytes).
Proof.
  intros w Hw. refine (triple_buffer_bytes w bytes (λ _, P [] None) (P [] None) _ Hw _ w eq_refl).
  intros Hb w' ->. unfold new_handle, bind, get, modify, ret.
  apply (ac_permit None (w <| w_next_handle ::= N.succ |>)).
  - unfold retained_bytes, live_payloads, reachable in *. cbn in *. lia.
  - eapply ac_frame; [|exact Hw]. by apply frame_same.
Qed.
Lemma sound_try_grow handle additional : sound P (Buffers.try_grow handle additional).
Proof.
  unfold Buffers.try_grow, sound. apply triple_get. intros w Hw. apply triple_expect. intros bytes Hbytes.
  destruct (additional =? 0)%N; [by apply triple_ret; intros ? ->|].
  apply triple_ok_or; [by intros ? ->|]. intros total Htotal.
  apply triple_buffer_bytes; [done|]. intros Hb w' ->. unfold modify. apply ac_permit; [|done].
  rewrite Hbytes. unfold checked_add in Htotal. case_decide; simplify_eq. simpl. lia.
Qed.
Lemma sound_drop_permit handle : sound P (Buffers.drop_permit handle).
Proof. intros w Hw. unfold Buffers.drop_permit, modify. by apply ac_release. Qed.
End accounting.
Create HintDb sound.
#[export] Hint Resolve sound_hold_with sound_send_with sound_request sound_complete_with sound_cancel_operation
  sound_operation_status sound_take_operation sound_subscribe sound_unsubscribe sound_publish sound_claim sound_link
  sound_send_port sound_task_publish sound_delivery_publish
  sound_reserve_buffer sound_try_grow sound_drop_permit : sound.
#[export] Hint Resolve stable_finish_delivery stable_drop_delivery stable_register_component stable_register_service
  stable_acquire_target stable_acquire_from stable_release_service stable_report_failure stable_claim_failure
  stable_finish_failure stable_drop_failure stable_claim_hook stable_drop_callback : stable.
