(* ===== verification/WorldRuns.v ===== *)
(** * Runs of a World

    A caller's call is one public method on one World; a run is a sequence of
    calls, in the order in which they take the state lock.  A call returns, with
    a value or an error, or panics, and a panic ends the run.  Handles the caller
    holds are named by their number; a call on a handle the caller does not hold
    cannot be written in the source and does nothing here. *)
From S2P Require Import Prelude Collections Text Types Metadata Schema Routing Expiry Readiness Operations.
From S2P Require Import Diagnostics Publications SchemaRegistry Activity WorldState Admission Publishing Actors.
From S2P Require Import Messaging Components Views Steps WorldFrames WorldSteps ActorSteps MessageSteps.

Inductive call :=
| CAllocate (kind : endpoint_kind) (parent : option ActorRef)
| CActivate (r : ActorRef)
| CStop (r : ActorRef)
| CClose
| CRequestDrain (r : ActorRef) (deadline : Instant)
| CDrainAll (deadline : Instant)
| CMaintain (now : Instant)
| CAdvanceClock (by_ : N)
| CFinishPython (r : ActorRef)
| CTrackTask (r : ActorRef)
| CCloneTask (handle : N)
| CDropTask (handle : N)
| CRegisterSchemas (schemas : list Schema)
| CRegisterComponent (owner : ActorRef) (descriptor : ComponentDescriptor)
| CHold (p : Payload) (options : MessageOptions)
| CDropHeld (i : nat)
| CSend (r : ActorRef) (p : Payload) (options : MessageOptions)
| CSendHeld (r : ActorRef) (i : nat) (world : N) (envelope : option Envelope)
| CSendHeldFrom (owner target : ActorRef) (i : nat) (world : N) (envelope : option Envelope)
| CRequest (owner target : ActorRef) (p : Payload) (deadline : Instant) (options : MessageOptions)
| CCompleteOperation (id : OperationId) (target : ActorRef) (p : Payload) (options : option MessageOptions)
| CCancelOperation (id : OperationId)
| COperationStatus (id : OperationId)
| CTakeOperation (id : OperationId)
| CSubscribe (source target : ActorRef)
| CUnsubscribe (id : N)
| CLink (owner : ActorRef) (source target : PortRef)
| CPublish (source : ActorRef) (p : Payload) (options : MessageOptions)
| CPublishPort (source : PortRef) (p : Payload) (options : MessageOptions)
| CPublishCompletion (handle : N) (source : ActorRef) (p : Payload)
| CTaskPublishPort (handle : N) (source : PortRef) (p : Payload) (options : MessageOptions)
| CDeliveryPublishPort (handle : N) (source : PortRef) (p : Payload) (options : MessageOptions)
| CSendPort (port : PortRef) (p : Payload) (options : MessageOptions)
| CRouteBatch
| CClaim (r : ActorRef)
| CFinishDelivery (handle : N) (success : bool)
| CDropDelivery (handle : N)
| CRegisterService (name : string) (target : ActorRef) (required : InterfaceSpec)
| CAcquireService (owner : ActorRef) (name : string) (required : InterfaceSpec)
| CAcquireServiceFrom (owner : ActorRef) (name : string) (required : InterfaceSpec) (expected : ActorRef)
| CReleaseService (lease : ServiceLease)
| CServicePort (lease : ServiceLease) (name : string) (p : Payload)
| CServiceSource (lease : ServiceLease) (output : string)
| CRequestPort (owner target : ActorRef) (p : Payload) (deadline : Instant) (options : MessageOptions) (port : PortRef)
| CReportFailure (r : ActorRef) (event_id schema : option N) (operation : option OperationId)
    (details : FailureDetails) (action : failure_action)
| CClaimFailure (supervisor : ActorRef)
| CFinishFailure (handle : N) (action : option failure_action)
| CDropFailure (handle : N)
| CClaimHook (owner : ActorRef) (startup : bool)
| CClaimDrainHook (owner : ActorRef)
| CDropCallback (handle : N)
| CReserveBuffer (bytes : N)
| CGrowBuffer (handle additional : N)
| CDropBuffer (handle : N)
| CActivity (actor : ActorRef)
| CPollActivity (actor : ActorRef) (observed waker : N)
| CPollRouting (waker : N)
| CNow
| CDropTicket (ticket : N).

(** The World a call leaves; [None] when it panics. *)
Definition after {E A} (m : M World E A) (w : World) : option World :=
  match m w with (Panic, _) => None | (_, w) => Some w end.
(** A call on a handle, when the caller holds it. *)
Definition owning {V A} (field : World → gmap N V) (handle : N) (m : WM A) (w : World) : option World :=
  if bool_decide (is_Some (field w !! handle)) then after m w else Some w.
Definition with_held {A} (i : nat) (m : Stored → WM A) (w : World) : option World :=
  match w_held w !! i with Some s => after (m s) w | None => Some w end.
Definition advance_clock (by_ : N) : WM unit := modify (λ w, w <| w_clock ::= λ c, (Clocks.advance by_ c).2 |>).

Definition run_call (c : call) : World → option World :=
  match c with
  | CAllocate kind parent => after (allocate kind parent)
  | CActivate r => after (activate r)
  | CStop r => after (stop r)
  | CClose => after close
  | CRequestDrain r deadline => after (request_drain r deadline)
  | CDrainAll deadline => after (drain_all deadline)
  | CMaintain now => after (maintain now)
  | CAdvanceClock by_ => after (advance_clock by_)
  | CFinishPython r => after (finish_python r)
  | CTrackTask r => after (track_task r)
  | CCloneTask handle => owning w_tasks handle (clone_task handle)
  | CDropTask handle => owning w_tasks handle (drop_task handle)
  | CRegisterSchemas schemas => after (register_schemas schemas)
  | CRegisterComponent owner descriptor => after (Ports.register_component owner descriptor)
  | CHold p options => after (hold_with p options)
  | CDropHeld i => after (drop_held i)
  | CSend r p options => after (send_with r p options)
  | CSendHeld r i world envelope => with_held i (λ s, send_held r (MkHeld s world envelope))
  | CSendHeldFrom owner target i world envelope =>
      with_held i (λ s, send_held_from owner target (MkHeld s world envelope))
  | CRequest owner target p deadline options => after (request_with_port owner target p deadline options None)
  | CCompleteOperation id target p options => after (complete_operation_with id target p options)
  | CCancelOperation id => after (cancel_operation id)
  | COperationStatus id => after (operation_status id)
  | CTakeOperation id => after (take_operation id)
  | CSubscribe source target => after (subscribe source target)
  | CUnsubscribe id => after (unsubscribe id)
  | CLink owner source target => after (Ports.link owner source target)
  | CPublish source p options => after (publish_with source p options)
  | CPublishPort source p options => after (Ports.publish_port_with source p options)
  | CPublishCompletion handle source p => owning w_tasks handle (publish_completion handle source p)
  | CTaskPublishPort handle source p options => owning w_tasks handle (Ports.task_publish_port handle source p options)
  | CDeliveryPublishPort handle source p options =>
      owning w_leases handle (Ports.delivery_publish_port handle source p options)
  | CSendPort port p options => after (Ports.send_port_with port p options)
  | CRouteBatch => after route_batch
  | CClaim r => after (claim r)
  | CFinishDelivery handle success => owning w_leases handle (finish_delivery handle success)
  | CDropDelivery handle => owning w_leases handle (drop_delivery handle)
  | CRegisterService name target required => after (Services.register_service name target required)
  | CAcquireService owner name required => after (Services.acquire_service owner name required)
  | CAcquireServiceFrom owner name required expected => after (Services.acquire_service_from owner name required expected)
  | CReleaseService lease => after (Services.release_service lease)
  | CServicePort lease name p => after (Services.service_port lease name p)
  | CServiceSource lease output => after (Services.service_source lease output)
  | CRequestPort owner target p deadline options port => after (request_with_port owner target p deadline options (Some port))
  | CReportFailure r event_id schema operation details action =>
      after (Supervision.report_failure r event_id schema operation details action)
  | CClaimFailure supervisor => after (Supervision.claim_failure supervisor)
  | CFinishFailure handle action => owning w_failure_leases handle (Supervision.finish_failure handle action)
  | CDropFailure handle => owning w_failure_leases handle (Supervision.drop_failure handle)
  | CClaimHook owner startup => after (Callbacks.claim_native_callback owner startup)
  | CClaimDrainHook owner => after (Callbacks.claim_native_drain_callback owner)
  | CDropCallback handle => owning w_callbacks handle (Callbacks.drop_callback handle)
  | CReserveBuffer bytes => after (Buffers.reserve bytes)
  | CGrowBuffer handle additional => owning w_permits handle (Buffers.try_grow handle additional)
  | CDropBuffer handle => owning w_permits handle (Buffers.drop_permit handle)
  | CActivity actor => after (activity actor)
  | CPollActivity actor observed waker => after (poll_activity actor observed waker)
  | CPollRouting waker => after (poll_routing_ready waker)
  | CNow => after now
  | CDropTicket ticket => after (publications (Publications.drop_ticket ticket))
  end.
Fixpoint run_calls (cs : list call) (w : World) : option World :=
  match cs with
  | [] => Some w
  | c :: cs => run_call c w ≫= run_calls cs
  end.
(** The Worlds a program can reach from [World::with_clock]. *)
Definition world_reachable (w : World) : Prop :=
  ∃ id cfg clock w0 cs, with_clock id cfg clock = Ok w0 ∧ run_calls cs w0 = Some w.

(** ** Invariants along a run *)
Section runs.
Context `{!Accounting P}.
Definition call_keeps (f : World → option World) : Prop := ∀ w w', P [] None w → f w = Some w' → P [] None w'.
Lemma after_keeps {E A} (m : M World E A) : sound P m → call_keeps (after m).
Proof.
  intros Hm w w' Hw. unfold after. specialize (Hm w Hw). by destruct (m w) as [[a|err|] w1]; intros [= <-].
Qed.
Lemma owning_keeps {V A} (field : World → gmap N V) handle (m : WM A) : sound P m → call_keeps (owning field handle m).
Proof.
  intros Hm w w' Hw. unfold owning. case_bool_decide; [by eapply after_keeps|by intros [= <-]].
Qed.
Lemma with_held_keeps {A} i (m : Stored → WM A) :
  (∀ s, triple (P [s] None) (m s) (λ _, P [] None) (P [] None)) → call_keeps (with_held i m).
Proof.
  intros Hm w w' Hw. unfold with_held. destruct (w_held w !! i) as [s|] eqn:Hs; [|by intros [= <-]].
  assert (P [s] None w) as Hw'.
  { apply ac_dup; [|done]. apply shelf_reachable, shelf_elem. do 3 right. by eapply list_elem_of_lookup_2. }
  unfold after. specialize (Hm s w Hw'). by destruct (m s w) as [[a|err|] w1]; intros [= <-].
Qed.
Lemma framed_activity_version x actor : framed x (activity_version actor).
Proof. unfold activity_version, wake_retired. steps. Qed.
#[local] Hint Resolve framed_activity_version : steps.
Lemma framed_activity x actor : framed x (activity actor).
Proof. unfold activity. steps. Qed.
Lemma framed_poll_activity x actor observed waker : framed x (poll_activity actor observed waker).
Proof. unfold poll_activity, wake_retired. steps. Qed.
Lemma framed_poll_routing x waker : framed x (poll_routing_ready waker).
Proof. unfold poll_routing_ready. steps. Qed.
Lemma framed_advance_clock x by_ : framed x (advance_clock by_).
Proof. unfold advance_clock. steps. Qed.
Lemma sound_framed {E A} (m : M World E A) : framed [] m → sound P m.
Proof. apply triple_framed. Qed.
Lemma sound_route_batch : sound P route_batch.
Proof. apply sound_with_activity, triple_route_batch. Qed.
Lemma framed_register_schemas x schemas : framed x (register_schemas schemas).
Proof.
  unfold register_schemas. steps. apply (steps_zoom _ (λ _ _, True)); [|done]. intros w t _. by apply frame_same.
Qed.
Lemma sound_publish_completion handle source p : sound P (publish_completion handle source p).
Proof. unfold publish_completion, sound. do 2 (apply triple_framed_bind; [steps|intros ?]). apply sound_publish. Qed.
Lemma run_call_keeps c : call_keeps (run_call c).
Proof.
  destruct c; cbn [run_call];
    first [apply after_keeps|apply owning_keeps|apply with_held_keeps; intros s];
    first [solve [eauto with sound typeclass_instances]
          |apply sound_stable; solve [eauto with stable typeclass_instances]
          |apply sound_framed; first [apply framed_activity|apply framed_poll_activity|apply framed_poll_routing
             |apply framed_advance_clock|apply framed_register_schemas|apply framed_drop_held|apply framed_service_port|apply framed_service_source]
          |apply sound_route_batch|apply sound_publish_completion|apply sound_publish|idtac].
  - apply (triple_send_held r (MkHeld s world envelope)).
  - apply (triple_send_held_from owner target (MkHeld s world envelope)).
  - apply sound_framed. steps.
  - apply sound_framed. steps.
Qed.
Lemma run_calls_keep cs : ∀ w w', P [] None w → run_calls cs w = Some w' → P [] None w'.
Proof.
  induction cs as [|c cs IH]; intros w w' Hw; [by intros [= <-]|]. cbn [run_calls].
  destruct (run_call c w) as [w1|] eqn:Hc; [|done]. apply IH. by eapply run_call_keeps.
Qed.
(** An invariant of new Worlds holds in every World that can be reached. *)
Lemma reachable_keeps w :
  (∀ id cfg clock w0, with_clock id cfg clock = Ok w0 → P [] None w0) → world_reachable w → P [] None w.
Proof. intros Hnew (id & cfg & clock & w0 & cs & Hw0 & Hrun). eapply run_calls_keep; [by eapply Hnew|done]. Qed.
End runs.
Lemma with_clock_fields id cfg clock w :
  with_clock id cfg clock = Ok w →
  config_valid cfg = true ∧ w_cfg w = cfg ∧ w_id w = id ∧ w_actors w = [] ∧ w_free w = [] ∧ w_live_actors w = 0%N ∧
  w_permits w = ∅ ∧ w_leases w = ∅ ∧ w_held w = [] ∧ pt_entries (w_publications w) = ∅ ∧ ot_slots (w_operations w) = [].
Proof.
  unfold with_clock. destruct (config_valid cfg); [|done]. simpl. destruct (Clocks.now clock) as [epoch c].
  unfold Operations.new. repeat case_match; intros Hw; simplify_eq; simpl; split_and!; done.
Qed.

(** ** A run *)
Definition sample_root : ActorRef := MkActorRef 1 0 1.
Definition sample_child : ActorRef := MkActorRef 1 1 1.
Definition sample_calls : list call := [
  CAllocate EndpointKind.Native None; CActivate sample_root;
  CAllocate EndpointKind.Python (Some sample_root); CActivate sample_child;
  CSubscribe sample_root sample_child;
  CSend sample_child (Pulse 1) default_options;
  CPublish sample_root (Pulse 2) default_options; CRouteBatch;
  CHold (Pulse 3) default_options; CSendHeld sample_child 0 1 None;
  CReserveBuffer 100; CClaim sample_child;
  CAllocate EndpointKind.Native None; CStop (MkActorRef 1 2 1)].
Definition sample_run : option World :=
  match with_clock 1 config_default (Clocks.manual_at 0) with
  | Ok w => run_calls sample_calls w
  | _ => None
  end.
Lemma sample_reachable w : sample_run = Some w → world_reachable w.
Proof.
  unfold sample_run. destruct (with_clock _ _ _) as [w0| |] eqn:Hw0; [|done..]. intros Hrun. by exists 1%N, config_default, (Clocks.manual_at 0), w0, sample_calls.
Qed.
(** What is computed of the run holds of its last World. *)
Lemma sample_fact {A} (f : World → A) (v : A) w : f <$> sample_run = Some v → sample_run = Some w → f w = v.
Proof. intros Hf Hw. rewrite Hw in Hf. by injection Hf. Qed.
