(* ===== verification/WorldSlots.v ===== *)
(** * Actor slots

    The slots of the World, their references, the free list and the count of
    live actors agree after every sequence of calls: [slots_wf] is an
    [Accounting] invariant. *)
From S2P Require Import Prelude Collections Text Types Metadata Schema Routing Expiry Readiness Operations.
From S2P Require Import Diagnostics Publications SchemaRegistry Activity WorldState Admission Publishing Actors.
From S2P Require Import Messaging Components Steps WorldFrames WorldSteps ActorSteps MessageSteps WorldRuns.

Definition live_slot (o : option Actor) : bool := match o with Some a => negb (stopped a) | None => false end.

(** ** Lookups *)
Lemma actor_at_lookup w slot a : actor_at w slot = Some a ↔ w_actors w !! N.to_nat slot = Some (Some a).
Proof. unfold actor_at. split; [by repeat case_match; intros [= ->]|by intros ->]. Qed.
Lemma set_slot_actors slot f w : w_actors (set_slot slot f w) = alter (fmap f) (N.to_nat slot) (w_actors w).
Proof. done. Qed.
Lemma set_slot_some slot f w a :
  actor_at w slot = Some a → w_actors (set_slot slot f w) = <[N.to_nat slot := Some (f a)]> (w_actors w).
Proof.
  intros Ha. apply actor_at_lookup in Ha. rewrite set_slot_actors, list_insert_alter. apply list_alter_ext; [|done].
  intros o Ho. rewrite Ho in Ha. by injection Ha as ->.
Qed.
Lemma set_slot_none slot f w : actor_at w slot = None → w_actors (set_slot slot f w) = w_actors w.
Proof.
  intros Ha. rewrite set_slot_actors. apply list_eq. intros i. rewrite list_lookup_alter. case_decide; [|done]. subst.
  unfold actor_at in Ha. destruct (w_actors w !! _) as [[]|]; done.
Qed.

Lemma actor_at_update w slot f s b :
  actor_at (set_slot slot f w) s = Some b →
  (s = slot ∧ ∃ a, actor_at w slot = Some a ∧ b = f a) ∨ (s ≠ slot ∧ actor_at w s = Some b).
Proof.
  destruct (decide (slot = s)) as [<-|Hne].
  - rewrite actor_at_set_slot. destruct (actor_at w slot) as [a|]; [|done]. intros [= <-]. eauto.
  - rewrite actor_at_set_slot_ne by done. eauto.
Qed.
Lemma actor_at_reuse w slot a free s b :
  actor_at (reuse_slot slot a free w) s = Some b → (s = slot ∧ b = a) ∨ (s ≠ slot ∧ actor_at w s = Some b).
Proof.
  rewrite !actor_at_lookup. change (w_actors (reuse_slot slot a free w)) with (<[N.to_nat slot := Some a]> (w_actors w)).
  intros Hb. apply list_lookup_insert_Some in Hb as [(Hs & Hb & _)|[Hs Hb]]; [left|right]; (split; [lia|congruence]).
Qed.
Lemma actor_at_push w a s b :
  actor_at (push_actor a w) s = Some b →
  (s = N.of_nat (length (w_actors w)) ∧ b = a) ∨ (actor_at w s = Some b ∧ N.to_nat s < length (w_actors w)).
Proof.
  rewrite !actor_at_lookup. change (w_actors (push_actor a w)) with (w_actors w ++ [Some a]).
  intros Hb. apply lookup_app_Some in Hb as [Hb|[Hge Hb]]; [right; split; [done|by eapply lookup_lt_Some]|].
  left. apply list_lookup_singleton_Some in Hb as [Hs Hb]. split; [lia|congruence].
Qed.

(** ** Each step *)
(** An update of an actor that keeps its reference and whether it is stopped. *)
Lemma slots_wf_update w slot f :
  (∀ a, actor_at w slot = Some a →
     a_reference (f a) = a_reference a ∧ (a_state (f a) = Lifecycle.Stopped ↔ a_state a = Lifecycle.Stopped)) →
  slots_wf w → slots_wf (set_slot slot f w).
Proof.
  intros Hf [Hslot Hfree Hnd Hlive Hlen Hmax]. destruct (actor_at w slot) as [a|] eqn:Ha.
  2: { pose proof (set_slot_none slot f w Ha) as Hw.
       split; rewrite ?Hw; try done. intros s. rewrite Hfree. unfold actor_at. by rewrite Hw. }
  destruct (Hf a eq_refl) as [Hr Hs]. pose proof (set_slot_some slot f w a Ha) as Hw.
  pose proof (proj1 (actor_at_lookup _ _ _) Ha) as Hat. split; rewrite ?Hw; try done.
  - intros i o Ho. apply list_lookup_insert_Some in Ho as [(<- & <- & _)|[_ Ho]]; [|by apply Hslot].
    destruct (Hslot _ _ Hat) as (a' & Ha' & ?). injection Ha' as <-. exists (f a). by rewrite Hr.
  - intros s. rewrite Hfree. destruct (decide (slot = s)) as [<-|Hne].
    + rewrite actor_at_set_slot, Ha. simpl. split; intros (b & Hb & Hst); injection Hb as <-; naive_solver.
    + by rewrite actor_at_set_slot_ne.
  - pose proof (count_by_insert live_slot _ _ _ (Some (f a)) Hat) as Hc. change (w_live_actors (set_slot slot f w)) with (w_live_actors w).
    rewrite Hlive. fold live_slot. assert (live_slot (Some (f a)) = live_slot (Some a)) as Hl.
    { unfold live_slot, stopped. f_equal. by apply bool_decide_ext. }
    rewrite Hl in Hc. lia.
  - by rewrite length_insert.
Qed.
Lemma slots_wf_same w w' :
  w_id w' = w_id w → w_cfg w' = w_cfg w → w_actors w' = w_actors w → w_live_actors w' = w_live_actors w →
  w_free w' = w_free w → slots_wf w → slots_wf w'.
Proof.
  intros Hid Hc Ha Hl Hf []. split; rewrite ?Hid, ?Hc, ?Ha, ?Hl, ?Hf; try done.
  intros s. unfold actor_at in *. by rewrite Ha.
Qed.
Lemma slots_wf_retire w slot a :
  actor_at w slot = Some a → a_state a = Lifecycle.Stopping → slots_wf w → slots_wf (retire_slot slot w).
Proof.
  intros Ha Hst [Hslot Hfree Hnd Hlive Hlen Hmax]. set (f := λ a : Actor, a <| a_state := Lifecycle.Stopped |>).
  pose proof (set_slot_some slot f w a Ha) as Hw. pose proof (proj1 (actor_at_lookup _ _ _) Ha) as Hat.
  change (w_actors (set_slot slot f w)) with (w_actors (retire_slot slot w)) in Hw.
  split; rewrite ?Hw; try done.
  - intros i o Ho. apply list_lookup_insert_Some in Ho as [(<- & <- & _)|[_ Ho]]; [|by apply Hslot].
    destruct (Hslot _ _ Hat) as (a' & Ha' & ?). injection Ha' as <-. by exists (f a).
  - intros s. change (w_free (retire_slot slot w)) with (slot :: w_free w).
    change (actor_at (retire_slot slot w) s) with (actor_at (set_slot slot f w) s).
    rewrite elem_of_cons, Hfree. destruct (decide (slot = s)) as [<-|Hne].
    + rewrite actor_at_set_slot, Ha. split; [intros _; by exists (f a)|by left].
    + rewrite actor_at_set_slot_ne by done. naive_solver.
  - apply NoDup_cons. split; [|done]. rewrite Hfree. intros (b & Hb & Hs). rewrite Ha in Hb. injection Hb as <-. congruence.
  - pose proof (count_by_insert live_slot _ _ _ (Some (f a)) Hat) as Hc.
    change (w_live_actors (retire_slot slot w)) with (N.pred (w_live_actors w)). rewrite Hlive. fold live_slot.
    assert (live_slot (Some a) = true) as H1 by (cbn; unfold stopped; by rewrite Hst).
    rewrite H1 in Hc. change (live_slot (Some (f a))) with false in Hc. simpl in Hc. lia.
  - by rewrite length_insert.
Qed.
Lemma slots_wf_reuse w slot free old r order kind parent :
  w_free w = slot :: free → actor_at w slot = Some old →
  r = MkActorRef (w_id w) slot (ar_generation (a_reference old) + 1) →
  slots_wf w → slots_wf (reuse_slot slot (new_actor r order kind parent) free w).
Proof.
  intros Hf Ha Hr [Hslot Hfree Hnd Hlive Hlen Hmax]. set (a := new_actor r order kind parent).
  pose proof (proj1 (actor_at_lookup _ _ _) Ha) as Hat.
  assert (w_actors (reuse_slot slot a free w) = <[N.to_nat slot := Some a]> (w_actors w)) as Hw by done.
  rewrite Hf in Hfree, Hnd. apply NoDup_cons in Hnd as [Hnotin Hnd].
  destruct (proj1 (Hfree slot)) as (old' & Hold & Hst); [set_solver|]. rewrite Ha in Hold. injection Hold as <-.
  split; rewrite ?Hw; try done.
  - intros i o Ho. apply list_lookup_insert_Some in Ho as [(<- & <- & _)|[_ Ho]]; [|by apply Hslot].
    exists a. subst r. simpl. split_and!; [done|lia|done|lia].
  - intros s. change (w_free (reuse_slot slot a free w)) with free. unfold actor_at at 1. rewrite Hw.
    destruct (decide (slot = s)) as [<-|Hne].
    + rewrite list_lookup_insert_eq by (by eapply lookup_lt_Some). split; [done|]. intros (b & [= <-] & Hb). done.
    + rewrite list_lookup_insert_ne by lia. fold (actor_at w s). specialize (Hfree s). rewrite elem_of_cons in Hfree.
      naive_solver.
  - pose proof (count_by_insert live_slot _ _ _ (Some a) Hat) as Hc.
    change (w_live_actors (reuse_slot slot a free w)) with (N.succ (w_live_actors w)). rewrite Hlive. fold live_slot.
    assert (live_slot (Some old) = false) as H1 by (cbn; unfold stopped; by rewrite Hst).
    rewrite H1 in Hc. change (live_slot (Some a)) with true in Hc. simpl in Hc. lia.
  - by rewrite length_insert.
Qed.
Lemma slots_wf_push w slot r order kind parent :
  w_free w = [] → slot = N.of_nat (length (w_actors w)) → (w_live_actors w < max_actors (w_cfg w))%N →
  r = MkActorRef (w_id w) slot 1 → slots_wf w → slots_wf (push_actor (new_actor r order kind parent) w).
Proof.
  intros Hf Hs Hroom Hr [Hslot Hfree Hnd Hlive Hlen Hmax]. set (a := new_actor r order kind parent).
  assert (w_actors (push_actor a w) = w_actors w ++ [Some a]) as Hw by done.
  assert (count_by live_slot (w_actors w) = N.of_nat (length (w_actors w))) as Hall.
  { rewrite count_by_filter, filter_id; [done|]. intros o Ho. apply list_elem_of_lookup in Ho as [i Hi].
    destruct (Hslot i o Hi) as (b & -> & Hb & _). unfold live_slot, stopped. apply negb_true_iff, bool_decide_eq_false.
    intros Hst. assert (N.of_nat i ∈ w_free w) as Hin; [|by rewrite Hf in Hin; apply elem_of_nil in Hin].
    apply Hfree. exists b. split; [|done]. apply actor_at_lookup. by rewrite Nat2N.id. }
  split; rewrite ?Hw; try done.
  - intros i o Ho. apply lookup_app_Some in Ho as [Ho|[Hge Ho]]; [by apply Hslot|].
    destruct (i - length (w_actors w)) as [|n] eqn:Hi; [|by destruct n]. injection Ho as <-. exists a. subst r. simpl.
    split_and!; [done|lia|done|lia].
  - intros s. change (w_free (push_actor a w)) with (w_free w). rewrite Hfree.
    split; intros (b & Hb & Hst); exists b; (split; [|done]); apply actor_at_lookup in Hb; apply actor_at_lookup.
    + rewrite Hw. by apply lookup_app_l_Some.
    + rewrite Hw in Hb. apply lookup_app_Some in Hb as [Hb|[Hge Hb]]; [done|].
      destruct (N.to_nat s - length (w_actors w)) as [|n]; [|by destruct n]. by injection Hb as <-.
  - change (w_live_actors (push_actor a w)) with (N.succ (w_live_actors w)). fold live_slot. rewrite count_by_snoc.
    rewrite Hlive. fold live_slot. simpl. lia.
  - rewrite length_app. simpl. rewrite Hlive in Hroom. fold live_slot in Hroom. lia.
Qed.

#[export] Instance slots_accounting : Accounting (λ _ _, slots_wf).
Proof.
  split; try done.
  - intros x e w w' []. by apply slots_wf_same.
  - intros x e w slot f Hf. apply slots_wf_update. intros a Ha. by destruct (Hf a Ha).
  - intros x w. by apply slots_wf_same.
  - intros x id w slot f s a Ha [Hr Hs _ _ _ _ _ _ _ _]. apply slots_wf_update. intros b Hb. simplify_eq. by rewrite Hr, Hs.
  - intros x e w slot f s a Ha [Hr Hs _ _ _ _ _ _ _ _]. apply slots_wf_update. intros b Hb. simplify_eq. by rewrite Hr, Hs.
  - intros e w s _ _. by apply slots_wf_same.
  - intros e w h bytes _. by apply slots_wf_same.
  - intros e w h. by apply slots_wf_same.
  - intros x e w slot a. apply slots_wf_retire.
  - intros x e w slot free old r kind parent _. apply slots_wf_reuse.
  - intros x e w slot r kind parent _. apply slots_wf_push.
Qed.

(** ** Every reachable World *)
Lemma new_slots_wf id cfg clock w : with_clock id cfg clock = Ok w → slots_wf w.
Proof.
  intros Hw. apply with_clock_fields in Hw as (Hc & Hcfg & _ & Ha & Hf & Hl & _).
  assert (∀ slot, actor_at w slot = None) as Hnone by (intros slot; unfold actor_at; by rewrite Ha).
  split; rewrite ?Ha, ?Hf, ?Hl, ?Hcfg; try done.
  - intros slot. rewrite Hnone. split; [by intros ?%elem_of_nil|naive_solver].
  - constructor.
  - simpl. lia.
  - unfold config_valid in Hc. rewrite !andb_true_iff in Hc. apply N.leb_le. tauto.
Qed.
Lemma reachable_slots w : world_reachable w → slots_wf w.
Proof. apply (reachable_keeps (P := λ _ _, slots_wf)), new_slots_wf. Qed.

(** C9. In every World a program can reach, slot [i] holds the actor whose
    reference names slot [i]; the free list names, without repetition, exactly
    the slots of stopped actors; [live_actors] counts the others and stays within
    [max_actors]; and a reference that is accepted is the one its actor carries. *)
Theorem actor_slots_exact w :
  world_reachable w →
  slots_wf w ∧ (w_live_actors w ≤ max_actors (w_cfg w))%N ∧
  (∀ r a, find_ref w r = inr a → a_reference a = r) ∧
  (∀ slot a, actor_at w slot = Some a → find_ref w (a_reference a) = inr a).
Proof.
  intros Hw%reachable_slots. pose proof Hw as [Hslot Hfree Hnd Hlive Hlen Hmax].
  split; [done|]. split; [|split].
  - rewrite Hlive. pose proof (count_by_le_length live_slot (w_actors w)). fold live_slot. lia.
  - intros r a Ha. pose proof (find_ref_actor _ _ _ Ha) as Hat. apply actor_at_lookup in Hat.
    destruct (Hslot _ _ Hat) as (b & [= <-] & Hs & Hworld & _). unfold find_ref in Ha. repeat case_match; simplify_eq.
    destruct r as [rw rs rg], (a_reference a) as [aw asl ag]. simpl in *. repeat case_bool_decide; simplify_eq.
    f_equal; (done || congruence || lia).
  - intros slot a Ha. pose proof Ha as Hat. apply actor_at_lookup in Hat.
    destruct (Hslot _ _ Hat) as (b & [= <-] & Hs & Hworld & _). unfold find_ref. rewrite Hworld, Hs, N2Nat.id, Ha.
    by rewrite !bool_decide_false by auto.
Qed.
Lemma actor_slots_exact_witness :
  ∃ w, sample_run = Some w ∧ w_free w = [2%N] ∧ slots_wf w.
Proof.
  destruct sample_run as [w|] eqn:Hw; [|vm_compute in Hw; discriminate]. exists w. split; [reflexivity|].
  split; [|exact (proj1 (actor_slots_exact w (sample_reachable w Hw)))].
  apply (sample_fact w_free); [vm_compute; reflexivity|exact Hw].
Defined.
