(* ===== verification/Mailboxes.v ===== *)
(** * Mailboxes

    Every queue and staging area stays within its count and byte limits, its
    byte counter is the sum of its content, and events are queued in the order
    of their admission, each in one mailbox only. *)
From S2P Require Import Prelude Collections Text Types Metadata Schema Routing Expiry Readiness Operations.
From S2P Require Import Diagnostics Publications SchemaRegistry Activity WorldState Admission Publishing Actors.
From S2P Require Import Messaging Components Steps WorldFrames WorldSteps ActorSteps MessageSteps WorldRuns WorldSlots.

Definition queue_ids (a : Actor) : list N := (queue_view a).*1.
Record mailbox_wf (cfg : Config) (a : Actor) : Prop := {
  mb_length : (N.of_nat (length (a_queue a)) ≤ mailbox_capacity cfg)%N;
  mb_bytes : a_queue_bytes a = bytes_of_queue a;
  mb_bound : (a_queue_bytes a ≤ mailbox_bytes cfg)%N;
  mb_staged_length : (N.of_nat (length (a_staged a)) ≤ mailbox_capacity cfg)%N;
  mb_staged_bytes : a_staged_bytes a = bytes_of_staged a;
  mb_staged_bound : (a_staged_bytes a ≤ mailbox_bytes cfg)%N;
  mb_sorted : StronglySorted N.lt (queue_ids a);
}.
(** [e] is the event id that is drawn but not used yet; the events of [L] have left the
    queues for good. *)
Record mailboxes_wf (L : gset N) (e : option N) (w : World) : Prop := {
  mw_slots : slots_wf w;
  mw_mailbox slot a : actor_at w slot = Some a → mailbox_wf (w_cfg w) a;
  mw_past slot a id : actor_at w slot = Some a → id ∈ queue_ids a → (id < default (w_next_event w) e)%N;
  mw_drawn id : e = Some id → (id < w_next_event w)%N;
  mw_unique slot slot' a a' id :
    actor_at w slot = Some a → actor_at w slot' = Some a' → id ∈ queue_ids a → id ∈ queue_ids a' → slot = slot';
  mw_left id : id ∈ L → (id < default (w_next_event w) e)%N;
  mw_gone slot a id : actor_at w slot = Some a → id ∈ queue_ids a → id ∉ L;
}.

(** ** Queues *)
Lemma length_queue_view a : length (queue_view a) = length (a_queue a).
Proof. apply length_fmap. Qed.
Lemma length_staged_view a : length (staged_view a) = length (a_staged a).
Proof. apply length_fmap. Qed.
Lemma sublist_ids a a' : queue_view a' `sublist_of` queue_view a → queue_ids a' `sublist_of` queue_ids a.
Proof. apply sublist_of_fmap. Qed.
Lemma sublist_sorted (l l' : list N) : l `sublist_of` l' → StronglySorted N.lt l' → StronglySorted N.lt l.
Proof.
  induction 1 as [|x l l' Hl IH|x l l' Hl IH]; intros Hs; [done|..]; apply StronglySorted_inv in Hs as [Hs Hx]; [|by apply IH].
  constructor; [by apply IH|]. rewrite Forall_forall in *. intros y Hy. apply Hx. by eapply elem_of_submseteq; [|apply sublist_submseteq].
Qed.
Lemma accounted_exact bytes bytes' content content' (empty : Prop) :
  accounted bytes bytes' content content' empty → (empty → content' = 0%N) → bytes = content → bytes' = content'.
Proof. intros [H|[He ->]] H0 ->; [lia|]. by rewrite H0. Qed.
Lemma sublist_bytes {A} (f : A → N) l l' : l `sublist_of` l' → (sum_by f l ≤ sum_by f l')%N.
Proof. induction 1; simpl; lia. Qed.
Lemma mailbox_evolves cfg a a' : evolves a a' → mailbox_wf cfg a → mailbox_wf cfg a'.
Proof.
  intros [_ _ _ Hq Hqb Hg Hgb _ _] [Hl Hb Hbd Hsl Hsb Hsbd Hs].
  assert (a_queue_bytes a' = bytes_of_queue a') as Hqe.
  { eapply accounted_exact; [done| |done]. intros He. unfold bytes_of_queue, queue_view. by rewrite He. }
  assert (a_staged_bytes a' = bytes_of_staged a') as Hge.
  { eapply accounted_exact; [done| |done]. intros He. unfold bytes_of_staged, staged_view. by rewrite He. }
  pose proof (sublist_length _ _ Hq). pose proof (sublist_length _ _ Hg).
  rewrite !length_queue_view, !length_staged_view in *. split; try done; try lia.
  - rewrite Hqe. pose proof (sublist_bytes (λ p : N * Stored, stored_bytes p.2) _ _ Hq). unfold bytes_of_queue in *. lia.
  - rewrite Hge. pose proof (sublist_bytes stored_bytes _ _ Hg). unfold bytes_of_staged in *. lia.
  - eapply sublist_sorted; [by apply sublist_ids|done].
Qed.
Lemma sorted_snoc_ids (l : list N) x : StronglySorted N.lt l → (∀ y, y ∈ l → (y < x)%N) → StronglySorted N.lt (l ++ [x]).
Proof.
  intros Hs Hx. induction Hs as [|y l Hs IH Hy]; simpl; [repeat constructor|].
  constructor; [apply IH; set_solver|]. apply Forall_app. split; [done|]. constructor; [apply Hx; set_solver|constructor].
Qed.
Lemma mailbox_enqueues cfg id s a a' :
  enqueues cfg id s a a' → (∀ y, y ∈ queue_ids a → (y < id)%N) → mailbox_wf cfg a → mailbox_wf cfg a'.
Proof.
  intros [_ _ Hroom Hbroom Hq Hqb Hg Hgb] Hid [Hl Hb Hbd Hsl Hsb Hsbd Hs].
  pose proof (f_equal length Hq) as Hlen. pose proof (f_equal length Hg) as Hglen.
  rewrite length_app, !length_queue_view in Hlen. rewrite !length_staged_view in Hglen. simpl in Hlen.
  split; try lia.
  - rewrite Hqb, Hb. unfold bytes_of_queue. rewrite Hq, sum_by_app. simpl. lia.
  - rewrite Hgb, Hsb. unfold bytes_of_staged. by rewrite Hg.
  - unfold queue_ids. rewrite Hq, fmap_app. by apply sorted_snoc_ids.
Qed.
Lemma mailbox_stages cfg s a a' : stages cfg s a a' → mailbox_wf cfg a → mailbox_wf cfg a'.
Proof.
  intros [_ _ Hroom Hbroom Hq Hqb Hg Hgb _ _] [Hl Hb Hbd Hsl Hsb Hsbd Hs].
  pose proof (f_equal length Hq) as Hlen. pose proof (f_equal length Hg) as Hglen.
  rewrite !length_queue_view in Hlen. rewrite length_app, !length_staged_view in Hglen. simpl in Hglen.
  split; try lia.
  - rewrite Hqb, Hb. unfold bytes_of_queue. by rewrite Hq.
  - rewrite Hgb, Hsb. unfold bytes_of_staged. rewrite Hg, sum_by_app. simpl. lia.
  - unfold queue_ids. by rewrite Hq.
Qed.
Lemma mailbox_new cfg r order kind parent : mailbox_wf cfg (new_actor r order kind parent).
Proof. split; simpl; try done; try lia. constructor. Qed.

(** ** Each step *)
Lemma mailboxes_step L e e' w w' slot :
  slots_wf w' → w_cfg w' = w_cfg w → w_next_event w' = w_next_event w → e' = e ∨ e' = None →
  (∀ s b, actor_at w' s = Some b → mailbox_wf (w_cfg w) b ∧
     ∀ id, id ∈ queue_ids b →
       (∃ b0, actor_at w s = Some b0 ∧ id ∈ queue_ids b0) ∨ (e = Some id ∧ e' = None ∧ s = slot)) →
  mailboxes_wf L e w → mailboxes_wf L e' w'.
Proof.
  intros Hs' Hc Hn He Hstep [Hs Hm Hp Hd Hu Hl Hg].
  assert (∀ s b id, actor_at w s = Some b → id ∈ queue_ids b → (id < w_next_event w)%N) as Hold.
  { intros s b id Hb Hid. specialize (Hp s b id Hb Hid). destruct e as [d|]; [specialize (Hd d eq_refl)|]; simpl in *; lia. }
  split; rewrite ?Hc, ?Hn; try done.
  - intros s b Hb. by apply (Hstep s b Hb).
  - intros s b id Hb Hid. destruct (proj2 (Hstep s b Hb) id Hid) as [(b0 & Hb0 & Hid0)|(-> & -> & _)]; [|by apply Hd].
    destruct He as [->| ->]; [by eapply Hp|by eapply Hold].
  - intros id ->. destruct He as [<-|]; [by apply Hd|done].
  - intros s s' b b' id Hb Hb' Hid Hid'.
    destruct (proj2 (Hstep s b Hb) id Hid) as [(b0 & Hb0 & Hid0)|(-> & _ & ->)],
      (proj2 (Hstep s' b' Hb') id Hid') as [(b1 & Hb1 & Hid1)|(He1 & _ & ->)]; [by eapply Hu| | |done].
    + subst e. specialize (Hp _ _ _ Hb0 Hid0). simpl in Hp. lia.
    + specialize (Hp _ _ _ Hb1 Hid1). simpl in Hp. lia.
  - intros id Hid. specialize (Hl id Hid). destruct He as [->| ->]; [done|].
    destruct e as [d|]; [specialize (Hd d eq_refl)|]; simpl in *; lia.
  - intros s b id Hb Hid. destruct (proj2 (Hstep s b Hb) id Hid) as [(b0 & Hb0 & Hid0)|(-> & _)]; [by eapply Hg|].
    intros Hin%Hl. simpl in Hin. lia.
Qed.
Lemma mailboxes_set L e e' w slot f a :
  actor_at w slot = Some a → slots_wf (set_slot slot f w) → mailbox_wf (w_cfg w) (f a) → e' = e ∨ e' = None →
  (∀ id, id ∈ queue_ids (f a) → id ∈ queue_ids a ∨ (e = Some id ∧ e' = None)) →
  mailboxes_wf L e w → mailboxes_wf L e' (set_slot slot f w).
Proof.
  intros Ha Hs Hm He Hid Hw. eapply (mailboxes_step L e e' w _ slot); [done|done|done|done| |done].
  intros s b Hb. apply actor_at_update in Hb as [(-> & a' & Ha' & ->)|[Hne Hb]].
  - rewrite Ha in Ha'. injection Ha' as <-. split; [done|]. intros id Hin. destruct (Hid id Hin); [left|right]; naive_solver.
  - split; [by eapply mw_mailbox|]. intros id Hin. left. eauto.
Qed.
Lemma mailboxes_same L e e' w w' :
  w_cfg w' = w_cfg w → w_next_event w' = w_next_event w → w_actors w' = w_actors w → slots_wf w' →
  e' = e ∨ e' = None → mailboxes_wf L e w → mailboxes_wf L e' w'.
Proof.
  intros Hc Hn Ha Hs He Hw. eapply (mailboxes_step L e e' w w' 0); [done..| |done].
  intros s b. unfold actor_at. rewrite Ha. intros Hb. split; [eapply mw_mailbox; [done|exact Hb]|]. intros id Hid. left. eauto.
Qed.
#[export] Instance mailboxes_accounting L : Accounting (λ _, mailboxes_wf L).
Proof.
  split; try done.
  - by intros x e w [].
  - intros x e w Hw. eapply mailboxes_same; [done..|apply Hw|by right|exact Hw].
  - intros x e w w' Hf Hw. pose proof (ac_frame (P := λ _ _, slots_wf) x e w w' Hf (mw_slots _ _ _ Hw)). destruct Hf.
    eapply mailboxes_same; [done..|by left|done].
  - intros x e w slot f Hf Hw. pose proof (ac_update (P := λ _ _, slots_wf) x e w slot f Hf (mw_slots _ _ _ Hw)) as Hs.
    destruct (actor_at w slot) as [a|] eqn:Ha.
    + specialize (Hf a eq_refl). eapply mailboxes_set; [done|done| |by left| |done].
      * eapply mailbox_evolves; [done|by eapply mw_mailbox].
      * intros id Hid. left. destruct Hf. eapply elem_of_submseteq; [done|]. by apply sublist_submseteq, sublist_ids.
    + eapply (mailboxes_same L e e w); [done|done|by apply set_slot_none|done|by left|done].
  - intros x w Hw. destruct Hw as [Hs Hm Hp Hd Hu]. split; try done.
    + by eapply (ac_event (P := λ _ _, slots_wf) x).
    + intros id [= <-]. cbn. lia.
  - intros x id w slot f s a Ha He Hw. eapply mailboxes_set; [done| | |by right| |done].
    + by apply (ac_enqueue (P := λ _ _, slots_wf) x id w slot f s a Ha He (mw_slots _ _ _ Hw)).
    + eapply mailbox_enqueues; [done| |by eapply mw_mailbox]. intros y. by apply (mw_past _ _ _ Hw slot).
    + intros y. unfold queue_ids. rewrite (en_queue _ _ _ _ _ He), fmap_app. simpl. rewrite elem_of_app, list_elem_of_singleton.
      intros [?| ->]; eauto.
  - intros x e w slot f s a Ha Hg Hw. eapply mailboxes_set; [done| | |by left| |done].
    + by apply (ac_stage (P := λ _ _, slots_wf) x e w slot f s a Ha Hg (mw_slots _ _ _ Hw)).
    + eapply mailbox_stages; [done|by eapply mw_mailbox].
    + intros y. unfold queue_ids. rewrite (sg_queue _ _ _ _ Hg). eauto.
  - intros e w s _ _ Hw. apply (mailboxes_same L e e w); [done..| |by left|done]. eapply slots_wf_same, Hw; done.
  - intros e w h bytes _ Hw. apply (mailboxes_same L e e w); [done..| |by left|done]. eapply slots_wf_same, Hw; done.
  - intros e w h Hw. apply (mailboxes_same L e e w); [done..| |by left|done]. eapply slots_wf_same, Hw; done.
  - intros x e w slot a Ha Hst Hw. pose proof (slots_wf_retire _ _ _ Ha Hst (mw_slots _ _ _ Hw)) as Hs.
    eapply (mailboxes_step L e e w _ 0); [done|done|done|by left| |done]. intros s b Hb.
    apply (actor_at_update w slot) in Hb as [(-> & a' & Ha' & ->)|[Hne Hb]]; [|split; [by eapply mw_mailbox|eauto]].
    destruct (mw_mailbox _ _ _ Hw _ _ Ha'). split; [by split|]. eauto.
  - intros x e w slot free old r kind parent _ Hf Ha Hr Hw.
    pose proof (slots_wf_reuse w slot free old r (w_next_ready_order w) kind parent Hf Ha Hr (mw_slots _ _ _ Hw)) as Hs.
    eapply (mailboxes_step L e e w _ 0); [done|done|done|by left| |done]. intros s b Hb.
    apply actor_at_reuse in Hb as [[-> ->]|[Hne Hb]]; [|split; [by eapply mw_mailbox|eauto]].
    split; [apply mailbox_new|]. intros id Hid. by apply elem_of_nil in Hid.
  - intros x e w slot r kind parent _ Hf Hs0 Hroom Hr Hw.
    pose proof (slots_wf_push w slot r (w_next_ready_order w) kind parent Hf Hs0 Hroom Hr (mw_slots _ _ _ Hw)) as Hs.
    eapply (mailboxes_step L e e w _ 0); [done|done|done|by left| |done]. intros s b Hb.
    apply actor_at_push in Hb as [[-> ->]|[Hb _]]; [|split; [by eapply mw_mailbox|eauto]].
    split; [apply mailbox_new|]. intros id Hid. by apply elem_of_nil in Hid.
Qed.

(** ** Every reachable World *)
Lemma new_mailboxes_wf id cfg clock w : with_clock id cfg clock = Ok w → mailboxes_wf ∅ None w.
Proof.
  intros Hw. pose proof (new_slots_wf _ _ _ _ Hw) as Hs. apply with_clock_fields in Hw as (_ & _ & _ & Ha & _).
  assert (∀ slot, actor_at w slot = None) as Hnone by (intros slot; unfold actor_at; by rewrite Ha).
  split; try done; intros; by rewrite Hnone in *.
Qed.
Lemma reachable_mailboxes w : world_reachable w → mailboxes_wf ∅ None w.
Proof. apply (reachable_keeps (P := λ _, mailboxes_wf ∅)), new_mailboxes_wf. Qed.

(** C6. Mailboxes are bounded and first in, first out: in every reachable World
    each queue and each staging area is within its count and byte limit, its
    byte counter is the sum of its content, the events of a queue are in the
    order of their admission, and no event is in two mailboxes. *)
Theorem mailboxes_bounded_fifo w slot a :
  world_reachable w → actor_at w slot = Some a →
  mailbox_wf (w_cfg w) a ∧
  (∀ id, id ∈ queue_ids a → (id < w_next_event w)%N) ∧
  (∀ slot' a' id, actor_at w slot' = Some a' → id ∈ queue_ids a → id ∈ queue_ids a' → slot' = slot).
Proof.
  intros Hw%reachable_mailboxes Ha. destruct Hw as [_ Hm Hp _ Hu]. split_and!; [eauto|eauto|].
  intros slot' a' id Ha' Hid Hid'. by eapply Hu.
Qed.
Lemma mailboxes_bounded_fifo_witness :
  ∃ w a, sample_run = Some w ∧ actor_at w 1 = Some a ∧ queue_ids a = [2%N; 3%N] ∧ mailbox_wf (w_cfg w) a.
Proof.
  destruct sample_run as [w|] eqn:Hw; [|vm_compute in Hw; discriminate].
  assert (queue_ids <$> actor_at w 1 = Some [2%N; 3%N]) as H
    by (apply (sample_fact (λ w, queue_ids <$> actor_at w 1)); [vm_compute; reflexivity|exact Hw]).
  destruct (actor_at w 1) as [a|] eqn:Ha; [|discriminate].
  exists w, a. split; [reflexivity|]. split; [exact Ha|]. split; [by injection H|].
  exact (proj1 (mailboxes_bounded_fifo w 1 a (sample_reachable w Hw) Ha)).
Defined.
