(* ===== verification/Budget.v ===== *)
(** * The byte budget

    Payloads and native buffers share one budget: the bytes of the distinct
    payloads that anything still refers to, with the buffer permits, never
    exceed [native_payload_budget]. *)
From S2P Require Import Prelude Collections Text Types Metadata Schema Routing Expiry Readiness Operations.
From S2P Require Import Diagnostics Publications SchemaRegistry Activity WorldState Admission Publishing Actors.
From S2P Require Import Messaging Components Steps WorldFrames WorldSteps ActorSteps MessageSteps WorldRuns WorldSlots.

(** ** The bytes of the distinct payloads of a list *)
Definition distinct_bytes (l : list Stored) : N :=
  sum_map (λ _ b, b) (list_to_map ((λ s, (stored_id s, stored_bytes s)) <$> l) : gmap N N).
Definition permit_bytes (w : World) : N := sum_map (λ _ b, b) (w_permits w).
Lemma retained_distinct w : retained_bytes w = (distinct_bytes (reachable w) + permit_bytes w)%N.
Proof. done. Qed.
Definition one_per_id (l : list Stored) : Prop :=
  ∀ s s', s ∈ l → s' ∈ l → stored_id s = stored_id s' → stored_bytes s = stored_bytes s'.

Lemma sum_map_subseteq (m1 m2 : gmap N N) : m1 ⊆ m2 → (sum_map (λ _ b, b) m1 ≤ sum_map (λ _ b, b) m2)%N.
Proof.
  revert m2. induction m1 as [|k v m1 Hk IH] using map_ind; intros m2 Hm; [rewrite sum_map_empty; lia|].
  rewrite sum_map_insert by done. assert (m2 !! k = Some v) as Hk2.
  { eapply lookup_weaken; [|done]. by rewrite lookup_insert_eq. }
  rewrite (sum_map_delete _ m2 k v Hk2). specialize (IH (delete k m2)).
  assert (m1 ⊆ delete k m2); [|specialize (IH ltac:(done)); lia].
  apply map_subseteq_spec. intros i b Hi. rewrite lookup_delete_ne by congruence.
  eapply lookup_weaken; [|done]. rewrite lookup_insert_ne; congruence.
Qed.
Lemma distinct_lookup l i b :
  one_per_id l →
  (list_to_map ((λ s, (stored_id s, stored_bytes s)) <$> l) : gmap N N) !! i = Some b ↔
  ∃ s, s ∈ l ∧ stored_id s = i ∧ stored_bytes s = b.
Proof.
  intros Hl. induction l as [|s l IH]; simpl.
  - rewrite lookup_empty. split; [done|]. intros (s & Hs & _). by apply elem_of_nil in Hs.
  - assert (one_per_id l) as Hl' by (intros ????; apply Hl; set_solver). specialize (IH Hl').
    rewrite lookup_insert_Some, IH. split.
    + intros [[<- <-]|[Hne (s' & Hs' & <- & <-)]]; eexists; (split; [|done]); set_solver.
    + intros (s' & Hs' & <- & <-). apply elem_of_cons in Hs' as [->|Hs']; [by left|].
      destruct (decide (stored_id s = stored_id s')) as [Heq|Hne]; [left|right; eauto].
      split; [done|]. apply Hl; set_solver.
Qed.
Lemma distinct_mono l l' : one_per_id l' → l ⊆ l' → (distinct_bytes l ≤ distinct_bytes l')%N.
Proof.
  intros Hl' Hsub. assert (one_per_id l) as Hl by (intros ????; apply Hl'; auto).
  apply sum_map_subseteq, map_subseteq_spec. intros i b. rewrite !distinct_lookup by done. naive_solver.
Qed.
Lemma distinct_cons s l : (distinct_bytes (s :: l) ≤ stored_bytes s + distinct_bytes l)%N.
Proof.
  unfold distinct_bytes. rewrite fmap_cons, list_to_map_cons.
  set (m := list_to_map ((λ s, (stored_id s, stored_bytes s)) <$> l) : gmap N N). destruct (m !! stored_id s) as [b|] eqn:Hm.
  - pose proof (sum_map_update (λ _ b, b) m _ _ (stored_bytes s) Hm) as H. cbv beta in H. lia.
  - rewrite sum_map_insert by done. lia.
Qed.

(** ** The invariant *)
Record budget_wf (x : list Stored) (w : World) : Prop := {
  bw_slots : slots_wf w;
  bw_ids : one_per_id (x ++ reachable w);
  bw_past s : s ∈ x ++ reachable w → (stored_id s < w_next_stored w)%N;
  bw_budget : (distinct_bytes (x ++ reachable w) + permit_bytes w ≤ native_payload_budget (w_cfg w))%N;
}.
Lemma budget_step x x' w w' :
  slots_wf w' → w_cfg w' = w_cfg w → w_next_stored w' = w_next_stored w → (permit_bytes w' ≤ permit_bytes w)%N →
  x' ++ reachable w' ⊆ x ++ reachable w → budget_wf x w → budget_wf x' w'.
Proof.
  intros Hs' Hc Hn Hp Hsub [Hs Hids Hpast Hb]. split; rewrite ?Hc, ?Hn; [done| | |].
  - intros ????; apply Hids; auto.
  - auto.
  - pose proof (distinct_mono _ _ Hids Hsub). lia.
Qed.
Lemma elem_of_reachable w s :
  s ∈ reachable w ↔ (∃ slot a, actor_at w slot = Some a ∧ s ∈ actor_stored a) ∨ s ∈ shelf w.
Proof. by rewrite reachable_split, elem_of_app, elem_of_actor_stored. Qed.
(** Payloads only move between the actors and the locals of the method. *)
Lemma budget_actors x w w' :
  slots_wf w' → w_cfg w' = w_cfg w → w_next_stored w' = w_next_stored w → w_permits w' = w_permits w → shelf w' = shelf w →
  (∀ slot a, actor_at w' slot = Some a → ∀ s, s ∈ actor_stored a →
     s ∈ x ∨ ∃ slot a, actor_at w slot = Some a ∧ s ∈ actor_stored a) →
  budget_wf x w → budget_wf x w'.
Proof.
  intros Hs Hc Hn Hp Hshelf Ha. apply budget_step; [done..|unfold permit_bytes; rewrite Hp; done|].
  intros s. rewrite !elem_of_app, !elem_of_reachable, Hshelf. intros [?|[(slot & a & Hat & Hin)|?]]; [tauto| |tauto].
  destruct (Ha slot a Hat s Hin); tauto.
Qed.
Lemma actor_stored_views a : actor_stored a = (queue_view a).*2 ++ staged_view a.
Proof. unfold actor_stored, queue_view, staged_view. by rewrite <- list_fmap_compose. Qed.
Lemma evolves_stored a a' s : evolves a a' → s ∈ actor_stored a' → s ∈ actor_stored a.
Proof.
  intros [_ _ _ Hq _ Hg _ _ _]. rewrite !actor_stored_views, !elem_of_app. intros [Hs|Hs]; [left|right].
  - eapply elem_of_submseteq; [exact Hs|]. by apply sublist_submseteq, sublist_of_fmap.
  - eapply elem_of_submseteq; [exact Hs|]. by apply sublist_submseteq.
Qed.

(** ** Each step *)
Lemma budget_set x w slot f a :
  slots_wf (set_slot slot f w) → actor_at w slot = Some a → (∀ s, s ∈ actor_stored (f a) → s ∈ x ∨ s ∈ actor_stored a) →
  budget_wf x w → budget_wf x (set_slot slot f w).
Proof.
  intros Hs Ha Hf. apply budget_actors; [done..|]. intros slot' b Hb s Hin.
  apply actor_at_update in Hb as [(-> & a' & Ha' & ->)|[Hne Hb]]; [|right; eauto].
  simplify_eq. destruct (Hf s Hin); [by left|right; eauto].
Qed.
Lemma budget_same x w w' :
  w_id w' = w_id w → w_cfg w' = w_cfg w → w_actors w' = w_actors w → w_live_actors w' = w_live_actors w →
  w_free w' = w_free w → w_next_stored w' = w_next_stored w → (permit_bytes w' ≤ permit_bytes w)%N → shelf w' = shelf w →
  budget_wf x w → budget_wf x w'.
Proof.
  intros Hid Hc Ha Hl Hf Hn Hp Hsh Hw. apply (budget_step x x w); [|done..| |done].
  - by eapply slots_wf_same, Hw.
  - intros s. by rewrite !reachable_split, Ha, Hsh.
Qed.
Lemma actor_stored_new r order kind parent : actor_stored (new_actor r order kind parent) = [].
Proof. done. Qed.
#[export] Instance budget_accounting : Accounting (λ x _, budget_wf x).
Proof.
  split; try done.
  - by intros x e w [].
  - intros x e w s Hs Hw. eapply (budget_step x); [apply Hw|done..| |done]. intros s' Hs'. set_solver.
  - intros x e w s Hw. eapply (budget_step (s :: x)); [apply Hw|done..| |done]. intros s' Hs'. set_solver.
  - intros x e w w' Hf Hw. apply (budget_step x x w); [|apply Hf|apply Hf| | |done].
    + by eapply (ac_frame (P := λ _ _, slots_wf) x e), Hw.
    + unfold permit_bytes. by rewrite (fr_permits _ _ _ Hf).
    + intros s. rewrite !elem_of_app. intros [?|Hs]; [by left|]. rewrite reachable_split, elem_of_app in Hs.
      destruct Hs as [Hs|Hs]; [right|by apply (fr_shelf _ _ _ Hf)].
      rewrite reachable_split, elem_of_app. left. by rewrite <- (fr_actors _ _ _ Hf).
  - intros x e w slot f Hf Hw. pose proof (ac_update (P := λ _ _, slots_wf) x e w slot f Hf (bw_slots _ _ Hw)) as Hs.
    destruct (actor_at w slot) as [a|] eqn:Ha.
    + eapply budget_set; [done|done| |done]. intros s Hin. right. by eapply evolves_stored; [apply Hf|].
    + apply (budget_same x w); try done. by apply set_slot_none.
  - intros x w Hw. by apply (budget_same x w).
  - intros x id w slot f s a Ha He Hw. eapply budget_set; [|done| |done].
    + by apply (ac_enqueue (P := λ _ _, slots_wf) x id w slot f s a Ha He (bw_slots _ _ Hw)).
    + intros s'. rewrite !actor_stored_views, (en_queue _ _ _ _ _ He), (en_staged _ _ _ _ _ He), fmap_app. cbn.
      rewrite !elem_of_app. intros [[?|?]|?]; [tauto| |tauto]. left. set_solver.
  - intros x e w slot f s a Ha Hg Hw. eapply budget_set; [|done| |done].
    + by apply (ac_stage (P := λ _ _, slots_wf) x e w slot f s a Ha Hg (bw_slots _ _ Hw)).
    + intros s'. rewrite !actor_stored_views, (sg_queue _ _ _ _ Hg), (sg_staged _ _ _ _ Hg).
      rewrite !elem_of_app. intros [?|[?|?]]; [tauto|tauto|]. left. set_solver.
  - intros e w s Hid Hb [Hs Hids Hpast Hbud]. rewrite retained_distinct in Hb.
    split; [by eapply slots_wf_same, Hs|..]; cbn [app] in *.
    + change (reachable (w <| w_next_stored ::= N.succ |>)) with (reachable w).
      assert (∀ p, p ∈ reachable w → stored_id s ≠ stored_id p) as Hne by (intros p Hp; specialize (Hpast p Hp); lia).
      intros p p' Hp Hp'. apply elem_of_cons in Hp as [->|Hp], Hp' as [->|Hp']; [done|naive_solver..|by apply Hids].
    + intros p Hp. apply elem_of_cons in Hp as [->|Hp]; [cbn; lia|]. specialize (Hpast p Hp). cbn. lia.
    + pose proof (distinct_cons s (reachable w)). change (reachable (w <| w_next_stored ::= N.succ |>)) with (reachable w).
      change (permit_bytes (w <| w_next_stored ::= N.succ |>)) with (permit_bytes w). cbn [w_cfg]. cbn in *. lia.
  - intros e w h bytes Hb [Hs Hids Hpast Hbud]. rewrite retained_distinct in Hb.
    split; [by eapply slots_wf_same, Hs|done|done|].
    change (reachable (w <| w_permits ::= <[h:=bytes]> |>)) with (reachable w). cbn [app] in *.
    change (w_cfg (w <| w_permits ::= <[h:=bytes]> |>)) with (w_cfg w).
    assert (permit_bytes (w <| w_permits ::= <[h:=bytes]> |>) + default 0 (w_permits w !! h) = permit_bytes w + bytes)%N as Hp.
    { unfold permit_bytes. cbn. destruct (w_permits w !! h) as [b|] eqn:Hh; simpl.
      - pose proof (sum_map_update (λ _ b, b) _ _ _ bytes Hh) as H. cbv beta in H. lia.
      - rewrite sum_map_insert by done. lia. }
    lia.
  - intros e w h Hw. apply (budget_same [] w); try done. unfold permit_bytes. cbn.
    apply sum_map_subseteq, delete_subseteq.
  - intros x e w slot a Ha Hst Hw. apply (budget_actors x w); try done; [by eapply slots_wf_retire, Hw|].
    intros slot' b Hb s Hin. right. apply (actor_at_update w slot) in Hb as [(-> & a' & Ha' & ->)|[Hne Hb]]; eauto.
  - intros x e w slot free old r kind parent _ Hf Ha Hr Hw.
    apply (budget_actors x w); try done; [by eapply slots_wf_reuse, Hw|].
    intros s b Hb p Hin. apply actor_at_reuse in Hb as [[-> ->]|[Hne Hb]]; [by apply elem_of_nil in Hin|]. right. eauto.
  - intros x e w slot r kind parent _ Hf Hs0 Hroom Hr Hw.
    apply (budget_actors x w); try done; [by eapply slots_wf_push, Hw|].
    intros s b Hb p Hin. apply actor_at_push in Hb as [[-> ->]|[Hb _]]; [by apply elem_of_nil in Hin|]. right. eauto.
Qed.

(** ** Every reachable World *)
Lemma new_budget_wf id cfg clock w : with_clock id cfg clock = Ok w → budget_wf [] w.
Proof.
  intros Hw. pose proof (new_slots_wf _ _ _ _ Hw) as Hs.
  apply with_clock_fields in Hw as (_ & _ & _ & Ha & _ & _ & Hp & Hl & Hh & Hpub & Hops).
  assert (reachable w = []) as Hr.
  { unfold reachable. rewrite Ha, Hl, Hh, Hpub, Hops. rewrite !map_to_list_empty. done. }
  split; simpl; rewrite ?Hr; try done.
  - intros s s' Hin. by apply elem_of_nil in Hin.
  - intros s Hin. by apply elem_of_nil in Hin.
  - unfold permit_bytes. rewrite Hp, sum_map_empty. change (distinct_bytes []) with 0%N. lia.
Qed.
Lemma reachable_budget w : world_reachable w → budget_wf [] w.
Proof. apply (reachable_keeps (P := λ x _, budget_wf x)), new_budget_wf. Qed.

(** C5. Memory is bounded: in every reachable World the bytes of the distinct
    payloads that a mailbox, a staging area, a publication, an operation, a
    delivery lease or a caller still refers to, with the permits of native
    buffers, are within [native_payload_budget]; a payload counted once has one
    size. *)
Theorem retained_within_budget w :
  world_reachable w →
  (retained_bytes w ≤ native_payload_budget (w_cfg w))%N ∧ one_per_id (reachable w) ∧
  (∀ s, s ∈ reachable w → (stored_bytes s ≤ retained_bytes w)%N).
Proof.
  intros Hw%reachable_budget. destruct Hw as [_ Hids _ Hb]. simpl in *. split_and!; [by rewrite retained_distinct|done|].
  intros s Hs. rewrite retained_distinct. unfold distinct_bytes.
  pose proof (sum_map_lookup (λ _ b, b) _ _ _ (proj2 (distinct_lookup (reachable w) (stored_id s) (stored_bytes s) Hids) (ex_intro _ s (conj Hs (conj eq_refl eq_refl))))) as H.
  cbv beta in H. lia.
Qed.
Lemma retained_within_budget_witness :
  ∃ w, sample_run = Some w ∧ retained_bytes w = 124%N ∧ (retained_bytes w ≤ native_payload_budget (w_cfg w))%N.
Proof.
  destruct sample_run as [w|] eqn:Hw; [|vm_compute in Hw; discriminate]. exists w. split; [reflexivity|].
  split; [|exact (proj1 (retained_within_budget w (sample_reachable w Hw)))].
  apply (sample_fact retained_bytes); [vm_compute; reflexivity|exact Hw].
Defined.
