(* ===== verification/Lifecycles.v ===== *)
(** * Lifecycles and ownership

    Along a run an actor's lifecycle only moves forward, a stale reference stays
    stale, and the ownership tree stays well founded: an actor's owner was
    allocated before it. *)
From S2P Require Import Prelude Collections Text Types Metadata Schema Routing Expiry Readiness Operations.
From S2P Require Import Diagnostics Publications SchemaRegistry Activity WorldState Admission Publishing Actors.
From S2P Require Import Messaging Components Steps WorldFrames WorldSteps ActorSteps MessageSteps WorldRuns WorldSlots.

(** ** Moving forward *)

(** The actor of a slot is the same one, no earlier in its lifecycle, or a later
    generation. *)
Definition later (a a' : Actor) : Prop :=
  (a_reference a' = a_reference a ∧ (rank (a_state a) ≤ rank (a_state a'))%N ∧ a_parent a' = a_parent a) ∨
  (ar_generation (a_reference a) < ar_generation (a_reference a'))%N.
Definition forward (w w' : World) : Prop :=
  w_id w' = w_id w ∧
  ∀ slot a, actor_at w slot = Some a → ∃ a', actor_at w' slot = Some a' ∧ later a a'.
#[export] Instance later_preorder : PreOrder later.
Proof.
  split; [intros a; by left|]. intros a1 a2 a3 [(H1 & H2 & H3)|H1] [(H4 & H5 & H6)|H4]; unfold later; rewrite ?H1, ?H4 in *.
  - left. rewrite H6. split_and!; [done|lia|done].
  - by right.
  - by right.
  - right. lia.
Qed.
#[export] Instance forward_preorder : PreOrder forward.
Proof.
  split; [intros w; split; [done|]; intros slot a Ha; by exists a|]. intros w1 w2 w3 [Hi1 H1] [Hi2 H2]. split; [congruence|].
  intros slot a Ha. destruct (H1 _ _ Ha) as (a' & Ha' & Hl). destruct (H2 _ _ Ha') as (a'' & Ha'' & Hl').
  exists a''. split; [done|by etrans].
Qed.
Lemma forward_same w w' : w_id w' = w_id w → w_actors w' = w_actors w → forward w w'.
Proof. intros Hid Ha. split; [done|]. intros slot a Hat. exists a. split; [|by left]. unfold actor_at. by rewrite Ha. Qed.
Lemma forward_set w slot f :
  (∀ a, actor_at w slot = Some a → later a (f a)) → forward w (set_slot slot f w).
Proof.
  intros Hf. split; [done|]. intros s a Ha. destruct (decide (slot = s)) as [<-|Hne].
  - exists (f a). rewrite actor_at_set_slot, Ha. auto.
  - exists a. rewrite actor_at_set_slot_ne by done. split; [done|reflexivity].
Qed.
Section from.
Context (w0 : World).
Definition since (w : World) : Prop := slots_wf w ∧ forward w0 w.
Lemma since_step w w' : slots_wf w' → forward w w' → since w → since w'.
Proof. intros Hs Hf [_ Hw]. split; [done|by etrans]. Qed.
#[export] Instance since_accounting : Accounting (λ _ _, since).
Proof.
  split; try done.
  - by intros x e w [].
  - intros x e w w' Hf Hw. eapply since_step; [by eapply (ac_frame (P := λ _ _, slots_wf) x e), Hw| |done].
    apply forward_same; apply Hf.
  - intros x e w slot f Hf Hw. eapply since_step; [by eapply (ac_update (P := λ _ _, slots_wf) x e), Hw| |done].
    apply forward_set. intros a Ha. left. split_and!; apply (Hf a Ha).
  - intros x w Hw. eapply since_step; [by eapply (ac_event (P := λ _ _, slots_wf) x), Hw| |done]. by apply forward_same.
  - intros x id w slot f s a Ha He Hw.
    eapply since_step; [by eapply (ac_enqueue (P := λ _ _, slots_wf) x id), Hw| |done].
    apply forward_set. intros b Hb. simplify_eq. left. destruct He as [Hr Hs _ _ _ _ _ _ _ Hp]. rewrite Hs. split_and!; done.
  - intros x e w slot f s a Ha He Hw.
    eapply since_step; [by eapply (ac_stage (P := λ _ _, slots_wf) x e), Hw| |done].
    apply forward_set. intros b Hb. simplify_eq. left. destruct He as [Hr Hs _ _ _ _ _ _ _ Hp]. rewrite Hs. split_and!; done.
  - intros e w s _ _ Hw. eapply (since_step w); [|by apply forward_same|done]. by eapply slots_wf_same, Hw.
  - intros e w h bytes _ Hw. eapply (since_step w); [|by apply forward_same|done]. by eapply slots_wf_same, Hw.
  - intros e w h Hw. eapply (since_step w); [|by apply forward_same|done]. by eapply slots_wf_same, Hw.
  - intros x e w slot a Ha Hst Hw. eapply since_step; [by eapply slots_wf_retire, Hw| |done].
    change (forward w (set_slot slot (λ a, a <| a_state := Lifecycle.Stopped |>) w)). apply forward_set.
    intros b Hb. left. split_and!; try done. cbn. by destruct (a_state b).
  - intros x e w slot free old r kind parent _ Hf Ha Hr Hw.
    eapply since_step; [by eapply slots_wf_reuse, Hw| |done]. split; [done|]. intros s a Hat.
    unfold reuse_slot, actor_at. cbn. destruct (decide (s = slot)) as [->|Hne].
    + rewrite list_lookup_insert_eq by (by eapply actor_at_length). eexists. split; [done|]. right. subst r. simplify_eq. simpl. lia.
    + rewrite list_lookup_insert_ne by lia. fold (actor_at w s). exists a. split; [done|reflexivity].
  - intros x e w slot r kind parent _ Hf Hs0 Hroom Hr Hw.
    eapply since_step; [by eapply slots_wf_push, Hw| |done]. split; [done|]. intros s a Hat.
    unfold push_actor, actor_at. cbn. rewrite lookup_app_l by (by eapply actor_at_length). fold (actor_at w s).
    exists a. split; [done|reflexivity].
Qed.
End from.
Lemma run_forward cs w w' : slots_wf w → run_calls cs w = Some w' → forward w w'.
Proof.
  intros Hw Hrun. apply (run_calls_keep (P := λ _ _, since w) cs w w'); [|done]. split; [done|reflexivity].
Qed.

(** ** The ownership tree *)

(** Owners have been allocated, and before what they own. *)
Record ownership_wf (w : World) : Prop := {
  ow_slots : slots_wf w;
  ow_past slot a : actor_at w slot = Some a → (a_ready_order a < w_next_ready_order w)%N;
  ow_issued slot a p : actor_at w slot = Some a → a_parent a = Some p →
    ar_world p = w_id w ∧ ∃ b, actor_at w (ar_slot p) = Some b ∧ (ar_generation p ≤ ar_generation (a_reference b))%N;
  ow_before slot a p b : actor_at w slot = Some a → a_parent a = Some p → find_ref w p = inr b →
    (a_ready_order b < a_ready_order a)%N;
}.
Lemma find_ref_inr w r a :
  find_ref w r = inr a ↔
  ar_world r = w_id w ∧ actor_at w (ar_slot r) = Some a ∧ ar_generation (a_reference a) = ar_generation r.
Proof.
  unfold find_ref. split.
  - repeat case_bool_decide; repeat case_match; intros; simplify_eq; try done.
    repeat case_bool_decide; simplify_eq. auto.
  - intros (Hw & Ha & Hg). rewrite Ha, Hw, Hg. by rewrite !bool_decide_false by auto.
Qed.
(** A step that keeps the owner and the order of every actor. *)
Lemma ownership_step w w' :
  slots_wf w' → w_id w' = w_id w → w_next_ready_order w' = w_next_ready_order w →
  (∀ slot a', actor_at w' slot = Some a' → ∃ a, actor_at w slot = Some a ∧ a_reference a' = a_reference a ∧
     a_ready_order a' = a_ready_order a ∧ a_parent a' = a_parent a) →
  (∀ slot a, actor_at w slot = Some a → ∃ a', actor_at w' slot = Some a') →
  ownership_wf w → ownership_wf w'.
Proof.
  intros Hs Hid Hn Hback Hforth [_ Hp Hi Hb]. split; [done|..]; rewrite ?Hid, ?Hn.
  - intros slot a' Ha'. destruct (Hback _ _ Ha') as (a & Ha & _ & -> & _). eauto.
  - intros slot a' p Ha' Hpar. destruct (Hback _ _ Ha') as (a & Ha & _ & _ & Hpa). rewrite Hpa in Hpar.
    destruct (Hi _ _ _ Ha Hpar) as (Hw & b & Hat & Hg). split; [done|]. destruct (Hforth _ _ Hat) as (b' & Hb').
    exists b'. split; [done|]. destruct (Hback _ _ Hb') as (b2 & Hb2 & -> & _). by simplify_eq.
  - intros slot a' p b' Ha' Hpar Hfind. destruct (Hback _ _ Ha') as (a & Ha & _ & -> & Hpa). rewrite Hpa in Hpar.
    apply find_ref_inr in Hfind as (Hw & Hat & Hg). destruct (Hback _ _ Hat) as (b & Hb' & Hr & -> & _).
    eapply Hb; [done|done|]. apply find_ref_inr. rewrite <- Hid. split_and!; [done|done|congruence].
Qed.
Lemma ownership_same w w' :
  slots_wf w' → w_id w' = w_id w → w_next_ready_order w' = w_next_ready_order w → w_actors w' = w_actors w →
  ownership_wf w → ownership_wf w'.
Proof.
  intros Hs Hid Hn Ha. apply ownership_step; [done..| |]; unfold actor_at; rewrite Ha; eauto.
Qed.
Lemma ownership_set w slot f :
  slots_wf (set_slot slot f w) →
  (∀ a, actor_at w slot = Some a → a_reference (f a) = a_reference a ∧ a_ready_order (f a) = a_ready_order a ∧ a_parent (f a) = a_parent a) →
  ownership_wf w → ownership_wf (set_slot slot f w).
Proof.
  intros Hs Hf. apply ownership_step; [done..| |].
  - intros s a' Ha'. apply actor_at_update in Ha' as [(-> & a & Ha & ->)|[_ Ha]]; [|by exists a'].
    exists a. split; [done|]. by apply Hf.
  - intros s a Ha. destruct (decide (slot = s)) as [<-|Hne]; [rewrite actor_at_set_slot, Ha; by eexists|].
    rewrite actor_at_set_slot_ne by done. eauto.
Qed.
(** A new actor in a slot with no earlier reference to it. *)
Lemma ownership_new w w' slot r kind parent :
  let a := new_actor r (w_next_ready_order w) kind parent in
  slots_wf w' → w_id w' = w_id w → w_next_ready_order w' = N.succ (w_next_ready_order w) →
  attachable w parent → (∀ p, parent = Some p → ar_slot p ≠ slot) →
  actor_at w' slot = Some a → (∀ s, s ≠ slot → actor_at w' s = actor_at w s) →
  (∀ old, actor_at w slot = Some old → (ar_generation (a_reference old) < ar_generation r)%N) →
  ownership_wf w → ownership_wf w'.
Proof.
  intros a Hs Hid Hn Hatt Hne Hnew Hold Hgen [_ Hp Hi Hb].
  assert (∀ p b, find_ref w p = inr b → ar_slot p ≠ slot → find_ref w' p = inr b) as Hfind.
  { intros p b Hpb Hps. apply find_ref_inr in Hpb. apply find_ref_inr. by rewrite Hid, Hold. }
  split; [done|..]; rewrite ?Hid, ?Hn.
  - intros s b Hat. destruct (decide (s = slot)) as [->|Hs']; [rewrite Hnew in Hat; injection Hat as <-; cbn; lia|].
    rewrite Hold in Hat by done. specialize (Hp _ _ Hat). lia.
  - intros s b p Hat Hpar. destruct (decide (s = slot)) as [->|Hs'].
    + rewrite Hnew in Hat. injection Hat as <-. simpl in Hpar. subst parent. destruct Hatt as (pa & Hpa & _).
      specialize (Hne p eq_refl). pose proof (Hfind _ _ Hpa Hne) as Hpa'. apply find_ref_inr in Hpa' as (Hw & Hat & Hg).
      rewrite <- Hid. split; [done|]. exists pa. split; [done|lia].
    + rewrite Hold in Hat by done. destruct (Hi _ _ _ Hat Hpar) as (Hw & c & Hc & Hg). split; [done|].
      destruct (decide (ar_slot p = slot)) as [Heq|Hps]; [|exists c; by rewrite Hold].
      exists a. rewrite Heq in *. split; [done|]. specialize (Hgen _ Hc). simpl. lia.
  - intros s b p c Hat Hpar Hfc. destruct (decide (s = slot)) as [->|Hs'].
    + rewrite Hnew in Hat. injection Hat as <-. simpl in Hpar. subst parent. specialize (Hne p eq_refl).
      apply find_ref_inr in Hfc as (_ & Hc & _). rewrite Hold in Hc by done. specialize (Hp _ _ Hc). done.
    + rewrite Hold in Hat by done. destruct (Hi _ _ _ Hat Hpar) as (Hw & d & Hd & Hg).
      apply find_ref_inr in Hfc as (_ & Hc & Hcg). destruct (decide (ar_slot p = slot)) as [Heq|Hps].
      * rewrite Heq in *. rewrite Hnew in Hc. injection Hc as <-. specialize (Hgen _ Hd). simpl in Hcg. lia.
      * rewrite Hold in Hc by done. eapply Hb; [done|done|]. apply find_ref_inr. done.
Qed.
#[export] Instance ownership_accounting : Accounting (λ _ _, ownership_wf).
Proof.
  split; try done.
  - by intros x e w [].
  - intros x e w w' Hf Hw. apply (ownership_same w); [by eapply (ac_frame (P := λ _ _, slots_wf) x e), Hw|apply Hf..|done].
  - intros x e w slot f Hf Hw. apply ownership_set; [by eapply (ac_update (P := λ _ _, slots_wf) x e), Hw| |done].
    intros a Ha. split_and!; apply (Hf a Ha).
  - intros x w Hw. apply (ownership_same w); try done. by eapply (ac_event (P := λ _ _, slots_wf) x), Hw.
  - intros x id w slot f s a Ha He Hw. apply ownership_set; [by eapply (ac_enqueue (P := λ _ _, slots_wf) x id), Hw| |done].
    intros b Hb. simplify_eq. split_and!; apply He.
  - intros x e w slot f s a Ha He Hw. apply ownership_set; [by eapply (ac_stage (P := λ _ _, slots_wf) x e), Hw| |done].
    intros b Hb. simplify_eq. split_and!; apply He.
  - intros e w s _ _ Hw. apply (ownership_same w); try done. by eapply slots_wf_same, Hw.
  - intros e w h bytes _ Hw. apply (ownership_same w); try done. by eapply slots_wf_same, Hw.
  - intros e w h Hw. apply (ownership_same w); try done. by eapply slots_wf_same, Hw.
  - intros x e w slot a Ha Hst Hw. pose proof (slots_wf_retire _ _ _ Ha Hst (ow_slots _ Hw)) as Hs.
    set (f := λ a : Actor, a <| a_state := Lifecycle.Stopped |>).
    eapply (ownership_step w); try done; change (actor_at (retire_slot slot w)) with (actor_at (set_slot slot f w)).
    + intros s b Hb. apply actor_at_update in Hb as [(-> & b0 & Hb0 & ->)|[_ Hb]]; eauto.
    + intros s b Hb. destruct (decide (slot = s)) as [<-|Hne]; [rewrite actor_at_set_slot, Hb; by eexists|].
      rewrite actor_at_set_slot_ne by done. eauto.
  - intros x e w slot free old r kind parent Hatt Hf Ha Hr Hw.
    destruct (proj1 (sw_free _ (ow_slots _ Hw) slot)) as (old' & Hold & Hst); [rewrite Hf; set_solver|].
    rewrite Ha in Hold. injection Hold as <-.
    apply (ownership_new w _ slot r kind parent); try done; [by eapply slots_wf_reuse, Hw|..].
    + intros p ->. destruct Hatt as (pa & Hpa & Hs). by eapply find_ref_free.
    + unfold actor_at, reuse_slot. cbn. by rewrite list_lookup_insert_eq by (by eapply actor_at_length).
    + intros s Hne. unfold actor_at, reuse_slot. cbn. by rewrite list_lookup_insert_ne by lia.
    + intros old' Hold'. subst r. simplify_eq. simpl. lia.
  - intros x e w slot r kind parent Hatt Hf Hs Hroom Hr Hw.
    apply (ownership_new w _ slot r kind parent); try done; [by eapply slots_wf_push, Hw|..].
    + intros p ->. destruct Hatt as (pa & Hpa & _). apply find_ref_actor, actor_at_length in Hpa. lia.
    + unfold actor_at, push_actor. cbn. subst slot. by rewrite Nat2N.id, list_lookup_middle by done.
    + intros s Hne. unfold actor_at, push_actor. cbn. destruct (decide (N.to_nat s < length (w_actors w))).
      * by rewrite lookup_app_l.
      * rewrite !lookup_ge_None_2; [done|lia|]. rewrite length_app. simpl length. lia.
    + intros old Hold. apply actor_at_length in Hold. lia.
Qed.
Lemma new_ownership_wf id cfg clock w : with_clock id cfg clock = Ok w → ownership_wf w.
Proof.
  intros Hw. pose proof (new_slots_wf _ _ _ _ Hw) as Hs. apply with_clock_fields in Hw as (_ & _ & _ & Ha & _).
  assert (∀ slot, actor_at w slot = None) as Hnone by (intros slot; unfold actor_at; by rewrite Ha).
  split; try done; intros; by rewrite Hnone in *.
Qed.
Lemma reachable_ownership w : world_reachable w → ownership_wf w.
Proof. apply (reachable_keeps (P := λ _ _, ownership_wf)), new_ownership_wf. Qed.

(** ** Walks towards the root *)

(** The actors no younger than [a]: [a] itself, and more than its owner has. *)
Definition elder (a : Actor) (o : option Actor) : bool :=
  match o with Some b => (a_ready_order b <=? a_ready_order a)%N | None => false end.
Definition elders (w : World) (a : Actor) : nat := length (filter (λ o, elder a o = true) (w_actors w)).
Lemma elders_bound w a : elders w a ≤ length (w_actors w).
Proof. apply length_filter. Qed.
Lemma elders_pos w a slot : actor_at w slot = Some a → 0 < elders w a.
Proof.
  intros Ha. apply actor_at_lookup, list_elem_of_lookup_2 in Ha.
  assert (Some a ∈ filter (λ o, elder a o = true) (w_actors w)) as Hin.
  { apply list_elem_of_filter. split; [simpl; lia|done]. }
  unfold elders. destruct (filter _ _); [by apply elem_of_nil in Hin|simpl; lia].
Qed.
Lemma filter_length_lt {A} (p q : A → bool) (l : list A) x :
  (∀ y, p y = true → q y = true) → x ∈ l → p x = false → q x = true →
  length (filter (λ y, p y = true) l) < length (filter (λ y, q y = true) l).
Proof.
  intros Hpq Hx Hp Hq. assert (∀ l, length (filter (λ y, p y = true) l) ≤ length (filter (λ y, q y = true) l)) as Hle.
  { clear Hx. induction l0 as [|y l0 IH]; [done|]. rewrite !filter_cons. specialize (Hpq y). repeat case_decide; simpl; (lia || naive_solver). }
  induction l as [|y l IH]; [by apply elem_of_nil in Hx|]. apply elem_of_cons in Hx as [<-|Hx].
  - rewrite !filter_cons, decide_False, decide_True by congruence. simpl. specialize (Hle l). lia.
  - specialize (IH Hx). rewrite !filter_cons. specialize (Hpq y). repeat case_decide; simpl; (lia || naive_solver).
Qed.
Lemma elders_lt w a b slot :
  actor_at w slot = Some a → (a_ready_order b < a_ready_order a)%N → elders w b < elders w a.
Proof.
  intros Ha Hlt. apply actor_at_lookup, list_elem_of_lookup_2 in Ha. unfold elders.
  apply (filter_length_lt _ _ _ (Some a)); [|done|simpl; lia|simpl; lia]. intros [c|]; simpl; [lia|done].
Qed.
Lemma owner_elders w a slot p b :
  ownership_wf w → actor_at w slot = Some a → a_parent a = Some p → find_ref w p = inr b → elders w b < elders w a.
Proof. intros Hw Ha Hp Hb. eapply elders_lt; [done|]. by eapply ow_before. Qed.
Lemma execution_walk_ends w fuel : ownership_wf w → ∀ slot a saw1 saw2,
  actor_at w slot = Some a → elders w a < fuel → execution_walk fuel w a saw1 saw2 ≠ Panic.
Proof.
  intros Hw. induction fuel as [|fuel IH]; intros slot a saw1 saw2 Ha Hfuel; [lia|]. cbn [execution_walk].
  destruct (a_state a); try done; destruct (a_parent a) as [p|] eqn:Hp; try (by repeat case_match);
    destruct (find_ref w p) as [|b] eqn:Hb; try done;
    (eapply IH; [by eapply find_ref_actor|]; pose proof (owner_elders w a slot p b Hw Ha Hp Hb); lia).
Qed.
(** The two walks that compare every actor on the way with a reference. *)
Lemma owned_by_ends w owner fuel : ownership_wf w → ∀ current,
  match find_ref w current with inr a => elders w a < fuel | inl _ => 0 < fuel end →
  owned_by fuel w current owner ≠ Panic ∧ Supervision.owns_target fuel w current owner ≠ Panic.
Proof.
  intros Hw. induction fuel as [|fuel IH]; intros current Hfuel; [case_match; lia|]. cbn [owned_by Supervision.owns_target].
  case_bool_decide; [done|]. destruct (find_ref w current) as [|a] eqn:Ha; [done|].
  destruct (a_parent a) as [p|] eqn:Hp; [|done]. apply IH. apply find_ref_actor in Ha. destruct (find_ref w p) as [|b] eqn:Hb.
  - pose proof (elders_pos _ _ _ Ha). lia.
  - pose proof (owner_elders w a _ p b Hw Ha Hp Hb). lia.
Qed.
Lemma mark_ancestors_ends w fuel : ownership_wf w → ∀ r g,
  match find_ref w r with inr a => elders w a < fuel | inl _ => 0 < fuel end → is_Some (mark_ancestors fuel w r g).
Proof.
  intros Hw. induction fuel as [|fuel IH]; intros r g Hfuel; [case_match; lia|]. cbn [mark_ancestors].
  destruct (find_ref w r) as [|a] eqn:Ha; [by eexists|]. destruct (a_parent a) as [p|] eqn:Hp; [|by eexists].
  apply IH. apply find_ref_actor in Ha. destruct (find_ref w p) as [|b] eqn:Hb.
  - pose proof (elders_pos _ _ _ Ha). lia.
  - pose proof (owner_elders w a _ p b Hw Ha Hp Hb). lia.
Qed.
Lemma walk_fuel_enough w r : match find_ref w r with inr a => elders w a < walk_fuel w | inl _ => 0 < walk_fuel w end.
Proof. unfold walk_fuel. case_match; [lia|]. pose proof (elders_bound w a). lia. Qed.

(** ** Properties of every run *)
Lemma find_ref_passed w r a :
  ar_world r = w_id w → actor_at w (ar_slot r) = Some a → ar_generation (a_reference a) ≠ ar_generation r →
  find_ref w r = inl Error.StaleReference.
Proof. intros Hw Ha Hg. unfold find_ref. rewrite Ha, bool_decide_false, bool_decide_true; auto. Qed.

(** C14. A lifecycle only moves forward: along any calls the actor of a reference
    keeps its owner and never returns to an earlier lifecycle state, until its slot
    is reused; from then on, and for ever, the reference is stale. *)
Theorem lifecycle_forward cs w w' r :
  world_reachable w → run_calls cs w = Some w' →
  (∀ a, find_ref w r = inr a →
     find_ref w' r = inl Error.StaleReference ∨
     ∃ a', find_ref w' r = inr a' ∧ (rank (a_state a) ≤ rank (a_state a'))%N ∧ a_parent a' = a_parent a) ∧
  (∀ a, ar_world r = w_id w → actor_at w (ar_slot r) = Some a → (ar_generation r < ar_generation (a_reference a))%N →
     find_ref w' r = inl Error.StaleReference).
Proof.
  intros Hw%reachable_slots Hrun. destruct (run_forward _ _ _ Hw Hrun) as [Hid Hf]. split.
  - intros a (Hrw & Ha & Hg)%find_ref_inr. destruct (Hf _ _ Ha) as (a' & Ha' & [(Href & Hrank & Hpar)|Hlt]).
    + right. exists a'. split; [|done]. apply find_ref_inr. rewrite Hid, Href. done.
    + left. eapply find_ref_passed; [by rewrite Hid|done|lia].
  - intros a Hrw Ha Hlt. destruct (Hf _ _ Ha) as (a' & Ha' & Hlater).
    eapply find_ref_passed; [by rewrite Hid|done|]. destruct Hlater as [(Href & _)|Hlt']; [rewrite Href; lia|lia].
Qed.
(** Whether the third actor of the sample run is known, then and after one more
    allocation, which reuses its slot. *)
Definition third : ActorRef := MkActorRef 1 2 1.
Definition known (w : World) : bool := match find_ref w third with inr _ => true | inl _ => false end.
Definition once_more (w : World) : option World := run_calls [CAllocate EndpointKind.Native None] w.
Lemma lifecycle_forward_witness :
  ∃ w w', sample_run = Some w ∧ once_more w = Some w' ∧ known w = true ∧ find_ref w' third = inl Error.StaleReference.
Proof.
  destruct sample_run as [w|] eqn:Hw; [|vm_compute in Hw; discriminate].
  assert (known w = true ∧ (known <$> once_more w) = Some false) as [Hk H].
  { split; [apply (sample_fact known)|apply (sample_fact (λ w, known <$> once_more w))]; first [exact Hw|vm_compute; reflexivity]. }
  destruct (once_more w) as [w'|] eqn:Hrun; simpl in H; [|discriminate]. injection H as Hk'.
  exists w, w'. split; [reflexivity|]. split; [exact Hrun|]. split; [exact Hk|].
  unfold known in Hk, Hk'. destruct (find_ref w third) as [|a] eqn:Ha; [discriminate|].
  destruct (proj1 (lifecycle_forward _ w w' third (sample_reachable w Hw) Hrun) a Ha) as [Hs|(a' & Ha' & _)]; [exact Hs|].
  rewrite Ha' in Hk'. discriminate.
Defined.

(** C15. The recursions up the ownership tree end: in every World a program can
    reach the walks of [execution_state_locked], [publish_internal],
    [report_failure] and [mark_activity_ancestors_locked] reach the root, or a
    stale reference, within one step per slot. *)
Theorem ownership_walks_end w :
  world_reachable w → ∀ r owner g,
  execution_of w r ≠ Panic ∧ owned_by (walk_fuel w) w r owner ≠ Panic ∧
  Supervision.owns_target (walk_fuel w) w r owner ≠ Panic ∧ is_Some (mark_ancestors (walk_fuel w) w r g).
Proof.
  intros Hw%reachable_ownership r owner g. pose proof (walk_fuel_enough w r) as Hfuel.
  destruct (owned_by_ends w owner _ Hw r Hfuel) as [H1 H2]. split_and!; [|done|done|by apply mark_ancestors_ends].
  unfold execution_of. destruct (find_ref w r) as [|a] eqn:Ha; [done|].
  by eapply execution_walk_ends; [done|by eapply find_ref_actor|].
Qed.
Lemma ownership_walks_end_witness :
  ∃ w, sample_run = Some w ∧ execution_of w sample_child ≠ Panic ∧ execution_of w sample_child = Ok Lifecycle.Active.
Proof.
  destruct sample_run as [w|] eqn:Hw; [|vm_compute in Hw; discriminate]. exists w. split; [reflexivity|].
  split; [exact (proj1 (ownership_walks_end w (sample_reachable w Hw) sample_child sample_root (w_activity w)))|].
  apply (sample_fact (λ w, execution_of w sample_child)); [vm_compute; reflexivity|exact Hw].
Defined.
