(* ===== verification/Handles.v ===== *)
(** * Handles

    The actor an outstanding handle belongs to.  A delivery lease, a native
    callback or failure lease and a task registration are recorded twice: in the
    hands of the caller, and in [in_flight], [control_in_flight] and [native_tasks]
    of the actor.  [moves] is a step that takes and ends no handle and leaves the
    actors that have one in their slots; almost every operation is made of such
    steps.  [hands_wf] says that both records agree, up to the handles in [d] that
    the running method is taking or ending. *)
From S2P Require Import Prelude Collections Text Types Metadata Schema Routing Expiry Readiness Operations.
From S2P Require Import Diagnostics Publications SchemaRegistry Activity WorldState Admission Publishing Actors.
From S2P Require Import Messaging Components Views Steps WorldFrames WorldSteps ActorSteps MessageSteps WorldRuns WorldSlots.

(** ** Both records *)
Inductive hold :=
| Delivering
| Controlling
| Tasking.
#[export] Instance hold_eq_dec : EqDecision hold.
Proof. solve_decision. Defined.
(** What an actor records, and what the callers have. *)
Definition busy (k : hold) (a : Actor) : N :=
  match k with
  | Delivering => b2n (a_in_flight a)
  | Controlling => b2n (a_control_in_flight a)
  | Tasking => a_native_tasks a
  end.
Definition owned {V} (owner : V → ActorRef) (r : ActorRef) (m : gmap N V) : N :=
  sum_map (λ _ v, b2n (bool_decide (owner v = r))) m.
Definition handles (w : World) (k : hold) (r : ActorRef) : N :=
  match k with
  | Delivering => owned dl_target r (w_leases w)
  | Controlling => owned id r (w_callbacks w) + owned fl_supervisor r (w_failure_leases w)
  | Tasking => owned tk_owner r (w_tasks w)
  end.
Definition idle (a : Actor) : Prop := ∀ k, busy k a = 0%N.
Definition same_hands (a a' : Actor) : Prop := a_reference a' = a_reference a ∧ ∀ k, busy k a' = busy k a.

(** ** Steps that take and end no handle *)
Definition placed (id slot : N) (a : Actor) : Prop := ar_slot (a_reference a) = slot ∧ ar_world (a_reference a) = id.
Definition slot_moves (id slot : N) (o o' : option Actor) : Prop :=
  match o, o' with
  | Some a, Some a' => same_hands a a' ∨ (idle a ∧ idle a' ∧ placed id slot a')
  | None, Some a' => idle a' ∧ placed id slot a'
  | Some _, None => False
  | None, None => True
  end.
Definition free_idle (w : World) : Prop := ∀ slot a, slot ∈ w_free w → actor_at w slot = Some a → idle a.
Record moves (w w' : World) : Prop := {
  mv_id : w_id w' = w_id w;
  mv_leases : w_leases w' = w_leases w;
  mv_callbacks : w_callbacks w' = w_callbacks w;
  mv_failures : w_failure_leases w' = w_failure_leases w;
  mv_tasks : w_tasks w' = w_tasks w;
  mv_next : (w_next_handle w ≤ w_next_handle w')%N;
  mv_slots slot : slot_moves (w_id w) slot (actor_at w slot) (actor_at w' slot);
}.
Definition calm (w w' : World) : Prop := free_idle w → free_idle w' ∧ moves w w'.

Lemma idle_same a a' : same_hands a a' → idle a ↔ idle a'.
Proof. intros [_ H]. unfold idle. by setoid_rewrite H. Qed.
#[export] Instance same_hands_preorder : PreOrder same_hands.
Proof. split; [by split|]. intros a b c [H1 H2] [H3 H4]. split; [congruence|]. intros k. by rewrite H4. Qed.
Lemma slot_moves_refl id slot o : slot_moves id slot o o.
Proof. destruct o; [by left|done]. Qed.
Lemma slot_moves_trans id slot o1 o2 o3 : slot_moves id slot o1 o2 → slot_moves id slot o2 o3 → slot_moves id slot o1 o3.
Proof.
  destruct o1 as [a1|], o2 as [a2|], o3 as [a3|]; simpl; try done.
  - intros [H1|(H1 & H2 & H3)] [H4|(H4 & H5 & H6)].
    + left. by etrans.
    + right. split; [by eapply idle_same|done].
    + right. split; [done|]. split; [by apply (idle_same _ _ H4)|]. unfold placed. by rewrite (proj1 H4).
    + by right.
  - intros [H1 H2] [H4|(H4 & H5 & H6)]; [|done]. split; [by apply (idle_same _ _ H4)|]. unfold placed. by rewrite (proj1 H4).
Qed.
#[export] Instance moves_preorder : PreOrder moves.
Proof.
  split.
  - intros w. split; try done. intros slot. apply slot_moves_refl.
  - intros w1 w2 w3 [] []. split; try congruence; [lia|]. intros slot. rewrite mv_id0 in *. by eapply slot_moves_trans.
Qed.
#[export] Instance calm_preorder : PreOrder calm.
Proof.
  split; [by intros w Hw|]. intros w1 w2 w3 H1 H2 Hw. destruct (H1 Hw) as [Hw2 Hm1]. destruct (H2 Hw2) as [Hw3 Hm2].
  split; [done|by etrans].
Qed.
Lemma calm_same w w' :
  w_id w' = w_id w → w_actors w' = w_actors w → w_free w' = w_free w → w_leases w' = w_leases w → w_callbacks w' = w_callbacks w →
  w_failure_leases w' = w_failure_leases w → w_tasks w' = w_tasks w → (w_next_handle w ≤ w_next_handle w')%N → calm w w'.
Proof.
  intros Hid Ha Hf ????? Hw. assert (∀ slot, actor_at w' slot = actor_at w slot) as Hat by (intros; unfold actor_at; by rewrite Ha).
  split; [intros slot a; rewrite Hf, Hat; apply Hw|]. split; try done. intros slot. rewrite Hat. apply slot_moves_refl.
Qed.
Lemma calm_set slot f w : (∀ a, actor_at w slot = Some a → same_hands a (f a)) → calm w (set_slot slot f w).
Proof.
  intros Hf Hw. split.
  - intros s b Hs Hb. apply actor_at_update in Hb as [(-> & a & Ha & ->)|[_ Hb]]; [|by eapply Hw].
    apply (idle_same a); [by apply Hf|by eapply (Hw slot a)].
  - split; try done. intros s. destruct (decide (slot = s)) as [<-|Hne].
    + rewrite actor_at_set_slot. destruct (actor_at w slot) as [a|]; simpl; auto.
    + rewrite actor_at_set_slot_ne by done. apply slot_moves_refl.
Qed.

(** ** The operations, one by one *)
Lemma calm_slot {E} slot f : (∀ a, same_hands a (f a)) → steps calm (modify (E:=E) (set_slot slot f)).
Proof. intros Hf w. apply calm_set. auto. Qed.
Lemma calm_zoom {T E A} (field : World → T) (set : T → World → World) (m : M T E A) :
  (∀ t w, calm w (set t w)) → steps calm (zoom field set m).
Proof. intros Hs w. unfold zoom. destruct (m (field w)) as [o t]. apply Hs. Qed.
Lemma calm_touch : steps calm touch_activity.
Proof.
  unfold touch_activity, wake_routing. apply (steps_bind _); [|intros _]; apply steps_modify; intros w.
  - destruct (rs_dirty _); by apply calm_same.
  - destruct (Activity.notify_marked _). by apply calm_same.
Qed.
Lemma calm_with_activity {A} (m : WM A) : steps calm m → steps calm (with_activity m).
Proof.
  intros Hm w. specialize (Hm w). unfold with_activity. destruct (m w) as [o w']. simpl in *. etrans; [done|apply calm_touch].
Qed.
Ltac head_of t := lazymatch t with ?f _ => head_of f | ?f => f end.
Ltac calm_frame := apply calm_same; first [reflexivity|simpl; lia].
Create HintDb calm.
Ltac calm_step :=
  match goal with
  | |- steps calm (bind _ _) => apply (steps_bind _); [|intros ?]
  | |- steps calm (match ?c with _ => _ end) => destruct c eqn:?
  | |- steps calm (modify (set_slot _ _)) => apply calm_slot; intros ?; (split; [reflexivity|intros []; reflexivity])
  | |- steps calm (modify _) => apply steps_modify; intros ?; calm_frame
  | |- steps calm (for_each _ _) => apply (steps_for_each _); intros ?
  | |- steps calm (try_ _) => apply (steps_try _)
  | |- steps calm (unwrap_or _ _) => apply (steps_unwrap_or _)
  | |- steps calm (zoom _ _ _) => apply calm_zoom; intros ? ?; calm_frame
  | |- steps calm (with_activity _) => apply calm_with_activity
  | |- steps calm _ => solve [eauto with steps calm nocore typeclass_instances]
  | |- steps calm ?m => let h := head_of m in unfold h
  end.
Ltac calm := repeat calm_step.
Section calm.
Implicit Types (w : World) (r : ActorRef).
Lemma calm_check_ref r : steps calm (check_ref r).
Proof. intros w. unfold check_ref. by destruct (find_ref w r). Qed.
Lemma calm_execution r : steps calm (execution_state r).
Proof. by intros w. Qed.
Lemma calm_now : steps calm now.
Proof. intros w. unfold now. destruct (Clocks.now _). by apply calm_same. Qed.
Lemma calm_with_history f : steps calm (with_history f).
Proof. intros w. unfold with_history, modify. destruct (f _ _). by apply calm_same. Qed.
Lemma calm_marking f : steps calm (marking f).
Proof. intros w. unfold marking. destruct (f w _); by apply calm_same. Qed.
End calm.
#[export] Hint Resolve calm_check_ref calm_execution calm_now calm_with_history calm_marking calm_touch : calm.
Lemma calm_refresh_fuel fuel : ∀ r, steps calm (refresh_subtree fuel r).
Proof. induction fuel as [|fuel IH]; intros r; simpl; calm. Qed.
Lemma calm_refresh_subtree r : steps calm (refresh_python_subtree r).
Proof. intros w. apply calm_refresh_fuel. Qed.
#[export] Hint Resolve calm_refresh_subtree : calm.
Lemma calm_expire_events now : steps calm (expire_events now).
Proof. calm. Qed.
Lemma calm_cancel_source source : steps calm (cancel_source_publications source).
Proof. calm. Qed.
Lemma calm_expire_publications now : steps calm (expire_publications now).
Proof. calm. Qed.
Lemma calm_mark_operation owner target : steps calm (mark_operation_activity owner target).
Proof. calm. Qed.
Lemma calm_refresh r : steps calm (refresh_python_ready r).
Proof. calm. Qed.
Lemma calm_finish_publication p result : steps calm (finish_publication p result).
Proof. calm. Qed.
#[export] Hint Resolve calm_expire_events calm_cancel_source calm_expire_publications calm_mark_operation calm_refresh
  calm_finish_publication : calm.
Lemma calm_flush_staged : steps calm flush_staged.
Proof. calm. Qed.
Lemma calm_admit r s sub completion operation : steps calm (admit_event r s sub completion operation).
Proof. calm. Qed.
Lemma calm_make_stored p options dispatcher : steps calm (make_stored_with p options dispatcher).
Proof. calm. Qed.
#[export] Hint Resolve calm_flush_staged calm_admit calm_make_stored : calm.
Lemma calm_route_targets batch routes : ∀ p n, steps calm (route_targets batch routes p n).
Proof. induction routes as [|[]]; intros ? ?; simpl; calm. Qed.
#[export] Hint Resolve calm_route_targets : calm.
Lemma calm_route_batch : steps calm route_batch.
Proof. calm. Qed.

(** *** Finalisation: the slot of an idle actor becomes free *)
Lemma idle_moves w w' slot a : moves w w' → actor_at w slot = Some a → idle a → ∃ a', actor_at w' slot = Some a' ∧ idle a'.
Proof.
  intros Hm Ha Hi. pose proof (mv_slots _ _ Hm slot) as Hs. rewrite Ha in Hs. destruct (actor_at w' slot) as [a'|]; [|done].
  exists a'. split; [done|]. destruct Hs as [Hs|(_ & Hs & _)]; [|done]. by apply (idle_same a a').
Qed.
Lemma calm_free w slot a : actor_at w slot = Some a → idle a → calm w (w <| w_free ::= cons slot |>).
Proof.
  intros Ha Hi Hw. split; [|split; try done; intros s; apply slot_moves_refl].
  intros s b Hs Hb. simpl in Hs. apply elem_of_cons in Hs as [->|Hs]; [|by eapply (Hw s)].
  change (actor_at w slot = Some b) in Hb. by simplify_eq.
Qed.
(** After a calm action, with an actor that is idle before it. *)
Lemma calm_bind_idle {E A B} slot w (m : M World E A) (k : A → M World E B) :
  (∃ a, actor_at w slot = Some a ∧ idle a) → steps calm m →
  (∀ a w', (∃ a, actor_at w' slot = Some a ∧ idle a) → calm w' (k a w').2) → calm w (bind m k w).2.
Proof.
  intros (a & Ha & Hi) Hm Hk Hw. specialize (Hm w). unfold bind. destruct (Hm Hw) as [Hw' Hmv].
  destruct (m w) as [[x|e|] w'] eqn:Hmw; simpl in *; [|done..].
  destruct (Hk x w') as [Hw'' Hmv']; [by eapply idle_moves|done|]. split; [done|by etrans].
Qed.
Lemma finalizable_idle w a : finalizable w a = true → idle a.
Proof.
  unfold finalizable. rewrite !andb_true_iff. intros [[[[[[_ Hd] Hc] _] Ht] _] _] []; simpl.
  - by destruct (a_in_flight a).
  - by destruct (a_control_in_flight a).
  - lia.
Qed.
Lemma calm_decr_live : steps calm (decr (E:=error) w_live_actors).
Proof. intros w. unfold decr. case_decide; [done|by apply calm_same]. Qed.
#[export] Hint Resolve calm_decr_live : calm.
Lemma calm_finalize fuel : ∀ r, steps calm (finalize fuel r).
Proof.
  induction fuel as [|fuel IH]; intros r; [apply steps_panic; apply _|]. cbn [finalize].
  do 2 (apply (steps_bind _); [calm|intros ?]). intros w. unfold bind at 1, get.
  destruct (actor_at w (ar_slot r)) as [b|] eqn:Hb; [|done].
  destruct (negb _) eqn:Hf; [done|]. apply negb_false_iff, andb_true_iff in Hf as [_ Hf].
  assert (∃ c, actor_at w (ar_slot r) = Some c ∧ idle c) as Hi by eauto using finalizable_idle.
  do 4 (apply (calm_bind_idle (ar_slot r)); [done|calm|]; clear Hi; intros ? ? Hi).
  destruct Hi as (c & Hc & Hi). etrans; [by eapply calm_free|].
  match goal with |- calm ?s (bind _ ?k _).2 => enough (steps calm (k tt)) as Hm by apply (Hm s) end. cbv beta.
  destruct (a_parent b) as [p|]; calm.
Qed.
Lemma calm_try_finalize r : steps calm (try_finalize r).
Proof. intros w. apply calm_finalize. Qed.
#[export] Hint Resolve calm_try_finalize : calm.

(** *** Stopping and draining *)
Lemma calm_detach_service fence service : (∀ r, steps calm (fence r)) → steps calm (detach_service fence service).
Proof. intros Hf. calm. Qed.
Lemma calm_fence fuel : ∀ r, steps calm (fence fuel r).
Proof. induction fuel as [|fuel IH]; intros r; cbn [fence]; [apply steps_panic; apply _|]. calm. Qed.
Lemma calm_fence_locked r : steps calm (fence_locked r).
Proof. intros w. apply calm_fence. Qed.
#[export] Hint Resolve calm_fence_locked : calm.
Lemma calm_report r : steps calm (report_locked r).
Proof. by intros w. Qed.
#[export] Hint Resolve calm_report : calm.
Lemma calm_stop_locked r : steps calm (stop_locked r).
Proof. calm. Qed.
#[export] Hint Resolve calm_stop_locked : calm.
Lemma calm_close_locked : steps calm close_locked.
Proof. calm. Qed.
#[export] Hint Resolve calm_close_locked : calm.
Lemma calm_quiesce fuel : ∀ root r deadline, steps calm (quiesce fuel root r deadline).
Proof.
  induction fuel as [|fuel IH]; intros root r deadline; cbn [quiesce]; [apply steps_panic; apply _|].
  calm_step; [calm|]. calm_step; [calm|].
  destruct (a_state _); try (calm; fail); (calm_step; [calm|]; calm_step; [calm|]; calm_step; [|calm]);
    (match goal with |- steps calm (_ ?l ?d) => generalize d; induction l; intros ?; calm end).
Qed.
Lemma calm_mark_quiescing r root deadline : steps calm (mark_quiescing r root deadline).
Proof. intros w. apply calm_quiesce. Qed.
Lemma calm_drained r : steps calm (drained_locked r).
Proof. intros w. unfold drained_locked. by destruct (drained _ _ _). Qed.
#[export] Hint Resolve calm_mark_quiescing calm_drained : calm.
Lemma calm_drain_locked r deadline : steps calm (drain_locked r deadline).
Proof. calm. Qed.
#[export] Hint Resolve calm_drain_locked : calm.
Lemma calm_maintain now : steps calm (maintain now).
Proof. calm. Qed.

(** *** Messages *)
Lemma calm_port_locked port : steps calm (port_locked port).
Proof. intros w. unfold port_locked. by destruct (find_port _ _). Qed.
#[export] Hint Resolve calm_port_locked : calm.
Lemma calm_send_with r p options : steps calm (send_with r p options).
Proof. calm. Qed.
Lemma calm_request owner target p deadline options port : steps calm (request_with_port owner target p deadline options port).
Proof. calm. Qed.
#[export] Hint Resolve calm_request calm_send_with : calm.
Lemma calm_complete_with id target p options : steps calm (complete_operation_with id target p options).
Proof. calm. Qed.
Lemma calm_publish source p owner port options : steps calm (publish_internal source p owner port options).
Proof. calm. Qed.
#[export] Hint Resolve calm_complete_with calm_publish : calm.
Lemma calm_apply_failure_action r action : steps calm (Supervision.apply_failure_action r action).
Proof. calm. Qed.
#[export] Hint Resolve calm_apply_failure_action : calm.
Lemma calm_report_failure r event_id schema operation details action :
  steps calm (Supervision.report_failure r event_id schema operation details action).
Proof. calm. Qed.
#[export] Hint Resolve calm_report_failure : calm.

(** A call that takes or ends a handle, or allocates. *)
Definition takes_handle (c : call) : bool :=
  match c with
  | CTrackTask _ | CCloneTask _ | CDropTask _ | CClaim _ | CFinishDelivery _ _ | CDropDelivery _
  | CClaimFailure _ | CFinishFailure _ _ | CDropFailure _ | CClaimHook _ _ | CClaimDrainHook _ | CDropCallback _ => true
  | _ => false
  end.
Definition allocates (c : call) : bool :=
  match c with CAllocate _ _ | CAcquireService _ _ _ | CAcquireServiceFrom _ _ _ _ => true | _ => false end.
Lemma calm_after {E A} (m : M World E A) w w' : steps calm m → after m w = Some w' → calm w w'.
Proof. intros Hm. specialize (Hm w). unfold after. by destruct (m w) as [[a|e|] w1]; intros [= <-]. Qed.
Lemma calm_owning {V A} (field : World → gmap N V) handle (m : WM A) w w' :
  steps calm m → owning field handle m w = Some w' → calm w w'.
Proof. intros Hm. unfold owning. case_bool_decide; [by apply calm_after|by intros [= <-]]. Qed.
Lemma calm_with_held {A} i (m : Stored → WM A) w w' :
  (∀ s, steps calm (m s)) → with_held i m w = Some w' → calm w w'.
Proof. intros Hm. unfold with_held. destruct (_ !! _); [by apply calm_after|by intros [= <-]]. Qed.
Lemma calm_call c w w' : takes_handle c = false → allocates c = false → run_call c w = Some w' → calm w w'.
Proof.
  destruct c; intros Ht Ha; try discriminate; clear Ht Ha; cbn [run_call];
    first [apply calm_after|apply calm_owning|apply calm_with_held; intros ?]; calm.
Qed.

(** *** Allocation: a new actor is idle, and so was the one it replaces *)
Lemma calm_bind_at {E A B} w (m : M World E A) (k : A → M World E B) :
  calm w (m w).2 → (∀ a w', m w = (Ok a, w') → calm w' (k a w').2) → calm w (bind m k w).2.
Proof.
  intros Hm Hk. unfold bind. destruct (m w) as [[a|e|] w']; simpl in *; [|done..]. etrans; [done|by apply Hk].
Qed.
Lemma calm_read_at {E A B} w (m : M World E A) (k : A → M World E B) :
  (∀ w, (m w).2 = w) → (∀ a, m w = (Ok a, w) → calm w (k a w).2) → calm w (bind m k w).2.
Proof.
  intros Hm Hk. apply calm_bind_at; [by rewrite Hm|]. intros a w' Ha. specialize (Hm w). rewrite Ha in Hm. simpl in Hm. subst. auto.
Qed.
Lemma idle_new r order kind parent : idle (new_actor r order kind parent).
Proof. by intros []. Qed.
Lemma calm_push w a :
  w_free w = [] → idle a → placed (w_id w) (N.of_nat (length (w_actors w))) a →
  calm w (w <| w_actors ::= λ l, l ++ [Some a] |>).
Proof.
  intros Hf Hi Hs Hw. split; [intros s b; simpl; rewrite Hf; by intros ?%elem_of_nil|]. split; try done. intros s.
  destruct (actor_at (w <| w_actors ::= λ l, l ++ [Some a] |>) s) as [b|] eqn:Hb.
  - apply (actor_at_push w) in Hb as [[-> ->]|[Hb _]]; [|rewrite Hb; by left].
    destruct (actor_at w _) eqn:Hat; [apply actor_at_length in Hat; lia|]. done.
  - destruct (actor_at w s) as [c|] eqn:Hc; [|done]. unfold actor_at in Hb. cbn in Hb.
    rewrite lookup_app_l in Hb by (by eapply actor_at_length). unfold actor_at in Hc. by rewrite Hc in Hb.
Qed.
Lemma calm_reuse w slot free old a :
  w_free w = slot :: free → actor_at w slot = Some old → idle a → placed (w_id w) slot a →
  calm w (w <| w_free := free |> <| w_actors ::= <[N.to_nat slot := Some a]> |>).
Proof.
  intros Hf Ho Hi Hs Hw. assert (idle old) as Hio by (apply (Hw slot); [rewrite Hf; set_solver|done]).
  set (w' := w <| w_free := free |> <| w_actors ::= <[N.to_nat slot := Some a]> |>).
  assert (∀ s b, actor_at w' s = Some b → (s = slot ∧ b = a) ∨ (s ≠ slot ∧ actor_at w s = Some b)) as Hat.
  { intros s b Hb. apply (actor_at_reuse w slot a free). done. }
  split.
  - intros s b Hs' Hb. apply Hat in Hb as [[_ ->]|[_ Hb]]; [done|]. eapply Hw; [|done]. rewrite Hf. by right.
  - split; try done. intros s. destruct (actor_at w' s) as [b|] eqn:Hb.
    + apply Hat in Hb as [[-> ->]|[_ Hb]]; [rewrite Ho; by right|rewrite Hb; by left].
    + destruct (decide (s = slot)) as [->|Hne].
      * unfold actor_at in Hb. cbn in Hb. by rewrite list_lookup_insert_eq in Hb by (by eapply actor_at_length).
      * destruct (actor_at w s) as [c|] eqn:Hc; [|done]. unfold actor_at in Hb, Hc. cbn in Hb.
        rewrite list_lookup_insert_ne in Hb by lia. by rewrite Hc in Hb.
Qed.
Lemma calm_allocate_locked kind parent w : slots_wf w → calm w (allocate_locked kind parent w).2.
Proof.
  intros Hwf. unfold allocate_locked. apply calm_read_at; [done|]. intros ? [= <-].
  apply calm_read_at; [by intros w'; destruct (_ <=? _)%N|]. intros ? _.
  apply calm_read_at; [intros w'; destruct parent as [p|]; [|done]|].
  { unfold bind, check_ref, of_outcome. destruct (find_ref w' p); [done|]. unfold reject_if. by destruct (negb _). }
  intros ? _. apply calm_read_at; [by intros w'; destruct (checked_add _ _ _)|]. intros order _.
  assert (∀ r, steps calm (match parent with
      | Some p => update_ref p (λ a, a <| a_children ::= λ l, l ++ [r] |>)
      | None => ret tt
      end ;;;
      modify (λ w, w <| w_live_actors ::= N.succ |> <| w_next_ready_order := order |>) ;;;
      refresh_python_ready r ;;; mark_activity_dependents r ;;; ret r)) as Hrest by (intros r; calm).
  destruct (w_free w) as [|slot free] eqn:Hfree.
  - pose proof (sw_length _ Hwf). pose proof (sw_max _ Hwf). unfold u32_max in *. set (slot := N.of_nat (length (w_actors w))).
    assert (actor_at w slot = None) as Hat.
    { destruct (actor_at w slot) eqn:Hat; [|done]. apply actor_at_length in Hat. unfold slot in Hat. lia. }
    assert (pop_free w = (Ok slot, w)) as Hpop.
    { unfold pop_free, bind, get. rewrite Hfree. unfold ret. by rewrite N.mod_small by lia. }
    unfold bind at 1. rewrite Hpop, Hat. unfold bind at 1, ret at 1. cbv zeta. unfold install. unfold bind at 1. unfold bind at 1, get.
    rewrite bool_decide_true by (unfold slot; lia). unfold modify at 1. etrans; [|apply Hrest].
    apply calm_push; [done|apply idle_new|done].
  - destruct (proj1 (sw_free _ Hwf slot)) as (old & Hold & _); [rewrite Hfree; set_solver|].
    pose proof (actor_at_length _ _ _ Hold) as Hslot.
    assert (pop_free w = (Ok slot, w <| w_free := free |>)) as Hpop by (unfold pop_free, bind, get; by rewrite Hfree).
    unfold bind at 1. rewrite Hpop, Hold. unfold bind at 1.
    destruct (checked_add _ _ _) as [generation|]; unfold expect, ret at 1.
    + cbv zeta. unfold install. unfold bind at 1. unfold bind at 1, get. cbn [w_actors set_field].
      rewrite bool_decide_false, bool_decide_true by (cbn; lia). unfold modify at 1. etrans; [|apply Hrest].
      by eapply calm_reuse; [done|done|apply idle_new|].
    + intros Hw. split; [|split; try done; intros s; apply slot_moves_refl].
      intros s b Hs. eapply Hw. rewrite Hfree. by right.
Qed.
Lemma calm_acquire_target owner name required expected w :
  slots_wf w → calm w (Services.acquire_service_target owner name required expected w).2.
Proof.
  intros Hwf. unfold Services.acquire_service_target.
  do 11 (apply calm_read_at; [intros w'; unfold reject_if, ok_or, check_ref; repeat case_match; reflexivity|intros ? _]).
  apply calm_bind_at; [by apply calm_allocate_locked|]. intros scope w' _. match goal with |- calm ?s (?m ?s).2 => enough (steps calm m) by done end.
  calm.
Qed.
