(* ===== verification/HandleRuns.v ===== *)
(** * Handles along a run

    The operations that take and end handles keep both records of them in
    agreement, so that in every World a program can reach an actor executes at most
    one delivery or callback, and stays in its slot while a handle on it exists. *)
From S2P Require Import Prelude Collections Text Types Metadata Schema Routing Expiry Readiness Operations.
From S2P Require Import Diagnostics Publications SchemaRegistry Activity WorldState Admission Publishing Actors.
From S2P Require Import Messaging Components Views Steps WorldFrames WorldSteps ActorSteps MessageSteps WorldRuns WorldSlots Handles.

(** ** The invariant *)
Definition debt (d : list (hold * ActorRef)) (k : hold) (r : ActorRef) : N :=
  count_by (λ p, bool_decide (p.1 = k) && bool_decide (p.2 = r)) d.
Arguments debt : simpl never.
Definition executing (a : Actor) : N := busy Delivering a + busy Controlling a.
Definition unissued (w : World) (h : N) : Prop :=
  w_leases w !! h = None ∧ w_callbacks w !! h = None ∧ w_failure_leases w !! h = None ∧ w_tasks w !! h = None.
Record hands_wf (d : list (hold * ActorRef)) (w : World) : Prop := {
  hd_busy slot a k : actor_at w slot = Some a →
    busy k a = (handles w k (a_reference a) + debt d k (a_reference a))%N;
  hd_held k r : (0 < handles w k r + debt d k r)%N → ∃ a, actor_at w (ar_slot r) = Some a ∧ a_reference a = r;
  hd_placed slot a : actor_at w slot = Some a → placed (w_id w) slot a;
  hd_free : free_idle w;
  hd_one slot a : actor_at w slot = Some a → (executing a ≤ 1)%N;
  hd_fresh h : (w_next_handle w ≤ h)%N → unissued w h;
}.
Lemma handles_moves w w' k r : moves w w' → handles w' k r = handles w k r.
Proof. intros []. destruct k; simpl; congruence. Qed.
Lemma hands_calm d w w' : calm w w' → hands_wf d w → hands_wf d w'.
Proof.
  intros Hc [Hb Hh Hp Hf Ho Hn]. destruct (Hc Hf) as [Hf' Hm]. pose proof (mv_slots _ _ Hm) as Hs.
  assert (∀ slot a', actor_at w' slot = Some a' →
    (∃ a, actor_at w slot = Some a ∧ same_hands a a') ∨
    (idle a' ∧ placed (w_id w) slot a' ∧ ∀ a, actor_at w slot = Some a → idle a)) as Hback.
  { intros slot a' Ha'. specialize (Hs slot). rewrite Ha' in Hs. destruct (actor_at w slot) as [a|] eqn:Ha; simpl in Hs.
    - destruct Hs as [Hs|(H1 & H2 & H3)]; [left; eauto|right]. split_and!; [done..|]. by intros ? [= <-].
    - destruct Hs. right. done. }
  split; try done.
  - intros slot a' k Ha'. rewrite (handles_moves w) by done. destruct (Hback _ _ Ha') as [(a & Ha & Hr & Hk)|(Hi & [Hsl _] & Hold)].
    + rewrite Hk, Hr. eauto.
    + rewrite Hi. destruct (decide (0 < handles w k (a_reference a') + debt d k (a_reference a'))%N) as [Hpos|]; [|lia].
      destruct (Hh _ _ Hpos) as (a & Ha & Hr). rewrite Hsl in Ha. pose proof (Hb _ _ k Ha) as Hk. rewrite (Hold _ Ha k), Hr in Hk. done.
  - intros k r. rewrite (handles_moves w) by done. intros Hpos. destruct (Hh _ _ Hpos) as (a & Ha & Hr).
    specialize (Hs (ar_slot r)). rewrite Ha in Hs. destruct (actor_at w' (ar_slot r)) as [a'|]; [|done].
    exists a'. split; [done|]. destruct Hs as [[Hr' _]|[Hi _]]; [congruence|].
    pose proof (Hb _ _ k Ha) as Hk. rewrite (Hi k), Hr in Hk. lia.
  - intros slot a' Ha'. rewrite (mv_id _ _ Hm). destruct (Hback _ _ Ha') as [(a & Ha & Hr & _)|(_ & Hpl & _)]; [|done].
    unfold placed. rewrite Hr. by apply Hp.
  - intros slot a' Ha'. unfold executing. destruct (Hback _ _ Ha') as [(a & Ha & _ & Hk)|(Hi & _)]; [rewrite !Hk; by eapply Ho|].
    by rewrite !Hi.
  - intros h Hle. unfold unissued. destruct Hm as [? -> -> -> -> ? ?]. apply Hn. lia.
Qed.
(** The records of the callers change as the debt does. *)
Lemma hands_records d d' w w' :
  w_id w' = w_id w → w_actors w' = w_actors w → w_free w' = w_free w →
  (∀ k r, handles w' k r + debt d' k r = handles w k r + debt d k r)%N →
  (∀ h, (w_next_handle w' ≤ h)%N → unissued w' h) → hands_wf d w → hands_wf d' w'.
Proof.
  intros Hid Ha Hf Hk Hn [Hb Hh Hp Hfr Ho _]. assert (∀ slot, actor_at w' slot = actor_at w slot) as Hat by (intros; unfold actor_at; by rewrite Ha).
  split; try done.
  - intros slot a k. rewrite Hat, Hk. apply Hb.
  - intros k r. rewrite Hat, Hk. apply Hh.
  - intros slot a. rewrite Hat, Hid. apply Hp.
  - intros slot a. rewrite Hf, Hat. apply Hfr.
  - intros slot a. rewrite Hat. apply Ho.
Qed.
(** The record of an actor changes as the debt does. *)
Lemma hands_set d d' w slot f a :
  actor_at w slot = Some a → a_reference (f a) = a_reference a →
  (∀ k, busy k (f a) + debt d k (a_reference a) = busy k a + debt d' k (a_reference a))%N →
  (∀ k r, r ≠ a_reference a → debt d' k r = debt d k r) →
  (executing (f a) ≤ 1)%N → (slot ∈ w_free w → idle (f a)) → hands_wf d w → hands_wf d' (set_slot slot f w).
Proof.
  intros Ha Hr Hk Hne Hex Hidle [Hb Hh Hp Hfr Ho Hn].
  assert (∀ s b, actor_at (set_slot slot f w) s = Some b → (s = slot ∧ b = f a) ∨ (s ≠ slot ∧ actor_at w s = Some b)) as Hat.
  { intros s b Hs. apply actor_at_update in Hs as [(-> & a' & Ha' & ->)|Hs]; [left|by right]. by simplify_eq. }
  split; try done.
  - intros s b k Hs. change (handles (set_slot slot f w)) with (handles w). destruct (Hat _ _ Hs) as [[-> ->]|[Hsl Hsb]].
    + rewrite Hr. specialize (Hk k). pose proof (Hb _ _ k Ha). lia.
    + rewrite Hne; [by eapply Hb|]. intros Heq. destruct (Hp _ _ Ha) as [H1 _], (Hp _ _ Hsb) as [H2 _]. congruence.
  - intros k r. change (handles (set_slot slot f w)) with (handles w). intros Hpos.
    destruct (decide (r = a_reference a)) as [->|Hra].
    + exists (f a). destruct (Hp _ _ Ha) as [-> _]. split; [|done]. by rewrite actor_at_set_slot, Ha.
    + rewrite Hne in Hpos by done. destruct (Hh _ _ Hpos) as (b & Hb' & Hbr). exists b. split; [|done].
      rewrite actor_at_set_slot_ne; [done|]. intros Heq. rewrite Heq in Ha. simplify_eq.
  - intros s b Hs. change (w_id (set_slot slot f w)) with (w_id w). destruct (Hat _ _ Hs) as [[-> ->]|[_ Hsb]]; [|eauto].
    unfold placed. rewrite Hr. by apply Hp.
  - intros s b Hin Hs. destruct (Hat _ _ Hs) as [[-> ->]|[_ Hsb]]; [by apply Hidle|by eapply (Hfr s)].
  - intros s b Hs. destruct (Hat _ _ Hs) as [[-> ->]|[_ Hsb]]; eauto.
Qed.
Lemma triple_calm {E A} d (m : M World E A) : steps calm m → triple (hands_wf d) m (λ _, hands_wf d) (hands_wf d).
Proof. intros Hm w Hw. specialize (Hm w). destruct (m w) as [[a|e|] w']; [by eapply hands_calm..|done]. Qed.
Lemma triple_calm_bind {E A B} d Post Q (m : M World E A) (k : A → M World E B) :
  steps calm m → (∀ w, hands_wf d w → Q w) → (∀ a, triple (hands_wf d) (k a) Post Q) → triple (hands_wf d) (bind m k) Post Q.
Proof. intros Hm HQ Hk. eapply triple_bind; [|apply Hk]. eapply triple_conseq; [by apply triple_calm|done|done|done]. Qed.

(** ** The records of the callers *)
Lemma owned_insert {V} (owner : V → ActorRef) r (m : gmap N V) h v :
  m !! h = None → owned owner r (<[h := v]> m) = (b2n (bool_decide (owner v = r)) + owned owner r m)%N.
Proof. apply (sum_map_insert (λ _ v, b2n (bool_decide (owner v = r)))). Qed.
Lemma owned_delete {V} (owner : V → ActorRef) r (m : gmap N V) h v :
  m !! h = Some v → owned owner r m = (b2n (bool_decide (owner v = r)) + owned owner r (delete h m))%N.
Proof. apply (sum_map_delete (λ _ v, b2n (bool_decide (owner v = r)))). Qed.
Lemma debt_cons k r d k' r' : debt ((k, r) :: d) k' r' = (b2n (bool_decide (k = k') && bool_decide (r = r')) + debt d k' r')%N.
Proof. done. Qed.
Lemma debt_nil k r : debt [] k r = 0%N.
Proof. done. Qed.
Arguments owned : simpl never.
Ltac hands_lia := rewrite ?debt_cons; simpl; repeat case_bool_decide; simplify_eq/=; lia.
(** A new handle enters one of the maps. *)
Ltac issue :=
  intros w Hw; unfold bind, new_handle, get, modify, ret; cbn [w_next_handle set_field];
  pose proof (hd_fresh _ _ Hw _ (N.le_refl _)) as (?&?&?&?);
  eapply hands_records; [..|exact Hw]; try reflexivity; [intros [] ?; cbn; rewrite ?owned_insert by done; hands_lia|
    intros h Hh; cbn in Hh; destruct (hd_fresh _ _ Hw h ltac:(lia)) as (?&?&?&?); unfold unissued; cbn;
    rewrite ?lookup_insert_ne by lia; done].
Section issue.
Context {B : Type} (d : list (hold * ActorRef)) (b : N → B) (Q : World → Prop).
Lemma triple_issue_lease l :
  triple (hands_wf ((Delivering, dl_target l) :: d))
    (let! handle := new_handle in modify (E:=error) (λ w, w <| w_leases ::= <[handle := l]> |>) ;;; ret (b handle))
    (λ _, hands_wf d) Q.
Proof. issue. Qed.
Lemma triple_issue_failure l :
  triple (hands_wf ((Controlling, fl_supervisor l) :: d))
    (let! handle := new_handle in modify (E:=error) (λ w, w <| w_failure_leases ::= <[handle := l]> |>) ;;; ret (b handle))
    (λ _, hands_wf d) Q.
Proof. issue. Qed.
Lemma triple_issue_callback owner :
  triple (hands_wf ((Controlling, owner) :: d))
    (let! handle := new_handle in modify (E:=error) (λ w, w <| w_callbacks ::= <[handle := owner]> |>) ;;; ret (b handle))
    (λ _, hands_wf d) Q.
Proof. issue. Qed.
Lemma triple_issue_task task :
  triple (hands_wf ((Tasking, tk_owner task) :: d))
    (let! handle := new_handle in modify (E:=error) (λ w, w <| w_tasks ::= <[handle := task]> |>) ;;; ret (b handle))
    (λ _, hands_wf d) Q.
Proof. issue. Qed.
End issue.

(** A handle leaves its map: the method owes the actor's record. *)
Ltac leave_map Hl Hw :=
  eapply hands_records; [..|exact Hw]; try reflexivity;
  [intros [] ?; cbn; try rewrite (owned_delete _ _ _ _ _ Hl); hands_lia|
   intros h Hh; cbn in Hh; destruct (hd_fresh _ _ Hw h Hh) as (?&?&?&?); unfold unissued; cbn; rewrite ?lookup_delete_None; auto].
Ltac end_handle Hl :=
  intros w [Hl Hw]; unfold bind, expect, get, modify, ret; rewrite Hl; cbv beta iota; (split; [reflexivity|]); leave_map Hl Hw.
Section end_.
Context (d : list (hold * ActorRef)) (handle : N) (Q : World → Prop).
Lemma triple_end_lease l :
  triple (λ w, w_leases w !! handle = Some l ∧ hands_wf d w) (end_lease handle)
    (λ l' w, l' = l ∧ hands_wf ((Delivering, dl_target l) :: d) w) Q.
Proof. unfold end_lease. end_handle Hl. Qed.
Lemma triple_end_failure l :
  triple (λ w, w_failure_leases w !! handle = Some l ∧ hands_wf d w) (Supervision.end_failure_lease handle)
    (λ l' w, l' = l ∧ hands_wf ((Controlling, fl_supervisor l) :: d) w) Q.
Proof. unfold Supervision.end_failure_lease. end_handle Hl. Qed.
End end_.
(** The record of the actor whose handle has ended. *)
Lemma hands_release d k r w f :
  (∀ a, actor_at w (ar_slot r) = Some a → a_reference (f a) = a_reference a) →
  (∀ a k', busy k a ≠ 0%N → (busy k' (f a) + b2n (bool_decide (k = k')) = busy k' a)%N) →
  hands_wf ((k, r) :: d) w → hands_wf d (set_slot (ar_slot r) f w).
Proof.
  intros Hr Hk Hw. destruct (hd_held _ _ Hw k r) as (a & Ha & Har).
  { rewrite debt_cons, !bool_decide_true by done. simpl. lia. }
  assert (busy k a ≠ 0%N) as Hpos.
  { rewrite (hd_busy _ _ Hw _ _ k Ha), Har, debt_cons, !bool_decide_true by done. simpl. lia. }
  eapply hands_set; [exact Ha|by apply Hr|..|exact Hw].
  - intros k'. specialize (Hk a k' Hpos). rewrite Har, debt_cons. revert Hk. repeat case_bool_decide; simplify_eq/=; lia.
  - intros k' r' Hne. rewrite debt_cons, Har in *. rewrite (bool_decide_false (r = r')) by done. by rewrite andb_false_r.
  - pose proof (hd_one _ _ Hw _ _ Ha) as Hone. unfold executing in *.
    pose proof (Hk a Delivering Hpos). pose proof (Hk a Controlling Hpos). lia.
  - intros Hf. destruct Hpos. by apply (hd_free _ _ Hw _ _ Hf Ha).
Qed.
Lemma hands_release_update d k r f :
  (∀ a, a_reference (f a) = a_reference a) →
  (∀ a k', busy k a ≠ 0%N → (busy k' (f a) + b2n (bool_decide (k = k')) = busy k' a)%N) → ∀ Q,
  triple (hands_wf ((k, r) :: d)) (update_ref r f) (λ _, hands_wf d) Q.
Proof.
  intros Hr Hk Q w Hw. destruct (hd_held _ _ Hw k r) as (a & Ha & Har).
  { rewrite debt_cons, !bool_decide_true by done. simpl. lia. }
  unfold update_ref, check_ref, bind, modify.
  assert (find_ref w r = inr a) as ->; [|by eapply hands_release].
  destruct (hd_placed _ _ Hw _ _ Ha) as [_ Hid]. unfold find_ref. rewrite Ha, <- Hid, Har. by rewrite !bool_decide_false by auto.
Qed.
Lemma busy_no_delivery a k' :
  busy Delivering a ≠ 0%N → (busy k' (a <| a_in_flight := false |>) + b2n (bool_decide (Delivering = k')) = busy k' a)%N.
Proof. simpl. destruct (a_in_flight a) eqn:Hf; [|done]. intros _. destruct k'; simpl; rewrite ?Hf; try case_bool_decide; simpl; (done || lia). Qed.
Lemma busy_no_control a k' :
  busy Controlling a ≠ 0%N → (busy k' (a <| a_control_in_flight := false |>) + b2n (bool_decide (Controlling = k')) = busy k' a)%N.
Proof. simpl. destruct (a_control_in_flight a) eqn:Hf; [|done]. intros _. destruct k'; simpl; rewrite ?Hf; try case_bool_decide; simpl; (done || lia). Qed.
Lemma busy_less_task a k' :
  busy Tasking a ≠ 0%N → (busy k' (a <| a_native_tasks ::= N.pred |>) + b2n (bool_decide (Tasking = k')) = busy k' a)%N.
Proof. simpl. intros Hp. destruct k'; simpl; try case_bool_decide; simpl; (done || lia). Qed.

(** *** Deliveries *)
Lemma triple_lease_over d target (m : WM unit) Q :
  (∀ w, hands_wf d w → Q w) → steps calm m →
  triple (hands_wf ((Delivering, target) :: d)) (update_slot (ar_slot target) (λ a, a <| a_in_flight := false |>) ;;; m)
    (λ _, hands_wf d) Q.
Proof.
  intros HQ Hm. eapply (triple_bind _ (λ _, hands_wf d)).
  - intros w Hw. apply (hands_release _ Delivering target); [done|apply busy_no_delivery|done].
  - intros _. eapply triple_conseq; [by apply triple_calm|done|done|done].
Qed.
Lemma hands_finish_delivery handle success l :
  triple (λ w, w_leases w !! handle = Some l ∧ hands_wf [] w) (finish_delivery handle success) (λ _, hands_wf []) (hands_wf []).
Proof.
  eapply triple_bind; [apply triple_end_lease|]. intros l'. apply triple_pure. intros ->.
  apply triple_lease_over; [done|calm].
Qed.
Lemma hands_drop_delivery handle l :
  triple (λ w, w_leases w !! handle = Some l ∧ hands_wf [] w) (drop_delivery handle) (λ _, hands_wf []) (hands_wf []).
Proof.
  eapply triple_bind; [apply triple_end_lease|]. intros l'. apply triple_pure. intros ->.
  apply triple_lease_over; [done|calm].
Qed.
Lemma hands_with_activity {A} (m : WM A) Pre :
  triple Pre m (λ _, hands_wf []) (hands_wf []) → triple Pre (with_activity m) (λ _, hands_wf []) (hands_wf []).
Proof.
  intros Hm w Hw. specialize (Hm w Hw). unfold with_activity.
  destruct (m w) as [[a|e|] w']; [| |done]; (eapply hands_calm; [apply calm_touch|done]).
Qed.
Lemma hands_finish_failure handle action l :
  triple (λ w, w_failure_leases w !! handle = Some l ∧ hands_wf [] w) (Supervision.finish_failure handle action)
    (λ _, hands_wf []) (hands_wf []).
Proof.
  apply hands_with_activity. eapply triple_bind; [apply triple_end_failure|]. intros l'. apply triple_pure. intros ->.
  eapply (triple_bind _ (λ _, hands_wf [(Controlling, fl_supervisor l)])).
  - apply triple_try. eapply triple_conseq; [apply triple_calm; calm|done|done|done].
  - intros result. eapply triple_bind; [apply (hands_release_update _ Controlling); [done|apply busy_no_control]|].
    intros ?. apply triple_calm. calm.
Qed.
Lemma hands_drop_failure handle l :
  triple (λ w, w_failure_leases w !! handle = Some l ∧ hands_wf [] w) (Supervision.drop_failure handle)
    (λ _, hands_wf []) (hands_wf []).
Proof.
  apply hands_with_activity. eapply triple_bind; [apply triple_end_failure|]. intros l'. apply triple_pure. intros ->.
  eapply (triple_bind _ (λ _, hands_wf [])); [|intros ?; apply triple_calm; calm].
  apply triple_try. eapply (hands_release_update _ Controlling); [done|apply busy_no_control].
Qed.
Lemma hands_drop_callback handle owner :
  triple (λ w, w_callbacks w !! handle = Some owner ∧ hands_wf [] w) (Callbacks.drop_callback handle)
    (λ _, hands_wf []) (hands_wf []).
Proof.
  apply hands_with_activity.
  apply triple_get. intros w [Hl Hw]. rewrite Hl. apply triple_ret_bind.
  eapply (triple_bind _ (λ _, hands_wf [(Controlling, owner)])).
  { intros ? ->. unfold modify. change owner with (id owner). leave_map Hl Hw. }
  intros ?. eapply (triple_bind _ (λ _, hands_wf [])); [|intros ?; apply triple_calm; calm].
  apply triple_try. eapply (hands_release_update _ Controlling); [done|apply busy_no_control].
Qed.

(** *** Tasks *)
Lemma hands_drop_registration owner :
  triple (hands_wf [(Tasking, owner)]) (drop_registration owner) (λ _, hands_wf []) (hands_wf []).
Proof.
  apply triple_get. intros w Hw.
  eapply (triple_bind _ (λ _, hands_wf [])); [|intros ?; apply triple_calm; calm]. intros ? ->.
  destruct (hd_held _ _ Hw Tasking owner) as (a & Ha & Har).
  { rewrite debt_cons, !bool_decide_true by done. simpl. lia. }
  assert (busy Tasking a ≠ 0%N) as Hpos.
  { rewrite (hd_busy _ _ Hw _ _ _ Ha), Har, debt_cons, !bool_decide_true by done. simpl. lia. }
  simpl in Hpos. rewrite Ha, bool_decide_true by done. assert ((0 <? a_native_tasks a)%N = true) as -> by lia. simpl.
  apply (hands_release _ Tasking owner); [done|apply busy_less_task|done].
Qed.
Lemma hands_update_task w handle task strong :
  w_tasks w !! handle = Some task → hands_wf [] w →
  hands_wf [] (w <| w_tasks ::= <[handle := task <| tk_strong ::= strong |>]> |>).
Proof.
  intros Ht Hw. eapply hands_records; [..|exact Hw]; try done.
  - intros [] r; simpl; [done..|]. f_equal. unfold owned.
    pose proof (sum_map_update (λ (_ : N) v, b2n (bool_decide (tk_owner v = r))) _ _ _ (task <| tk_strong ::= strong |>) Ht) as H.
    simpl in H. lia.
  - intros h Hh. destruct (hd_fresh _ _ Hw h Hh) as (?&?&?&?). split_and!; try done. simpl.
    apply lookup_insert_None. split; [done|]. intros ->. congruence.
Qed.
Lemma hands_clone_task handle : triple (hands_wf []) (clone_task handle) (λ _, hands_wf []) (hands_wf []).
Proof.
  apply triple_get. intros w Hw. apply triple_expect. intros task Ht ? ->. by apply hands_update_task.
Qed.
Lemma hands_drop_task handle : triple (hands_wf []) (drop_task handle) (λ _, hands_wf []) (hands_wf []).
Proof.
  apply triple_get. intros w Hw. apply triple_expect. intros task Ht.
  destruct (tk_strong task <=? 1)%N; [|intros ? ->; by apply hands_update_task].
  eapply (triple_bind _ (λ _, hands_wf [(Tasking, tk_owner task)])); [|intros ?; apply hands_drop_registration].
  intros ? ->. unfold modify. leave_map Ht Hw.
Qed.

(** ** Taking a handle *)

(** The actor in the slot of [r] executes nothing, and is not free. *)
Definition resting (r : ActorRef) (w : World) : Prop :=
  ar_slot r ∉ w_free w ∧ ∀ a, actor_at w (ar_slot r) = Some a → executing a = 0%N.
Definition fixed (w w' : World) : Prop := w_free w' = w_free w.
#[export] Instance fixed_preorder : PreOrder fixed.
Proof. split; [done|]. intros w1 w2 w3. unfold fixed. congruence. Qed.
Lemma fixed_framed {E A} (m : M World E A) : framed [] m → steps fixed m.
Proof. intros Hm w. apply (Hm w). Qed.
Lemma fixed_slot {E} slot f : steps fixed (modify (E:=E) (set_slot slot f)).
Proof. by intros w. Qed.
Ltac fixed_step :=
  match goal with
  | |- steps fixed (bind _ _) => apply (steps_bind _); [|intros ?]
  | |- steps fixed (match ?c with _ => _ end) => destruct c eqn:?
  | |- steps fixed (update_slot _ _) => apply fixed_slot
  | |- steps fixed _ => apply fixed_framed; solve [steps]
  end.
Lemma fixed_pop_delivery r : steps fixed (pop_delivery r).
Proof. unfold pop_delivery. repeat fixed_step. Qed.
Lemma fixed_still_valid r d : steps fixed (still_valid r d).
Proof. apply fixed_framed, framed_still_valid. Qed.
Lemma resting_calm r w w' : free_idle w → calm w w' → fixed w w' → resting r w → resting r w'.
Proof.
  intros Hf Hc Hfix [Hr Hx]. destruct (Hc Hf) as [_ Hm]. split; [by rewrite Hfix|]. intros a' Ha'.
  pose proof (mv_slots _ _ Hm (ar_slot r)) as Hs. rewrite Ha' in Hs. unfold executing in *.
  destruct (actor_at w (ar_slot r)) as [a|]; simpl in Hs.
  - destruct Hs as [[_ Hk]|(_ & Hi & _)]; [rewrite !Hk; by apply Hx|by rewrite !Hi].
  - destruct Hs as [Hi _]. by rewrite !Hi.
Qed.
Lemma triple_resting {E A} r (m : M World E A) :
  steps calm m → steps fixed m →
  triple (λ w, resting r w ∧ hands_wf [] w) m (λ _ w, resting r w ∧ hands_wf [] w) (hands_wf []).
Proof.
  intros Hc Hf w [Hr Hw]. specialize (Hc w). specialize (Hf w). destruct (m w) as [[a|e|] w']; simpl in *; [|by eapply hands_calm|done].
  split; [eapply resting_calm; [apply Hw|done..]|by eapply hands_calm].
Qed.
Lemma hands_ref d w r a : hands_wf d w → find_ref w r = inr a → a_reference a = r.
Proof.
  intros Hw Ha. destruct (hd_placed _ _ Hw _ _ (find_ref_actor _ _ _ Ha)) as [H1 H2]. unfold find_ref in Ha.
  repeat case_match; simplify_eq. repeat case_bool_decide; simplify_eq.
  destruct r, (a_reference a); simpl in *. f_equal; (done || congruence).
Qed.
Lemma hands_take d k r w f a :
  find_ref w r = inr a → a_reference (f a) = a_reference a →
  (∀ k', busy k' (f a) = busy k' a + b2n (bool_decide (k = k')))%N → (executing (f a) ≤ 1)%N → ar_slot r ∉ w_free w →
  hands_wf d w → hands_wf ((k, r) :: d) (set_slot (ar_slot r) f w).
Proof.
  intros Ha Hr Hk Hx Hf Hw. pose proof (find_ref_actor _ _ _ Ha) as Hat.
  pose proof (hands_ref _ _ _ _ Hw Ha) as Har.
  eapply hands_set; [done|done|..|exact Hw]; [|..|done|done].
  - intros k'. rewrite Hk, Har, debt_cons. rewrite (bool_decide_true (r = r)) by done. rewrite andb_true_r. lia.
  - intros k' r' Hne. rewrite debt_cons, Har in *. rewrite (bool_decide_false (r = r')) by done. by rewrite andb_false_r.
Qed.
Lemma busy_delivery a k' :
  a_in_flight a = false → busy k' (a <| a_in_flight := true |>) = (busy k' a + b2n (bool_decide (Delivering = k')))%N.
Proof. intros Hf. destruct k'; simpl; rewrite ?Hf; try case_bool_decide; simpl; (done || lia). Qed.
Lemma busy_control a k' :
  a_control_in_flight a = false → busy k' (a <| a_control_in_flight := true |>) = (busy k' a + b2n (bool_decide (Controlling = k')))%N.
Proof. intros Hf. destruct k'; simpl; rewrite ?Hf; try case_bool_decide; simpl; (done || lia). Qed.
Lemma busy_task a k' :
  busy k' (a <| a_native_tasks ::= N.succ |>) = (busy k' a + b2n (bool_decide (Tasking = k')))%N.
Proof. destruct k'; simpl; try case_bool_decide; simpl; (done || lia). Qed.
Lemma executing_none a : executing a = 0%N ↔ a_in_flight a = false ∧ a_control_in_flight a = false.
Proof. unfold executing. simpl. destruct (a_in_flight a), (a_control_in_flight a); simpl; naive_solver lia. Qed.

(** While the handle does not exist yet, nothing fails. *)
Lemma errless_finalize fuel : ∀ r, errless (finalize fuel r).
Proof.
  induction fuel as [|fuel IH]; intros r; cbn [finalize]; [apply errless_panic|].
  apply errless_bind; [apply errless_refresh|intros ?]. apply errless_bind; [apply errless_marking|intros ?].
  assert (errless (decr (E:=error) w_live_actors)) as Hd by (intros w e; unfold decr; by case_decide).
  pose proof errless_refresh. pose proof errless_retire_owner. unfold update_slot. errless.
Qed.
Lemma errless_try_finalize r : errless (try_finalize r).
Proof. intros w. apply errless_finalize. Qed.
#[local] Hint Resolve errless_refresh errless_marking errless_try_finalize errless_touch : errless.
Lemma triple_owing {E A} d (m : M World E A) Q : steps calm m → errless m → triple (hands_wf d) m (λ _, hands_wf d) Q.
Proof. intros Hc He. eapply triple_errless; [done|by apply triple_calm]. Qed.
Lemma triple_owing_bind {E A B} d Post Q (m : M World E A) (k : A → M World E B) :
  steps calm m → errless m → (∀ a, triple (hands_wf d) (k a) Post Q) → triple (hands_wf d) (bind m k) Post Q.
Proof. intros Hc He Hk. eapply triple_bind; [by apply triple_owing|done]. Qed.

(** *** Claiming a delivery *)
Lemma hands_claim_loop fuel : ∀ r,
  triple (λ w, resting r w ∧ hands_wf [] w) (claim_loop fuel r) (λ _, hands_wf []) (hands_wf []).
Proof.
  induction fuel as [|fuel IH]; intros r; cbn [claim_loop]; [apply triple_panic|].
  eapply triple_bind; [apply triple_resting; [calm|apply fixed_pop_delivery]|].
  intros [d|]; [|by apply triple_ret; intros w []].
  eapply triple_bind; [apply triple_resting; [calm|apply fixed_still_valid]|].
  intros valid. destruct (negb valid); [apply IH|].
  eapply (triple_bind _ (λ _, hands_wf [(Delivering, r)])).
  - intros w [[Hf Hx] Hw]. unfold update_ref, check_ref, bind, modify. destruct (find_ref w r) as [e|a] eqn:Ha; [done|].
    specialize (Hx a (find_ref_actor _ _ _ Ha)). apply executing_none in Hx as [Hx Hc].
    eapply hands_take; [exact Ha|done|by intros; apply busy_delivery| |done|done].
    unfold executing. rewrite !busy_delivery by done. simpl. by rewrite Hx, Hc.
  - intros ?. do 2 (apply triple_owing_bind; [calm|unfold count; errless|intros ?]).
    apply (triple_issue_lease [] Some _ (MkDeliveryLease r (d_operation d) d)).
Qed.
(** An actor that executes is not in the free list. *)
Lemma execution_live w r e :
  slots_wf w → execution_of w r = Ok e → e ≠ Lifecycle.Stopping → ar_slot r ∉ w_free w.
Proof.
  intros Hw. unfold execution_of. destruct (find_ref w r) as [|a] eqn:Ha; [done|]. unfold walk_fuel. cbn [execution_walk].
  intros He Hne Hf. apply (sw_free _ Hw) in Hf as (b & Hb & Hs). rewrite (find_ref_actor _ _ _ Ha) in Hb. simplify_eq.
  rewrite Hs in He. congruence.
Qed.
Lemma state_live w r a : slots_wf w → find_ref w r = inr a → a_state a ≠ Lifecycle.Stopped → ar_slot r ∉ w_free w.
Proof.
  intros Hw Ha Hs Hf. apply (sw_free _ Hw) in Hf as (b & Hb & Hst). rewrite (find_ref_actor _ _ _ Ha) in Hb. by simplify_eq.
Qed.
Lemma resting_ref w r a :
  find_ref w r = inr a → a_in_flight a || a_control_in_flight a = false → ar_slot r ∉ w_free w → resting r w.
Proof.
  intros Ha Hb Hf. split; [done|]. intros b Hat. rewrite (find_ref_actor _ _ _ Ha) in Hat. simplify_eq.
  apply executing_none. by apply orb_false_iff.
Qed.
Definition entered (w : World) : Prop := slots_wf w ∧ hands_wf [] w.
Lemma hands_claim r : triple entered (claim r) (λ _, hands_wf []) (hands_wf []).
Proof.
  apply hands_with_activity. apply triple_check_ref; [by intros w []|]. intros a w [Ha [Hs Hw]].
  unfold bind at 1, execution_state. destruct (execution_of w r) as [e|err|] eqn:He; [|done..].
  destruct (negb (active_or_quiescing e) || a_in_flight a || a_control_in_flight a) eqn:Hb; [done|].
  apply orb_false_iff in Hb as [Hb Hc]. apply orb_false_iff in Hb as [Hact Hd].
  apply hands_claim_loop. split; [|done]. eapply resting_ref; [done|by rewrite Hd, Hc|].
  eapply execution_live; [done..|]. by destruct e.
Qed.
(** The other handles are taken at once. *)
Lemma hands_take_control w r a f :
  hands_wf [] w → find_ref w r = inr a → resting r w →
  (∀ a, a_reference (f a) = a_reference a ∧ ∀ k, busy k (f a) = busy k (a <| a_control_in_flight := true |>)) →
  hands_wf [(Controlling, r)] (set_slot (ar_slot r) f w).
Proof.
  intros Hw Ha [Hf Hx] Hfa. specialize (Hx a (find_ref_actor _ _ _ Ha)). apply executing_none in Hx as [Hx Hc].
  eapply hands_take; [exact Ha|apply Hfa| | |done|done].
  - intros k'. rewrite (proj2 (Hfa a)). by apply busy_control.
  - unfold executing. rewrite !(proj2 (Hfa a)), !busy_control by done. simpl. by rewrite Hx, Hc.
Qed.
Lemma hands_hook_taken owner :
  triple (λ w, hands_wf [] w ∧ (∃ a, find_ref w owner = inr a) ∧ resting owner w) (
    update_slot (ar_slot owner) (λ a, a <| a_control_in_flight := true |>) ;;;
    mark_activity_dependents owner ;;;
    refresh_python_ready owner ;;;
    let! handle := new_handle in
    modify (λ w, w <| w_callbacks ::= <[handle := owner]> |>) ;;;
    ret (Some handle)) (λ _, hands_wf []) (hands_wf []).
Proof.
  eapply (triple_bind _ (λ _, hands_wf [(Controlling, owner)])).
  - intros w (Hw & (a & Ha) & Hr). by apply (hands_take_control w owner a).
  - intros ?. do 2 (apply triple_owing_bind; [calm|unfold mark_activity_dependents; errless|intros ?]).
    apply (triple_issue_callback [] Some).
Qed.
Lemma hands_claim_hook owner expected : expected ≠ Lifecycle.Stopping →
  triple entered (Callbacks.claim_native_hook owner expected) (λ _, hands_wf []) (hands_wf []).
Proof.
  intros Hexp. apply hands_with_activity. intros w [Hs Hw].
  unfold bind at 1, execution_state. destruct (execution_of w owner) as [e|err|] eqn:He; [|done..].
  unfold bind at 1, check_ref. destruct (find_ref w owner) as [err|a] eqn:Ha; [done|].
  match goal with |- context [if ?c then _ else _] => destruct c eqn:Hb end; [done|].
  repeat (apply orb_false_iff in Hb as [Hb ?]). apply negb_false_iff, andb_true_iff in H2 as [He' _].
  apply bool_decide_eq_true in He'. subst expected.
  assert (resting owner w) as Hrest.
  { eapply resting_ref; [done| |by eapply execution_live]. by apply orb_false_iff. }
  apply (hands_hook_taken owner). split_and!; eauto.
Qed.
Lemma hands_failure_taken supervisor source :
  triple (λ w, resting supervisor w ∧ hands_wf [] w) (
    let! a := check_ref source in
    let! notification := expect (a_notification a) in
    update_slot (ar_slot source) (λ a, a <| a_notification := None |>) ;;;
    let! a := check_ref supervisor in
    let! n := expect (checked_sub (a_pending_failures a) 1) in
    update_slot (ar_slot supervisor) (λ a, a <| a_pending_failures := n |> <| a_control_in_flight := true |>) ;;;
    mark_activity_dependents supervisor ;;;
    refresh_python_ready supervisor ;;;
    count (λ m, m <| m_notifications_delivered ::= N.succ |>) ;;;
    try_finalize source ;;;
    let! handle := new_handle in
    modify (λ w, w <| w_failure_leases ::= <[handle := MkFailureLease supervisor notification]> |>) ;;;
    ret (Some handle)) (λ _, hands_wf []) (hands_wf []).
Proof.
  eapply triple_bind; [apply triple_resting; [calm|repeat fixed_step]|]. intros a.
  eapply triple_bind; [apply triple_resting; [calm|repeat fixed_step]|]. intros notification.
  eapply triple_bind; [apply triple_resting; [calm|repeat fixed_step]|]. intros ?.
  apply triple_check_ref; [by intros w []|]. intros b. apply triple_expect. intros n _.
  eapply (triple_bind _ (λ _, hands_wf [(Controlling, supervisor)])).
  - intros w (Ha & Hr & Hw). apply (hands_take_control w supervisor b); [done..|]. intros c. split; [done|]. by intros [].
  - intros ?. do 4 (apply triple_owing_bind; [calm|unfold mark_activity_dependents, count; errless|intros ?]).
    apply (triple_issue_failure [] Some _ (MkFailureLease supervisor notification)).
Qed.
Lemma hands_claim_failure supervisor :
  triple entered (Supervision.claim_failure supervisor) (λ _, hands_wf []) (hands_wf []).
Proof.
  apply hands_with_activity. apply triple_check_ref; [by intros w []|]. intros a w [Ha [Hs Hw]].
  unfold bind at 1. destruct (a_in_flight a || a_control_in_flight a) eqn:Hb; [done|].
  unfold bind at 1, execution_state. destruct (execution_of w supervisor) as [e|err|] eqn:He; [|done..].
  unfold ret at 1. destruct (negb (active_or_quiescing e)) eqn:Hact; [done|].
  assert (resting supervisor w) as Hrest.
  { eapply resting_ref; [done..|]. eapply execution_live; [done..|]. by destruct e. }
  unfold bind at 1, get. destruct (Supervision.min_sequence _) as [[source n]|]; [|done].
  apply (hands_failure_taken supervisor source). by split.
Qed.
Lemma hands_track_task r : triple entered (track_task r) (λ _, hands_wf []) (hands_wf []).
Proof.
  apply triple_check_ref; [by intros w []|]. intros a. apply triple_reject; [by intros w (_ & _ & Hw)|]. intros Hst.
  eapply (triple_bind _ (λ _, hands_wf [(Tasking, r)])).
  - intros w (Ha & Hs & Hw). eapply hands_take; [exact Ha|done|by intros; apply busy_task| | |done].
    + change (executing a ≤ 1)%N. eapply (hd_one _ _ Hw). by apply find_ref_actor.
    + eapply state_live; [done..|]. by destruct (a_state a).
  - intros ?. do 2 (apply triple_owing_bind; [calm|unfold mark_activity_dependents; errless|intros ?]).
    apply (triple_issue_task [] (λ n, n) _ (MkTask r 1)).
Qed.

(** ** Every reachable World *)
Lemma hands_after {E A} (m : M World E A) (Pre : World → Prop) w w' :
  triple Pre m (λ _, hands_wf []) (hands_wf []) → Pre w → after m w = Some w' → hands_wf [] w'.
Proof. intros Hm Hw. specialize (Hm w Hw). unfold after. by destruct (m w) as [[a|e|] w1]; intros [= <-]. Qed.
Lemma hands_owning {V A} (field : World → gmap N V) handle (m : WM A) w w' :
  (∀ v, triple (λ w, field w !! handle = Some v ∧ hands_wf [] w) m (λ _, hands_wf []) (hands_wf [])) →
  hands_wf [] w → owning field handle m w = Some w' → hands_wf [] w'.
Proof.
  intros Hm Hw. unfold owning. case_bool_decide as Hv; [|by intros [= <-]]. destruct Hv as [v Hv]. by eapply hands_after.
Qed.
Lemma calm_at_after {E A} (m : M World E A) w w' : calm w (m w).2 → after m w = Some w' → calm w w'.
Proof. unfold after. by destruct (m w) as [[a|e|] w1]; intros ? [= <-]. Qed.
Lemma calm_allocate kind parent w : slots_wf w → calm w (allocate kind parent w).2.
Proof.
  intros Hw. unfold allocate, with_activity. match goal with |- calm _ (let '(_, _) := ?m in _).2 => enough (calm w m.2) as Hm end.
  { match goal with |- calm _ (let '(_, _) := ?m in _).2 => destruct m as [o w'] end. simpl in *. etrans; [done|apply calm_touch]. }
  apply calm_read_at; [done|]. intros ? _. apply calm_read_at; [by intros w'; unfold reject_if; case_match|].
  intros ? _. by apply calm_allocate_locked.
Qed.
Lemma calm_acquire_from owner name required expected w :
  slots_wf w → calm w (Services.acquire_service_from owner name required expected w).2.
Proof.
  intros Hw. apply calm_read_at; [done|]. intros ? _. apply calm_read_at; [by intros w'; unfold reject_if; case_match|].
  intros ? _. by apply calm_acquire_target.
Qed.
Lemma hands_call c w w' : slots_wf w → hands_wf [] w → run_call c w = Some w' → hands_wf [] w'.
Proof.
  intros Hs Hw Hrun. destruct (takes_handle c) eqn:Ht.
  - assert (entered w) by done. destruct c; try discriminate; cbn [run_call] in Hrun;
      first [eapply hands_owning; [intros v|exact Hw|exact Hrun]|eapply hands_after; [..|exact Hrun]; [|done]];
      first [apply hands_finish_delivery|apply hands_drop_delivery|apply hands_finish_failure|apply hands_drop_failure
        |apply hands_drop_callback|apply hands_claim|apply hands_claim_failure|apply hands_track_task
        |by apply hands_claim_hook; destruct startup|by apply hands_claim_hook
        |eapply triple_conseq; [apply hands_clone_task|by intros ? []|done|done]
        |eapply triple_conseq; [apply hands_drop_task|by intros ? []|done|done]].
  - destruct (allocates c) eqn:Ha; [|eapply hands_calm; [by eapply calm_call|done]].
    eapply hands_calm; [|done]. destruct c; try discriminate; cbn [run_call] in Hrun;
      (eapply calm_at_after; [|exact Hrun]); [by apply calm_allocate|by apply calm_acquire_target|by apply calm_acquire_from].
Qed.
Lemma new_hands_wf id cfg clock w : with_clock id cfg clock = Ok w → hands_wf [] w.
Proof.
  intros Hw. pose proof (with_clock_fields _ _ _ _ Hw) as (_ & _ & _ & Ha & Hf & _ & _ & Hl & _).
  assert (w_callbacks w = ∅ ∧ w_failure_leases w = ∅ ∧ w_tasks w = ∅) as (Hc & Hfl & Ht).
  { unfold with_clock in Hw. destruct (config_valid cfg); [|done]. simpl in Hw. destruct (Clocks.now clock) as [epoch c].
    unfold Operations.new in Hw. repeat case_match; simplify_eq; done. }
  assert (∀ slot, actor_at w slot = None) as Hnone by (intros slot; unfold actor_at; by rewrite Ha).
  assert (∀ k r, handles w k r = 0%N) as Hk by (intros [] r; simpl; by rewrite ?Hl, ?Hc, ?Hfl, ?Ht; unfold owned; rewrite !sum_map_empty).
  split.
  - intros slot a k. by rewrite Hnone.
  - intros k r. rewrite Hk. done.
  - intros slot a. by rewrite Hnone.
  - intros slot a _. by rewrite Hnone.
  - intros slot a. by rewrite Hnone.
  - intros h _. unfold unissued. by rewrite Hl, Hc, Hfl, Ht, !lookup_empty.
Qed.
Lemma hands_calls cs : ∀ w w', slots_wf w → hands_wf [] w → run_calls cs w = Some w' → hands_wf [] w'.
Proof.
  induction cs as [|c cs IH]; intros w w' Hs Hw; [by intros [= <-]|]. cbn [run_calls].
  destruct (run_call c w) as [w1|] eqn:Hc; [|done]. apply IH; [|by eapply hands_call].
  by apply (run_call_keeps (P := λ _ _, slots_wf) c w).
Qed.
Lemma reachable_hands w : world_reachable w → hands_wf [] w.
Proof.
  intros (id & cfg & clock & w0 & cs & Hw0 & Hrun). eapply hands_calls; [by eapply new_slots_wf|by eapply new_hands_wf|done].
Qed.
Lemma owned_twice {V} (owner : V → ActorRef) r (m : gmap N V) h h' v v' :
  m !! h = Some v → m !! h' = Some v' → h ≠ h' → owner v = r → owner v' = r → (2 ≤ owned owner r m)%N.
Proof.
  intros Hv Hv' Hne <- Hr. rewrite (owned_delete owner _ m h v Hv), (owned_delete owner _ (delete h m) h' v').
  - rewrite !bool_decide_true by done. simpl. lia.
  - by rewrite lookup_delete_ne.
Qed.

(** A leased delivery is the only one of its target, which is in its slot. *)
Lemma lease_exclusive w h h' l l' :
  hands_wf [] w → w_leases w !! h = Some l → w_leases w !! h' = Some l' → dl_target l = dl_target l' → h = h'.
Proof.
  intros Hw Hl Hl' Ht. destruct (decide (h = h')) as [|Hne]; [done|]. exfalso.
  pose proof (owned_twice dl_target (dl_target l) _ h h' l l' Hl Hl' Hne eq_refl (eq_sym Ht)) as Htwo.
  destruct (hd_held _ _ Hw Delivering (dl_target l)) as (a & Ha & Hr); [simpl; lia|].
  pose proof (hd_busy _ _ Hw _ _ Delivering Ha) as Hb. rewrite Hr in Hb. simpl in Hb. destruct (a_in_flight a); simpl in Hb; lia.
Qed.
Lemma lease_placed w h l :
  hands_wf [] w → w_leases w !! h = Some l → ∃ a, actor_at w (ar_slot (dl_target l)) = Some a ∧ a_reference a = dl_target l.
Proof.
  intros Hw Hl. apply (hd_held _ _ Hw Delivering). simpl. rewrite (owned_delete dl_target _ _ h l Hl), bool_decide_true by done. simpl. lia.
Qed.

(** C1. One thing at a time: in every reachable World each actor executes at most
    one delivery or callback; its [in_flight], [control_in_flight] and
    [native_tasks] count exactly the leases and task registrations callers hold on
    it; and the actor of an outstanding handle is still in its slot and is not
    stopped, so no handle ever ends on a later actor. *)
Theorem handles_exclusive w :
  world_reachable w →
  (∀ r a, find_ref w r = inr a → (∀ k, busy k a = handles w k r) ∧ (executing a ≤ 1)%N) ∧
  (∀ k r, (0 < handles w k r)%N → ∃ a, find_ref w r = inr a ∧ a_state a ≠ Lifecycle.Stopped) ∧
  (∀ h h' l l', w_leases w !! h = Some l → w_leases w !! h' = Some l' → dl_target l = dl_target l' → h = h').
Proof.
  intros Hr. pose proof (reachable_slots _ Hr) as Hs. apply reachable_hands in Hr as Hw.
  assert (∀ r a, find_ref w r = inr a → ∀ k, busy k a = handles w k r) as Hbusy.
  { intros r a Ha k. rewrite (hd_busy _ _ Hw _ _ k (find_ref_actor _ _ _ Ha)), (hands_ref _ _ _ _ Hw Ha), debt_nil. lia. }
  assert (∀ k r, (0 < handles w k r)%N → ∃ a, find_ref w r = inr a ∧ a_state a ≠ Lifecycle.Stopped) as Hheld.
  { intros k r Hpos. destruct (hd_held _ _ Hw k r) as (a & Ha & Har); [lia|]. exists a. split.
    - destruct (hd_placed _ _ Hw _ _ Ha) as [_ Hid]. unfold find_ref. rewrite Ha, <- Hid, Har. by rewrite !bool_decide_false by auto.
    - intros Hst. assert (ar_slot r ∈ w_free w) as Hin by (apply (sw_free _ Hs); eauto).
      pose proof (hd_free _ _ Hw _ _ Hin Ha k) as Hi. rewrite (hd_busy _ _ Hw _ _ k Ha), Har in Hi. lia. }
  split_and!; [|done|].
  - intros r a Ha. split; [by apply Hbusy|]. eapply (hd_one _ _ Hw). by apply find_ref_actor.
  - intros h h' l l'. by apply lease_exclusive.
Qed.
Lemma handles_exclusive_witness :
  ∃ w, sample_run = Some w ∧ handles w Delivering sample_child = 1%N ∧
    ∃ a, find_ref w sample_child = inr a ∧ a_state a ≠ Lifecycle.Stopped.
Proof.
  destruct sample_run as [w|] eqn:Hw; [|vm_compute in Hw; discriminate]. exists w. split; [reflexivity|].
  assert (handles w Delivering sample_child = 1%N) as H.
  { apply (sample_fact (λ w, handles w Delivering sample_child)); [vm_compute; reflexivity|exact Hw]. }
  split; [exact H|].
  refine (proj1 (proj2 (handles_exclusive w (sample_reachable w Hw))) Delivering sample_child _). rewrite H. reflexivity.
Defined.
