(* ===== verification/Leases.v ===== *)
(** * Leases along a run

    Which leases each operation takes and ends ([call_effect]), and what becomes of an
    event once it is leased: it never comes back, and the live deliveries are of
    different events ([delivered_once]). *)
From S2P Require Import Prelude Collections Text Types Metadata Schema Routing Expiry Readiness Operations.
From S2P Require Import Diagnostics Publications SchemaRegistry Activity WorldState Admission Publishing Actors.
From S2P Require Import Messaging Components Views Steps WorldFrames WorldSteps ActorSteps MessageSteps WorldRuns WorldSlots.
From S2P Require Import Mailboxes Handles HandleRuns.

(** ** Operations that leave the leases alone *)
Definition leases (w : World) : gmap N DeliveryLease * gmap N FailureLease := (w_leases w, w_failure_leases w).
Definition still (w w' : World) : Prop := leases w' = leases w ∧ (w_next_handle w ≤ w_next_handle w')%N.
#[export] Instance still_preorder : PreOrder still.
Proof. split; [done|]. intros w1 w2 w3 [] []. split; [congruence|lia]. Qed.
Lemma still_refl w : still w w.
Proof. done. Qed.
Lemma still_zoom {T E A} (field : World → T) (set : T → World → World) (m : M T E A) :
  (∀ t w, still w (set t w)) → steps still (zoom field set m).
Proof. intros Hs w. unfold zoom. destruct (m (field w)) as [o t]. apply Hs. Qed.
Lemma still_touch : steps still touch_activity.
Proof.
  unfold touch_activity, wake_routing. apply (steps_bind _); [|intros _]; apply steps_modify; intros w.
  - by destruct (rs_dirty _).
  - by destruct (Activity.notify_marked _).
Qed.
Lemma still_with_activity {A} (m : WM A) : steps still m → steps still (with_activity m).
Proof.
  intros Hm w. specialize (Hm w). unfold with_activity. destruct (m w) as [o w']. simpl in *. etrans; [done|apply still_touch].
Qed.
Create HintDb still.
Ltac still_step :=
  match goal with
  | |- steps still (bind _ _) => apply (steps_bind _); [|intros ?]
  | |- steps still (match ?c with _ => _ end) => destruct c eqn:?
  | |- steps still (modify _) => apply steps_modify; intros ?; split; [reflexivity|simpl; lia]
  | |- steps still (for_each _ _) => apply (steps_for_each _); intros ?
  | |- steps still (try_ _) => apply (steps_try _)
  | |- steps still (unwrap_or _ _) => apply (steps_unwrap_or _)
  | |- steps still (zoom _ _ _) => apply still_zoom; intros ? ?; split; [reflexivity|simpl; lia]
  | |- steps still (with_activity _) => apply still_with_activity
  | |- steps still _ => solve [eauto with steps still nocore typeclass_instances]
  | |- steps still ?m => let h := head_of m in unfold h
  end.
Ltac still := repeat still_step.
#[export] Hint Resolve still_touch : still.
Lemma still_check_ref r : steps still (check_ref r).
Proof. intros w. unfold check_ref. by destruct (find_ref w r). Qed.
Lemma still_execution r : steps still (execution_state r).
Proof. by intros w. Qed.
Lemma still_now : steps still now.
Proof. intros w. unfold now. by destruct (Clocks.now _). Qed.
Lemma still_with_history f : steps still (with_history f).
Proof. intros w. unfold with_history, modify. by destruct (f _ _). Qed.
Lemma still_marking f : steps still (marking f).
Proof. intros w. unfold marking. by destruct (f w _). Qed.
Lemma still_decr_live : steps still (decr (E:=error) w_live_actors).
Proof. intros w. unfold decr. by case_decide. Qed.
#[export] Hint Resolve still_check_ref still_execution still_now still_with_history still_marking still_decr_live : still.
Lemma still_refresh_fuel fuel : ∀ r, steps still (refresh_subtree fuel r).
Proof. induction fuel as [|fuel IH]; intros r; simpl; still. Qed.
Lemma still_refresh_subtree r : steps still (refresh_python_subtree r).
Proof. intros w. apply still_refresh_fuel. Qed.
#[export] Hint Resolve still_refresh_subtree : still.
Lemma still_finalize fuel : ∀ r, steps still (finalize fuel r).
Proof. induction fuel as [|fuel IH]; intros r; cbn [finalize]; [apply steps_panic; apply _|]. still. Qed.
Lemma still_try_finalize r : steps still (try_finalize r).
Proof. intros w. apply still_finalize. Qed.
#[export] Hint Resolve still_try_finalize : still.
Lemma still_fence fuel : ∀ r, steps still (fence fuel r).
Proof. induction fuel as [|fuel IH]; intros r; cbn [fence]; [apply steps_panic; apply _|]. still. Qed.
Lemma still_fence_locked r : steps still (fence_locked r).
Proof. intros w. apply still_fence. Qed.
Lemma still_report r : steps still (report_locked r).
Proof. by intros w. Qed.
#[export] Hint Resolve still_fence_locked still_report : still.
Lemma still_apply_failure_action r action : steps still (Supervision.apply_failure_action r action).
Proof. still. Qed.
#[export] Hint Resolve still_apply_failure_action : still.
Lemma still_pop_delivery r : steps still (pop_delivery r).
Proof. still. Qed.
Lemma still_still_valid r d : steps still (still_valid r d).
Proof. still. Qed.
#[export] Hint Resolve still_pop_delivery still_still_valid : still.

Lemma triple_active {A} Pre (m : WM A) (Post : A → World → Prop) Q :
  (∀ a w, Post a w → Post a (touch_activity w).2) → (∀ w, Q w → Q (touch_activity w).2) →
  triple Pre m Post Q → triple Pre (with_activity m) Post Q.
Proof.
  intros HP HQ Hm w Hw. specialize (Hm w Hw). unfold with_activity. destruct (m w) as [[a|e|] w']; [by apply HP|by apply HQ|done].
Qed.

(** ** Operations that take and end leases *)
Section leases.
Context (L : gmap N DeliveryLease) (F : gmap N FailureLease) (n : N).
Definition have (w : World) : Prop := leases w = (L, F) ∧ (n ≤ w_next_handle w)%N.
Lemma triple_still {E A} (Pre : World → Prop) (m : M World E A) :
  (∀ w w', still w w' → Pre w → Pre w') → steps still m → triple Pre m (λ _, Pre) Pre.
Proof. intros HP Hm w Hw. specialize (Hm w). destruct (m w) as [[a|e|] w']; simpl in *; eauto. Qed.
Lemma triple_still_bind {E A B} Post (m : M World E A) (k : A → M World E B) :
  steps still m → (∀ a, triple have (k a) Post have) → triple have (bind m k) Post have.
Proof. intros Hm Hk. eapply triple_bind; [|exact Hk]. apply triple_still; [|done]. intros w w' [Hl ?] []. split; [by rewrite Hl|lia].
Qed.
Definition took (o : option N) (w : World) : Prop :=
  match o with
  | Some h => (n ≤ h)%N ∧ ∃ l, leases w = (<[h := l]> L, F)
  | None => have w
  end.
Definition took_failure (o : option N) (w : World) : Prop :=
  match o with
  | Some h => (n ≤ h)%N ∧ ∃ l, leases w = (L, <[h := l]> F)
  | None => have w
  end.
Lemma leases_touch w : leases (touch_activity w).2 = leases w.
Proof. apply still_touch. Qed.
Lemma have_touch w : have w → have (touch_activity w).2.
Proof. intros [Hl Hn]. destruct (still_touch w). split; [by rewrite leases_touch|lia]. Qed.
Lemma claim_loop_leases fuel : ∀ r, triple have (claim_loop fuel r) took have.
Proof.
  induction fuel as [|fuel IH]; intros r; cbn [claim_loop]; [apply triple_panic|].
  apply triple_still_bind; [still|]. intros [d|]; [|by apply triple_ret].
  apply triple_still_bind; [still|]. intros [|]; [simpl|by apply IH].
  do 3 (apply triple_still_bind; [still|intros _]). intros w [[= HL HF] Hn].
  unfold bind, new_handle, get, modify, ret. simpl. split; [lia|]. eexists. unfold leases. cbn. by rewrite HL, HF.
Qed.
Lemma claim_leases r : triple have (claim r) took have.
Proof.
  apply triple_active; [intros [h|] w; [by cbn [took]; rewrite leases_touch|apply have_touch]|apply have_touch|].
  do 2 (apply triple_still_bind; [still|intros ?]). case_match; [by apply triple_ret|apply claim_loop_leases].
Qed.
Lemma claim_failure_leases r : triple have (Supervision.claim_failure r) took_failure have.
Proof.
  apply triple_active; [intros [h|] w; [by cbn [took_failure]; rewrite leases_touch|apply have_touch]|apply have_touch|].
  do 2 (apply triple_still_bind; [still|intros ?]). case_match; [by apply triple_ret|].
  apply triple_still_bind; [still|intros w0]. destruct (Supervision.min_sequence _) as [[source k]|]; [|by apply triple_ret].
  do 10 (apply triple_still_bind; [still|intros ?]). intros w [[= HL HF] Hn].
  unfold bind, new_handle, get, modify, ret. simpl. split; [lia|]. eexists. unfold leases. cbn. by rewrite HL, HF.
Qed.
Definition without (h : N) (w : World) : Prop := leases w = (delete h L, F).
Definition without_failure (h : N) (w : World) : Prop := leases w = (L, delete h F).
Lemma end_lease_leases {B} h (k : DeliveryLease → WM B) :
  (∀ l, steps still (k l)) → triple have (bind (end_lease h) k) (λ _, without h) (without h).
Proof.
  intros Hk w [[= HL HF] Hn]. unfold end_lease, bind, get, expect, modify, ret.
  destruct (w_leases w !! h) as [l|]; simpl; [|done].
  specialize (Hk l (w <| w_leases ::= delete h |>)). unfold still, without, leases in *. cbn in *.
  destruct (k l _) as [[b|e|] w']; simpl in *; [..|done]; by rewrite (proj1 Hk), HL, HF.
Qed.
Lemma finish_leases h success : triple have (finish_delivery h success) (λ _, without h) (without h).
Proof. apply end_lease_leases. intros l. cbv zeta. still. Qed.
Lemma drop_leases h : triple have (drop_delivery h) (λ _, without h) (without h).
Proof. apply end_lease_leases. intros l. cbv zeta. still. Qed.
Lemma end_failure_leases {B} h (k : FailureLease → WM B) :
  (∀ l, steps still (k l)) → triple have (bind (Supervision.end_failure_lease h) k) (λ _, without_failure h) (without_failure h).
Proof.
  intros Hk w [[= HL HF] Hn]. unfold Supervision.end_failure_lease, bind, get, expect, modify, ret.
  destruct (w_failure_leases w !! h) as [l|]; simpl; [|done].
  specialize (Hk l (w <| w_failure_leases ::= delete h |>)). unfold still, without_failure, leases in *. cbn in *.
  destruct (k l _) as [[b|e|] w']; simpl in *; [..|done]; by rewrite (proj1 Hk), HL, HF.
Qed.
Lemma finish_failure_leases h action :
  triple have (Supervision.finish_failure h action) (λ _, without_failure h) (without_failure h).
Proof.
  apply triple_active; [intros; unfold without_failure in *; by rewrite leases_touch..|].
  apply end_failure_leases. intros l. still.
Qed.
Lemma drop_failure_leases h : triple have (Supervision.drop_failure h) (λ _, without_failure h) (without_failure h).
Proof.
  apply triple_active; [intros; unfold without_failure in *; by rewrite leases_touch..|].
  apply end_failure_leases. intros l. still.
Qed.
End leases.

(** ** Leased events *)
Definition lease_event (l : DeliveryLease) : N := d_event_id (dl_delivery l).
Lemma mailboxes_forget L L' e w : L ⊆ L' → mailboxes_wf L' e w → mailboxes_wf L e w.
Proof.
  intros HL Hw. pose proof (mw_left _ _ _ Hw) as Hl. pose proof (mw_gone _ _ _ Hw) as Hg. split; [apply Hw|apply Hw|apply Hw|apply Hw|apply Hw| |].
  - set_solver.
  - intros slot a id Ha Hid HinL. by eapply Hg; [..|apply HL].
Qed.
(** The head of a queue leaves it for good. *)
Lemma mailboxes_pop L w slot a d f :
  actor_at w slot = Some a → queue_view a = (d_event_id d, d_payload d) :: queue_view (f a) →
  mailboxes_wf L None (set_slot slot f w) → mailboxes_wf L None w → mailboxes_wf ({[d_event_id d]} ∪ L) None (set_slot slot f w).
Proof.
  intros Ha Hq Hw' Hw. assert (queue_ids a = d_event_id d :: queue_ids (f a)) as Hids by (unfold queue_ids; by rewrite Hq).
  destruct (mw_mailbox _ _ _ Hw _ _ Ha) as [_ _ _ _ _ _ Hs]. rewrite Hids in Hs. apply StronglySorted_inv in Hs as [_ Hlt].
  assert (d_event_id d ∈ queue_ids a) as Hin by (rewrite Hids; left).
  pose proof (mw_left _ _ _ Hw') as Hl. pose proof (mw_gone _ _ _ Hw') as Hg. split; [apply Hw'|apply Hw'|apply Hw'|done|apply Hw'| |].
  - intros id. rewrite elem_of_union, elem_of_singleton. intros [->|Hid]; [|by apply Hl].
    apply (mw_past _ _ _ Hw slot a _ Ha Hin).
  - intros s b id Hb Hid. rewrite elem_of_union, elem_of_singleton. intros [->|HL]; [|by eapply Hg].
    apply actor_at_update in Hb as [(-> & a' & Ha' & ->)|[Hne Hb]].
    + simplify_eq. rewrite Forall_forall in Hlt. specialize (Hlt _ Hid). lia.
    + apply Hne. by eapply (mw_unique _ _ _ Hw s slot).
Qed.
Lemma triple_pop_event L r :
  triple (mailboxes_wf L None) (pop_delivery r)
    (λ o w, match o with
            | Some d => (d_event_id d ∉ L) ∧ mailboxes_wf ({[d_event_id d]} ∪ L) None w
            | None => mailboxes_wf L None w
            end) (mailboxes_wf L None).
Proof.
  unfold pop_delivery. apply triple_check_ref; [done|]. intros a.
  destruct (a_queue a) as [|d queue] eqn:Hq; [by apply triple_ret; intros w [_ ?]|].
  apply triple_expect. intros bytes Hb. apply triple_expect. intros deadlines _. apply checked_sub_Some in Hb.
  set (L' := {[d_event_id d]} ∪ L). eapply (triple_bind _ (λ _ w, (d_event_id d ∉ L) ∧ mailboxes_wf L' None w)).
  - intros w [Ha Hw]. apply find_ref_actor in Ha. split.
    { eapply (mw_gone _ _ _ Hw); [exact Ha|]. unfold queue_ids, queue_view. rewrite Hq. left. }
    eapply mailboxes_pop; [exact Ha| | |exact Hw].
    + unfold queue_view. by rewrite Hq.
    + apply (ac_update (P := λ _, mailboxes_wf L) []); [|exact Hw]. intros b Hb'. rewrite Ha in Hb'. injection Hb' as <-.
      apply evolves_deadlines, evolves_dequeue; rewrite Hq; [by constructor|]. simpl. lia.
  - intros _. apply triple_pure. intros Hd.
    apply (triple_conseq _ (mailboxes_wf L' None) _ _ (λ o w, o = Some d ∧ mailboxes_wf L' None w) _ (mailboxes_wf L' None)).
    + do 3 (apply (triple_framed_bind (P := λ _, mailboxes_wf L') []); [steps|intros ?]). by apply triple_ret.
    + done.
    + by intros ? w [-> ?].
    + intros w. apply mailboxes_forget. set_solver.
Qed.
Definition handed_out (L : gset N) (o : option N) (w : World) : Prop :=
  match o with
  | Some h => ∃ l, w_leases w !! h = Some l ∧ (lease_event l ∉ L) ∧ mailboxes_wf ({[lease_event l]} ∪ L) None w
  | None => mailboxes_wf L None w
  end.
Lemma handed_forget L L' o w : L ⊆ L' → handed_out L' o w → handed_out L o w.
Proof.
  intros HL. destruct o as [h|]; [|by apply mailboxes_forget]. intros (l & Hl & Hn & Hw). exists l.
  split_and!; [done|set_solver|]. eapply mailboxes_forget; [|exact Hw]. set_solver.
Qed.
Lemma claim_loop_event fuel : ∀ L r, triple (mailboxes_wf L None) (claim_loop fuel r) (handed_out L) (mailboxes_wf L None).
Proof.
  induction fuel as [|fuel IH]; intros L r; cbn [claim_loop]; [apply triple_panic|].
  eapply triple_bind; [apply triple_pop_event|]. intros [d|]; cbv beta iota; [|by apply triple_ret].
  apply triple_pure. intros Hd. set (L' := {[d_event_id d]} ∪ L).
  eapply triple_conseq with (Post' := λ o w, handed_out L o w) (Q' := mailboxes_wf L' None); [|done|done|intros w; apply mailboxes_forget; set_solver].
  apply (triple_framed_bind (P := λ _, mailboxes_wf L') []); [apply framed_still_valid|]. intros [|]; simpl.
  - apply (triple_stable_bind (P := λ _, mailboxes_wf L') []); [apply stable_update_ref_in_flight|intros _].
    do 2 (apply (triple_framed_bind (P := λ _, mailboxes_wf L') []); [steps|intros _]).
    intros w Hw. unfold bind, new_handle, get, modify, ret. cbn. eexists. rewrite lookup_insert_eq. split; [done|]. split; [done|].
    apply (ac_frame (P := λ _, mailboxes_wf L') [d_payload d] None w); [|done].
    trans (w <| w_next_handle ::= N.succ |>); [by apply frame_same|]. apply (frame_leases _ (w <| w_next_handle ::= N.succ |>)).
    intros k l. cbn. rewrite lookup_insert_Some. intros [[_ <-]|[_ ?]]; [left; cbn; set_solver|by right].
  - eapply triple_conseq; [apply (IH L')|done|intros o w; apply handed_forget; set_solver|done].
Qed.
Lemma claim_event L r : triple (mailboxes_wf L None) (claim r) (handed_out L) (mailboxes_wf L None).
Proof.
  assert (∀ L w, mailboxes_wf L None w → mailboxes_wf L None (touch_activity w).2) as Ht.
  { intros L0 w. apply (ac_frame (P := λ _, mailboxes_wf L0) []), framed_touch. }
  apply triple_active; [|apply Ht|].
  - intros [h|] w; [|apply Ht]. intros (l & Hl & Hn & Hw). exists l.
    assert (w_leases (touch_activity w).2 = w_leases w) as -> by apply (f_equal fst (leases_touch w)). auto.
  - do 2 (apply (triple_framed_bind (P := λ _, mailboxes_wf L) []); [steps|intros ?]).
    case_match; [by apply triple_ret|apply claim_loop_event].
Qed.

(** ** Along a run *)
Lemma still_after {E A} (m : M World E A) w w' : steps still m → after m w = Some w' → still w w'.
Proof. intros Hm. specialize (Hm w). unfold after. by destruct (m w) as [[a|e|] w1]; intros [= <-]. Qed.
Lemma triple_after {E A} (m : M World E A) (Pre : World → Prop) Post Q (R : World → Prop) w w' :
  triple Pre m Post Q → Pre w → (∀ a w, Post a w → R w) → (∀ w, Q w → R w) → after m w = Some w' → R w'.
Proof.
  intros Hm Hw HP HQ. specialize (Hm w Hw). unfold after. destruct (m w) as [[a|e|] w1]; intros [= <-]; [by eapply HP|by apply HQ].
Qed.
Lemma calm_run c w w' : world_reachable w → takes_handle c = false → run_call c w = Some w' → calm w w'.
Proof.
  intros Hw Ht Hc. pose proof (reachable_slots _ Hw) as Hs. destruct (allocates c) eqn:Ha; [|by eapply calm_call].
  destruct c; try discriminate; cbn [run_call] in Hc;
    (eapply calm_at_after; [|exact Hc]); [by apply calm_allocate|by apply calm_acquire_target|by apply calm_acquire_from].
Qed.
(** The leases a call ends; any other stays as it is. *)
Definition ended (c : call) : list (N + N) :=
  match c with
  | CFinishDelivery h _ | CDropDelivery h => [inl h]
  | CFinishFailure h _ | CDropFailure h => [inr h]
  | _ => []
  end.
Definition spares (d : list (N + N)) (w w' : World) : Prop :=
  (∀ h l, inl h ∉ d → w_leases w !! h = Some l → w_leases w' !! h = Some l) ∧
  (∀ h l, inr h ∉ d → w_failure_leases w !! h = Some l → w_failure_leases w' !! h = Some l).
Lemma spares_same d w w' : leases w' = leases w → spares d w w'.
Proof. intros [= Hl Hf]. by split; rewrite ?Hl, ?Hf. Qed.
(** Only a claim takes a delivery lease. *)
Lemma call_effect c w w' :
  world_reachable w → run_call c w = Some w' →
  spares (ended c) w w' ∧ (w_leases w' ⊆ w_leases w ∨ ∃ r, c = CClaim r).
Proof.
  intros Hw Hc. pose proof (reachable_hands _ Hw) as Hh.
  set (L := w_leases w). set (F := w_failure_leases w). set (n := w_next_handle w).
  set (R := λ w', spares (ended c) w w' ∧ (w_leases w' ⊆ L ∨ ∃ r, c = CClaim r)). change (R w').
  assert (∀ w', leases w' = leases w → R w') as Hsame.
  { intros w1 H. split; [by apply spares_same|]. injection H as Hl _. left. by rewrite Hl. }
  destruct (takes_handle c) eqn:Ht.
  2: { destruct (calm_run c w w' Hw Ht Hc (hd_free _ _ Hh)) as [_ Hm]. apply Hsame. unfold leases.
       by rewrite (mv_leases _ _ Hm), (mv_failures _ _ Hm). }
  assert (∀ w', still w w' → R w') as Hst by (intros w1 [H _]; auto).
  assert (∀ w', have L F n w' → R w') as Hhv by (intros w1 [H _]; auto).
  assert (∀ h w', ended c = [inl h] → without L F h w' → R w') as Hwo.
  { intros h w1 He [= Hl Hf]. split; [|left; rewrite Hl; apply delete_subseteq]. rewrite He. split; intros h' l Hd; rewrite ?Hl, ?Hf; [|done].
    rewrite lookup_delete_ne; [done|]. intros ->. apply Hd. left. }
  assert (∀ h w', ended c = [inr h] → without_failure L F h w' → R w') as Hwf.
  { intros h w1 He [= Hl Hf]. split; [|left; by rewrite Hl]. rewrite He. split; intros h' l Hd; rewrite ?Hl, ?Hf; [done|].
    rewrite lookup_delete_ne; [done|]. intros ->. apply Hd. left. }
  assert (∀ r o w', c = CClaim r → took L F n o w' → R w') as Htook.
  { intros r [h|] w1 Hr; [|apply Hhv]. intros [Hn [l [= Hl Hf]]]. destruct (hd_fresh _ _ Hh h Hn) as (Hnone & _). split; [|eauto].
    split; intros h' l' _; rewrite ?Hl, ?Hf; [|done]. intros Hl'. rewrite lookup_insert_ne; [done|]. intros ->. unfold L in *. congruence. }
  assert (∀ o w', took_failure L F n o w' → R w') as Htook'.
  { intros [h|] w1; [|apply Hhv]. intros [Hn [l [= Hl Hf]]]. destruct (hd_fresh _ _ Hh h Hn) as (_ & _ & Hnone & _). split; [|left; by rewrite Hl].
    split; intros h' l' _; rewrite ?Hl, ?Hf; [done|]. intros Hl'. rewrite lookup_insert_ne; [done|]. intros ->. unfold F in *. congruence. }
  assert (have L F n w) as Hhave by (split; [done|unfold n; lia]).
  destruct c; try discriminate; cbn [run_call] in Hc; unfold owning in Hc; try (case_bool_decide; simplify_eq; [|by apply Hsame]);
    first [eapply (triple_after _ _ _ _ R); [|exact Hhave|..|exact Hc];
             [first [apply claim_leases|apply finish_leases|apply drop_leases|apply finish_failure_leases|apply drop_failure_leases
                |apply claim_failure_leases]|cbv beta; eauto..]
          |eapply Hst, still_after; [|exact Hc]; solve [still]].
Qed.
Lemma reachable_call c w w' : world_reachable w → run_call c w = Some w' → world_reachable w'.
Proof.
  intros (id & cfg & clock & w0 & cs & Hw0 & Hrun) Hc. exists id, cfg, clock, w0, (cs ++ [c]). split; [done|].
  revert w0 Hw0 Hrun. intros w0 _. revert w0. induction cs as [|c0 cs IH]; intros w0 Hrun.
  - cbn in Hrun |- *. simplify_eq. by rewrite Hc.
  - cbn in Hrun |- *. destruct (run_call c0 w0); [by apply IH|done].
Qed.
(** The events of the live leases. *)
Definition live (w : World) : gset N := map_to_set (λ _ l, lease_event l) (w_leases w).
Lemma elem_of_live id w : id ∈ live w ↔ ∃ h l, w_leases w !! h = Some l ∧ lease_event l = id.
Proof. unfold live. rewrite elem_of_map_to_set. naive_solver. Qed.
Record leased_wf (w : World) : Prop := {
  ld_gone : mailboxes_wf (live w) None w;
  ld_distinct h h' l l' : w_leases w !! h = Some l → w_leases w !! h' = Some l' → lease_event l = lease_event l' → h = h';
}.
Lemma leased_fewer w w' : w_leases w' ⊆ w_leases w → mailboxes_wf (live w) None w' → leased_wf w → leased_wf w'.
Proof.
  intros Hl Hm [_ Hd]. split.
  - eapply mailboxes_forget; [|exact Hm]. intros id. rewrite !elem_of_live. intros (h & l & Hh & <-). exists h, l. split; [|done].
    by eapply lookup_weaken.
  - intros h h' l l' Hh Hh'. eapply Hd; by eapply lookup_weaken.
Qed.
Lemma leased_claim w r w' : leased_wf w → run_call (CClaim r) w = Some w' → leased_wf w'.
Proof.
  intros Hw Hc. pose proof (claim_event (live w) r w (ld_gone _ Hw)) as He.
  assert (have (w_leases w) (w_failure_leases w) 0 w) as Hhave by (split; [done|lia]).
  pose proof (claim_leases _ _ _ r w Hhave) as Ht. cbn [run_call] in Hc. unfold after in Hc.
  destruct (claim r w) as [[[h|]|e|] w1]; simplify_eq.
  - destruct He as (l & Hl & Hn & Hm), Ht as [_ [l' [= Hls _]]]. rewrite Hls, lookup_insert_eq in Hl. simplify_eq.
    assert (∀ h1 l1, w_leases w' !! h1 = Some l1 → (h1 = h ∧ l1 = l) ∨ w_leases w !! h1 = Some l1) as Hold.
    { intros h1 l1. rewrite Hls, lookup_insert_Some. naive_solver. }
    assert (∀ h1 l1, w_leases w !! h1 = Some l1 → lease_event l1 ≠ lease_event l) as Hne.
    { intros h1 l1 H1 He. apply Hn. apply elem_of_live. eauto. }
    split.
    + eapply mailboxes_forget; [|exact Hm]. intros id. rewrite elem_of_live. intros (h1 & l1 & H1 & <-).
      apply elem_of_union. destruct (Hold _ _ H1) as [[-> ->]|H]; [left; set_solver|right; apply elem_of_live; eauto].
    + intros h1 h2 l1 l2 H1 H2 He. destruct (Hold _ _ H1) as [[-> ->]|H1'], (Hold _ _ H2) as [[-> ->]|H2']; [done| | |].
      * by apply Hne in H2'.
      * by apply Hne in H1'.
      * by eapply (ld_distinct _ Hw).
  - destruct Ht as [[= Ht _] _]. apply (leased_fewer w); [by rewrite Ht|done|done].
  - destruct Ht as [[= Ht _] _]. apply (leased_fewer w); [by rewrite Ht|done|done].
Qed.
Lemma leased_call c w w' : world_reachable w → leased_wf w → run_call c w = Some w' → leased_wf w'.
Proof.
  intros Hr Hw Hc. destruct (call_effect c w w' Hr Hc) as [_ [Hl|[r ->]]]; [|by eapply leased_claim].
  eapply leased_fewer; [done| |done]. eapply (run_call_keeps (P := λ _, mailboxes_wf (live w))); [apply Hw|done].
Qed.
Lemma reachable_leased w : world_reachable w → leased_wf w.
Proof.
  intros (id & cfg & clock & w0 & cs & Hw0 & Hrun).
  assert (world_reachable w0) as Hr by (by exists id, cfg, clock, w0, []).
  assert (leased_wf w0) as Hl.
  { pose proof (new_mailboxes_wf _ _ _ _ Hw0) as Hm. apply with_clock_fields in Hw0 as (_ & _ & _ & _ & _ & _ & _ & Hl & _). split.
    - unfold live. by rewrite Hl.
    - intros h h' l l'. by rewrite Hl, lookup_empty. }
  clear Hw0. revert w0 Hr Hl Hrun. induction cs as [|c cs IH]; intros w0 Hr Hl; [by intros [= <-]|]. cbn [run_calls].
  destruct (run_call c w0) as [w1|] eqn:Hc; [|done]. apply IH; [by eapply reachable_call|by eapply leased_call].
Qed.

(** C2. Delivered at most once: in every reachable World the live delivery leases are of
    different events, none of which is queued any more; and no later claim, whatever
    happens in between, hands out the event of a lease again. *)
Theorem delivered_once w :
  world_reachable w →
  (∀ h h' l l', w_leases w !! h = Some l → w_leases w !! h' = Some l' → lease_event l = lease_event l' → h = h') ∧
  (∀ h l slot a, w_leases w !! h = Some l → actor_at w slot = Some a → lease_event l ∉ queue_ids a) ∧
  (∀ h l cs w1 r h' l' w2, w_leases w !! h = Some l → run_calls cs w = Some w1 →
     claim r w1 = (Ok (Some h'), w2) → w_leases w2 !! h' = Some l' → lease_event l' ≠ lease_event l).
Proof.
  intros Hr. pose proof (reachable_leased _ Hr) as [Hg Hd]. split_and!; [done|..].
  - intros h l slot a Hl Ha Hq. eapply (mw_gone _ _ _ Hg); [done..|]. apply elem_of_live. eauto.
  - intros h l cs w1 r h' l' w2 Hl Hrun Hc Hl' He.
    pose proof (run_calls_keep (P := λ _, mailboxes_wf (live w)) cs w w1 Hg Hrun) as H1.
    pose proof (claim_event _ r w1 H1) as H2. rewrite Hc in H2. destruct H2 as (l2 & Hl2 & Hn & _). simplify_eq.
    apply Hn, elem_of_live. eauto.
Qed.
(** The sample's child finishes its event and claims the next one. *)
Definition next_claim (w : World) : option (N * option N) :=
  match run_call (CFinishDelivery 2 true) w with
  | Some w1 => match claim sample_child w1 with (Ok (Some h), w2) => Some (h, lease_event <$> w_leases w2 !! h) | _ => None end
  | None => None
  end.
Lemma delivered_once_witness :
  ∃ w l w1 l' w2, sample_run = Some w ∧ w_leases w !! 2%N = Some l ∧ lease_event l = 1%N ∧
    run_calls [CFinishDelivery 2 true] w = Some w1 ∧ claim sample_child w1 = (Ok (Some 3%N), w2) ∧
    w_leases w2 !! 3%N = Some l' ∧ lease_event l' ≠ lease_event l.
Proof.
  destruct sample_run as [w|] eqn:Hw; [|vm_compute in Hw; discriminate]. exists w.
  assert (lease_event <$> w_leases w !! 2%N = Some 1%N) as Hl
    by (apply (sample_fact (λ w, lease_event <$> w_leases w !! 2%N)); [vm_compute; reflexivity|exact Hw]).
  assert (next_claim w = Some (3%N, Some 2%N)) as Hn by (apply (sample_fact next_claim); [vm_compute; reflexivity|exact Hw]).
  destruct (w_leases w !! 2%N) as [l|] eqn:Hl2; [|discriminate Hl]. exists l. unfold next_claim in Hn.
  destruct (run_call (CFinishDelivery 2 true) w) as [w1|] eqn:Hrun; [|discriminate Hn]. exists w1.
  destruct (claim sample_child w1) as [[[h|]|e|] w2] eqn:Hc; try discriminate Hn.
  destruct (w_leases w2 !! h) as [l'|] eqn:Hl'; [|discriminate Hn]. exists l', w2.
  assert (h = 3%N) as -> by (injection Hn; intros; assumption).
  assert (run_calls [CFinishDelivery 2 true] w = Some w1) as Hruns by (cbn [run_calls]; rewrite Hrun; reflexivity).
  split; [reflexivity|]. split; [reflexivity|]. split; [injection Hl; intros; assumption|]. split; [exact Hruns|]. split; [reflexivity|]. split; [exact Hl'|].
  exact (proj2 (proj2 (delivered_once w (sample_reachable w Hw))) 2%N l _ w1 _ 3%N l' w2 Hl2 Hruns Hc Hl').
Defined.
