(* ===== verification/Stops.v ===== *)
(** * Stopping

    A stop is final: once [stop] has returned, nothing at or below the actor
    executes again, whatever is called afterwards. *)
From S2P Require Import Prelude Collections Text Types Metadata Schema Routing Expiry Readiness Operations.
From S2P Require Import Diagnostics Publications SchemaRegistry Activity WorldState Admission Publishing Actors.
From S2P Require Import Messaging Components Steps WorldFrames WorldSteps ActorSteps MessageSteps WorldRuns WorldSlots Lifecycles.

(** The actor of [r], while it is in its slot, is stopping or stopped. *)
Definition gone (r : ActorRef) (w : World) : Prop := ∀ a, find_ref w r = inr a → (rank Lifecycle.Stopping ≤ rank (a_state a))%N.
Lemma gone_forward r w w' : forward w w' → (∃ a, actor_at w (ar_slot r) = Some a ∧ (ar_generation r ≤ ar_generation (a_reference a))%N) →
  gone r w → gone r w'.
Proof.
  intros [Hid Hf] (a & Ha & Hg) Hgone a' (Hw & Ha' & Hg')%find_ref_inr. destruct (Hf _ _ Ha) as (b & Hb & Hl). simplify_eq.
  destruct Hl as [(Href & Hrank & _)|Hlt]; [|lia]. etrans; [|exact Hrank]. apply Hgone, find_ref_inr. rewrite <- Hid. split_and!; congruence.
Qed.
(** The slot of [r] has been given out, at least to [r]. *)
Definition issued (r : ActorRef) (w : World) : Prop :=
  ∃ a, actor_at w (ar_slot r) = Some a ∧ (ar_generation r ≤ ar_generation (a_reference a))%N.
Lemma issued_forward r w w' : forward w w' → issued r w → issued r w'.
Proof.
  intros [_ Hf] (a & Ha & Hg). destruct (Hf _ _ Ha) as (b & Hb & Hl). exists b. split; [done|].
  destruct Hl as [(-> & _)|Hlt]; [done|lia].
Qed.
Lemma issued_ref r w a : find_ref w r = inr a → issued r w.
Proof. intros (_ & Ha & Hg)%find_ref_inr. exists a. split; [done|lia]. Qed.
Definition ended (r : ActorRef) (w : World) : Prop := slots_wf w ∧ issued r w ∧ gone r w.

(** What an [Accounting] invariant survives, the end of an actor survives. *)
Lemma stable_ended {E A} r (m : M World E A) :
  (∀ w0, stable (λ _ _, since w0) m) → triple (ended r) m (λ _, ended r) (ended r).
Proof.
  intros Hm w (Hs & Hi & Hg). assert (since w w) as Hw by (split; [done|reflexivity]).
  specialize (Hm w [] None w Hw). destruct (m w) as [[a|e|] w']; [| |done]; destruct Hm as [Hs' Hf];
    (split_and!; [done|by eapply issued_forward|by eapply gone_forward]).
Qed.
Lemma fence_actor_ended r a : a_state a ≠ Lifecycle.Stopped →
  triple (λ w, find_ref w r = inr a ∧ slots_wf w) (fence_actor r) (λ _, ended r) slots_wf.
Proof.
  intros Hst w [Ha Hw]. pose proof (triple_fence_actor (P := λ _ _, slots_wf) [] None r a Hst w (conj Ha Hw)) as Hs.
  assert (match fence_actor r w with (Ok _, w') => issued r w' ∧ gone r w' | _ => True end) as Hended.
  { unfold fence_actor, update_slot, count, bind, check_ref, modify. rewrite Ha.
    match goal with |- issued r (_ <| w_metrics ::= _ |>) ∧ _ => idtac end.
    apply find_ref_inr in Ha as (Hid & Hat & Hg). split.
    - eexists. split; [unfold actor_at; cbn; rewrite list_lookup_alter_eq; apply actor_at_lookup in Hat; by rewrite Hat|]. simpl. lia.
    - intros b (_ & Hb & _)%find_ref_inr. unfold actor_at in Hb. cbn in Hb. rewrite list_lookup_alter_eq in Hb.
      apply actor_at_lookup in Hat. rewrite Hat in Hb. by injection Hb as <-. }
  destruct (fence_actor r w) as [[[]|e|] w']; done.
Qed.
Lemma fence_ended fuel r : triple slots_wf (fence fuel r) (λ _, ended r) slots_wf.
Proof.
  destruct fuel as [|fuel]; cbn [fence]; [apply triple_panic|].
  pose proof (λ r, stable_fence (P := λ _ _, slots_wf) fuel r) as Hf.
  assert (∀ A B (m : WM A) (k : A → WM B) Post, stable (λ _ _, slots_wf) m → (∀ a, triple slots_wf (k a) Post slots_wf) →
    triple slots_wf (bind m k) Post slots_wf) as Hbind.
  { intros A B m k Post Hm Hk. eapply triple_bind; [apply (Hm [] None)|done]. }
  do 4 (apply Hbind; [apply stable_framed; steps|intros _]).
  apply Hbind; [by apply stable_detach_service|intros _].
  apply Hbind; [apply stable_discard_notifications_for|intros _]. do 2 (apply Hbind; [apply stable_framed; steps|intros ?]).
  apply Hbind; [by apply stable_for_each|intros _].
  apply triple_check_ref; [done|]. intros b. case_bool_decide as Hs.
  - apply triple_ret. intros w [Hb Hw]. split_and!; [done|by eapply issued_ref|]. intros c Hc. rewrite Hb in Hc. injection Hc as <-. by rewrite Hs.
  - do 2 (apply (triple_framed_actor (P := λ _ _, slots_wf) [] None); [steps|intros ?]).
    eapply triple_bind; [by apply fence_actor_ended|]. intros ?. eapply triple_conseq; [apply (stable_ended r)|done|done|by intros w []].
    intros w0. apply stable_try_finalize.
Qed.
Lemma stop_ended r : triple slots_wf (stop r) (λ _, ended r) slots_wf.
Proof.
  eapply (triple_bind _ (λ o w, match o with inr _ => ended r w | inl _ => slots_wf w end)).
  - apply triple_try. unfold stop_locked. apply triple_get. intros w Hw.
    eapply (triple_bind _ (λ _, ended r)); [|intros ?; eapply triple_conseq; [apply (stable_ended r)|done|done|by intros ? [] ?]].
    + intros ? ->. pose proof (fence_ended (2 * walk_fuel w) r w Hw) as H. unfold fence_locked. by destruct (fence _ r w) as [[]].
    + intros w0. apply stable_framed. steps.
  - intros [e|report]; cbv beta iota.
    + eapply (triple_bind _ (λ _, slots_wf)); [|intros ?; by apply triple_fail].
      apply (triple_framed (P := λ _ _, slots_wf) [] None). steps.
    + eapply (triple_bind _ (λ _, ended r)); [|intros ?; by apply triple_ret].
      eapply triple_conseq; [apply (stable_ended r)|done|done|by intros ? []]. intros w0. apply stable_framed. steps.
Qed.

(** ** Nothing below executes *)

(** [c] is [r], or is owned by what is. *)
Inductive below (w : World) : ActorRef → ActorRef → Prop :=
| below_self r : below w r r
| below_owned c a p r : find_ref w c = inr a → a_parent a = Some p → below w p r → below w c r.
Definition halted (c : ActorRef) (w : World) : Prop := ∀ l, execution_of w c = Ok l → l = Lifecycle.Stopping.
Lemma walk_below w r fuel : gone r w → ∀ c a s1 s2 l,
  below w c r → find_ref w c = inr a → execution_walk fuel w a s1 s2 = Ok l → l = Lifecycle.Stopping.
Proof.
  intros Hg. induction fuel as [|fuel IH]; intros c a s1 s2 l Hb Ha; [done|]. cbn [execution_walk].
  destruct Hb as [r|c b p r Hc Hp Hb].
  - specialize (Hg a Ha). destruct (a_state a); simpl in Hg; try lia; by intros [= <-].
  - rewrite Ha in Hc. injection Hc as <-. rewrite Hp.
    destruct (a_state a); try (by intros [= <-]); (destruct (find_ref w p) as [|b] eqn:Hpb; [done|by eapply IH]).
Qed.
Lemma gone_halts w c r : gone r w → below w c r → halted c w.
Proof.
  intros Hg Hb l. unfold execution_of. destruct (find_ref w c) as [|a] eqn:Ha; [done|]. by eapply walk_below.
Qed.
Lemma walk_frame w w' : (∀ r, find_ref w' r = find_ref w r) →
  ∀ fuel a s1 s2, execution_walk fuel w' a s1 s2 = execution_walk fuel w a s1 s2.
Proof.
  intros Hr. induction fuel as [|fuel IH]; intros a s1 s2; [done|]. cbn [execution_walk].
  destruct (a_state a); try done; (destruct (a_parent a) as [p|]; [|done]; rewrite Hr; by destruct (find_ref w p)).
Qed.
Definition unmoved (w w' : World) : Prop := w_id w' = w_id w ∧ w_actors w' = w_actors w.
#[export] Instance unmoved_preorder : PreOrder unmoved.
Proof. split; [done|]. intros w1 w2 w3 [] []. split; congruence. Qed.
Lemma unmoved_framed {E A} (m : M World E A) : framed [] m → steps unmoved m.
Proof. intros Hm w. split; apply (Hm w). Qed.
Lemma unmoved_event : steps unmoved next_event_id.
Proof. unfold next_event_id. intros w. unfold bind, get, ok_or, modify. by destruct (checked_add _ _ _). Qed.
Lemma execution_unmoved w w' c : unmoved w w' → execution_of w' c = execution_of w c.
Proof.
  intros [Hid Ha]. assert (∀ r, find_ref w' r = find_ref w r) as Hr by (intros; unfold find_ref, actor_at; by rewrite Hid, Ha).
  unfold execution_of, walk_fuel. rewrite Hr, Ha. destruct (find_ref w c) as [|a]; [done|]. by apply walk_frame.
Qed.
Lemma triple_halted_bind {E A B} c Post Q (m : M World E A) (k : A → M World E B) :
  steps unmoved m → (∀ w : World, Q w) → (∀ a, triple (halted c) (k a) Post Q) → triple (halted c) (bind m k) Post Q.
Proof.
  intros Hm HQ Hk w Hw. unfold bind. specialize (Hm w). destruct (m w) as [[a|e|] w']; simpl in Hm; [|apply HQ|done].
  apply Hk. intros l. rewrite (execution_unmoved w w' c Hm). apply Hw.
Qed.
Lemma halted_refuses c s sub completion operation :
  triple (halted c) (admit_event c s sub completion operation) (λ _ _, False) (λ _, True).
Proof.
  unfold admit_event. do 6 (apply triple_halted_bind; [first [apply unmoved_event|apply unmoved_framed; steps]|done|intros ?]).
  intros w Hw. unfold bind at 1, execution_state. specialize (Hw). destruct (execution_of w c) as [l|e|] eqn:He; [|done..].
  rewrite (Hw l He). unfold bind at 1, check_ref. by destruct (find_ref w c), completion.
Qed.
Lemma halted_idles c : triple (halted c) (claim c) (λ o _, o = None) (λ _, True).
Proof.
  assert (∀ (m : WM (option N)), triple (halted c) m (λ o _, o = None) (λ _, True) →
    triple (halted c) (with_activity m) (λ o _, o = None) (λ _, True)) as Hact.
  { intros m Hm w Hw. specialize (Hm w Hw). unfold with_activity. by destruct (m w) as [[]]. }
  apply Hact. apply triple_halted_bind; [apply unmoved_framed; steps|done|]. intros a.
  intros w Hw. unfold bind at 1, execution_state. destruct (execution_of w c) as [l|e|] eqn:He; [|done..]. by rewrite (Hw l He).
Qed.

(** C4. A stop is final: once [stop] has returned, and whatever is called after
    it, an actor at or below the stopped one has no execution state but
    [Stopping]; it claims no delivery, and admits no event. *)
Theorem stop_is_final r cs w w' w'' report :
  world_reachable w → stop r w = (Ok report, w') → run_calls cs w' = Some w'' → ∀ c, below w'' c r →
  halted c w'' ∧ (∀ handle, (claim c w'').1 ≠ Ok (Some handle)) ∧
  (∀ s sub completion operation id, (admit_event c s sub completion operation w'').1 ≠ Ok id).
Proof.
  intros Hw%reachable_slots Hstop Hrun c Hb. pose proof (stop_ended r w Hw) as Hend. rewrite Hstop in Hend.
  destruct Hend as (Hs & Hi & Hg). pose proof (gone_forward _ _ _ (run_forward _ _ _ Hs Hrun) Hi Hg) as Hg'.
  pose proof (gone_halts _ _ _ Hg' Hb) as Hh. split_and!; [done|..].
  - intros handle. pose proof (halted_idles c w'' Hh) as H. destruct (claim c w'') as [[o|e|] ?]; simpl in *; [by subst|done..].
  - intros s sub completion operation id. pose proof (halted_refuses c s sub completion operation w'' Hh) as H.
    by destruct (admit_event c s sub completion operation w'') as [[o|e|] ?].
Qed.
(** The root of the sample run is stopped, and its child with it; a message to
    the child is then refused. *)
Definition stopped_root (w : World) : option World := match stop sample_root w with (Ok _, w') => Some w' | _ => None end.
Definition sent_after (w : World) : option World := stopped_root w ≫= run_calls [CSend sample_child (Pulse 4) default_options].
Definition child_below (w : World) : bool :=
  match find_ref w sample_child with inr a => bool_decide (a_parent a = Some sample_root) | inl _ => false end.
Definition child_after (w : World) : option bool := match sent_after w with Some w'' => Some (child_below w'') | None => None end.
Lemma stop_is_final_witness :
  ∃ w w'', sample_run = Some w ∧ sent_after w = Some w'' ∧ below w'' sample_child sample_root ∧ halted sample_child w''.
Proof.
  destruct sample_run as [w|] eqn:Hw; [|vm_compute in Hw; discriminate]. exists w.
  assert (child_after w = Some true) as H.
  { apply (sample_fact child_after); [vm_compute; reflexivity|exact Hw]. }
  unfold child_after in H. destruct (sent_after w) as [w''|] eqn:Hsent; [|discriminate]. exists w''. injection H as H.
  split; [reflexivity|]. split; [reflexivity|]. assert (below w'' sample_child sample_root) as Hb.
  { unfold child_below in H. destruct (find_ref w'' sample_child) as [|a] eqn:Ha; [discriminate|].
    apply (below_owned _ _ a sample_root); [exact Ha|by apply bool_decide_eq_true in H|apply below_self]. }
  split; [exact Hb|]. unfold sent_after, stopped_root in Hsent. destruct (stop sample_root w) as [[report|e|] w'] eqn:Hstop; [|discriminate|discriminate].
  exact (proj1 (stop_is_final sample_root _ w w' w'' report (sample_reachable w Hw) Hstop Hsent sample_child Hb)).
Defined.
