(* ===== verification/Deliveries.v ===== *)
(** * Sending and claiming

    What a mailbox promises its users: a send puts one event at the end of the
    queue or changes no actor; a claim ends and hands out the first event that is not
    outdated, drops the outdated ones before it, and panics only where the World's tree
    or the actor's counters are broken. *)
From S2P Require Import Prelude Collections Text Types Metadata Schema Routing Expiry Readiness Operations.
From S2P Require Import Diagnostics Publications SchemaRegistry Activity WorldState Admission Publishing Actors.
From S2P Require Import Messaging Components Steps WorldFrames WorldSteps ActorSteps MessageSteps WorldRuns Lifecycles Stops.
From S2P Require Import OperationRuns.

(** ** What is known of an actor *)
Definition knows (r : ActorRef) (a : Actor) (w : World) : Prop := find_ref w r = inr a.
Lemma triple_knows {E A} r a (m : M World E A) :
  framed [] m → triple (knows r a) m (λ _, knows r a) (λ _, True).
Proof.
  intros Hm w Hw. specialize (Hm w). unfold knows in *. rewrite <- (frame_find_ref _ _ _ r Hm) in Hw.
  by destruct (m w) as [[]].
Qed.
Lemma triple_knows_bind {E A B} r a Post (m : M World E A) (k : A → M World E B) :
  framed [] m → (∀ x, triple (knows r a) (k x) Post (λ _, True)) → triple (knows r a) (bind m k) Post (λ _, True).
Proof. intros Hm Hk. eapply triple_bind; [by apply triple_knows|done]. Qed.
Lemma triple_check_known {B} r a Post Q (k : Actor → WM B) :
  triple (knows r a) (k a) Post Q → triple (knows r a) (bind (check_ref r) k) Post Q.
Proof. intros Hk w Hw. specialize (Hk w Hw). unfold bind, check_ref. by rewrite Hw. Qed.
Lemma knows_set r a f w : knows r a w → a_reference (f a) = a_reference a → knows r (f a) (set_slot (ar_slot r) f w).
Proof.
  unfold knows. rewrite !find_ref_inr. intros (Hid & Ha & Hg) Hr. rewrite actor_at_set_slot, Ha, Hr. done.
Qed.

(** ** What the handling of a delivery depends on *)

(** An operation that is pending in the World. *)
Definition pending_op (w : World) (id : OperationId) : option PendingOperation :=
  match Operations.status (w_operations w) id with Ok (SPending p) => Some p | _ => None end.
(** At [t] the delivery need not be handled: it, or its operation, has expired, its
    operation has ended, or its subscription is gone. *)
Definition outdated (w : World) (t : Instant) (d : Delivery) : bool :=
  deadline_passed (env_deadline (d_envelope d)) t ||
  match d_operation d with
  | Some id => match pending_op w id with Some p => (po_deadline p <=? t)%N | None => true end
  | None => false
  end ||
  match d_subscription d with Some id => negb (Routes.contains_active (w_subs w) id) | None => false end.
Definition time_of (w : World) : Instant := ck_time (w_clock w).

(** Time passes, and operations expire. *)
Record aged (w w' : World) : Prop := {
  ag_time : (time_of w ≤ time_of w')%N;
  ag_subs : w_subs w' = w_subs w;
  ag_pending id : pending_op w' id = pending_op w id ∨
    pending_op w' id = None ∧ ∃ p, pending_op w id = Some p ∧ (po_deadline p ≤ time_of w')%N }.
#[export] Instance aged_preorder : PreOrder aged.
Proof.
  split; [intros w; split; [lia|done|by left]|]. intros w1 w2 w3 [Ht Hs Hp] [Ht' Hs' Hp']. split; [lia|congruence|].
  intros id. destruct (Hp' id) as [-> |(H3 & p & H2 & Hd)].
  - destruct (Hp id) as [|(H2 & p & H1 & Hd)]; [by left|right]. split; [done|]. exists p. split; [done|lia].
  - right. split; [done|]. destruct (Hp id) as [He|(? & _)]; [|congruence]. exists p. by rewrite <- He.
Qed.
Lemma aged_same w w' : (time_of w ≤ time_of w')%N → w_subs w' = w_subs w → w_operations w' = w_operations w → aged w w'.
Proof. intros Ht Hs Ho. split; [done..|]. intros id. left. unfold pending_op. by rewrite Ho. Qed.
Lemma deadline_passed_mono deadline t t' : (t ≤ t')%N → deadline_passed deadline t = true → deadline_passed deadline t' = true.
Proof. destruct deadline; simpl; lia || done. Qed.
Lemma outdated_mono w t t' d : (t ≤ t')%N → outdated w t d = true → outdated w t' d = true.
Proof.
  intros Ht. unfold outdated. rewrite !orb_true_iff. intros [[Hd|Ho]|Hs]; [left; left|left; right|by right].
  - by eapply deadline_passed_mono.
  - destruct (d_operation d) as [id|]; [|done]. destruct (pending_op w id); [lia|done].
Qed.
Lemma outdated_aged w0 w t d : aged w0 w → (time_of w ≤ t)%N → outdated w t d = outdated w0 t d.
Proof.
  intros [_ Hs Hp] Ht. unfold outdated. rewrite Hs. f_equal. f_equal. destruct (d_operation d) as [id|]; [|done].
  destruct (Hp id) as [-> |(-> & p & -> & Hd)]; [done|]. symmetry. apply N.leb_le. lia.
Qed.

(** Clock, routes and operations at rest, but for the passing of time. *)
Definition rests (w w' : World) : Prop :=
  (time_of w ≤ time_of w')%N ∧ w_subs w' = w_subs w ∧ w_operations w' = w_operations w.
#[export] Instance rests_preorder : PreOrder rests.
Proof. split; [intros w; split_and!; done|]. intros w1 w2 w3 (? & ? & ?) (? & ? & ?). split_and!; [lia|congruence..]. Qed.
Lemma rests_history f : (∀ h c, (ck_time c ≤ ck_time (f h c).2)%N) → steps rests (with_history f).
Proof.
  intros Hf. apply steps_modify. intros w. specialize (Hf (w_diagnostics w) (w_clock w)).
  by destruct (f (w_diagnostics w) (w_clock w)).
Qed.
Lemma clock_forward c : (ck_time c ≤ ck_time (Clocks.now c).2)%N ∧ (Clocks.now c).1 = ck_time (Clocks.now c).2.
Proof. unfold Clocks.now. destruct (ck_manual c); [done|]. destruct (ck_ticks c); simpl; split; lia || done. Qed.
Lemma record_forward code actor operation failure envelope h c :
  (ck_time c ≤ ck_time (Hist.record_entry code actor operation failure envelope h c).2)%N.
Proof.
  unfold Hist.record_entry. destruct (_ || _); [done|]. pose proof (clock_forward c) as [H _].
  by destruct (Clocks.now c).
Qed.
Lemma rests_marking f : steps rests (marking f).
Proof. intros w. unfold marking. by destruct (f w (w_activity w)). Qed.
Ltac rests :=
  repeat match goal with
  | |- steps rests (bind _ _) => apply (steps_bind _); [|intros ?]
  | |- steps rests (try_ _) => apply steps_try
  | |- steps rests (execution_state _) => by intros ?
  | |- steps rests (modify _) => apply steps_modify; intros ?; cbv zeta; by repeat case_match
  | |- steps rests (with_history _) => apply rests_history; intros; apply record_forward
  | |- steps rests (marking _) => apply rests_marking
  | |- steps rests (match ?x with _ => _ end) => destruct x
  | |- steps rests _ => solve [eauto with steps nocore typeclass_instances]
  | |- steps rests ?m => let h := head_of m in unfold h
  end.
Lemma rests_touch : steps rests touch_activity.
Proof.
  unfold touch_activity, wake_routing. apply (steps_bind _); [rests|]. intros _. apply steps_modify. intros w.
  by destruct (Activity.notify_marked _).
Qed.

(** ** Where the handling of a delivery can panic *)

(** The tree of the World is broken: a walk up the tree, or along the routes of a draining
    actor, does not end or finds a route that is not there. *)
Definition broken_tree (w : World) : Prop :=
  (∃ s, execution_of w s = Panic) ∨ (∃ s g, mark_dependents (walk_fuel w) w s g = None).
(** The actor's counters do not account for the head of its queue. *)
Definition broken_head (r : ActorRef) (w : World) : Prop :=
  ∃ a d queue, find_ref w r = inr a ∧ a_queue a = d :: queue ∧
    (checked_sub (a_queue_bytes a) (stored_bytes (d_payload d)) = None ∨
     ActorDeadlines.remove (env_deadline (d_envelope d)) (a_deadlines a) = None).
(** Both are of the tree and the routes only. *)
Lemma mark_ancestors_frame w w' : (∀ r, find_ref w' r = find_ref w r) →
  ∀ fuel r g, mark_ancestors fuel w' r g = mark_ancestors fuel w r g.
Proof.
  intros Hr. induction fuel as [|fuel IH]; intros r g; [done|]. cbn [mark_ancestors]. rewrite Hr.
  destruct (find_ref w r) as [|a]; [done|]. by destruct (a_parent a).
Qed.
Lemma mark_dependents_frame w w' : unmoved w w' → w_subs w' = w_subs w →
  ∀ fuel r g, mark_dependents fuel w' r g = mark_dependents fuel w r g.
Proof.
  intros [Hid Ha] Hs. assert (∀ r, find_ref w' r = find_ref w r) as Hr by (intros; unfold find_ref, actor_at; by rewrite Hid, Ha).
  assert (∀ ids g, mark_consumers w' ids g = mark_consumers w ids g) as Hc.
  { induction ids as [|id ids IH]; intros g; [done|]. cbn [mark_consumers]. rewrite Hs. destruct (Routes.get _ _) as [route|]; [|done].
    rewrite Hr. case_match; [|done]. unfold walk_fuel. rewrite Ha, (mark_ancestors_frame _ _ Hr).
    destruct (mark_ancestors _ _ _ _); [apply IH|done]. }
  induction fuel as [|fuel IH]; intros r g; [done|]. cbn [mark_dependents]. rewrite Hr, Hs.
  destruct (find_ref w r) as [|a]; [done|]. rewrite Hc.
  destruct (if draining_or_done _ then _ else _) as [g'|]; [|done]. simpl. by destruct (a_parent a).
Qed.
Lemma broken_unmoved w w' r : unmoved w w' → w_subs w' = w_subs w →
  broken_tree w ∨ broken_head r w → broken_tree w' ∨ broken_head r w'.
Proof.
  intros Hu Hs. pose proof Hu as [Hid Ha]. intros [[[s He]|(s & g & Hm)]|(a & d & queue & Hf & H)].
  - left; left. exists s. by rewrite (execution_unmoved w).
  - left; right. exists s, g. unfold walk_fuel. rewrite Ha, (mark_dependents_frame w); done.
  - right. exists a, d, queue. unfold find_ref, actor_at. rewrite Hid, Ha. done.
Qed.
Definition panics {A} (P : World → Prop) (m : WM A) : Prop := ∀ w, match m w with (Panic, w') => P w' | _ => True end.
Lemma panics_bind {A B} P (m : WM A) (k : A → WM B) : panics P m → (∀ a, panics P (k a)) → panics P (bind m k).
Proof. intros Hm Hk w. unfold bind. specialize (Hm w). destruct (m w) as [[a|e|] w']; [apply Hk|done..]. Qed.
Lemma panics_try {A} P (m : WM A) : panics P m → panics P (try_ (E:=error) m).
Proof. intros Hm w. unfold try_. specialize (Hm w). by destruct (m w) as [[a|e|] w']. Qed.
Lemma panics_refresh r : panics broken_tree (refresh_python_ready r).
Proof.
  unfold refresh_python_ready. apply panics_bind; [by intros w|]. intros w. destruct (find_ref w r) as [|a]; [by intros ?|].
  case_bool_decide; [by intros ?|]. cbv zeta. apply panics_bind; [|by intros x w1].
  destruct (_ && _); [|by intros ?]. apply panics_bind; [|by intros x w1]. apply panics_try.
  intros w1. unfold execution_state. destruct (execution_of w1 r) eqn:He; [done..|]. left. by exists r.
Qed.
Lemma panics_mark r : panics broken_tree (mark_activity_dependents r).
Proof.
  intros w. unfold mark_activity_dependents, marking. destruct (mark_dependents _ _ _ _) eqn:Hm; [done|]. right. by eexists _, _.
Qed.
Lemma panics_mark_operation owner target : panics broken_tree (mark_operation_activity owner target).
Proof.
  unfold mark_operation_activity. apply panics_bind; [apply panics_mark|]. intros _. destruct target; [|by intros ?].
  case_bool_decide; [apply panics_mark|by intros ?].
Qed.

(** ** Expiry of a delivery's operation *)
Lemma rests_marking_of owner target w : rests w (mark_operation_activity owner target w).2.
Proof. revert w. change (steps rests (mark_operation_activity owner target)). rests. Qed.
Definition fresh_op (t : Instant) (id : OperationId) (w : World) : Prop := ∀ p, pending_op w id = Some p → (t < po_deadline p)%N.
Lemma pending_op_live w id p : ot_wf [] (w_operations w) → pending_op w id = Some p ↔ live_at (w_operations w) id (EPending p).
Proof.
  intros Hwf. unfold pending_op, Operations.status.
  destruct (locate_cases [] (w_operations w) id Hwf) as [[Hw ->]|[(_ & Hn & ->)|(e & He & ->)]].
  - split; [done|]. by intros [? _].
  - split; [done|]. by intros ?%Hn.
  - pose proof He as (_ & Hs & _). rewrite Hs. split.
    + destruct e; [|done]. by intros [= ->].
    + intros (_ & Hs' & _). rewrite Hs' in Hs. by injection Hs as <-.
Qed.
Lemma status_calm t id : ot_wf [] t → Operations.status t id ≠ Panic.
Proof.
  intros Hwf. unfold Operations.status.
  destruct (locate_cases [] t id Hwf) as [[_ ->]|[(_ & _ & ->)|(e & (_ & Hs & _) & ->)]]; [done..|]. rewrite Hs. by destruct e.
Qed.
Lemma aged_rests w w' : rests w w' → aged w w'.
Proof. intros (? & ? & ?). by apply aged_same. Qed.
Lemma fresh_rests t id w w' : rests w w' → fresh_op t id w → fresh_op t id w'.
Proof. intros (_ & _ & Ho) Hf p. unfold pending_op. rewrite Ho. apply Hf. Qed.
(** An operation that is due ends. *)
Lemma aged_finish w id p t :
  ot_wf [] (w_operations w) → live_at (w_operations w) id (EPending p) → (po_deadline p ≤ t ≤ time_of w)%N →
  let w' := w <| w_operations := finish (w_operations w) id p TimedOut |> in
  aged w w' ∧ ot_wf [] (w_operations w') ∧ fresh_op t id w'.
Proof.
  intros Hwf Hl Ht. pose proof (finish_wf _ _ _ _ TimedOut Hwf Hl) as Hwf'. intros w'.
  assert (∀ id' q, pending_op w' id' = Some q ↔ id' ≠ id ∧ pending_op w id' = Some q) as Hp.
  { intros id' q. rewrite !pending_op_live by done. unfold w'. simpl. rewrite finish_live by done. naive_solver. }
  split_and!; [|done|].
  - split; [done|done|]. intros id'. destruct (decide (id' = id)) as [->|Hne].
    + right. split; [|exists p; split; [by apply pending_op_live|unfold w', time_of in *; simpl; lia]].
      destruct (pending_op w' id) as [q|] eqn:Hq; [|done]. by apply Hp in Hq as [? _].
    + left. destruct (pending_op w id') as [q|] eqn:Hq; [by apply Hp|]. destruct (pending_op w' id') as [q|] eqn:Hq'; [|done].
      apply Hp in Hq'. naive_solver.
  - intros q Hq. by apply Hp in Hq as [? _].
Qed.
Lemma expire_operation_aged id t w :
  ot_wf [] (w_operations w) → (t ≤ time_of w)%N →
  match expire_operation id t w with
  | (Panic, w') => broken_tree w'
  | (_, w') => aged w w' ∧ ot_wf [] (w_operations w') ∧ fresh_op t id w'
  end.
Proof.
  intros Hwf Ht. unfold expire_operation, bind at 1, get, bind at 1, of_outcome, Operations.participants.
  assert (∀ w', rests w w' → fresh_op t id w → aged w w' ∧ ot_wf [] (w_operations w') ∧ fresh_op t id w') as Hsame.
  { intros w' Hr Hf. split_and!; [by apply aged_rests| |by eapply fresh_rests]. by destruct Hr as (_ & _ & ->). }
  assert (∀ x, Operations.locate (w_operations w) id = Err x → fresh_op t id w) as Hnone.
  { intros x Hx p. unfold pending_op, Operations.status. by rewrite Hx. }
  destruct (locate_cases [] (w_operations w) id Hwf) as [[_ Hloc]|[(_ & _ & Hloc)|(e & He & Hloc)]]; rewrite Hloc; [by apply Hsame; eauto..|].
  pose proof He as (_ & Hs & _). pose proof (wf_len_owners _ _ Hwf) as Hlen.
  destruct (lookup_lt_is_Some_2 (ot_owners (w_operations w)) (slot_index id)) as [o Ho].
  { rewrite Hlen. by eapply lookup_lt_Some. }
  pose proof (wf_owners _ _ Hwf _ _ _ Hs Ho) as Hfit. rewrite Ho, Hs. unfold operations, zoom, Operations.expire_one, bind, get, of_outcome.
  destruct e as [p|out]; simpl in Hfit.
  - subst o. rewrite Hloc, Hs. destruct (N.leb_spec (po_deadline p) t) as [Hdue|Hdue].
    + rewrite (Operations.complete_pending _ _ _ _ TimedOut Hwf He) by done.
      match goal with |- context [mark_operation_activity ?o ?x ?w1] =>
        pose proof (rests_marking_of o x w1) as Hm; pose proof (panics_mark_operation o x w1) as Hpan; destruct (mark_operation_activity o x w1) as [[[]|err|] w2] end; try done; simpl in Hm.
      all: destruct (aged_finish w id p t Hwf He) as (Ha & Hwf' & Hf); [lia|]; split_and!;
        [etrans; [exact Ha|by apply aged_rests]|rewrite (proj2 (proj2 Hm)); exact Hwf'|by eapply fresh_rests].
    + simpl. split_and!; [by apply aged_rests|done|]. apply (fresh_rests t id w); [by split_and!|]. intros q Hq. apply pending_op_live in Hq; [|done].
      destruct Hq as (_ & Hs' & _). rewrite Hs' in Hs. injection Hs as <-. done.
  - destruct Hfit as [owner ->]. rewrite Hloc, Hs. simpl. split_and!; [by apply aged_rests|done|]. apply (fresh_rests t id w); [by split_and!|]. intros q Hq.
    apply pending_op_live in Hq; [|done]. destruct Hq as (_ & Hs' & _). rewrite Hs' in Hs. done.
Qed.
(** Counting and recording it. *)
Lemma expire_and_count_aged id t actor w :
  ot_wf [] (w_operations w) → (t ≤ time_of w)%N →
  match expire_and_count id t actor w with
  | (Ok _, w') => aged w w' ∧ ot_wf [] (w_operations w') ∧ fresh_op t id w'
  | (Err _, _) => False
  | (Panic, w') => broken_tree w'
  end.
Proof.
  intros Hwf Ht. unfold expire_and_count, unwrap_or, try_, bind at 1 2.
  pose proof (expire_operation_aged id t w Hwf Ht) as H.
  assert (∀ w1, aged w w1 ∧ ot_wf [] (w_operations w1) ∧ fresh_op t id w1 → ∀ w2, rests w1 w2 →
    aged w w2 ∧ ot_wf [] (w_operations w2) ∧ fresh_op t id w2) as Hrest.
  { intros w1 (Ha & Hw1 & Hf) w2 Hr. split_and!; [etrans; [exact Ha|by apply aged_rests]| |by eapply fresh_rests].
    rewrite (proj2 (proj2 Hr)). exact Hw1. }
  destruct (expire_operation id t w) as [[[]|e|] w1]; try done. unfold ret, bind, count, diagnostic, with_history, modify.
  apply (Hrest w1 H).
  trans (w1 <| w_metrics ::= λ m, m <| m_operation_timed_out ::= N.succ |> |>); [done|].
  exact (rests_history _ (record_forward _ _ _ _ _) _).
Qed.
Lemma expire_delivery_aged d t w :
  ot_wf [] (w_operations w) → (t ≤ time_of w)%N →
  match expire_delivery d t w with
  | (Ok _, w') => aged w w' ∧ ot_wf [] (w_operations w')
  | (Err _, _) => False
  | (Panic, w') => broken_tree w'
  end.
Proof.
  intros Hwf Ht. unfold expire_delivery, count, bind at 1, modify at 1. set (w1 := w <| w_metrics ::= _ |>).
  unfold bind at 1. set (m := with_history _). assert (rests w (m w1).2) as Hr.
  { etrans; [|apply (rests_history _ (record_forward _ _ _ _ _))]. done. }
  assert ((m w1).1 = Ok tt) as Ho by done. destruct (m w1) as [o w2]. simpl in Ho, Hr. subst o.
  assert (ot_wf [] (w_operations w2)) as Hwf2 by (by rewrite (proj2 (proj2 Hr))).
  destruct (d_operation d) as [id|]; [|split; [by apply aged_rests|done]].
  pose proof (expire_and_count_aged id t (Some (env_destination (d_envelope d))) w2 Hwf2) as H.
  destruct (expire_and_count _ _ _ w2) as [[[]|e|] w3]; [|apply H; destruct Hr; lia..].
  destruct H as (Ha & Hw3 & _); [destruct Hr; lia|]. split; [|done]. etrans; [by apply aged_rests|done].
Qed.

(** ** Claiming *)

(** The verdict on a popped delivery is what [outdated] says of it. *)
Lemma now_runs w : ∃ t w', now w = (Ok t, w') ∧ rests w w' ∧ t = time_of w'.
Proof.
  unfold now. pose proof (clock_forward (w_clock w)) as [Hle Heq]. destruct (Clocks.now (w_clock w)) as [t c].
  eexists _, _. split; [done|]. simpl in *. by split_and!.
Qed.
Lemma still_valid_exact r d w :
  ot_wf [] (w_operations w) →
  match still_valid r d w with
  | (Ok v, w') => aged w w' ∧ ot_wf [] (w_operations w') ∧
      ∃ t, (time_of w ≤ t ≤ time_of w')%N ∧ outdated w t d = negb v
  | (Err _, _) => False
  | (Panic, w') => broken_tree w'
  end.
Proof.
  intros Hwf. unfold still_valid, bind at 1. destruct (now_runs w) as (t & w1 & -> & Hr1 & Ht1).
  assert (ot_wf [] (w_operations w1)) as Hwf1 by (by rewrite (proj2 (proj2 Hr1))). pose proof (aged_rests _ _ Hr1) as Ha1.
  pose proof (ag_time _ _ Ha1) as Hle1.
  destruct (deadline_passed (env_deadline (d_envelope d)) t) eqn:Hdl.
  { unfold bind. pose proof (expire_delivery_aged d t w1 Hwf1) as He.
    destruct (expire_delivery d t w1) as [[[]|e|] w2]; [|apply He; lia..]. destruct He as [Ha2 Hwf2]; [lia|].
    simpl. split; [by etrans|]. split; [done|]. exists t. pose proof (ag_time _ _ Ha2). split; [lia|].
    unfold outdated. by rewrite Hdl. }
  (* the operation *)
  unfold bind at 1. set (check := match d_operation d with None => _ | Some _ => _ end).
  assert (match check w1 with
          | (Ok v, w2) => aged w1 w2 ∧ ot_wf [] (w_operations w2) ∧
              v = match d_operation d with Some id => bool_decide (is_Some (pending_op w2 id)) | None => true end ∧
              match d_operation d with Some id => fresh_op t id w2 | None => True end
          | (Err _, _) => False
          | (Panic, w') => broken_tree w'
          end) as Hcheck.
  { unfold check. destruct (d_operation d) as [id|]; [|done]. unfold bind at 1.
    destruct (now_runs w1) as (t2 & w2 & -> & Hr2 & Ht2).
    assert (ot_wf [] (w_operations w2)) as Hwf2 by (by rewrite (proj2 (proj2 Hr2))). pose proof (aged_rests _ _ Hr2) as Ha2.
    pose proof (expire_and_count_aged id t2 (Some r) w2 Hwf2 ltac:(lia)) as He. unfold bind at 1.
    destruct (expire_and_count id t2 (Some r) w2) as [[[]|e|] w3]; [|done..]. destruct He as (Ha3 & Hwf3 & Hf).
    unfold bind, get. pose proof (ag_time _ _ Ha2).
    assert (fresh_op t id w3) as Hf' by (intros p Hp; specialize (Hf p Hp); lia).
    unfold pending_op in *. destruct (Operations.status (w_operations w3) id) as [[p|o]|e|] eqn:Hs; simpl.
    all: try done; try rewrite Hs; try (split_and!; done || by etrans). by destruct (status_calm _ _ Hwf3 Hs). }
  destruct (check w1) as [[v|e|] w2]; [|done..]. destruct Hcheck as (Ha2 & Hwf2 & Hv & Hf).
  assert (aged w w2) as Ha by (by etrans). pose proof (ag_time _ _ Ha2).
  assert (∀ v', (v = true → v' = negb match d_subscription d with Some id => negb (Routes.contains_active (w_subs w2) id) | None => false end) →
    (v = false → v' = false) → ∃ t0, (time_of w ≤ t0 ≤ time_of w2)%N ∧ outdated w t0 d = negb v') as Hverdict.
  { intros v' Htrue Hfalse. rewrite (ag_subs _ _ Ha) in Htrue. destruct v.
    - rewrite Htrue by done. rewrite negb_involutive. exists t. split; [lia|]. unfold outdated. rewrite Hdl. simpl.
      destruct (d_operation d) as [id|]; [|done]. symmetry in Hv. apply bool_decide_eq_true in Hv as [p Hp].
      specialize (Hf p Hp). destruct (ag_pending _ _ Ha id) as [He|(He & _)]; [|congruence].
      rewrite <- He, Hp. by rewrite (proj2 (N.leb_gt _ _) Hf).
    - rewrite Hfalse by done. exists (time_of w2). split; [lia|]. rewrite <- (outdated_aged w w2) by done. unfold outdated.
      destruct (d_operation d) as [id|]; [|done]. symmetry in Hv. apply bool_decide_eq_false in Hv.
      destruct (pending_op w2 id); [by destruct Hv|]. by rewrite orb_true_r. }
  assert (∀ f : Metrics → Metrics, aged w (w2 <| w_metrics ::= f |>)) as Hcount by (intros f; etrans; [exact Ha|by apply aged_same]).
  unfold cancelled, count, bind, modify, ret, get. destruct v; cbn [negb].
  2: { split_and!; [apply Hcount|done|exact (Hverdict false ltac:(done) ltac:(done))]. }
  destruct (d_subscription d) as [id|]; [|split_and!; [done..|exact (Hverdict true ltac:(done) ltac:(done))]].
  destruct (Routes.contains_active (w_subs w2) id) eqn:Hsub.
  - split_and!; [done..|]. apply (Hverdict true); by rewrite ?Hsub.
  - split_and!; [apply Hcount|done|]. apply (Hverdict false); by rewrite ?Hsub.
Qed.
Lemma pop_delivery_head r a :
  triple (knows r a) (pop_delivery r)
    (λ o w, match o with
            | None => a_queue a = [] ∧ knows r a w
            | Some d => ∃ a', knows r a' w ∧ a_queue a = d :: a_queue a'
            end) (λ _, True).
Proof.
  unfold pop_delivery. apply triple_check_known. destruct (a_queue a) as [|d queue] eqn:Hq; [by apply triple_ret|].
  apply triple_expect. intros bytes _. apply triple_expect. intros deadlines _.
  set (f := λ a : Actor, a <| a_queue := queue |> <| a_queue_bytes := bytes |> <| a_deadlines := deadlines |>).
  eapply (triple_bind _ (λ _, knows r (f a))); [intros w Hw; by apply knows_set|]. intros _.
  do 3 (apply triple_knows_bind; [steps|intros _]). apply triple_ret. intros w Hw. by exists (f a).
Qed.
(** What a claim of [a]'s queue in [w] hands out. *)
Definition handed (r : ActorRef) (a : Actor) (o : option N) (w w' : World) : Prop :=
  ∃ a', knows r a' w' ∧
  match o with
  | Some handle => ∃ skipped d t, a_queue a = skipped ++ d :: a_queue a' ∧ (time_of w ≤ t ≤ time_of w')%N ∧
      Forall (λ x, outdated w t x = true) skipped ∧ outdated w t d = false ∧
      w_leases w' !! handle = Some (MkDeliveryLease r (d_operation d) d) ∧ a_in_flight a' = true
  | None => Forall (λ x, outdated w (time_of w') x = true) (a_queue a) ∧ a_queue a' = []
  end.
(** A popped delivery leaves clock, routes and operations at rest. *)
Lemma rests_pop r : steps rests (pop_delivery r).
Proof. unfold pop_delivery. apply (steps_bind _); [by intros w; unfold check_ref; destruct (find_ref w r)|intros a]. rests. Qed.
Lemma errless_pop_known r a w : knows r a w → ∀ e, (pop_delivery r w).1 ≠ Err e.
Proof.
  intros Ha e. unfold pop_delivery, bind at 1, check_ref. rewrite Ha. destruct (a_queue a) as [|d queue]; [done|].
  match goal with |- (?m w).1 ≠ _ => assert (errless m) as H; [|apply H] end. unfold update_slot, mark_activity_dependents.
  pose proof errless_refresh. pose proof errless_marking. errless.
Qed.
Lemma panics_pop r a w : knows r a w →
  match pop_delivery r w with (Panic, w') => broken_tree w' ∨ broken_head r w' | _ => True end.
Proof.
  intros Ha. unfold pop_delivery, bind at 1, check_ref. rewrite Ha. destruct (a_queue a) as [|d queue] eqn:Hq; [done|].
  unfold bind at 1. destruct (checked_sub _ _) eqn:Hbytes; [|right; exists a, d, queue; by auto]. unfold expect at 1, ret at 1.
  unfold bind at 1. destruct (ActorDeadlines.remove _ _) eqn:Hdl; [|right; exists a, d, queue; by auto]. unfold expect, ret at 1.
  match goal with |- match ?m w with _ => _ end => assert (panics broken_tree m) as H end.
  { do 2 (apply panics_bind; [by intros ?|intros _]). apply panics_bind; [apply panics_refresh|intros _].
    apply panics_bind; [apply panics_mark|intros _]. by intros ?. }
  match goal with |- match ?m w with _ => _ end => specialize (H w); destruct (m w) as [[o|e|] w']; [done|done|by left] end.
Qed.
Definition settled_at (w0 w : World) : Prop := aged w0 w ∧ ot_wf [] (w_operations w).
Lemma settled_rests w0 w w' : settled_at w0 w → rests w w' → settled_at w0 w'.
Proof.
  intros [Ha Hwf] Hr. split; [etrans; [exact Ha|by apply aged_rests]|]. by rewrite (proj2 (proj2 Hr)).
Qed.
Lemma handed_skip w0 w r a a' d o w' :
  settled_at w0 w → a_queue a = d :: a_queue a' → outdated w0 (time_of w) d = true → (time_of w ≤ time_of w')%N →
  handed r a' o w w' → handed r a o w0 w'.
Proof.
  intros [Ha _] Hq Hd Hle (b & Hb & Ho). exists b. split; [done|]. pose proof (ag_time _ _ Ha) as Ht. destruct o as [handle|].
  - destruct Ho as (skipped & d' & t & Hs & Ht' & Hf & Hd' & Hl). exists (d :: skipped), d', t. rewrite Hq, Hs.
    rewrite (outdated_aged w0 w) in Hd' by (done || lia). split_and!; [done|lia|lia| |done|apply Hl..].
    constructor; [eapply outdated_mono; [|exact Hd]; lia|]. eapply Forall_impl; [exact Hf|]. cbv beta; intros x. rewrite (outdated_aged w0 w) by (done || lia). done.
  - destruct Ho as [Hf He]. split; [|done]. rewrite Hq.
    constructor; [eapply outdated_mono; [|exact Hd]; lia|]. eapply Forall_impl; [exact Hf|]. cbv beta; intros x. rewrite (outdated_aged w0 w) by (done || lia). done.
Qed.
Lemma rests_refresh r : steps rests (refresh_python_ready r).
Proof. rests. Qed.
(** The delivery that passed is leased. *)
Definition hand_out (r : ActorRef) (d : Delivery) : WM (option N) :=
  update_ref r (λ a, a <| a_in_flight := true |>) ;;;
  refresh_python_ready r ;;;
  count (λ m, m <| m_started ::= N.succ |>) ;;;
  let! handle := new_handle in
  modify (λ w, w <| w_leases ::= <[handle := MkDeliveryLease r (d_operation d) d]> |>) ;;;
  ret (Some handle).
Lemma hand_out_handed r a a' d w w2 t :
  a_queue a = d :: a_queue a' → knows r a' w2 → (time_of w ≤ t ≤ time_of w2)%N → outdated w t d = false →
  match hand_out r d w2 with
  | (Ok o, w') => handed r a o w w' ∧ (time_of w ≤ time_of w')%N
  | (Err _, _) => False
  | (Panic, w') => broken_tree w'
  end.
Proof.
  intros Hq Hk Ht Hout. unfold hand_out, bind at 1, update_ref, bind at 1, check_ref. rewrite Hk.
  unfold update_slot, modify at 1. set (f := λ a : Actor, a <| a_in_flight := true |>). set (w3 := set_slot _ _ w2).
  assert (knows r (f a') w3) as Hk3 by (by apply (knows_set r a')).
  pose proof (triple_knows r (f a') (refresh_python_ready r) ltac:(steps) w3 Hk3) as Hk4.
  pose proof (rests_refresh r w3) as Hr. pose proof (panics_refresh r w3) as Hpan.
  unfold bind at 1. pose proof (errless_refresh r w3) as He. destruct (refresh_python_ready r w3) as [[[]|e|] w4]; [|by destruct (He e)|done].
  simpl in Hr, Hk4. unfold bind, count, new_handle, get, modify, ret, bind.
  assert (time_of w2 ≤ time_of w4)%N as Hle by (apply Hr). split; [|simpl in *; unfold time_of in *; simpl; lia].
  exists (f a'). split; [exact Hk4|]. exists [], d, t. cbn. rewrite lookup_insert_eq.
  split_and!; [done|lia|unfold time_of in *; simpl; lia|constructor|done|done|done].
Qed.
Lemma claim_loop_handed fuel : ∀ r a w, knows r a w → ot_wf [] (w_operations w) → length (a_queue a) < fuel →
  match claim_loop fuel r w with
  | (Ok o, w') => handed r a o w w' ∧ (time_of w ≤ time_of w')%N
  | (Err _, _) => False
  | (Panic, w') => broken_tree w' ∨ broken_head r w'
  end.
Proof.
  induction fuel as [|fuel IH]; intros r a w Ha Hwf Hlen; cbn [claim_loop]; [lia|].
  unfold bind at 1. pose proof (pop_delivery_head r a w Ha) as Hpop. pose proof (errless_pop_known r a w Ha) as Herr.
  pose proof (rests_pop r w) as Hrest. pose proof (panics_pop r a w Ha) as Hpan.
  destruct (pop_delivery r w) as [[[d|]|e|] w1]; [| |by destruct (Herr e)|done]; simpl in Hrest.
  2: { destruct Hpop as [Hq Hk]. split; [|apply Hrest]. exists a. rewrite Hq. done. }
  destruct Hpop as (a' & Hk & Hq). assert (settled_at w w1) as Hset by (eapply settled_rests; [|exact Hrest]; done).
  pose proof (still_valid_exact r d w1 (proj2 Hset)) as Hv.
  pose proof (triple_knows r a' (still_valid r d) (framed_still_valid _ _ _) w1 Hk) as Hk2.
  unfold bind at 1. destruct (still_valid r d w1) as [[v|e|] w2]; [|done|by left]. destruct Hv as (Ha2 & Hwf2 & t & Ht & Hout).
  assert (settled_at w w2) as Hset2 by (split; [etrans; [apply Hset|done]|done]).
  pose proof (ag_time _ _ (proj1 Hset)) as Hle1. pose proof (ag_time _ _ (proj1 Hset2)) as Hle2.
  rewrite (outdated_aged w w1) in Hout by (apply Hset || lia). destruct v; cbn [negb] in Hout |- *.
  - pose proof (hand_out_handed r a a' d w w2 t Hq Hk2 ltac:(lia) Hout) as Hhand. unfold hand_out in Hhand.
    match goal with |- match ?m w2 with _ => _ end => destruct (m w2) as [[o|e|] w3] end; [done|done|by left].
  - assert (length (a_queue a') < fuel) as Hlen' by (rewrite Hq in Hlen; simpl in Hlen; lia).
    specialize (IH r a' w2 Hk2 Hwf2 Hlen'). destruct (claim_loop fuel r w2) as [[o|e|] w3]; [|done..]. destruct IH as [IH Hle3].
    split; [|lia]. eapply handed_skip; [exact Hset2|done| |done|done]. eapply outdated_mono; [|exact Hout]. lia.
Qed.
Lemma touch_leases w : w_leases (touch_activity w).2 = w_leases w.
Proof.
  unfold touch_activity, wake_routing, bind, modify. destruct (rs_dirty _); simpl; by destruct (Activity.notify_marked _).
Qed.
Lemma knows_touch r a w : knows r a w → knows r a (touch_activity w).2.
Proof. unfold knows. by rewrite (frame_find_ref [] w _ r (framed_touch [] w)). Qed.
Lemma broken_touch r w : broken_tree w ∨ broken_head r w →
  broken_tree (touch_activity w).2 ∨ broken_head r (touch_activity w).2.
Proof.
  apply broken_unmoved; [apply (unmoved_framed touch_activity (framed_touch [])) | apply (rests_touch w)].
Qed.
Lemma handed_touch r a o w w' : handed r a o w w' → handed r a o w (touch_activity w').2.
Proof.
  intros (b & Hb & Ho). exists b. split; [by apply knows_touch|]. pose proof (rests_touch w') as (Ht & _ & _).
  destruct o as [handle|].
  - destruct Ho as (skipped & d & t & Hs & Ht' & Hrest). exists skipped, d, t. rewrite touch_leases. split_and!; [done|lia|lia|apply Hrest..].
  - destruct Ho as [Hf He]. split; [|done]. eapply Forall_impl; [exact Hf|]. intros x. by apply outdated_mono.
Qed.

(** C16. A claim is first in, first out.  An actor that executes and is not busy is handed
    the first delivery of its queue that is still to be handled, at a time during the
    call: its deadline has not passed, its operation is pending and not due, its
    subscription is active.  The ones skipped were outdated then in one of these ways, the
    delivery is leased, and the rest stays queued in order; without one, the whole queue
    was outdated, and is used up.  An actor that does not execute, or is busy, is handed
    nothing and stays as it is; a claim fails only when the actor's execution state
    cannot be read.  It always ends, and panics only in a World whose tree is broken, or
    whose counters do not account for the head of the queue. *)
Theorem claim_in_order r w a :
  find_ref w r = inr a → ot_wf [] (w_operations w) →
  match claim r w with
  | (Ok o, w') =>
      ∃ e, execution_of w r = Ok e ∧
      if active_or_quiescing e && negb (a_in_flight a) && negb (a_control_in_flight a)
      then handed r a o w w'
      else o = None ∧ find_ref w' r = inr a
  | (Err e, w') => execution_of w r = Err e ∧ find_ref w' r = inr a
  | (Panic, w') => broken_tree w' ∨ broken_head r w'
  end.
Proof.
  intros Ha Hwf. unfold claim, with_activity, bind at 1, check_ref. rewrite Ha.
  unfold bind at 1, execution_state. destruct (execution_of w r) as [e|e|] eqn:He;
    [|by split; [|apply (knows_touch r a w)]|apply broken_touch; left; left; by exists r].
  set (free := active_or_quiescing e && negb (a_in_flight a) && negb (a_control_in_flight a)).
  assert (negb (active_or_quiescing e) || a_in_flight a || a_control_in_flight a = negb free) as ->
    by (unfold free; by destruct (active_or_quiescing e), (a_in_flight a), (a_control_in_flight a)).
  destruct free eqn:Hfree; cbn [negb].
  - pose proof (claim_loop_handed (S (length (a_queue a))) r a w Ha Hwf ltac:(lia)) as H.
    destruct (claim_loop _ r w) as [[o|err|] w']; [|done|by apply broken_touch]. exists e. fold free. rewrite Hfree. split; [done|]. by apply handed_touch, H.
  - unfold ret. exists e. fold free. rewrite Hfree. split; [done|]. split; [done|]. by apply (knows_touch r a w).
Qed.
Definition queued_at (w : World) : list N := match find_ref w sample_root with inr a => d_event_id <$> a_queue a | inl _ => [] end.
(** The first of two events expires while it is queued. *)
Definition two_sent : option World :=
  sample_run ≫= run_calls [
    CSend sample_root (Pulse 7) (default_options <| mo_deadline := Some 10%N |>); CSend sample_root (Pulse 8) default_options;
    CAdvanceClock 20].
Lemma two_fact {A} (f : World → A) (v : A) w : f <$> two_sent = Some v → two_sent = Some w → f w = v.
Proof. intros Hf Hw. rewrite Hw in Hf. by injection Hf. Qed.
Definition claimed_at (w : World) : option (N * list N) :=
  match claim sample_root w with (Ok (Some handle), w') => Some (handle, queued_at w') | _ => None end.
Lemma claim_in_order_witness :
  ∃ w a w', two_sent = Some w ∧ find_ref w sample_root = inr a ∧ (d_event_id <$> a_queue a) = [4%N; 5%N] ∧
    claim sample_root w = (Ok (Some 3%N), w') ∧ queued_at w' = [] ∧ handed sample_root a (Some 3%N) w w'.
Proof.
  destruct two_sent as [w|] eqn:Hw; [|vm_compute in Hw; discriminate]. exists w.
  assert (queued_at w = [4%N; 5%N]) as Hq by (apply (two_fact queued_at); [vm_compute; reflexivity|exact Hw]).
  assert (claimed_at w = Some (3%N, [])) as Hc by (apply (two_fact claimed_at); [vm_compute; reflexivity|exact Hw]).
  assert (Operations.new 1 (max_operations config_default) = inr (w_operations w)) as Hops
    by (symmetry; apply (two_fact (λ w, inr (w_operations w))); [vm_compute; reflexivity|exact Hw]).
  assert (execution_of w sample_root = Ok Lifecycle.Active) as He by (apply (two_fact (λ w, execution_of w sample_root)); [vm_compute; reflexivity|exact Hw]).
  unfold queued_at in Hq. destruct (find_ref w sample_root) as [|a] eqn:Ha; [discriminate|]. exists a.
  pose proof (claim_in_order sample_root w a Ha (new_wf _ _ _ Hops)) as Hclaim. unfold claimed_at in Hc.
  destruct (claim sample_root w) as [[[handle|]|e|] w'] eqn:Hrun; [|discriminate|discriminate|discriminate].
  injection Hc as -> Hq'. exists w'. split; [reflexivity|]. split; [reflexivity|]. split; [exact Hq|]. split; [reflexivity|].
  split; [exact Hq'|]. destruct Hclaim as (e & Hex & Hclaim). rewrite He in Hex. injection Hex as <-.
  destruct (_ && _) in Hclaim; [exact Hclaim|]. destruct Hclaim as [Hnone _]. discriminate.
Defined.

(** ** Sending *)

(** One delivery more at the end of the queue of [r]; every other actor as before. *)
Definition delivered (w0 : World) (r : ActorRef) (s : Stored) (id : N) (w : World) : Prop :=
  ∃ a a' d, find_ref w0 r = inr a ∧ find_ref w r = inr a' ∧ a_queue a' = a_queue a ++ [d] ∧
    d_event_id d = id ∧ d_payload d = s ∧ a_queue_bytes a' = (a_queue_bytes a + stored_bytes s)%N ∧
    (N.of_nat (length (a_queue a)) < mailbox_capacity (w_cfg w0))%N ∧ a_state a' = a_state a ∧
    ∀ slot, slot ≠ ar_slot r → actor_at w slot = actor_at w0 slot.
Definition alike (w w' : World) : Prop := unmoved w w' ∧ w_cfg w' = w_cfg w.
#[export] Instance alike_preorder : PreOrder alike.
Proof. split; [done|]. intros w1 w2 w3 [H1 E1] [H2 E2]. split; [by etrans|congruence]. Qed.
Lemma alike_framed {E A} x (m : M World E A) : framed x m → steps alike m.
Proof. intros Hm w. split; [split|]; apply (Hm w). Qed.
Lemma triple_alike {E A} w0 (m : M World E A) : steps alike m → triple (alike w0) m (λ _, alike w0) (alike w0).
Proof. intros Hm w Hw. specialize (Hm w). destruct (m w) as [[a|e|] w']; simpl in Hm; [by etrans..|done]. Qed.
Lemma triple_alike_bind {E A B} w0 Post (m : M World E A) (k : A → M World E B) :
  steps alike m → (∀ a, triple (alike w0) (k a) Post (alike w0)) → triple (alike w0) (bind m k) Post (alike w0).
Proof. intros Hm Hk. eapply triple_bind; [by apply triple_alike|done]. Qed.
Lemma alike_find_ref w w' r : alike w w' → find_ref w' r = find_ref w r.
Proof. intros [[Hid Ha] _]. unfold find_ref, actor_at. by rewrite Hid, Ha. Qed.
Lemma alike_event : steps alike next_event_id.
Proof. unfold next_event_id. intros w. unfold bind, get, ok_or, modify. by destruct (checked_add _ _ _). Qed.
Lemma triple_delivered {E A} w0 r s id (m : M World E A) Q :
  framed [] m → errless m → triple (delivered w0 r s id) m (λ _, delivered w0 r s id) Q.
Proof.
  intros Hm He. apply (triple_errless _ _ _ (λ _, True)); [done|]. intros w (a & a' & d & Ha & Ha' & H). specialize (Hm w).
  assert (delivered w0 r s id (m w).2) as Hd.
  { exists a, a', d. rewrite (frame_find_ref _ _ _ r Hm). split_and!; try apply H; try done.
    intros slot. rewrite (frame_actor_at _ _ _ slot Hm). apply H. }
  destruct (m w) as [[x|e|] w']; [exact Hd|exact I|done].
Qed.
#[local] Hint Resolve errless_refresh errless_marking : errless.
Lemma admit_delivers w0 r s sub completion operation :
  triple (alike w0) (admit_event r s sub completion operation) (λ id, delivered w0 r s id) (alike w0).
Proof.
  unfold admit_event. do 3 (apply triple_alike_bind; [apply (alike_framed []); steps|intros ?]).
  apply triple_alike_bind; [apply alike_event|intros id].
  apply triple_get. intros w1 Hw1. pose proof (proj2 Hw1) as Hcfg.
  eapply triple_conseq; [|intros w ->; exact Hw1|done|done].
  do 2 (apply triple_alike_bind; [apply (alike_framed []); steps|intros ?]).
  apply triple_check_ref; [done|]. intros b.
  do 3 (apply triple_reject; [by intros w []|intros ?]).
  match goal with |- context [update_slot _ ?f] => set (g := f) end.
  eapply (triple_bind _ (λ _, delivered w0 r s id)).
  - intros w [Hb Hw]. rewrite (alike_find_ref _ _ _ Hw) in Hb. exists b, (g b).
    eexists. split; [done|]. split; [apply knows_set; [|done]; unfold knows; by rewrite (alike_find_ref _ _ _ Hw)|].
    split; [reflexivity|]. split; [done|]. split; [done|]. split; [done|]. split; [|split; [done|]].
    + rewrite <- Hcfg. lia.
    + intros slot Hne. unfold update_slot. unfold modify. rewrite actor_at_set_slot_ne by done. unfold actor_at. by rewrite (proj2 (proj1 Hw)).
  - intros ?. do 4 (eapply triple_bind; [apply triple_delivered; [steps|unfold count, mark_activity_dependents; errless]|intros ?]).
    by apply triple_ret.
Qed.
Lemma make_stored_alike p options dispatcher :
  returns (make_stored_with p options dispatcher) (λ s, stored_payload s = p) ∧ steps alike (make_stored_with p options dispatcher).
Proof.
  unfold make_stored_with. split.
  - repeat (apply returns_bind; intros ?). by apply returns_ret.
  - do 7 (apply (steps_bind _); [apply (alike_framed []); steps|intros ?]).
    apply (steps_bind _); [intros w; by split|intros ?]. apply (alike_framed []). steps.
Qed.

Lemma triple_alike_reject {A} w0 Post actor (m : WM A) :
  triple (alike w0) m Post (alike w0) → triple (alike w0) (or_reject actor m) Post (alike w0).
Proof.
  intros Hm. unfold or_reject. eapply (triple_bind _ (λ o w, match o with inr a => Post a w | inl _ => alike w0 w end)).
  - apply triple_try. by eapply triple_conseq; [apply Hm|..].
  - intros [e|a]; [|by apply triple_ret]. cbv beta iota. apply triple_alike_bind; [apply (alike_framed []); steps|].
    intros ?. by apply triple_fail.
Qed.

(** C17. A send is all or nothing: it returns the identity of one delivery of the
    payload at the end of the target's queue, which had room, every other actor
    being as before; or it returns an error and no actor is changed. *)
Theorem send_exact r p options w :
  match send_with r p options w with
  | (Ok id, w') => ∃ s, stored_payload s = p ∧ delivered w r s id w'
  | (Err _, w') => w_actors w' = w_actors w
  | (Panic, _) => True
  end.
Proof.
  assert (triple (alike w) (send_with r p options) (λ id w', ∃ s, stored_payload s = p ∧ delivered w r s id w') (alike w)) as H.
  { unfold send_with. apply triple_alike_bind; [apply (alike_framed []), framed_submitted|intros _].
    eapply (triple_bind _ (λ s w', stored_payload s = p ∧ alike w w')).
    - apply triple_alike_reject. destruct (make_stored_alike p options None) as [Hret Hal].
      by apply triple_returns, triple_alike.
    - intros s. apply triple_pure. intros Hs.
      eapply (triple_bind _ (λ id, delivered w r s id)); [by apply triple_alike_reject, admit_delivers|]. intros id.
      eapply (triple_bind _ (λ _, delivered w r s id)); [apply triple_delivered; [steps|apply errless_touch]|].
      intros ?. apply triple_ret. eauto. }
  assert (alike w w) as Hw by done. specialize (H w Hw). destruct (send_with r p options w) as [[id|e|] w']; [done|apply H|done].
Qed.
