(* ===== verification/Submissions.v ===== *)
(** * Submitting a publication

    [submit_publication_locked] of [publications.rs] in a World: a publication that is
    admitted enters the table, and the staging area of a source that has not started,
    exactly once; one that is refused gives its ticket and its permit back and leaves
    nothing behind but the identity it had drawn. *)
From S2P Require Import Prelude Collections Text Types Metadata Schema Routing Expiry Readiness Operations.
From S2P Require Import Diagnostics Publications PublicationRuns SchemaRegistry Activity WorldState Admission Publishing Actors.
From S2P Require Import Messaging Components Steps WorldFrames WorldSteps ActorSteps MessageSteps WorldRuns Deliveries.

(** ** The table's part *)

(** A ticket with [n] handles, and its permit. *)
Definition ticketed (source : ActorRef) (staged : bool) (n : N) (t : PublicationTable) : PublicationTable :=
  t <| pt_total ::= N.succ |> <| pt_counts ::= cnt_add source |>
    <| pt_tickets ::= <[pt_next_id t := MkTicket source (if staged then PStaged else PQueued) n]> |>
    <| pt_next_id := (pt_next_id t + 1)%N |>.
(** The limits that [reserve] checks. *)
Definition no_permit (source : ActorRef) (t : PublicationTable) : bool :=
  (pt_limit t <=? pt_total t)%N || (pt_per_source t <=? cnt_get source (pt_counts t))%N.
Definition reserve_refused (source : ActorRef) (t : PublicationTable) (e : error) : Prop :=
  (u64_max ≤ pt_next_id t)%N ∧ e = Error.LimitExceeded ∨
  (pt_next_id t < u64_max)%N ∧ no_permit source t = true ∧ e = Error.QueueFull.
Lemma reserve_runs source staged t :
  (∃ e, Publications.reserve source staged t = (Err e, t) ∧ reserve_refused source t e) ∨
  (Publications.reserve source staged t = (Ok (pt_next_id t), ticketed source staged 1 t) ∧
   (pt_next_id t < u64_max)%N ∧ no_permit source t = false).
Proof.
  unfold Publications.reserve, bind, get, ok_or, checked_add, reserve_refused. case_decide as Hid; simpl.
  - fold (no_permit source t). unfold reject_if. destruct (no_permit source t); simpl.
    + left. eexists. split; [done|]. right. split; [lia|done].
    + right. split; [done|]. split; [lia|done].
  - left. eexists. split; [done|]. left. split; [lia|done].
Qed.
(** The identity drawn is fresh. *)
Lemma next_fresh held t : pt_wf held t →
  pt_tickets t !! pt_next_id t = None ∧ pt_entries t !! pt_next_id t = None ∧ pt_next_id t ∉ held.
Proof.
  intros [Hc _].
  assert (pt_tickets t !! pt_next_id t = None) as Hnone.
  { destruct (pt_tickets t !! pt_next_id t) as [ts|] eqn:Hts; [|done]. apply (pc_ticket _ _ _ Hc) in Hts as (? & _). lia. }
  split_and!; [done| |].
  - destruct (pt_entries t !! pt_next_id t) as [p|] eqn:Hp; [|done].
    apply (pc_entry_ticket _ _ _ Hc) in Hp as (ts & ? & _). congruence.
  - intros Hin. apply (pc_held _ _ _ Hc) in Hin as [ts ?]. congruence.
Qed.
Lemma pub_table_eq t t' :
  pt_entries t = pt_entries t' → pt_by_source t = pt_by_source t' → pt_ready t = pt_ready t' →
  pt_ready_set t = pt_ready_set t' → pt_deadlines t = pt_deadlines t' → pt_next_id t = pt_next_id t' →
  pt_limit t = pt_limit t' → pt_per_source t = pt_per_source t' → pt_total t = pt_total t' →
  pt_counts t = pt_counts t' → pt_snapshot_entries t = pt_snapshot_entries t' → pt_tickets t = pt_tickets t' → t = t'.
Proof. destruct t, t'. simpl. by intros -> -> -> -> -> -> -> -> -> -> -> ->. Qed.
(** The table without the ticket and the permit: only the identity is spent. *)
Lemma drop_ticketed held source staged t : pt_wf held t →
  Publications.drop_ticket (pt_next_id t) (ticketed source staged 1 t) =
    (Ok tt, t <| pt_next_id := (pt_next_id t + 1)%N |>).
Proof.
  intros Hwf. destruct (next_fresh _ _ Hwf) as (Hnone & _ & _). destruct Hwf as [Hc _].
  unfold Publications.drop_ticket, bind, get, expect, ticketed. simpl. rewrite lookup_insert_eq. simpl.
  unfold modify, ret, Publications.drop_permit, bind, decr, get, expect. simpl. rewrite decide_False by lia. simpl.
  unfold cnt_sub, cnt_add. rewrite lookup_insert_eq. simpl.
  assert ((if decide (cnt_get source (pt_counts t) + 1 - 1 = 0)%N
           then delete source (<[source := (cnt_get source (pt_counts t) + 1)%N]> (pt_counts t))
           else <[source := (cnt_get source (pt_counts t) + 1 - 1)%N]> (<[source := (cnt_get source (pt_counts t) + 1)%N]> (pt_counts t)))
          = pt_counts t) as ->.
  { rewrite N.add_sub. pose proof (pc_counts _ _ _ Hc source) as Hcnt. unfold cnt_get in *. simpl in Hcnt.
    destruct (pt_counts t !! source) as [n|] eqn:Hn; simpl.
    - destruct (decide (tickets_of source (pt_tickets t) = 0%N)); simplify_eq. rewrite decide_False by done.
      rewrite insert_insert_eq. by apply insert_id.
    - by rewrite delete_insert_id. }
  clear Hc. unfold modify. f_equal. apply pub_table_eq; simpl; try done; [lia|by rewrite delete_insert_id].
Qed.
Lemma spent_wf held source t : pt_wf held t → no_permit source t = false → (pt_next_id t < u64_max)%N →
  pt_wf held (t <| pt_next_id := (pt_next_id t + 1)%N |>).
Proof.
  intros Hwf Hroom Hnext. destruct (submit_spec held source None (inl Error.QueueFull) false false t Hwf) as
    [(e & t' & Hrun & Hwf' & _)|(stored' & t' & Hf & _)]; [|done]. unfold submit, bind in Hrun.
  destruct (reserve_runs source false t) as [(e' & _ & [(Hf & _)|(_ & Hf & _)])|(Hres & _)]; [lia|congruence|].
  rewrite Hres, (drop_ticketed _ _ _ _ Hwf) in Hrun. unfold fail in Hrun. injection Hrun as _ <-. done.
Qed.
(** [p] has entered the table, with its ticket, which the caller holds too. *)
Record entered (held : list N) (p : Publication) (t t' : PublicationTable) : Prop := {
  en_id : pub_ticket p = pt_next_id t;
  en_fresh : pt_tickets t !! pub_ticket p = None ∧ pt_entries t !! pub_ticket p = None ∧ pub_ticket p ∉ held;
  en_entries : pt_entries t' = <[pub_ticket p := p]> (pt_entries t);
  en_queues s : Publications.queue_of t' s =
    Publications.queue_of t s ++ (if decide (s = pub_source p) then [pub_ticket p] else []);
  en_tickets : pt_tickets t' =
    <[pub_ticket p := MkTicket (pub_source p) (if pub_staged p then PStaged else PQueued) 2]> (pt_tickets t);
  en_next : pt_next_id t' = (pt_next_id t + 1)%N;
  en_total : pt_total t' = (pt_total t + 1)%N;
  en_counts : pt_counts t' = cnt_add (pub_source p) (pt_counts t);
  en_submit : submit (pub_source p) (pub_source_port p) (inr (pub_stored p)) (pub_staged p) (pub_completion p) t =
    (Ok (pub_ticket p), t');
  en_wf : pt_wf (pub_ticket p :: held) t' }.
Lemma entered_insert held source port stored staged completion t :
  pt_wf held t → no_permit source t = false → (pt_next_id t < u64_max)%N →
  let p := new_publication source port stored staged completion (pt_next_id t) in
  ∃ t1, Publications.clone_ticket (pt_next_id t) (ticketed source staged 1 t) = (Ok tt, t1) ∧
    entered held p t (Publications.insert p t1).
Proof.
  intros Hwf Hroom Hnext p. destruct (next_fresh _ _ Hwf) as (Hnt & Hne & Hnh).
  eexists. split; [apply clone_ticket_run; simpl; apply lookup_insert_eq|]. set (t1 := update_ticket _ _ _).
  assert (Publications.insert p t1 = Publications.ready_source source (queued p t1)) as Hins by done.
  destruct (ready_source_fields source (queued p t1)) as (He & Hb & _ & Hn & _ & _ & Htot & Hc & _ & Htk).
  destruct (queued_fields p t1) as (He' & Hb' & _ & _ & _ & Hn' & _ & _ & Htot' & Hc' & _ & Htk').
  rewrite Hins. split; rewrite ?He, ?He', ?Hn, ?Hn', ?Htot, ?Htot', ?Hc, ?Hc', ?Htk, ?Htk'; try done.
  - intros s. unfold Publications.queue_of. rewrite Hb, Hb'. simpl. case_decide as Hs; subst.
    + by rewrite lookup_insert_eq.
    + by rewrite lookup_insert_ne, app_nil_r.
  - simpl. by rewrite insert_insert_eq.
  - simpl. lia.
  - simpl. unfold submit, bind. destruct (reserve_runs source staged t) as [(e' & _ & [(Hf & _)|(_ & Hf & _)])|(Hres & _)]; [lia|congruence|].
    by rewrite Hres, (clone_ticket_run _ _ (MkTicket source (if staged then PStaged else PQueued) 1)) by (simpl; apply lookup_insert_eq).
  - destruct (submit_spec held source port (inr stored) staged completion t Hwf) as
      [(e & t' & Hrun & _)|(stored' & t' & _ & Hrun & Hwf' & _)]; unfold submit, bind in Hrun;
      destruct (reserve_runs source staged t) as [(e' & Hres & [(Hf & _)|(_ & Hf & _)])|(Hres & _)]; try lia; try congruence;
      rewrite Hres, (clone_ticket_run _ _ (MkTicket source (if staged then PStaged else PQueued) 1)) in Hrun
        by (simpl; apply lookup_insert_eq); [done|].
    injection Hrun as <-. exact Hwf'.
Qed.

(** ** The payload *)
Lemma reject_bind {S E A} c (e : E) (k : unit → M S E A) s : bind (reject_if c e) k s = if c then (Err e, s) else k tt s.
Proof. by destruct c. Qed.
Lemma ok_or_bind {S E A B} (e : E) (o : option A) (k : A → M S E B) s :
  bind (ok_or e o) k s = match o with Some a => k a s | None => (Err e, s) end.
Proof. by destruct o. Qed.
Lemma get_bind {S E B} (k : S → M S E B) s : bind get k s = k s s.
Proof. done. Qed.
Lemma reserve_bind {A} n (k : unit → WM A) w :
  bind (reserve_bytes n) k w =
    if (saturating_sub (native_payload_budget (w_cfg w)) (retained_bytes w) <? n)%N then (Err Error.BudgetExceeded, w) else k tt w.
Proof. unfold reserve_bytes, bind, get, reject_if. by destruct (_ <? _)%N. Qed.
Ltac guards := rewrite ?get_bind, ?reject_bind, ?ok_or_bind, ?reserve_bind; match goal with |- context [if ?c then (Err _, _) else _] => destruct c | |- context [match checked_add ?m ?a ?b with _ => _ end] => destruct (checked_add m a b) end.
Lemma make_stored_runs p options dispatcher w :
  (∃ e, make_stored_with p options dispatcher w = (Err e, w)) ∨
  (∃ s, make_stored_with p options dispatcher w = (Ok s, w <| w_next_stored ::= N.succ |>) ∧
     stored_payload s = p ∧ stored_options s = options).
Proof.
  unfold make_stored_with. do 3 (guards; [left; by eexists|]). guards; [|left; by eexists].
  do 2 (guards; [left; by eexists|]). right. eexists. by split_and!.
Qed.
Definition with_table (t : PublicationTable) (w : World) : World := w <| w_publications := t |>.
Lemma retained_with_table t w : pt_entries t = pt_entries (w_publications w) → retained_bytes (with_table t w) = retained_bytes w.
Proof. intros He. unfold retained_bytes, live_payloads, reachable. simpl. by rewrite He. Qed.
(** The copy of the payload does not depend on the tickets. *)
Lemma make_stored_with_table p options dispatcher t w :
  pt_entries t = pt_entries (w_publications w) →
  (make_stored_with p options dispatcher (with_table t w)).1 = (make_stored_with p options dispatcher w).1.
Proof.
  intros He%retained_with_table. unfold make_stored_with. rewrite !get_bind.
  change (w_id (with_table t w)) with (w_id w). change (w_cfg (with_table t w)) with (w_cfg w).
  rewrite !reject_bind. do 3 (match goal with |- context [if ?c then (Err _, _) else _] => destruct c; [done|] end).
  rewrite !ok_or_bind. destruct (checked_add _ _ _); [|done].
  rewrite !reject_bind. match goal with |- context [if ?c then (Err _, _) else _] => destruct c; [done|] end.
  rewrite !reserve_bind, He. simpl. by destruct (_ <? _)%N.
Qed.
Lemma with_table_twice t t' w : with_table t (with_table t' w) = with_table t w.
Proof. by destruct w. Qed.
Lemma with_table_stored t t' w :
  with_table t ((with_table t' w) <| w_next_stored ::= N.succ |>) = (with_table t w) <| w_next_stored ::= N.succ |>.
Proof. by destruct w. Qed.

(** ** A submission *)

(** The staging area of a source that has not started has no room. *)
Definition staging_full (cfg : Config) (a : Actor) (s : Stored) : bool :=
  (mailbox_capacity cfg <=? N.of_nat (length (a_staged a)))%N ||
  (saturating_sub (mailbox_bytes cfg) (a_staged_bytes a) <? stored_bytes s)%N.
Definition staged_source (l : lifecycle) : bool := bool_decide (l = Lifecycle.Starting).
Section submission.
Context (source : ActorRef) (port : option N) (payload : Payload) (options : MessageOptions) (completion : bool).
(** What the World makes of the payload. *)
Definition copied (w : World) : outcome error Stored :=
  (make_stored_with payload options ((λ index, MkPortRef source index) <$> port) w).1.
(** Only the identity is spent. *)
Definition spent (w : World) : World :=
  with_table ((w_publications w) <| pt_next_id := (pt_next_id (w_publications w) + 1)%N |>) w.
Definition has_permit (w : World) : Prop :=
  no_permit source (w_publications w) = false ∧ (pt_next_id (w_publications w) < u64_max)%N.
Inductive refused (w : World) (e : error) : World → Prop :=
| refused_source : execution_of w source = Err e → refused w e w
| refused_permit l : execution_of w source = Ok l → reserve_refused source (w_publications w) e → refused w e w
| refused_payload l : execution_of w source = Ok l → has_permit w → copied w = Err e → refused w e (spent w)
| refused_staging s a :
    execution_of w source = Ok Lifecycle.Starting → has_permit w → copied w = Ok s → find_ref w source = inr a →
    staging_full (w_cfg w) a s = true → e = Error.QueueFull → refused w e ((spent w) <| w_next_stored ::= N.succ |>).
(** The event waits in the staging area of its source, or no actor is touched. *)
Definition staged_in (s : Stored) (id : N) (w w' : World) : Prop :=
  ∃ a a' index, port = Some index ∧ find_ref w source = inr a ∧ find_ref w' source = inr a' ∧
    staging_full (w_cfg w) a s = false ∧
    a_staged a' = a_staged a ++ [(index, s, id)] ∧ a_staged_bytes a' = (a_staged_bytes a + stored_bytes s)%N ∧
    a_queue a' = a_queue a ∧ a_state a' = a_state a ∧
    w_id w' = w_id w ∧ ∀ slot, slot ≠ ar_slot source → actor_at w' slot = actor_at w slot.
Definition admitted (held : list N) (w : World) (id : N) (w' : World) : Prop :=
  ∃ l s, execution_of w source = Ok l ∧ has_permit w ∧ copied w = Ok s ∧ stored_payload s = payload ∧ stored_options s = options ∧
    id = pt_next_id (w_publications w) ∧
    entered held (new_publication source port s (staged_source l) completion id) (w_publications w) (w_publications w') ∧
    if staged_source l then staged_in s id w w' else w_actors w' = w_actors w.

(** The parts of the method: staging, and what follows it. *)
Definition stage (stored : Stored) (ticket : N) : WM unit :=
  let! w := get in
  let! actor := check_ref source in
  reject_if ((mailbox_capacity (w_cfg w) <=? N.of_nat (length (a_staged actor)))%N ||
             (saturating_sub (mailbox_bytes (w_cfg w)) (a_staged_bytes actor) <? stored_bytes stored)%N)
    Error.QueueFull ;;;
  let deadlines := ActorDeadlines.add (mo_deadline (stored_options stored)) (a_deadlines actor) in
  let! port := expect port in
  update_slot (ar_slot source) (λ a,
    a <| a_staged_bytes ::= λ n, (n + stored_bytes stored)%N |>
      <| a_deadlines := deadlines |>
      <| a_staged ::= λ l, l ++ [(port, stored, ticket)] |>) ;;;
  modify (λ w, w <| w_event_deadlines ::= DeadlineIdx.set source (ActorDeadlines.first deadlines) |>
                 <| w_staged_actors ::= <[ar_slot source := source]> |>).
Definition enter (p : Publication) : WM N :=
  publications (Publications.clone_ticket (pub_ticket p)) ;;;
  publications (modify (Publications.insert p)) ;;;
  count (λ m, m <| m_publication_admitted ::= N.succ |>) ;;;
  mark_activity_dependents source ;;;
  (if pub_staged p then ret tt else mark_routing) ;;;
  ret (pub_ticket p).
Lemma submit_parts w l : execution_of w source = Ok l →
  submit_publication source port payload options completion w =
  bind (publications (Publications.reserve source (staged_source l))) (λ ticket,
    drop_ticket_on_error ticket (
      let! stored := make_stored_with payload options ((λ index, MkPortRef source index) <$> port) in
      (if staged_source l then stage stored ticket else ret tt) ;;;
      enter (new_publication source port stored (staged_source l) completion ticket))) w.
Proof. intros Hl. unfold submit_publication, bind at 1, execution_state. by rewrite Hl. Qed.

Lemma drop_on_error {A} held staged t (m : WM A) w1 w2 e :
  pt_wf held t → m w1 = (Err e, w2) → w_publications w2 = ticketed source staged 1 t →
  drop_ticket_on_error (pt_next_id t) m w1 = (Err e, with_table (t <| pt_next_id := (pt_next_id t + 1)%N |>) w2).
Proof.
  intros Hwf Hm Ht. unfold drop_ticket_on_error, bind, try_. rewrite Hm. unfold publications, zoom.
  by rewrite Ht, (drop_ticketed _ _ _ _ Hwf).
Qed.
Lemma drop_on_other {A} id (m : WM A) w : (∀ e w', m w ≠ (Err e, w')) → drop_ticket_on_error id m w = m w.
Proof.
  intros Hm. unfold drop_ticket_on_error, bind, try_. specialize (λ e w', Hm e w').
  destruct (m w) as [[a|e|] w']; [done|by destruct (Hm e w')|done].
Qed.
(** A publication enters a table that has its ticket. *)
Lemma enter_runs held t w stored staged :
  pt_wf held t → no_permit source t = false → (pt_next_id t < u64_max)%N → w_publications w = ticketed source staged 1 t →
  let p := new_publication source port stored staged completion (pt_next_id t) in
  match enter p w with
  | (Ok id, w') => id = pt_next_id t ∧ entered held p t (w_publications w') ∧ w_actors w' = w_actors w ∧ w_id w' = w_id w
  | (Err _, _) => False
  | (Panic, w') => (mark_activity_dependents source w').1 = Panic
  end.
Proof.
  intros Hwf Hroom Hnext Ht p. destruct (entered_insert held source port stored staged completion t Hwf Hroom Hnext) as (t1 & Hclone & Hin).
  unfold enter, publications, bind at 1, zoom at 1. rewrite Ht. change (pub_ticket p) with (pt_next_id t). rewrite Hclone.
  unfold bind at 1, zoom, modify at 1. unfold bind at 1, count, modify at 1. set (w1 := _ <| w_metrics ::= _ |>).
  assert (w_publications w1 = Publications.insert p t1 ∧ w_actors w1 = w_actors w ∧ w_id w1 = w_id w) as (Hp1 & Ha1 & Hi1) by done.
  clearbody w1. unfold bind at 1. destruct (mark_activity_dependents source w1) as [[[]|e|] w2] eqn:Hm.
  - assert (w_publications w2 = w_publications w1 ∧ w_actors w2 = w_actors w1 ∧ w_id w2 = w_id w1) as (Hp2 & Ha2 & Hi2).
    { unfold mark_activity_dependents, marking in Hm. destruct (mark_dependents _ _ _ _); [|done]. by injection Hm as <-. }
    assert (∀ w', w_publications w' = w_publications w2 → w_actors w' = w_actors w2 → w_id w' = w_id w2 →
      pt_next_id t = pt_next_id t ∧ entered held p t (w_publications w') ∧ w_actors w' = w_actors w ∧ w_id w' = w_id w) as Hdone.
    { intros w' Hp' Ha' Hi'. split_and!; [done| |congruence..]. by rewrite Hp', Hp2, Hp1. }
    unfold bind. change (pub_staged p) with staged. destruct staged; by apply Hdone.
  - unfold mark_activity_dependents, marking in Hm. by destruct (mark_dependents _ _ _ _).
  - assert (w2 = w1) as -> by (unfold mark_activity_dependents, marking in Hm; destruct (mark_dependents _ _ _ _); by simplify_eq).
    by rewrite Hm.
Qed.
Lemma stage_runs s id w a : find_ref w source = inr a →
  match stage s id w with
  | (Ok _, w') => staged_in s id w w' ∧ w_publications w' = w_publications w
  | (Err e, w') => staging_full (w_cfg w) a s = true ∧ e = Error.QueueFull ∧ w' = w
  | (Panic, _) => port = None
  end.
Proof.
  intros Ha. unfold stage. rewrite get_bind. unfold bind at 1, check_ref. rewrite Ha, reject_bind. fold (staging_full (w_cfg w) a s).
  destruct (staging_full (w_cfg w) a s) eqn:Hfull; [done|]. destruct port as [index|] eqn:Hport; [|done].
  cbn [expect]. unfold bind, ret, update_slot, modify. set (f := λ a : Actor, _). split; [|done].
  exists a, (f a), index. split_and!; try done; [by apply (knows_set source a)|].
  intros slot Hne. by apply (actor_at_set_slot_ne (ar_slot source) slot f w).
Qed.
Lemma staged_in_actors s id w w1 w2 : staged_in s id w w1 → w_actors w2 = w_actors w1 → w_id w2 = w_id w1 → staged_in s id w w2.
Proof.
  intros (a & a' & index & Hport & Ha & Ha' & H) Hact Hid. exists a, a', index.
  assert (∀ slot, actor_at w2 slot = actor_at w1 slot) as Hat by (intros slot; unfold actor_at; by rewrite Hact).
  split_and!; try done; try apply H; [unfold find_ref in *; by rewrite Hid, Hat|rewrite Hid; apply H|].
  intros slot Hne. rewrite Hat. by apply H.
Qed.
(** On the table a refusal is none, or a refused [submit]. *)
Lemma refused_table held w e w' : pt_wf held (w_publications w) → refused w e w' →
  w_publications w' = w_publications w ∨
  submit source port (inl e) false completion (w_publications w) = (Err e, w_publications w').
Proof.
  intros Hwf Href. assert (has_permit w → submit source port (inl e) false completion (w_publications w) =
    (Err e, w_publications (spent w))) as Hspent.
  { intros [Hroom Hnext]. unfold submit, bind.
    destruct (reserve_runs source false (w_publications w)) as [(e' & _ & [(Hf & _)|(_ & Hf & _)])|(Hres & _)]; [lia|congruence|].
    by rewrite Hres, (drop_ticketed _ _ _ _ Hwf). }
  destruct Href; auto.
Qed.
Lemma execution_find w l : execution_of w source = Ok l → ∃ a, find_ref w source = inr a.
Proof. unfold execution_of. destruct (find_ref w source); [done|by eexists]. Qed.
Lemma admitted_enter held w l s w3 :
  pt_wf held (w_publications w) → has_permit w → execution_of w source = Ok l → copied w = Ok s →
  stored_payload s = payload → stored_options s = options →
  w_publications w3 = ticketed source (staged_source l) 1 (w_publications w) → w_id w3 = w_id w →
  (if staged_source l then staged_in s (pt_next_id (w_publications w)) w w3 else w_actors w3 = w_actors w) →
  match enter (new_publication source port s (staged_source l) completion (pt_next_id (w_publications w))) w3 with
  | (Ok id, w') => admitted held w id w'
  | (Err _, _) => False
  | (Panic, w') => (mark_activity_dependents source w').1 = Panic
  end.
Proof.
  intros Hwf Hpermit He Hcopy Hpay Hopt Ht3 Hid Hstaged. pose proof Hpermit as [Hroom Hnext].
  pose proof (enter_runs held _ w3 s (staged_source l) Hwf Hroom Hnext Ht3) as Hrun. cbv zeta in Hrun.
  destruct (enter _ w3) as [[id|e|] w']; [|done..]. destruct Hrun as (-> & Hin & Hact & Hid').
  exists l, s. split_and!; try done. destruct (staged_source l); [|congruence]. by apply (staged_in_actors _ _ _ w3).
Qed.
(** How a submission ends. *)
Definition submission_over (held : list N) (w : World) (x : outcome error N * World) : Prop :=
  match x with
  | (Ok id, w') => admitted held w id w'
  | (Err e, w') => refused w e w' ∧ pt_wf held (w_publications w') ∧ retained_bytes w' = retained_bytes w
  | (Panic, w') => execution_of w source = Panic ∨ (execution_of w source = Ok Lifecycle.Starting ∧ port = None) ∨
      (mark_activity_dependents source w').1 = Panic
  end.

(** C30. Admission to the publication table is exact, whatever the state of the World.  A
    submission that succeeds had a source that executes, a permit, room in the staging
    area if the source has not started, and a payload the World accepted; it returns a
    fresh identity, and has put the publication, with that payload and these options, at
    the end of its source's queue with a ticket of two handles and one permit, and, for a
    source that has not started, the event at the end of its staging area, where it is
    charged; no other actor has changed.  A submission that fails has the reason the
    source finds first, and leaves the World as it was: no ticket, permit, publication or
    byte stays behind, only the identity it drew is spent, and the table is still well
    formed.  It panics only when the source's execution state cannot be computed, a staged
    publication has no port, or the activity of the source cannot be marked. *)
Theorem submit_publication_exact held w :
  pt_wf held (w_publications w) →
  match submit_publication source port payload options completion w with
  | (Ok id, w') => admitted held w id w'
  | (Err e, w') => refused w e w' ∧ pt_wf held (w_publications w') ∧ retained_bytes w' = retained_bytes w
  | (Panic, w') => execution_of w source = Panic ∨ (execution_of w source = Ok Lifecycle.Starting ∧ port = None) ∨
      (mark_activity_dependents source w').1 = Panic
  end.
Proof.
  change (pt_wf held (w_publications w) → submission_over held w (submit_publication source port payload options completion w)).
  intros Hwf. destruct (execution_of w source) as [l|e|] eqn:He;
    [|by unfold submit_publication, bind, execution_state; rewrite He; split; [apply refused_source|]|
      by unfold submit_publication, bind, execution_state; rewrite He; left].
  rewrite (submit_parts w l He). unfold bind at 1, publications at 1, zoom. fold (with_table (w_publications w) w).
  destruct (reserve_runs source (staged_source l) (w_publications w)) as [(e & -> & Href)|(-> & Hnext & Hroom)].
  { assert (w <| w_publications := w_publications w |> = w) as -> by (by destruct w). split; [by eapply refused_permit|done]. }
  set (t := w_publications w) in *. set (w1 := with_table (ticketed source (staged_source l) 1 t) w).
  match goal with |- context [drop_ticket_on_error _ ?m _] => set (rest := m) end.
  change (w <| w_publications := ticketed source (staged_source l) 1 t |>) with w1.
  assert (∀ e w2, rest w1 = (Err e, w2) → w_publications w2 = ticketed source (staged_source l) 1 t →
    drop_ticket_on_error (pt_next_id t) rest w1 = (Err e, with_table (t <| pt_next_id := (pt_next_id t + 1)%N |>) w2)) as Hfail
    by (intros e w2 Hm Ht; by apply (drop_on_error held (staged_source l))).
  pose proof (spent_wf held source t Hwf Hroom Hnext) as Hspent.
  pose proof (make_stored_with_table payload options ((λ index, MkPortRef source index) <$> port) (ticketed source (staged_source l) 1 t) w eq_refl) as Hcopy.
  fold (copied w) w1 in Hcopy.
  destruct (make_stored_runs payload options ((λ index, MkPortRef source index) <$> port) w1) as [(e & Hmake)|(s & Hmake & Hpay & Hopt)];
    rewrite Hmake in Hcopy; simpl in Hcopy.
  { rewrite (Hfail e w1); [|unfold rest, bind; by rewrite Hmake|done]. unfold w1. rewrite with_table_twice.
    unfold submission_over; split_and!; [by eapply refused_payload|done|by apply retained_with_table]. }
  destruct (execution_find w l He) as [a Ha]. set (w2 := w1 <| w_next_stored ::= N.succ |>) in Hmake.
  set (p := new_publication source port s (staged_source l) completion (pt_next_id t)).
  assert (∀ w3, w_publications w3 = w_publications w2 →
    (if staged_source l then staged_in s (pt_next_id t) w w3 else w_actors w3 = w_actors w) → w_id w3 = w_id w →
    rest w1 = enter p w3 → submission_over held w (drop_ticket_on_error (pt_next_id t) rest w1)) as Henter.
  { intros w3 Ht3 Hstaged Hid Hrest. pose proof (admitted_enter held w l s w3) as Hrun. fold t p in Hrun.
    rewrite <- Hrest in Hrun. rewrite drop_on_other.
    - destruct (rest w1) as [[id|e|] w']; [by apply Hrun|by destruct Hrun|right; right; by apply Hrun].
    - intros e w' Hf. rewrite Hf in Hrun. by destruct Hrun. }
  destruct (staged_source l) eqn:Hl.
  - apply bool_decide_eq_true in Hl as ->.
    pose proof (stage_runs s (pt_next_id t) w2 a Ha) as Hstage.
    assert (rest w1 = bind (stage s (pt_next_id t)) (λ _, enter p) w2) as Hrest by (unfold rest, bind at 1; by rewrite Hmake).
    unfold bind in Hrest. destruct (stage s (pt_next_id t) w2) as [[[]|e|] w3].
    + destruct Hstage as [Hst Ht3]. assert (w_id w3 = w_id w) as Hid by (by destruct Hst as (? & ? & ? & ? & ? & ? & ? & ? & ? & ? & ? & ? & _)).
      exact (Henter w3 Ht3 Hst Hid Hrest).
    + destruct Hstage as (Hfull & -> & ->). rewrite (Hfail _ _ Hrest) by done. unfold w2, w1.
      rewrite with_table_stored. unfold submission_over; split_and!; [by eapply refused_staging|done|]. by apply retained_with_table.
    + rewrite drop_on_other by (intros e w'; by rewrite Hrest). rewrite Hrest. right. left. by split.
  - specialize (Henter w2 eq_refl eq_refl eq_refl). assert (rest w1 = enter p w2) as Hrest by (unfold rest, bind at 1; by rewrite Hmake).
    exact (Henter Hrest).
Qed.
End submission.
(** A source that has not started: its first event is staged. *)
Definition starting_world : option World :=
  match with_clock 1 config_default (Clocks.manual_at 0) with
  | Ok w => run_calls [CAllocate EndpointKind.Native None] w
  | _ => None
  end.
Definition staged_count (w : World) : option (lifecycle * nat) :=
  match execution_of w sample_root, find_ref w sample_root with Ok l, inr a => Some (l, length (a_staged a)) | _, _ => None end.
Definition submitted_at (w : World) : option (N * option (lifecycle * nat)) :=
  match submit_publication sample_root (Some 0%N) (Pulse 5) default_options false w with
  | (Ok id, w') => Some (id, staged_count w')
  | _ => None
  end.
Lemma submit_publication_exact_witness :
  ∃ w w', starting_world = Some w ∧ staged_count w = Some (Lifecycle.Starting, 0) ∧
    submit_publication sample_root (Some 0%N) (Pulse 5) default_options false w = (Ok 1%N, w') ∧
    staged_count w' = Some (Lifecycle.Starting, 1) ∧
    admitted sample_root (Some 0%N) (Pulse 5) default_options false [] w 1 w'.
Proof.
  assert (match starting_world with
          | Some w => staged_count w = Some (Lifecycle.Starting, 0) ∧ submitted_at w = Some (1%N, Some (Lifecycle.Starting, 1)) ∧
              w_publications w = Publications.new (max_publications config_default) (max_publications_per_source config_default)
          | None => False
          end) as Hrun by (vm_compute; split; [reflexivity|split; reflexivity]).
  destruct starting_world as [w|]; [|contradiction]. destruct Hrun as (Hstaged & Hsub & Htable). exists w.
  pose proof (new_pt_wf (max_publications config_default) (max_publications_per_source config_default)) as Hwf. rewrite <- Htable in Hwf.
  pose proof (submit_publication_exact sample_root (Some 0%N) (Pulse 5) default_options false [] w Hwf) as H. unfold submitted_at in Hsub.
  destruct (submit_publication sample_root (Some 0%N) (Pulse 5) default_options false w) as [[id|e|] w']; [|discriminate|discriminate].
  injection Hsub as Hid Hcount. subst id. exists w'. split; [reflexivity|]. split; [exact Hstaged|]. split; [reflexivity|].
  split; [exact Hcount|exact H].
Defined.
