(* ===== verification/Framing.v ===== *)
(** * Frames on a byte stream

    [runtime-native/src/io/framing.rs]: length-prefixed frames, read from and
    written to any asynchronous stream, with their buffers charged to a local
    budget and, when the budget belongs to a World, to that World's payload budget.

    The streams are tokio's [AsyncRead] and [AsyncWrite]; [AsyncReader] and
    [AsyncWriter] state what their documentation promises.  An [await] that is
    pending changes nothing and is not a step; [compare_exchange_weak] loops take
    effect at their successful exchange. *)
From S2P Require Import Prelude Collections Text Types Metadata Schema SchemaCodec Operations Diagnostics.
From S2P Require Import Publications SchemaRegistry Activity WorldState Admission Publishing Actors Messaging Components.

Inductive frame_error :=
| FrIo (kind : N)
| FrTooLarge
| FrBudgetExceeded
| FrAllocationFailed
| FrInvalidConfig
| FrTruncated.

(** ** Budgets and permits *)
Record BufferBudget := MkBudget { bb_limit : N; bb_used : N; bb_native : option World }.
#[export] Instance BufferBudget_expand : Expand BufferBudget := λ r, MkBudget (bb_limit r) (bb_used r) (bb_native r).
Record BufferPermit := MkBufferPermit { bp_charged : N; bp_native : option N }.
#[export] Instance BufferPermit_expand : Expand BufferPermit := λ r, MkBufferPermit (bp_charged r) (bp_native r).
Record FrameBuffer := MkFrameBuffer { fb_bytes : list byte; fb_permit : BufferPermit }.
Abbreviation BuM := (M BufferBudget frame_error).

Module Frames.
Definition new (limit : N) : BufferBudget := MkBudget limit 0 None.
Definition with_world (limit : N) (world : World) : BufferBudget := MkBudget limit 0 (Some world).
(** A call on the World behind [native]; its errors become [BudgetExceeded]. *)
Definition on_native {A} (m : WM A) : BuM (option A) := λ s,
  match bb_native s with
  | None => (Ok None, s)
  | Some w =>
      let '(o, w) := m w in
      (match o with Ok a => Ok (Some a) | Err _ => Err FrBudgetExceeded | Panic => Panic end,
       s <| bb_native := Some w |>)
  end.
Definition reserve_local (bytes : N) : BuM BufferPermit :=
  let! s := get in
  let! next := ok_or FrBudgetExceeded (checked_add usize_max (bb_used s) bytes) in
  reject_if (bb_limit s <? next)%N FrBudgetExceeded ;;;
  modify (λ s, s <| bb_used := next |>) ;;;
  ret (MkBufferPermit bytes None).
(** [fetch_sub], which wraps. *)
Definition release (bytes : N) : BuM unit :=
  modify (λ s, s <| bb_used ::= λ n, ((n + 2 ^ 64 - bytes) mod 2 ^ 64)%N |>).
(** [Drop for BufferPermit], then the drop of its native part. *)
Definition drop_permit (p : BufferPermit) : BuM unit :=
  release (bp_charged p) ;;;
  match bp_native p with
  | Some handle => on_native (Buffers.drop_permit handle) ;;; ret tt
  | None => ret tt
  end.
(** A local [permit] is dropped when the rest of the function fails. *)
Definition or_drop {A} (p : BufferPermit) (m : BuM A) : BuM A :=
  let! result := try_ m in
  match result with
  | inr a => ret a
  | inl e => drop_permit p ;;; fail e
  end.
Definition reserve (bytes : N) : BuM BufferPermit :=
  let! permit := reserve_local bytes in
  let! native := or_drop permit (on_native (Buffers.reserve bytes)) in
  ret (permit <| bp_native := native |>).
(** [BufferPermit::grow], with the permit it leaves. *)
Definition grow (p : BufferPermit) (bytes : N) : BuM BufferPermit :=
  if (bytes =? 0)%N then ret p else
  let! charged := ok_or FrBudgetExceeded (checked_add usize_max (bp_charged p) bytes) in
  let! extra := reserve_local bytes in
  match bp_native p with
  | Some handle => or_drop extra (on_native (Buffers.try_grow handle bytes)) ;;; ret tt
  | None => ret tt
  end ;;;
  ret (p <| bp_charged := charged |>).
End Frames.

(** ** Streams *)

(** [AsyncRead::read] into a buffer of [n] bytes: what was read, at most [n]
    bytes, and none only at the end of the stream (or for an empty buffer).
    [yields r bs]: the reader will deliver exactly [bs], in some chunks. *)
Class AsyncReader (R : Type) := {
  read : R → N → (N + list byte) * R;
  yields : R → list byte → Prop;
  read_fits r n chunk r' : read r n = (inr chunk, r') → (N.of_nat (length chunk) ≤ n)%N;
  read_end r n : yields r [] → ∃ r', read r n = (inr [], r') ∧ yields r' [];
  read_some r n bs : yields r bs → bs ≠ [] → (0 < n)%N →
    ∃ chunk rest r', bs = chunk ++ rest ∧ chunk ≠ [] ∧ (N.of_nat (length chunk) ≤ n)%N ∧
      read r n = (inr chunk, r') ∧ yields r' rest;
}.
(** [AsyncWriteExt::write_all]: everything is written, or an error is returned. *)
Class AsyncWriter (W : Type) := {
  write_all : W → list byte → (N + unit) * W;
  written : W → list byte;
  write_all_ok w bs w' : write_all w bs = (inr tt, w') → written w' = written w ++ bs;
}.

(** ** Frames *)
Definition to_be_bytes (n : N) : list byte := rev (le_encode 4 (n mod 2 ^ 32)).
Definition from_be_bytes (bs : list byte) : N := le_decode (rev bs).
Section read.
Context {R : Type} `{!AsyncReader R}.
(** [read_exact_frame] into a buffer of [missing] more bytes: all of them, [None] at
    the end of the stream, or an error.  Each round reads at least one byte. *)
Fixpoint read_exact_frame (fuel : nat) (r : R) (missing : N) (bytes : list byte) :
    outcome frame_error (option (list byte)) * R :=
  match fuel with
  | O => (Panic, r)
  | S fuel =>
      if (missing =? 0)%N then (Ok (Some bytes), r) else
      match read r missing with
      | (inl kind, r) => (Err (FrIo kind), r)
      | (inr [], r) => (match bytes with [] => Ok None | _ => Err FrTruncated end, r)
      | (inr chunk, r) => read_exact_frame fuel r (missing - N.of_nat (length chunk)) (bytes ++ chunk)
      end
  end.

(** The reader and the budget of a connection. *)
Record Connection := MkConnection { cn_reader : R; cn_budget : BufferBudget }.
Abbreviation ConM := (M Connection frame_error).
Definition exactly (n : N) : ConM (option (list byte)) := λ s,
  let '(o, r) := read_exact_frame (S (N.to_nat n)) (cn_reader s) n [] in (o, MkConnection r (cn_budget s)).
Definition charging {A} (m : BuM A) : ConM A := zoom cn_budget (λ b s, MkConnection (cn_reader s) b) m.
Definition dropping {A} (p : BufferPermit) (m : ConM A) : ConM A :=
  let! result := try_ m in
  match result with
  | inr a => ret a
  | inl e => charging (Frames.drop_permit p) ;;; fail e
  end.
(** [Vec::try_reserve_exact]: the capacity it provides, or none. *)
Context (try_reserve_exact : N → option N).
Definition isize_max : N := 2 ^ 63 - 1.
Definition read_frame (max_frame_bytes : N) : ConM (option FrameBuffer) :=
  let! header := exactly 4 in
  match header with
  | None => ret None
  | Some header =>
      let length := from_be_bytes header in
      reject_if (max_frame_bytes <? length)%N FrTooLarge ;;;
      reject_if (isize_max <? length)%N FrInvalidConfig ;;;
      let! permit := charging (Frames.reserve length) in
      let! actual := dropping permit (ok_or FrAllocationFailed (try_reserve_exact length)) in
      let! permit := (if (length <? actual)%N
                      then dropping permit (charging (Frames.grow permit (actual - length)))
                      else ret permit) in
      let! bytes := dropping permit (let! bytes := exactly length in ok_or FrTruncated bytes) in
      ret (Some (MkFrameBuffer bytes permit))
  end.
End read.
Section write.
Context {W : Type} `{!AsyncWriter W}.
Definition write_frame (w : W) (payload : list byte) (max_frame_bytes : N) : outcome frame_error unit * W :=
  let n := N.of_nat (length payload) in
  if (max_frame_bytes <? n)%N || (u32_max <? n)%N then (Err FrTooLarge, w) else
  match write_all w (to_be_bytes n) with
  | (inl kind, w) => (Err (FrIo kind), w)
  | (inr _, w) =>
      match write_all w payload with
      | (inl kind, w) => (Err (FrIo kind), w)
      | (inr _, w) => (Ok tt, w)
      end
  end.
End write.

(** ** Reading what was written *)
Lemma from_to_be_bytes n : (n ≤ u32_max)%N → from_be_bytes (to_be_bytes n) = n.
Proof.
  intros Hn. unfold from_be_bytes, to_be_bytes, u32_max in *. rewrite rev_involutive, N.mod_small by lia.
  apply le_decode_encode. change (256 ^ N.of_nat 4)%N with (2 ^ 32)%N. lia.
Qed.
Lemma length_to_be_bytes n : length (to_be_bytes n) = 4.
Proof. unfold to_be_bytes. by rewrite length_rev, length_le_encode. Qed.
Lemma write_frame_written `{!AsyncWriter W} (w w' : W) payload max :
  write_frame w payload max = (Ok tt, w') →
  (N.of_nat (length payload) ≤ max)%N ∧ (N.of_nat (length payload) ≤ u32_max)%N ∧
  written w' = written w ++ to_be_bytes (N.of_nat (length payload)) ++ payload.
Proof.
  unfold write_frame. destruct (_ || _) eqn:Hsize; [done|]. apply orb_false_iff in Hsize as [H1 H2].
  destruct (write_all w _) as [[kind|[]] w1] eqn:Hw1; [done|]. destruct (write_all w1 _) as [[kind|[]] w2] eqn:Hw2; [done|].
  intros [= <-]. split_and!; [lia..|]. rewrite (write_all_ok _ _ _ Hw2), (write_all_ok _ _ _ Hw1). by rewrite app_assoc.
Qed.
Section roundtrip.
Context {R : Type} `{!AsyncReader R}.
(** A read for what is missing takes a part of it. *)
Lemma read_part (r : R) bs rest :
  yields r (bs ++ rest) → bs ≠ [] →
  ∃ chunk bs' r', bs = chunk ++ bs' ∧ chunk ≠ [] ∧ read r (N.of_nat (length bs)) = (inr chunk, r') ∧ yields r' (bs' ++ rest).
Proof.
  intros Hr Hne. assert (0 < length bs) as Hpos by (destruct bs; simpl; [done|lia]).
  destruct (read_some r (N.of_nat (length bs)) (bs ++ rest)) as (chunk & rest' & r' & Heq & Hc & Hlen & Hread & Hy);
    [done|destruct bs; done|lia|].
  assert (chunk = take (length chunk) bs) as Htake.
  { rewrite <- (take_app_le bs rest) by lia. by rewrite Heq, take_app_length. }
  exists chunk, (drop (length chunk) bs), r'.
  assert (bs = chunk ++ drop (length chunk) bs) as Hbs by (rewrite Htake at 1; by rewrite take_drop).
  split_and!; try done. assert (rest' = drop (length chunk) bs ++ rest) as <-; [|done].
  apply (app_inv_head chunk). by rewrite app_assoc, <- Hbs.
Qed.
Lemma read_exact_frame_ok fuel : ∀ (r : R) bs rest bytes,
  yields r (bs ++ rest) → length bs < fuel →
  ∃ r', read_exact_frame fuel r (N.of_nat (length bs)) bytes = (Ok (Some (bytes ++ bs)), r') ∧ yields r' rest.
Proof.
  induction fuel as [|fuel IH]; intros r bs rest bytes Hr Hfuel; [lia|]. cbn [read_exact_frame].
  destruct (N.eqb_spec (N.of_nat (length bs)) 0) as [Hz|Hz].
  { destruct bs; [|simpl in Hz; lia]. exists r. by rewrite app_nil_r. }
  destruct (read_part r bs rest) as (chunk & bs' & r' & -> & Hne & Hread & Hy); [done|by intros ->|].
  rewrite Hread, length_app in *. destruct chunk as [|b chunk]; [done|]. set (ch := b :: chunk) in *.
  assert (0 < length ch) by (simpl; lia).
  destruct (IH r' bs' rest (bytes ++ ch)) as (r'' & Hrest & Hy''); [done|lia|].
  exists r''. split; [|done]. replace (N.of_nat (length ch + length bs') - N.of_nat (length ch))%N with (N.of_nat (length bs')) by lia.
  by rewrite Hrest, app_assoc.
Qed.
Lemma exactly_ok (r : R) b bs rest n :
  yields r (bs ++ rest) → n = N.of_nat (length bs) →
  ∃ r', exactly n (MkConnection r b) = (Ok (Some bs), MkConnection r' b) ∧ yields r' rest.
Proof.
  intros Hr ->. unfold exactly. cbn [cn_reader cn_budget]. destruct (read_exact_frame_ok (S (length bs)) r bs rest []) as (r' & Hread & Hy); [done|lia|].
  rewrite Nat2N.id, Hread. by exists r'.
Qed.
Lemma reserve_fits b n :
  bb_native b = None → (bb_used b + n ≤ bb_limit b)%N → (bb_limit b ≤ usize_max)%N →
  Frames.reserve_local n b = (Ok (MkBufferPermit n None), b <| bb_used := bb_used b + n |>)%N.
Proof.
  intros Hw Hfit Hl. unfold Frames.reserve_local, bind, get, ok_or, checked_add. rewrite decide_True by lia.
  unfold ret, reject_if. by destruct (N.ltb_spec (bb_limit b) (bb_used b + n)); [lia|].
Qed.
Lemma charging_to {A} (m : BuM A) (r : R) b a b' :
  m b = (Ok a, b') → charging m (MkConnection r b) = (Ok a, MkConnection r b').
Proof. intros Hm. unfold charging, zoom. cbn [cn_budget]. by rewrite Hm. Qed.
Lemma dropping_to {A} p (m : M (Connection (R:=R)) frame_error A) s a s' : m s = (Ok a, s') → dropping p m s = (Ok a, s').
Proof. intros Hm. unfold dropping, bind, try_. by rewrite Hm. Qed.
Lemma reserve_to b n :
  bb_native b = None → (bb_used b + n ≤ bb_limit b)%N → (bb_limit b ≤ usize_max)%N →
  Frames.reserve n b = (Ok (MkBufferPermit n None), b <| bb_used := bb_used b + n |>)%N.
Proof.
  intros Hw Hfit Hl. unfold Frames.reserve. rewrite (bind_run _ _ _ _ _ (reserve_fits _ _ Hw Hfit Hl)).
  unfold bind, Frames.or_drop, try_, Frames.on_native. cbn [bb_native set_field]. simpl. unfold bind, try_, Frames.on_native. simpl. by rewrite Hw.
Qed.
Lemma grow_to b n m c :
  (n + m = c)%N →
  bb_native b = None → (n ≤ bb_used b)%N → (bb_used b + m ≤ bb_limit b)%N → (bb_limit b ≤ usize_max)%N → (0 < m)%N →
  Frames.grow (MkBufferPermit n None) m b = (Ok (MkBufferPermit c None), b <| bb_used := bb_used b + m |>)%N.
Proof.
  intros <- Hw Hn Hfit Hl Hm. unfold Frames.grow. destruct (N.eqb_spec m 0); [lia|]. cbn [bp_charged bp_native].
  unfold bind at 1, ok_or at 1, checked_add. rewrite decide_True by lia. unfold ret at 1.
  by rewrite (bind_run _ _ _ _ _ (reserve_fits _ _ Hw Hfit Hl)).
Qed.
(** A frame that is in the stream is read, whatever the chunks. *)
Lemma read_frame_ok try_reserve_exact max (r : R) b payload rest c :
  let n := N.of_nat (length payload) in
  (n ≤ max)%N → (n ≤ u32_max)%N → yields r (to_be_bytes n ++ payload ++ rest) →
  try_reserve_exact n = Some c → (n ≤ c)%N →
  bb_native b = None → (bb_used b + c ≤ bb_limit b)%N → (bb_limit b ≤ usize_max)%N →
  ∃ r', read_frame try_reserve_exact max (MkConnection r b) =
    (Ok (Some (MkFrameBuffer payload (MkBufferPermit c None))), MkConnection r' (b <| bb_used := bb_used b + c |>)%N) ∧
    yields r' rest.
Proof.
  intros n Hmax Hu32 Hy Halloc Hc Hw Hfit Hl. unfold read_frame.
  destruct (exactly_ok r b (to_be_bytes n) (payload ++ rest) 4 Hy) as (r1 & Hread & Hy1); [by rewrite length_to_be_bytes|].
  rewrite (bind_run _ _ _ _ _ Hread). rewrite from_to_be_bytes by done. cbv zeta.
  assert ((max <? n)%N = false ∧ (isize_max <? n)%N = false) as [-> ->] by (unfold isize_max, u32_max in *; lia).
  unfold reject_if at 1 2. unfold bind at 1, ret at 1. unfold bind at 1, ret at 1.
  rewrite (bind_run _ _ _ _ _ (charging_to _ r1 b _ _ (reserve_to b n Hw ltac:(lia) Hl))).
  set (b1 := b <| bb_used := (bb_used b + n)%N |>).
  rewrite Halloc, (bind_run _ _ _ _ _ (dropping_to _ (ok_or FrAllocationFailed (Some c)) (MkConnection r1 b1) c _ eq_refl)).
  assert (∃ b2, (if (n <? c)%N then dropping (MkBufferPermit n None) (charging (Frames.grow (MkBufferPermit n None) (c - n)))
    else ret (MkBufferPermit n None)) (MkConnection r1 b1) = (Ok (MkBufferPermit c None), MkConnection r1 b2) ∧
    b2 = b <| bb_used := (bb_used b + c)%N |>) as (b2 & Hgrow & ->).
  { destruct (N.ltb_spec n c) as [Hlt|Hge].
    - eexists. split; [apply dropping_to, charging_to, grow_to; [lia|done|..]; simpl; lia|].
      unfold b1. cbn [bb_used set_field]. simpl. replace (bb_used b + n + (c - n))%N with (bb_used b + c)%N by lia. done.
    - exists b1. assert (n = c) as <- by lia. done. }
  rewrite (bind_run _ _ _ _ _ Hgrow). destruct (exactly_ok r1 (b <| bb_used := (bb_used b + c)%N |>) payload rest n Hy1) as (r2 & Hread2 & Hy2); [done|].
  exists r2. split; [|done].
  assert ((let! bytes := exactly n in ok_or FrTruncated bytes) (MkConnection r1 (b <| bb_used := (bb_used b + c)%N |>)) =
    (Ok payload, MkConnection r2 (b <| bb_used := (bb_used b + c)%N |>))) as Hbody by by rewrite (bind_run _ _ _ _ _ Hread2).
  by rewrite (bind_run _ _ _ _ _ (dropping_to _ _ _ _ _ Hbody)).
Qed.
End roundtrip.

(** C18. What [write_frame] writes, [read_frame] reads: whatever the chunks in which
    the stream arrives, the payload comes back, the rest of the stream is untouched,
    and exactly the capacity of its buffer is charged. *)
Theorem frame_roundtrip `{!AsyncWriter W, !AsyncReader R} (w w' : W) (r : R) b payload max try_reserve_exact sent rest c :
  write_frame w payload max = (Ok tt, w') → written w' = written w ++ sent → yields r (sent ++ rest) →
  try_reserve_exact (N.of_nat (length payload)) = Some c → (N.of_nat (length payload) ≤ c)%N →
  bb_native b = None → (bb_used b + c ≤ bb_limit b)%N → (bb_limit b ≤ usize_max)%N →
  ∃ r', read_frame try_reserve_exact max (MkConnection r b) =
    (Ok (Some (MkFrameBuffer payload (MkBufferPermit c None))), MkConnection r' (b <| bb_used := bb_used b + c |>)%N) ∧
    yields r' rest.
Proof.
  intros (Hmax & Hu32 & Hwritten)%write_frame_written Hsent Hy Halloc Hc Hw Hfit Hl.
  rewrite Hwritten in Hsent. apply app_inv_head in Hsent as <-. rewrite <- app_assoc in Hy.
  by eapply read_frame_ok.
Qed.

(** *** A stream of chunks *)
Definition next_chunk (l : list (list byte)) : list (list byte) := filter (λ c, c ≠ []) l.
Definition read_chunk (l : list (list byte)) (n : N) : (N + list byte) * list (list byte) :=
  match next_chunk l with
  | [] => (inr [], [])
  | c :: l => (inr (take (N.to_nat n) c), drop (N.to_nat n) c :: l)
  end.
Lemma concat_next l : concat (next_chunk l) = concat l.
Proof.
  unfold next_chunk. induction l as [|c l IH]; [done|]. rewrite filter_cons. case_decide as Hc; simpl; [by rewrite IH|].
  by subst c.
Qed.
Lemma next_chunk_cons l c l' : next_chunk l = c :: l' → c ≠ [].
Proof.
  intros Hl. assert (c ∈ next_chunk l) as Hc by (rewrite Hl; by left). by apply list_elem_of_filter in Hc as [Hc _].
Qed.
Lemma read_chunk_end l n : concat l = [] → ∃ l', read_chunk l n = (inr [], l') ∧ concat l' = [].
Proof.
  intros Hl. unfold read_chunk. destruct (next_chunk l) as [|c l'] eqn:Hn; [by eexists|].
  exfalso. eapply next_chunk_cons; [done|]. rewrite <- concat_next, Hn in Hl. by apply app_eq_nil in Hl as [-> _].
Qed.
Lemma read_chunk_some l n bs : concat l = bs → bs ≠ [] → (0 < n)%N →
  ∃ chunk rest l', bs = chunk ++ rest ∧ chunk ≠ [] ∧ (N.of_nat (length chunk) ≤ n)%N ∧
    read_chunk l n = (inr chunk, l') ∧ concat l' = rest.
Proof.
  intros Hl Hne Hn. unfold read_chunk. rewrite <- concat_next in Hl. destruct (next_chunk l) as [|c l'] eqn:Hnext; [by subst bs|].
  exists (take (N.to_nat n) c), (drop (N.to_nat n) c ++ concat l'), (drop (N.to_nat n) c :: l'). split_and!; [| | |done|done].
  - by rewrite <- Hl, app_assoc, take_drop.
  - pose proof (next_chunk_cons _ _ _ Hnext). destruct c; [done|]. by destruct (N.to_nat n) eqn:?; [lia|].
  - rewrite length_take. lia.
Qed.
Lemma read_chunk_fits l n chunk l' : read_chunk l n = (inr chunk, l') → (N.of_nat (length chunk) ≤ n)%N.
Proof.
  unfold read_chunk. destruct (next_chunk l) as [|c rest]; intros H; injection H as <- <-; [simpl; lia|]. rewrite length_take. lia.
Qed.
#[export] Instance chunks_reader : AsyncReader (list (list byte)) := {|
  read := read_chunk; yields := λ l bs, concat l = bs; read_fits := read_chunk_fits; read_end := read_chunk_end; read_some := read_chunk_some |}.
Lemma append_written (w bs w' : list byte) : (inr tt, w ++ bs) = (inr (A:=N) tt, w') → w' = w ++ bs.
Proof. by intros [= ->]. Qed.
#[export] Instance bytes_writer : AsyncWriter (list byte) := {|
  write_all := λ w bs, (inr tt, w ++ bs); written := λ w, w; write_all_ok := append_written |}.
Definition three_bytes : list byte := [byte_of 97; byte_of 98; byte_of 99].
Lemma frame_roundtrip_witness :
  ∃ r', read_frame Some 16 (MkConnection [[byte_of 0; byte_of 0]; [byte_of 0; byte_of 3; byte_of 97]; [byte_of 98; byte_of 99; byte_of 7]] (Frames.new 32)) =
    (Ok (Some (MkFrameBuffer three_bytes (MkBufferPermit 3 None))), MkConnection r' (MkBudget 32 3 None)) ∧
    yields r' [byte_of 7].
Proof.
  assert (write_frame (W:=list byte) [] three_bytes 16 = (Ok tt, to_be_bytes 3 ++ three_bytes)) as Hw by (vm_compute; reflexivity).
  apply (frame_roundtrip (W:=list byte) (R:=list (list byte)) _ _ [[byte_of 0; byte_of 0]; [byte_of 0; byte_of 3; byte_of 97]; [byte_of 98; byte_of 99; byte_of 7]]
    (Frames.new 32) three_bytes 16 Some (to_be_bytes 3 ++ three_bytes) [byte_of 7] 3 Hw); try (vm_compute; reflexivity); vm_compute; discriminate.
Defined.

(** ** The charge of a frame *)

(** [b'] is [b] with a local charge of [n], and the native permit [k] of the World
    behind it, if there is one. *)
Definition permit_in (w w' : World) (k : option (N * N)) : Prop :=
  match k with
  | None => w_permits w' = w_permits w
  | Some (handle, bytes) => w_permits w !! handle = None ∧ w_permits w' = <[handle := bytes]> (w_permits w)
  end.
Record charge_in (w w' : World) (k : option (N * N)) : Prop := {
  ci_cfg : w_cfg w' = w_cfg w;
  ci_live : live_payloads w' = live_payloads w;
  ci_fresh h : (w_next_handle w' ≤ h)%N → w_permits w' !! h = None;
  ci_permits : permit_in w w' k;
}.
Record holds (n : N) (k : option (N * N)) (b b' : BufferBudget) : Prop := {
  ho_limit : bb_limit b' = bb_limit b;
  ho_used : bb_used b' = (bb_used b + n)%N;
  ho_fits : (bb_used b' ≤ bb_limit b)%N;
  ho_bound : (bb_limit b ≤ usize_max)%N;
  ho_native : match bb_native b, bb_native b' with
              | None, None => k = None
              | Some w, Some w' => charge_in w w' k
              | _, _ => False
              end;
}.
Definition budget_ok (b : BufferBudget) : Prop := holds 0 None b b.
Section charge.
Context (b : BufferBudget).
Lemma reserve_local_holds n k m b1 : holds n k b b1 →
  match Frames.reserve_local m b1 with
  | (Ok p, b2) => p = MkBufferPermit m None ∧ holds (n + m) k b b2
  | (Err _, b2) => b2 = b1
  | (Panic, _) => False
  end.
Proof.
  intros [Hl Hu Hf Hb Hn]. unfold Frames.reserve_local, bind, get, ok_or, checked_add. case_decide; [|done].
  unfold ret, reject_if. destruct (N.ltb_spec (bb_limit b1) (bb_used b1 + m)) as [|Hle]; [done|]. split; [done|].
  split; simpl; [done|lia|rewrite Hl in Hle; lia|done|done].
Qed.
Lemma drop_local_holds n k m b1 : holds (n + m) k b b1 →
  ∃ b2, Frames.drop_permit (MkBufferPermit m None) b1 = (Ok tt, b2) ∧ holds n k b b2.
Proof.
  intros [Hl Hu Hf Hb Hn]. eexists. split; [reflexivity|]. unfold usize_max, u64_max in *.
  assert ((bb_used b1 + 2 ^ 64 - m) mod 2 ^ 64 = bb_used b + n)%N as Hmod.
  { rewrite Hu. replace (bb_used b + (n + m) + 2 ^ 64 - m)%N with (bb_used b + n + 1 * 2 ^ 64)%N by lia.
    rewrite N.Div0.mod_add, N.mod_small by lia. done. }
  split; simpl; rewrite ?Hmod; try done; lia.
Qed.
Lemma drop_native_holds n h m b1 : holds (n + m) (Some (h, m)) b b1 →
  ∃ b2, Frames.drop_permit (MkBufferPermit m (Some h)) b1 = (Ok tt, b2) ∧ holds n None b b2.
Proof.
  intros Hh. destruct (drop_local_holds _ _ _ _ Hh) as (b2 & Hdrop & [Hl Hu Hf Hb Hn]). injection Hdrop as Hb2.
  unfold Frames.drop_permit. cbn [bp_charged bp_native]. unfold bind at 1, Frames.release, modify. rewrite Hb2.
  unfold Frames.on_native, bind. destruct (bb_native b) as [w|] eqn:Hw, (bb_native b2) as [w2|] eqn:Hw2; try done.
  eexists. split; [reflexivity|]. split; simpl; try done. rewrite Hw. destruct Hn as [Hc Hlive Hfr [Hnone Hp]].
  split; simpl; try done.
  - intros h' Hle. rewrite lookup_delete_None. right. by apply Hfr.
  - by rewrite Hp, delete_insert_id.
Qed.
(** [p] is charged to [b], here and in the World behind it. *)
Definition owns (p : BufferPermit) (b1 : BufferBudget) : Prop :=
  holds (bp_charged p) ((λ h, (h, bp_charged p)) <$> bp_native p) b b1 ∧ (is_Some (bp_native p) ↔ is_Some (bb_native b)).
Lemma drop_owned p b1 : owns p b1 → ∃ b2, Frames.drop_permit p b1 = (Ok tt, b2) ∧ holds 0 None b b2.
Proof.
  destruct p as [charged [h|]]; intros [Hh _]; cbn in Hh; [by apply drop_native_holds|by apply drop_local_holds].
Qed.
Lemma native_reserve_holds n m b1 : holds n None b b1 →
  match Frames.on_native (Buffers.reserve m) b1 with
  | (Ok None, b2) => bb_native b = None ∧ holds n None b b2
  | (Ok (Some h), b2) => is_Some (bb_native b) ∧ holds n (Some (h, m)) b b2
  | (Err _, b2) => holds n None b b2
  | (Panic, _) => False
  end.
Proof.
  intros Hh. pose proof Hh as [Hl Hu Hf Hb Hn]. unfold Frames.on_native.
  destruct (bb_native b) as [w|] eqn:Hw, (bb_native b1) as [w1|] eqn:Hw1; try done.
  unfold Buffers.reserve, Buffers.reserve_bytes, bind, get, ok_or. destruct (checked_add _ _ _) as [next|]; unfold fail, ret.
  2: { split; simpl; rewrite ?Hw; try done. }
  unfold reject_if. destruct (_ <? next)%N; [by split; simpl; rewrite ?Hw|]. unfold ret, new_handle, bind, get, modify. split; [by eexists|].
  split; simpl; rewrite ?Hw; try done. destruct Hn as [Hc Hlive Hfr Hp]. simpl in Hp. split; simpl; try done.
  - intros h' Hle. rewrite lookup_insert_ne by lia. apply Hfr. lia.
  - rewrite Hp in *. split; [|done]. by apply Hfr.
Qed.
Lemma native_grow_holds n h x m b1 : holds n (Some (h, x)) b b1 →
  match Frames.on_native (Buffers.try_grow h m) b1 with
  | (Ok _, b2) => holds n (Some (h, (x + m)%N)) b b2
  | (Err _, b2) => holds n (Some (h, x)) b b2
  | (Panic, _) => False
  end.
Proof.
  intros Hh. pose proof Hh as [Hl Hu Hf Hb Hn]. unfold Frames.on_native.
  destruct (bb_native b) as [w|] eqn:Hw, (bb_native b1) as [w1|] eqn:Hw1; try done.
  pose proof Hn as [Hc Hlive Hfr [Hnone Hp]].
  assert (∀ b2, b2 = b1 <| bb_native := Some w1 |> → ∀ k, charge_in w w1 k → holds n k b b2) as Hsame.
  { intros b2 -> k Hk. split; simpl; rewrite ?Hw; try done. }
  unfold Buffers.try_grow, bind at 1, get. unfold bind at 1, expect. rewrite Hp, lookup_insert_eq. unfold ret at 1.
  destruct (N.eqb_spec m 0) as [->|Hm]; [apply Hsame; [done|by rewrite N.add_0_r]|].
  unfold Buffers.reserve_bytes, bind, get, ok_or. unfold checked_add. case_decide as Hadd; unfold fail, ret; [|by apply Hsame].
  case_decide as Hret; unfold fail, ret; [|by apply Hsame]. unfold reject_if. destruct (_ <? _)%N; [by apply Hsame|].
  unfold ret, modify. split; simpl; rewrite ?Hw; try done. split; simpl; try done.
  - intros h' Hle. rewrite lookup_insert_None. split; [by apply Hfr|]. intros <-. specialize (Hfr h Hle). rewrite Hp, lookup_insert_eq in Hfr. done.
  - split; [done|]. by rewrite Hp, insert_insert_eq.
Qed.
(** When [m] keeps [Q] and the permit can be dropped from there. *)
Lemma or_drop_cases {A} p (m : BuM A) b1 (Post : A → BufferBudget → Prop) (Q Q' : BufferBudget → Prop) :
  match m b1 with (Ok a, b2) => Post a b2 | (Err _, b2) => Q b2 | (Panic, _) => False end →
  (∀ b2, Q b2 → ∃ b3, Frames.drop_permit p b2 = (Ok tt, b3) ∧ Q' b3) →
  match Frames.or_drop p m b1 with (Ok a, b2) => Post a b2 | (Err _, b2) => Q' b2 | (Panic, _) => False end.
Proof.
  intros Hm Hd. unfold Frames.or_drop, bind, try_. destruct (m b1) as [[a|e|] b2]; [done| |done].
  destruct (Hd b2 Hm) as (b3 & -> & Hq). done.
Qed.
Lemma reserve_owns m : holds 0 None b b →
  match Frames.reserve m b with
  | (Ok p, b2) => bp_charged p = m ∧ owns p b2
  | (Err _, b2) => holds 0 None b b2
  | (Panic, _) => False
  end.
Proof.
  intros Hh. unfold Frames.reserve, bind at 1. pose proof (reserve_local_holds 0 None m b Hh) as Hlocal.
  destruct (Frames.reserve_local m b) as [[p|e|] b1]; [|by subst|done]. destruct Hlocal as [-> Hlocal]. rewrite N.add_0_l in Hlocal.
  set (Post := λ (o : option N) b2, match o with
    | Some h => is_Some (bb_native b) ∧ holds m (Some (h, m)) b b2
    | None => bb_native b = None ∧ holds m None b b2
    end).
  assert (match Frames.on_native (Buffers.reserve m) b1 with
    | (Ok o, b2) => Post o b2 | (Err _, b2) => holds m None b b2 | (Panic, _) => False end) as Hres.
  { pose proof (native_reserve_holds m m b1 Hlocal) as H. destruct (Frames.on_native _ b1) as [[[h|]|e|] b2]; exact H. }
  pose proof (or_drop_cases (MkBufferPermit m None) _ b1 Post _ (holds 0 None b) Hres
    ltac:(intros b2 Hb2; by apply (drop_local_holds 0 None m))) as H.
  unfold bind. destruct (Frames.or_drop _ _ b1) as [[[h|]|e|] b2]; [| |done|done].
  - destruct H as [Hs H]. split; [done|]. split; [done|]. simpl. split; [done|by eexists].
  - destruct H as [Hs H]. split; [done|]. split; [done|]. simpl. rewrite Hs. split; by intros [].
Qed.
Lemma grow_owns p x b1 : owns p b1 →
  match Frames.grow p x b1 with
  | (Ok p', b2) => bp_charged p' = (bp_charged p + x)%N ∧ owns p' b2
  | (Err _, b2) => owns p b2
  | (Panic, _) => False
  end.
Proof.
  intros [Hh Hn]. unfold Frames.grow. destruct (N.eqb_spec x 0) as [->|Hx]; [split; [lia|done]|].
  unfold bind at 1, ok_or, checked_add. case_decide as Hadd; [|done]. unfold ret at 1, bind at 1.
  pose proof (reserve_local_holds _ _ x b1 Hh) as Hlocal. destruct (Frames.reserve_local x b1) as [[extra|e|] b2]; [|by subst|done].
  destruct Hlocal as [-> Hlocal]. destruct p as [charged [h|]]; cbn [bp_charged bp_native fmap option_fmap option_map] in *.
  - pose proof (or_drop_cases (MkBufferPermit x None) _ b2 _ _ (holds charged (Some (h, charged)) b)
      (native_grow_holds (charged + x) h charged x b2 Hlocal)
      ltac:(intros b3 Hb3; by apply (drop_local_holds charged))) as H.
    unfold bind. destruct (Frames.or_drop _ _ b2) as [[o|e|] b3]; [|by split|done]. by split.
  - by split.
Qed.
End charge.
Lemma read_exact_frame_total `{!AsyncReader R} fuel : ∀ (r : R) missing bytes,
  N.to_nat missing < fuel →
  match (read_exact_frame fuel r missing bytes).1 with
  | Ok (Some bs) => N.of_nat (length bs) = (N.of_nat (length bytes) + missing)%N
  | Panic => False
  | _ => True
  end.
Proof.
  induction fuel as [|fuel IH]; intros r missing bytes Hf; [lia|]. cbn [read_exact_frame].
  destruct (N.eqb_spec missing 0); [simpl; lia|]. destruct (read r missing) as [[kind|chunk] r'] eqn:Hr; [done|].
  pose proof (read_fits _ _ _ _ Hr) as Hfit. destruct chunk as [|x chunk]; [by destruct bytes|].
  specialize (IH r' (missing - N.of_nat (length (x :: chunk)))%N (bytes ++ x :: chunk)).
  destruct (read_exact_frame _ _ _ _) as [[[bs|]|e|] r'']; simpl in *; try done.
  - rewrite length_app in IH. simpl in IH. lia.
  - apply IH. lia.
Qed.
(** [b'] is [b] with [n] more bytes charged, to it and to the World behind it. *)
Definition charged_exactly (b b' : BufferBudget) (n : N) : Prop :=
  bb_used b' = (bb_used b + n)%N ∧ (bb_used b' ≤ bb_limit b)%N ∧ bb_limit b' = bb_limit b ∧
  match bb_native b, bb_native b' with
  | None, None => True
  | Some w, Some w' => retained_bytes w' = (retained_bytes w + n)%N
  | _, _ => False
  end.
Lemma charge_retained w w' k :
  charge_in w w' k → retained_bytes w' = (retained_bytes w + match k with Some (_, m) => m | None => 0 end)%N.
Proof.
  intros [_ Hlive _ Hp]. unfold retained_bytes. rewrite Hlive. destruct k as [[h m]|]; simpl in Hp.
  - destruct Hp as [Hnone ->]. rewrite (sum_map_insert (λ _ b, b)) by done. lia.
  - rewrite Hp. lia.
Qed.
Lemma holds_exactly b b' : holds 0 None b b' → charged_exactly b b' 0.
Proof.
  intros [Hl Hu Hf Hb Hn]. split_and!; try done. destruct (bb_native b) as [w|], (bb_native b') as [w'|]; try done.
  by rewrite (charge_retained _ _ _ Hn).
Qed.
Lemma owns_exactly b p b' : owns b p b' → charged_exactly b b' (bp_charged p).
Proof.
  intros [[Hl Hu Hf Hb Hn] Hs]. split_and!; try done. destruct (bb_native b) as [w|], (bb_native b') as [w'|]; try done.
  destruct (bp_native p) as [h|]; [by rewrite (charge_retained _ _ _ Hn)|]. by destruct (proj2 Hs (ex_intro _ w eq_refl)) as [? [=]].
Qed.
Section leaks.
Context `{!AsyncReader R} (b : BufferBudget).
Implicit Types (s : Connection (R:=R)).
Definition outcome_of {A} (Post : A → BufferBudget → Prop) (Q : BufferBudget → Prop)
    (x : outcome frame_error A * Connection (R:=R)) : Prop :=
  match x with
  | (Ok a, s) => Post a (cn_budget s)
  | (Err _, s) => Q (cn_budget s)
  | (Panic, _) => False
  end.
Lemma outcome_bind {A B} (m : M _ frame_error A) (k : A → M _ frame_error B) s Post Mid Q :
  outcome_of Mid Q (m s) → (∀ a s', Mid a (cn_budget s') → outcome_of Post Q (k a s')) → outcome_of Post Q (bind m k s).
Proof. unfold bind, outcome_of. destruct (m s) as [[a|e|] s']; [|done..]. intros Hm Hk. by apply Hk. Qed.
Lemma outcome_dropping {A} p (m : M _ frame_error A) s Post :
  outcome_of Post (owns b p) (m s) → outcome_of Post (holds 0 None b) (dropping p m s).
Proof.
  unfold dropping, bind, try_, outcome_of, charging, zoom. destruct (m s) as [[a|e|] s']; [done| |done].
  intros Hm. destruct (drop_owned b p _ Hm) as (b2 & -> & Hh). done.
Qed.
Lemma outcome_exactly s n φ : φ (cn_budget s) →
  outcome_of (λ o b', φ b' ∧ match o with Some bs => N.of_nat (length bs) = n | None => True end) φ (exactly n s).
Proof.
  intros Hs. unfold exactly, outcome_of. pose proof (read_exact_frame_total (S (N.to_nat n)) (cn_reader s) n [] ltac:(lia)) as H.
  destruct (read_exact_frame _ _ _ _) as [[o|e|] r]; simpl in *; [|done..]. split; [done|]. by destruct o.
Qed.
Lemma outcome_reject {A} c e (k : unit → M _ frame_error A) s Post Q :
  Q (cn_budget s) → outcome_of Post Q (k tt s) → outcome_of Post Q (bind (reject_if c e) k s).
Proof. intros Hq Hk. unfold bind, reject_if. by destruct c. Qed.
Lemma read_frame_owns try_reserve_exact max s :
  (∀ n c, try_reserve_exact n = Some c → (n ≤ c)%N) → cn_budget s = b → budget_ok b →
  outcome_of (λ o b', match o with
                      | Some f => (N.of_nat (length (fb_bytes f)) ≤ bp_charged (fb_permit f))%N ∧ owns b (fb_permit f) b'
                      | None => holds 0 None b b'
                      end) (holds 0 None b) (read_frame try_reserve_exact max s).
Proof.
  intros Halloc Hs Hok. unfold read_frame.
  assert (holds 0 None b (cn_budget s)) as Hh by (by rewrite Hs).
  pose proof (outcome_exactly s 4 (λ b', b' = b) Hs) as Hhead.
  assert (∀ A (m : M _ frame_error A) φ, outcome_of φ (λ b', b' = b) (m s) → outcome_of φ (holds 0 None b) (m s)) as Hweak.
  { unfold outcome_of. intros A m φ. destruct (m s) as [[a|e|] s']; [done|by intros ->|done]. }
  eapply outcome_bind; [by apply Hweak|]. intros [header|] s1 [Hs1 _]; [|simpl; by rewrite Hs1].
  cbv zeta. set (n := from_be_bytes header). do 2 (apply outcome_reject; [by rewrite Hs1|]).
  apply (outcome_bind _ _ _ _ (λ p b', bp_charged p = n ∧ owns b p b')).
  { unfold charging, zoom, outcome_of. rewrite Hs1. pose proof (reserve_owns b n Hok) as H. by destruct (Frames.reserve n b) as [[p|e|] b2]. }
  intros p s2 [Hp Ho].
  apply (outcome_bind _ _ _ _ (λ c b', (n ≤ c)%N ∧ owns b p b')).
  { apply outcome_dropping. destruct (try_reserve_exact n) as [c|] eqn:Hc; [|done]. split; [by apply Halloc|done]. }
  intros c s3 [Hc Ho3].
  apply (outcome_bind _ _ _ _ (λ p b', (n ≤ bp_charged p)%N ∧ owns b p b')).
  { destruct (_ <? c)%N; [|by split; [rewrite Hp|]]. apply outcome_dropping. unfold charging, zoom, outcome_of.
    pose proof (grow_owns b p (c - n) (cn_budget s3) Ho3) as H. destruct (Frames.grow _ _ _) as [[p'|e|] b2]; [|done..].
    destruct H as [Hp' H]. split; [|done]. lia. }
  intros p' s4 [Hp' Ho4].
  apply (outcome_bind _ _ _ _ (λ bs b', N.of_nat (length bs) = n ∧ owns b p' b')); [|intros bs s5 [Hbs Ho5]; split; [simpl; lia|done]].
  apply outcome_dropping. eapply outcome_bind; [by apply (outcome_exactly s4 n (owns b p'))|].
  intros [bs|] s5 [Ho5 Hbs]; [by split|done].
Qed.
End leaks.

(** C22. No charge leaks: whatever the stream delivers and whatever fails, reading a
    frame ends; a frame that is returned is charged, at least its length, to the
    budget and to the World behind it until its permit is dropped, which takes
    exactly that charge back; without a frame nothing is charged. *)
Theorem frame_charge_exact `{!AsyncReader R} try_reserve_exact max (r : R) b :
  (∀ n c, try_reserve_exact n = Some c → (n ≤ c)%N) → budget_ok b →
  match read_frame try_reserve_exact max (MkConnection r b) with
  | (Ok (Some f), s) =>
      (N.of_nat (length (fb_bytes f)) ≤ bp_charged (fb_permit f))%N ∧
      charged_exactly b (cn_budget s) (bp_charged (fb_permit f)) ∧
      ∃ b', Frames.drop_permit (fb_permit f) (cn_budget s) = (Ok tt, b') ∧ charged_exactly b b' 0
  | (Ok None, s) | (Err _, s) => charged_exactly b (cn_budget s) 0
  | (Panic, _) => False
  end.
Proof.
  intros Halloc Hok. pose proof (read_frame_owns b try_reserve_exact max (MkConnection r b) Halloc eq_refl Hok) as H.
  destruct (read_frame _ _ _) as [[[f|]|e|] s]; simpl in H; [|by apply holds_exactly|by apply holds_exactly|done].
  destruct H as [Hlen Ho]. split; [done|]. split; [by apply owns_exactly|].
  destruct (drop_owned b _ _ Ho) as (b' & Hd & Hh). exists b'. split; [done|by apply holds_exactly].
Qed.
(** A frame that ends early, read for a World. *)
Definition world_budget : BufferBudget :=
  match with_clock 1 config_default (Clocks.manual_at 0) with Ok w => Frames.with_world 64 w | _ => Frames.new 64 end.
Definition cut_frame : list (list byte) := [[byte_of 0; byte_of 0; byte_of 0; byte_of 3; byte_of 97]].
Lemma world_budget_ok : budget_ok world_budget.
Proof.
  unfold world_budget. destruct (with_clock 1 config_default (Clocks.manual_at 0)) as [w|e|] eqn:Hw; try (vm_compute in Hw; discriminate).
  assert (w_permits w = ∅) as Hp by (vm_compute in Hw; injection Hw as <-; reflexivity).
  split; simpl; try done. split; try done. intros h _. by rewrite Hp, lookup_empty.
Qed.
Lemma frame_charge_exact_witness :
  (read_frame Some 16 (MkConnection cut_frame world_budget)).1 = Err FrTruncated ∧
  charged_exactly world_budget (cn_budget (read_frame Some 16 (MkConnection cut_frame world_budget)).2) 0.
Proof.
  assert ((read_frame Some 16 (MkConnection cut_frame world_budget)).1 = Err FrTruncated) as He by (vm_compute; reflexivity).
  split; [exact He|].
  pose proof (frame_charge_exact Some 16 cut_frame world_budget ltac:(intros n c H; injection H as ->; lia) world_budget_ok) as H.
  destruct (read_frame Some 16 (MkConnection cut_frame world_budget)) as [[[f|]|e|] s]; [discriminate He|discriminate He|exact H|discriminate He].
Defined.
