(* ===== verification/NativeConfig.v ===== *)
(** * Configuration of native components

    [runtime-native/src/sdk_config.rs]: the limits of a component, the errors of the
    native SDK, and the validation of a component's configuration against its
    schema.  A [Duration] is its number of nanoseconds. *)
From S2P Require Import Prelude.
From S2P Require Import Collections.
From S2P Require Import Text.
From S2P Require Import Types.
From S2P Require Import Metadata.
From S2P Require Import Schema.
From S2P Require Import SchemaCodec.

Definition seconds (n : N) : N := n * 10 ^ 9.

Module Native.
Inductive native_error :=
| Core (e : error)
| Schema (e : string)
| Limit (label : string)
| Application (code : string)
| Panic.
Definition code (e : native_error) : string :=
  match e with
  | Core _ => "CoreError"
  | Schema _ => "SchemaError"
  | Limit _ => "LimitExceeded"
  | Application code => code
  | Panic => "NativePanic"
  end.
(** [Display]; a core error shows its variant. *)
Definition error_name (e : error) : string :=
  match e with
  | Error.QueueFull => "QueueFull"
  | Error.BudgetExceeded => "BudgetExceeded"
  | Error.ActorNotReady => "ActorNotReady"
  | Error.ActorStopped => "ActorStopped"
  | Error.StaleReference => "StaleReference"
  | Error.CrossWorld => "CrossWorld"
  | Error.LimitExceeded => "LimitExceeded"
  | Error.InvalidConfig => "InvalidConfig"
  | Error.NotFound => "NotFound"
  | Error.DuplicateSubscription => "DuplicateSubscription"
  | Error.SchemaMismatch => "SchemaMismatch"
  | Error.InvalidPort => "InvalidPort"
  | Error.InterfaceMismatch => "InterfaceMismatch"
  | Error.InvalidMetadata => "InvalidMetadata"
  | Error.DeadlineExpired => "DeadlineExpired"
  end.
Definition display (e : native_error) : string :=
  match e with
  | Core e => error_name e
  | Schema e => e
  | Limit label => if bool_decide (label = "runtime tasks"%string) then "native task limit reached" else "limit exceeded: " +:+ label
  | Application code => code
  | Panic => "native panic"
  end.
Inductive drain_policy := Producer | Consumer.
End Native.
Abbreviation native_error := Native.native_error.
Abbreviation drain_policy := Native.drain_policy.
#[export] Instance native_error_eq_dec : EqDecision native_error.
Proof. solve_decision. Defined.
#[export] Instance drain_policy_eq_dec : EqDecision drain_policy.
Proof. solve_decision. Defined.

Record NativeLimits := MkLimits {
  nl_events_per_turn : N; nl_effects_per_callback : N; nl_max_jobs : N;
  nl_max_job_input_bytes : N; nl_max_config_bytes : N }.
Record NativeSpec := MkSpec {
  sp_descriptor : ComponentDescriptor; sp_configuration : Schema; sp_limits : NativeLimits;
  sp_period : option N; sp_drain : drain_policy; sp_failure_action : failure_action }.
#[export] Instance NativeSpec_expand : Expand NativeSpec := λ r,
  MkSpec (sp_descriptor r) (sp_configuration r) (sp_limits r) (sp_period r) (sp_drain r) (sp_failure_action r).

(** [(lo..=hi).contains(&n)]. *)
Definition in_range (lo hi n : N) : bool := (lo <=? n)%N && (n <=? hi)%N.

Module Limits.
Definition default : NativeLimits := MkLimits 32 64 8 32768 16384.
Definition validate (l : NativeLimits) : outcome native_error unit :=
  if negb (in_range 1 1024 (nl_events_per_turn l)) then Err (Native.Limit "events_per_turn") else
  if negb (in_range 1 1024 (nl_effects_per_callback l)) then Err (Native.Limit "effects_per_callback") else
  if (1024 <? nl_max_jobs l)%N then Err (Native.Limit "max_jobs") else
  if ((0 <? nl_max_jobs l) && (nl_max_job_input_bytes l =? 0))%N then Err (Native.Limit "max_job_input_bytes") else
  if (1048576 <? nl_max_job_input_bytes l)%N then Err (Native.Limit "max_job_input_bytes") else
  if negb (in_range 1 65536 (nl_max_config_bytes l)) then Err (Native.Limit "max_config_bytes") else
  Ok tt.
End Limits.

Module Spec.
Definition new (descriptor : ComponentDescriptor) (configuration : Schema) : NativeSpec := {|
  sp_descriptor := descriptor; sp_configuration := configuration; sp_limits := Limits.default;
  sp_period := None; sp_drain := Native.Consumer; sp_failure_action := FailureAction.StopActor |}.
(** A result as a computation in any monad of the development; [From<SchemaError>]. *)
Definition lift_schema {A} (o : outcome string A) : outcome native_error A :=
  match o with Ok a => Ok a | Err e => Err (Native.Schema e) | Panic => Panic end.
Definition and_then {E A B} (o : outcome E A) (k : A → outcome E B) : outcome E B :=
  match o with Ok a => k a | Err e => Err e | Panic => Panic end.
Definition producer_has_inputs (s : NativeSpec) : bool :=
  bool_decide (sp_drain s = Native.Producer) &&
  existsb (λ p, bool_decide (ps_direction p = Input)) (cd_ports (sp_descriptor s)).
Definition bad_period (s : NativeSpec) : bool :=
  match sp_period s with Some p => (p =? 0)%N || (seconds 86400 <? p)%N | None => false end.
Definition validate_config (s : NativeSpec) (value : Value) : outcome native_error Value :=
  and_then (Limits.validate (sp_limits s)) (λ _,
  if producer_has_inputs s then Err (Native.Application "ProducerHasInputPorts") else
  if bad_period s then Err (Native.Limit "period") else
  and_then (lift_schema (SchemaCheck.validate (sp_configuration s))) (λ _,
  and_then (lift_schema (Encode.encode (sp_configuration s) value (nl_max_config_bytes (sp_limits s)))) (λ bytes,
  lift_schema (Decode.decode (sp_configuration s) bytes)))).
End Spec.

(** ** What a validated configuration is *)
Definition limits_ok (l : NativeLimits) : Prop :=
  (1 ≤ nl_events_per_turn l ≤ 1024)%N ∧ (1 ≤ nl_effects_per_callback l ≤ 1024)%N ∧ (nl_max_jobs l ≤ 1024)%N ∧
  (nl_max_job_input_bytes l ≤ 1048576)%N ∧ (nl_max_jobs l = 0 ∨ nl_max_job_input_bytes l ≠ 0)%N ∧
  (1 ≤ nl_max_config_bytes l ≤ 65536)%N.
Definition spec_ok (s : NativeSpec) : Prop :=
  limits_ok (sp_limits s) ∧
  (sp_drain s = Native.Producer → Forall (λ p, ps_direction p = Output) (cd_ports (sp_descriptor s))) ∧
  (∀ p, sp_period s = Some p → (0 < p ≤ seconds 86400)%N).

Lemma limits_validate l : Limits.validate l = Ok tt ↔ limits_ok l.
Proof.
  unfold Limits.validate, limits_ok, in_range. split; [repeat case_match; try done; lia|].
  intros H. repeat case_match; try done; lia.
Qed.
Lemma producer_inputs s :
  Spec.producer_has_inputs s = false ↔
  (sp_drain s = Native.Producer → Forall (λ p, ps_direction p = Output) (cd_ports (sp_descriptor s))).
Proof.
  unfold Spec.producer_has_inputs. rewrite andb_false_iff, bool_decide_eq_false. split.
  - intros [?|Hp] Hd; [done|]. apply Forall_forall. intros p Hin.
    destruct (ps_direction p) eqn:Hdir; [|done]. exfalso. revert Hp. apply not_false_iff_true.
    apply existsb_exists. exists p. split; [by apply list_elem_of_In|]. by rewrite bool_decide_eq_true.
  - intros H. destruct (decide (sp_drain s = Native.Producer)) as [Hd|]; [|by left]. right.
    apply not_true_iff_false. intros (p & Hin & Hdir)%existsb_exists. specialize (H Hd).
    rewrite Forall_forall in H. apply list_elem_of_In in Hin. rewrite bool_decide_eq_true in Hdir.
    specialize (H p Hin). congruence.
Qed.
Lemma period_bounds s : Spec.bad_period s = false ↔ ∀ p, sp_period s = Some p → (0 < p ≤ seconds 86400)%N.
Proof.
  unfold Spec.bad_period. destruct (sp_period s) as [p|]; [|naive_solver].
  split; [intros ? p' [= ->]; lia|]. intros H. specialize (H p eq_refl). lia.
Qed.
Lemma spec_checks s :
  (Limits.validate (sp_limits s) = Ok tt ∧ Spec.producer_has_inputs s = false ∧ Spec.bad_period s = false) ↔ spec_ok s.
Proof. unfold spec_ok. by rewrite limits_validate, producer_inputs, period_bounds. Qed.

Lemma validate_config_ok s v v' :
  Spec.validate_config s v = Ok v' ↔
  spec_ok s ∧ SchemaCheck.validate (sp_configuration s) = Ok tt ∧
  ∃ b, Encode.encode (sp_configuration s) v (nl_max_config_bytes (sp_limits s)) = Ok b ∧
       Decode.decode (sp_configuration s) b = Ok v'.
Proof.
  rewrite <- spec_checks. unfold Spec.validate_config, Spec.and_then, Spec.lift_schema. split.
  - intros H. repeat case_match; simplify_eq; try done; try (destruct a; done).
    repeat match goal with u : unit |- _ => destruct u end. naive_solver.
  - intros ((-> & -> & ->) & -> & b & -> & ->). done.
Qed.

Definition ticker : NativeSpec := MkSpec
  (MkDescriptor "ticker" 1 [MkPortSpec "out" Output TPulse] [])
  (MkSchema "Config" 1 [MkField "rate" (TyFloat true); MkField "count" (TyUInt 0 10)])
  (MkLimits 32 64 0 0 16384) (Some (seconds 1)) Native.Producer FailureAction.StopActor.
Definition ticker_value : Value := VRecord [VFloat 18444492273895866369; VUInt 3].

(** A native component's configuration is accepted exactly when its limits,
    period and drain policy are in bounds (a producer has no input port) and its
    schema encodes the value within the configured bytes; what the component then
    receives is that value with canonical NaNs, and validating it again accepts it
    and returns it unchanged. *)
Theorem config_exact s v v' :
  value_ok v = true →
  (Spec.validate_config s v = Ok v' ↔
   spec_ok s ∧ v' = canon v ∧
   ∃ b, Encode.encode (sp_configuration s) v (nl_max_config_bytes (sp_limits s)) = Ok b) ∧
  (Spec.validate_config s v = Ok v' → Spec.validate_config s v' = Ok v').
Proof.
  intros Hv. split.
  - rewrite validate_config_ok. split.
    + intros (Hs & _ & b & Hb & Hd). destruct (read_roundtrip _ _ _ _ Hv Hb) as [Hd' _].
      split_and!; [done|congruence|eauto].
    + intros (Hs & -> & b & Hb). pose proof (encode_ok _ _ _ _ Hb) as (Hval & _).
      destruct (read_roundtrip _ _ _ _ Hv Hb) as [Hd _]. eauto 10.
  - rewrite !validate_config_ok. intros (Hs & Hval & b & Hb & Hd).
    destruct (read_roundtrip _ _ _ _ Hv Hb) as [_ Hl]. pose proof (encode_ok _ _ _ _ Hb) as (_ & Hm & _).
    destruct (write_within _ _ _ _ Hd Hl Hm) as (_ & _ & He). eauto 10.
Qed.
Lemma config_exact_witness :
  Spec.validate_config ticker ticker_value = Ok (canon ticker_value) ∧
  Spec.validate_config ticker (canon ticker_value) = Ok (canon ticker_value).
Proof.
  assert (Spec.validate_config ticker ticker_value = Ok (canon ticker_value)) as H by (vm_compute; reflexivity).
  split; [exact H|]. apply (config_exact ticker ticker_value (canon ticker_value)); [reflexivity|exact H].
Defined.
