(* ===== verification/NativeState.v ===== *)
(** * What the native runtime keeps behind locks

    The World, the statistics of each component ([NativeStats] of
    [runtime-native/src/sdk.rs]), the output reservation of each job, and the shared
    objects of the built-in components, of TCP listeners and of the Python bridge: every
    [Arc] of a mutex, an atomic flag or a oneshot channel is a cell with a number of its
    own. *)
From S2P Require Import Prelude.
From S2P Require Import Collections.
From S2P Require Import Types.
From S2P Require Import WorldState.

(** [i64::checked_add]. *)
Definition checked_add_i64 (a b : Z) : option Z :=
  if (- 2 ^ 63 <=? a + b)%Z && (a + b <? 2 ^ 63)%Z then Some (a + b)%Z else None.
(** A [u64] counter that saturates. *)
Definition bump (n : N) : N := saturating_add u64_max n 1.

(** [NativeStats], one per component. *)
Record NativeStats := MkNativeStats {
  ns_turns : N; ns_handled : N; ns_ticks : N; ns_effects_attempted : N; ns_jobs_submitted : N }.
#[export] Instance NativeStats_expand : Expand NativeStats := λ r,
  MkNativeStats (ns_turns r) (ns_handled r) (ns_ticks r) (ns_effects_attempted r) (ns_jobs_submitted r).
Definition default_stats : NativeStats := MkNativeStats 0 0 0 0 0.

(** ** Cells *)

(** [ComponentStats] of [components.rs]. *)
Record ComponentStats := MkComponentStats {
  cs_generated : N; cs_processed : N; cs_summaries : N; cs_sink_received : N; cs_last_total : Z }.
#[export] Instance ComponentStats_expand : Expand ComponentStats := λ r,
  MkComponentStats (cs_generated r) (cs_processed r) (cs_summaries r) (cs_sink_received r) (cs_last_total r).
Definition default_component_stats : ComponentStats := MkComponentStats 0 0 0 0 0.
(** [PipelineSnapshot] of [lib.rs]. *)
Record PipelineSnapshot := MkSnapshot {
  ps_generated : N; ps_processed : N; ps_summaries : N; ps_sink_received : N;
  ps_first_progress : option N; ps_last_progress : option N; ps_last_total : Z; ps_total_ticks : Z }.
#[export] Instance PipelineSnapshot_expand : Expand PipelineSnapshot := λ r,
  MkSnapshot (ps_generated r) (ps_processed r) (ps_summaries r) (ps_sink_received r)
    (ps_first_progress r) (ps_last_progress r) (ps_last_total r) (ps_total_ticks r).
Definition default_snapshot : PipelineSnapshot := MkSnapshot 0 0 0 0 None None 0 0.
(** [Registry] of [controls.rs]: each entry owns the sender of a channel. *)
Record reply_entry := MkEntry { re_owner : ActorRef; re_sender : N }.
Record Registry := MkRegistry { rg_limit : N; rg_entries : gmap OperationId reply_entry }.
#[export] Instance Registry_expand : Expand Registry := λ r, MkRegistry (rg_limit r) (rg_entries r).
(** A oneshot channel: open, holding what was sent, or left by its sender or its
    receiver. *)
Inductive channel := ChOpen | ChSent (held : HeldPayload) | ChNoSender | ChNoReceiver.
(** [TcpStats] of [io/mod.rs]. *)
Record TcpStats := MkTcpStats {
  tp_accepted_connections : N; tp_rejected_connections : N; tp_closed_connections : N;
  tp_cancelled_connections : N; tp_drained_connections : N; tp_frames_received : N; tp_requests_admitted :
  N; tp_frames_written : N; tp_bytes_received : N; tp_bytes_written : N; tp_oversized_frames : N;
  tp_truncated_frames : N; tp_read_errors : N; tp_write_errors : N; tp_read_timeouts : N;
  tp_request_timeouts : N; tp_write_timeouts : N; tp_budget_rejections : N; tp_admission_rejections : N;
  tp_failed_requests : N; tp_invalid_replies : N; tp_listener_errors : N }.
#[export] Instance TcpStats_expand : Expand TcpStats := λ r,
  MkTcpStats (tp_accepted_connections r) (tp_rejected_connections r) (tp_closed_connections r)
    (tp_cancelled_connections r) (tp_drained_connections r) (tp_frames_received r) (tp_requests_admitted r)
    (tp_frames_written r) (tp_bytes_received r) (tp_bytes_written r) (tp_oversized_frames r)
    (tp_truncated_frames r) (tp_read_errors r) (tp_write_errors r) (tp_read_timeouts r) (tp_request_timeouts
    r) (tp_write_timeouts r) (tp_budget_rejections r) (tp_admission_rejections r) (tp_failed_requests r)
    (tp_invalid_replies r) (tp_listener_errors r).
Definition default_tcp_stats : TcpStats := MkTcpStats 0 0 0 0 0 0 0 0 0 0 0 0 0 0 0 0 0 0 0 0 0 0.
(** A mutex whose guard never leaves one action: its value, and whether a thread
    panicked while it held it. *)
Record mutex (A : Type) := MkMutex { mx_poisoned : bool; mx_value : A }.
Arguments MkMutex {A}.
Arguments mx_poisoned {A}.
Arguments mx_value {A}.
(** The mutex of [NativeWorld::runtime], whose guard does: taken or not, poisoned or
    not, with the runtime or without it. *)
Record runtime_mutex := MkRuntimeMutex { rm_locked : bool; rm_poisoned : bool; rm_present : bool }.
#[export] Instance runtime_mutex_expand : Expand runtime_mutex := λ r,
  MkRuntimeMutex (rm_locked r) (rm_poisoned r) (rm_present r).
Inductive cell :=
| Counters (stats : ComponentStats)
| Pipeline (snapshot : PipelineSnapshot)
| Flag (b : bool)
| Replies (registry : Registry)
| Oneshot (c : channel)
| TcpStatistics (stats : TcpStats)
| TcpConnections (connections : gmap N ActorRef)
| Claims (claims : mutex (gmap N (N * DeliveryLease)))
| FailureClaims (claims : mutex (gmap N (N * FailureLease)))
| RuntimeSlot (slot : runtime_mutex)
| Entries (entries : N).

(** [sh_poisoned]: a thread panicked while it held the World's lock. *)
Record Shared := MkShared {
  sh_world : World; sh_poisoned : bool; sh_stats : gmap N NativeStats; sh_outputs : gmap N N; sh_cells : gmap N cell }.
#[export] Instance Shared_expand : Expand Shared := λ r,
  MkShared (sh_world r) (sh_poisoned r) (sh_stats r) (sh_outputs r) (sh_cells r).
(** [self.inner.state.lock().unwrap()], and a method run under the lock: it panics on
    a poisoned lock, and poisons the lock when it panics itself. *)
Definition is_panic {E A} (o : outcome E A) : bool := match o with Panic => true | _ => false end.
Definition locked {E A} (m : M World E A) (s : Shared) : outcome E A * Shared :=
  if sh_poisoned s then (Panic, s) else
  let '(o, w) := m (sh_world s) in
  (o, s <| sh_world := w |> <| sh_poisoned := is_panic o |>).
(** A new cell, and access to one. *)
Definition alloc_cell (c : cell) (s : Shared) : N * Shared :=
  let id := fresh (dom (sh_cells s)) in
  (id, s <| sh_cells ::= <[id := c]> |>).
Definition write_cell (id : N) (c : cell) (s : Shared) : Shared := s <| sh_cells ::= <[id := c]> |>.
