(* ===== verification/Native.v ===== *)
(** * The native runtime: threads, counters and semaphores

    [runtime-native]: threads and Tokio tasks share a World behind its lock, the
    atomic counters of [CpuExecutor] and counting semaphores.  A thread is a program of
    atomic actions ([prog]), and threads interleave action by action ([rt_step]).  A
    panic and the drop of a future at an [await] both unwind ([Halt]), running the
    destructors of what is in scope ([finally]).

    [wp] checks a program against the tokens its thread owns: what it has added to a
    counter, and the permits it holds.  Programs that balance their tokens keep the
    counters equal to what the threads own, in every interleaving
    ([accounted_step]). *)
From S2P Require Import Prelude.
From S2P Require Import Collections.
From S2P Require Import Text.
From S2P Require Import Types.
From S2P Require Import WorldState.
From S2P Require Import NativeConfig.
From S2P Require Import NativeState.

(** ** Shared state *)

(** The fields of [Counters], and the semaphores. *)
Inductive counter := Queued | Running | Submitted | Completed | Cancelled | Panicked | Rejected.
Inductive pool := Slots | Workers | CpuJobs | Local (component : N).
#[export] Instance counter_eq_dec : EqDecision counter.
Proof. solve_decision. Defined.
#[export] Instance pool_eq_dec : EqDecision pool.
Proof. solve_decision. Defined.
#[export] Instance pool_countable : Countable pool.
Proof.
  refine (inj_countable'
    (λ p, match p with Slots => inl 0%N | Workers => inl 1%N | CpuJobs => inl 2%N | Local c => inr c end)
    (λ x, match x with inl 0%N => Slots | inl 1%N => Workers | inl _ => CpuJobs | inr c => Local c end) _).
  by intros [].
Defined.

(** A semaphore: permits left, the permits it was made with, closed or not. *)
Record Semaphore := MkSemaphore { sm_available : N; sm_limit : N; sm_closed : bool }.
#[export] Instance Semaphore_expand : Expand Semaphore := λ r,
  MkSemaphore (sm_available r) (sm_limit r) (sm_closed r).
(** The counter of a buffer budget ([BudgetState] of [io/framing.rs]). *)
Record BudgetState := MkBudgetState { bd_limit : N; bd_used : N }.
#[export] Instance BudgetState_expand : Expand BudgetState := λ r, MkBudgetState (bd_limit r) (bd_used r).
Record Runtime := MkRuntime {
  rt_shared : Shared; rt_counters : counter → N; rt_pools : gmap pool Semaphore; rt_budgets : gmap N BudgetState;
  rt_components : N; rt_time : N }.
#[export] Instance Runtime_expand : Expand Runtime := λ r,
  MkRuntime (rt_shared r) (rt_counters r) (rt_pools r) (rt_budgets r) (rt_components r) (rt_time r).
Definition budget_of (s : Runtime) (b : N) : BudgetState := default (MkBudgetState 0 0) (rt_budgets s !! b).
Definition on_budget (b : N) (f : BudgetState → BudgetState) (s : Runtime) : Runtime :=
  s <| rt_budgets ::= alter f b |>.
Definition pool_of (s : Runtime) (p : pool) : Semaphore := default (MkSemaphore 0 0 true) (rt_pools s !! p).
Definition at_counter (c : counter) (f : N → N) (m : counter → N) : counter → N :=
  λ c', if decide (c' = c) then f (m c') else m c'.
Definition on_pool (p : pool) (f : Semaphore → Semaphore) (s : Runtime) : Runtime :=
  s <| rt_pools ::= alter f p |>.

(** ** Actions *)
Inductive acquire_poll := Parked | Refused | Acquired.
(** [Atomic] is a critical section; [PollAcquire] polls the future of
    [Semaphore::acquire_owned], which may still have waiters before it; [NewPool]
    makes the semaphore of a component, and numbers it; [Charge] is the exchange that
    ends [reserve_local], [Uncharge] the [fetch_sub] of [release]; [Now] is [tokio::time]'s clock;
    [Choose] is a choice the source leaves open (the branch of a [select!]); [Await] is
    a point where the task may be dropped instead of resumed. *)
Inductive act : Type → Type :=
| Atomic {A} (f : Shared → A * Shared) : act A
| FetchAdd (c : counter) : act unit
| FetchSub (c : counter) : act unit
| LoadCounter (c : counter) : act N
| TryAcquire (p : pool) (n : nat) : act bool
| PollAcquire (p : pool) : act acquire_poll
| Release (p : pool) (n : nat) : act unit
| AvailablePermits (p : pool) : act N
| Close (p : pool) : act unit
| NewPool (limit : N) : act N
| NewBudget (limit : N) : act N
| Charge (b n : N) : act bool
| Uncharge (b n : N) : act unit
| UsedBytes (b : N) : act N
| Now : act N
| Choose : act bool
| Await : act bool.

(** Nothing unpoisons a lock.  The oracle decides what the source does not: whether a waiting acquisition is
    served, the branch of a select, whether a task is resumed. *)
Definition run_act (oracle : bool) {A} (a : act A) (s : Runtime) : A * Runtime :=
  match a in act A return A * Runtime with
  | Atomic f =>
      let '(b, sh) := f (rt_shared s) in
      (b, s <| rt_shared := sh <| sh_poisoned ::= orb (sh_poisoned (rt_shared s)) |> |>)
  | FetchAdd c => (tt, s <| rt_counters ::= at_counter c (λ n, (n + 1) mod 2 ^ 64)%N |>)
  | FetchSub c => (tt, s <| rt_counters ::= at_counter c (λ n, (n + 2 ^ 64 - 1) mod 2 ^ 64)%N |>)
  | LoadCounter c => (rt_counters s c, s)
  | TryAcquire p n =>
      if negb (sm_closed (pool_of s p)) && (N.of_nat n <=? sm_available (pool_of s p))%N
      then (true, on_pool p (λ m, m <| sm_available ::= λ k, (k - N.of_nat n)%N |>) s)
      else (false, s)
  | PollAcquire p =>
      if sm_closed (pool_of s p) then (Refused, s) else
      if oracle && (1 <=? sm_available (pool_of s p))%N
      then (Acquired, on_pool p (λ m, m <| sm_available ::= N.pred |>) s)
      else (Parked, s)
  | Release p n => (tt, on_pool p (λ m, m <| sm_available ::= λ k, (k + N.of_nat n)%N |>) s)
  | AvailablePermits p => (sm_available (pool_of s p), s)
  | Close p => (tt, on_pool p (λ m, m <| sm_closed := true |>) s)
  | NewPool limit =>
      let c := rt_components s in
      (c, s <| rt_pools ::= <[Local c := MkSemaphore limit limit false]> |> <| rt_components ::= N.succ |>)
  | NewBudget limit =>
      let b := rt_components s in
      (b, s <| rt_budgets ::= <[b := MkBudgetState limit 0]> |> <| rt_components ::= N.succ |>)
  | Charge b n =>
      match checked_add usize_max (bd_used (budget_of s b)) n with
      | Some next =>
          if (bd_limit (budget_of s b) <? next)%N then (false, s)
          else (true, on_budget b (λ d, d <| bd_used := next |>) s)
      | None => (false, s)
      end
  | Uncharge b n => (tt, on_budget b (λ d, d <| bd_used ::= λ k, (k + 2 ^ 64 - n) mod 2 ^ 64 |>)%N s)
  | UsedBytes b => (bd_used (budget_of s b), s)
  | Now => (rt_time s, s)
  | Choose | Await => (oracle, s)
  end.

(** ** Programs *)
(** A panic, the drop of the task, or a panic on the World's lock, poisoned by this
    thread or another: the thread stops for good. *)
Inductive halt := HPanic | HDrop | HPoisoned.
#[export] Instance halt_eq_dec : EqDecision halt.
Proof. solve_decision. Defined.
Inductive prog : Type → Type :=
| Ret {A} (a : A) : prog A
| Halt {A} (why : halt) : prog A
| Do {A B} (a : act B) (k : B → prog A) : prog A
| Spawn {A} (task : prog unit) (k : prog A) : prog A
| Loop {S A B} (body : S → prog (S + A)) (s : S) (k : A → prog B) : prog B.

Fixpoint pbind {A B} (m : prog A) : (A → prog B) → prog B :=
  match m in prog A return (A → prog B) → prog B with
  | Ret a => λ f, f a
  | Halt why => λ _, Halt why
  | Do a k => λ f, Do a (λ b, pbind (k b) f)
  | Spawn task k => λ f, Spawn task (pbind k f)
  | Loop body s k => λ f, Loop body s (λ a, pbind (k a) f)
  end.
Declare Scope prog_scope.
Delimit Scope prog_scope with prog.
Notation "'do!' x ':=' m 'in' k" := (pbind m (λ x, k))
  (at level 10, x pattern, m at level 100, k at level 200) : prog_scope.
Notation "m ';;>' k" := (pbind m (λ _, k)) (at level 199, right associativity) : prog_scope.
Open Scope prog_scope.

(** What became of a computation, as its scope sees it. *)
Fixpoint caught {A} (m : prog A) : prog (halt + A) :=
  match m in prog A return prog (halt + A) with
  | Ret a => Ret (inr a)
  | Halt why => Ret (inl why)
  | Do a k => Do a (λ b, caught (k b))
  | Spawn task k => Spawn task (caught k)
  | Loop body s k =>
      Loop (λ s, pbind (caught (body s)) (λ r, Ret match r with
                   | inl why => inr (inl why)
                   | inr (inl s) => inl s
                   | inr (inr a) => inr (inr a)
                   end)) s
        (λ r, match r with inl why => Ret (inl why) | inr a => caught (k a) end)
  end.
(** [catch_unwind]: only a panic is caught. *)
Definition catch_unwind {A} (m : prog A) : prog (option A) :=
  do! r := caught m in
  match r with
  | inr a => Ret (Some a)
  | inl HPanic => Ret None
  | inl why => Halt why
  end.
(** [cleanup] runs when [m] unwinds; [finally]: in any case, as the destructor of a
    local of [m]. *)
Definition unwinding {A} (m : prog A) (cleanup : prog unit) : prog A :=
  do! r := caught m in
  match r with
  | inr a => Ret a
  | inl HPoisoned => Halt HPoisoned
  | inl why => cleanup ;;> Halt why
  end.
Definition finally {A} (m : prog A) (cleanup : prog unit) : prog A :=
  do! a := unwinding m cleanup in
  cleanup ;;>
  Ret a.

Definition do {A} (a : act A) : prog A := Do a Ret.
Definition await : prog unit := do! resumed := do Await in if resumed : bool then Ret tt else Halt HDrop.
Definition loop {S A} (body : S → prog (S + A)) (s : S) : prog A := Loop body s Ret.
(** A call on the World, and its [?] and [let _ =]. *)
Definition on_world {E A} (m : M World E A) : prog (E + A) :=
  do! o := do (Atomic (locked m)) in
  match o with
  | Ok a => Ret (inr a)
  | Err e => Ret (inl e)
  | Prelude.Panic => Halt HPoisoned
  end.
Definition count (c : counter) : prog unit := do (FetchAdd c).
Definition uncount (c : counter) : prog unit := do (FetchSub c).

(** [tokio::time::sleep_until]. *)
Definition sleep_until (deadline : N) : prog unit :=
  loop (λ _ : unit,
    do! t := do Now in
    if (deadline <=? t)%N then Ret (inr tt) else
    await ;;>
    Ret (inl tt)) tt.
Definition sleep (duration : N) : prog unit :=
  do! t := do Now in
  sleep_until (t + duration)%N.

(** ** Threads *)
Definition step (oracle : bool) {A} (p : prog A) (s : Runtime) : option (prog A * Runtime * list (prog unit)) :=
  match p in prog A return option (prog A * Runtime * list (prog unit)) with
  | Ret _ | Halt _ => None
  | Do a k => let '(b, s) := run_act oracle a s in Some (k b, s, [])
  | Spawn task k => Some (k, s, [task])
  | Loop body st k => Some (pbind (body st) (λ r, match r with inl st => Loop body st k | inr a => k a end), s, [])
  end.
Definition machine : Type := list (prog unit) * Runtime.
Inductive rt_step : machine → machine → Prop :=
| rt_thread ts s i p oracle p' s' tasks :
    ts !! i = Some p → step oracle p s = Some (p', s', tasks) →
    rt_step (ts, s) (<[i:=p']> ts ++ tasks, s')
| rt_clock ts s t :
    (rt_time s ≤ t)%N → rt_step (ts, s) (ts, s <| rt_time := t |>).
Definition over {A} (p : prog A) : Prop :=
  match p with Ret _ | Halt HPanic | Halt HDrop => True | _ => False end.

(** A schedule: the threads that run, with the choices made for them.  A thread that is
    over does nothing. *)
Inductive choice := Run (thread : nat) (oracle : bool) | Pass (time : N).
Definition choose (c : choice) (m : machine) : machine :=
  match c with
  | Run i oracle =>
      match m.1 !! i with
      | Some p => match step oracle p m.2 with
                  | Some (p', s, tasks) => (<[i:=p']> m.1 ++ tasks, s)
                  | None => m
                  end
      | None => m
      end
  | Pass time => (m.1, m.2 <| rt_time ::= λ t, (t + time)%N |>)
  end.
Definition schedule (choices : list choice) (m : machine) : machine := foldl (λ m c, choose c m) m choices.
Lemma schedule_reachable choices m : rtc rt_step m (schedule choices m).
Proof.
  revert m. induction choices as [|c choices IH]; intros m; simpl; [done|].
  etrans; [|apply IH]. destruct m as [ts s], c as [i oracle|time]; simpl; [|apply rtc_once; constructor; simpl; lia].
  destruct (ts !! i) as [p|] eqn:Hi; [|done]. destruct (step oracle p s) as [[[p' s'] tasks]|] eqn:Hs; [|done].
  by eapply rtc_once, rt_thread.
Qed.
