(* ===== verification/NativeResults.v ===== *)
(** * What a program of the native runtime returns

    [total p Q]: whatever the other threads do between its actions, [p] ends after
    finitely many actions of its own, and what becomes of it satisfies [Q].
    [ends_as p r] is one run of [p]; [thread_ends] relates it to the threads of a
    machine, and [total_ends] and [total_finite] are what [total] promises. *)
From S2P Require Import Prelude.
From S2P Require Import Collections.
From S2P Require Import Types.
From S2P Require Import WorldState.
From S2P Require Import NativeState.
From S2P Require Import Native.

(** ** Results *)
Inductive total : ∀ {A}, prog A → (halt + A → Prop) → Prop :=
| total_ret {A} (a : A) (Q : halt + A → Prop) : Q (inr a) → total (Ret a) Q
| total_halt {A} why (Q : halt + A → Prop) : Q (inl why) → total (Halt why) Q
| total_do {A B} (a : act B) (k : B → prog A) (Q : halt + A → Prop) :
    (∀ oracle s, total (k (run_act oracle a s).1) Q) → total (Do a k) Q
| total_spawn {A} task (k : prog A) (Q : halt + A → Prop) : total k Q → total (Spawn task k) Q
| total_loop {S A B} (body : S → prog (S + A)) s (k : A → prog B) (M : halt + (S + A) → Prop) (Q : halt + B → Prop) :
    total (body s) M →
    (∀ s, M (inr (inl s)) → total (Loop body s k) Q) → (∀ a, M (inr (inr a)) → total (k a) Q) →
    (∀ why, M (inl why) → Q (inl why)) → total (Loop body s k) Q.
(** One run of a thread, the others acting in between. *)
Inductive ends_as : ∀ {A}, prog A → halt + A → Prop :=
| ends_ret {A} (a : A) : ends_as (Ret a) (inr a)
| ends_halt {A} why : ends_as (Halt (A:=A) why) (inl why)
| ends_do {A B} (a : act B) (k : B → prog A) oracle s r :
    ends_as (k (run_act oracle a s).1) r → ends_as (Do a k) r
| ends_spawn {A} task (k : prog A) r : ends_as k r → ends_as (Spawn task k) r
| ends_again {S A B} (body : S → prog (S + A)) s s' (k : A → prog B) r :
    ends_as (body s) (inr (inl s')) → ends_as (Loop body s' k) r → ends_as (Loop body s k) r
| ends_exit {S A B} (body : S → prog (S + A)) s a (k : A → prog B) r :
    ends_as (body s) (inr (inr a)) → ends_as (k a) r → ends_as (Loop body s k) r
| ends_stuck {S A B} (body : S → prog (S + A)) s (k : A → prog B) why :
    ends_as (body s) (inl why) → ends_as (Loop body s k) (inl why).
(** A step of the thread's own. *)
Definition own_step {A} (p' p : prog A) : Prop := ∃ oracle s s' tasks, step oracle p s = Some (p', s', tasks).

(** ** Rules *)
Lemma total_mono {A} (p : prog A) (Q Q' : halt + A → Prop) : (∀ r, Q r → Q' r) → total p Q → total p Q'.
Proof. intros HQ H. revert Q' HQ. induction H; intros Q' HQ; try (constructor; auto); econstructor; eauto. Qed.
Lemma total_bind {A B} (m : prog A) (f : A → prog B) (M : halt + A → Prop) Q :
  total m M → (∀ a, M (inr a) → total (f a) Q) → (∀ why, M (inl why) → Q (inl why)) → total (pbind m f) Q.
Proof.
  intros H. revert B f Q. induction H; intros B' f Q' HQ HE; simpl; auto.
  - constructor. auto.
  - constructor. intros oracle s. by apply H0.
  - constructor. auto.
  - eapply total_loop; [exact H|..]; auto. intros s' Hs. by apply (H1 s' Hs B' f).
Qed.
Lemma total_caught {A} (m : prog A) Q : total m (λ r, Q (inr r)) → total (caught m) Q.
Proof.
  remember (λ r, Q (inr r)) as P eqn:HP. assert (∀ r, P r → Q (inr r)) as HQ by (by subst). clear HP.
  intros H. revert Q HQ. induction H; intros P HQ; simpl; try (by constructor; auto).
  eapply (total_loop _ _ _ (λ r, match r with
      | inr (inl s) => M (inr (inl s))
      | inr (inr (inr a)) => M (inr (inr a))
      | inr (inr (inl why)) => M (inl why)
      | inl _ => False
      end)).
  - eapply (total_bind _ _ (λ r, match r with inr r => M r | inl _ => False end)); [|intros [why|[s'|a]] Hr; by constructor|done].
    apply IHtotal. by intros [].
  - intros s' Hs. by apply (H1 s' Hs).
  - intros [why|a] Ha; [constructor; auto|by apply H3].
  - done.
Qed.
Lemma total_loop_measure {S A B} (body : S → prog (S + A)) (k : A → prog B) (I : S → Prop) (measure : S → nat) Q s :
  I s →
  (∀ s, I s → total (body s) (λ r, match r with
     | inr (inl s') => I s' ∧ (measure s' < measure s)%nat
     | inr (inr a) => total (k a) Q
     | inl why => Q (inl why)
     end)) →
  total (Loop body s k) Q.
Proof.
  intros Hs Hbody. remember (measure s) as n eqn:Hn. revert s Hs Hn.
  induction n as [n IH] using lt_wf_ind. intros s Hs ->.
  eapply total_loop; [by apply Hbody|..]; simpl; [|done..]. intros s' [? Hlt]. by eapply IH.
Qed.
Lemma total_atomic {A} (f : Shared → A * Shared) (Q : halt + A → Prop) :
  (∀ s, Q (inr (f s).1)) → total (do (Atomic f)) Q.
Proof.
  intros HQ. constructor. intros oracle s. constructor. specialize (HQ (rt_shared s)). simpl.
  by destruct (f (rt_shared s)).
Qed.
Lemma total_on_world {Er A} (m : M World Er A) (Q : halt + (Er + A) → Prop) :
  Q (inl HPoisoned) →
  (∀ w, match (m w).1 with Ok a => Q (inr (inr a)) | Err e => Q (inr (inl e)) | Prelude.Panic => True end) →
  total (on_world m) Q.
Proof.
  intros HP HQ. eapply (total_bind _ _ (λ r, match r with inr o => o = Prelude.Panic ∨ ∃ w, o = (m w).1 | inl _ => False end)).
  - apply total_atomic. intros s. unfold locked. destruct (sh_poisoned s); [by left|]. right.
    exists (sh_world s). by destruct (m (sh_world s)).
  - intros o [->|[w ->]]; [by constructor|]. specialize (HQ w). destruct (m w).1; by constructor.
  - done.
Qed.
Lemma total_catch_unwind {A} (m : prog A) (Q : halt + option A → Prop) :
  total m (λ r, match r with inr a => Q (inr (Some a)) | inl HPanic => Q (inr None) | inl why => Q (inl why) end) →
  total (catch_unwind m) Q.
Proof.
  intros H. eapply (total_bind _ _ (λ r, match r with
    | inr (inr a) => Q (inr (Some a)) | inr (inl HPanic) => Q (inr None) | inr (inl why) => Q (inl why) | inl _ => False end)).
  - apply total_caught. eapply total_mono; [|exact H]. by intros [[]|].
  - intros [[]|a] Hr; by constructor.
  - done.
Qed.
(** A cleanup that always ends normally. *)
Lemma total_finally {A} (m : prog A) cleanup (Q : halt + A → Prop) :
  total cleanup (λ r, r = inr tt) → total m Q → total (finally m cleanup) Q.
Proof.
  intros Hc H. eapply (total_bind _ _ Q).
  - eapply (total_bind _ _ (λ r, match r with inr r => Q r | inl _ => False end)).
    + apply total_caught. eapply total_mono; [|exact H]. done.
    + assert (∀ why, Q (inl why) → total (cleanup ;;> Halt (A:=A) why) Q) as Hhalt.
      { intros why Hw. eapply total_bind; [exact Hc|by intros; constructor|done]. }
      intros [[]|a] Hr; try (by constructor); auto.
    + done.
  - intros a Ha. eapply total_bind; [exact Hc|by intros; constructor|done].
  - done.
Qed.

(** ** What [total] promises *)
Definition ends_inv {A} (p : prog A) : halt + A → Prop :=
  match p in prog A return halt + A → Prop with
  | Ret a => λ r, r = inr a
  | Halt why => λ r, r = inl why
  | Do a k => λ r, ∃ oracle s, ends_as (k (run_act oracle a s).1) r
  | Spawn _ k => λ r, ends_as k r
  | Loop body s k => λ r,
      (∃ s', ends_as (body s) (inr (inl s')) ∧ ends_as (Loop body s' k) r) ∨
      (∃ a, ends_as (body s) (inr (inr a)) ∧ ends_as (k a) r) ∨
      (∃ why, ends_as (body s) (inl why) ∧ r = inl why)
  end.
Lemma ends_as_inv {A} (p : prog A) r : ends_as p r → ends_inv p r.
Proof. destruct 1; simpl; eauto 10. Qed.
Lemma total_ends {A} (p : prog A) Q r : total p Q → ends_as p r → Q r.
Proof.
  intros Ht. induction Ht; intros He%ends_as_inv; simpl in He; try (by subst); auto.
  - destruct He as (oracle & s & He). eauto.
  - destruct He as [(s' & Hb & He)|[(a & Hb & He)|(why & Hb & ->)]]; eauto.
Qed.
(** The rounds of a loop. *)
Definition ends_rounds {A} (p : prog A) : halt + A → Prop :=
  match p in prog A return halt + A → Prop with
  | Loop body s k => λ r, ∃ s', rtc (λ x y, ends_as (body x) (inr (inl y))) s s' ∧
      ((∃ a, ends_as (body s') (inr (inr a)) ∧ ends_as (k a) r) ∨ (∃ why, ends_as (body s') (inl why) ∧ r = inl why))
  | _ => λ _, True
  end.
Lemma ends_as_rounds {A} (p : prog A) r : ends_as p r → ends_rounds p r.
Proof.
  induction 1; simpl; auto.
  - destruct IHends_as2 as (s2 & Hs & H2). exists s2. split; [by eapply rtc_l|done].
  - exists s. split; [done|]. left. eauto.
  - exists s. split; [done|]. right. eauto.
Qed.
Lemma ends_bind {A B} (m : prog A) (f : A → prog B) r :
  ends_as (pbind m f) r →
  (∃ a, ends_as m (inr a) ∧ ends_as (f a) r) ∨ (∃ why, ends_as m (inl why) ∧ r = inl why).
Proof.
  revert B f r. induction m as [| |A A' a k IH|A task _ k IH|S A A' body IHb s k IHk]; intros B f r H; simpl in H.
  - left. eexists; split; [constructor|done].
  - right. apply ends_as_inv in H. simpl in H. eexists; split; [constructor|done].
  - apply ends_as_inv in H as (oracle & st & H). apply IH in H as [(x & ? & ?)|(w & ? & ->)].
    + left. exists x. split; [by econstructor|done].
    + right. exists w. split; [by econstructor|done].
  - apply ends_as_inv in H. simpl in H. apply IH in H as [(x & ? & ?)|(w & ? & ->)].
    + left. exists x. by split; [constructor|].
    + right. exists w. by split; [constructor|].
  - apply ends_as_rounds in H as (s' & Hs & H).
    assert (∀ x, ends_as (Loop body s' k) x → ends_as (Loop body s k) x) as Hrounds.
    { induction Hs; eauto using ends_again. }
    destruct H as [(a & Ha & H)|(w & Hw & ->)].
    + apply IHk in H as [(x & ? & ?)|(w & ? & ->)]; [left|right]; eexists; eauto using ends_exit.
    + right. eauto using ends_stuck.
Qed.
Lemma step_ends oracle {A} (p p' : prog A) s s' tasks r :
  step oracle p s = Some (p', s', tasks) → ends_as p' r → ends_as p r.
Proof.
  destruct p as [| |A B a k|A task k|S A B body st k]; simpl; intros H He; simplify_eq.
  - pose proof (ends_do a k oracle s r) as Hd. destruct (run_act oracle a s) as [b s1]. simplify_eq. auto.
  - by constructor.
  - apply ends_bind in He as [([s2|a] & Hb & He)|(w & Hw & ->)]; eauto using ends_again, ends_exit, ends_stuck.
Qed.
Lemma thread_ends m m' i p :
  rtc rt_step m m' → m.1 !! i = Some p → ∃ p', m'.1 !! i = Some p' ∧ ∀ r, ends_as p' r → ends_as p r.
Proof.
  intros H. revert p. induction H as [|m m2 m' Hs _ IH]; intros p Hi; [eauto|].
  assert (∃ p2, m2.1 !! i = Some p2 ∧ ∀ r, ends_as p2 r → ends_as p r) as (p2 & H2 & He).
  { destruct Hs as [ts s j q oracle q' s' tasks Hj Hq|]; simpl in *; [|eauto].
    pose proof (lookup_lt_Some _ _ _ Hi) as Hlt. rewrite lookup_app_l by (by rewrite length_insert).
    destruct (decide (i = j)) as [->|Hne].
    - rewrite list_lookup_insert_eq by done. simplify_eq. eauto using step_ends.
    - rewrite list_lookup_insert_ne by done. eauto. }
  destruct (IH p2 H2) as (p' & ? & ?). eauto.
Qed.
Lemma bind_finite {A B} (m : prog A) (f : A → prog B) M :
  total m M → (∀ a, M (inr a) → Acc own_step (f a)) → Acc own_step (pbind m f).
Proof.
  intros H. revert B f. induction H; intros B' f Hf; simpl; [auto|..];
    constructor; intros p' (oracle & s1 & s2 & tasks & Hs); simpl in Hs.
  - done.
  - specialize (H0 oracle s1). destruct (run_act oracle a s1). simplify_eq. auto.
  - simplify_eq. auto.
  - simplify_eq. apply IHtotal. intros [s'|a] Hr; [|auto]. apply (H1 s' Hr B' f Hf).
Qed.
Lemma total_finite {A} (p : prog A) Q : total p Q → Acc own_step p.
Proof.
  induction 1; constructor; intros p' (oracle & s1 & s2 & tasks & Hs); simpl in Hs; simplify_eq; auto.
  - specialize (H0 oracle s1). destruct (run_act oracle a s1). by simplify_eq.
  - eapply bind_finite; [done|]. intros [s'|a] Hr; auto.
Qed.

(** ** Termination alone *)
Definition finite {A} (p : prog A) : Prop := total p (λ _, True).
Lemma finite_ret {A} (a : A) : finite (Ret a).
Proof. by constructor. Qed.
Lemma finite_halt {A} why : finite (Halt (A:=A) why).
Proof. by constructor. Qed.
Lemma finite_do {A} (a : act A) : finite (do a).
Proof. constructor. intros. by constructor. Qed.
Lemma finite_bind {A B} (m : prog A) (k : A → prog B) : finite m → (∀ a, finite (k a)) → finite (pbind m k).
Proof. intros Hm Hk. eapply total_bind; [exact Hm|by intros a _; apply Hk|done]. Qed.
Lemma finite_on_world {Er A} (m : M World Er A) : finite (on_world m).
Proof. apply total_on_world; [done|]. intros w. by destruct (m w).1. Qed.
Ltac finite := repeat match goal with
  | |- finite (Ret _) => apply finite_ret
  | |- finite (Halt _) => apply finite_halt
  | |- finite (do _) => apply finite_do
  | |- finite (on_world _) => apply finite_on_world
  | |- finite (pbind _ _) => apply finite_bind; [|intros ?]
  | |- finite (match ?x with _ => _ end) => destruct x
  end.
