(* ===== verification/NativeLogic.v ===== *)
(** * What a thread owns

    A logic for the programs of [Native.v]: [wp p h Q E] says that [p], run by a thread
    that owns the tokens [h], uses counters and semaphores only as its tokens allow,
    keeps the bounds of [fits] at every action, and ends with tokens [Q] or unwinds
    with [E].  [accounted_reachable]: in every interleaving of threads checked this way,
    counters and permits are what the threads own. *)
From S2P Require Import Prelude.
From S2P Require Import Collections.
From S2P Require Import WorldState.
From S2P Require Import NativeState.
From S2P Require Import Native.

(** ** Tokens *)
Inductive token := TQueued | TRunning | TLive | TPermit (p : pool) | TByte (b : N).
#[export] Instance token_eq_dec : EqDecision token.
Proof. solve_decision. Defined.
Definition owns (t : token) (h : list token) : N := count_by (λ x, bool_decide (x = t)) h.
Fixpoint take_token (t : token) (h : list token) : option (list token) :=
  match h with
  | [] => None
  | x :: h => if decide (x = t) then Some h else cons x <$> take_token t h
  end.
Fixpoint take_tokens (n : nat) (t : token) (h : list token) : option (list token) :=
  match n with O => Some h | S n => h ← take_token t h; take_tokens n t h end.
(** A queued or running job holds a job permit, a running one a worker permit, and
    a job that is not finished one of the runtime's task slots. *)
Record fits (h : list token) : Prop := {
  fits_jobs : (owns TQueued h + owns TRunning h ≤ owns (TPermit CpuJobs) h)%N;
  fits_workers : (owns TRunning h ≤ owns (TPermit Workers) h)%N;
  fits_live : (owns TLive h ≤ owns (TPermit CpuJobs) h)%N;
  fits_slots : (owns TLive h ≤ owns (TPermit Slots) h)%N;
}.

Definition consume (o : option (list token)) (K : list token → Prop) : Prop :=
  match o with Some h => K h | None => False end.
Definition act_wp {A} (a : act A) (h : list token) : (A → list token → Prop) → Prop :=
  match a in act A return (A → list token → Prop) → Prop with
  | Atomic f => λ K, ∀ b, K b h
  | FetchAdd c => λ K, match c with
      | Queued => K tt (TQueued :: h)
      | Running => K tt (TRunning :: h)
      | Submitted => K tt (TLive :: h)
      | Completed | Cancelled | Panicked => consume (take_token TLive h) (K tt)
      | Rejected => K tt h
      end
  | FetchSub c => λ K, match c with
      | Queued => consume (take_token TQueued h) (K tt)
      | Running => consume (take_token TRunning h) (K tt)
      | _ => False
      end
  | LoadCounter c => λ K, ∀ n, K n h
  | TryAcquire p n => λ K, K true (replicate n (TPermit p) ++ h) ∧ K false h
  | PollAcquire p => λ K, K Parked h ∧ K Refused h ∧ K Acquired (TPermit p :: h)
  | Release p n => λ K, consume (take_tokens n (TPermit p) h) (K tt)
  | AvailablePermits _ | UsedBytes _ => λ K, ∀ n, K n h
  | Close p => λ K, K tt h
  | NewPool _ | NewBudget _ => λ K, ∀ id, K id h
  | Charge b n => λ K, K true (replicate (N.to_nat n) (TByte b) ++ h) ∧ K false h
  | Uncharge b n => λ K, consume (take_tokens (N.to_nat n) (TByte b) h) (K tt)
  | Now => λ K, ∀ n, K n h
  | Choose | Await => λ K, K true h ∧ K false h
  end.
Definition spent (h : list token) : Prop := h = [].
Definition settled (why : halt) (h : list token) : Prop := why ≠ HPoisoned → spent h.
Fixpoint wp {A} (p : prog A) : list token → (A → list token → Prop) → (halt → list token → Prop) → Prop :=
  match p in prog A return list token → (A → list token → Prop) → (halt → list token → Prop) → Prop with
  | Ret a => λ h Q E, fits h ∧ Q a h
  | Halt why => λ h Q E, fits h ∧ E why h
  | Do a k => λ h Q E, fits h ∧ act_wp a h (λ b h, wp (k b) h Q E)
  | Spawn task k => λ h Q E, fits h ∧ ∃ h1 h2, h ≡ₚ h1 ++ h2 ∧
      wp task h1 (λ _, spent) settled ∧ wp k h2 Q E
  | @Loop St _ _ body s k => λ h Q E, fits h ∧ ∃ I : St → list token → Prop, I s h ∧
      ∀ s h, I s h → wp (body s) h
        (λ r h, match r with inl s => I s h | inr a => wp (k a) h Q E end) E
  end.

(** ** Facts about tokens *)
Lemma owns_app t h1 h2 : owns t (h1 ++ h2) = (owns t h1 + owns t h2)%N.
Proof. apply sum_by_app. Qed.
Lemma owns_perm t h1 h2 : h1 ≡ₚ h2 → owns t h1 = owns t h2.
Proof. apply sum_by_perm. Qed.
Lemma owns_cons t x h : owns t (x :: h) = (b2n (bool_decide (x = t)) + owns t h)%N.
Proof. done. Qed.
Lemma owns_replicate t n x : owns t (replicate n x) = (N.of_nat n * b2n (bool_decide (x = t)))%N.
Proof. induction n as [|n IH]; [done|]. cbn [replicate]. rewrite owns_cons, IH. lia. Qed.
Create Rewrite HintDb owns.
#[global] Hint Rewrite owns_app owns_cons owns_replicate : owns.
Lemma take_token_perm t h h' : take_token t h = Some h' → h ≡ₚ t :: h'.
Proof.
  revert h'. induction h as [|x h IH]; intros h' H; simpl in H; [done|]. case_decide; simplify_eq; [done|].
  apply fmap_Some in H as (y & H & ->). rewrite (IH _ H). apply Permutation_swap.
Qed.
Lemma take_tokens_perm n t h h' : take_tokens n t h = Some h' → h ≡ₚ replicate n t ++ h'.
Proof.
  revert h h'. induction n as [|n IH]; intros h h' H; simpl in H; [by simplify_eq|].
  apply bind_Some in H as (y & Hy%take_token_perm & H%IH). by rewrite Hy, H.
Qed.
Lemma take_token_app t h h' h2 : take_token t h = Some h' → take_token t (h ++ h2) = Some (h' ++ h2).
Proof.
  revert h'. induction h as [|x h IH]; intros h' H; simpl in *; [done|]. case_decide; simplify_eq; [done|].
  apply fmap_Some in H as (y & H & ->). by rewrite (IH _ H).
Qed.
Lemma take_tokens_app n t h h' h2 : take_tokens n t h = Some h' → take_tokens n t (h ++ h2) = Some (h' ++ h2).
Proof.
  revert h h'. induction n as [|n IH]; intros h h' H; simpl in *; [by simplify_eq|].
  apply bind_Some in H as (y & Hy & H). rewrite (take_token_app _ _ _ _ Hy). simpl. auto.
Qed.
Lemma take_token_perm_some t h h' y : h ≡ₚ h' → take_token t h = Some y → ∃ y', take_token t h' = Some y' ∧ y ≡ₚ y'.
Proof.
  intros Hp H%take_token_perm. assert (t ∈ h') as Hin by (rewrite <- Hp, H; left).
  destruct (take_token t h') as [y'|] eqn:E.
  - exists y'. split; [done|]. apply take_token_perm in E. apply (Permutation_cons_inv (a:=t)).
    by rewrite <- H, <- E.
  - exfalso. clear H Hp. induction h' as [|x h' IH]; [by apply not_elem_of_nil in Hin|]. simpl in E.
    case_decide; [done|]. apply fmap_None in E. apply elem_of_cons in Hin as [?|?]; [congruence|auto].
Qed.
Lemma take_tokens_perm_some n t h h' y : h ≡ₚ h' → take_tokens n t h = Some y →
  ∃ y', take_tokens n t h' = Some y' ∧ y ≡ₚ y'.
Proof.
  revert h h' y. induction n as [|n IH]; intros h h' y Hp H; simpl in *; [simplify_eq; eauto|].
  apply bind_Some in H as (x & Hx & H). destruct (take_token_perm_some _ _ _ _ Hp Hx) as (x' & -> & Hx').
  simpl. eauto.
Qed.
Lemma fits_perm h h' : h ≡ₚ h' → fits h → fits h'.
Proof. intros Hp [????]. split; rewrite <- ?(owns_perm _ _ _ Hp); done. Qed.
#[export] Instance fits_proper : Proper ((≡ₚ) ==> iff) fits.
Proof. intros h h' Hp. split; [by apply fits_perm|]. by apply fits_perm. Qed.
Lemma fits_app h h' : fits h → fits h' → fits (h ++ h').
Proof. intros [????] [????]. split; rewrite !owns_app; lia. Qed.
Lemma fits_nil : fits [].
Proof. done. Qed.
#[export] Hint Resolve fits_app fits_nil : core.
Lemma settled_poisoned h : settled HPoisoned h.
Proof. by intros []. Qed.
Lemma settled_spent why : settled why [].
Proof. done. Qed.
#[export] Hint Resolve settled_poisoned settled_spent : core.

(** ** The rules *)
Lemma wp_fits {A} (p : prog A) h Q E : wp p h Q E → fits h.
Proof. destruct p; cbn [wp]; naive_solver. Qed.
Lemma consume_mono o (K K' : list token → Prop) : (∀ h, K h → K' h) → consume o K → consume o K'.
Proof. destruct o; simpl; auto. Qed.
Lemma act_wp_mono {A} (a : act A) h (K K' : A → list token → Prop) :
  (∀ b h, K b h → K' b h) → act_wp a h K → act_wp a h K'.
Proof.
  intros HK. destruct a; cbn [act_wp]; try destruct c;
    naive_solver eauto using consume_mono.
Qed.
Lemma wp_mono {A} (p : prog A) h (Q Q' : A → list token → Prop) (E E' : halt → list token → Prop) :
  (∀ a h, Q a h → Q' a h) → (∀ w h, E w h → E' w h) → wp p h Q E → wp p h Q' E'.
Proof.
  revert h Q Q' E E'. induction p as [| |A B a k IH|A task _ k IH|S A B body IHb s k IHk];
    intros h Q Q' E E' HQ HE; cbn [wp]; intros [Hf H]; (split; [done|]).
  - auto.
  - auto.
  - eapply act_wp_mono; [|exact H]. intros. eapply IH; eauto.
  - destruct H as (h1 & h2 & Hp & Ht & H). exists h1, h2. split_and!; [done..|]. eapply IH; eauto.
  - destruct H as (I & HI & Hbody). exists I. split; [done|]. intros s' h' HI'.
    eapply IHb; [..|apply Hbody, HI']; [|done]. intros [s2|a] h2; [done|]. intros. eapply IHk; eauto.
Qed.
(** Outcomes fit. *)
Lemma wp_post_fits {A} (p : prog A) h Q E :
  wp p h Q E → wp p h (λ a h, fits h ∧ Q a h) (λ w h, fits h ∧ E w h).
Proof.
  revert h Q E. induction p as [| |A B a k IH|A task _ k IH|S A B body IHb s k IHk];
    intros h Q E; cbn [wp]; intros [Hf H]; (split; [done|]); try done.
  - eapply act_wp_mono; [|exact H]. intros. by apply IH.
  - destruct H as (h1 & h2 & Hp & Ht & H). exists h1, h2. split_and!; [done..|]. by apply IH.
  - destruct H as (I & HI & Hbody). exists I. split; [done|]. intros s' h' HI'.
    eapply wp_mono; [| |apply IHb, Hbody, HI']; [|done]. intros [s2|a] h2 [_ H2]; [done|]. by apply IHk.
Qed.
Lemma wp_bind {A B} (m : prog A) (f : A → prog B) h Q E :
  wp m h (λ a h, wp (f a) h Q E) E → wp (pbind m f) h Q E.
Proof.
  revert B f h Q E. induction m as [| |A A' a k IH|A task _ k IH|S A A' body IHb s k IHk];
    intros B f h Q E; cbn [wp pbind]; intros [Hf H]; try done; (split; [done|]).
  - eapply act_wp_mono; [|exact H]. intros. by apply IH.
  - destruct H as (h1 & h2 & Hp & Ht & H). exists h1, h2. split_and!; [done..|]. by apply IH.
  - destruct H as (I & HI & Hbody). exists I. split; [done|]. intros s' h' HI'.
    eapply wp_mono; [| |apply Hbody, HI']; [|done]. intros [s2|a] h2; [done|]. apply IHk.
Qed.
Lemma wp_caught {A} (m : prog A) h Q E E' :
  wp m h Q E → wp (caught m) h (λ r h, match r with inr a => Q a h | inl w => E w h end) E'.
Proof.
  revert h Q E E'. induction m as [| |A A' a k IH|A task _ k IH|S A A' body IHb s k IHk];
    intros h Q E E'; cbn [wp caught]; intros [Hf H]; try done; (split; [done|]).
  - eapply act_wp_mono; [|exact H]. intros. by apply IH.
  - destruct H as (h1 & h2 & Hp & Ht & H). exists h1, h2. split_and!; [done..|]. by apply IH.
  - destruct H as (I & HI & Hbody). exists I. split; [done|]. intros s' h' HI'. apply wp_bind.
    eapply wp_mono; [| |eapply (IHb s' h'), wp_post_fits, Hbody, HI']; [|done].
    intros [w|[s2|a]] h2 [Hf2 H2]; cbn [wp]; split_and!; try done. apply IHk, H2.
Qed.
Lemma wp_catch_unwind {A} (m : prog A) h Q E :
  wp m h (λ a, Q (Some a)) (λ w, if decide (w = HPanic) then Q None else E w) →
  wp (catch_unwind m) h Q E.
Proof.
  intros H. apply wp_bind. eapply wp_mono; [| |eapply wp_caught, wp_post_fits, H]; [|done].
  intros [[]|a] h' [Hf Hq]; cbn [wp]; done.
Qed.
Lemma wp_unwinding {A} (m : prog A) cleanup h Q E :
  wp m h Q (λ w h, if decide (w = HPoisoned) then E w h else wp cleanup h (λ _, E w) E) →
  wp (unwinding m cleanup) h Q E.
Proof.
  intros H. apply wp_bind. eapply wp_mono; [| |eapply wp_caught, wp_post_fits, H]; [|done].
  intros [w|a] h' [Hf Hc]; [|by split]. 
  destruct w; simpl in Hc; try (by split); apply wp_bind;
    (eapply wp_mono; [| |apply (wp_post_fits _ _ _ _ Hc)]); cbn [wp]; naive_solver.
Qed.
Lemma wp_finally {A} (m : prog A) cleanup h Q E :
  wp m h (λ a h, wp cleanup h (λ _, Q a) E)
    (λ w h, if decide (w = HPoisoned) then E w h else wp cleanup h (λ _, E w) E) →
  wp (finally m cleanup) h Q E.
Proof.
  intros H. apply wp_bind, wp_unwinding. eapply wp_mono; [| |exact H]; [|done].
  intros a h' Hc. apply wp_bind. eapply wp_mono; [| |apply (wp_post_fits _ _ _ _ Hc)]; cbn [wp]; naive_solver.
Qed.
Lemma wp_await h Q E : fits h → Q tt h → E HDrop h → wp await h Q E.
Proof. intros Hf Hq He. split; [done|]. by cbn [act_wp pbind wp]. Qed.
Lemma wp_on_world {Er A} (m : M World Er A) h Q E :
  fits h → (∀ r, Q r h) → E HPoisoned h → wp (on_world m) h Q E.
Proof.
  intros Hf HQ HE. split; [done|]. cbn [act_wp]. intros b. apply wp_bind. split; [done|].
  destruct b; split; auto.
Qed.

(** A program that needs only [h] leaves the rest alone. *)
Lemma act_wp_frame {A} (a : act A) h h2 (K : A → list token → Prop) :
  act_wp a h K → act_wp a (h ++ h2) (λ b x, ∃ y, x = y ++ h2 ∧ K b y).
Proof.
  destruct a; cbn [act_wp]; try destruct c; intros H;
    repeat match goal with
    | H : consume ?o _ |- _ => destruct o eqn:Ht; simpl in H; [|done]
    | H : take_token _ _ = Some _ |- _ => rewrite (take_token_app _ _ _ h2 H); clear H; simpl
    | H : take_tokens _ _ _ = Some _ |- _ => rewrite (take_tokens_app _ _ _ _ h2 H); clear H; simpl
    end;
    repeat match goal with H : _ ∧ _ |- _ => destruct H end; repeat split; try intros ?;
    first [done | eexists; split; [|by eauto]; by rewrite ?app_assoc].
Qed.
Lemma wp_frame {A} (p : prog A) h h2 Q E :
  wp p h Q E → fits h2 →
  wp p (h ++ h2) (λ a x, ∃ y, x = y ++ h2 ∧ Q a y) (λ w x, ∃ y, x = y ++ h2 ∧ E w y).
Proof.
  intros H Hf2. revert h Q E H. induction p as [| |A B a k IH|A task _ k IH|S A B body IHb s k IHk];
    intros h Q E; cbn [wp]; intros [Hf H]; (split; [by auto|]); eauto.
  - eapply act_wp_mono; [|by apply act_wp_frame]. intros b x (y & -> & Hy). by apply IH.
  - destruct H as (x & y & Hp & Ht & H). exists x, (y ++ h2). split_and!; [by rewrite Hp, app_assoc|done|].
    by apply IH.
  - destruct H as (I & HI & Hbody). exists (λ s x, ∃ y, x = y ++ h2 ∧ I s y). split; [eauto|].
    intros s' ? (y & -> & Hy). eapply wp_mono; [| |apply IHb, Hbody, Hy]; [|done].
    intros [s2|a] ? (z & -> & Hz); [eauto|]. by apply IHk.
Qed.

(** The order of tokens does not matter. *)
Lemma act_wp_perm {A} (a : act A) h h' (K : A → list token → Prop) :
  h ≡ₚ h' → act_wp a h K → act_wp a h' (λ b x, ∃ y, y ≡ₚ x ∧ K b y).
Proof.
  intros Hp. destruct a; cbn [act_wp]; try destruct c; intros H;
    repeat match goal with
    | H : _ ∧ _ |- _ => destruct H
    | H : consume ?o _ |- _ => destruct o eqn:Ht; simpl in H; [|done]
    | H : take_token _ _ = Some _ |- _ =>
        let y := fresh "y" in destruct (take_token_perm_some _ _ _ _ Hp H) as (y & -> & ?); clear H; simpl
    | H : take_tokens _ _ _ = Some _ |- _ =>
        let y := fresh "y" in destruct (take_tokens_perm_some _ _ _ _ _ Hp H) as (y & -> & ?); clear H; simpl
    end; repeat split; try intros ?;
    first [done | eexists; split; [|by eauto]; first [done | by rewrite Hp]].
Qed.
Lemma wp_perm {A} (p : prog A) h h' Q E :
  h ≡ₚ h' → wp p h Q E → wp p h' (λ a x, ∃ y, y ≡ₚ x ∧ Q a y) (λ w x, ∃ y, y ≡ₚ x ∧ E w y).
Proof.
  revert h h' Q E. induction p as [| |A B a k IH|A task _ k IH|S A B body IHb s k IHk];
    intros h h' Q E Hp; cbn [wp]; rewrite (fits_proper _ _ Hp); intros [Hf H]; (split; [by auto|]); eauto.
  - eapply act_wp_mono; [|by eapply act_wp_perm]. intros b x (y & Hy & Hk). by eapply IH.
  - destruct H as (x & y & Hp' & Ht & H). exists x, y. split_and!; [by rewrite <- Hp|done|].
    eapply IH; [done|]. done.
  - destruct H as (I & HI & Hbody). exists (λ s x, ∃ y, y ≡ₚ x ∧ I s y). split; [eauto|].
    intros s' x (y & Hy & HI'). eapply wp_mono; [| |eapply IHb; [exact Hy|apply Hbody, HI']]; [|done].
    intros [s2|a] ? (z & Hz & H2); [eauto|]. by eapply IHk.
Qed.
(** A program with a specification of its own, inside a thread that owns more. *)
Lemma wp_use {A} (p : prog A) h0 h2 h (Q0 Q : A → list token → Prop) (E0 E : halt → list token → Prop) :
  wp p h0 Q0 E0 → fits h2 → h ≡ₚ h0 ++ h2 →
  (∀ a x y, Q0 a y → x ≡ₚ y ++ h2 → Q a x) → (∀ w x y, E0 w y → x ≡ₚ y ++ h2 → E w x) →
  wp p h Q E.
Proof.
  intros H Hf Hp HQ HE. eapply wp_mono; [| |eapply wp_perm, wp_frame, Hf; [symmetry; exact Hp|exact H]].
  - intros a x (? & Hx & y & -> & Hy). eapply HQ; [done|by symmetry].
  - intros w x (? & Hx & y & -> & Hy). eapply HE; [done|by symmetry].
Qed.
Definition balanced {A} (p : prog A) : Prop := wp p [] (λ _, spent) (λ _, spent).
Lemma wp_balanced {A} (p : prog A) h Q E :
  balanced p → fits h → (∀ a, Q a h) → (∀ w, E w h) → wp p h Q E.
Proof.
  intros H Hf HQ HE. eapply wp_mono; [| |apply (wp_frame p [] h); [exact H|done]].
  - intros a ? (? & -> & ->). apply HQ.
  - intros a ? (? & -> & ->). apply HE.
Qed.
(** Synchronous code that uses up the tokens [t]: no [await], so it cannot be dropped
    half-way. *)
Definition sync {A} (t : list token) (p : prog A) : Prop :=
  wp p t (λ _, spent) (λ w h, w ≠ HDrop ∧ (w = HPanic → spent h)).
Lemma wp_sync {A} (p : prog A) t h h2 Q E :
  sync t p → h = t ++ h2 → fits h2 → (∀ a, Q a h2) → E HPanic h2 → (∀ h, E HPoisoned h) → wp p h Q E.
Proof.
  intros H -> Hf HQ HE HP. eapply wp_mono; [| |apply (wp_frame p t h2); [exact H|done]].
  - intros a ? (? & -> & ->). apply HQ.
  - intros [] ? (x & -> & Hw & Hx); [by rewrite Hx|done|done].
Qed.
(** From one order of the tokens to another. *)
Lemma wp_reorder {A} (p : prog A) h h' Q E :
  h ≡ₚ h' → wp p h Q E → (∀ a x y, Q a y → y ≡ₚ x → Q a x) → (∀ w x y, E w y → y ≡ₚ x → E w x) → wp p h' Q E.
Proof. intros Hp H HQ HE. eapply wp_mono; [| |eapply wp_perm; [exact Hp|exact H]]; naive_solver. Qed.

(** ** Every interleaving *)
Record accounted (s : Runtime) (h : list token) : Prop := {
  ac_queued : rt_counters s Queued = owns TQueued h;
  ac_running : rt_counters s Running = owns TRunning h;
  ac_live : (rt_counters s Submitted mod 2 ^ 64 =
    (rt_counters s Completed + rt_counters s Cancelled + rt_counters s Panicked + owns TLive h) mod 2 ^ 64)%N;
  ac_pools : ∀ p, (sm_available (pool_of s p) + owns (TPermit p) h = sm_limit (pool_of s p))%N;
  ac_jobs : (sm_limit (pool_of s CpuJobs) < 2 ^ 64)%N;
  ac_budgets : ∀ b, bd_used (budget_of s b) = owns (TByte b) h;
  ac_within : ∀ b, (bd_used (budget_of s b) ≤ bd_limit (budget_of s b))%N ∧
                   (bd_used (budget_of s b) ≤ usize_max)%N;
  ac_fresh : ∀ c, (rt_components s ≤ c)%N → rt_pools s !! Local c = None ∧ rt_budgets s !! c = None;
}.
Lemma accounted_perm s h h' : h ≡ₚ h' → accounted s h → accounted s h'.
Proof. intros Hp []. split; intros; rewrite <- ?(owns_perm _ _ _ Hp); auto. Qed.
Definition checked (m : machine) : Prop :=
  ∃ hs, Forall2 (λ p h, wp p h (λ _, spent) settled) m.1 hs ∧ accounted m.2 (concat hs).

Lemma counter_add s c h n :
  rt_counters s c = owns n h → (owns n h + 1 < 2 ^ 64)%N → ((rt_counters s c + 1) mod 2 ^ 64 = owns n h + 1)%N.
Proof. intros -> H. by apply N.mod_small. Qed.
Lemma counter_sub s c h n x :
  rt_counters s c = owns n h → h ≡ₚ n :: x → (owns n h < 2 ^ 64)%N →
  ((rt_counters s c + 2 ^ 64 - 1) mod 2 ^ 64 = owns n x)%N.
Proof.
  intros -> Hp. rewrite (owns_perm _ _ _ Hp), owns_cons, bool_decide_true by done. simpl b2n. intros H.
  replace (1 + owns n x + 2 ^ 64 - 1)%N with (owns n x + 1 * 2 ^ 64)%N by lia.
  rewrite N.Div0.mod_add. apply N.mod_small. lia.
Qed.
(** The job semaphore bounds how many jobs are counted. *)
Lemma counted_bound s h : accounted s h → fits h → (owns TQueued h + owns TRunning h < 2 ^ 64)%N.
Proof. intros [_ _ _ Hp Hj _ _ _] [Hf _ _ _]. specialize (Hp CpuJobs). lia. Qed.
Lemma pool_of_on s p f q :
  pool_of (on_pool p f s) q =
  if decide (q = p) then match rt_pools s !! p with Some m => f m | None => pool_of s p end else pool_of s q.
Proof.
  unfold pool_of, on_pool. cbn [rt_pools set_field]. destruct (decide (q = p)) as [->|Hne].
  - rewrite lookup_alter_eq. by destruct (rt_pools s !! p).
  - by rewrite lookup_alter_ne.
Qed.

(** Counters and pools, one action at a time. *)
Ltac tokens :=
  autorewrite with owns in *;
  repeat first [rewrite bool_decide_true in * by done | rewrite bool_decide_false in * by done]; simpl b2n in *.
Ltac retally :=
  split; cbn [rt_counters set_field rt_pools rt_components]; unfold at_counter;
  repeat first [rewrite decide_True by done | rewrite decide_False by done]; tokens; try done;
  try (intros p; match goal with Hp : ∀ p, _ = _ |- _ => specialize (Hp p) end; tokens; done).
Lemma accounted_count c h s :
  accounted s h → fits (match c with Queued => [TQueued] | Running => [TRunning] | Submitted => [TLive] | _ => [] end ++ h) →
  match c with Completed | Cancelled | Panicked => False | _ => True end →
  accounted (s <| rt_counters ::= at_counter c (λ n, (n + 1) mod 2 ^ 64)%N |>)
    (match c with Queued => [TQueued] | Running => [TRunning] | Submitted => [TLive] | _ => [] end ++ h).
Proof.
  intros [Hq Hr Hl Hp Hj Hb Hw Hn] [Hf _ _ _] Hc. pose proof (Hp CpuJobs).
  destruct c; try done; simpl app in *; tokens; retally.
  - rewrite Hq, N.mod_small by lia. lia.
  - rewrite Hr, N.mod_small by lia. lia.
  - rewrite N.Div0.mod_mod, <- N.Div0.add_mod_idemp_l, Hl, N.Div0.add_mod_idemp_l. f_equal. lia.
Qed.
Lemma accounted_finish c h x s :
  accounted s h → match c with Completed | Cancelled | Panicked => True | _ => False end → h ≡ₚ TLive :: x →
  accounted (s <| rt_counters ::= at_counter c (λ n, (n + 1) mod 2 ^ 64)%N |>) x.
Proof.
  intros Ha Hc Hx. destruct (accounted_perm _ _ _ Hx Ha) as [Hq Hr Hl Hp Hj Hb Hw Hn].
  assert (∀ n k : N, ((n + 1) mod 2 ^ 64 + k) mod 2 ^ 64 = (n + k + 1) mod 2 ^ 64)%N as Hwrap.
  { intros n k. rewrite N.Div0.add_mod_idemp_l. f_equal. lia. }
  destruct c; try done; tokens; retally; rewrite Hl.
  - rewrite <- !N.add_assoc, Hwrap. f_equal. lia.
  - rewrite (N.add_comm (rt_counters s Completed) ((_ + 1) mod _)), <- !N.add_assoc, Hwrap. f_equal. lia.
  - rewrite (N.add_comm _ ((_ + 1) mod _)), <- !N.add_assoc, Hwrap. f_equal. lia.
Qed.
Lemma accounted_uncount c t h x s :
  accounted s h → fits h → (c, t) = (Queued, TQueued) ∨ (c, t) = (Running, TRunning) → h ≡ₚ t :: x →
  accounted (s <| rt_counters ::= at_counter c (λ n, (n + 2 ^ 64 - 1) mod 2 ^ 64)%N |>) x.
Proof.
  intros Ha Hf Hc Hx. pose proof (counted_bound _ _ Ha Hf).
  pose proof Ha as [Hq0 Hr0 _ _ _ _ _ _]. destruct (accounted_perm _ _ _ Hx Ha) as [Hq Hr Hl Hp Hj Hb Hw Hn].
  destruct Hc as [[= -> ->]|[= -> ->]].
  - pose proof (counter_sub s Queued h TQueued x Hq0 Hx ltac:(lia)). tokens. retally.
  - pose proof (counter_sub s Running h TRunning x Hr0 Hx ltac:(lia)). tokens. retally.
Qed.
Lemma accounted_rejected s h :
  accounted s h → accounted (s <| rt_counters ::= at_counter Rejected (λ n, (n + 1) mod 2 ^ 64)%N |>) h.
Proof. intros []. by retally. Qed.
(** A change of one pool that keeps its total. *)
Lemma accounted_pool s p f h h' :
  accounted s h →
  (∀ t, (∀ p, t ≠ TPermit p) → owns t h' = owns t h) → (∀ q, q ≠ p → owns (TPermit q) h' = owns (TPermit q) h) →
  (∀ m, rt_pools s !! p = Some m →
    sm_available (f m) + owns (TPermit p) h' = sm_available m + owns (TPermit p) h ∧ sm_limit (f m) = sm_limit m)%N →
  (rt_pools s !! p = None → owns (TPermit p) h' = owns (TPermit p) h) →
  accounted (on_pool p f s) h'.
Proof.
  intros [Hq Hr Hl Hp Hj Hb Hw Hn] Ht Hother Hsome Hnone. 
  assert (∀ q, sm_limit (pool_of (on_pool p f s) q) = sm_limit (pool_of s q)) as Hlim.
  { intros q. rewrite pool_of_on. case_decide; [|done]. subst. unfold pool_of.
    destruct (rt_pools s !! p) as [m|] eqn:E; [|done]. by destruct (Hsome m eq_refl). }
  split; cbn [on_pool rt_counters set_field rt_components]; rewrite ?Ht, ?Hlim by done; try done.
  - intros q. rewrite Hlim, <- Hp, pool_of_on. case_decide as Hq'; [subst|by rewrite Hother].
    unfold pool_of. destruct (rt_pools s !! p) as [m|] eqn:E; [|by rewrite Hnone]. by destruct (Hsome m eq_refl).
  - intros b. rewrite Ht by done. apply Hb.
  - intros c Hc. unfold on_pool. cbn [rt_pools rt_budgets set_field]. rewrite lookup_alter_None. by apply Hn.
Qed.
Lemma permit_token p q : q ≠ p → bool_decide (TPermit p = TPermit q) = false.
Proof. intros ?. apply bool_decide_false. congruence. Qed.
Lemma accounted_missing s h p : accounted s h → rt_pools s !! p = None → owns (TPermit p) h = 0%N.
Proof. intros Ha Hp. pose proof (ac_pools _ _ Ha p) as Hacc. unfold pool_of in Hacc. rewrite Hp in Hacc. simpl in Hacc. lia. Qed.
Ltac permits := intros; tokens; rewrite ?(permit_token _ _) by done; simpl b2n; try lia.
Lemma accounted_acquire s p n h f :
  accounted s h → sm_closed (pool_of s p) = false → (n ≤ sm_available (pool_of s p))%N →
  (∀ m, sm_available (f m) = sm_available m - n ∧ sm_limit (f m) = sm_limit m)%N →
  accounted (on_pool p f s) (replicate (N.to_nat n) (TPermit p) ++ h).
Proof.
  intros Ha Hc Hn Hsub. eapply accounted_pool; [exact Ha|..].
  - intros t Ht. tokens. lia.
  - permits.
  - intros m E. unfold pool_of in Hn. rewrite E in Hn. simpl in Hn. destruct (Hsub m) as [-> ->].
    tokens. lia.
  - intros E. unfold pool_of in Hc. by rewrite E in Hc.
Qed.
Lemma accounted_release s p n h x f :
  accounted s h → h ≡ₚ replicate n (TPermit p) ++ x →
  (∀ m, sm_available (f m) = sm_available m + N.of_nat n ∧ sm_limit (f m) = sm_limit m)%N →
  accounted (on_pool p f s) x.
Proof.
  intros Ha Hx Hadd. eapply accounted_pool; [exact Ha|..]; intros; rewrite ?(owns_perm _ _ _ Hx).
  - tokens. lia.
  - permits.
  - destruct (Hadd m) as [-> ->]. tokens. lia.
  - pose proof (accounted_missing _ _ _ Ha H) as H0. rewrite (owns_perm _ _ _ Hx) in H0. tokens. lia.
Qed.
Lemma accounted_close s p h : accounted s h → accounted (on_pool p (λ m, m <| sm_closed := true |>) s) h.
Proof. intros Ha. by eapply accounted_pool. Qed.
Lemma accounted_new s n h :
  accounted s h →
  accounted (s <| rt_pools ::= <[Local (rt_components s) := MkSemaphore n n false]> |> <| rt_components ::= N.succ |>) h.
Proof.
  intros Ha. pose proof Ha as [Hq Hr Hl Hp Hj Hb Hw Hn]. split; [done..| | |done|done|].
  - intros p. unfold pool_of. cbn [rt_pools set_field]. destruct (decide (p = Local (rt_components s))) as [->|Hne].
    + rewrite lookup_insert_eq. simpl. rewrite (accounted_missing _ _ _ Ha); [lia|]. by apply Hn.
    + rewrite lookup_insert_ne by done. apply Hp.
  - unfold pool_of. cbn [rt_pools set_field]. by rewrite lookup_insert_ne.
  - intros c Hc. cbn [rt_pools rt_budgets rt_components set_field] in *.
    rewrite lookup_insert_ne; [apply Hn; lia|]. intros [= <-]. lia.
Qed.
(** A change of one budget that keeps its total. *)
Lemma budget_of_on s b f b' :
  budget_of (on_budget b f s) b' =
  if decide (b' = b) then match rt_budgets s !! b with Some d => f d | None => budget_of s b end else budget_of s b'.
Proof.
  unfold budget_of, on_budget. cbn [rt_budgets set_field]. destruct (decide (b' = b)) as [->|Hne].
  - rewrite lookup_alter_eq. by destruct (rt_budgets s !! b).
  - by rewrite lookup_alter_ne.
Qed.
Lemma accounted_budget s b f h h' :
  accounted s h →
  (∀ t, t ≠ TByte b → owns t h' = owns t h) →
  (∀ d, rt_budgets s !! b = Some d → bd_used d = owns (TByte b) h → (bd_used d ≤ bd_limit d ∧ bd_used d ≤ usize_max)%N →
    bd_used (f d) = owns (TByte b) h' ∧ bd_limit (f d) = bd_limit d ∧ (bd_used (f d) ≤ bd_limit d ∧ bd_used (f d) ≤ usize_max)%N) →
  (rt_budgets s !! b = None → owns (TByte b) h' = owns (TByte b) h) →
  accounted (on_budget b f s) h'.
Proof.
  intros [Hq Hr Hl Hp Hj Hb Hw Hn] Ht Hsome Hnone.
  assert (∀ d, rt_budgets s !! b = Some d → bd_used (f d) = owns (TByte b) h' ∧ bd_limit (f d) = bd_limit d ∧
    (bd_used (f d) ≤ bd_limit d ∧ bd_used (f d) ≤ usize_max)%N) as Hf.
  { intros d Hd. specialize (Hb b). specialize (Hw b). unfold budget_of in Hb, Hw. rewrite Hd in Hb, Hw. auto. }
  split; cbn [on_budget rt_counters rt_pools set_field rt_components]; rewrite ?Ht by done; try done.
  - intros p. rewrite Ht by done. apply Hp.
  - intros b'. rewrite budget_of_on. case_decide as E; [subst|by rewrite Ht by congruence].
    destruct (rt_budgets s !! b) as [d|] eqn:Hd; [by apply Hf|]. by rewrite Hnone.
  - intros b'. rewrite budget_of_on. case_decide as E; [subst|apply Hw].
    destruct (rt_budgets s !! b) as [d|] eqn:Hd; [|apply Hw]. by destruct (Hf d eq_refl) as (_ & -> & ?).
  - intros c Hc. unfold on_budget. cbn [rt_pools rt_budgets set_field]. rewrite lookup_alter_None. by apply Hn.
Qed.
Lemma byte_token b t : t ≠ TByte b → bool_decide (TByte b = t) = false.
Proof. intros ?. apply bool_decide_false. congruence. Qed.
Lemma accounted_charge s b n h next :
  accounted s h → checked_add usize_max (bd_used (budget_of s b)) n = Some next →
  (next ≤ bd_limit (budget_of s b))%N →
  accounted (on_budget b (λ d, d <| bd_used := next |>) s) (replicate (N.to_nat n) (TByte b) ++ h).
Proof.
  intros Ha Hadd Hle. unfold checked_add in Hadd. case_decide; simplify_eq. pose proof (ac_budgets _ _ Ha b) as Hu.
  eapply accounted_budget; [exact Ha|..].
  - intros t Ht. autorewrite with owns. rewrite byte_token by done. simpl b2n. lia.
  - unfold budget_of in *. intros d Hd Hd' Hw. rewrite Hd in *. simpl in *. tokens. lia.
  - unfold budget_of in *. intros Hd. rewrite Hd in *. simpl in *. tokens. lia.
Qed.
Lemma accounted_uncharge s b n h x :
  accounted s h → h ≡ₚ replicate (N.to_nat n) (TByte b) ++ x →
  accounted (on_budget b (λ d, d <| bd_used ::= λ k, (k + 2 ^ 64 - n) mod 2 ^ 64 |>)%N s) x.
Proof.
  intros Ha Hx. eapply accounted_budget; [exact Ha|..].
  - intros t Ht. rewrite (owns_perm _ _ _ Hx). autorewrite with owns. rewrite byte_token by done. simpl b2n. lia.
  - intros d Hd Hu Hw. rewrite (owns_perm _ _ _ Hx) in Hu. tokens. cbn [bd_used bd_limit set_field]. unfold usize_max, u64_max in *.
    assert ((bd_used d + 2 ^ 64 - n) mod 2 ^ 64 = bd_used d - n)%N as ->; [|lia].
    replace (bd_used d + 2 ^ 64 - n)%N with (bd_used d - n + 1 * 2 ^ 64)%N by lia.
    rewrite N.Div0.mod_add. apply N.mod_small. lia.
  - intros Hd. pose proof (ac_budgets _ _ Ha b) as Hu. unfold budget_of in Hu. rewrite Hd in Hu. simpl in Hu.
    rewrite (owns_perm _ _ _ Hx) in *. tokens. lia.
Qed.
Lemma accounted_new_budget s n h :
  accounted s h →
  accounted (s <| rt_budgets ::= <[rt_components s := MkBudgetState n 0]> |> <| rt_components ::= N.succ |>) h.
Proof.
  intros Ha. pose proof Ha as [Hq Hr Hl Hp Hj Hb Hw Hn]. split; [done..| | |].
  - intros b. unfold budget_of. cbn [rt_budgets set_field]. destruct (decide (b = rt_components s)) as [->|Hne].
    + rewrite lookup_insert_eq, <- Hb. unfold budget_of. by destruct (Hn (rt_components s)) as [_ ->].
    + rewrite lookup_insert_ne by done. apply Hb.
  - intros b. unfold budget_of. cbn [rt_budgets set_field]. destruct (decide (b = rt_components s)) as [->|Hne].
    + rewrite lookup_insert_eq. simpl. unfold usize_max, u64_max. lia.
    + rewrite lookup_insert_ne by done. apply Hw.
  - intros c Hc. cbn [rt_pools rt_budgets rt_components set_field] in *.
    rewrite lookup_insert_ne by lia. apply Hn. lia.
Qed.

Lemma act_sound oracle {A} (a : act A) s h rest (K : A → list token → Prop) :
  act_wp a h K → (∀ b h', K b h' → fits h') → fits h → fits rest → accounted s (h ++ rest) →
  let '(b, s') := run_act oracle a s in ∃ h', K b h' ∧ accounted s' (h' ++ rest).
Proof.
  intros H HK Hf Hfr Ha. destruct a; cbn [act_wp run_act] in *.
  - destruct (f (rt_shared s)) as [b sh]. exists h. split; [done|]. by destruct Ha.
  - destruct c; try (destruct (take_token TLive h) as [x|] eqn:Ht; simpl in H; [|done]; exists x; split; [done|];
      apply (accounted_finish _ _ _ s Ha); [done|]; by rewrite (take_token_perm _ _ _ Ht));
      eexists; (split; [exact H|]); first
      [by apply accounted_rejected | apply (accounted_count Queued); [done|by apply (fits_app (_ :: h)); eauto|done]
      |apply (accounted_count Running); [done|by apply (fits_app (_ :: h)); eauto|done]
      |apply (accounted_count Submitted); [done|by apply (fits_app (_ :: h)); eauto|done]].
  - destruct c; try done;
      [destruct (take_token TQueued h) as [x|] eqn:Ht|destruct (take_token TRunning h) as [x|] eqn:Ht];
      simpl in H; try done; exists x; (split; [done|]); eapply accounted_uncount; eauto;
      by rewrite (take_token_perm _ _ _ Ht).
  - eauto.
  - destruct H as [Ht Hn]. destruct (negb _ && _) eqn:E; [|eauto]. eexists; split; [exact Ht|].
    rewrite <- app_assoc, <- (Nat2N.id n) at 1. apply accounted_acquire; [done|..]; [lia|lia|done].
  - destruct H as (Hp & Hr & Hq). destruct (sm_closed _) eqn:Hc; [eauto|]. destruct (oracle && _) eqn:E; [|eauto].
    eexists; split; [exact Hq|]. apply (accounted_acquire s p 1); [done..|lia|]. split; [simpl; lia|done].
  - destruct (take_tokens n (TPermit p) h) as [x|] eqn:Ht; simpl in H; [|done]. exists x. split; [done|].
    eapply (accounted_release s p n); [exact Ha| |done]. by rewrite (take_tokens_perm _ _ _ _ Ht), app_assoc.
  - eauto.
  - exists h. split; [done|]. by apply accounted_close.
  - exists h. split; [done|]. by apply accounted_new.
  - exists h. split; [done|]. by apply accounted_new_budget.
  - destruct H as [Ht Hn]. destruct (checked_add _ _ _) as [next|] eqn:E; [|eauto]. destruct (_ <? _)%N eqn:El; [eauto|].
    eexists; split; [exact Ht|]. rewrite <- app_assoc. eapply accounted_charge; [done..|lia].
  - destruct (take_tokens (N.to_nat n) (TByte b) h) as [x|] eqn:Ht; simpl in H; [|done]. exists x. split; [done|].
    eapply accounted_uncharge; [exact Ha|]. by rewrite (take_tokens_perm _ _ _ _ Ht), app_assoc.
  - eauto.
  - eauto.
  - destruct H. exists h. by destruct oracle.
  - destruct H. exists h. by destruct oracle.
Qed.

Definition thread_ok (p : prog unit) (h : list token) : Prop := wp p h (λ _, spent) settled.
Lemma wp_step oracle {A} (p p' : prog A) h rest Q E s s' tasks :
  wp p h Q E → step oracle p s = Some (p', s', tasks) → fits rest → accounted s (h ++ rest) →
  ∃ h' hs, wp p' h' Q E ∧ Forall2 thread_ok tasks hs ∧ accounted s' ((h' ++ concat hs) ++ rest).
Proof.
  destruct p as [| |A B a k|A task k|St A B body st k]; cbn [wp step]; intros [Hf H] Hs Hr Ha; [done..| | |].
  - pose proof (act_sound oracle a s h rest _ H (λ b h', wp_fits _ _ _ _) Hf Hr Ha) as Hsound.
    destruct (run_act oracle a s) as [b s1]. simplify_eq. destruct Hsound as (h' & Hk & Ha').
    exists h', []. split_and!; [done|constructor|]. simpl. by rewrite app_nil_r.
  - simplify_eq. destruct H as (h1 & h2 & Hp & Ht & Hk). exists h2, [h1]. split_and!; [done|by repeat constructor|].
    eapply accounted_perm; [|exact Ha]. simpl. rewrite app_nil_r, Hp. by rewrite (Permutation_app_comm h1).
  - simplify_eq. destruct H as (I & HI & Hbody). exists h, []. split_and!; [|constructor|simpl; by rewrite app_nil_r].
    apply wp_bind. eapply wp_mono; [| |apply wp_post_fits, Hbody, HI].
    + intros [st'|a] h' [Hf' H']; [|done]. split; [done|]. by exists I.
    + by intros w h' [_ ?].
Qed.
Lemma fits_concat hs : Forall fits hs → fits (concat hs).
Proof. induction 1; simpl; auto. Qed.
Lemma concat_delete {A} (hs : list (list A)) i h : hs !! i = Some h → concat hs ≡ₚ h ++ concat (delete i hs).
Proof.
  revert i. induction hs as [|x hs IH]; intros [|i] H; simplify_eq/=; [done|].
  rewrite (IH _ H). rewrite !app_assoc. by rewrite (Permutation_app_comm x).
Qed.
Lemma concat_insert {A} (hs : list (list A)) i h h' :
  hs !! i = Some h → concat (<[i:=h']> hs) ≡ₚ h' ++ concat (delete i hs).
Proof.
  revert i. induction hs as [|x hs IH]; intros [|i] H; simplify_eq/=; [done|].
  rewrite (IH _ H). rewrite !app_assoc. by rewrite (Permutation_app_comm x).
Qed.
Lemma checked_step m m' : rt_step m m' → checked m → checked m'.
Proof.
  intros Hstep (hs & Hall & Ha). destruct Hstep as [ts s i p oracle p' s' tasks Hi Hs|]; simpl in *.
  2: { exists hs. split; [done|]. by destruct Ha. }
  destruct (Forall2_lookup_l _ _ _ _ _ Hall Hi) as (h & Hh & Hwp).
  assert (Forall fits hs) as Hfit.
  { eapply Forall2_Forall_r; [exact Hall|]. apply Forall_forall. intros q _ x. apply wp_fits. }
  destruct (wp_step oracle p p' h (concat (delete i hs)) _ _ s s' tasks Hwp Hs) as (h' & hs' & Hp' & Htasks & Ha').
  { apply fits_concat. by apply Forall_delete. }
  { eapply accounted_perm; [|exact Ha]. by apply concat_delete. }
  exists (<[i:=h']> hs ++ hs'). split.
  - apply Forall2_app; [|done]. by apply Forall2_insert.
  - eapply accounted_perm; [|exact Ha']. rewrite concat_app, (concat_insert _ _ _ _ Hh), <- !app_assoc.
    by rewrite (Permutation_app_comm (concat hs')).
Qed.
Lemma accounted_reachable m m' : rtc rt_step m m' → checked m → checked m'.
Proof. induction 1; eauto using checked_step. Qed.
