(* ===== verification/Cpu.v ===== *)
(** * The CPU pool

    [runtime-native/src/cpu.rs]: admission and lifetime accounting of jobs that run on
    blocking threads.  A job is queued until a worker permit is acquired, then runs on
    a blocking thread; cancellation, aborts and panics end it at any point.  The
    closures of a job are programs, with the destructor of what they capture. *)
From S2P Require Import Prelude.
From S2P Require Import Collections.
From S2P Require Import Text.
From S2P Require Import Types.
From S2P Require Import Metadata.
From S2P Require Import WorldState.
From S2P Require Import Actors.
From S2P Require Import Components.
From S2P Require Import NativeConfig.
From S2P Require Import NativeState.
From S2P Require Import Native.
From S2P Require Import NativeLogic.

Record CpuConfig := MkCpuConfig { cc_workers : N; cc_max_jobs : N }.
Inductive cpu_outcome := JobCompleted | JobCancelled | JobPanicked.
Record CpuStats := MkCpuStats {
  cs_queued : N; cs_running : N; cs_submitted : N; cs_completed : N; cs_cancelled : N;
  cs_panicked : N; cs_rejected : N; cs_workers : N; cs_max_jobs : N }.

(** A closure and the destructor of its captures. *)
Record closure (A : Type) := MkClosure { cl_call : prog A; cl_drop : prog unit }.
Arguments MkClosure {A}.
Arguments cl_call {A}.
Arguments cl_drop {A}.

(** The job permit is held while the reservation lives, the task slot ([_global])
    while the job does.  [jb_work] and [jb_cancelled] say whether the closures, which
    never change, are still there. *)
Record CpuReservation := MkReservation { rv_queued : bool }.
Record CpuJob := MkJob {
  jb_work : bool; jb_cancelled : bool; jb_outcome : cpu_outcome; jb_reservation : CpuReservation; jb_worker : bool;
  jb_owner : ActorRef; jb_lease : N }.
#[export] Instance CpuJob_expand : Expand CpuJob := λ r,
  MkJob (jb_work r) (jb_cancelled r) (jb_outcome r) (jb_reservation r) (jb_worker r) (jb_owner r) (jb_lease r).

Module Cpu.
Definition default_config : CpuConfig := MkCpuConfig 2 32.
(** The semaphores [CpuExecutor::new] makes. *)
Definition new (config : CpuConfig) : gmap pool Semaphore :=
  {[ Workers := MkSemaphore (cc_workers config) (cc_workers config) false;
     CpuJobs := MkSemaphore (cc_max_jobs config) (cc_max_jobs config) false ]}.
Definition reserve : prog (string + CpuReservation) :=
  do! permit := do (TryAcquire CpuJobs 1) in
  if permit : bool then
    count Queued ;;>
    Ret (inr (MkReservation true))
  else
    count Rejected ;;>
    Ret (inl "CPU job limit reached"%string).
Definition stats (config : CpuConfig) : prog CpuStats :=
  do! queued := do (LoadCounter Queued) in
  do! running := do (LoadCounter Running) in
  do! submitted := do (LoadCounter Submitted) in
  do! completed := do (LoadCounter Completed) in
  do! cancelled := do (LoadCounter Cancelled) in
  do! panicked := do (LoadCounter Panicked) in
  do! rejected := do (LoadCounter Rejected) in
  Ret (MkCpuStats queued running submitted completed cancelled panicked rejected
    (cc_workers config) (cc_max_jobs config)).
(** [Drop for CpuReservation], then its permit. *)
Definition drop_reservation (r : CpuReservation) : prog unit :=
  (if rv_queued r then uncount Queued else Ret tt) ;;>
  do (Release CpuJobs 1).

Definition new_job (reservation : CpuReservation) (owner : ActorRef) (lease : N) : prog CpuJob :=
  count Submitted ;;>
  Ret (MkJob true true JobCancelled reservation false owner lease).
Definition rust_panic (handler : string) : FailureDetails := Failures.details_new Handler handler "RustPanic" [].
(** The report of [report_panic]; its caller sets the outcome. *)
Definition report_panic (job : CpuJob) : prog unit :=
  on_world (Supervision.report_failure (jb_owner job) None None None (rust_panic "native_cpu")
    FailureAction.StopActor) ;;>
  Ret tt.
Definition start (job : CpuJob) : prog CpuJob :=
  let job := job <| jb_reservation := MkReservation false |> in
  uncount Queued ;;>
  count Running ;;>
  Ret (job <| jb_worker := true |>).
Definition tally (outcome : cpu_outcome) : counter :=
  match outcome with
  | JobCompleted => Completed
  | JobCancelled => Cancelled
  | JobPanicked => Panicked
  end.
Section job.
Context (cancelled : closure bool) (work : closure cpu_outcome).
(** [Drop for CpuJob]. *)
Definition retire (job : CpuJob) : prog unit :=
  do! work_dropped := catch_unwind (if jb_work job then cl_drop work else Ret tt) in
  do! cancelled_dropped := catch_unwind (if jb_cancelled job then cl_drop cancelled else Ret tt) in
  do! outcome := match work_dropped, cancelled_dropped with
    | Some _, Some _ => Ret (jb_outcome job)
    | _, _ => report_panic job ;;> Ret JobPanicked
    end in
  (if negb (rv_queued (jb_reservation job)) then uncount Running else Ret tt) ;;>
  count (tally outcome).
(** Its fields are dropped next, in order, whatever the destructor did. *)
Definition drop_job (job : CpuJob) : prog unit :=
  finally (retire job)
    (drop_reservation (jb_reservation job) ;;>
     (if jb_worker job then do (Release Workers 1) else Ret tt) ;;>
     finally (on_world (drop_task (jb_lease job)) ;;> Ret tt)
       (do (Release Slots 1))).
(** [m] runs while [job] is a local: unwinding drops the job. *)
Definition holding {A} (job : CpuJob) (m : prog A) : prog A := unwinding m (drop_job job).
Definition is_cancelled (job : CpuJob) : prog (bool * CpuJob) :=
  do! r := catch_unwind (if jb_cancelled job then cl_call cancelled else Halt HPanic) in
  match r with
  | Some b => Ret (b, job)
  | None =>
      let job := job <| jb_outcome := JobPanicked |> in
      holding job (report_panic job) ;;>
      Ret (true, job)
  end.
Definition execute (job : CpuJob) : prog unit :=
  do! (stop, job) := is_cancelled job in
  if stop : bool then drop_job job else
  if negb (jb_work job) then holding job (Halt HPanic) else
  let job := job <| jb_work := false |> in
  do! r := catch_unwind (cl_call work) in
  match r with
  | Some outcome => drop_job (job <| jb_outcome := outcome |>)
  | None =>
      let job := job <| jb_outcome := JobPanicked |> in
      holding job (report_panic job) ;;>
      drop_job job
  end.
(** A blocking task is run, or dropped when the runtime shuts down first. *)
Definition spawn_blocking (job : CpuJob) : prog unit :=
  do! started := do Await in
  if started : bool then execute job else drop_job job.
(** One round of the loop of [run]: the select polls the acquisition, then sleeps. *)
Definition run_round (job : CpuJob) : prog (CpuJob + unit) :=
  do! (stop, job) := is_cancelled job in
  if stop : bool then drop_job job ;;> Ret (inr tt) else
  do! worker := do (PollAcquire Workers) in
  match worker with
  | Refused => drop_job job ;;> Ret (inr tt)
  | Acquired =>
      do! job := start job in
      Spawn (spawn_blocking job) (await ;;> Ret (inr tt))
  | Parked => holding job await ;;> Ret (inl job)
  end.
Definition run (job : CpuJob) : prog unit := loop run_round job.
(** The task spawned for a job: it may be dropped before its first poll. *)
Definition task (job : CpuJob) : prog unit :=
  do! polled := do Await in
  if polled : bool then run job else drop_job job.
End job.
End Cpu.

(** ** What a job owns *)
Ltac run_tokens :=
  cbn; repeat first [rewrite decide_True by done | rewrite decide_False by done]; cbn.
Ltac fit := apply Build_fits; by vm_compute.
Definition reservation_tokens (r : CpuReservation) : list token :=
  (if rv_queued r then [TQueued] else []) ++ [TPermit CpuJobs].
(** The permits of a job, and what it has counted. *)
Definition core_tokens (job : CpuJob) : list token :=
  (if rv_queued (jb_reservation job) then [TQueued] else [TRunning]) ++
  [TLive; TPermit CpuJobs; TPermit Slots] ++ (if jb_worker job then [TPermit Workers] else []).
(** What is left to its fields. *)
Definition field_tokens (job : CpuJob) : list token :=
  (if rv_queued (jb_reservation job) then [TQueued] else []) ++
  [TPermit CpuJobs; TPermit Slots] ++ (if jb_worker job then [TPermit Workers] else []).
Definition job_ok (job : CpuJob) : Prop := rv_queued (jb_reservation job) = negb (jb_worker job).
(** A job waiting for a worker, and one that has just got it. *)
Definition waiting (job : CpuJob) : Prop := rv_queued (jb_reservation job) = true ∧ jb_worker job = false.
Definition started (job : CpuJob) : CpuJob := job <| jb_reservation := MkReservation false |> <| jb_worker := true |>.
Lemma waiting_ok job : waiting job → job_ok job.
Proof. intros [H1 H2]. unfold job_ok. by rewrite H1, H2. Qed.
Lemma started_ok job : job_ok (started job).
Proof. done. Qed.
Lemma core_fits job : job_ok job → fits (core_tokens job).
Proof. unfold job_ok, core_tokens. destruct (rv_queued _), (jb_worker job); intros; try done; fit. Qed.
#[export] Hint Resolve waiting_ok started_ok core_fits : core.

Section job_logic.
Context (cancelled : closure bool) (work : closure cpu_outcome).
(** The closures are synchronous; [work] may own tokens of its own. *)
Context (wt : list token).
Record closures_ok : Prop := {
  work_fits : fits wt;
  work_call : sync wt (cl_call work);
  work_drop : sync wt (cl_drop work);
  cancelled_call : sync [] (cl_call cancelled);
  cancelled_drop : sync [] (cl_drop cancelled);
}.
Context (Hclosures : closures_ok).
Definition work_tokens (job : CpuJob) : list token := if jb_work job then wt else [].
Definition job_tokens (job : CpuJob) : list token := work_tokens job ++ core_tokens job.
Lemma job_fits job : job_ok job → fits (job_tokens job).
Proof. intros. apply fits_app; [|auto]. unfold work_tokens. destruct (jb_work job); [apply Hclosures|done]. Qed.
#[local] Hint Resolve job_fits : core.
Implicit Types (E : halt → list token → Prop).

Lemma wp_report_panic job h (Q : unit → list token → Prop) E :
  fits h → Q tt h → E HPoisoned h → wp (Cpu.report_panic job) h Q E.
Proof. intros. apply wp_bind, wp_on_world; [done|by split|done]. Qed.
Lemma wp_drop_closure (b : bool) (p : prog unit) t h (Q : option unit → list token → Prop) E :
  sync t p → fits t → fits h → (∀ o, Q o h) → (∀ h, E HPoisoned h) →
  wp (catch_unwind (if b then p else Ret tt)) ((if b then t else []) ++ h) Q E.
Proof.
  intros Hp Ht Hf HQ HE. apply wp_catch_unwind. destruct b; [|by split].
  eapply wp_sync; [done..|by rewrite decide_True|]. intros. by rewrite decide_False.
Qed.
Lemma wp_retire job h (Q : unit → list token → Prop) E :
  job_ok job → h = job_tokens job → Q tt (field_tokens job) → (∀ h, E HPoisoned h) →
  wp (Cpu.retire cancelled work job) h Q E.
Proof.
  intros Hok -> HQ HE. pose proof (core_fits _ Hok) as Hf. unfold Cpu.retire.
  apply wp_bind, wp_drop_closure; [apply Hclosures..|done| |done]. intros o1.
  apply wp_bind. pose proof (wp_drop_closure (jb_cancelled job) (cl_drop cancelled) []) as Hdrop.
  replace (if jb_cancelled job then [] else []) with (@nil token) in Hdrop by (by destruct (jb_cancelled job)).
  apply Hdrop; [apply Hclosures|done..| |done]. clear Hdrop. intros o2. apply wp_bind.
  assert (∀ outcome, wp ((if negb (rv_queued (jb_reservation job)) then uncount Running else Ret tt);;> count (Cpu.tally outcome))
    (core_tokens job) Q E) as Hcount.
  { intros outcome. apply wp_bind. unfold core_tokens, field_tokens, job_ok in *.
    destruct (rv_queued _), (jb_worker job), outcome; try done; cbn; split_and!; try done; fit. }
  destruct o1, o2; (apply wp_bind, wp_report_panic || idtac); try done; split; try done.
Qed.
Lemma wp_drop_job job h (Q : unit → list token → Prop) E :
  job_ok job → h = job_tokens job → Q tt [] → (∀ h, E HPoisoned h) → wp (Cpu.drop_job cancelled work job) h Q E.
Proof.
  intros Hok Hh HQ HE. unfold Cpu.drop_job.
  assert (wp (Cpu.drop_reservation (jb_reservation job);;> (if jb_worker job then do (Release Workers 1) else Ret tt);;>
      finally (on_world (drop_task (jb_lease job));;> Ret tt) (do (Release Slots 1))) (field_tokens job) (λ _, Q tt) E) as Hfields.
  { unfold Cpu.drop_reservation, field_tokens, job_ok in *.
    assert (wp (finally (on_world (drop_task (jb_lease job));;> Ret tt) (do (Release Slots 1))) [TPermit Slots] (λ _, Q tt) E) as Hend.
    { apply wp_finally, wp_bind, wp_on_world; [fit| |by rewrite decide_True]. intros _. cbn. split_and!; try done; fit. }
    apply wp_bind. destruct (rv_queued _), (jb_worker job); simpl in Hok; try done; cbn; split_and!; try done; fit. }
  apply wp_finally, wp_retire; [done..| |]. { eapply wp_mono; [| |exact Hfields]; [by intros [] ?|done]. }
  intros. by rewrite decide_True.
Qed.
Lemma wp_holding {A} job h (m : prog A) (Q : A → list token → Prop) E :
  job_ok job → h = job_tokens job → (∀ h, E HPoisoned h) →
  wp m h Q (λ w x, w = HPoisoned ∨ (x = h ∧ E w [])) →
  wp (Cpu.holding cancelled work job m) h Q E.
Proof.
  intros Hok Hh HE H. apply wp_unwinding. eapply wp_mono; [| |exact H]; [done|].
  intros w x [->|[-> Hw]]; [by rewrite decide_True|]. case_decide; [by subst|]. by apply wp_drop_job.
Qed.
Lemma wp_is_cancelled job h (Q : bool * CpuJob → list token → Prop) E :
  job_ok job → h = job_tokens job → (∀ h, E HPoisoned h) →
  (∀ b, Q (b, job) h) → Q (true, job <| jb_outcome := JobPanicked |>) h →
  wp (Cpu.is_cancelled cancelled work job) h Q E.
Proof.
  intros Hok Hh HE HQ HQ'. assert (fits h) as Hf by (subst; auto). unfold Cpu.is_cancelled.
  apply wp_bind, wp_catch_unwind.
  assert (∀ o, wp match o with
    | Some b => Ret (b, job)
    | None => let job := job <| jb_outcome := JobPanicked |> in
        Cpu.holding cancelled work job (Cpu.report_panic job);;> Ret (true, job)
    end h Q E) as Hk.
  { intros [b|]; [by split|]. apply wp_bind, wp_holding; [done..|].
    apply wp_report_panic; [done|by split|by left]. }
  destruct (jb_cancelled job).
  - apply (wp_sync _ [] h h); [apply Hclosures|done|done|intros b; apply (Hk (Some b))|rewrite decide_True by done; apply (Hk None)|].
    intros. by rewrite decide_False.
  - split; [done|]. rewrite decide_True by done. apply (Hk None).
Qed.
Lemma wp_execute job h (Q : unit → list token → Prop) E :
  job_ok job → h = job_tokens job → Q tt [] → (∀ h, E HPoisoned h) → E HPanic [] →
  wp (Cpu.execute cancelled work job) h Q E.
Proof.
  intros Hok Hh HQ HE HP. assert (fits h) as Hf by (subst; auto). unfold Cpu.execute.
  apply wp_bind, wp_is_cancelled; [done..| |by apply wp_drop_job].
  intros [|]; [by apply wp_drop_job|].
  destruct (jb_work job) eqn:Hw; cbn [negb].
  2: { apply wp_holding; [done..|]. split; [done|]. by right. }
  apply wp_bind, wp_catch_unwind. eapply wp_sync; [apply Hclosures| |by apply core_fits|..].
  - subst h. unfold job_tokens, work_tokens. by rewrite Hw.
  - intros outcome. by apply wp_drop_job.
  - rewrite decide_True by done. apply wp_bind, wp_holding; [done..|].
    apply wp_report_panic; [by apply core_fits| |by left]. by apply wp_drop_job.
  - intros. by rewrite decide_False.
Qed.
Lemma wp_spawn_blocking job h (Q : unit → list token → Prop) E :
  job_ok job → h = job_tokens job → Q tt [] → (∀ h, E HPoisoned h) → E HPanic [] →
  wp (Cpu.spawn_blocking cancelled work job) h Q E.
Proof.
  intros Hok Hh HQ HE HP. assert (fits h) as Hf by (subst; auto).
  split; [done|]. split; [by apply wp_execute|by apply wp_drop_job].
Qed.
Lemma wp_start job h (Q : CpuJob → list token → Prop) E :
  waiting job → h = job_tokens job → (∀ x, x ≡ₚ job_tokens (started job) → Q (started job) x) →
  wp (Cpu.start job) (TPermit Workers :: h) Q E.
Proof.
  intros Hwait -> HQ. pose proof Hwait as [Hq Hw].
  assert (wp (Cpu.start job) (TPermit Workers :: core_tokens job)
    (λ j x, j = started job ∧ x ≡ₚ core_tokens (started job)) (λ _ _, False)) as Hstart.
  { unfold Cpu.start, core_tokens. rewrite Hq, Hw. run_tokens. split_and!; try fit; [done|].
    apply Permutation_cons; [done|].
    apply (Permutation_app_comm [TPermit Workers] [TLive; TPermit CpuJobs; TPermit Slots]). }
  apply (wp_use _ _ (work_tokens job) _ _ _ _ _ Hstart); [| | |done].
  - unfold work_tokens. destruct (jb_work job); [apply Hclosures|done].
  - unfold job_tokens. simpl. by rewrite (Permutation_app_comm (work_tokens job)).
  - intros j x y [-> Hy] Hx. apply HQ. rewrite Hx, Hy. apply Permutation_app_comm.
Qed.
Lemma wp_run_round job h (Q : CpuJob + unit → list token → Prop) E :
  waiting job → h = job_tokens job → Q (inr tt) [] →
  (∀ job, waiting job → Q (inl job) (job_tokens job)) → (∀ h, E HPoisoned h) → (∀ w, E w []) →
  wp (Cpu.run_round cancelled work job) h Q E.
Proof.
  intros Hw Hh HQ Hagain HE HE0. pose proof (waiting_ok _ Hw) as Hok.
  assert (fits h) as Hf by (subst; auto). unfold Cpu.run_round.
  assert (∀ job', job_ok job' → h = job_tokens job' →
    wp (Cpu.drop_job cancelled work job';;> Ret (inr tt)) h Q E) as Hdrop.
  { intros job' ??. apply wp_bind, wp_drop_job; [done..|by split|done]. }
  apply wp_bind, wp_is_cancelled; [done..| |by apply Hdrop].
  intros [|]; [by apply Hdrop|]. apply wp_bind. split; [done|]. split_and!; (split; [try done|]).
  - apply wp_bind, wp_holding; [done..|]. apply wp_await; [done|split; [done|subst; auto]|by right].
  - by apply Hdrop.
  - subst h. unfold job_tokens. rewrite Permutation_middle. apply fits_app.
    + unfold work_tokens. destruct (jb_work job); [apply Hclosures|done].
    + destruct Hw as [Hq Hwr]. unfold core_tokens. rewrite Hq, Hwr. fit.
  - apply wp_bind, wp_start; [done..|]. intros x Hx. assert (fits x) as Hfx by (rewrite Hx; auto).
    split; [done|]. exists (job_tokens (started job)), []. split_and!; [by rewrite app_nil_r| |].
    + by apply wp_spawn_blocking; auto.
    + apply wp_bind, wp_await; [done|by split|apply HE0].
Qed.
Lemma wp_task job h :
  waiting job → h = job_tokens job → thread_ok (Cpu.task cancelled work job) h.
Proof.
  intros Hw Hh. assert (fits h) as Hf by (subst; auto).
  assert (wp (Cpu.run cancelled work job) h (λ _, spent) settled) as Hrun.
  { split; [done|]. exists (λ job x, waiting job ∧ x = job_tokens job). split; [done|]. intros job' x [Hw' ->].
    apply wp_run_round; auto; done. }
  split; [done|]. split; [exact Hrun|]. by apply wp_drop_job; auto.
Qed.
End job_logic.
