(* ===== verification/Tasks.v ===== *)
(** * The native task service

    [runtime-native/src/tasks.rs] and the helpers of [lib.rs] it uses: task slots, the
    tasks spawned in them, and timers.  A task holds its slot until the destructors of
    everything it owns have run. *)
From S2P Require Import Prelude.
From S2P Require Import Collections.
From S2P Require Import Text.
From S2P Require Import Types.
From S2P Require Import Metadata.
From S2P Require Import Diagnostics.
From S2P Require Import Publications.
From S2P Require Import WorldState.
From S2P Require Import Admission.
From S2P Require Import Actors.
From S2P Require Import Messaging.
From S2P Require Import Components.
From S2P Require Import Views.
From S2P Require Import NativeConfig.
From S2P Require Import NativeState.
From S2P Require Import Native.
From S2P Require Import NativeLogic.
From S2P Require Import Cpu.

(** ** Results *)
Abbreviation result A := (prog (native_error + A)).
Definition rbind {E A B} (m : prog (E + A)) (k : A → prog (E + B)) : prog (E + B) :=
  do! r := m in
  match r with inr a => k a | inl e => Ret (inl e) end.
Notation "'try!' x ':=' m 'in' k" := (rbind m (λ x, k))
  (at level 10, x pattern, m at level 100, k at level 200) : prog_scope.
Definition ok {A} (a : A) : result A := Ret (inr a).
Definition err {A} (e : native_error) : result A := Ret (inl e).
Definition core {A} (e : error) : result A := err (Native.Core e).
(** A call on the World, with [?]. *)
Definition world {A} (m : WM A) : result A :=
  do! r := on_world m in
  Ret match r with inr a => inr a | inl e => inl (Native.Core e) end.
Definition world_now : prog Instant :=
  do (Atomic (λ s, let '(t, c) := Clocks.now (w_clock (sh_world s)) in
    (t, s <| sh_world ::= λ w, w <| w_clock := c |> |>))).
(** A local is dropped when the rest of the function returns an error. *)
Definition releasing {E A} (cleanup : prog unit) (m : prog (E + A)) : prog (E + A) :=
  do! r := m in
  match r with
  | inr a => Ret (inr a)
  | inl e => cleanup ;;> Ret (inl e)
  end.
(** Dropping a [HeldPayload]. *)
Fixpoint remove_stored (id : N) (l : list Stored) : list Stored :=
  match l with
  | [] => []
  | s :: l => if (stored_id s =? id)%N then l else s :: remove_stored id l
  end.
Definition drop_stored (held : HeldPayload) : prog unit :=
  do (Atomic (λ s, (tt, s <| sh_world ::= λ w, w <| w_held ::= remove_stored (stored_id (held_stored held)) |> |>))).
Definition drop_lease (lease : N) : prog unit := on_world (drop_task lease) ;;> Ret tt.
(** Dropping a [PublicationTicket]. *)
Definition drop_ticket (ticket : N) : prog unit := on_world (publications (Publications.drop_ticket ticket)) ;;> Ret tt.
Definition milliseconds (n : N) : N := n * 10 ^ 6.
Definition check_interval : N := milliseconds 1.
Definition max_period : N := seconds 86400.

Definition is_active (owner : ActorRef) : prog bool :=
  do! state := on_world (execution_state owner) in
  Ret (bool_decide (state = inr Lifecycle.Active)).

(** ** The service *)
Module Tasks.
Definition permits (count : nat) : result unit :=
  do! permit := do (TryAcquire Slots count) in
  if permit : bool then ok tt else err (Native.Limit "runtime tasks").
(** [cpu] says whether the runtime has a CPU pool. *)
Definition reserve_cpu (cpu : bool) : result CpuReservation :=
  if negb cpu then err (Native.Application "CpuUnavailableInTestWorld") else
  do! reservation := Cpu.reserve in
  match reservation with
  | inr reservation => ok reservation
  | inl label => err (Native.Limit label)
  end.
Definition spawn_cpu (owner : ActorRef) (lease : N) (reservation : CpuReservation)
    (cancelled : closure bool) (work : closure cpu_outcome) : result unit :=
  do! job := Cpu.new_job reservation owner lease in
  Spawn (Cpu.task cancelled work job) (ok tt).
(** The future of [spawn]; [make_future] owns its clone of the lease, the guard is
    another one.  The slot goes last. *)
Definition task_body (owner : ActorRef) (make_future : closure unit) : prog unit :=
  do! finished := catch_unwind (cl_call make_future) in
  match finished with
  | Some _ => Ret tt
  | None =>
      on_world (Supervision.report_failure owner None None None (Cpu.rust_panic "native_task")
        FailureAction.StopActor) ;;>
      Ret tt
  end.
Definition task (count : nat) (owner : ActorRef) (lease : N) (make_future : closure unit) : prog unit :=
  do! polled := do Await in
  if polled : bool then
    finally
      (on_world (clone_task lease) ;;>
       finally (task_body owner make_future) (drop_lease lease))
      (do (Release Slots count))
  else
    finally (finally (drop_lease lease) (cl_drop make_future)) (do (Release Slots count)).
Definition spawn (count : nat) (owner : ActorRef) (lease : N) (make_future : closure unit) : prog unit :=
  Spawn (task count owner lease make_future) (Ret tt).

(** ** Timers *)

(** The wait for the owner to be active: whether the timer goes on. *)
Definition await_active (owner : ActorRef) (deadline : option Instant) : prog bool :=
  loop (λ _ : unit,
    do! active := is_active owner in
    if active : bool then Ret (inr true) else
    do! state := on_world (execution_state owner) in
    if negb (bool_decide (state = inr Lifecycle.Starting)) then Ret (inr false) else
    do! expired := match deadline with
      | Some at_ => do! t := world_now in Ret (at_ <=? t)%N
      | None => Ret false
      end in
    if expired : bool then Ret (inr false) else
    sleep check_interval ;;>
    Ret (inl tt)) tt.
(** The select: any branch that is ready may be taken; the check may be due at any
    poll. *)
Definition timer_wait (owner target : ActorRef) (held : HeldPayload) (expires : N) (dies : option N) : prog unit :=
  loop (λ _ : unit,
    do! t := do Now in
    do! fire := do Choose in
    if fire && (expires <=? t)%N then
      on_world (send_held_from owner target held) ;;>
      Ret (inr tt)
    else
    do! check := do Choose in
    if check && match dies with Some at_ => (at_ <=? t)%N | None => false end then Ret (inr tt) else
    do! due := do Choose in
    if due : bool then
      do! active := is_active owner in
      if active : bool then Ret (inl tt) else Ret (inr tt)
    else
    await ;;>
    Ret (inl tt)) tt.
Definition timer (owner target : ActorRef) (delay : N) (held : HeldPayload) : prog unit :=
  let deadline := mo_deadline (stored_options (held_stored held)) in
  do! go := await_active owner deadline in
  if negb go then Ret tt else
  do! t := do Now in
  let expires := (t + delay)%N in
  do! dies := match deadline with
    | Some at_ =>
        do! now := world_now in
        do! t := do Now in
        Ret (Some (t + (at_ - now))%N)
    | None => Ret None
    end in
  timer_wait owner target held expires dies.
Definition drop_local (local : option N) : prog unit :=
  match local with Some component => do (Release (Local component) 1) | None => Ret tt end.
Definition timer_future (owner target : ActorRef) (delay : N) (held : HeldPayload) (lease : N)
    (local : option N) : closure unit := {|
  cl_call := finally (finally (finally (timer owner target delay held) (drop_stored held)) (drop_lease lease))
               (drop_local local);
  cl_drop := finally (drop_stored held) (drop_local local) |}.
(** [after_inner]: every permit and handle taken so far is given back on an error. *)
Definition after_inner (owner target : ActorRef) (delay : N) (payload : Payload) (options : MessageOptions)
    (local : option N) : result unit :=
  releasing (drop_local local) (
    if (max_period <? delay)%N then err (Native.Limit "timer delay") else
    if match mo_source options with Some source => bool_decide (source ≠ owner) | None => false end
    then core Error.InvalidMetadata else
    let options := options <| mo_source := Some owner |> in
    if negb (Options.validate options) then core Error.InvalidMetadata else
    try! state := world (state target) in
    if negb (starting_or_active state) then core Error.ActorStopped else
    try! _ := permits 1 in
    releasing (do (Release Slots 1)) (
      try! held := world (hold_with payload options) in
      releasing (drop_stored held) (
        try! lease := world (track_task owner) in
        spawn 1 owner lease (timer_future owner target delay held lease local) ;;>
        ok tt))).
End Tasks.
