(* ===== verification/Sdk.v ===== *)
(** * Native components

    [runtime-native/src/sdk.rs]: the effects a component's hook may perform, the jobs
    that answer its requests later, its preparation and its executor.  Hooks and job
    factories are application code: programs given to the definitions. *)
From S2P Require Import Prelude.
From S2P Require Import Collections.
From S2P Require Import Text.
From S2P Require Import Types.
From S2P Require Import Metadata.
From S2P Require Import Schema.
From S2P Require Import Operations.
From S2P Require Import WorldState.
From S2P Require Import Admission.
From S2P Require Import Actors.
From S2P Require Import Messaging.
From S2P Require Import Components.
From S2P Require Import Views.
From S2P Require Import NativeConfig.
From S2P Require Import NativeState.
From S2P Require Import Native.
From S2P Require Import NativeLogic.
From S2P Require Import Cpu.
From S2P Require Import Tasks.

Module Phase.
Inductive phase := Startup | Event | Tick | Supervisor | Quiesce | Drain | Stop.
End Phase.
Abbreviation phase := Phase.phase.
#[export] Instance phase_eq_dec : EqDecision phase.
Proof. solve_decision. Defined.

(** [Execution]: the component's number names its job semaphore and statistics;
    [ex_cpu]: whether the runtime has a CPU pool. *)
Record Execution := MkExecution {
  ex_owner : ActorRef; ex_lease : N; ex_spec : NativeSpec; ex_component : N; ex_cpu : bool }.
(** A claimed delivery: its handle, and what [DeliveryLease] lets a hook see. *)
Record Claimed := MkClaimed { ld_handle : N; ld_lease : DeliveryLease }.
Definition ld_envelope (d : Claimed) : Envelope := d_envelope (dl_delivery (ld_lease d)).
Definition ld_operation (d : Claimed) : option OperationId := dl_operation (ld_lease d).
Record NativeContext := MkContext {
  cx_execution : Execution; cx_phase : phase; cx_delivery : option Claimed;
  cx_remaining : N; cx_deferred : bool }.
#[export] Instance NativeContext_expand : Expand NativeContext := λ r,
  MkContext (cx_execution r) (cx_phase r) (cx_delivery r) (cx_remaining r) (cx_deferred r).

Definition on_stats (component : N) (f : NativeStats → NativeStats) : prog unit :=
  do (Atomic (λ s, (tt, s <| sh_stats ::= alter f component |>))).

Module Execution.
Definition context (e : Execution) (phase : phase) (delivery : option Claimed) : NativeContext :=
  MkContext e phase delivery (nl_effects_per_callback (sp_limits (ex_spec e))) false.
Definition failure (e : Execution) (phase : FailurePhase) (delivery : option Claimed)
    (error : native_error) (panic : bool) : prog unit :=
  on_world (Supervision.report_failure (ex_owner e) (d_event_id ∘ dl_delivery ∘ ld_lease <$> delivery)
    (si_id ∘ env_schema ∘ ld_envelope <$> delivery) (delivery ≫= ld_operation)
    (Failures.details_new phase (cd_name (sp_descriptor (ex_spec e))) (Native.code error) [])
    (if panic || negb (bool_decide (phase = Handler)) then FailureAction.StopActor
     else sp_failure_action (ex_spec e))) ;;>
  Ret tt.
End Execution.

(** ** Effects

    A method of [NativeContext] takes the context and gives it back; an error keeps
    what the context has become, as [&mut self] does. *)
Definition CM (A : Type) : Type := NativeContext → prog ((native_error + A) * NativeContext).
Definition cret {A} (a : A) : CM A := λ cx, Ret (inr a, cx).
Definition cfail {A} (e : native_error) : CM A := λ cx, Ret (inl e, cx).
Definition cbind {A B} (m : CM A) (k : A → CM B) : CM B := λ cx,
  do! (r, cx) := m cx in
  match r with inr a => k a cx | inl e => Ret (inl e, cx) end.
Definition cget : CM NativeContext := λ cx, Ret (inr cx, cx).
Definition cput (f : NativeContext → NativeContext) : CM unit := λ cx, Ret (inr tt, f cx).
Definition clift {A} (m : result A) : CM A := λ cx, do! r := m in Ret (r, cx).
(** The value of a [Result]. *)
Definition ctry {A} (m : CM A) : CM (native_error + A) := λ cx, do! (r, cx) := m cx in Ret (inr r, cx).
Notation "'cx!' x ':=' m 'in' k" := (cbind m (λ x, k))
  (at level 10, x pattern, m at level 100, k at level 200) : prog_scope.
Definition cstopped {A} : CM A := cfail (Native.Core Error.ActorStopped).

Module Context.
Definition owner (cx : NativeContext) : ActorRef := ex_owner (cx_execution cx).
Definition envelope (cx : NativeContext) : option Envelope := ld_envelope <$> cx_delivery cx.
Definition operation (cx : NativeContext) : option OperationId := cx_delivery cx ≫= ld_operation.
Definition state : CM lifecycle :=
  cx! cx := cget in
  clift (world (execution_state (owner cx))).
Definition port (name : string) : CM PortRef :=
  cx! cx := cget in
  clift (world (Ports.port (owner cx) name)).
Definition effect : CM unit :=
  cx! cx := cget in
  cx! _ := clift (on_stats (ex_component (cx_execution cx))
    (λ s, s <| ns_effects_attempted ::= λ n, saturating_add u64_max n 1 |>) ;;> ok tt) in
  if bool_decide (cx_phase cx = Phase.Stop) then cstopped else
  if (cx_remaining cx =? 0)%N then cfail (Native.Limit "callback effects") else
  cput (λ cx, cx <| cx_remaining ::= N.pred |>).
Definition options (o : MessageOptions) : CM MessageOptions :=
  if negb (Options.validate o) then cfail (Native.Core Error.InvalidMetadata) else
  cx! cx := cget in
  if match mo_source o with Some source => bool_decide (source ≠ owner cx) | None => false end
  then cfail (Native.Core Error.InvalidMetadata) else
  let inherited := match envelope cx with
                   | Some e => child_options e (owner cx)
                   | None => default_options
                   end in
  cret (merge_options (inherited <| mo_source := Some (owner cx) |>) o).
Definition may_start (p : phase) : bool :=
  match p with Phase.Startup | Phase.Event | Phase.Tick | Phase.Supervisor => true | _ => false end.
Definition new_work : CM unit :=
  cx! cx := cget in
  if negb (may_start (cx_phase cx)) then cstopped else
  cx! state := state in
  if negb (starting_or_active state) then cstopped else
  cret tt.
Definition emit_with (name : string) (payload : Payload) (o : MessageOptions) : CM N :=
  cx! _ := effect in
  cx! output := port name in
  cx! o := options o in
  cx! cx := cget in
  clift (world (
    match cx_delivery cx with
    | Some delivery => Ports.delivery_publish_port (ld_handle delivery) output payload o
    | None =>
        match cx_phase cx with
        | Phase.Tick | Phase.Drain | Phase.Quiesce =>
            Ports.task_publish_port (ex_lease (cx_execution cx)) output payload o
        | _ => Ports.publish_port_with output payload o
        end
    end)).
Definition emit (name : string) (payload : Payload) : CM N := emit_with name payload default_options.
Definition send (target : ActorRef) (payload : Payload) (o : MessageOptions) : CM N :=
  cx! _ := effect in
  cx! _ := new_work in
  cx! o := options o in
  clift (world (send_with target payload o)).
Definition reply (payload : Payload) : CM bool :=
  cx! _ := effect in
  cx! cx := cget in
  if cx_deferred cx then cfail (Native.Application "ReplyAlreadyDeferred") else
  match operation cx with
  | None => cfail (Native.Application "NotARequest")
  | Some operation => clift (world (complete_operation_with operation (owner cx) payload None))
  end.
(** [self.execution.jobs.clone().try_acquire_owned()]. *)
Definition local_permit : CM unit :=
  cx! cx := cget in
  clift (
    do! permit := do (TryAcquire (Local (ex_component (cx_execution cx))) 1) in
    if permit : bool then ok tt else err (Native.Limit "component jobs")).
Definition release_local (component : N) : prog unit := do (Release (Local component) 1).
(** A local of the method is dropped when the rest of it returns an error. *)
Definition creleasing {A} (cleanup : prog unit) (m : CM A) : CM A := λ cx,
  do! (r, cx) := m cx in
  match r with
  | inr a => Ret (inr a, cx)
  | inl e => cleanup ;;> Ret (inl e, cx)
  end.
Definition after (delay : N) (target : ActorRef) (payload : Payload) (o : MessageOptions) : CM unit :=
  cx! _ := effect in
  cx! _ := new_work in
  cx! _ := local_permit in
  cx! cx := cget in
  let component := ex_component (cx_execution cx) in
  cx! o := creleasing (release_local component) (options o) in
  clift (Tasks.after_inner (owner cx) target delay payload o (Some component)).
End Context.

(** ** Jobs *)

(** A future polled in a select whose other branches are looked at by [check], when
    the select starts waiting again: if one of them is ready the future is dropped.
    [k false] unwinds and so never returns. *)
Fixpoint selecting {E} (check : prog (option E)) {A} (m : prog A) : prog (E + A) :=
  match m in prog A return prog (E + A) with
  | Ret a => Ret (inr a)
  | Halt why => Halt why
  | Do a k =>
      match a in act B return (B → prog _) → prog (E + _) with
      | Await => λ k,
          do! due := do Choose in
          do! ready := if due : bool then check else Ret None in
          match ready with
          | Some e =>
              do! dropped := caught (k false) in
              match dropped with
              | inl HDrop => Ret (inl e)
              | inl why => Halt why
              | inr a => Ret (inr a)
              end
          | None => Do Await (λ resumed, selecting check (k resumed))
          end
      | a => λ k, Do a (λ b, selecting check (k b))
      end k
  | Spawn task k => Spawn task (selecting check k)
  | Loop body s k =>
      Loop (λ s, pbind (selecting check (body s)) (λ r, Ret match r with
                   | inl e => inr (inl e)
                   | inr (inl s) => inl s
                   | inr (inr a) => inr (inr a)
                   end)) s
        (λ r, match r with inl e => Ret (inl e) | inr a => selecting check (k a) end)
  end.

(** [JobContext]; its output reservation is the cell of the job's task lease. *)
Record JobContext := MkJobContext {
  jc_owner : ActorRef; jc_operation : OperationId; jc_deadline : Instant; jc_id : N }.
(** A job's factory: it owns its input.  The destructor is that of its captures. *)
Record factory := MkFactory {
  fa_call : HeldPayload → JobContext → result Payload; fa_drop : prog unit }.

(** A status that is looked at: the payload handles in it are dropped at once. *)
Definition status_of (id : OperationId) : prog (error + OperationStatus) :=
  on_world (λ w, (Operations.status (w_operations w) id, w)).
Definition is_pending (status : error + OperationStatus) : bool :=
  match status with inr (SPending _) => true | _ => false end.
Definition retired (id : OperationId) : prog bool :=
  do! status := status_of id in
  Ret match status with
      | inr (STerminal _) | inl Error.StaleReference => true
      | _ => false
      end.

Module Job.
Definition is_cancelled (job : JobContext) : prog bool :=
  do! t := world_now in
  if (jc_deadline job <=? t)%N then Ret true else
  do! state := on_world (execution_state (jc_owner job)) in
  if negb match state with inr s => active_or_quiescing s | inl _ => false end then Ret true else
  do! status := status_of (jc_operation job) in
  Ret (negb (is_pending status)).
Definition reserve_buffer (bytes : N) : result N := world (Buffers.reserve bytes).
Definition output_of (job : JobContext) : prog (option N) :=
  do (Atomic (λ s, (sh_outputs s !! jc_id job, s))).
(** The job's own mutex is held throughout; the World's lock for each call. *)
Definition reserve_output (job : JobContext) (bytes : N) : result unit :=
  do! config := do (Atomic (λ s, (w_cfg (sh_world s), s))) in
  if (max_event_bytes config <? bytes)%N then err (Native.Limit "operation output bytes") else
  do! output := output_of job in
  match output with
  | Some permit =>
      do! held := do (Atomic (λ s, (default 0%N (w_permits (sh_world s) !! permit), s))) in
      world (Buffers.try_grow permit (saturating_sub bytes held))
  | None =>
      try! permit := world (Buffers.reserve bytes) in
      do (Atomic (λ s, (tt, s <| sh_outputs ::= <[jc_id job := permit]> |>))) ;;>
      ok tt
  end.
(** The last clone of the context drops the reservation. *)
Definition drop_output (job : JobContext) : prog unit :=
  do! output := output_of job in
  match output with
  | Some permit =>
      do (Atomic (λ s, (tt, s <| sh_outputs ::= delete (jc_id job) |>))) ;;>
      on_world (Buffers.drop_permit permit) ;;>
      Ret tt
  | None => Ret tt
  end.
(** The result is handed to the World, and its failure reported. *)
Definition complete (job : JobContext) (result : native_error + Payload) (identity : string)
    (envelope : option Envelope) (action : failure_action) : prog unit :=
  do! completed :=
    match result with
    | inr payload => world (complete_operation_with (jc_operation job) (jc_owner job) payload None)
    | inl e => err e
    end in
  match completed with
  | inr _ => Ret tt
  | inl error =>
      on_world (Supervision.report_failure (jc_owner job) (env_event_id <$> envelope)
        (si_id ∘ env_schema <$> envelope) (Some (jc_operation job))
        (Failures.details_new Handler identity (Native.code error) [])
        (if bool_decide (error = Native.Panic) then FailureAction.StopActor else action)) ;;>
      Ret tt
  end.
Definition run_factory (f : factory) (input : HeldPayload) (job : JobContext) : result Payload :=
  do! r := catch_unwind (fa_call f input job) in
  Ret match r with Some r => r | None => inl Native.Panic end.
Definition run_cpu_job (job : JobContext) (input : HeldPayload) (f : factory) (identity : string)
    (envelope : option Envelope) (action : failure_action) : prog cpu_outcome :=
  do! cancelled := is_cancelled job in
  if cancelled : bool then
    finally (fa_drop f) (drop_stored input) ;;>
    Ret JobCancelled
  else
  do! result := run_factory f input job in
  do! cancelled := is_cancelled job in
  let panicked := match result with inl Native.Panic => true | _ => false end in
  if cancelled && negb panicked then Ret JobCancelled else
  complete job result identity envelope action ;;>
  Ret (if panicked then JobPanicked else JobCompleted).
Definition cancel_check (job : JobContext) : prog (option unit) :=
  do! cancelled := is_cancelled job in
  Ret (if cancelled : bool then Some tt else None).
Definition run_job (job : JobContext) (input : HeldPayload) (f : factory) (identity : string)
    (envelope : option Envelope) (action : failure_action) : prog unit :=
  finally (
    do! cancelled := is_cancelled job in
    if cancelled : bool then finally (fa_drop f) (drop_stored input) else
    do! result := selecting (cancel_check job) (run_factory f input job) in
    match result with
    | inr result => complete job result identity envelope action
    | inl _ => Ret tt
    end) (drop_output job).
End Job.

(** ** Deferred replies *)
Module Defer.
(** What is reserved for a job; each reservation is given back when a later one fails. *)
Definition prepared (input : Payload) : CM (HeldPayload * N) :=
  cx! _ := Context.new_work in
  cx! o := Context.options default_options in
  cx! input := clift (world (hold_with input o)) in
  cx! cx := cget in
  let e := cx_execution cx in
  Context.creleasing (drop_stored input) (
    if (nl_max_job_input_bytes (sp_limits (ex_spec e)) <? stored_bytes (held_stored input))%N
    then cfail (Native.Limit "operation input bytes") else
    cx! _ := Context.local_permit in
    Context.creleasing (Context.release_local (ex_component e)) (
      cx! _ := clift (Tasks.permits 1) in
      Context.creleasing (do (Release Slots 1)) (
        cx! lease := clift (world (track_task (ex_owner e))) in
        cret (input, lease)))).
(** With CPU admission first. *)
Definition prepared_cpu (input : Payload) : CM (CpuReservation * (HeldPayload * N)) :=
  cx! _ := Context.new_work in
  cx! cx := cget in
  cx! cpu := clift (Tasks.reserve_cpu (ex_cpu (cx_execution cx))) in
  Context.creleasing (Cpu.drop_reservation cpu) (
    cx! o := Context.options default_options in
    cx! input := clift (world (hold_with input o)) in
    cx! cx := cget in
    let e := cx_execution cx in
    Context.creleasing (drop_stored input) (
      if (nl_max_job_input_bytes (sp_limits (ex_spec e)) <? stored_bytes (held_stored input))%N
      then cfail (Native.Limit "operation input bytes") else
      cx! _ := Context.local_permit in
      Context.creleasing (Context.release_local (ex_component e)) (
        cx! _ := clift (Tasks.permits 1) in
        Context.creleasing (do (Release Slots 1)) (
          cx! lease := clift (world (track_task (ex_owner e))) in
          cret (cpu, (input, lease)))))).
Definition set_deferred : CM unit := cput (λ cx, cx <| cx_deferred := true |>).
Definition job_submitted : CM unit :=
  cx! cx := cget in
  clift (on_stats (ex_component (cx_execution cx))
    (λ s, s <| ns_jobs_submitted ::= λ n, saturating_add u64_max n 1 |>) ;;> ok tt).
(** The checks both methods start with: the operation to answer, unless it is
    already over ([None]). *)
Definition begin : CM (option OperationId) :=
  cx! _ := Context.effect in
  cx! cx := cget in
  if cx_deferred cx then cfail (Native.Application "ReplyAlreadyDeferred") else
  match Context.operation cx with
  | None => cfail (Native.Application "NotARequest")
  | Some operation =>
      cx! over := clift (do! r := retired operation in ok r) in
      if over : bool then cx! _ := set_deferred in cret None else cret (Some operation)
  end.
(** [Err(_) if retired()]. *)
Definition unless_retired {A} (operation : OperationId) (m : CM A) : CM (option A) :=
  cx! r := ctry m in
  match r with
  | inr a => cret (Some a)
  | inl e =>
      cx! over := clift (do! r := retired operation in ok r) in
      if over : bool then cx! _ := set_deferred in cret None else cfail e
  end.
(** [expect("job deadline")]; a panic drops what was prepared. *)
Definition job_deadline (input : HeldPayload) (cleanup : prog unit) : CM Instant :=
  match mo_deadline (stored_options (held_stored input)) with
  | Some at_ => cret at_
  | None => λ cx, unwinding (Halt HPanic) cleanup
  end.
Definition reply_future (e : Execution) (job : JobContext) (input : HeldPayload) (f : factory)
    (envelope : option Envelope) : closure unit := {|
  cl_call :=
    finally (finally (Job.run_job job input f (cd_name (sp_descriptor (ex_spec e))) envelope
                        (sp_failure_action (ex_spec e)))
               (Context.release_local (ex_component e)))
      (drop_lease (jc_id job));
  cl_drop :=
    finally (finally (finally (fa_drop f) (drop_stored input)) (Job.drop_output job))
      (Context.release_local (ex_component e)) |}.
Definition defer_reply (input : Payload) (f : factory) : CM unit :=
  Context.creleasing (fa_drop f) (
    cx! operation := begin in
    match operation with
    | None => clift (fa_drop f ;;> ok tt)
    | Some operation =>
        cx! reserved := unless_retired operation (prepared input) in
        match reserved with
        | None => clift (fa_drop f ;;> ok tt)
        | Some (input, lease) =>
            cx! cx := cget in
            let e := cx_execution cx in
            cx! deadline := job_deadline input
              (drop_lease lease ;;> do (Release Slots 1) ;;> Context.release_local (ex_component e) ;;>
               drop_stored input ;;> fa_drop f) in
            let job := MkJobContext (ex_owner e) operation deadline lease in
            cx! _ := clift (Tasks.spawn 1 (ex_owner e) lease (reply_future e job input f (Context.envelope cx)) ;;> ok tt) in
            cx! _ := set_deferred in
            job_submitted
        end
    end).
(** The closures of a CPU job: the work owns the input, the factory and the local
    permit; the last clone of the job's context goes with the cancellation check. *)
Definition cpu_work (e : Execution) (job : JobContext) (input : HeldPayload) (f : factory)
    (envelope : option Envelope) : closure cpu_outcome := {|
  cl_call := finally (Job.run_cpu_job job input f (cd_name (sp_descriptor (ex_spec e))) envelope
                        (sp_failure_action (ex_spec e)))
               (Context.release_local (ex_component e));
  cl_drop := finally (finally (fa_drop f) (drop_stored input)) (Context.release_local (ex_component e)) |}.
Definition cpu_cancelled (job : JobContext) : closure bool := {|
  cl_call := Job.is_cancelled job; cl_drop := Job.drop_output job |}.
Definition defer_cpu_reply (input : Payload) (f : factory) : CM unit :=
  Context.creleasing (fa_drop f) (
    cx! operation := begin in
    match operation with
    | None => clift (fa_drop f ;;> ok tt)
    | Some operation =>
        cx! reserved := unless_retired operation (prepared_cpu input) in
        match reserved with
        | None => clift (fa_drop f ;;> ok tt)
        | Some (cpu, (input, lease)) =>
            cx! cx := cget in
            let e := cx_execution cx in
            cx! deadline := job_deadline input
              (drop_lease lease ;;> do (Release Slots 1) ;;> Context.release_local (ex_component e) ;;>
               drop_stored input ;;> Cpu.drop_reservation cpu ;;> fa_drop f) in
            let job := MkJobContext (ex_owner e) operation deadline lease in
            cx! _ := clift (Tasks.spawn_cpu (ex_owner e) lease cpu (cpu_cancelled job)
                              (cpu_work e job input f (Context.envelope cx))) in
            cx! _ := set_deferred in
            job_submitted
        end
    end).
End Defer.
