(* ===== verification/Executor.v ===== *)
(** * Preparing and running a native component

    [NativeRuntime::prepare_native] and [run_component] of
    [runtime-native/src/sdk.rs]: a component is configured, registered, constructed
    and started on the preparing thread, then moved into a task that serves its
    failures, its events, its ticks and its drain, one hook at a time. *)
From S2P Require Import Prelude.
From S2P Require Import Collections.
From S2P Require Import Text.
From S2P Require Import Types.
From S2P Require Import Metadata.
From S2P Require Import Schema.
From S2P Require Import Activity.
From S2P Require Import WorldState.
From S2P Require Import Admission.
From S2P Require Import Actors.
From S2P Require Import Messaging.
From S2P Require Import Components.
From S2P Require Import Views.
From S2P Require Import NativeConfig.
From S2P Require Import NativeState.
From S2P Require Import Native.
From S2P Require Import NativeLogic.
From S2P Require Import Cpu.
From S2P Require Import Tasks.
From S2P Require Import Sdk.

(** ** Components *)

(** What a hook returns: the component as the hook leaves it, and its result, [None]
    when it panics.  (A hook that halts panics too, before it changes the component.) *)
Definition hooked (C A : Type) : Type := (C * option (native_error + A))%type.
(** The trait [NativeBehavior], and the destructor of the component. *)
Class NativeBehavior (C : Type) := {
  on_start : C → NativeContext → prog (hooked C unit);
  on_event : C → Payload → NativeContext → prog (hooked C unit);
  on_tick : C → NativeContext → prog (hooked C unit);
  on_quiesce : C → NativeContext → prog (hooked C unit);
  on_failure : C → FailureRecord → N → NativeContext → prog (hooked C failure_action);
  on_drain : C → NativeContext → prog (hooked C unit);
  on_stop : C → NativeContext → prog (hooked C unit);
  drop_component : C → prog unit;
}.
(** [invoke], within [catch_unwind]: the result, and whether the hook panicked. *)
Definition hook_result {C A} (c : C) (hook : prog (hooked C A)) : prog (hooked C A) :=
  do! r := catch_unwind hook in
  Ret (default (c, None) r).
Definition invoke {C} (c : C) (hook : prog (hooked C unit)) : prog (C * ((native_error + unit) * bool)) :=
  do! (c, r) := hook_result c hook in
  Ret (c, match r with Some r => (r, false) | None => (inl Native.Panic, true) end).

Definition some_handle (r : error + option N) : option N :=
  match r with inr (Some handle) => Some handle | _ => None end.
Definition runs (state : error + lifecycle) : bool :=
  match state with inr s => active_or_quiescing s | inl _ => false end.
Definition drop_claim (claim : N) : prog unit := on_world (Callbacks.drop_callback claim) ;;> Ret tt.

(** [World::claim], and what its lease shows. *)
Definition claim_from (r : ActorRef) : prog (option Claimed) :=
  do! claimed := on_world (claim r) in
  match some_handle claimed with
  | None => Ret None
  | Some handle =>
      do! lease := do (Atomic (λ s, (w_leases (sh_world s) !! handle, s))) in
      match lease with
      | None => Halt HPoisoned
      | Some lease => Ret (Some (MkClaimed handle lease))
      end
  end.

Module Executor.
Section component.
Context {C : Type} `{!NativeBehavior C}.
Context (e : Execution).

Definition hook_context (phase : phase) : NativeContext := Execution.context e phase None.
Definition report {A} (phase : FailurePhase) (delivery : option Claimed) (r : native_error + A) (panic : bool) : prog unit :=
  match r with
  | inl error => Execution.failure e phase delivery error panic
  | inr _ => Ret tt
  end.
Definition cleanup (c : C) : prog C :=
  do! (c, (r, panic)) := invoke c (on_stop c (hook_context Phase.Stop)) in
  report Stop None r panic ;;>
  Ret c.
Definition dispose (c : C) : prog unit :=
  do! r := catch_unwind (drop_component c) in
  match r with
  | Some _ => Ret tt
  | None => Execution.failure e Stop None Native.Panic true
  end.
Definition stats (f : NativeStats → NativeStats) : prog unit := on_stats (ex_component e) f.

(** ** Waiting: an abort at an [await] drops the component *)
Definition waiting (c : C) : prog unit := unwinding await (drop_component c).
Definition wait_activity (c : C) (observed : N) : prog unit :=
  loop (λ _ : unit,
    do! r := on_world (poll_activity (ex_owner e) observed (ex_lease e)) in
    match r with
    | inr Activity.Pending => waiting c ;;> Ret (inl tt)
    | _ => Ret (inr tt)
    end) tt.
Definition wait_activity_or (c : C) (observed deadline : N) : prog unit :=
  loop (λ _ : unit,
    do! t := do Now in
    if (deadline <=? t)%N then Ret (inr tt) else
    do! r := on_world (poll_activity (ex_owner e) observed (ex_lease e)) in
    match r with
    | inr Activity.Pending => waiting c ;;> Ret (inl tt)
    | _ => Ret (inr tt)
    end) tt.

(** ** The parts of a turn *)

(** A child's failure, if one is waiting: the component, and whether its hook
    panicked, or the executor must stop. *)
Definition serve_failure (c : C) : prog (C * (bool * bool)) :=
  do! claimed := on_world (Supervision.claim_failure (ex_owner e)) in
  match some_handle claimed with
  | None => Ret (c, (false, false))
  | Some handle =>
      do! n := do (Atomic (λ s, (fl_notification <$> w_failure_leases (sh_world s) !! handle : option Notification, s))) in
      match n with
      | None => Halt HPoisoned (* a claimed lease is in the table *)
      | Some n =>
          do! (c, r) := hook_result c (on_failure c (nt_failure n) (nt_coalesced n) (hook_context Phase.Supervisor)) in
          let panicked := match r with None => true | _ => false end in
          do! action :=
            match r with
            | Some (inr action) => Ret action
            | Some (inl error) =>
                Execution.failure e Supervisor None error panicked ;;> Ret FailureAction.StopWorld
            | None =>
                Execution.failure e Supervisor None Native.Panic panicked ;;> Ret FailureAction.StopWorld
            end in
          on_world (Supervision.finish_failure handle (Some action)) ;;>
          do! state := on_world (execution_state (ex_owner e)) in
          Ret (c, (panicked, panicked || negb (runs state)))
      end
  end.
Definition claim_delivery : prog (option Claimed) := claim_from (ex_owner e).
(** Up to [n] events: how many were consumed, and whether a hook panicked. *)
Fixpoint serve_events (n : nat) (consumed : N) (c : C) : prog (C * (N * bool)) :=
  match n with
  | O => Ret (c, (consumed, false))
  | S n =>
      do! d := claim_delivery in
      match d with
      | None => Ret (c, (consumed, false))
      | Some d =>
          do! (c, (r, panic)) := invoke c (on_event c (stored_payload (d_payload (dl_delivery (ld_lease d))))
                                   (Execution.context e Phase.Event (Some d))) in
          report Handler (Some d) r panic ;;>
          on_world (finish_delivery (ld_handle d) (match r with inr _ => true | inl _ => false end)) ;;>
          stats (λ s, s <| ns_handled ::= λ n, saturating_add u64_max n 1 |>) ;;>
          if panic then Ret (c, (N.succ consumed, true)) else
          serve_events n (N.succ consumed) c
      end
  end.
(** The next occurrence after [now] of a period that was due at [deadline]. *)
Definition next_occurrence (now deadline period : N) : N := now + period - (now - deadline) mod period.
(** A tick, when one is due: the deadline of the next one, whether the tick is
    blocked by another claim, whether the hook panicked. *)
Definition serve_tick (c : C) (next_tick : option N) (period : N) : prog (C * (N * (bool * bool))) :=
  do! deadline := match next_tick with
    | Some deadline => Ret deadline
    | None => do! t := do Now in Ret (t + period)%N
    end in
  do! t := do Now in
  if (t <? deadline)%N then Ret (c, (deadline, (false, false))) else
  do! claimed := on_world (Callbacks.claim_native_callback (ex_owner e) false) in
  match some_handle claimed with
  | None => Ret (c, (deadline, (true, false)))
  | Some claim =>
      do! (c, (r, panic)) := invoke c (on_tick c (hook_context Phase.Tick)) in
      report Handler None r panic ;;>
      stats (λ s, s <| ns_ticks ::= λ n, saturating_add u64_max n 1 |>) ;;>
      do! now := do Now in
      drop_claim claim ;;>
      Ret (c, (next_occurrence now deadline period, (false, panic)))
  end.
(** A drain hook under its claim: [None] when the claim is not granted; otherwise
    whether it succeeded, and whether it panicked. *)
Definition with_drain_claim (c : C) (hook : C → prog (hooked C unit)) : prog (C * option (bool * bool)) :=
  do! claimed := on_world (Callbacks.claim_native_drain_callback (ex_owner e)) in
  match some_handle claimed with
  | None => Ret (c, None)
  | Some claim =>
      do! (c, (r, panic)) := invoke c (hook c) in
      report Stop None r panic ;;>
      drop_claim claim ;;>
      Ret (c, Some (match r with inr _ => true | inl _ => false end, panic))
  end.

(** ** Turns *)

(** What the loop of [run_component] keeps between turns. *)
Record turn := MkTurn { tn_component : C; tn_quiescing : bool; tn_next_tick : option N }.
(** The end of the loop: the component, and whether a hook panicked. *)
Definition finish (c : C) (panicked : bool) : prog (turn + C * bool) := Ret (inr (c, panicked)).
Definition continue (t : turn) : prog (turn + C * bool) := Ret (inl t).
(** The end of a turn: wait for activity or the next tick. *)
Definition idle (c : C) (quiescing : bool) (next_tick : option N) (tick_blocked : bool) (observed : N) :
    prog (turn + C * bool) :=
  match next_tick with
  | Some deadline =>
      if negb quiescing && negb tick_blocked then wait_activity_or c observed deadline
      else wait_activity c observed
  | None => wait_activity c observed
  end ;;>
  continue (MkTurn c quiescing next_tick).
(** After the events: the drain hook, the tick, the wait. *)
Definition end_turn (c : C) (quiescing : bool) (next_tick : option N) (observed consumed : N) :
    prog (turn + C * bool) :=
  do! upstream := on_world (Ports.upstream_done (ex_owner e)) in
  do! available := do (AvailablePermits (Local (ex_component e))) in
  if quiescing && match upstream with inr b => b | inl _ => false end &&
     (available =? nl_max_jobs (sp_limits (ex_spec e)))%N
  then
    do! (c, drained) := with_drain_claim c (λ c, on_drain c (hook_context Phase.Drain)) in
    match drained with
    | None => wait_activity c observed ;;> continue (MkTurn c quiescing next_tick)
    | Some (_, panic) => finish c panic
    end
  else
  do! (c, (next_tick, (tick_blocked, panicked))) :=
    match sp_period (ex_spec e) with
    | Some period =>
        if quiescing then Ret (c, (next_tick, (false, false))) else
        do! (c, (deadline, flags)) := serve_tick c next_tick period in
        Ret (c, (Some deadline, flags))
    | None => Ret (c, (next_tick, (false, false)))
    end in
  if panicked : bool then finish c true else
  if (consumed =? nl_events_per_turn (sp_limits (ex_spec e)))%N then
    waiting c ;;> continue (MkTurn c quiescing next_tick)
  else idle c quiescing next_tick tick_blocked observed.
Definition serve_turn (c : C) (quiescing : bool) (next_tick : option N) (observed : N) : prog (turn + C * bool) :=
  do! (c, (consumed, panicked)) := serve_events (N.to_nat (nl_events_per_turn (sp_limits (ex_spec e)))) 0 c in
  if panicked : bool then finish c true else
  do! state := on_world (execution_state (ex_owner e)) in
  if negb (runs state) then finish c false else
  end_turn c quiescing next_tick observed consumed.
Definition turn_body (t : turn) : prog (turn + C * bool) :=
  let c := tn_component t in
  let quiescing := tn_quiescing t in
  do! observed := on_world (activity (ex_owner e)) in
  match observed with
  | inl error => Execution.failure e Stop None (Native.Core error) false ;;> finish c false
  | inr observed =>
      do! state := on_world (execution_state (ex_owner e)) in
      match state with
      | inl _ | inr Lifecycle.Stopping | inr Lifecycle.Stopped => finish c false
      | inr Lifecycle.Starting => wait_activity c observed ;;> continue t
      | inr state =>
          stats (λ s, s <| ns_turns ::= λ n, saturating_add u64_max n 1 |>) ;;>
          do! (c, (panicked, stop)) := serve_failure c in
          if stop : bool then finish c panicked else
          if bool_decide (state = Lifecycle.Quiescing) && negb quiescing then
            do! (c, quiesced) := with_drain_claim c (λ c, on_quiesce c (hook_context Phase.Quiesce)) in
            match quiesced with
            | None => wait_activity c observed ;;> continue (MkTurn c quiescing (tn_next_tick t))
            | Some (succeeded, panic) =>
                if negb succeeded then finish c panic else
                if bool_decide (sp_drain (ex_spec e) = Native.Producer) then finish c false else
                serve_turn c true (tn_next_tick t) observed
            end
          else serve_turn c quiescing (tn_next_tick t) observed
      end
  end.
Definition run_component (c : C) : prog unit :=
  do! (c, panicked) := loop turn_body (MkTurn c false None) in
  do! c := (if panicked : bool then Ret c else cleanup c) in
  dispose c.
End component.

(** ** Preparation *)
Section prepare.
Context {C : Type} `{!NativeBehavior C}.
(** The task's closure drops the lease it is given at once; the execution owns
    another. *)
Definition component_future (e : Execution) (c : C) : closure unit := {|
  cl_call := drop_lease (ex_lease e) ;;> finally (run_component e c) (drop_lease (ex_lease e));
  cl_drop := finally (drop_component c) (drop_lease (ex_lease e)) |}.
Definition stop_owner (owner : ActorRef) : prog unit := on_world (stop owner) ;;> Ret tt.
(** Construction and startup, under the startup claim. *)
Definition start_component (e : Execution) (factory : prog (native_error + C)) : result C :=
  do! constructed := catch_unwind factory in
  match constructed with
  | Some (inl error) => Execution.failure e Construction None error true ;;> err error
  | None => Execution.failure e Construction None Native.Panic true ;;> err Native.Panic
  | Some (inr c) =>
      do! (c, (r, panic)) := invoke c (on_start c (hook_context e Phase.Startup)) in
      match r with
      | inl error =>
          Execution.failure e Start None error panic ;;>
          do! c := (if panic : bool then Ret c else cleanup e c) in
          dispose e c ;;>
          err error
      | inr _ =>
          do! state := on_world (state (ex_owner e)) in
          if bool_decide (state = inr Lifecycle.Starting) then ok c else
          do! c := cleanup e c in
          dispose e c ;;>
          core Error.ActorStopped
      end
  end.
Record NativeHandle := MkNativeHandle { nh_owner : ActorRef; nh_ports : list PortRef; nh_spec : NativeSpec; nh_component : N }.
(** [opened]: the runtime has not been closed.  Everything reserved is given back on
    an error, and an owner that was allocated is stopped. *)
Definition prepare_native (opened cpu : bool) (parent : option ActorRef) (spec : NativeSpec)
    (configuration : Value) (factory : Value → prog (native_error + C)) : result NativeHandle :=
  match Spec.validate_config spec configuration with
  | Err e => err e
  | Prelude.Panic => Halt HPanic
  | Ok configuration =>
      let spec := spec <| sp_configuration ::= normalized_clone |> in
      if negb opened then err (Native.Limit "runtime closed") else
      try! _ := Tasks.permits 1 in
      releasing (do (Release Slots 1)) (
        try! owner := world (allocate EndpointKind.Native parent) in
        try! ports := releasing (stop_owner owner) (world (Ports.register_component owner (sp_descriptor spec))) in
        try! lease := releasing (stop_owner owner) (world (track_task owner)) in
        do! claimed := on_world (Callbacks.claim_native_callback owner true) in
        match some_handle claimed with
        | None =>
            stop_owner owner ;;>
            drop_lease lease ;;>
            core (match claimed with inl e => e | inr _ => Error.ActorStopped end)
        | Some claim =>
            do! component := do (NewPool (nl_max_jobs (sp_limits spec))) in
            do (Atomic (λ s, (tt, s <| sh_stats ::= <[component := default_stats]> |>))) ;;>
            let e := MkExecution owner lease spec component cpu in
            try! c := releasing (drop_lease lease ;;> drop_claim claim) (start_component e (factory configuration)) in
            drop_claim claim ;;>
            on_world (clone_task lease) ;;>
            Tasks.spawn 1 owner lease (component_future e c) ;;>
            ok (MkNativeHandle owner ports spec component)
        end)
  end.
End prepare.
End Executor.
