(* ===== verification/NativeRules.v ===== *)
(** * Rules for the programs of the native runtime

    Programs without tokens of their own ([bal]), application code ([app]), and what the
    tasks of [Tasks.v], the effects of [Sdk.v] and the executor of [Executor.v] do with
    counters and permits. *)
From S2P Require Import Prelude.
From S2P Require Import Collections.
From S2P Require Import Types.
From S2P Require Import WorldState.
From S2P Require Import NativeState.
From S2P Require Import Native.
From S2P Require Import NativeLogic.

(** ** Balanced programs *)

(** What a program ends with: [async] programs may also be dropped. *)
Definition ends (async : bool) (why : halt) (h : list token) : Prop :=
  (async = false → why ≠ HDrop) ∧ (why ≠ HPoisoned → spent h).
Definition bal (async : bool) {A} (p : prog A) : Prop := wp p [] (λ _, spent) (ends async).
Lemma ends_poisoned async h : ends async HPoisoned h.
Proof. by split; intros []. Qed.
Lemma ends_panic async : ends async HPanic [].
Proof. by split. Qed.
Lemma ends_drop : ends true HDrop [].
Proof. by split. Qed.
#[export] Hint Resolve ends_poisoned ends_panic ends_drop : core.
Lemma ends_settled async why h : ends async why h → settled why h.
Proof. by intros [_ H]. Qed.

Section balanced.
Context (async : bool).
Implicit Types A B : Type.
Lemma bal_ret {A} (a : A) : bal async (Ret a).
Proof. done. Qed.
Lemma bal_panic {A} : bal async (Halt (A:=A) HPanic).
Proof. by split. Qed.
Lemma bal_poisoned {A} : bal async (Halt (A:=A) HPoisoned).
Proof. by split. Qed.
Lemma bal_bind {A B} (m : prog A) (k : A → prog B) : bal async m → (∀ a, bal async (k a)) → bal async (pbind m k).
Proof.
  intros Hm Hk. apply wp_bind. eapply wp_mono; [| |exact Hm]; [|done]. intros a h ->. apply Hk.
Qed.
Lemma bal_use {A} (p : prog A) h Q E :
  bal async p → fits h → (∀ a, Q a h) → (∀ w, (async = false → w ≠ HDrop) → w ≠ HPoisoned → E w h) →
  (∀ h, E HPoisoned h) → wp p h Q E.
Proof.
  intros Hp Hf HQ HE HP. eapply wp_mono; [| |apply (wp_frame p [] h _ _ Hp Hf)].
  - intros a ? (? & -> & ->). apply HQ.
  - intros w ? (y & -> & Hw & Hy). destruct (decide (w = HPoisoned)) as [->|Hn]; [done|].
    rewrite (Hy Hn). by apply HE.
Qed.
Lemma bal_caught {A} (m : prog A) : 
  bal async m → wp (caught m) [] (λ r h, match r with inr _ => spent h | inl w => ends async w h end) (ends async).
Proof. apply wp_caught. Qed.
Lemma bal_catch_unwind {A} (m : prog A) : bal async m → bal async (catch_unwind m).
Proof.
  intros Hm. apply wp_catch_unwind. eapply wp_mono; [| |exact Hm]; [done|].
  intros w h [Hd Hs]. case_decide; [subst; by apply Hs|done].
Qed.
Lemma bal_unwinding {A} (m : prog A) c : bal async m → bal async c → bal async (unwinding m c).
Proof.
  intros Hm Hc. apply wp_unwinding. eapply wp_mono; [| |exact Hm]; [done|].
  intros w h [Hd Hs]. case_decide; [by subst|]. rewrite (Hs H).
  eapply wp_mono; [| |exact Hc]; [|done]. by intros _ ? ->.
Qed.
Lemma bal_finally {A} (m : prog A) c : bal async m → bal async c → bal async (finally m c).
Proof. intros Hm Hc. apply bal_bind; [by apply bal_unwinding|]. intros a. by apply bal_bind. Qed.
Lemma bal_loop {S A} (body : S → prog (S + A)) s : (∀ s, bal async (body s)) → bal async (loop body s).
Proof.
  intros Hb. split; [done|]. exists (λ _, spent). split; [done|]. intros s' ? ->.
  eapply wp_mono; [| |apply Hb]; [|done]. intros [s2|a] h ->; done.
Qed.
Lemma bal_atomic {A} (f : Shared → A * Shared) : bal async (do (Atomic f)).
Proof. by split; [done|]. Qed.
Lemma bal_now : bal async (do Now).
Proof. by split; [done|]. Qed.
Lemma bal_choose : bal async (do Choose).
Proof. by split; [done|]. Qed.
Lemma bal_counter c : bal async (do (LoadCounter c)).
Proof. by split; [done|]. Qed.
Lemma bal_available p : bal async (do (AvailablePermits p)).
Proof. by split; [done|]. Qed.
Lemma bal_new_pool n : bal async (do (NewPool n)).
Proof. by split; [done|]. Qed.
Lemma bal_used b : bal async (do (UsedBytes b)).
Proof. by split; [done|]. Qed.
Lemma bal_new_budget n : bal async (do (NewBudget n)).
Proof. by split; [done|]. Qed.
Lemma bal_close p : bal async (do (Close p)).
Proof. by split; [done|]. Qed.
Lemma bal_on_world {Er A} (m : M World Er A) : bal async (on_world m).
Proof. by apply wp_on_world. Qed.
End balanced.
Lemma bal_await : bal true await.
Proof. apply wp_await; done. Qed.
Lemma bal_do_await : bal true (do Await).
Proof. by split; [done|]. Qed.
Lemma bal_async {A} (p : prog A) : bal false p → bal true p.
Proof. intros Hp. eapply wp_mono; [| |exact Hp]; [done|]. by intros w h [??]. Qed.
Lemma bal_sync {A} (p : prog A) : bal false p → sync [] p.
Proof.
  intros Hp. eapply wp_mono; [| |exact Hp]; [done|]. intros w h [Hd Hs].
  split; [by apply Hd|]. intros ->. by apply Hs.
Qed.
Lemma sync_bal {A} (p : prog A) : sync [] p → bal false p.
Proof.
  intros Hp. eapply wp_mono; [| |exact Hp]; [done|]. intros w h [Hd Hs].
  split; [done|]. intros Hn. destruct w; [by apply Hs|done|done].
Qed.
Ltac bal_step :=
  match goal with
  | |- bal _ (pbind _ _) => apply bal_bind; [|intros ?]
  | |- bal _ (Ret _) => apply bal_ret
  | |- bal _ (Halt HPanic) => apply bal_panic
  | |- bal _ (Halt HPoisoned) => apply bal_poisoned
  | |- bal _ (catch_unwind _) => apply bal_catch_unwind
  | |- bal _ (finally _ _) => apply bal_finally
  | |- bal _ (unwinding _ _) => apply bal_unwinding
  | |- bal _ (loop _ _) => apply bal_loop; intros ?
  | |- bal _ (on_world _) => apply bal_on_world
  | |- bal _ (do (Atomic _)) => apply bal_atomic
  | |- bal _ (do Now) => apply bal_now
  | |- bal _ (do Choose) => apply bal_choose
  | |- bal _ (do (AvailablePermits _)) => apply bal_available
  | |- bal _ (do (UsedBytes _)) => apply bal_used
  | |- bal true await => apply bal_await
  | |- bal _ (match ?x with _ => _ end) => destruct x
  | |- _ => solve [auto with bal nocore]
  end.
Create HintDb bal.
Ltac balance := repeat bal_step.

(** ** Application code

    Code outside the crate cannot touch its counters and permits: it is made of calls
    on what is shared, of choices and of panics, and if asynchronous of awaits. *)
Inductive app (async : bool) : ∀ {A}, prog A → Prop :=
| app_ret {A} (a : A) : app async (Ret a)
| app_panic {A} : app async (Halt (A:=A) HPanic)
| app_dropped {A} : async = true → app async (Halt (A:=A) HDrop)
| app_atomic {A B} (f : Shared → B * Shared) (k : B → prog A) : (∀ b, app async (k b)) → app async (Do (Atomic f) k)
| app_poisoned {A} : app async (Halt (A:=A) HPoisoned)
| app_now {A} (k : N → prog A) : (∀ b, app async (k b)) → app async (Do Now k)
| app_choose {A} (k : bool → prog A) : (∀ b, app async (k b)) → app async (Do Choose k)
| app_await {A} (k : bool → prog A) : async = true → (∀ b, app async (k b)) → app async (Do Await k)
| app_loop {S A B} (body : S → prog (S + A)) s (k : A → prog B) :
    (∀ s, app async (body s)) → (∀ a, app async (k a)) → app async (Loop body s k).

Lemma app_bal async {A} (p : prog A) : app async p → bal async p.
Proof.
  induction 1; try (by split); subst; try done; [by (split; [done|split; match goal with H : ∀ b : bool, _ |- _ => apply H end])..|].
  split; [done|]. exists (λ _, spent). split; [done|]. intros s' ? ->.
  eapply wp_mono; [| |match goal with H : ∀ s : _, _ |- _ => apply (H s') end]; [|done].
  intros [s2|a] h ->; [done|]. match goal with H : ∀ a : _, _ |- _ => apply (H a) end.
Qed.
Lemma app_bind async {A B} (m : prog A) (f : A → prog B) :
  app async m → (∀ a, app async (f a)) → app async (pbind m f).
Proof. intros Hm. revert B f. induction Hm; intros B' f' Hf; simpl; try (by constructor); auto; constructor; auto. Qed.
Lemma app_halt {A} why : app true (Halt (A:=A) why).
Proof. destruct why; by constructor. Qed.
Lemma app_on_world async {Er A} (m : M World Er A) : app async (on_world m).
Proof. constructor. intros [?|?|]; constructor. Qed.
Lemma app_caught {A} (m : prog A) : app true m → app true (caught m).
Proof.
  remember true as async eqn:Ha. induction 1; simpl; try constructor; auto.
  - intros s0. apply app_bind; [auto|]. intros [|[|]]; constructor.
  - intros [|]; [constructor|]. auto.
Qed.
Lemma app_catch_unwind {A} (m : prog A) : app true m → app true (catch_unwind m).
Proof. intros Hm%app_caught. apply app_bind; [done|]. intros [[]|]; try constructor; by try apply app_halt. Qed.

(** Synchronous code made of [prim]itive pieces, with destructors and [catch_unwind]. *)
Inductive code (prim : ∀ A, prog A → Prop) : ∀ {A}, prog A → Prop :=
| code_prim {A} (p : prog A) : prim A p → code prim p
| code_bind {A B} (m : prog A) (k : A → prog B) : code prim m → (∀ a, code prim (k a)) → code prim (pbind m k)
| code_loop {S A} (body : S → prog (S + A)) s : (∀ s, code prim (body s)) → code prim (loop body s)
| code_caught {A B} (m : prog A) (k : halt + A → prog B) :
    code prim m → k (inl HPoisoned) = Halt HPoisoned →
    (∀ r, r ≠ inl HDrop → r ≠ inl HPoisoned → code prim (k r)) → code prim (pbind (caught m) k).
Lemma code_bal (prim : ∀ A, prog A → Prop) {A} (p : prog A) :
  (∀ A p, prim A p → bal false p) → code prim p → bal false p.
Proof.
  intros Hprim. induction 1 as [| | |A B m k _ IH Hk _ IHk].
  - by apply Hprim.
  - by apply bal_bind.
  - by apply bal_loop.
  - apply wp_bind. eapply wp_mono; [| |apply wp_caught, wp_post_fits, IH]; [|by intros w h H; exact H]. intros [w|a] h.
    + intros [Hf [Hd Hs]]. destruct w; [|by destruct (Hd eq_refl)|by rewrite Hk].
      rewrite (Hs ltac:(done)). by apply IHk.
    + intros [_ ->]. by apply IHk.
Qed.
Lemma code_ret prim {A} (a : A) : (∀ A p, app false p → prim A p) → code prim (Ret a).
Proof. intros H. apply code_prim, H. constructor. Qed.
Lemma code_panic prim {A} : (∀ A p, app false p → prim A p) → code prim (Halt (A:=A) HPanic).
Proof. intros H. apply code_prim, H. constructor. Qed.
Lemma code_finally prim {A} (m : prog A) c :
  (∀ A p, app false p → prim A p) → code prim m → code prim c → code prim (finally m c).
Proof.
  intros Hp Hm Hc. apply code_bind; [|intros a; by apply code_bind; [|intros; apply code_ret]].
  apply code_caught; [done..|]. intros [[]|a] Hd Hx; try done; [|by apply code_ret].
  apply code_bind; [done|]. intros _. by apply code_panic.
Qed.
Definition sync_code : ∀ {A}, prog A → Prop := @code (@app false).
Lemma sync_code_bal {A} (p : prog A) : sync_code p → bal false p.
Proof. apply code_bal. intros; by apply app_bal. Qed.

(** ** Programs that use up tokens *)
Definition uses (async : bool) (t : list token) {A} (p : prog A) : Prop := wp p t (λ _, spent) (ends async).
Definition poisoned (why : halt) (h : list token) : Prop := why = HPoisoned.
(** It ends, unless the World's lock is poisoned, and keeps what its thread owns. *)
Definition quiet {A} (p : prog A) : Prop := wp p [] (λ _, spent) poisoned.
Lemma fits_permit p : fits [TPermit p].
Proof. destruct p; split; vm_compute; done. Qed.
Lemma fits_permit_cons p h : fits h → fits (TPermit p :: h).
Proof. intros H. apply (fits_app [_]); [apply fits_permit|done]. Qed.
#[export] Hint Resolve fits_permit fits_permit_cons : core.
Lemma quiet_use {A} (p : prog A) h Q E :
  quiet p → fits h → (∀ a, Q a h) → (∀ h, E HPoisoned h) → wp p h Q E.
Proof.
  intros Hp Hf HQ HE. eapply wp_mono; [| |apply (wp_frame p [] h _ _ Hp Hf)].
  - intros a ? (? & -> & ->). apply HQ.
  - intros w ? (y & -> & ->). apply HE.
Qed.
Lemma quiet_on_world {Er A} (m : M World Er A) : quiet (on_world m).
Proof. by apply wp_on_world. Qed.
Lemma quiet_ret {A} (a : A) : quiet (Ret a).
Proof. done. Qed.
Lemma quiet_bind {A B} (m : prog A) (k : A → prog B) : quiet m → (∀ a, quiet (k a)) → quiet (pbind m k).
Proof. intros Hm Hk. apply wp_bind. eapply wp_mono; [| |exact Hm]; [|done]. intros a h ->. apply Hk. Qed.
Lemma quiet_atomic {A} (f : Shared → A * Shared) : quiet (do (Atomic f)).
Proof. by split; [done|]. Qed.
Lemma quiet_bal async {A} (p : prog A) : quiet p → bal async p.
Proof. intros Hp. eapply wp_mono; [| |exact Hp]; [done|]. by intros w h ->. Qed.
(** Synchronous code under [catch_unwind]. *)
Lemma quiet_catch {A} (m : prog A) : bal false m → quiet (catch_unwind m).
Proof.
  intros Hm. apply wp_catch_unwind. eapply wp_mono; [| |exact Hm]; [done|].
  intros w h [Hd Hs]. case_decide; [subst; by apply Hs|]. destruct w; [done|by destruct (Hd eq_refl)|done].
Qed.
Ltac quiet := repeat first
  [ apply quiet_ret | apply quiet_on_world | apply quiet_atomic | apply quiet_bind; [|intros ?]
  | match goal with |- quiet (match ?x with _ => _ end) => destruct x end ].

Lemma uses_bind async t {A B} (m : prog A) (k : A → prog B) :
  uses async t m → (∀ a, bal async (k a)) → uses async t (pbind m k).
Proof. intros Hm Hk. apply wp_bind. eapply wp_mono; [| |exact Hm]; [|done]. intros a h ->. apply Hk. Qed.
Lemma uses_after_quiet async t {A B} (m : prog A) (k : A → prog B) :
  quiet m → fits t → (∀ a, uses async t (k a)) → uses async t (pbind m k).
Proof. intros Hm Hf Hk. apply wp_bind, quiet_use; auto. Qed.
Lemma uses_release async p : uses async [TPermit p] (do (Release p 1)).
Proof. split; [auto|]. cbn. by rewrite decide_True. Qed.
Lemma uses_perm async t t' {A} (p : prog A) : t ≡ₚ t' → uses async t p → uses async t' p.
Proof.
  intros Hp H. eapply wp_reorder; [exact Hp|exact H|..].
  - intros a x y -> Hx. by apply Permutation_nil_l in Hx.
  - intros w x y [Hd Hs] Hx. split; [done|]. intros Hn. rewrite (Hs Hn) in Hx. by apply Permutation_nil_l in Hx.
Qed.
Lemma uses_finally async t t2 h {A} (m : prog A) c :
  uses async t m → uses async t2 c → h ≡ₚ t ++ t2 → fits t2 → uses async h (finally m c).
Proof.
  intros Hm Hc Hp Hf.
  assert (∀ x, x ≡ₚ t2 → uses async x c) as Hc' by (intros x Hx; eapply uses_perm; [|exact Hc]; done).
  apply wp_finally. eapply wp_use; [exact Hm|exact Hf|exact Hp|..].
  - intros a x y -> Hx. simpl in Hx. eapply wp_mono; [| |by apply Hc']; [|done]. by intros _ ? ->.
  - intros w x y [Hd Hs] Hx. case_decide as Hw; [by subst|]. rewrite (Hs Hw) in Hx. simpl in Hx.
    eapply wp_mono; [| |by apply Hc']; [|done]. by intros _ ? ->.
Qed.
Lemma uses_sync t {A} (p : prog A) : uses false t p → sync t p.
Proof.
  intros Hp. eapply wp_mono; [| |exact Hp]; [done|]. intros w h [Hd Hs].
  split; [by apply Hd|]. intros ->. by apply Hs.
Qed.
Lemma sync_uses async t {A} (p : prog A) : sync t p → uses async t p.
Proof.
  intros Hp. eapply wp_mono; [| |exact Hp]; [done|]. intros w h [Hd Hs].
  split; [done|]. intros Hn. destruct w; [by apply Hs|done|done].
Qed.
Lemma uses_thread async t (p : prog unit) : uses async t p → thread_ok p t.
Proof. intros Hp. eapply wp_mono; [| |exact Hp]; [done|]. intros w h. apply ends_settled. Qed.
