(* ===== verification/SdkLogic.v ===== *)
(** * Tasks, effects and executors keep their accounts

    Every program of [Tasks.v], [Sdk.v] and [Executor.v] uses up the permits it
    reserves, on every path: errors, panics, cancellation and aborts. *)
From S2P Require Import Prelude.
From S2P Require Import Collections.
From S2P Require Import Types.
From S2P Require Import Schema.
From S2P Require Import WorldState.
From S2P Require Import Actors.
From S2P Require Import Messaging.
From S2P Require Import Components.
From S2P Require Import NativeConfig.
From S2P Require Import NativeState.
From S2P Require Import Native.
From S2P Require Import NativeLogic.
From S2P Require Import Cpu.
From S2P Require Import Tasks.
From S2P Require Import Sdk.
From S2P Require Import Executor.
From S2P Require Import NativeRules.

(** ** Tasks *)
Record future_ok (t : list token) (c : closure unit) : Prop := {
  future_fits : fits t;
  future_call : uses true t (cl_call c);
  future_drop : uses false t (cl_drop c);
}.
Lemma quiet_drop_lease lease : quiet (drop_lease lease).
Proof. unfold drop_lease. quiet. Qed.
Lemma quiet_drop_stored held : quiet (drop_stored held).
Proof. unfold drop_stored. quiet. Qed.
Lemma quiet_world_now : quiet world_now.
Proof. apply quiet_atomic. Qed.
Lemma quiet_world {A} (m : WM A) : quiet (world m).
Proof. unfold world. quiet. Qed.
Lemma quiet_is_active owner : quiet (is_active owner).
Proof. unfold is_active. quiet. Qed.
Create HintDb quiet.
#[export] Hint Resolve quiet_drop_lease quiet_drop_stored quiet_world_now quiet_world quiet_is_active quiet_on_world : quiet.
#[export] Hint Extern 5 (bal _ _) => apply quiet_bal; solve [auto with quiet nocore] : bal.

Lemma uses_quiet_last async {A B} t (m : prog A) (k : A → prog B) :
  uses async t m → (∀ a, quiet (k a)) → uses async t (pbind m k).
Proof. intros Hm Hk. apply uses_bind; [done|]. intros a. by apply quiet_bal. Qed.
Lemma uses_task_body owner fut t : future_ok t fut → uses true t (Tasks.task_body owner fut).
Proof.
  intros [Hf Hc _]. apply wp_bind, wp_catch_unwind. eapply wp_mono; [| |exact Hc].
  - by intros a h ->.
  - intros w h [Hd Hs]. case_decide; [|done]. subst. rewrite Hs by done. apply quiet_bal. quiet.
Qed.
Lemma task_ok owner lease fut t : future_ok t fut → thread_ok (Tasks.task 1 owner lease fut) (TPermit Slots :: t).
Proof.
  intros Hok. pose proof Hok as [Hf Hc Hd]. apply (uses_thread true). split; [auto|]. split.
  - eapply (uses_finally _ t [TPermit Slots]); [|apply uses_release| |auto].
    + apply uses_after_quiet; [quiet|done|]. intros _.
      eapply (uses_finally _ t []); [by apply uses_task_body|apply quiet_bal; auto with quiet|by rewrite app_nil_r|done].
    + apply Permutation_cons_append.
  - eapply (uses_finally _ t [TPermit Slots]); [|apply uses_release| |auto].
    + eapply (uses_finally _ [] t); [apply quiet_bal; auto with quiet|by apply sync_uses, uses_sync|done|done].
    + apply Permutation_cons_append.
Qed.

(** Results: on an error, [t] is kept. *)
Definition takes (t t' : list token) {E A} (m : prog (E + A)) : Prop :=
  wp m t' (λ r h, match r with inr _ => spent h | inl _ => h ≡ₚ t end) poisoned.
Lemma takes_err t {E A} (e : E) : fits t → takes t t (Ret (inl e : E + A)).
Proof. intros. by split. Qed.
Lemma takes_rbind t t' {E A B} (m : prog (E + A)) (k : A → prog (E + B)) :
  quiet m → fits t' → (t' ≡ₚ t) → (∀ a, takes t t' (k a)) → takes t t' (rbind m k).
Proof.
  intros Hm Hf Hp Hk. apply wp_bind, quiet_use; [done|done| |done]. intros [e|a]; [by split|apply Hk].
Qed.
Lemma takes_permits t {A} (k : unit → result A) :
  fits t → (∀ u, takes t (TPermit Slots :: t) (k u)) → takes t t (rbind (Tasks.permits 1) k).
Proof.
  intros Hf Hk. apply wp_bind, wp_bind. split; [done|]. cbn [act_wp].
  split; (split; [simpl; auto|]); (split; [simpl; auto|]); [apply Hk|by split].
Qed.
Lemma takes_releasing t t2 t' {E A} (cleanup : prog unit) (m : prog (E + A)) :
  takes (t2 ++ t) t' m → wp cleanup t2 (λ _, spent) poisoned → fits t → takes t t' (releasing cleanup m).
Proof.
  intros Hm Hc Hf. apply wp_bind. eapply wp_mono; [| |apply wp_post_fits, Hm]; [|by intros w h [_ ?]].
  intros [e|a] h [Hfh Hh]; [|by split]. apply wp_bind.
  eapply wp_use; [exact Hc|exact Hf|exact Hh|..].
  - intros [] x y -> Hx. simpl in Hx. split; [by rewrite Hx|]. simpl. by rewrite Hx.
  - by intros w x y ->.
Qed.
Lemma takes_releasing_quiet t t' {E A} (cleanup : prog unit) (m : prog (E + A)) :
  takes t t' m → quiet cleanup → fits t → takes t t' (releasing cleanup m).
Proof. intros. by apply (takes_releasing t []). Qed.
Lemma takes_bind t t' {E A B} (m : prog A) (k : A → prog (E + B)) :
  quiet m → fits t' → (∀ a, takes t t' (k a)) → takes t t' (pbind m k).
Proof. intros Hm Hf Hk. by apply wp_bind, quiet_use. Qed.
Lemma quiet_releasing {E A} (cleanup : prog unit) (m : prog (E + A)) : quiet m → quiet cleanup → quiet (releasing cleanup m).
Proof. intros Hm Hc. apply quiet_bind; [done|]. intros [e|a]; [|apply quiet_ret]. apply quiet_bind; [done|]. intros; apply quiet_ret. Qed.
Lemma takes_spawn t t' owner lease fut {E A} (a : A) :
  future_ok t' fut → t ≡ₚ TPermit Slots :: t' → takes t t (Tasks.spawn 1 owner lease fut ;;> Ret (inr a : E + A)).
Proof.
  intros Hok Hp. pose proof (future_fits _ _ Hok). split; [rewrite Hp; auto|].
  exists (TPermit Slots :: t'), []. split_and!; [by rewrite app_nil_r|by apply task_ok|]. by split.
Qed.
Lemma release_slot : wp (do (Release Slots 1)) [TPermit Slots] (λ _, spent) poisoned.
Proof. split; [auto|]. cbn. by rewrite decide_True. Qed.

(** ** Timers *)
Lemma bal_sleep duration : bal true (sleep duration).
Proof. unfold sleep, sleep_until. balance. Qed.
#[export] Hint Resolve bal_sleep : bal.
Lemma bal_timer owner target delay held : bal true (Tasks.timer owner target delay held).
Proof. unfold Tasks.timer, Tasks.await_active, Tasks.timer_wait. balance. Qed.
Definition local_tokens (local : option N) : list token :=
  match local with Some component => [TPermit (Local component)] | None => [] end.
Lemma fits_local local : fits (local_tokens local).
Proof. destruct local; simpl; auto. Qed.
#[export] Hint Resolve fits_local : core.
Lemma uses_drop_local async local : uses async (local_tokens local) (Tasks.drop_local local).
Proof. destruct local; [apply uses_release|apply bal_ret]. Qed.
Lemma drop_local_quiet local : wp (Tasks.drop_local local) (local_tokens local) (λ _, spent) poisoned.
Proof. destruct local; [|done]. split; [auto|]. cbn. by rewrite decide_True. Qed.
Lemma timer_future_ok owner target delay held lease local :
  future_ok (local_tokens local) (Tasks.timer_future owner target delay held lease local).
Proof.
  split; [auto|..].
  - eapply (uses_finally _ [] (local_tokens local)); [|apply uses_drop_local|done|auto].
    apply bal_finally; [apply bal_finally; [apply bal_timer|]|]; auto with bal.
  - eapply (uses_finally _ [] (local_tokens local)); [|apply uses_drop_local|done|auto]. apply quiet_bal; auto with quiet.
Qed.
Lemma uses_after_inner owner target delay payload options local :
  uses false (local_tokens local) (Tasks.after_inner owner target delay payload options local).
Proof.
  assert (takes [] (local_tokens local) (Tasks.after_inner owner target delay payload options local)) as H.
  { unfold Tasks.after_inner. apply (takes_releasing [] (local_tokens local)); [|apply drop_local_quiet|done].
    rewrite app_nil_r. set (t := local_tokens local). assert (fits t) by (subst t; auto).
    repeat match goal with |- takes _ _ (if ?c then _ else _) => destruct c; [by apply takes_err|] end.
    apply takes_rbind; [auto with quiet|done|done|]. intros state.
    destruct (negb _); [by apply takes_err|]. apply takes_permits; [done|]. intros _.
    apply (takes_releasing t [TPermit Slots]); [|apply release_slot|done]. simpl.
    apply takes_rbind; [auto with quiet|auto|done|]. intros held.
    apply takes_releasing_quiet; [|auto with quiet|auto].
    apply takes_rbind; [auto with quiet|auto|done|]. intros lease.
    apply takes_spawn with t; [apply timer_future_ok|done]. }
  eapply wp_mono; [| |exact H]; [|by intros w h ->].
  intros [e|a] h; simpl; [|done]. intros Hh. by apply Permutation_nil_r in Hh.
Qed.

(** ** Jobs *)
Record factory_ok (async : bool) (f : factory) : Prop := {
  factory_call : ∀ input job, if async then app true (fa_call f input job) else sync_code (fa_call f input job);
  factory_drop : app false (fa_drop f);
}.
(** A select keeps what its future keeps; a future that is dropped unwinds. *)
Lemma wp_selecting {X} (check : prog (option X)) {A} (m : prog A) h Q E :
  quiet check → (∀ h, E HPoisoned h) → wp m h Q E →
  wp (selecting check m) h (λ r h, match r with inr a => Q a h | inl _ => E HDrop h end) E.
Proof.
  intros Hc HP. revert h Q E HP. induction m as [| |A B a k IH|A task _ k IH|S A B body IHb s k IHk];
    intros h Q E HP Hm; pose proof (wp_fits _ _ _ _ Hm) as Hf; cbn [wp] in Hm; destruct Hm as [_ Hm]; cbn [selecting].
  - done.
  - done.
  - destruct a; try (split; [done|]; eapply act_wp_mono; [|exact Hm]; intros; by apply IH).
    cbn [act_wp] in Hm. destruct Hm as [Ht Hd].
    assert (∀ due : bool, wp (do! ready := (if due then check else Ret None) in
      match ready with
      | Some e => do! dropped := caught (k false) in
                  match dropped with inl HDrop => Ret (inl e) | inl why => Halt why | inr a => Ret (inr a) end
      | None => Do Await (λ resumed, selecting check (k resumed))
      end) h (λ r h, match r with inr a => Q a h | inl _ => E HDrop h end) E) as Hround.
    { intros due. apply wp_bind, quiet_use; [by destruct due|done| |done]. intros [e|].
      - apply wp_bind. eapply wp_mono; [| |apply wp_caught, wp_post_fits, Hd]; [|by intros w x H; exact H].
        intros [[]|b] x [Hfx Hx]; by split.
      - split; [done|]. split; by apply IH. }
    split; [done|]. split; apply Hround.
  - destruct Hm as (h1 & h2 & Hp & Ht & Hm). split; [done|]. exists h1, h2. split_and!; [done..|]. by apply IH.
  - destruct Hm as (I & HI & Hbody). split; [done|]. exists I. split; [done|]. intros s' x Hx. apply wp_bind.
    eapply wp_mono; [| |eapply wp_post_fits, IHb, Hbody, Hx; done]; [|by intros w y [_ ?]].
    intros [e|[s2|a]] y [Hfy Hy]; (split; [done|]); [by split|done|]. by apply IHk.
Qed.
Lemma bal_selecting {X} (check : prog (option X)) {A} (m : prog A) : bal true m → quiet check → bal true (selecting check m).
Proof.
  intros Hm Hc. eapply wp_mono; [| |apply wp_selecting; [exact Hc| |exact Hm]; done]; [|done].
  intros [e|a] h Hh; [by apply Hh|done].
Qed.

Lemma quiet_status_of id : quiet (status_of id).
Proof. apply quiet_on_world. Qed.
Lemma quiet_retired id : quiet (retired id).
Proof. unfold retired. apply quiet_bind; [apply quiet_status_of|]. intros. quiet. Qed.
Lemma quiet_is_cancelled job : quiet (Job.is_cancelled job).
Proof. unfold Job.is_cancelled, status_of. apply quiet_bind; [apply quiet_world_now|]. intros. quiet. Qed.
Lemma quiet_cancel_check job : quiet (Job.cancel_check job).
Proof. apply quiet_bind; [apply quiet_is_cancelled|]. intros; apply quiet_ret. Qed.
Lemma quiet_drop_output job : quiet (Job.drop_output job).
Proof. unfold Job.drop_output, Job.output_of. quiet. Qed.
Lemma quiet_complete job result identity envelope action : quiet (Job.complete job result identity envelope action).
Proof. unfold Job.complete, world, err. quiet. Qed.
#[export] Hint Resolve quiet_status_of quiet_retired quiet_is_cancelled quiet_cancel_check quiet_drop_output quiet_complete : quiet.
Lemma bal_app {A} (p : prog A) : app false p → bal false p.
Proof. apply app_bal. Qed.
Lemma bal_drop_factory async f : factory_ok async f → bal async (fa_drop f).
Proof. intros [_ H]. apply app_bal in H. destruct async; [by apply bal_async|done]. Qed.
Lemma bal_run_factory async f input job : factory_ok async f → bal async (Job.run_factory f input job).
Proof.
  intros [H _]. apply bal_bind; [|intros; apply bal_ret]. apply bal_catch_unwind.
  specialize (H input job). destruct async; [by apply app_bal|by apply sync_code_bal].
Qed.
Lemma app_run_factory f input job : factory_ok true f → app true (Job.run_factory f input job).
Proof. intros [H _]. apply app_bind; [apply app_catch_unwind, H|]. intros; constructor. Qed.
Lemma bal_run_cpu_job job input f identity envelope action :
  factory_ok false f → bal false (Job.run_cpu_job job input f identity envelope action).
Proof.
  intros Hf. apply bal_bind; [auto with bal|]. intros [|].
  - apply bal_bind; [|intros; apply bal_ret]. apply bal_finally; [by apply bal_drop_factory|auto with bal].
  - apply bal_bind; [by apply bal_run_factory|]. intros r. apply bal_bind; [auto with bal|]. intros cancelled.
    cbv zeta. destruct (andb _ _); [apply bal_ret|]. apply bal_bind; [auto with bal|]. intros; apply bal_ret.
Qed.
Lemma bal_run_job job input f identity envelope action :
  factory_ok true f → bal true (Job.run_job job input f identity envelope action).
Proof.
  intros Hf. apply bal_finally; [|auto with bal]. apply bal_bind; [auto with bal|]. intros [|].
  - apply bal_finally; [by apply bal_drop_factory|auto with bal].
  - apply bal_bind; [apply bal_selecting; [by apply app_bal, app_run_factory|auto with quiet]|].
    intros [r|]; [apply bal_ret|auto with bal].
Qed.
Lemma reply_future_ok e job input f envelope :
  factory_ok true f → future_ok [TPermit (Local (ex_component e))] (Defer.reply_future e job input f envelope).
Proof.
  intros Hf. split; [auto|..].
  - eapply (uses_finally _ [TPermit (Local (ex_component e))] []); [|apply quiet_bal; auto with quiet|done|done].
    eapply (uses_finally _ [] [_]); [by apply bal_run_job|apply uses_release|done|auto].
  - eapply (uses_finally _ [] [_]); [|apply uses_release|done|auto].
    apply bal_finally; [apply bal_finally|]; auto with bal. apply app_bal, Hf.
Qed.
Lemma cpu_closures_ok e job input f envelope :
  factory_ok false f →
  closures_ok (Defer.cpu_cancelled job) (Defer.cpu_work e job input f envelope) [TPermit (Local (ex_component e))].
Proof.
  intros Hf. split; [auto|..]; try (apply bal_sync, quiet_bal; simpl; auto with quiet); apply uses_sync.
  - eapply (uses_finally _ [] [_]); [by apply bal_run_cpu_job|apply uses_release|done|auto].
  - eapply (uses_finally _ [] [_]); [|apply uses_release|done|auto].
    apply bal_finally; [|auto with bal]. apply app_bal, Hf.
Qed.

(** ** Effects

    A method leaves the component's number alone; it needs the tokens [t] and leaves
    [post] or, on an error, [left]. *)
Definition cwp (c : N) (E : halt → list token → Prop) (t : list token) {A} (m : CM A)
    (post : A → list token) (left : list token) : Prop :=
  ∀ cx, ex_component (cx_execution cx) = c →
    wp (m cx) t (λ r h, ex_component (cx_execution r.2) = c ∧
                        h ≡ₚ match r.1 with inr a => post a | inl _ => left end) E.
Section effects.
Context (c : N) (E : halt → list token → Prop) (HE : ∀ h, E HPoisoned h).
Context (HEp : ∀ w x y, E w y → y ≡ₚ x → E w x).
Lemma cwp_ret t {A} (a : A) post left : fits t → t ≡ₚ post a → cwp c E t (cret a) post left.
Proof. intros Hf Hp cx Hc. by split. Qed.
Lemma cwp_fail t {A} e (post : A → list token) left : fits t → t ≡ₚ left → cwp c E t (cfail e) post left.
Proof. intros Hf Hp cx Hc. by split. Qed.
Lemma cwp_bind t {A B} (m : CM A) (k : A → CM B) mid post left :
  cwp c E t m mid left → (∀ a, fits (mid a) → cwp c E (mid a) (k a) post left) →
  cwp c E t (cbind m k) post left.
Proof.
  intros Hm Hk cx Hc. apply wp_bind. eapply wp_mono; [| |apply wp_post_fits, Hm, Hc]; [|by intros w h [_ ?]].
  intros [[e|a] cx'] h [Hf [Hc' Hp]]; [by split|]. simpl in *.
  eapply wp_reorder; [symmetry; exact Hp|apply Hk; [by rewrite <- Hp|done]| |exact HEp].
  intros r x y [??] Hx. split; [done|]. by rewrite <- Hx.
Qed.
Lemma cwp_get t {A} (k : NativeContext → CM A) post left :
  fits t → (∀ cx, ex_component (cx_execution cx) = c → cwp c E t (k cx) post left) → cwp c E t (cbind cget k) post left.
Proof. intros Hf Hk cx Hc. by apply Hk. Qed.
Lemma cwp_put t f : fits t → (∀ cx, ex_component (cx_execution (f cx)) = ex_component (cx_execution cx)) →
  cwp c E t (cput f) (λ _, t) t.
Proof. intros Hf Hk cx Hc. split; [done|]. simpl. by rewrite Hk. Qed.
Lemma cwp_quiet t {A} (m : result A) : quiet m → fits t → cwp c E t (clift m) (λ _, t) t.
Proof. intros Hm Hf cx Hc. apply wp_bind, quiet_use; [done|done| |done]. intros [e|a]; by split. Qed.
Lemma cwp_try t {A} (m : CM A) : cwp c E t m (λ _, t) t → cwp c E t (ctry m) (λ _, t) t.
Proof.
  intros Hm cx Hc. apply wp_bind. eapply wp_mono; [| |apply wp_post_fits, Hm, Hc]; [|by intros w h [_ ?]].
  intros [[e|a] cx'] h [Hf [Hc' Hp]]; by split.
Qed.
Lemma cwp_releasing t t2 {A} (cleanup : prog unit) (m : CM A) post left :
  cwp c E t m post (t2 ++ left) → wp cleanup t2 (λ _, spent) poisoned → fits left →
  cwp c E t (Context.creleasing cleanup m) post left.
Proof.
  intros Hm Hcl Hfl cx Hc. apply wp_bind. eapply wp_mono; [| |apply wp_post_fits, Hm, Hc]; [|by intros w h [_ ?]].
  intros [[e|a] cx'] h [Hf [Hc' Hp]]; [|by split]. simpl in *. apply wp_bind.
  eapply wp_use; [exact Hcl|exact Hfl|exact Hp|..].
  - intros [] x y -> Hx. simpl in Hx. split; [by rewrite Hx|]. simpl. by rewrite Hx.
  - intros w x y -> _. apply HE.
Qed.

(** Methods that reserve nothing. *)
Definition idle_method (t : list token) {A} (m : CM A) : Prop := cwp c E t m (λ _, t) t.
Lemma idle_ret t {A} (a : A) : fits t → idle_method t (cret a).
Proof. intros. by apply cwp_ret. Qed.
Lemma idle_fail t {A} e : fits t → idle_method t (cfail (A:=A) e).
Proof. intros. by apply cwp_fail. Qed.
Lemma idle_bind t {A B} (m : CM A) (k : A → CM B) :
  idle_method t m → (∀ a, idle_method t (k a)) → idle_method t (cbind m k).
Proof. intros Hm Hk. eapply cwp_bind; [exact Hm|]. intros. apply Hk. Qed.
Lemma idle_get t {A} (k : NativeContext → CM A) :
  fits t → (∀ cx, ex_component (cx_execution cx) = c → idle_method t (k cx)) → idle_method t (cbind cget k).
Proof. intros. by apply cwp_get. Qed.
Lemma idle_quiet t {A} (m : result A) : quiet m → fits t → idle_method t (clift m).
Proof. apply cwp_quiet. Qed.
Lemma idle_put t f : fits t → (∀ cx, ex_component (cx_execution (f cx)) = ex_component (cx_execution cx)) →
  idle_method t (cput f).
Proof. apply cwp_put. Qed.
End effects.
Lemma quiet_on_stats component f : quiet (on_stats component f ;;> ok tt).
Proof. unfold on_stats. quiet. Qed.
Lemma quiet_ok_retired id : quiet (do! r := retired id in ok r).
Proof. apply quiet_bind; [apply quiet_retired|]. intros; apply quiet_ret. Qed.
#[export] Hint Resolve quiet_on_stats quiet_ok_retired : quiet.
Ltac idle := repeat match goal with
  | |- idle_method _ _ _ (cbind cget _) => apply idle_get; [assumption|intros ??]
  | |- idle_method _ _ _ (cbind _ _) => apply idle_bind; [assumption| |intros ?]
  | |- idle_method _ _ _ (cret _) => by apply idle_ret
  | |- idle_method _ _ _ (cfail _) => by apply idle_fail
  | |- idle_method _ _ _ cstopped => by apply idle_fail
  | |- idle_method _ _ _ (cput _) => by apply idle_put
  | |- idle_method _ _ _ (clift _) => apply idle_quiet; [assumption|auto with quiet|assumption]
  | |- idle_method _ _ _ (match ?x with _ => _ end) => destruct x
  end.

Section methods.
Context (c : N) (E : halt → list token → Prop) (HE : ∀ h, E HPoisoned h).
Context (HEp : ∀ w x y, E w y → y ≡ₚ x → E w x).
Context (t : list token) (Hf : fits t).
Lemma idle_effect : idle_method c E t Context.effect.
Proof. unfold Context.effect. idle. Qed.
Lemma idle_state : idle_method c E t Context.state.
Proof. unfold Context.state. idle. Qed.
Lemma idle_options o : idle_method c E t (Context.options o).
Proof. unfold Context.options. idle. Qed.
Lemma idle_new_work : idle_method c E t Context.new_work.
Proof. unfold Context.new_work. idle. apply idle_state. Qed.
Lemma idle_emit name payload o : idle_method c E t (Context.emit_with name payload o).
Proof.
  unfold Context.emit_with. apply idle_bind; [assumption|apply idle_effect|intros _].
  apply idle_bind; [assumption|unfold Context.port; idle|intros output].
  apply idle_bind; [assumption|apply idle_options|intros o']. idle.
Qed.
Lemma idle_send target payload o : idle_method c E t (Context.send target payload o).
Proof.
  unfold Context.send. apply idle_bind; [assumption|apply idle_effect|intros _].
  apply idle_bind; [assumption|apply idle_new_work|intros _].
  apply idle_bind; [assumption|apply idle_options|intros o']. idle.
Qed.
Lemma idle_reply payload : idle_method c E t (Context.reply payload).
Proof. unfold Context.reply. apply idle_bind; [assumption|apply idle_effect|intros _]. idle. Qed.
Lemma cwp_local_permit : cwp c E t Context.local_permit (λ _, TPermit (Local c) :: t) t.
Proof.
  apply cwp_get; [done|]. intros cx Hcx cx' Hcx'. rewrite Hcx. apply wp_bind, wp_bind. split; [done|]. cbn [act_wp].
  split; (split; [simpl; auto|]); (split; [simpl; auto|]); by split; simpl; auto.
Qed.
Lemma cwp_permits : cwp c E t (clift (Tasks.permits 1)) (λ _, TPermit Slots :: t) t.
Proof.
  intros cx Hcx. apply wp_bind, wp_bind. split; [done|]. cbn [act_wp].
  split; (split; [simpl; auto|]); (split; [simpl; auto|]); by split; simpl; auto.
Qed.
End methods.

(** What a job's reservation holds; one that is not queued would be counted running. *)
Definition admitted_tokens (r : CpuReservation) : list token :=
  if rv_queued r then [TQueued; TPermit CpuJobs] else [TRunning].
Lemma fits_admitted r h : fits h → rv_queued r = true → fits (admitted_tokens r ++ h).
Proof. unfold admitted_tokens. intros Hf ->. apply fits_app; [|done]. by apply Build_fits; vm_compute. Qed.
Lemma drop_admitted r : rv_queued r = true → wp (Cpu.drop_reservation r) (admitted_tokens r) (λ _, spent) poisoned.
Proof.
  intros Hq. unfold Cpu.drop_reservation, admitted_tokens. rewrite Hq. run_tokens.
  split_and!; try done; by apply Build_fits; vm_compute.
Qed.
Section reserving.
Context (c : N) (E : halt → list token → Prop) (HE : ∀ h, E HPoisoned h).
Context (HEp : ∀ w x y, E w y → y ≡ₚ x → E w x).
Lemma cwp_permit_result t (reserve : prog (string + CpuReservation)) :
  reserve = Cpu.reserve → fits t → ∀ cx, ex_component (cx_execution cx) = c →
  wp reserve t (λ r h, match r with inr r => rv_queued r = true ∧ h = admitted_tokens r ++ t | inl _ => h = t end) E.
Proof.
  intros -> Hf cx Hc. unfold Cpu.reserve.
  assert (fits (TQueued :: TPermit CpuJobs :: t)) as Hq.
  { apply (fits_app [TQueued; TPermit CpuJobs]); [by apply Build_fits; vm_compute|done]. }
  apply wp_bind. split; [done|]. cbn [act_wp]. split; (split; [simpl; auto|]).
  - cbn. split_and!; auto.
  - cbn. by split_and!.
Qed.
Lemma cwp_reserve_cpu t cpu : fits t →
  cwp c E t (clift (Tasks.reserve_cpu cpu)) (λ r, admitted_tokens r ++ t) t.
Proof.
  intros Hf cx Hc. apply wp_bind. unfold Tasks.reserve_cpu. destruct (negb cpu); [by split|].
  apply wp_bind. eapply wp_mono; [| |apply wp_post_fits, (cwp_permit_result t _ eq_refl Hf cx Hc)]; [|by intros w h [_ ?]].
  intros [l|r] h [Hfh Hh]; (split; [done|]); [by subst|]. destruct Hh as [_ ->]. split; [done|]. by split.
Qed.
(** Holding the input, checking its size, then a local permit, a slot and a lease. *)
Definition reserve_rest (input : HeldPayload) {A} (a : N → A) : CM A :=
  cx! cx := cget in
  let e := cx_execution cx in
  Context.creleasing (drop_stored input) (
    if (nl_max_job_input_bytes (sp_limits (ex_spec e)) <? stored_bytes (held_stored input))%N
    then cfail (Native.Limit "operation input bytes") else
    cx! _ := Context.local_permit in
    Context.creleasing (Context.release_local (ex_component e)) (
      cx! _ := clift (Tasks.permits 1) in
      Context.creleasing (do (Release Slots 1)) (
        cx! lease := clift (world (track_task (ex_owner e))) in
        cret (a lease)))).
Lemma cwp_reserve_rest input {A} (a : N → A) post t :
  fits t → (∀ lease, post (a lease) = TPermit Slots :: TPermit (Local c) :: t) →
  cwp c E t (reserve_rest input a) post t.
Proof.
  intros Hf Hpost. apply cwp_get; [assumption|]. intros cx Hc. apply (cwp_releasing _ _ HE t []); [|apply quiet_drop_stored|done].
  destruct (_ <? _)%N; [by apply cwp_fail|].
  eapply cwp_bind; [assumption|apply cwp_local_permit; done|]. intros [] Hf1. rewrite Hc.
  apply (cwp_releasing _ _ HE _ [TPermit (Local c)]); [| |done].
  2: { split; [done|]. cbn. by rewrite decide_True. }
  eapply cwp_bind; [assumption|by apply cwp_permits|]. intros [] Hf2.
  apply (cwp_releasing _ _ HE _ [TPermit Slots]); [|apply release_slot|done].
  eapply cwp_bind; [assumption|apply cwp_quiet; auto with quiet|]. intros lease _. apply cwp_ret; [auto|]. by rewrite Hpost.
Qed.
Lemma cwp_prepared input t : fits t →
  cwp c E t (Defer.prepared input) (λ _, TPermit Slots :: TPermit (Local c) :: t) t.
Proof.
  intros Hf. unfold Defer.prepared.
  eapply cwp_bind; [assumption|by apply idle_new_work|]. intros [] _.
  eapply cwp_bind; [assumption|by apply idle_options|]. intros o _.
  eapply cwp_bind; [assumption|apply cwp_quiet; auto with quiet|]. intros held _.
  by apply (cwp_reserve_rest held (pair held)).
Qed.
Lemma admitted_queued r : fits (admitted_tokens r ++ []) → rv_queued r = true.
Proof.
  unfold admitted_tokens. destruct (rv_queued r); [done|]. intros [_ H _ _]. by vm_compute in H.
Qed.
Lemma cwp_prepared_cpu input :
  cwp c E [] (Defer.prepared_cpu input) (λ r, TPermit Slots :: TPermit (Local c) :: admitted_tokens r.1 ++ []) [].
Proof.
  unfold Defer.prepared_cpu.
  eapply cwp_bind; [assumption|by apply idle_new_work|]. intros [] _.
  apply cwp_get; [done|]. intros cx Hc.
  eapply cwp_bind; [assumption|by apply cwp_reserve_cpu|]. intros r Hfr.
  pose proof (admitted_queued r Hfr) as Hq.
  apply (cwp_releasing _ _ HE _ (admitted_tokens r)); [|by apply drop_admitted|done].
  eapply cwp_bind; [assumption|by apply idle_options|]. intros o _.
  eapply cwp_bind; [assumption|apply cwp_quiet; auto with quiet|]. intros held _.
  by apply (cwp_reserve_rest held (λ lease, (r, (held, lease)))).
Qed.
Lemma idle_begin t : fits t → idle_method c E t Defer.begin.
Proof.
  intros Hf. unfold Defer.begin, Defer.set_deferred. apply idle_bind; [assumption|by apply idle_effect|intros _]. idle.
Qed.
(** When the operation is over, nothing is left. *)
Lemma cwp_unless_retired operation {A} (m : CM A) post :
  cwp c E [] m post [] →
  cwp c E [] (Defer.unless_retired operation m) (λ r, match r with Some a => post a | None => [] end) [].
Proof.
  intros Hm cx Hc. apply wp_bind. unfold ctry. apply wp_bind.
  eapply wp_mono; [| |apply wp_post_fits, Hm, Hc]; [|by intros w h [_ ?]].
  intros [r cx'] h [Hf [Hc' Hp]]. split; [done|]. cbn [fst snd] in *.
  destruct r as [e|a]; [|by split]. apply Permutation_nil_r in Hp as ->.
  apply wp_bind, wp_bind, quiet_use; [auto with quiet|done| |done]. intros [e'|[|]]; simpl; by split_and!.
Qed.
Lemma cwp_deadline t input cleanup :
  fits t → wp cleanup t (λ _, spent) (ends false) → (∀ w h, ends false w h → E w h) →
  cwp c E t (Defer.job_deadline input cleanup) (λ _, t) t.
Proof.
  intros Hf Hcl HE' cx Hc. unfold Defer.job_deadline. destruct (mo_deadline _); [by split|].
  apply wp_unwinding. split; [done|]. rewrite decide_False by done.
  eapply wp_mono; [| |exact Hcl]; [|done]. intros _ h ->. by apply HE'.
Qed.
End reserving.

(** ** Deferred replies *)
Lemma ends_perm async w x y : ends async w y → y ≡ₚ x → ends async w x.
Proof. intros [Hd Hs] Hp. split; [done|]. intros Hn. rewrite (Hs Hn) in Hp. by apply Permutation_nil_l in Hp. Qed.
Section deferring.
Context (c : N).
Abbreviation method := (cwp c (ends false)).
Lemma idle_bal_false {A} (m : result A) t : bal false m → t = [] → idle_method c (ends false) t (clift m).
Proof.
  intros Hm -> cx Hc. apply wp_bind. eapply wp_mono; [| |exact Hm]; [|done]. intros r h ->. split; [done|].
  by destruct r.
Qed.
Lemma method_spawn t t' p : fits t → thread_ok p t' → t ≡ₚ t' → method t (clift (Spawn p (Ret tt) ;;> ok tt)) (λ _, []) [].
Proof.
  intros Hf Hp Ht cx Hc. split; [done|]. exists t', []. split_and!; [by rewrite app_nil_r|done|]. by split.
Qed.
Lemma method_submitted : method [] Defer.job_submitted (λ _, []) [].
Proof. apply cwp_get; [done|]. intros cx Hc. apply cwp_quiet; auto with quiet. Qed.
Lemma method_drop f {A} (m : CM A) :
  app false (fa_drop f) → method [] m (λ _, []) [] → method [] (Context.creleasing (fa_drop f) m) (λ _, []) [].
Proof.
  intros Hf Hm cx Hc. apply wp_bind. eapply wp_mono; [| |apply Hm, Hc]; [|done].
  intros [[e|a] cx'] h [Hc' Hp]; simpl in *; apply Permutation_nil_r in Hp as ->; [|by split].
  apply wp_bind. eapply wp_mono; [| |apply app_bal, Hf]; [|done]. intros [] h ->. by split.
Qed.
(** After the reservation: the deadline, the spawn, the context's flag. *)
Lemma method_spawned t input cleanup (spawn : Instant → result unit) :
  fits t → uses false t cleanup → (∀ at_, method t (clift (spawn at_)) (λ _, []) []) →
  method t (cx! deadline := Defer.job_deadline input cleanup in
            cx! _ := clift (spawn deadline) in
            cx! _ := Defer.set_deferred in
            Defer.job_submitted) (λ _, []) [].
Proof.
  intros Hf Hcl Hsp cx Hc. apply wp_bind. unfold Defer.job_deadline. destruct (mo_deadline _) as [at_|].
  - split; [done|].
    assert (method t (cx! _ := clift (spawn at_) in cx! _ := Defer.set_deferred in Defer.job_submitted) (λ _, []) []) as H.
    { eapply cwp_bind; [apply ends_perm|apply Hsp|]. intros [] _.
      eapply cwp_bind; [apply ends_perm|by apply cwp_put|]. intros [] _. apply method_submitted. }
    apply H, Hc.
  - apply wp_unwinding. split; [done|]. rewrite decide_False by done.
    eapply wp_mono; [| |exact Hcl]; [|done]. by intros _ h ->.
Qed.
Lemma uses_cleanup t t2 h {A B} (m : prog A) (k : A → prog B) :
  wp m t2 (λ _, spent) poisoned → h ≡ₚ t2 ++ t → fits t → (∀ a, uses false t (k a)) → uses false h (pbind m k).
Proof.
  intros Hm Hp Hf Hk. apply wp_bind. eapply wp_use; [exact Hm|exact Hf|exact Hp|..].
  - intros a x y -> Hx. simpl in Hx. eapply uses_perm; [symmetry; exact Hx|apply Hk].
  - intros w x y -> _. done.
Qed.
Lemma release_local : wp (Context.release_local c) [TPermit (Local c)] (λ _, spent) poisoned.
Proof. split; [auto|]. cbn. by rewrite decide_True. Qed.

(** The frame both methods share. *)
Lemma method_deferring {A} f (prepared : CM A) post (rest : OperationId → A → CM unit) :
  app false (fa_drop f) →
  cwp c (ends false) [] prepared post [] →
  (∀ operation a, fits (post a) → method (post a) (rest operation a) (λ _, []) []) →
  method [] (Context.creleasing (fa_drop f) (
    cx! operation := Defer.begin in
    match operation with
    | None => clift (fa_drop f ;;> ok tt)
    | Some operation =>
        cx! reserved := Defer.unless_retired operation prepared in
        match reserved with
        | None => clift (fa_drop f ;;> ok tt)
        | Some a => rest operation a
        end
    end)) (λ _, []) [].
Proof.
  intros Hf Hp Hrest. apply method_drop; [done|].
  assert (method [] (clift (fa_drop f ;;> ok tt)) (λ _, []) []) as Hover.
  { apply idle_bal_false; [|done]. apply bal_bind; [by apply app_bal|]. intros; apply bal_ret. }
  eapply cwp_bind; [apply ends_perm|by apply idle_begin; [|apply ends_perm|]|].
  intros [operation|] _; [|exact Hover].
  eapply cwp_bind; [apply ends_perm|by apply cwp_unless_retired|].
  intros [a|] Hfa; [by apply Hrest|exact Hover].
Qed.
Lemma method_defer_reply input f : factory_ok true f → method [] (Defer.defer_reply input f) (λ _, []) [].
Proof.
  intros Hf. pose proof (factory_drop _ _ Hf) as Hdrop.
  eapply method_deferring; [done|by apply cwp_prepared; [|apply ends_perm|]|].
  intros operation [held lease] _. apply cwp_get; [auto|]. intros cx Hc. cbv zeta. rewrite Hc.
  apply (method_spawned [TPermit Slots; TPermit (Local c)] _ _
    (λ at_, Tasks.spawn 1 _ lease (Defer.reply_future _ (MkJobContext _ operation at_ lease) held f _) ;;> ok tt)); [auto| |].
  - eapply (uses_cleanup [TPermit Slots; TPermit (Local c)] []); [apply quiet_drop_lease|done|auto|]. intros [].
    eapply (uses_cleanup [TPermit (Local c)] [TPermit Slots]); [apply release_slot|done|auto|]. intros [].
    eapply (uses_cleanup [] [TPermit (Local c)]); [apply release_local|done|auto|]. intros _.
    apply bal_bind; [apply quiet_bal; auto with quiet|]. intros _. by apply app_bal.
  - intros at_. eapply method_spawn; [auto|apply (task_ok _ _ _ [TPermit (Local c)])|done].
    rewrite <- Hc. by apply reply_future_ok.
Qed.
Lemma method_defer_cpu_reply input f : factory_ok false f → method [] (Defer.defer_cpu_reply input f) (λ _, []) [].
Proof.
  intros Hf. pose proof (factory_drop _ _ Hf) as Hdrop.
  eapply method_deferring; [done|by apply cwp_prepared_cpu; [|apply ends_perm]|].
  intros operation [cpu [held lease]] Hfr. apply cwp_get; [done|]. intros cx Hc. cbv zeta. rewrite Hc. cbn [fst] in *.
  assert (rv_queued cpu = true) as Hq.
  { destruct (rv_queued cpu) eqn:Hq; [done|]. exfalso. unfold admitted_tokens in Hfr. rewrite Hq in Hfr.
    destruct Hfr as [_ H _ _]. by vm_compute in H. }
  rewrite app_nil_r in Hfr |- *.
  apply (method_spawned _ _ _ (λ at_, Tasks.spawn_cpu _ lease cpu
    (Defer.cpu_cancelled (MkJobContext _ operation at_ lease)) (Defer.cpu_work _ (MkJobContext _ operation at_ lease) held f _)));
    [done| |].
  - assert (fits (admitted_tokens cpu)) as Hfa.
    { rewrite <- (app_nil_r (admitted_tokens cpu)). by apply fits_admitted. }
    eapply (uses_cleanup (TPermit Slots :: TPermit (Local c) :: admitted_tokens cpu) []); [apply quiet_drop_lease|done|done|]. intros [].
    eapply (uses_cleanup (TPermit (Local c) :: admitted_tokens cpu) [TPermit Slots]); [apply release_slot|done|auto|]. intros [].
    eapply (uses_cleanup (admitted_tokens cpu) [TPermit (Local c)]); [apply release_local|done|auto|]. intros [].
    eapply (uses_cleanup (admitted_tokens cpu) []); [apply quiet_drop_stored|done|done|]. intros [].
    eapply (uses_cleanup [] (admitted_tokens cpu)); [by apply drop_admitted|by rewrite app_nil_r|done|]. intros _. by apply app_bal.
  - intros at_ cx' Hc'. apply wp_bind, wp_bind, wp_bind.
    assert (fits (TLive :: TPermit Slots :: TPermit (Local c) :: admitted_tokens cpu)) as Hlive.
    { apply Build_fits; unfold admitted_tokens; rewrite Hq; by vm_compute. }
    split; [exact Hfr|]. do 3 (split; [exact Hlive|]).
    exists (job_tokens [TPermit (Local c)] (MkJob true true JobCancelled cpu false (ex_owner (cx_execution cx)) lease)), [].
    split_and!; [| |by split].
    + unfold job_tokens, work_tokens, core_tokens, admitted_tokens. simpl. rewrite Hq.
      apply NoDup_Permutation; [repeat constructor; set_solver..|]. set_solver.
    + eapply wp_task; [|by split|done]. rewrite <- Hc. by apply cpu_closures_ok.
Qed.
Lemma method_after delay target payload o : method [] (Context.after delay target payload o) (λ _, []) [].
Proof.
  unfold Context.after.
  eapply cwp_bind; [apply ends_perm|by apply idle_effect; [|apply ends_perm|]|]. intros [] _.
  eapply cwp_bind; [apply ends_perm|by apply idle_new_work; [|apply ends_perm|]|]. intros [] _.
  eapply cwp_bind; [apply ends_perm|by apply cwp_local_permit|]. intros [] Hf.
  apply cwp_get; [done|]. intros cx Hc. cbv zeta. rewrite Hc.
  eapply (cwp_bind _ _ (ends_perm false) _ _ _ (λ _, [TPermit (Local c)])).
  - apply (cwp_releasing _ _ (ends_poisoned false) _ [TPermit (Local c)]); [|apply release_local|done].
    by apply idle_options.
  - intros o' _ cx' Hc'. apply wp_bind. eapply wp_mono; [| |apply (uses_after_inner _ _ _ _ _ (Some c))]; [|done].
    intros [e|a] h ->; by split.
Qed.
End deferring.

(** ** Hooks

    A hook is made of application code and of the methods of its context. *)
Inductive hook_call : ∀ {A}, prog A → Prop :=
| hook_app {A} (p : prog A) : app false p → hook_call p
| hook_emit cx name payload o : hook_call (Context.emit_with name payload o cx)
| hook_send cx target payload o : hook_call (Context.send target payload o cx)
| hook_reply cx payload : hook_call (Context.reply payload cx)
| hook_after cx delay target payload o : hook_call (Context.after delay target payload o cx)
| hook_defer cx input f : factory_ok true f → hook_call (Defer.defer_reply input f cx)
| hook_defer_cpu cx input f : factory_ok false f → hook_call (Defer.defer_cpu_reply input f cx).
Definition hook_code : ∀ {A}, prog A → Prop := @code (@hook_call).
Lemma bal_method {A} (m : CM A) cx :
  cwp (ex_component (cx_execution cx)) (ends false) [] m (λ _, []) [] → bal false (m cx).
Proof.
  intros Hm. eapply wp_mono; [| |by apply Hm]; [|done].
  intros [[e|a] cx'] h [_ Hp]; by apply Permutation_nil_r in Hp.
Qed.
Lemma hook_bal {A} (p : prog A) : hook_code p → bal false p.
Proof.
  apply code_bal. clear. destruct 1.
  - by apply app_bal.
  - apply bal_method, idle_emit; [apply ends_poisoned|apply ends_perm|done].
  - apply bal_method, idle_send; [apply ends_poisoned|apply ends_perm|done].
  - apply bal_method, idle_reply; [apply ends_poisoned|apply ends_perm|done].
  - apply bal_method, method_after.
  - by apply bal_method, method_defer_reply.
  - by apply bal_method, method_defer_cpu_reply.
Qed.

(** ** Executors *)
Lemma quiet_claim_from r : quiet (claim_from r).
Proof. unfold claim_from. quiet. by split. Qed.
Class BehaviorCode (C : Type) `{!NativeBehavior C} : Prop := {
  code_start : ∀ (c : C) cx, hook_code (on_start c cx);
  code_event : ∀ (c : C) p cx, hook_code (on_event c p cx);
  code_tick : ∀ (c : C) cx, hook_code (on_tick c cx);
  code_quiesce : ∀ (c : C) cx, hook_code (on_quiesce c cx);
  code_failure : ∀ (c : C) r n cx, hook_code (on_failure c r n cx);
  code_drain : ∀ (c : C) cx, hook_code (on_drain c cx);
  code_stop : ∀ (c : C) cx, hook_code (on_stop c cx);
  code_drop : ∀ c : C, app false (drop_component c);
}.
Section executors.
Context {C : Type} `{!NativeBehavior C, !BehaviorCode C}.
Context (e : Execution).
Implicit Types c : C.
Lemma bal_hook async {A} (p : prog A) : hook_code p → bal async p.
Proof. intros H%hook_bal. destruct async; [by apply bal_async|done]. Qed.
Lemma bal_drop async c : bal async (drop_component c).
Proof. destruct async; [apply bal_async|]; apply app_bal, code_drop. Qed.
Lemma quiet_hook_result {A} c (p : prog (hooked C A)) : hook_code p → quiet (hook_result c p).
Proof. intros H. apply quiet_bind; [by apply quiet_catch, hook_bal|]. intros. apply quiet_ret. Qed.
Lemma quiet_invoke c (p : prog (hooked C unit)) : hook_code p → quiet (invoke c p).
Proof. intros H. apply quiet_bind; [by apply quiet_hook_result|]. intros [c' r]. apply quiet_ret. Qed.
Lemma quiet_failure ph d er panic : quiet (Execution.failure e ph d er panic).
Proof. unfold Execution.failure. quiet. Qed.
Lemma quiet_report {A} ph d (r : native_error + A) panic : quiet (Executor.report e ph d r panic).
Proof. destruct r; [apply quiet_failure|apply quiet_ret]. Qed.
Lemma quiet_stats f : quiet (Executor.stats e f).
Proof. apply quiet_atomic. Qed.
Lemma quiet_drop_claim claim : quiet (drop_claim claim).
Proof. unfold drop_claim. quiet. Qed.
Lemma quiet_claim_delivery : quiet (Executor.claim_delivery e).
Proof. apply quiet_claim_from. Qed.
#[local] Hint Resolve quiet_failure quiet_report quiet_stats quiet_drop_claim quiet_claim_delivery : quiet.
#[local] Hint Resolve quiet_hook_result quiet_invoke : quiet.
#[local] Hint Resolve code_start code_event code_tick code_quiesce code_failure code_drain code_stop : quiet.
#[local] Hint Resolve code_start code_event code_tick code_quiesce code_failure code_drain code_stop bal_drop : bal.
Lemma bal_cleanup async c : bal async (Executor.cleanup e c).
Proof. unfold Executor.cleanup. balance. Qed.
Lemma bal_dispose async c : bal async (Executor.dispose e c).
Proof. unfold Executor.dispose. balance. Qed.
Lemma bal_waiting c : bal true (Executor.waiting c).
Proof. unfold Executor.waiting. balance. Qed.
#[local] Hint Resolve bal_cleanup bal_dispose bal_waiting : bal.
Lemma bal_wait_activity c observed : bal true (Executor.wait_activity e c observed).
Proof. unfold Executor.wait_activity. balance. Qed.
Lemma bal_wait_activity_or c observed deadline : bal true (Executor.wait_activity_or e c observed deadline).
Proof. unfold Executor.wait_activity_or. balance. Qed.
Lemma bal_serve_failure async c : bal async (Executor.serve_failure e c).
Proof. unfold Executor.serve_failure. balance. Qed.
Lemma bal_serve_events async n : ∀ consumed c, bal async (Executor.serve_events e n consumed c).
Proof.
  induction n as [|n IH]; intros consumed c; cbn [Executor.serve_events]; [apply bal_ret|]. balance.
Qed.
Lemma bal_serve_tick async c next period : bal async (Executor.serve_tick e c next period).
Proof. unfold Executor.serve_tick. balance. Qed.
Lemma bal_drain_claim async c hook : (∀ c, hook_code (hook c)) → bal async (Executor.with_drain_claim e c hook).
Proof. intros Hh. unfold Executor.with_drain_claim. balance. Qed.
#[local] Hint Resolve bal_wait_activity bal_wait_activity_or bal_serve_failure bal_serve_events bal_serve_tick : bal.
#[local] Hint Extern 2 (bal _ (Executor.with_drain_claim _ _ _)) => apply bal_drain_claim; intros : bal.
Lemma bal_serve_turn c quiescing next observed : bal true (Executor.serve_turn e c quiescing next observed).
Proof.
  unfold Executor.serve_turn, Executor.end_turn, Executor.idle, Executor.finish, Executor.continue. balance.
Qed.
#[local] Hint Resolve bal_serve_turn : bal.
Lemma bal_run_component c : bal true (Executor.run_component e c).
Proof.
  unfold Executor.run_component, Executor.turn_body, Executor.finish, Executor.continue. balance.
Qed.
Lemma component_future_ok c : future_ok [] (Executor.component_future e c).
Proof.
  split; [done|..].
  - apply bal_bind; [apply quiet_bal; auto with quiet|]. intros _.
    apply bal_finally; [apply bal_run_component|apply quiet_bal; auto with quiet].
  - apply bal_finally; [apply bal_drop|apply quiet_bal; auto with quiet].
Qed.
Lemma quiet_cleanup c : quiet (Executor.cleanup e c).
Proof. unfold Executor.cleanup. apply quiet_bind; [auto with quiet|]. intros [c' [r panic]]. apply quiet_bind; [auto with quiet|]. intros; apply quiet_ret. Qed.
Lemma quiet_dispose c : quiet (Executor.dispose e c).
Proof.
  unfold Executor.dispose. apply quiet_bind; [apply quiet_catch, bal_drop|].
  intros [|]; [apply quiet_ret|auto with quiet].
Qed.
#[local] Hint Resolve quiet_cleanup quiet_dispose : quiet.
Lemma quiet_start_component factory : app false factory → quiet (Executor.start_component e factory).
Proof.
  intros Hf. unfold Executor.start_component. apply quiet_bind; [by apply quiet_catch, app_bal|].
  repeat first [progress auto with quiet nocore | apply quiet_ret | apply quiet_on_world | apply quiet_bind; [|intros ?]
    | match goal with |- quiet (match ?x with _ => _ end) => destruct x | |- ∀ _, _ => intros ? end].
Qed.
End executors.

Lemma prepare_uses {C} `{!NativeBehavior C, !BehaviorCode C} opened cpu parent spec configuration
    (factory : Value → prog (native_error + C)) :
  (∀ v, app false (factory v)) → bal false (Executor.prepare_native opened cpu parent spec configuration factory).
Proof.
  intros Hfac. unfold Executor.prepare_native. destruct (Spec.validate_config _ _) as [v|er|]; [|by split..]. cbv zeta.
  destruct (negb opened); [by split|].
  match goal with |- bal _ ?p => assert (takes [] [] p) as H end.
  { apply takes_permits; [done|]. intros _.
    apply (takes_releasing [] [TPermit Slots]); [|apply release_slot|done].
    change ([TPermit Slots] ++ []) with [TPermit Slots].
    apply takes_rbind; [auto with quiet|auto|done|]. intros owner.
    assert (quiet (Executor.stop_owner owner)) as Hstop by (unfold Executor.stop_owner; quiet).
    apply takes_rbind; [apply quiet_releasing; auto with quiet|auto|done|]. intros ports.
    apply takes_rbind; [apply quiet_releasing; auto with quiet|auto|done|]. intros lease.
    apply takes_bind; [auto with quiet|auto|]. intros claimed.
    destruct (some_handle claimed) as [claim|].
    - apply takes_bind; [by split|auto|]. intros component.
      apply takes_bind; [apply quiet_atomic|auto|]. intros _.
      assert (quiet (drop_claim claim)) as Hclaim by (unfold drop_claim; quiet).
      apply takes_rbind; [apply quiet_releasing; [by apply quiet_start_component|apply quiet_bind; auto with quiet]|auto|done|]. intros c.
      apply takes_bind; [done|auto|]. intros _.
      apply takes_bind; [auto with quiet|auto|]. intros _.
      apply takes_spawn with []; [apply component_future_ok|done].
    - apply takes_bind; [done|auto|]. intros _. apply takes_bind; [auto with quiet|auto|]. intros _. by apply takes_err. }
  eapply wp_mono; [| |exact H]; [|by intros w h ->].
  intros [e|a] h; simpl; [|done]. intros Hh. by apply Permutation_nil_r in Hh.
Qed.
