(* ===== verification/SdkResults.v ===== *)
(** * Termination and results of the effects of a component

    What a call on the World, a job's cancellation check and the effects of
    [NativeContext] end with. *)
From S2P Require Import Prelude.
From S2P Require Import Collections.
From S2P Require Import Types.
From S2P Require Import WorldState.
From S2P Require Import NativeConfig.
From S2P Require Import NativeState.
From S2P Require Import Native.
From S2P Require Import NativeResults.
From S2P Require Import Tasks.
From S2P Require Import Sdk.

(** It ends, or the World panics. *)
Definition returns {A} (r : halt + A) : Prop := r = inl HPoisoned ∨ ∃ a, r = inr a.
Lemma total_world {A} (m : WM A) : total (on_world m) returns.
Proof. apply total_on_world; [by left|]. intros w. destruct (m w).1; [right; eauto..|done]. Qed.
Lemma total_is_cancelled job : total (Job.is_cancelled job) returns.
Proof.
  unfold Job.is_cancelled, world_now.
  eapply (total_bind _ _ (λ r, ∃ t, r = inr t)); [apply total_atomic; eauto| |by intros ? [? ?]].
  intros t _. case_match; [constructor; right; eauto|].
  eapply total_bind; [apply total_world| |by intros ? [?|[? ?]]; [left; congruence|]]. intros state _.
  case_match; [constructor; right; eauto|].
  eapply total_bind; [apply total_world| |by intros ? [?|[? ?]]; [left; congruence|]].
  intros status _. constructor. right. eauto.
Qed.
Lemma total_drop_stored held : total (drop_stored held) (λ r, r = inr tt).
Proof. unfold drop_stored. by apply total_atomic. Qed.

Lemma total_drop_ticket ticket : total (drop_ticket ticket) returns.
Proof.
  unfold drop_ticket. eapply total_bind; [apply total_world|by intros; constructor; right; eauto|].
  intros why [?|[? ?]]; [left; congruence|done].
Qed.

(** ** Methods of the context *)
Definition cfinite {A} (m : CM A) : Prop := ∀ cx, finite (m cx).
Lemma cfinite_bind {A B} (m : CM A) (k : A → CM B) : cfinite m → (∀ a, cfinite (k a)) → cfinite (cbind m k).
Proof.
  intros Hm Hk cx. apply finite_bind; [apply Hm|]. intros [[e|a] cx']; [apply finite_ret|apply Hk].
Qed.
Lemma cfinite_lift {A} (m : prog (native_error + A)) : finite m → cfinite (clift m).
Proof. intros Hm cx. apply finite_bind; [done|]. intros; apply finite_ret. Qed.
Lemma cfinite_pure {A} (f : NativeContext → (native_error + A) * NativeContext) : cfinite (λ cx, Ret (f cx)).
Proof. intros cx. apply finite_ret. Qed.
Lemma finite_world {A} (m : WM A) : finite (world m).
Proof. unfold world. finite. Qed.
Ltac cfinite := repeat first
  [ apply cfinite_pure | apply cfinite_lift, finite_world | apply cfinite_bind; [|intros ?]
  | match goal with |- cfinite (if ?x then _ else _) => destruct x | |- cfinite (match ?x with _ => _ end) => destruct x end ].
Lemma cfinite_effect : cfinite Context.effect.
Proof. unfold Context.effect, cget, cstopped, cfail, cput. cfinite. apply cfinite_lift. unfold on_stats, ok. finite. Qed.
Lemma cfinite_emit name p o : cfinite (Context.emit_with name p o).
Proof.
  unfold Context.emit_with. apply cfinite_bind; [apply cfinite_effect|intros _].
  unfold Context.port, Context.options, cget, cfail, cret. cfinite.
Qed.
