(* ===== verification/Computation.v ===== *)
(** * Sums of squares on the CPU pool

    [runtime-native/src/computation.rs]: a component that answers each request with a
    CPU job.  The job adds up squares with checked arithmetic and looks every 1024
    rounds whether it is cancelled. *)
From S2P Require Import Prelude.
From S2P Require Import Collections.
From S2P Require Import Text.
From S2P Require Import Types.
From S2P Require Import Schema.
From S2P Require Import WorldState.
From S2P Require Import NativeConfig.
From S2P Require Import NativeState.
From S2P Require Import Native.
From S2P Require Import NativeResults.
From S2P Require Import NativeLogic.
From S2P Require Import Cpu.
From S2P Require Import Tasks.
From S2P Require Import Sdk.
From S2P Require Import Executor.
From S2P Require Import NativeRules.
From S2P Require Import SdkLogic.
From S2P Require Import SdkResults.

Module SumSquares.
Inductive SumSquares := MkSumSquares.
Definition max_input : Z := 1000000.
(** One round of [for index in 1..=n]. *)
Definition sum_round (job : JobContext) (n : N) : N * Z → result (N * Z + Payload) := λ '(index, total),
  if (n <? index)%N then ok (inr (CountSnapshot n total)) else
  let square := i64_of_bits (index * index) in
  match checked_add_i64 total square with
  | None => err (Native.Application "CpuOverflow")
  | Some total =>
      if (index mod 1024 =? 0)%N then
        do! cancelled := Job.is_cancelled job in
        if cancelled : bool then err (Native.Application "CpuCancelled")
        else ok (inl (index + 1, total)%N)
      else ok (inl (index + 1, total)%N)
  end.
Definition sum_loop (job : JobContext) (n : N) : result Payload :=
  loop (λ s, do! r := sum_round job n s in
    Ret match r with
        | inl e => inr (inl e)
        | inr (inl s) => inl s
        | inr (inr p) => inr (inr p)
        end) (1%N, 0%Z).
(** The job's factory; [held] is dropped when it returns. *)
Definition work (held : HeldPayload) (job : JobContext) : result Payload :=
  finally
    match stored_payload (held_stored held) with
    | Pulse value =>
        if negb ((0 <=? value)%Z && (value <=? max_input)%Z) then err (Native.Application "CpuInputRange")
        else sum_loop job (Z.to_N value)
    | _ => err (Native.Application "CpuInputSchema")
    end (drop_stored held).
Definition sum_factory : factory := {| fa_call := work; fa_drop := Ret tt |}.
(** A hook's result is that of its body. *)
Definition hook {C A} (c : C) (m : CM A) (cx : NativeContext) : prog (hooked C A) :=
  do! (r, _) := m cx in
  Ret (c, Some r).
Definition nothing {C A} (c : C) (a : A) : prog (hooked C A) := Ret (c, Some (inr a)).
#[export] Instance behavior : NativeBehavior SumSquares := {|
  on_start c _ := nothing c tt;
  on_event c payload := hook c (Defer.defer_cpu_reply payload sum_factory);
  on_tick c _ := nothing c tt;
  on_quiesce c _ := nothing c tt;
  on_failure c _ _ _ := nothing c FailureAction.StopWorld;
  on_drain c _ := nothing c tt;
  on_stop c _ := nothing c tt;
  drop_component _ := Ret tt |}.
Definition input : PortSpec := MkPortSpec "requests" Input TPulse.
Definition descriptor : ComponentDescriptor :=
  MkDescriptor "actorplane.CpuSumSquares" 1 [input] [MkInterfaceSpec "actorplane.CpuSumSquares" 1 [input]].
(** [is_virtual] is a property of the World that never changes. *)
Definition prepare_sum_squares (opened is_virtual : bool) (parent : option ActorRef) : result Executor.NativeHandle :=
  if is_virtual then err (Native.Application "CpuUnavailableInTestWorld") else
  Executor.prepare_native (C:=SumSquares) opened true parent
    (Spec.new descriptor (MkSchema "actorplane.CpuSumSquares.Config" 1 [])) (VRecord [])
    (λ _, Ret (inr MkSumSquares)).
End SumSquares.
Import SumSquares.

(** ** The closed form *)
Definition squares (n : N) : N := n * (n + 1) * (2 * n + 1) / 6.
Lemma squares_succ n : squares (n + 1) = (squares n + (n + 1) * (n + 1))%N.
Proof.
  unfold squares. replace ((n + 1) * (n + 1 + 1) * (2 * (n + 1) + 1))%N
    with (n * (n + 1) * (2 * n + 1) + (n + 1) * (n + 1) * 6)%N by lia.
  by rewrite N.div_add by lia.
Qed.
Lemma squares_bound n : (n ≤ 1000000)%N → (squares n < 2 ^ 62)%N.
Proof.
  intros Hn. unfold squares. apply N.Div0.div_lt_upper_bound.
  assert (n * (n + 1) * (2 * n + 1) ≤ 1000000 * 1000001 * 2000001)%N; [|lia].
  repeat apply N.mul_le_mono; lia.
Qed.
Lemma square_of_bits n : (n ≤ 1000000)%N → i64_of_bits (n * n) = Z.of_N (n * n).
Proof. intros Hn. unfold i64_of_bits. assert (n * n ≤ 1000000 * 1000000)%N; [by apply N.mul_le_mono|]. case_match; lia. Qed.
(** What a job may answer: the closed form, or that it was cancelled. *)
Definition sum_answer (n : N) (r : halt + (native_error + Payload)) : Prop :=
  r = inr (inr (CountSnapshot n (Z.of_N (squares n)))) ∨
  (1024 ≤ n)%N ∧ (r = inr (inl (Native.Application "CpuCancelled")) ∨ r = inl HPoisoned).
Lemma sum_loop_answer job n : (n ≤ 1000000)%N → total (sum_loop job n) (sum_answer n).
Proof.
  intros Hn. unfold sum_loop, loop.
  apply (total_loop_measure _ _ (λ '(index, total), (1 ≤ index ≤ n + 1)%N ∧ total = Z.of_N (squares (index - 1)))
           (λ '(index, _), N.to_nat (n + 1 - index))); [split; [lia|done]|].
  intros [index sum] [Hi ->]. unfold sum_round.
  case_match eqn:Hlast.
  { unfold ok. cbn [pbind]. constructor. simpl. constructor. left. repeat f_equal; lia. }
  rewrite square_of_bits by lia. assert (squares index = squares (index - 1) + index * index)%N as Hsq.
  { replace index with (index - 1 + 1)%N at 1 by lia. rewrite squares_succ. repeat f_equal; lia. }
  pose proof (squares_bound index ltac:(lia)) as Hbound.
  assert (checked_add_i64 (Z.of_N (squares (index - 1))) (Z.of_N (index * index)) = Some (Z.of_N (squares index))) as ->.
  { unfold checked_add_i64. rewrite <- N2Z.inj_add, <- Hsq. case_match; [done|lia]. }
  assert (let '(i, t) := (index + 1, Z.of_N (squares index))%N in
    (1 ≤ i ≤ n + 1)%N ∧ t = Z.of_N (squares (i - 1)) ∧ (N.to_nat (n + 1 - i) < N.to_nat (n + 1 - index))%nat) as (H1 & H2 & H3).
  { split_and!; [lia|lia|by repeat f_equal; lia|lia]. }
  case_match eqn:Hcheck; [|unfold ok; cbn [pbind]; by constructor].
  assert (1024 ≤ n)%N as Hlarge.
  { destruct (N.lt_ge_cases n 1024); [|done]. apply N.eqb_eq in Hcheck. rewrite N.mod_small in Hcheck; lia. }
  eapply (total_bind _ _ (λ r, match r with inr (inl e) => e = Native.Application "CpuCancelled"
      | inr (inr (inl s)) => s = (index + 1, Z.of_N (squares index))%N | inr (inr (inr _)) => False | inl w => w = HPoisoned end)).
  - apply (total_bind _ _ _ _ (total_is_cancelled job)); [|by intros w [?|[? ?]]; congruence].
    intros [|] _; by constructor.
  - intros [e|[st|p]] Hr; [subst..|done]; constructor; [constructor; right; auto|done].
  - intros w ->. right. auto.
Qed.

(** C35. The CPU job of a sum of squares always ends.  For an input in 0..=1000000 it
    answers the exact sum n(n+1)(2n+1)/6, so the checked additions never overflow,
    unless it is cancelled, which inputs below 1024 never notice; any other input is
    refused with its error. *)
Theorem sum_squares_exact held job :
  total (work held job) (λ r,
    match stored_payload (held_stored held) with
    | Pulse v => if decide (0 ≤ v ≤ 1000000)%Z then sum_answer (Z.to_N v) r
                 else r = inr (inl (Native.Application "CpuInputRange"))
    | _ => r = inr (inl (Native.Application "CpuInputSchema"))
    end) ∧
  Acc own_step (work held job).
Proof.
  match goal with |- ?P ∧ _ => assert P as H; [|split; [exact H|exact (total_finite _ _ H)]] end.
  apply total_finally; [apply total_drop_stored|]. destruct (stored_payload (held_stored held)); try by apply total_ret.
  unfold max_input. case_decide; case_match; try lia; [apply sum_loop_answer; lia|by apply total_ret].
Qed.

(** ** As a component *)
Lemma is_cancelled_code job : app false (Job.is_cancelled job).
Proof.
  unfold Job.is_cancelled. apply app_bind; [by repeat constructor|]. intros t. case_match; [constructor|].
  apply app_bind; [apply app_on_world|]. intros st. case_match; [constructor|].
  apply app_bind; [apply app_on_world|]. intros; constructor.
Qed.
Lemma work_code held job : sync_code (work held job).
Proof.
  apply code_finally; [done| |apply code_prim; by repeat constructor].
  apply code_prim. destruct (stored_payload _); try constructor. case_match; [constructor|].
  constructor; [|constructor]. intros [index sum]. apply app_bind; [|constructor]. unfold sum_round.
  repeat first [apply app_ret | apply app_bind; [apply is_cancelled_code|intros []] | case_match].
Qed.
Lemma nothing_code {C A} (c : C) (a : A) : hook_code (nothing c a).
Proof. apply code_prim. repeat constructor. Qed.
#[export] Instance sum_squares_code : BehaviorCode SumSquares.
Proof.
  split; intros; try apply nothing_code; [|constructor].
  apply code_bind; [|intros []; apply code_prim; repeat constructor].
  apply code_prim, hook_defer_cpu. split; [apply work_code|constructor].
Qed.
