(* ===== verification/Builtin.v ===== *)
(** * The built-in components

    [runtime-native/src/components.rs]: a source of pulses, a window counter and a sink
    of snapshots, as behaviors of the native SDK.  [window_refines]: the counter is a
    list of the values received since the last snapshot. *)
From S2P Require Import Prelude.
From S2P Require Import Collections.
From S2P Require Import Text.
From S2P Require Import Types.
From S2P Require Import Schema.
From S2P Require Import WorldState.
From S2P Require Import NativeConfig.
From S2P Require Import NativeState.
From S2P Require Import Native.
From S2P Require Import NativeResults.
From S2P Require Import NativeLogic.
From S2P Require Import Cpu.
From S2P Require Import Tasks.
From S2P Require Import Sdk.
From S2P Require Import Executor.
From S2P Require Import NativeRules.
From S2P Require Import SdkLogic.
From S2P Require Import SdkResults.
From S2P Require Import Computation.

Module Builtin.
(** Periods are numbers of nanoseconds. *)
Inductive ComponentKind := PulseSource (interval : N) | WindowCounter (window : N) | SnapshotSink.
Definition kind_name (kind : ComponentKind) : string :=
  match kind with
  | PulseSource _ => "actorplane.PulseSource"
  | WindowCounter _ => "actorplane.WindowCounter"
  | SnapshotSink => "actorplane.SnapshotSink"
  end.
Definition kind_ports (kind : ComponentKind) : list PortSpec :=
  match kind with
  | PulseSource _ => [MkPortSpec "pulses" Output TPulse]
  | WindowCounter _ => [MkPortSpec "input" Input TPulse; MkPortSpec "snapshots" Output TCountSnapshot]
  | SnapshotSink => [MkPortSpec "input" Input TCountSnapshot]
  end.
Definition descriptor (kind : ComponentKind) : ComponentDescriptor :=
  MkDescriptor (kind_name kind) 1 (kind_ports kind) [MkInterfaceSpec (kind_name kind) 1 (kind_ports kind)].
(** [bb_stats] is the cell of the shared statistics. *)
Record BuiltinBehavior := MkBuiltin { bb_kind : ComponentKind; bb_stats : N; bb_count : N; bb_total : Z }.
#[export] Instance BuiltinBehavior_expand : Expand BuiltinBehavior := λ r,
  MkBuiltin (bb_kind r) (bb_stats r) (bb_count r) (bb_total r).
Definition on_counters (id : N) (f : ComponentStats → ComponentStats) : prog unit :=
  do (Atomic (λ s, (tt, s <| sh_cells ::= alter (λ c, match c with Counters st => Counters (f st) | c => c end) id |>))).
Definition fails {A} (b : BuiltinBehavior) (e : native_error) : prog (hooked BuiltinBehavior A) := Ret (b, Some (inl e)).
Definition flush (b : BuiltinBehavior) (cx : NativeContext) : prog (hooked BuiltinBehavior unit) :=
  if (bb_count b =? 0)%N then SumSquares.nothing b tt else
  do! (r, _) := Context.emit "snapshots" (CountSnapshot (bb_count b) (bb_total b)) cx in
  match r with
  | inl e => fails b e
  | inr ticket =>
      drop_ticket ticket ;;>
      on_counters (bb_stats b) (λ st, st <| cs_summaries ::= bump |> <| cs_last_total := bb_total b |>) ;;>
      Ret (b <| bb_count := 0%N |> <| bb_total := 0%Z |>, Some (inr tt))
  end.
Definition on_event (b : BuiltinBehavior) (payload : Payload) (cx : NativeContext) : prog (hooked BuiltinBehavior unit) :=
  match bb_kind b, payload with
  | WindowCounter _, Pulse value =>
      match checked_add u64_max (bb_count b) 1, checked_add_i64 (bb_total b) value with
      | Some count, Some total =>
          on_counters (bb_stats b) (λ st, st <| cs_processed ::= bump |>) ;;>
          Ret (b <| bb_count := count |> <| bb_total := total |>, Some (inr tt))
      | _, _ => fails b (Native.Application "NativeCounterOverflow")
      end
  | SnapshotSink, CountSnapshot _ _ =>
      on_counters (bb_stats b) (λ st, st <| cs_sink_received ::= bump |>) ;;>
      Ret (b, Some (inr tt))
  | _, _ => fails b (Native.Application "InvalidComponentInput")
  end.
Definition on_tick (b : BuiltinBehavior) (cx : NativeContext) : prog (hooked BuiltinBehavior unit) :=
  match bb_kind b with
  | PulseSource _ =>
      do! (r, _) := Context.emit "pulses" (Pulse 1) cx in
      match r with
      | inl e => fails b e
      | inr ticket =>
          drop_ticket ticket ;;>
          on_counters (bb_stats b) (λ st, st <| cs_generated ::= bump |>) ;;>
          Ret (b, Some (inr tt))
      end
  | WindowCounter _ => flush b cx
  | SnapshotSink => SumSquares.nothing b tt
  end.
Definition on_drain (b : BuiltinBehavior) (cx : NativeContext) : prog (hooked BuiltinBehavior unit) :=
  match bb_kind b with
  | WindowCounter _ => flush b cx
  | _ => SumSquares.nothing b tt
  end.
#[export] Instance behavior : NativeBehavior BuiltinBehavior := {|
  Executor.on_start b _ := SumSquares.nothing b tt;
  Executor.on_event := on_event;
  Executor.on_tick := on_tick;
  Executor.on_quiesce b _ := SumSquares.nothing b tt;
  Executor.on_failure b _ _ _ := SumSquares.nothing b FailureAction.StopWorld;
  Executor.on_drain := on_drain;
  Executor.on_stop b _ := SumSquares.nothing b tt;
  drop_component _ := Ret tt |}.

(** ** Preparation *)
Definition kind_period (kind : ComponentKind) : option N :=
  match kind with PulseSource p | WindowCounter p => Some p | SnapshotSink => None end.
Definition configuration (kind : ComponentKind) : Schema :=
  MkSchema (kind_name kind +:+ ".Config") 1
    (match kind_period kind with Some _ => [MkField "period_ns" (TyUInt 1 86400000000000)] | None => [] end).
Definition config (kind : ComponentKind) : Value :=
  VRecord (match kind_period kind with Some p => [VUInt p] | None => [] end).
Definition spec_of (kind : ComponentKind) : NativeSpec :=
  let spec := Spec.new (descriptor kind) (configuration kind) in
  spec <| sp_period := kind_period kind |>
       <| sp_drain := match kind with PulseSource _ => Native.Producer | _ => Native.Consumer end |>
       <| sp_limits ::= λ l, MkLimits (nl_events_per_turn l) (nl_effects_per_callback l) 0 0 (nl_max_config_bytes l) |>.
Record NativeComponent := MkComponent {
  nc_owner : ActorRef; nc_ports : list PortRef; nc_kind : ComponentKind; nc_stats : N }.
Definition bad_kind_period (kind : ComponentKind) : bool :=
  match kind_period kind with Some p => (p =? 0)%N || (seconds 86400 <? p)%N | None => false end.
Definition prepare_component (opened cpu : bool) (parent : ActorRef) (kind : ComponentKind) : prog (string + NativeComponent) :=
  if bad_kind_period kind then Ret (inl "component period must be positive and at most 24 hours"%string) else
  do! stats := do (Atomic (alloc_cell (Counters default_component_stats))) in
  do! prepared := Executor.prepare_native (C:=BuiltinBehavior) opened cpu (Some parent) (spec_of kind) (config kind)
    (λ _, Ret (inr (MkBuiltin kind stats 0 0))) in
  Ret match prepared with
      | inl e => inl (Native.display e)
      | inr h => inr (MkComponent (Executor.nh_owner h) (Executor.nh_ports h) kind stats)
      end.
(** [NativeComponent::stats]. *)
Definition component_stats (c : NativeComponent) : prog ComponentStats :=
  do (Atomic (λ s, (match sh_cells s !! nc_stats c with Some (Counters st) => st | _ => default_component_stats end, s))).
End Builtin.
Import Builtin.

(** ** Application code *)
Lemma on_counters_code id f : hook_code (on_counters id f).
Proof. by apply code_prim, hook_app; repeat constructor. Qed.
Lemma fails_code {A} b e : hook_code (fails (A:=A) b e).
Proof. apply code_prim, hook_app; constructor. Qed.
Lemma ok_code {A} (b : BuiltinBehavior) (a : A) : hook_code (Ret (b, Some (inr a : native_error + A))).
Proof. apply code_prim, hook_app; constructor. Qed.
Lemma emit_code name p cx : hook_code (Context.emit name p cx).
Proof. exact (code_prim _ _ (hook_emit cx name p default_options)). Qed.
Ltac hook_body := first [apply nothing_code | apply fails_code | apply ok_code].
Lemma drop_ticket_code ticket : hook_code (drop_ticket ticket).
Proof. apply code_prim, hook_app, app_bind; [apply app_on_world|constructor]. Qed.
Lemma counted_code id f (b : BuiltinBehavior) :
  hook_code (on_counters id f ;;> Ret (b, Some (inr tt : native_error + unit))).
Proof. apply code_bind; [apply on_counters_code|]. intros _. apply ok_code. Qed.
Lemma flush_code b cx : hook_code (flush b cx).
Proof.
  unfold flush. case_match; [hook_body|]. apply code_bind; [apply emit_code|].
  intros [[e|n] cx']; [hook_body|].
  apply code_bind; [apply drop_ticket_code|]. intros _. apply counted_code.
Qed.
#[export] Instance builtin_code : BehaviorCode BuiltinBehavior.
Proof.
  split; intros; simpl; [hook_body| | |hook_body|hook_body| |hook_body|constructor].
  - unfold on_event. repeat case_match; first [hook_body | apply counted_code].
  - unfold on_tick. case_match; [|apply flush_code|hook_body].
    apply code_bind; [apply emit_code|]. intros [[e|n] cx']; [hook_body|].
  apply code_bind; [apply drop_ticket_code|]. intros _. apply counted_code.
  - unfold on_drain. case_match; first [hook_body | apply flush_code].
Qed.

(** ** The window counter *)

(** [vs]: the values received since the last snapshot. *)
Definition window_of (b : BuiltinBehavior) (vs : list Z) : Prop :=
  (∃ w, bb_kind b = WindowCounter w) ∧ bb_count b = N.of_nat (length vs) ∧ bb_total b = foldr Z.add 0%Z vs.
(** The call succeeds, or fails and leaves the component as it is. *)
Definition refuses {A} (b : BuiltinBehavior) (e : native_error) (r : halt + hooked BuiltinBehavior A) : Prop :=
  r = inr (b, Some (inl e)).
Definition counts_to (vs : list Z) (r : halt + hooked BuiltinBehavior unit) : Prop :=
  ∃ b, r = inr (b, Some (inr tt)) ∧ window_of b vs.
Lemma sum_app vs v : foldr Z.add 0%Z (vs ++ [v]) = (foldr Z.add 0 vs + v)%Z.
Proof. induction vs as [|x vs IH]; simpl; lia. Qed.
Lemma total_counted id f (b : BuiltinBehavior) (Q : halt + hooked BuiltinBehavior unit → Prop) :
  Q (inr (b, Some (inr tt))) → total (on_counters id f ;;> Ret (b, Some (inr tt))) Q.
Proof.
  intros HQ. eapply (total_bind _ _ (λ r, ∃ x, r = inr x)); [apply total_atomic; eauto|by intros; constructor|by intros ? [? ?]].
Qed.
Lemma total_counts id f b vs :
  window_of b vs → total (on_counters id f ;;> Ret (b, Some (inr tt))) (counts_to vs).
Proof. intros Hb. apply total_counted. by exists b. Qed.
Lemma finite_flush b cx : finite (flush b cx).
Proof.
  unfold flush. case_match; [apply finite_ret|]. apply finite_bind; [exact (cfinite_emit _ _ default_options cx)|].
  intros [[e|n] cx']; [apply finite_ret|]. unfold drop_ticket, on_counters. finite.
Qed.

(** C34. The built-in window counter refines the list of the values it received since
    its last snapshot, for every behavior of the World and of the other threads: an
    event appends a value, or is refused and changes nothing when the count or the
    total would overflow; a tick, like the drain, does nothing to an empty window, and
    otherwise emits one snapshot with the length and the sum of the window, clearing
    it exactly if the emission succeeds (or the World panics), so a refused snapshot loses no value.  Ticks
    end. *)
Theorem window_refines b vs :
  window_of b vs →
  (∀ v cx, total (on_event b (Pulse v) cx) (λ r,
     if decide (N.of_nat (length vs) < u64_max ∧ (- 2 ^ 63 ≤ foldr Z.add 0 vs + v < 2 ^ 63)%Z)%N
     then counts_to (vs ++ [v]) r else refuses b (Native.Application "NativeCounterOverflow") r)) ∧
  (∀ p cx, (∀ v, p ≠ Pulse v) → total (on_event b p cx) (refuses b (Native.Application "InvalidComponentInput"))) ∧
  (∀ cx, on_drain b cx = on_tick b cx ∧ Acc own_step (on_tick b cx)) ∧
  (∀ cx r, ends_as (on_tick b cx) r →
     match vs with
     | [] => r = inr (b, Some (inr tt))
     | _ => ∃ out,
         ends_as (Context.emit "snapshots" (CountSnapshot (N.of_nat (length vs)) (foldr Z.add 0%Z vs)) cx) out ∧
         match out with
         | inr (inr _, _) => counts_to [] r ∨ r = inl HPoisoned
         | inr (inl e, _) => refuses b e r
         | inl why => r = inl why
         end
     end).
Proof.
  intros ([w Hk] & Hc & Ht). split_and!.
  - intros v cx. unfold on_event, checked_add, checked_add_i64. rewrite Hk, Hc, Ht.
    repeat case_match; try lia; try (apply total_ret); try done; simplify_eq; try lia.
    apply total_counts. split_and!; [by exists w|simpl; rewrite length_app; simpl; lia|symmetry; apply sum_app].
  - intros p cx Hp. unfold on_event. rewrite Hk. destruct p; [by edestruct Hp|apply total_ret; done..].
  - intros cx. unfold on_drain, on_tick. rewrite Hk. split; [done|]. eapply total_finite, finite_flush.
  - intros cx r. unfold on_tick, flush. rewrite Hk, Hc, Ht. destruct vs as [|v vs].
    { simpl. intros H%ends_as_inv. done. }
    case_match eqn:Hz; [simpl in *; lia|]. intros [([[e|n] cx'] & He & H)|(why & He & ->)]%ends_bind.
    + exists (inr (inl e, cx')). split; [exact He|]. by apply ends_as_inv in H.
    + exists (inr (inr n, cx')). split; [exact He|]. eapply (total_ends _ (λ r, counts_to [] r ∨ r = inl HPoisoned)); [|exact H].
      eapply total_bind; [apply total_drop_ticket| |by intros why [?|[? ?]]; [right; congruence|]]. intros _ _.
      eapply total_mono; [|apply total_counts]; [by left|]. split_and!; [by exists w|done..].
    + exists (inl why). by split.
Qed.
Definition sample_window : BuiltinBehavior := MkBuiltin (WindowCounter 5) 0 2 7.
Lemma window_refines_witness :
  window_of sample_window [3; 4]%Z ∧ (∀ cx, total (on_event sample_window (Pulse 5) cx) (counts_to [3; 4; 5]%Z)).
Proof.
  assert (window_of sample_window [3; 4]%Z) as H by (split_and!; [by exists 5%N|reflexivity|reflexivity]).
  split; [exact H|]. intros cx. refine (total_mono _ _ _ _ (proj1 (window_refines sample_window [3; 4]%Z H) 5%Z cx)).
  intros r Hr. case_decide as Hd; [exact Hr|]. exfalso. apply Hd. split; [reflexivity|split; [discriminate|reflexivity]].
Defined.
