(* ===== verification/Controls.v ===== *)
(** * Requests completed from outside

    [runtime-native/src/controls.rs]: a bounded registry of requests whose deferred
    replies are supplied by a test driver.  Each request waits on a oneshot channel
    whose sender is in the registry.  [registry_exact]: the registry hands each sender
    out at most once and stays within its limit. *)
From S2P Require Import Prelude.
From S2P Require Import Collections.
From S2P Require Import Text.
From S2P Require Import Types.
From S2P Require Import Schema.
From S2P Require Import Operations.
From S2P Require Import WorldState.
From S2P Require Import Messaging.
From S2P Require Import NativeConfig.
From S2P Require Import NativeState.
From S2P Require Import Native.
From S2P Require Import NativeLogic.
From S2P Require Import Cpu.
From S2P Require Import Tasks.
From S2P Require Import Sdk.
From S2P Require Import Executor.
From S2P Require Import NativeRules.
From S2P Require Import SdkLogic.
From S2P Require Import Computation.

(** ** The registry *)
Module Registries.
Definition new (limit : N) : Registry := MkRegistry limit ∅.
Definition register (id : OperationId) (owner : ActorRef) (sender : N) (r : Registry) : bool * Registry :=
  if (rg_limit r <=? N.of_nat (size (rg_entries r)))%N || bool_decide (is_Some (rg_entries r !! id)) then (false, r)
  else (true, r <| rg_entries ::= <[id := MkEntry owner sender]> |>).
Definition remove (id : OperationId) (r : Registry) : option N * Registry :=
  (re_sender <$> rg_entries r !! id, r <| rg_entries ::= delete id |>).
(** The second look of [complete]: the sender is taken out if its owner is of the
    World [world]. *)
Inductive taken := Unknown | WrongWorld | Taken (sender : N).
Definition take (world : N) (id : OperationId) (r : Registry) : taken * Registry :=
  match rg_entries r !! id with
  | None => (Unknown, r)
  | Some e =>
      if negb (ar_world (re_owner e) =? world)%N then (WrongWorld, r)
      else (Taken (re_sender e), (remove id r).2)
  end.
Definition order (a b : OperationId) : bool :=
  (op_world a <? op_world b)%N ||
  ((op_world a =? op_world b)%N &&
   ((op_slot a <? op_slot b)%N || ((op_slot a =? op_slot b)%N && (op_generation a <=? op_generation b)%N))).
Definition pending (r : Registry) : list OperationId := merge_sort order (map_to_list (rg_entries r)).*1.
End Registries.

(** ** The shared registry and the channels *)
Module Replies.
Definition on_registry {A} (rg : N) (default : A) (f : Registry → A * Registry) : prog A :=
  do (Atomic (λ s, match sh_cells s !! rg with
                   | Some (Replies r) => let '(a, r) := f r in (a, write_cell rg (Replies r) s)
                   | _ => (default, s)
                   end)).
Definition new (limit : N) : result N :=
  if negb (in_range 1 65536 limit) then err (Native.Limit "controlled replies") else
  do! rg := do (Atomic (alloc_cell (Replies (Registries.new limit)))) in
  ok rg.
Definition pending (rg : N) : prog (list OperationId) := on_registry rg [] (λ r, (Registries.pending r, r)).
Definition register (rg : N) (id : OperationId) (owner : ActorRef) (sender : N) : prog bool :=
  on_registry rg false (Registries.register id owner sender).
(** A channel: [oneshot::Sender::send], the drops of both ends, and a poll of the
    receiver, which takes what was sent out. *)
Definition on_channel {A} (ch : N) (default : A) (f : channel → A * channel) : prog A :=
  do (Atomic (λ s, match sh_cells s !! ch with
                   | Some (Oneshot c) => let '(a, c) := f c in (a, write_cell ch (Oneshot c) s)
                   | _ => (default, s)
                   end)).
Definition send (ch : N) (held : HeldPayload) : prog bool :=
  on_channel ch false (λ c, match c with ChOpen => (true, ChSent held) | c => (false, c) end).
Definition drop_sender (ch : N) : prog unit :=
  on_channel ch tt (λ c, (tt, match c with ChOpen => ChNoSender | c => c end)).
Definition drop_receiver (ch : N) : prog unit :=
  do! held := on_channel ch None (λ c, (match c with ChSent held => Some held | _ => None end, ChNoReceiver)) in
  match held with Some held => drop_stored held | None => Ret tt end.
(** [receiver.await]: the value, or [None] when the sender is gone. *)
Definition receive (ch : N) : prog (option HeldPayload) :=
  loop (λ _ : unit,
    do! polled := on_channel ch None (λ c, match c with
      | ChSent held => (Some (Some held), ChNoSender)
      | ChOpen => (None, ChOpen)
      | c => (Some None, c)
      end) in
    match polled with
    | Some held => Ret (inr held)
    | None => await ;;> Ret (inl tt)
    end) tt.
Definition remove (rg : N) (id : OperationId) : prog unit :=
  do! sender := on_registry rg None (Registries.remove id) in
  match sender with Some ch => drop_sender ch | None => Ret tt end.
Definition world_id : prog N := do (Atomic (λ s, (w_id (sh_world s), s))).
Definition complete (rg : N) (id : OperationId) (payload : Payload) : result bool :=
  do! world_ := world_id in
  if negb (world_ =? op_world id)%N then core Error.CrossWorld else
  do! status := status_of id in
  if negb (is_pending status) then ok false else
  do! entry := on_registry rg None (λ r, (rg_entries r !! id, r)) in
  match entry with
  | None => ok false
  | Some e =>
      if negb (ar_world (re_owner e) =? world_)%N then core Error.CrossWorld else
      try! held := world (hold_with payload default_options) in
      do! taken := on_registry rg Registries.Unknown (Registries.take world_ id) in
      match taken with
      | Registries.Unknown => drop_stored held ;;> ok false
      | Registries.WrongWorld => drop_stored held ;;> core Error.CrossWorld
      | Registries.Taken ch =>
          do! sent := send ch held in
          if sent : bool then ok true else
          drop_stored held ;;>
          ok false
      end
  end.

(** ** The component *)
Record ControlledBehavior := MkControlled { cb_registry : N }.
(** The deferred reply: the receiver, then its input, then the guard are dropped. *)
Definition reply_factory (rg : N) (id : OperationId) (ch : N) : factory := {|
  fa_call := λ input _,
    finally (finally
      (do! response := finally (receive ch) (drop_receiver ch) in
       match response with
       | Some response =>
           finally (ok (stored_payload (held_stored response))) (drop_stored response)
       | None => err (Native.Application "ControlledReplyCancelled")
       end) (drop_stored input)) (remove rg id);
  fa_drop := remove rg id ;;> drop_receiver ch |}.
Definition on_event (c : ControlledBehavior) (payload : Payload) (cx : NativeContext) : prog (hooked ControlledBehavior unit) :=
  let rg := cb_registry c in
  let fails e := Ret (c, Some (inl e)) in
  match Context.operation cx with
  | None => fails (Native.Application "ControlledRequestRequired")
  | Some id =>
      do! ch := do (Atomic (alloc_cell (Oneshot ChOpen))) in
      do! registered := register rg id (Context.owner cx) ch in
      if negb registered then
        drop_sender ch ;;>
        drop_receiver ch ;;>
        fails (Native.Limit "controlled replies")
      else
      do! (r, _) := Defer.defer_reply payload (reply_factory rg id ch) cx in
      match r with
      | inl e => remove rg id ;;> fails e
      | inr _ => Ret (c, Some (inr tt))
      end
  end.
#[export] Instance behavior : NativeBehavior ControlledBehavior := {|
  Executor.on_start c _ := SumSquares.nothing c tt;
  Executor.on_event := on_event;
  Executor.on_tick c _ := SumSquares.nothing c tt;
  Executor.on_quiesce c _ := SumSquares.nothing c tt;
  Executor.on_failure c _ _ _ := SumSquares.nothing c FailureAction.StopWorld;
  Executor.on_drain c _ := SumSquares.nothing c tt;
  Executor.on_stop c _ := SumSquares.nothing c tt;
  drop_component _ := Ret tt |}.
Definition prepare (opened cpu : bool) (rg : N) (parent : option ActorRef) (input : PayloadType) : result Executor.NativeHandle :=
  do! limit := on_registry rg 0%N (λ r, (rg_limit r, r)) in
  let spec := Spec.new (MkDescriptor "ControlledReplies" 1 [MkPortSpec "requests" Input input] [])
    (MkSchema "ControlledReplies.Config" 1 []) in
  let spec := spec <| sp_limits ::= λ l, MkLimits (nl_events_per_turn l) (nl_effects_per_callback l) (N.min limit 1024)
    (nl_max_job_input_bytes l) (nl_max_config_bytes l) |> in
  Executor.prepare_native (C:=ControlledBehavior) opened cpu parent spec (VRecord []) (λ _, Ret (inr (MkControlled rg))).
End Replies.
Import Replies.

(** ** Application code *)
Lemma on_registry_app async {A} rg (d : A) f : app async (on_registry rg d f).
Proof. repeat constructor. Qed.
Lemma on_channel_app async {A} ch (d : A) f : app async (on_channel ch d f).
Proof. repeat constructor. Qed.
Lemma drop_stored_app async held : app async (drop_stored held).
Proof. by repeat constructor. Qed.
Lemma remove_app async rg id : app async (remove rg id).
Proof. apply app_bind; [apply on_registry_app|]. intros [ch|]; [apply on_channel_app|constructor]. Qed.
Lemma drop_receiver_app async ch : app async (drop_receiver ch).
Proof. apply app_bind; [apply on_channel_app|]. intros [held|]; [apply drop_stored_app|constructor]. Qed.
Lemma app_finally {A} (m : prog A) c : app true m → app true c → app true (finally m c).
Proof.
  intros Hm Hc. apply app_bind.
  - apply app_bind; [by apply app_caught|]. intros [[]|a]; try constructor; apply app_bind; auto; intros; by apply app_halt.
  - intros a. apply app_bind; [done|]. constructor.
Qed.
Lemma receive_app ch : app true (receive ch).
Proof.
  constructor; [|constructor]. intros _. apply app_bind; [apply on_channel_app|]. intros [held|]; [constructor|].
  apply app_bind; [|constructor]. by constructor; [|intros []; constructor].
Qed.
Lemma reply_factory_ok rg id ch : factory_ok true (reply_factory rg id ch).
Proof.
  split; [intros input job|apply app_bind; [apply remove_app|intros; apply drop_receiver_app]].
  apply app_finally; [|apply remove_app]. apply app_finally; [|apply drop_stored_app].
  apply app_bind; [apply app_finally; [apply receive_app|apply drop_receiver_app]|].
  intros [held|]; [|constructor]. apply app_finally; [constructor|apply drop_stored_app].
Qed.
Lemma control_app {A} (p : prog A) : app false p → hook_code p.
Proof. intros H. exact (code_prim _ _ (hook_app p H)). Qed.
#[export] Instance controlled_code : BehaviorCode ControlledBehavior.
Proof.
  split; intros; try apply nothing_code; [|constructor].
  simpl. unfold on_event. destruct (Context.operation cx) as [id|]; [|apply control_app; constructor].
  apply code_bind; [apply control_app; repeat constructor|]. intros ch.
  apply code_bind; [apply control_app, on_registry_app|]. intros [].
  - apply code_bind; [exact (code_prim _ _ (hook_defer cx p _ (reply_factory_ok _ id ch)))|].
    intros [[e|u] cx']; apply control_app; [|constructor]. apply app_bind; [apply remove_app|constructor].
  - apply control_app. apply app_bind; [apply on_channel_app|]. intros _.
    apply app_bind; [apply drop_receiver_app|constructor].
Qed.

(** ** What the registry promises *)
Inductive registry_call := CRegister (id : OperationId) (owner : ActorRef) (sender : N) | CTake (world : N) (id : OperationId) | CRemove (id : OperationId).
Definition senders (r : Registry) : list N := re_sender <$> (map_to_list (rg_entries r)).*2.
(** The registry, the senders given to it, and those it has handed out. *)
Definition registry_step (x : Registry * list N * list N) (c : registry_call) : Registry * list N * list N :=
  let '(r, given, out) := x in
  match c with
  | CRegister id owner sender =>
      let '(ok, r) := Registries.register id owner sender r in
      (r, if ok : bool then sender :: given else given, out)
  | CTake world id =>
      match Registries.take world id r with
      | (Registries.Taken sender, r) => (r, given, sender :: out)
      | (_, r) => (r, given, out)
      end
  | CRemove id =>
      match Registries.remove id r with
      | (Some sender, r) => (r, given, sender :: out)
      | (None, r) => (r, given, out)
      end
  end.
Lemma senders_insert r id e : rg_entries r !! id = None →
  senders (r <| rg_entries ::= <[id := e]> |>) ≡ₚ re_sender e :: senders r.
Proof. intros H. unfold senders. cbn [rg_entries set_field]. by rewrite map_to_list_insert. Qed.
Lemma senders_delete r id e : rg_entries r !! id = Some e →
  senders r ≡ₚ re_sender e :: senders (r <| rg_entries ::= delete id |>).
Proof. intros H. unfold senders. cbn [rg_entries set_field]. by rewrite <- (map_to_list_delete _ _ _ H). Qed.

(** C36. The registry of controlled replies stays within its limit, and every sender
    registered is at any time either in the registry or was handed out, by a
    completion or a removal, exactly once. *)
Theorem registry_exact limit calls :
  let '(r, given, out) := foldl registry_step (Registries.new limit, [], []) calls in
  rg_limit r = limit ∧ (N.of_nat (size (rg_entries r)) ≤ limit)%N ∧ given ≡ₚ out ++ senders r.
Proof.
  induction calls as [|c calls IH] using rev_ind.
  { split_and!; simpl; [done|rewrite map_size_empty; lia|]. unfold senders. simpl. by rewrite map_to_list_empty. }
  rewrite foldl_app. destruct (foldl _ _ calls) as [[r given] out]. destruct IH as (Hl & Hs & Hp). simpl.
  assert (∀ id e, rg_entries r !! id = Some e → (N.of_nat (size (delete id (rg_entries r))) ≤ limit)%N) as Hdel.
  { intros id e He. rewrite map_size_delete, He. simpl. lia. }
  assert (∀ id e, rg_entries r !! id = Some e → given ≡ₚ re_sender e :: out ++ senders (r <| rg_entries ::= delete id |>)) as Hout.
  { intros id e He. rewrite Hp, (senders_delete _ _ _ He). by rewrite Permutation_middle. }
  destruct c as [id owner sender|world id|id]; simpl.
  - unfold Registries.register. destruct (_ || _) eqn:Hfull; [done|].
    apply orb_false_iff in Hfull as [Hlt Hn%bool_decide_eq_false%eq_None_not_Some]. split_and!; [done|..].
    + cbn [rg_entries set_field]. rewrite map_size_insert_None by done. lia.
    + rewrite senders_insert by done. rewrite Hp. by rewrite Permutation_middle.
  - unfold Registries.take. destruct (rg_entries r !! id) as [e|] eqn:He; [|done].
    destruct (negb _); [done|]. split_and!; [done|by eapply Hdel|by apply Hout].
  - unfold Registries.remove. destruct (rg_entries r !! id) as [e|] eqn:He; simpl.
    + split_and!; [done|by eapply Hdel|by apply Hout].
    + split_and!; [done|cbn [rg_entries set_field]; by rewrite delete_id|]. unfold senders. cbn [rg_entries set_field]. by rewrite delete_id.
Qed.
