(* ===== verification/Pipeline.v ===== *)
(** * The reference pipeline and the runtime's own services

    [runtime-native/src/lib.rs]: a source, a window counter and a sink as three tasks
    ([start_counter]), the routing and maintenance services, and the end of a runtime.
    When the ticks of a [tokio::time::Interval] are due is left open ([Choose]). *)
From S2P Require Import Prelude.
From S2P Require Import Collections.
From S2P Require Import Text.
From S2P Require Import Types.
From S2P Require Import Metadata.
From S2P Require Import Diagnostics.
From S2P Require Import WorldState.
From S2P Require Import Admission.
From S2P Require Import Publishing.
From S2P Require Import Actors.
From S2P Require Import Messaging.
From S2P Require Import Components.
From S2P Require Import Views.
From S2P Require Import NativeConfig.
From S2P Require Import NativeState.
From S2P Require Import Native.
From S2P Require Import NativeLogic.
From S2P Require Import Cpu.
From S2P Require Import Tasks.
From S2P Require Import Sdk.
From S2P Require Import Executor.
From S2P Require Import NativeRules.
From S2P Require Import SdkLogic.

Module Pipelines.
(** ** Waiting *)
Definition wait_ready (owner : ActorRef) (allow_drain : bool) : prog bool :=
  loop (λ _ : unit,
    do! state := on_world (execution_state owner) in
    match state with
    | inr Lifecycle.Active => Ret (inr true)
    | inr Lifecycle.Quiescing => Ret (inr allow_drain)
    | inr Lifecycle.Starting => sleep check_interval ;;> Ret (inl tt)
    | _ => Ret (inr false)
    end) tt.
Definition wait_active (owner : ActorRef) : prog bool := wait_ready owner false.
(** [select!] of two intervals: [None] when neither is due. *)
Definition select_ticks : prog (option bool) :=
  do! first := do Choose in
  if first : bool then Ret (Some true) else
  do! second := do Choose in
  Ret (if second : bool then Some false else None).
Definition tick : prog unit :=
  loop (λ _ : unit, do! due := do Choose in if due : bool then Ret (inr tt) else await ;;> Ret (inl tt)) tt.

(** ** The shared snapshot and flag *)
Definition on_snapshot (id : N) (f : PipelineSnapshot → PipelineSnapshot) : prog unit :=
  do (Atomic (λ s, (tt, s <| sh_cells ::= alter (λ c, match c with Pipeline p => Pipeline (f p) | c => c end) id |>))).
Definition snapshot (id : N) : prog PipelineSnapshot :=
  do (Atomic (λ s, (match sh_cells s !! id with Some (Pipeline p) => p | _ => default_snapshot end, s))).
(** [CompletionFlag]: dropping it stores [true]. *)
Definition drop_flag (id : N) : prog unit := do (Atomic (λ s, (tt, write_cell id (Flag true) s))).
Definition load_flag (id : N) : prog bool :=
  do (Atomic (λ s, (match sh_cells s !! id with Some (Flag b) => b | _ => false end, s))).
(** [+= 1] on a [u64]. *)
Definition increment (n : N) : N := (n + 1) mod 2 ^ 64.
(** [let _ = publish(..)]: the ticket is dropped. *)
Definition publishing (m : WM N) : prog unit :=
  do! r := on_world m in
  match r with inr ticket => drop_ticket ticket | inl _ => Ret tt end.
Definition batch : nat := 32.

Section pipeline.
Context (owner source counter sink : ActorRef) (stats done : N).
(** ** The source *)
Definition pulse : prog unit :=
  do! t := do (Atomic (λ s, match world_elapsed_ns (sh_world s) with
                           | (Ok t, w) => (t, s <| sh_world := w |>)
                           | (_, w) => (0%N, s <| sh_world := w |>)
                           end)) in
  on_snapshot stats (λ s,
    s <| ps_generated ::= bump |> <| ps_total_ticks ::= λ n, Z.min (2 ^ 63 - 1) (n + 1) |>
      <| ps_first_progress ::= λ o, Some (default t o) |> <| ps_last_progress := Some t |>) ;;>
  publishing (publish_with source (Pulse 1) default_options).
Definition source_round (_ : unit) : prog (unit + unit) :=
  do! branch := select_ticks in
  match branch with
  | Some _ =>
      do! active := is_active owner in
      if negb active then Ret (inr tt) else
      (if branch is Some false then pulse else Ret tt) ;;>
      Ret (inl tt)
  | None => await ;;> Ret (inl tt)
  end.
Definition source_task (lease : N) : closure unit := {|
  cl_call :=
    finally (do! active := wait_active owner in if active : bool then loop source_round tt else Ret tt)
      (drop_lease lease);
  cl_drop := Ret tt |}.

(** ** The counter *)
Definition running (state : error + lifecycle) : bool := runs state.
Definition summarize (lease : N) (count : N) (total : Z) : prog unit :=
  publishing (publish_completion lease counter (CountSnapshot count total)) ;;>
  on_snapshot stats (λ s, s <| ps_summaries ::= bump |> <| ps_last_total := total |>).
Definition counted (payload : Payload) (count : N) (total : Z) : option (N * Z) :=
  match payload with
  | Pulse value =>
      match checked_add u64_max count 1, checked_add_i64 total value with
      | Some count, Some total => Some (count, total)
      | _, _ => None
      end
  | _ => None
  end.
Definition claimed_payload (d : Claimed) : Payload := stored_payload (d_payload (dl_delivery (ld_lease d))).
(** Up to [n] deliveries: [None] when one is refused, which stops the owner; otherwise
    whether the queue was drained. *)
Fixpoint count_batch (n : nat) (count : N) (total : Z) : prog (option (bool * (N * Z))) :=
  match n with
  | O => Ret (Some (false, (count, total)))
  | S n =>
      do! d := claim_from counter in
      match d with
      | None => Ret (Some (true, (count, total)))
      | Some d =>
          match counted (claimed_payload d) count total with
          | None =>
              on_world (Supervision.report_failure owner (Some (d_event_id (dl_delivery (ld_lease d)))) None (ld_operation d)
                (Failures.details_new Handler "native_counter" "InvalidPulseOrOverflow" []) FailureAction.StopActor) ;;>
              on_world (finish_delivery (ld_handle d) false) ;;>
              on_world (stop owner) ;;>
              Ret None
          | Some (count, total) =>
              on_snapshot stats (λ s, s <| ps_processed ::= increment |>) ;;>
              on_world (finish_delivery (ld_handle d) true) ;;>
              count_batch n count total
          end
      end
  end.
Definition counter_round (lease : N) : N * Z → prog (N * Z + unit) := λ '(count, total),
  do! branch := select_ticks in
  match branch with
  | Some true =>
      do! state := on_world (execution_state owner) in
      if negb (running state) then Ret (inr tt) else
      if negb (count =? 0)%N then summarize lease count total ;;> Ret (inl (0%N, 0%Z))
      else Ret (inl (count, total))
  | Some false =>
      do! state := on_world (execution_state owner) in
      if negb (running state) then Ret (inr tt) else
      do! r := count_batch batch count total in
      match r with
      | None => Ret (inr tt)
      | Some (drained, (count, total)) =>
          if negb (drained && bool_decide (state = inr Lifecycle.Quiescing)) then Ret (inl (count, total)) else
          do! upstream := on_world (Ports.upstream_done counter) in
          if match upstream with inr b => b | inl _ => false end then
            (if (0 <? count)%N then summarize lease count total else Ret tt) ;;>
            Ret (inr tt)
          else Ret (inl (count, total))
      end
  | None => await ;;> Ret (inl (count, total))
  end.
(** The flag is set when the counter ends, before its lease is dropped. *)
Definition counter_task (lease : N) : closure unit := {|
  cl_call :=
    finally (finally
      (do! ready := wait_ready owner true in
       if ready : bool then loop (counter_round lease) (0%N, 0%Z) else Ret tt) (drop_flag done))
      (drop_lease lease);
  cl_drop := drop_flag done |}.

(** ** The sink *)

(** Whether the sink is done. *)
Fixpoint sink_batch (n : nat) (state : error + lifecycle) : prog bool :=
  match n with
  | O => Ret false
  | S n =>
      do! d := claim_from sink in
      match d with
      | None =>
          if negb (bool_decide (state = inr Lifecycle.Quiescing)) then Ret false else
          do! counter_done := load_flag done in
          if negb counter_done then Ret false else
          do! upstream := on_world (Ports.upstream_done sink) in
          Ret match upstream with inr b => b | inl _ => false end
      | Some d =>
          match claimed_payload d with
          | CountSnapshot _ _ =>
              on_snapshot stats (λ s, s <| ps_sink_received ::= increment |>) ;;>
              on_world (finish_delivery (ld_handle d) true) ;;>
              sink_batch n state
          | _ =>
              on_world (finish_delivery (ld_handle d) false) ;;>
              on_world (stop owner) ;;>
              Ret true
          end
      end
  end.
Definition sink_round (_ : unit) : prog (unit + unit) :=
  tick ;;>
  do! state := on_world (execution_state owner) in
  if negb (running state) then Ret (inr tt) else
  do! over := sink_batch batch state in
  Ret (if over : bool then inr tt else inl tt).
Definition sink_task (lease : N) : closure unit := {|
  cl_call :=
    finally (do! ready := wait_ready owner true in if ready : bool then loop sink_round tt else Ret tt)
      (drop_lease lease);
  cl_drop := Ret tt |}.
End pipeline.

(** ** Starting the pipeline *)
Record CounterPipeline := MkPipeline {
  cp_owner : ActorRef; cp_source : ActorRef; cp_counter : ActorRef; cp_sink : ActorRef; cp_stats : N }.
Fixpoint activate_all (refs : list ActorRef) : result unit :=
  match refs with
  | [] => ok tt
  | r :: refs => try! _ := world (activate r) in activate_all refs
  end.
(** The closure [setup]: an error drops the leases taken so far. *)
Definition setup (owner : ActorRef) (python_target : option ActorRef) :
    result (ActorRef * ActorRef * ActorRef * (N * N * N)) :=
  try! source := world (allocate EndpointKind.Native (Some owner)) in
  try! counter := world (allocate EndpointKind.Native (Some owner)) in
  try! sink := world (allocate EndpointKind.Native (Some owner)) in
  try! _ := world (subscribe source counter) in
  try! _ := world (subscribe counter sink) in
  try! _ := match python_target with
    | Some target => try! _ := world (subscribe counter target) in ok tt
    | None => ok tt
    end in
  try! source_lease := world (track_task owner) in
  releasing (drop_lease source_lease) (
    try! counter_lease := world (track_task owner) in
    releasing (drop_lease counter_lease) (
      try! sink_lease := world (track_task owner) in
      releasing (drop_lease sink_lease) (
        try! _ := activate_all [source; counter; sink; owner] in
        ok (source, counter, sink, (source_lease, counter_lease, sink_lease))))).
Definition bad_interval (d : N) : bool := (d =? 0)%N || (max_period <? d)%N.
Definition start_counter (opened : bool) (parent : option ActorRef) (interval window : N)
    (python_target : option ActorRef) : prog (string + CounterPipeline) :=
  if bad_interval interval || bad_interval window
  then Ret (inl "interval and window must be positive and at most 24 hours"%string) else
  if negb opened then Ret (inl "native runtime is closed"%string) else
  do! permit := do (TryAcquire Slots 3) in
  if negb permit then Ret (inl "native task limit reached"%string) else
  do! r := on_world (allocate EndpointKind.Native parent) in
  match r with
  | inl e => do (Release Slots 3) ;;> Ret (inl (Native.error_name e))
  | inr owner =>
      do! r := setup owner python_target in
      match r with
      | inl e =>
          on_world (stop owner) ;;>
          do (Release Slots 3) ;;>
          Ret (inl (Native.display e))
      | inr (source, counter, sink, (source_lease, counter_lease, sink_lease)) =>
          do! stats := do (Atomic (alloc_cell (Pipeline default_snapshot))) in
          Tasks.spawn 1 owner source_lease (source_task owner source stats source_lease) ;;>
          do! done := do (Atomic (alloc_cell (Flag false))) in
          Tasks.spawn 1 owner counter_lease (counter_task owner counter stats done counter_lease) ;;>
          Tasks.spawn 1 owner sink_lease (sink_task owner sink stats done sink_lease) ;;>
          Ret (inr (MkPipeline owner source counter sink stats))
      end
  end.
(** [CounterPipeline::stop]. *)
Definition stop_pipeline (p : CounterPipeline) : prog unit := on_world (stop (cp_owner p)) ;;> Ret tt.

(** ** The runtime's services *)

(** [waker]: the routing task's.  Every turn yields. *)
Definition routing_service (waker : N) : prog unit :=
  loop (λ _ : unit,
    do! r := on_world (poll_routing_ready waker) in
    match r with
    | inr RoutingReady =>
        on_world route_batch ;;>
        await ;;>
        Ret (inl tt)
    | inr RoutingPending => await ;;> Ret (inl tt)
    | _ => Ret (inr tt)
    end) tt.
Definition maintain_now : prog unit :=
  do! t := world_now in
  on_world (maintain t) ;;>
  Ret tt.
Definition control_service : prog unit :=
  loop (λ _ : unit,
    tick ;;>
    maintain_now ;;>
    Ret (inl tt : unit + unit)) tt.

(** ** Closing *)
Definition active_tasks (max : N) : prog N :=
  do! available := do (AvailablePermits Slots) in
  Ret (max - available)%N.
Definition wait_native_idle (max timeout : N) : prog bool :=
  do! t := do Now in
  match checked_add instant_max t timeout with
  | None => Ret false
  | Some deadline =>
      loop (λ _ : unit,
        do! active := active_tasks max in
        do! pending := (if (0 <? active)%N then Ret (inr 0%N) else on_world (gets (E:=error) routing_pending)) in
        if (0 <? active)%N || match pending with inr n => 0 <? n | inl _ => false end%N then
          do! now := do Now in
          Ret (if (deadline <=? now)%N then inr false else inl tt)
        else
        maintain_now ;;>
        Ret (inr true)) tt
  end.
(** [opened] and [timed_out]: the runtime has not been closed before; a shutdown timed
    out.  Aborts need no action: a task may be dropped at any [await]. *)
Definition close (opened timed_out : bool) (max timeout : N) : prog (string + (StopReport * bool)) :=
  do! t := do Now in
  match checked_add instant_max t timeout with
  | None => Ret (inl "shutdown duration overflow"%string)
  | Some deadline =>
      do! initial := on_world Actors.close in
      match initial with
      | inl _ => Halt HPoisoned (* never: closing a World does not fail *)
      | inr initial =>
          do (Close Slots) ;;>
          if negb opened then Ret (inr (initial <| sp_timed_out ::= λ b, b || timed_out |>, timed_out)) else
          loop (λ _ : unit,
            do! active := active_tasks max in
            if (active =? 0)%N then Ret (inr tt) else
            do! now := do Now in
            Ret (if (deadline <=? now)%N then inr tt else inl tt)) tt ;;>
          do! active := active_tasks max in
          let timed_out := timed_out || (0 <? active)%N in
          do! report := on_world (gets (E:=error) world_report) in
          match report with
          | inl _ => Halt HPoisoned (* never: reading the report does not fail *)
          | inr report =>
              Ret (inr (report <| sp_discarded := sp_discarded initial |> <| sp_timed_out ::= λ b, b || timed_out |>, timed_out))
          end
      end
  end.
End Pipelines.
Import Pipelines.

(** ** The permits of the pipeline *)
Lemma quiet_drop_ticket ticket : quiet (drop_ticket ticket).
Proof. unfold drop_ticket. quiet. Qed.
Lemma quiet_publishing m : quiet (publishing m).
Proof. unfold publishing. apply quiet_bind; [apply quiet_on_world|]. intros [e|t]; [apply quiet_ret|apply quiet_drop_ticket]. Qed.
Lemma quiet_on_snapshot id f : quiet (on_snapshot id f).
Proof. apply quiet_atomic. Qed.
Lemma quiet_drop_flag id : quiet (drop_flag id).
Proof. apply quiet_atomic. Qed.
#[export] Hint Resolve quiet_drop_ticket quiet_publishing quiet_on_snapshot quiet_drop_flag quiet_claim_from : quiet.
Lemma bal_wait_ready owner allow : bal true (wait_ready owner allow).
Proof. unfold wait_ready. balance. Qed.
Lemma bal_select async : bal async select_ticks.
Proof. unfold select_ticks. balance. Qed.
Lemma bal_tick : bal true tick.
Proof. unfold tick. balance. Qed.
#[export] Hint Resolve bal_wait_ready bal_select bal_tick : bal.
Section pipeline_logic.
Context (owner source counter sink : ActorRef) (stats done : N).
Lemma bal_count_batch async n : ∀ count total, bal async (count_batch owner counter stats n count total).
Proof.
  induction n as [|n IH]; intros count total; cbn [count_batch]; [apply bal_ret|]. balance.
Qed.
Lemma bal_sink_batch async n state : bal async (sink_batch owner sink stats done n state).
Proof.
  induction n as [|n IH]; cbn [sink_batch]; [apply bal_ret|]. unfold load_flag. balance.
Qed.
#[local] Hint Resolve bal_count_batch bal_sink_batch : bal.
Lemma source_ok lease : future_ok [] (source_task owner source stats lease).
Proof.
  split; [done| |apply bal_ret]. apply bal_finally; [|apply quiet_bal; auto with quiet].
  unfold wait_active, source_round, pulse. balance.
Qed.
Lemma counter_ok lease : future_ok [] (counter_task owner counter stats done lease).
Proof.
  split; [done| |apply quiet_bal, quiet_drop_flag].
  apply bal_finally; [apply bal_finally|]; [|apply quiet_bal; auto with quiet..].
  unfold counter_round, summarize. balance.
Qed.
Lemma sink_ok lease : future_ok [] (sink_task owner sink stats done lease).
Proof.
  split; [done| |apply bal_ret]. apply bal_finally; [|apply quiet_bal; auto with quiet].
  unfold sink_round. balance.
Qed.
End pipeline_logic.
Lemma quiet_rbind {E A B} (m : prog (E + A)) (k : A → prog (E + B)) : quiet m → (∀ a, quiet (k a)) → quiet (rbind m k).
Proof. intros Hm Hk. apply quiet_bind; [done|]. intros [e|a]; [apply quiet_ret|apply Hk]. Qed.
Lemma quiet_activate_all refs : quiet (activate_all refs).
Proof. induction refs as [|r refs IH]; simpl; [apply quiet_ret|]. apply quiet_rbind; [apply quiet_world|done]. Qed.
Lemma quiet_setup owner target : quiet (setup owner target).
Proof.
  unfold setup. repeat first
    [ apply quiet_world | apply quiet_activate_all | apply quiet_drop_lease | apply quiet_ret
    | apply quiet_rbind; [|intros ?] | apply quiet_releasing | match goal with |- quiet (match ?x with _ => _ end) => destruct x end ].
Qed.
Lemma wp_spawn_task t h1 h2 owner lease fut {A} (k : prog A) h Q E :
  future_ok t fut → h ≡ₚ h1 ++ h2 → h1 = TPermit Slots :: t → fits h → wp k h2 Q E →
  wp (Tasks.spawn 1 owner lease fut ;;> k) h Q E.
Proof. intros Hok Hp -> Hf Hk. split; [done|]. exists (TPermit Slots :: t), h2. split_and!; [done|by apply task_ok|done]. Qed.
Lemma bal_start_counter opened parent interval window target : bal true (start_counter opened parent interval window target).
Proof.
  unfold start_counter. case_match; [apply bal_ret|]. case_match; [apply bal_ret|].
  split; [done|]. cbn [act_wp]. split; [|by split]. cbn [negb pbind].
  assert (∀ {A} (a : A), wp (do (Release Slots 3) ;;> Ret a) (replicate 3 (TPermit Slots) ++ []) (λ _, spent) (ends true)) as Hrelease.
  { intros A a. split; [fit|]. cbn [act_wp]. vm_compute take_tokens. simpl. by split. }
  assert (fits (replicate 3 (TPermit Slots) ++ [])) as Hf by fit.
  apply wp_bind, wp_on_world; [done| |done]. intros [e|owner]; [apply Hrelease|].
  apply wp_bind, quiet_use; [apply quiet_setup|done| |done]. intros [e|[[[source counter] sink] [[l1 l2] l3]]].
  { apply wp_bind, wp_on_world; [done| |done]. intros _. apply Hrelease. }
  apply wp_bind, quiet_use; [apply quiet_atomic|done| |done]. intros stats.
  apply (wp_spawn_task [] [TPermit Slots] [TPermit Slots; TPermit Slots]); [apply source_ok|done..|].
  apply wp_bind, quiet_use; [apply quiet_atomic|fit| |done]. intros flag.
  apply (wp_spawn_task [] [TPermit Slots] [TPermit Slots]); [apply counter_ok|done|done|fit|].
  apply (wp_spawn_task [] [TPermit Slots] []); [apply sink_ok|done|done|fit|]. by split.
Qed.
Lemma bal_maintain async : bal async maintain_now.
Proof. apply quiet_bal. apply quiet_bind; [apply quiet_world_now|]. intros t. apply quiet_bind; [apply quiet_on_world|]. intros; apply quiet_ret. Qed.
#[export] Hint Resolve bal_maintain : bal.
Lemma bal_routing_service waker : bal true (routing_service waker).
Proof. unfold routing_service. balance. Qed.
Lemma bal_control_service : bal true control_service.
Proof. unfold control_service. balance. Qed.
Lemma bal_active_tasks max : bal true (active_tasks max).
Proof. unfold active_tasks. balance. Qed.
#[export] Hint Resolve bal_active_tasks : bal.
Lemma bal_wait_native_idle max timeout : bal true (wait_native_idle max timeout).
Proof. unfold wait_native_idle. balance. Qed.
Lemma bal_close_runtime opened timed_out max timeout : bal true (close opened timed_out max timeout).
Proof. unfold close. repeat (bal_step || apply bal_close || cbv zeta). Qed.
