(* ===== verification/TcpFrames.v ===== *)
(** * TCP configuration and the frame schema

    [runtime-native/src/io/mod.rs]: the configuration of a listener and its limits, the
    schema [actorplane.TcpFrame], payloads made from frames and frames taken from
    payloads, and the echo component.  [frame_payload_exact]: what goes in comes out. *)
From S2P Require Import Prelude.
From S2P Require Import Collections.
From S2P Require Import Text.
From S2P Require Import Types.
From S2P Require Import Schema.
From S2P Require Import SchemaCodec.
From S2P Require Import SchemaRegistry.
From S2P Require Import Metadata.
From S2P Require Import Diagnostics.
From S2P Require Import WorldState.
From S2P Require Import Admission.
From S2P Require Import Messaging.
From S2P Require Import NativeConfig.
From S2P Require Import NativeState.
From S2P Require Import Native.
From S2P Require Import NativeLogic.
From S2P Require Import Cpu.
From S2P Require Import Tasks.
From S2P Require Import Sdk.
From S2P Require Import Executor.
From S2P Require Import NativeRules.
From S2P Require Import SdkLogic.
From S2P Require Import Computation.

(** ** Configuration *)
Definition max_frame_bytes_limit : N := 65536.
(** [std::net::SocketAddr]. *)
Inductive SocketAddr := SocketV4 (ip port : N) | SocketV6 (ip port flowinfo scope : N).
Definition localhost : N := 127 * 2 ^ 24 + 1.
Record TcpConfig := MkTcpConfig {
  tc_bind : SocketAddr; tc_max_connections : N; tc_max_frame_bytes : N; tc_read_buffer_bytes : N;
  tc_write_buffer_bytes : N; tc_read_timeout : N; tc_request_timeout : N; tc_write_timeout : N }.
Inductive tcp_error :=
| TcpInvalidConfig | TcpVirtualRuntime | TcpClosed | TcpTaskLimit | TcpBind (kind : N) | TcpCore (e : error) | TcpSchema.
Module TcpConfigs.
Definition default : TcpConfig :=
  MkTcpConfig (SocketV4 localhost 0) 16 16384 1048576 1048576 (seconds 5) (seconds 1) (seconds 5).
Definition bad_timeout (period : N) : bool := (period =? 0)%N || (seconds 86400 <? period)%N.
Definition validate (c : TcpConfig) : tcp_error + unit :=
  if negb (in_range 1 1024 (tc_max_connections c)) ||
     negb (in_range 1 max_frame_bytes_limit (tc_max_frame_bytes c)) ||
     negb (in_range 1 (64 * 1024 * 1024) (tc_read_buffer_bytes c)) ||
     negb (in_range 1 (64 * 1024 * 1024) (tc_write_buffer_bytes c)) ||
     existsb bad_timeout [tc_read_timeout c; tc_request_timeout c; tc_write_timeout c]
  then inl TcpInvalidConfig else inr tt.
End TcpConfigs.

(** ** Frames as events *)
Definition frame_schema : Schema :=
  MkSchema "actorplane.TcpFrame" 1 [MkField "data" (TyBytes max_frame_bytes_limit)].
(** [Result::map_err]. *)
Definition with_error {E E' A} (f : E → E') (m : M World E A) : M World E' A := λ w,
  match m w with (Ok a, w) => (Ok a, w) | (Err e, w) => (Err (f e), w) | (Panic, w) => (Panic, w) end.
Definition register_frame : M World tcp_error N :=
  let! ids := with_error (λ _, TcpSchema) (register_schemas [frame_schema]) in
  expect (head ids).
Section payload.
(** [Vec::try_reserve_exact]. *)
Context (try_reserve_exact : N → option N).
Definition frame_payload (schema : N) (data : list byte) : M World tcp_error Payload :=
  reject_if (max_frame_bytes_limit <? N.of_nat (length data))%N TcpInvalidConfig ;;;
  ok_or TcpInvalidConfig (try_reserve_exact (4 + N.of_nat (length data))%N) ;;;
  with_error (λ _, TcpSchema)
    (structured schema (le_encode 4 (N.of_nat (length data) mod 2 ^ 32) ++ data)).
End payload.
Definition frame_bytes (payload : Payload) (schema : N) : tcp_error + list byte :=
  match payload with
  | Structured record =>
      if negb (sr_schema record =? schema)%N || (N.of_nat (length (sr_bytes record)) <? 4)%N then inl TcpSchema else
      let length' := le_decode (take 4 (sr_bytes record)) in
      if (max_frame_bytes_limit <? length')%N || negb (N.of_nat (length (sr_bytes record)) =? 4 + length')%N
      then inl TcpSchema else
      inr (drop 4 (sr_bytes record))
  | _ => inl TcpSchema
  end.

(** ** Echo *)
Inductive Echo := MkEcho.
Module Echoes.
Definition on_event (c : Echo) (payload : Payload) (cx : NativeContext) : prog (hooked Echo unit) :=
  do! (r, _) := Context.reply payload cx in
  match r with
  | inl e => Ret (c, Some (inl e))
  | inr _ => Ret (c, Some (inr tt))
  end.
#[export] Instance behavior : NativeBehavior Echo := {|
  Executor.on_start c _ := SumSquares.nothing c tt;
  Executor.on_event := on_event;
  Executor.on_tick c _ := SumSquares.nothing c tt;
  Executor.on_quiesce c _ := SumSquares.nothing c tt;
  Executor.on_failure c _ _ _ := SumSquares.nothing c FailureAction.StopWorld;
  Executor.on_drain c _ := SumSquares.nothing c tt;
  Executor.on_stop c _ := SumSquares.nothing c tt;
  drop_component _ := Ret tt |}.
Definition spec (schema : N) : NativeSpec :=
  Spec.new (MkDescriptor "TcpEcho" 1 [MkPortSpec "requests" Input (TStructured schema)] [])
    (MkSchema "TcpEcho.Config" 1 []).
Definition prepare_tcp_echo (opened cpu : bool) (parent : option ActorRef) : result Executor.NativeHandle :=
  do! schema := on_world register_frame in
  match schema with
  | inl _ => err (Native.Application "TcpSchema")
  | inr schema =>
      Executor.prepare_native (C:=Echo) opened cpu parent (spec schema) (VRecord []) (λ _, Ret (inr MkEcho))
  end.
End Echoes.
Import Echoes.

(** ** The encoding of a frame *)
Definition canonical_frame (data : list byte) : list byte := le_encode 4 (N.of_nat (length data)) ++ data.
(** Whether [data] becomes an event of a World with this configuration. *)
Definition framed (tre : N → option N) (w : World) (schema : N) (data : list byte) : outcome tcp_error Payload :=
  let n := N.of_nat (length data) in
  if (max_frame_bytes_limit <? n)%N then Err TcpInvalidConfig else
  match tre (4 + n)%N with
  | None => Err TcpInvalidConfig
  | Some _ =>
      if (max_event_bytes (w_cfg w) <? 8 + n)%N then Err TcpSchema
      else Ok (Structured (MkStructured (w_id w) schema (canonical_frame data)))
  end.
Lemma small_length n : (n ≤ max_frame_bytes_limit)%N → (n mod 2 ^ 32 = n)%N ∧ (n < 256 ^ N.of_nat 4)%N.
Proof. intros Hn. rewrite pow_256_4. unfold max_frame_bytes_limit in Hn. split; [apply N.mod_small|]; lia. Qed.
Lemma length_u32 n : length (Encode.u32_bytes n) = 4.
Proof. unfold Encode.u32_bytes. by rewrite length_le_encode. Qed.
Lemma data_written data max n :
  (N.of_nat (length data) ≤ max_frame_bytes_limit)%N → (4 + N.of_nat (length data) ≤ max ≤ max_event)%N → n = 1%N →
  Encode.val max (TyBytes max_frame_bytes_limit) (VBytes data) 1 (MkWriter [] n) =
    (Ok tt, MkWriter (canonical_frame data) 2).
Proof.
  intros Hn Hmax ->. cbn [Encode.val]. rewrite (bind_run _ _ _ _ _ (node_run 1 (MkWriter [] 1) ltac:(done) ltac:(done))).
  cbn zeta. rewrite (bind_run _ _ _ tt _) by (apply reject_if_run; lia).
  rewrite (bind_run _ _ _ tt (MkWriter (Encode.u32_bytes (N.of_nat (length data))) 2))
    by (rewrite add_run; [done|rewrite length_u32; simpl; lia|lia]).
  rewrite add_run; cbn [wr_out wr_nodes]; [|rewrite length_u32; lia|lia].
  unfold Encode.u32_bytes, canonical_frame. by rewrite (proj1 (small_length _ Hn)).
Qed.
Lemma frame_encodes data max :
  (N.of_nat (length data) ≤ max_frame_bytes_limit)%N → (4 + N.of_nat (length data) ≤ max ≤ max_event)%N →
  Encode.encode frame_schema (VRecord [VBytes data]) max = Ok (canonical_frame data).
Proof.
  intros Hn Hmax. unfold Encode.encode.
  replace (SchemaCheck.validate frame_schema) with (Ok (E:=string) tt) by (vm_compute; reflexivity).
  replace (max_event <? max)%N with false by lia. unfold map_err at 1. unfold frame_schema. cbn [Encode.record].
  rewrite (bind_run _ _ _ _ _ (node_run 0 (MkWriter [] 0) ltac:(done) ltac:(done))).
  rewrite (bind_run _ _ _ tt _) by (apply reject_if_run; done).
  cbn [Encode.fields]. rewrite (bind_run _ _ _ tt (MkWriter (canonical_frame data) 2)); [done|].
  unfold map_err. change (0 + 1)%N with 1%N. by rewrite data_written.
Qed.
Lemma frame_accepted data :
  (N.of_nat (length data) ≤ max_frame_bytes_limit)%N →
  Decode.validate_registered_bytes frame_schema (canonical_frame data) = Ok tt.
Proof.
  intros Hn. assert (Decode.decode frame_schema (canonical_frame data) = Ok (VRecord [VBytes data])) as Hd.
  { apply (read_roundtrip _ (VRecord [VBytes data]) max_event); [done|]. apply frame_encodes; [done|].
    unfold max_event, max_frame_bytes_limit in *. lia. }
  unfold Decode.decode in Hd. destruct (SchemaCheck.validate frame_schema); [|done..].
  unfold Decode.validate_registered_bytes. pose proof (read_same frame_schema (canonical_frame data)) as Hs.
  rewrite Hd in Hs. by destruct (Decode.read false _ _).
Qed.
Lemma length_canonical data : length (canonical_frame data) = 4 + length data.
Proof. unfold canonical_frame. by rewrite length_app, length_le_encode. Qed.

(** ** Payloads *)
Lemma frame_payload_run tre w schema data :
  Registry.schema (w_schemas w) schema = Ok frame_schema →
  frame_payload tre schema data w = (framed tre w schema data, w).
Proof.
  intros Hs. unfold frame_payload, framed. 
  unfold bind at 1, reject_if. destruct (max_frame_bytes_limit <? _)%N eqn:Hn; [done|]. unfold ret at 1.
  unfold bind at 1, ok_or. destruct (tre _) as [c|]; [|done]. unfold ret at 1.
  unfold with_error, structured. unfold bind at 1, get. unfold bind at 1, reject_if.
  assert (N.of_nat (length data) ≤ max_frame_bytes_limit)%N as Hle by lia.
  rewrite (proj1 (small_length _ Hle)). fold (canonical_frame data). rewrite length_canonical.
  unfold saturating_add, usize_max, u64_max in *. unfold max_frame_bytes_limit in *.
  replace (N.min _ _) with (8 + N.of_nat (length data))%N by lia.
  destruct (max_event_bytes (w_cfg w) <? _)%N; [done|]. unfold ret at 1.
  unfold bind at 1, of_outcome. rewrite Hs. unfold bind, of_outcome. by rewrite frame_accepted.
Qed.
Lemma take_canonical data : take 4 (canonical_frame data) = le_encode 4 (N.of_nat (length data)).
Proof. unfold canonical_frame. by rewrite take_app_le, take_ge by (rewrite length_le_encode; lia). Qed.
Lemma frame_bytes_exact payload schema data :
  frame_bytes payload schema = inr data ↔
  (N.of_nat (length data) ≤ max_frame_bytes_limit)%N ∧ ∃ world, payload = Structured (MkStructured world schema (canonical_frame data)).
Proof.
  split.
  - intros H. destruct payload as [| | |[world id bytes]]; try discriminate H. unfold frame_bytes in H. cbn [sr_schema sr_bytes] in H. cbv zeta in H.
    destruct (negb (id =? schema)%N || _) eqn:H1; [done|]. destruct (_ || negb _) eqn:H2; [done|]. injection H as <-.
    apply orb_false_iff in H1 as [H1 H4]. apply orb_false_iff in H2 as [H2 H3].
    apply negb_false_iff, N.eqb_eq in H1 as ->. apply negb_false_iff, N.eqb_eq in H3. 
    assert (N.of_nat (length (drop 4 bytes)) = le_decode (take 4 bytes)) as Hd by (rewrite length_drop; lia).
    split; [lia|]. exists world. do 2 f_equal. unfold canonical_frame. rewrite Hd.
    rewrite <- (take_drop 4 bytes) at 1. f_equal.
    rewrite <- (le_encode_decode (take 4 bytes)) at 1. by rewrite length_take_le by lia.
  - intros [Hn [world ->]]. unfold frame_bytes. cbn [sr_schema sr_bytes]. rewrite N.eqb_refl, length_canonical, take_canonical.
    rewrite le_decode_encode by by apply small_length. cbn [negb orb].
    replace (_ <? 4)%N with false by lia. replace (max_frame_bytes_limit <? _)%N with false by lia.
    replace (_ =? _)%N with true by lia. cbn [negb orb]. unfold canonical_frame.
    by rewrite <- (length_le_encode 4 (N.of_nat (length data))) at 1; rewrite drop_app_length.
Qed.
Lemma register_frame_ok w w' schema :
  registry_wf (w_schemas w) → register_frame w = (Ok schema, w') → Registry.schema (w_schemas w') schema = Ok frame_schema.
Proof.
  intros Hwf. unfold register_frame, bind, with_error, register_schemas. unfold bind, get.
  unfold reject_if. destruct (_ && _); [done|]. unfold ret, zoom.
  pose proof (register_batch_ok [frame_schema] _ Hwf) as Hs.
  destruct (Registry.register_batch [frame_schema] (w_schemas w)) as [[ids|e|] r]; [|done..].
  destruct Hs as [[_ _ [m Hm]] (_ & _ & _ & Hids)]. cbn [fst snd] in *. inversion Hids as [|? id ? ? Hid Hnil]; subst.
  unfold expect. simpl. intros [= <- <-]. simpl. eapply schema_lookup; [exact Hm|exact Hid].
Qed.

(** C24. A frame becomes an event and back unchanged.  Once [TcpFrame] is registered,
    [frame_payload] accepts exactly the data within the frame limit, the allocator and
    the event limit of the World, and changes nothing; the event is the canonical
    encoding of the record with that data.  [frame_bytes] takes exactly such events
    apart, so the data of an accepted frame comes out of its event, and every other
    payload is refused. *)
Theorem frame_payload_exact tre w w' schema data :
  registry_wf (w_schemas w) → register_frame w = (Ok schema, w') →
  frame_payload tre schema data w' = (framed tre w' schema data, w') ∧
  (∀ p, framed tre w' schema data = Ok p → frame_bytes p schema = inr data) ∧
  (∀ p data', frame_bytes p schema = inr data' ↔
    (N.of_nat (length data') ≤ max_frame_bytes_limit)%N ∧
    ∃ world bytes, p = Structured (MkStructured world schema bytes) ∧
                   Encode.encode frame_schema (VRecord [VBytes data']) max_event = Ok bytes).
Proof.
  intros Hwf Hreg. pose proof (register_frame_ok _ _ _ Hwf Hreg) as Hs.
  assert (∀ d : list byte, (N.of_nat (length d) ≤ max_frame_bytes_limit)%N →
    Encode.encode frame_schema (VRecord [VBytes d]) max_event = Ok (canonical_frame d)) as Henc.
  { intros d Hd. apply frame_encodes; [done|]. unfold max_event, max_frame_bytes_limit in *. lia. }
  split_and!; [by apply frame_payload_run| |].
  - intros p. unfold framed. repeat case_match; intros; simplify_eq. apply frame_bytes_exact. split; [lia|by eexists].
  - intros p d. rewrite frame_bytes_exact. split.
    + intros [Hd [world ->]]. split; [done|]. exists world, (canonical_frame d). auto.
    + intros (Hd & world & bytes & -> & Hb). rewrite Henc in Hb by done. simplify_eq. split; [done|by exists world].
Qed.
Definition frame_world : option World :=
  match with_clock 1 config_default (Clocks.system 5 []) with Ok w => Some w | _ => None end.
Lemma frame_payload_exact_witness :
  ∃ w w' schema p, frame_world = Some w ∧ register_frame w = (Ok schema, w') ∧
    frame_payload Some schema [byte_of 7; byte_of 8] w' = (Ok p, w') ∧ frame_bytes p schema = inr [byte_of 7; byte_of 8].
Proof.
  destruct frame_world as [w|] eqn:Hw; [|vm_compute in Hw; discriminate].
  assert (let '(r, w') := register_frame w in
    match r with Ok s => match framed Some w' s [byte_of 7; byte_of 8] with Ok _ => true | _ => false end | _ => false end = true)
    as Hrun by (injection Hw as <-; vm_compute; reflexivity).
  destruct (register_frame w) as [[schema|e|] w'] eqn:Hr; [|discriminate..].
  destruct (framed Some w' schema [byte_of 7; byte_of 8]) as [p|e|] eqn:Hf; [|discriminate..]. clear Hrun.
  assert (registry_wf (w_schemas w)) as Hwf.
  { injection Hw as <-. apply (registry_new_wf 128). vm_compute. reflexivity. }
  destruct (frame_payload_exact Some w w' schema [byte_of 7; byte_of 8] Hwf Hr) as (Hrun & Hback & _).
  exists w, w', schema, p. rewrite Hrun, Hf. auto.
Defined.

(** ** The echo component *)
#[export] Instance echo_code : BehaviorCode Echo.
Proof.
  split; intros; try apply nothing_code; [|constructor].
  apply code_bind; [exact (code_prim _ _ (hook_reply cx p))|].
  intros [[e|[]] cx']; apply code_prim, hook_app; constructor.
Qed.
