(* ===== verification/Tcp.v ===== *)
(** * The TCP transport

    [runtime-native/src/io/transport.rs]: a listener accepts connections, and each
    connection reads a frame, sends it as a request, waits for the reply and writes it
    back, one request at a time.  Every phase waits for the socket or the reply, for a
    timeout, and for the connection's endpoint to leave its lifecycle ([stage]);
    frames are charged to the listener's read and write budgets while they are held.

    Sockets are those of tokio: [TcpNetwork], with the streams of [Framing]; what a
    connection reads is decided by its stream, when it does so by the schedule. *)
From S2P Require Import Prelude.
From S2P Require Import Collections.
From S2P Require Import Text.
From S2P Require Import Types.
From S2P Require Import Metadata.
From S2P Require Import Diagnostics.
From S2P Require Import Schema.
From S2P Require Import Operations.
From S2P Require Import WorldState.
From S2P Require Import Activity.
From S2P Require Import Admission.
From S2P Require Import Actors.
From S2P Require Import Messaging.
From S2P Require Import Components.
From S2P Require Import Views.
From S2P Require Import Framing.
From S2P Require Import NativeConfig.
From S2P Require Import NativeState.
From S2P Require Import Native.
From S2P Require Import NativeLogic.
From S2P Require Import Cpu.
From S2P Require Import Tasks.
From S2P Require Import Sdk.
From S2P Require Import Executor.
From S2P Require Import Pipeline.
From S2P Require Import TcpFrames.
Import Pipelines (increment, wait_active, maintain_now).

(** ** Sockets *)

(** [std::net::TcpListener::bind] and [set_nonblocking], and tokio's listener; an error
    is its [ErrorKind]. *)
Class TcpNetwork (L S : Type) := {
  bind_to : SocketAddr → N + L;
  set_nonblocking : L → N + L;
  local_addr : L → N + SocketAddr;
  from_std : L → N + L;
  accept : L → (N + S) * L;
}.

(** ** Shared budgets

    [framing.rs] again, now with budgets that many connections charge at once: the
    counter is one of [rt_budgets], and a budget of the World also has its permits. *)
Record Budget := MkSharedBudget { bu_id : N; bu_world : bool }.
Module Shares.
Definition reserve_local (b : Budget) (bytes : N) : prog (frame_error + BufferPermit) :=
  do! charged := do (Charge (bu_id b) bytes) in
  Ret (if charged : bool then inr (MkBufferPermit bytes None) else inl FrBudgetExceeded).
Definition drop_permit (b : Budget) (p : BufferPermit) : prog unit :=
  do (Uncharge (bu_id b) (bp_charged p)) ;;>
  match bp_native p with
  | Some handle => on_world (Buffers.drop_permit handle) ;;> Ret tt
  | None => Ret tt
  end.
Definition reserve (b : Budget) (bytes : N) : prog (frame_error + BufferPermit) :=
  try! permit := reserve_local b bytes in
  if bu_world b then
    releasing (drop_permit b permit) (
      do! native := on_world (Buffers.reserve bytes) in
      match native with
      | inr handle => Ret (inr (permit <| bp_native := Some handle |>))
      | inl _ => Ret (inl FrBudgetExceeded)
      end)
  else Ret (inr permit).
(** The permit is the caller's, who drops it when this fails. *)
Definition grow (b : Budget) (p : BufferPermit) (bytes : N) : prog (frame_error + BufferPermit) :=
  if (bytes =? 0)%N then Ret (inr p) else
  match checked_add usize_max (bp_charged p) bytes with
  | None => Ret (inl FrBudgetExceeded)
  | Some charged =>
      try! extra := reserve_local b bytes in
      match bp_native p with
      | Some handle =>
          releasing (drop_permit b extra) (
            do! grown := on_world (Buffers.try_grow handle bytes) in
            match grown with
            | inr _ => Ret (inr (p <| bp_charged := charged |>))
            | inl _ => Ret (inl FrBudgetExceeded)
            end)
      | None => Ret (inr (p <| bp_charged := charged |>))
      end
  end.
End Shares.

Section transport.
Context {L S : Type} `{!TcpNetwork L S, !AsyncReader S, !AsyncWriter S}.
Context (try_reserve_exact : N → option N).

(** ** Frames *)

(** [read_exact_frame]; a [read] may be pending, and its future dropped. *)
Definition read_round : S * N * list byte → prog (S * N * list byte + S * (frame_error + option (list byte))) :=
  λ '(s, missing, bytes),
  if (missing =? 0)%N then Ret (inr (s, inr (Some bytes))) else
  await ;;>
  Ret match read s missing with
      | (inl kind, s) => inr (s, inl (FrIo kind))
      | (inr [], s) => inr (s, match bytes with [] => inr None | _ => inl FrTruncated end)
      | (inr chunk, s) => inl (s, missing - N.of_nat (length chunk), bytes ++ chunk)%N
      end.
Definition read_exact (s : S) (n : N) : prog (S * (frame_error + option (list byte))) := loop read_round (s, n, []).
(** Once the permit is there it is dropped on every way out but the last. *)
Definition read_body (b : Budget) (s : S) (n : N) (permit : BufferPermit) : prog (S * (frame_error + FrameBuffer)) :=
  do! (s, bytes) := unwinding (read_exact s n) (Shares.drop_permit b permit) in
  match bytes with
  | inr (Some bytes) => Ret (s, inr (MkFrameBuffer bytes permit))
  | inr None => Shares.drop_permit b permit ;;> Ret (s, inl FrTruncated)
  | inl e => Shares.drop_permit b permit ;;> Ret (s, inl e)
  end.
Definition room (b : Budget) (n : N) : prog (frame_error + BufferPermit) :=
  try! permit := Shares.reserve b n in
  releasing (Shares.drop_permit b permit)
    match try_reserve_exact n with
    | None => Ret (inl FrAllocationFailed)
    | Some actual => if (n <? actual)%N then Shares.grow b permit (actual - n) else Ret (inr permit)
    end.
Definition read_frame (b : Budget) (max_frame_bytes : N) (s : S) : prog (S * (frame_error + option FrameBuffer)) :=
  do! (s, header) := read_exact s 4 in
  match header with
  | inl e => Ret (s, inl e)
  | inr None => Ret (s, inr None)
  | inr (Some header) =>
      let n := from_be_bytes header in
      if (max_frame_bytes <? n)%N then Ret (s, inl FrTooLarge) else
      if (isize_max <? n)%N then Ret (s, inl FrInvalidConfig) else
      do! permit := room b n in
      match permit with
      | inl e => Ret (s, inl e)
      | inr permit =>
          do! (s, frame) := read_body b s n permit in
          Ret (s, match frame with inr f => inr (Some f) | inl e => inl e end)
      end
  end.
Definition write_frame (s : S) (payload : list byte) (max_frame_bytes : N) : prog (S * (frame_error + unit)) :=
  let n := N.of_nat (length payload) in
  if (max_frame_bytes <? n)%N || (u32_max <? n)%N then Ret (s, inl FrTooLarge) else
  await ;;>
  match write_all s (to_be_bytes n) with
  | (inl kind, s) => Ret (s, inl (FrIo kind))
  | (inr _, s) =>
      await ;;>
      Ret match write_all s payload with
          | (inl kind, s) => (s, inl (FrIo kind))
          | (inr _, s) => (s, inr tt)
          end
  end.

(** ** What a listener shares with its connections *)
Record TcpShared := MkTcpShared { tl_stats : N; tl_connections : N; tl_read : Budget; tl_write : Budget }.
Record TcpListenerHandle := MkTcpListener { th_owner : ActorRef; th_address : SocketAddr; th_shared : TcpShared }.
Definition on_tcp_stats (sh : TcpShared) (f : TcpStats → TcpStats) : prog unit :=
  do (Atomic (λ s, (tt, s <| sh_cells ::= alter (λ c, match c with TcpStatistics st => TcpStatistics (f st) | c => c end) (tl_stats sh) |>))).
Definition on_connections (sh : TcpShared) (f : gmap N ActorRef → gmap N ActorRef) : prog unit :=
  do (Atomic (λ s, (tt, s <| sh_cells ::= alter (λ c, match c with TcpConnections m => TcpConnections (f m) | c => c end) (tl_connections sh) |>))).
(** [TcpListenerHandle::stats], [connections], [read_buffer_bytes] and
    [write_buffer_bytes]. *)
Definition stats (h : TcpListenerHandle) : prog TcpStats :=
  do (Atomic (λ s, (match sh_cells s !! tl_stats (th_shared h) with Some (TcpStatistics st) => st | _ => default_tcp_stats end, s))).
Definition connections (h : TcpListenerHandle) : prog (list ActorRef) :=
  do (Atomic (λ s, (match sh_cells s !! tl_connections (th_shared h) with
                    | Some (TcpConnections m) => snd <$> map_to_list m
                    | _ => []
                    end, s))).
Definition read_buffer_bytes (h : TcpListenerHandle) : prog N := do (UsedBytes (bu_id (tl_read (th_shared h)))).
Definition write_buffer_bytes (h : TcpListenerHandle) : prog N := do (UsedBytes (bu_id (tl_write (th_shared h)))).

(** ** Waiting *)

(** One poll of [changed_out_of], with the waker of the task: whether it is ready. *)
Definition changed_out_of (owner : ActorRef) (allow_drain : bool) (waker : N) : prog bool :=
  do! version := on_world (activity owner) in
  match version with
  | inl _ => Ret true
  | inr version =>
      do! state := on_world (execution_state owner) in
      if match state with
         | inr Lifecycle.Active => true
         | inr Lifecycle.Quiescing => allow_drain
         | _ => false
         end
      then
        do! polled := on_world (poll_activity owner version waker) in
        Ret match polled with inr (Activity.Ready (inl _)) => true | inl _ => true | _ => false end
      else Ret true
  end.
Inductive tcp_end := EndCancel | EndDrain | EndTimeout.
(** A biased select: the other branches are polled before the future first is. *)
Definition biased {E} (check : prog (option E)) {A} (m : prog A) : prog (E + A) :=
  do! first := check in
  match first with
  | Some e => Ret (inl e)
  | None => selecting check m
  end.
Definition stage_check (owner : ActorRef) (deadline : N) (allow_drain : bool) (waker : N) : prog (option tcp_end) :=
  do! changed := changed_out_of owner allow_drain waker in
  if changed : bool then
    do! state := on_world (execution_state owner) in
    Ret (Some (if bool_decide (state = inr Lifecycle.Quiescing) then EndDrain else EndCancel))
  else
    do! now := do Now in
    Ret (if (deadline <=? now)%N then Some EndTimeout else None).
Definition stage (owner : ActorRef) (waker : N) (duration : N) (allow_drain : bool) {A} (future : prog A) : prog (tcp_end + A) :=
  do! now := do Now in
  biased (stage_check owner (now + duration)%N allow_drain waker) future.
Definition count_end (sh : TcpShared) (e : tcp_end) : prog unit :=
  on_tcp_stats sh (λ st, match e with
    | EndCancel => st <| tp_cancelled_connections ::= increment |>
    | EndDrain => st <| tp_drained_connections ::= increment |>
    | EndTimeout => st
    end).
Definition count_timeout (sh : TcpShared) (e : tcp_end) (f : TcpStats → TcpStats) : prog unit :=
  count_end sh e ;;>
  match e with EndTimeout => on_tcp_stats sh f | _ => Ret tt end.
Definition count_frame_error (sh : TcpShared) (e : frame_error) : prog unit :=
  on_tcp_stats sh (λ st, match e with
    | FrTooLarge => st <| tp_oversized_frames ::= increment |>
    | FrTruncated => st <| tp_truncated_frames ::= increment |>
    | FrBudgetExceeded | FrAllocationFailed => st <| tp_budget_rejections ::= increment |>
    | _ => st <| tp_read_errors ::= increment |>
    end).

(** ** Requests *)
Definition drop_request (id : OperationId) : prog unit :=
  on_world (cancel_operation id) ;;>
  do! taken := on_world (take_operation id) in
  match taken with
  | inr (Some (Operations.Completed held)) => drop_stored held
  | _ => Ret tt
  end.
(** The select of [await_reply]: whether the wait goes on, or the endpoint is gone. *)
Definition reply_wait (owner : ActorRef) (version waker : N) : prog bool :=
  loop (λ _ : unit,
    do! polled := on_world (poll_activity owner version waker) in
    match polled with
    | inr Activity.Pending =>
        do! fired := do Choose in
        if fired : bool then Ret (inr true) else await ;;> Ret (inl tt)
    | inr (Activity.Ready (inr _)) => Ret (inr true)
    | _ => Ret (inr false)
    end) tt.
Definition reply_round (owner : ActorRef) (id : OperationId) (deadline : Instant) (waker : N) (_ : unit) :
    prog (unit + option TerminalOutcome) :=
  do! t := world_now in
  (if (deadline <=? t)%N then maintain_now else Ret tt) ;;>
  do! version := on_world (activity owner) in
  match version with
  | inl _ => Ret (inr None)
  | inr version =>
      do! status := status_of id in
      match status with
      | inr (STerminal _) =>
          do! taken := on_world (take_operation id) in
          Ret (inr match taken with inr o => o | inl _ => None end)
      | inr (SPending _) =>
          do! goes_on := reply_wait owner version waker in
          if goes_on : bool then await ;;> Ret (inl tt) else Ret (inr None)
      | inl _ => Ret (inr None)
      end
  end.
Definition await_reply (owner : ActorRef) (id : OperationId) (deadline : Instant) (waker : N) : prog (option TerminalOutcome) :=
  loop (reply_round owner id deadline waker) tt.

(** ** A connection *)
Section connection.
Context (owner target : ActorRef) (config : TcpConfig) (sh : TcpShared) (schema waker : N).
(** A frame, or [None] when the connection ends. *)
Definition receive_frame (s : S) : prog (S * option FrameBuffer) :=
  do! input := stage owner waker (tc_read_timeout config) false (read_frame (tl_read sh) (tc_max_frame_bytes config) s) in
  match input with
  | inr (s, inr frame) => Ret (s, frame)
  | inr (s, inl e) => count_frame_error sh e ;;> Ret (s, None)
  | inl e => count_timeout sh e (λ st, st <| tp_read_timeouts ::= increment |>) ;;> Ret (s, None)
  end.
Definition refuse {A} : prog (option A) :=
  on_tcp_stats sh (λ st, st <| tp_admission_rejections ::= increment |>) ;;> Ret None.
(** The request, while the scratch space is reserved. *)
Definition request_frame (bytes : list byte) : prog (option (OperationId * Instant)) :=
  do! payload := on_world (frame_payload try_reserve_exact schema bytes) in
  match payload with
  | inl _ => refuse
  | inr payload =>
      do! t := world_now in
      match checked_add instant_max t (tc_request_timeout config) with
      | None => Halt HPanic
      | Some deadline =>
          do! id := on_world (request_with_port owner target payload deadline default_options None) in
          match id with
          | inl _ => refuse
          | inr id => Ret (Some (id, deadline))
          end
      end
  end.
Definition submit (input : FrameBuffer) : prog (option (OperationId * Instant)) :=
  let size := N.of_nat (length (fb_bytes input)) in
  on_tcp_stats sh (λ st, st <| tp_frames_received ::= increment |> <| tp_bytes_received ::= λ n, (n + size) mod 2 ^ 64 |>)%N ;;>
  do! id := finally (
    do! scratch := Shares.reserve (tl_read sh) (2 * (size + 4))%N in
    match scratch with
    | inl e => count_frame_error sh e ;;> Ret None
    | inr scratch => finally (request_frame (fb_bytes input)) (Shares.drop_permit (tl_read sh) scratch)
    end) (Shares.drop_permit (tl_read sh) (fb_permit input)) in
  match id with
  | Some _ => on_tcp_stats sh (λ st, st <| tp_requests_admitted ::= increment |>) ;;> Ret id
  | None => Ret None
  end.
Definition wait_reply (id : OperationId) (deadline : Instant) : prog (option HeldPayload) :=
  finally (
    do! result := biased (do! changed := changed_out_of owner true waker in
                          Ret (if changed : bool then Some EndCancel else None))
                    (await_reply owner id deadline waker) in
    match result with
    | inr (Some (Operations.Completed reply)) => Ret (Some reply)
    | inr (Some TimedOut) => on_tcp_stats sh (λ st, st <| tp_request_timeouts ::= increment |>) ;;> Ret None
    | inr _ => on_tcp_stats sh (λ st, st <| tp_failed_requests ::= increment |>) ;;> Ret None
    | inl e =>
        count_end sh e ;;>
        match e with
        | EndTimeout => maintain_now ;;> on_tcp_stats sh (λ st, st <| tp_request_timeouts ::= increment |>)
        | _ => Ret tt
        end ;;>
        Ret None
    end) (drop_request id).
(** The claim of the write: a running hook of the endpoint, or one of its drain. *)
Definition claim_write : prog (option N) :=
  do! claimed := on_world (Callbacks.claim_native_callback owner false) in
  match some_handle claimed with
  | Some claim => Ret (Some claim)
  | None =>
      do! claimed := on_world (Callbacks.claim_native_drain_callback owner) in
      Ret (some_handle claimed)
  end.
Definition write_reply (output : list byte) (s : S) : prog (option S) :=
  do! result := stage owner waker (tc_write_timeout config) true (write_frame s output (tc_max_frame_bytes config)) in
  match result with
  | inr (s, inr _) =>
      on_tcp_stats sh (λ st, st <| tp_frames_written ::= increment |>
                                <| tp_bytes_written ::= λ n, (n + N.of_nat (length output)) mod 2 ^ 64 |>)%N ;;>
      Ret (Some s)
  | inr (_, inl _) => on_tcp_stats sh (λ st, st <| tp_write_errors ::= increment |>) ;;> Ret None
  | inl e => count_timeout sh e (λ st, st <| tp_write_timeouts ::= increment |>) ;;> Ret None
  end.
Definition respond (reply : HeldPayload) (s : S) : prog (option S) :=
  finally (
    match frame_bytes (stored_payload (held_stored reply)) schema with
    | inr output =>
        if (tc_max_frame_bytes config <? N.of_nat (length output))%N
        then on_tcp_stats sh (λ st, st <| tp_invalid_replies ::= increment |>) ;;> Ret None
        else
        do! permit := Shares.reserve (tl_write sh) (N.of_nat (length output)) in
        match permit with
        | inl _ => on_tcp_stats sh (λ st, st <| tp_budget_rejections ::= increment |>) ;;> Ret None
        | inr permit =>
            finally (
              do! claim := claim_write in
              match claim with
              | None => on_tcp_stats sh (λ st, st <| tp_cancelled_connections ::= increment |>) ;;> Ret None
              | Some claim => finally (write_reply output s) (drop_claim claim)
              end) (Shares.drop_permit (tl_write sh) permit)
        end
    | inl _ => on_tcp_stats sh (λ st, st <| tp_invalid_replies ::= increment |>) ;;> Ret None
    end) (drop_stored reply).
Definition connection_round (s : S) : prog (S + unit) :=
  do! (s, input) := receive_frame s in
  match input with
  | None => Ret (inr tt)
  | Some input =>
      do! request := submit input in
      match request with
      | None => Ret (inr tt)
      | Some (id, deadline) =>
          do! reply := wait_reply id deadline in
          match reply with
          | None => Ret (inr tt)
          | Some reply =>
              do! rest := respond reply s in
              match rest with
              | None => Ret (inr tt)
              | Some s => await ;;> Ret (inl s)
              end
          end
      end
  end.
Definition connection_loop (s : S) : prog unit := loop connection_round s.
End connection.

(** ** The listener *)

(** [ConnectionGuard]: its destructor, then its connection slot. *)
Definition drop_guard (sh : TcpShared) (connection : ActorRef) (slots : N) : prog unit :=
  on_world (stop connection) ;;>
  on_connections sh (delete (ar_slot connection)) ;;>
  on_tcp_stats sh (λ st, st <| tp_closed_connections ::= increment |>) ;;>
  do (Release (Local slots) 1).
(** The closure drops the lease it is given, and its future owns the guard. *)
Definition connection_future (connection target : ActorRef) (config : TcpConfig) (sh : TcpShared) (schema slots lease : N)
    (stream : S) : closure unit := {|
  cl_call := drop_lease lease ;;>
             finally (connection_loop connection target config sh schema lease stream) (drop_guard sh connection slots);
  cl_drop := drop_guard sh connection slots |}.
Definition reject_connection (sh : TcpShared) : prog unit :=
  on_tcp_stats sh (λ st, st <| tp_rejected_connections ::= increment |>).
(** A connection is accepted when there is a connection slot, a task slot and an
    endpoint for it; what was taken before a refusal is given back. *)
Definition admit_connection (owner target : ActorRef) (config : TcpConfig) (sh : TcpShared) (schema slots : N) (stream : S) :
    prog unit :=
  do! slot := do (TryAcquire (Local slots) 1) in
  if negb slot then reject_connection sh else
  do! task := Tasks.permits 1 in
  match task with
  | inl _ => reject_connection sh ;;> do (Release (Local slots) 1)
  | inr _ =>
      do! connection := on_world (allocate EndpointKind.Native (Some owner)) in
      match connection with
      | inl _ => reject_connection sh ;;> do (Release Slots 1) ;;> do (Release (Local slots) 1)
      | inr connection =>
          do! tracked := on_world (track_task connection) in
          do! lease := match tracked with
            | inl _ => Ret None
            | inr lease =>
                do! activated := on_world (activate connection) in
                match activated with
                | inl _ => drop_lease lease ;;> Ret None
                | inr _ => Ret (Some lease)
                end
            end in
          match lease with
          | None =>
              on_world (stop connection) ;;>
              reject_connection sh ;;>
              do (Release Slots 1) ;;>
              do (Release (Local slots) 1)
          | Some lease =>
              on_connections sh <[ar_slot connection := connection]> ;;>
              on_tcp_stats sh (λ st, st <| tp_accepted_connections ::= increment |>) ;;>
              Tasks.spawn 1 connection lease (connection_future connection target config sh schema slots lease stream)
          end
      end
  end.
Definition listen_check (owner : ActorRef) (waker : N) : prog (option unit) :=
  do! changed := changed_out_of owner false waker in
  Ret (if changed : bool then Some tt else None).
Definition listen_round (owner target : ActorRef) (config : TcpConfig) (sh : TcpShared) (schema slots waker : N) :
    L * nat → prog (L * nat + unit) := λ '(listener, turns),
  do! turns := (if decide (turns = 16) then await ;;> Ret 0 else Ret turns) in
  do! accepted := biased (listen_check owner waker) (await ;;> Ret (accept listener)) in
  match accepted with
  | inl _ => Ret (inr tt)
  | inr (inl _, _) =>
      on_tcp_stats sh (λ st, st <| tp_listener_errors ::= increment |>) ;;>
      on_world (Supervision.report_failure owner None None None
        (Failures.details_new Handler "tcp_listener" "AcceptFailed" []) FailureAction.StopActor) ;;>
      Ret (inr tt)
  | inr (inr stream, listener) =>
      admit_connection owner target config sh schema slots stream ;;>
      Ret (inl (listener, turns + 1))
  end.
Definition listen (owner target : ActorRef) (config : TcpConfig) (sh : TcpShared) (schema waker : N) (listener : L) : prog unit :=
  do! active := wait_active owner in
  if negb active then Ret tt else
  do! slots := do (NewPool (tc_max_connections config)) in
  loop (listen_round owner target config sh schema slots waker) (listener, 0).
Definition listener_future (owner target : ActorRef) (config : TcpConfig) (sh : TcpShared) (schema lease : N) (listener : L) :
    closure unit := {|
  cl_call := drop_lease lease ;;> listen owner target config sh schema lease listener;
  cl_drop := Ret tt |}.

(** [?] on a call of the World and on an I/O operation. *)
Definition core_call {A} (m : WM A) : prog (tcp_error + A) :=
  do! r := on_world m in
  Ret match r with inr a => inr a | inl e => inl (TcpCore e) end.
Definition io {A} (r : N + A) : prog (tcp_error + A) := Ret match r with inr a => inr a | inl kind => inl (TcpBind kind) end.
(** The listener's setup, under a startup claim; [opened]: the runtime is not closed. *)
Definition setup (opened : bool) (owner : ActorRef) (config : TcpConfig) : prog (tcp_error + (N * (L * (SocketAddr * (TcpShared * N))))) :=
  try! lease := core_call (track_task owner) in
  releasing (drop_lease lease) (
    try! startup := core_call (Callbacks.claim_native_callback owner true) in
    match startup with
    | None => Ret (inl TcpClosed)
    | Some startup =>
        releasing (drop_claim startup) (
          try! schema := on_world register_frame in
          try! listener := io (bind_to (tc_bind config)) in
          try! listener := io (set_nonblocking listener) in
          try! address := io (local_addr listener) in
          if negb opened then Ret (inl TcpClosed) else
          try! listener := io (from_std listener) in
          do! statistics := do (Atomic (alloc_cell (TcpStatistics default_tcp_stats))) in
          do! connections := do (Atomic (alloc_cell (TcpConnections ∅))) in
          do! reads := do (NewBudget (tc_read_buffer_bytes config)) in
          do! writes := do (NewBudget (tc_write_buffer_bytes config)) in
          let sh := MkTcpShared statistics connections (MkSharedBudget reads true) (MkSharedBudget writes false) in
          try! _ := core_call (activate owner) in
          drop_claim startup ;;>
          Ret (inr (lease, (listener, (address, (sh, schema))))))
    end).
Definition listen_tcp (opened : bool) (parent target : ActorRef) (config : TcpConfig) : prog (tcp_error + TcpListenerHandle) :=
  try! _ := Ret (TcpConfigs.validate config) in
  do! (virtual, max_event) := do (Atomic (λ s, ((Clocks.is_virtual (w_clock (sh_world s)), max_event_bytes (w_cfg (sh_world s))), s))) in
  if virtual : bool then Ret (inl TcpVirtualRuntime) else
  if (max_event <? tc_max_frame_bytes config + 8)%N then Ret (inl TcpInvalidConfig) else
  try! state := core_call (execution_state target) in
  if negb (starting_or_active state) then Ret (inl TcpClosed) else
  if negb opened then Ret (inl TcpClosed) else
  do! permit := Tasks.permits 1 in
  match permit with
  | inl _ => Ret (inl TcpTaskLimit)
  | inr _ =>
      releasing (do (Release Slots 1)) (
        try! owner := core_call (allocate EndpointKind.Native (Some parent)) in
        try! made := releasing (on_world (stop owner) ;;> Ret tt) (setup opened owner config) in
        let '(lease, (listener, (address, (sh, schema)))) := made in
        Tasks.spawn 1 owner lease (listener_future owner target config sh schema lease listener) ;;>
        Ret (inr (MkTcpListener owner address sh)))
  end.
End transport.
