(* ===== verification/TcpLogic.v ===== *)
(** * The transport keeps its accounts

    Every program of [Tcp.v] gives back the bytes, slots and permits it takes, whether
    a phase succeeds, fails, times out, is cancelled or is dropped while it waits. *)
From S2P Require Import Prelude.
From S2P Require Import Collections.
From S2P Require Import Types.
From S2P Require Import WorldState.
From S2P Require Import Operations.
From S2P Require Import Components.
From S2P Require Import Framing.
From S2P Require Import NativeConfig.
From S2P Require Import NativeState.
From S2P Require Import Native.
From S2P Require Import NativeLogic.
From S2P Require Import Cpu.
From S2P Require Import Tasks.
From S2P Require Import Sdk.
From S2P Require Import Executor.
From S2P Require Import NativeRules.
From S2P Require Import SdkLogic.
From S2P Require Import Pipeline.
From S2P Require Import TcpFrames.
From S2P Require Import Tcp.
Import Pipelines (maintain_now, wait_active).

(** ** Bytes as tokens *)
Definition bytes_of_permit (b : Budget) (p : BufferPermit) : list token :=
  replicate (N.to_nat (bp_charged p)) (TByte (bu_id b)).
Lemma fits_bytes b n : fits (replicate n (TByte b)).
Proof. split; rewrite !owns_replicate, ?bool_decide_false by done; simpl; lia. Qed.
Lemma fits_permit_bytes b p : fits (bytes_of_permit b p).
Proof. apply fits_bytes. Qed.
#[export] Hint Resolve fits_bytes fits_permit_bytes : core.
Lemma take_replicate n t h : take_tokens n t (replicate n t ++ h) = Some h.
Proof. induction n as [|n IH]; simpl; [done|]. by rewrite decide_True. Qed.
Definition spends (t : list token) (p : prog unit) : Prop := wp p t (λ _, spent) poisoned.
Lemma spends_uses async t p : spends t p → uses async t p.
Proof. intros H. eapply wp_mono; [| |exact H]; [done|]. by intros w h ->. Qed.
Lemma spends_uncharge b n : spends (replicate (N.to_nat n) (TByte b)) (do (Uncharge b n)).
Proof. split; [auto|]. cbn [act_wp]. rewrite <- (app_nil_r (replicate _ _)), take_replicate. by split. Qed.
Lemma spends_drop_permit b p : spends (bytes_of_permit b p) (Shares.drop_permit b p).
Proof.
  apply wp_bind. eapply wp_mono; [| |apply spends_uncharge]; [|done]. intros [] h ->.
  destruct (bp_native p); [|by split]. apply quiet_bind; [apply quiet_on_world|]. intros; apply quiet_ret.
Qed.

(** Programs that may fail: [post] is held after success, [left] after an error. *)
Definition leaves (t : list token) {X A} (m : prog (X + A)) (post : A → list token) (left : list token) : Prop :=
  wp m t (λ r h, h ≡ₚ match r with inr a => post a | inl _ => left end) poisoned.
Lemma leaves_bind t {X A B} (m : prog (X + A)) (k : A → prog (X + B)) mid post left :
  leaves t m mid left → (∀ a, fits (mid a) → leaves (mid a) (k a) post left) → leaves t (rbind m k) post left.
Proof.
  intros Hm Hk. apply wp_bind. eapply wp_mono; [| |apply wp_post_fits, Hm]; [|by intros w h [_ ?]].
  intros [e|a] h [Hf Hp]; [by split|]. eapply wp_reorder; [symmetry; exact Hp|apply Hk; by rewrite <- Hp| |].
  - intros r x y Hy Hx. by rewrite <- Hx.
  - by intros w x y -> _.
Qed.
Lemma leaves_releasing t t2 {X A} (cleanup : prog unit) (m : prog (X + A)) post left :
  leaves t m post (t2 ++ left) → spends t2 cleanup → fits left → leaves t (releasing cleanup m) post left.
Proof.
  intros Hm Hc Hf. apply wp_bind. eapply wp_mono; [| |apply wp_post_fits, Hm]; [|by intros w h [_ ?]].
  intros [e|a] h [Hfh Hp]; [|by split]. apply wp_bind. eapply wp_use; [exact Hc|exact Hf|exact Hp|..].
  - intros [] x y -> Hx. simpl in Hx. split; [by rewrite Hx|by rewrite Hx].
  - by intros w x y ->.
Qed.
Lemma leaves_quiet t {A B X} (m : prog A) (k : A → prog (X + B)) post left :
  quiet m → fits t → (∀ a, leaves t (k a) post left) → leaves t (pbind m k) post left.
Proof. intros Hm Hf Hk. by apply wp_bind, quiet_use. Qed.
Lemma leaves_ok t {X A} (a : A) post left : fits t → t ≡ₚ post a → leaves t (Ret (inr a : X + A)) post left.
Proof. by split. Qed.
Lemma leaves_err t {X A} (e : X) (post : A → list token) left : fits t → t ≡ₚ left → leaves t (Ret (inl e)) post left.
Proof. by split. Qed.

Lemma leaves_reserve_local t b n {A} (k : BufferPermit → prog (frame_error + A)) post :
  fits t → (∀ p, bp_charged p = n → leaves (bytes_of_permit b p ++ t) (k p) post t) →
  leaves t (rbind (Shares.reserve_local b n) k) post t.
Proof.
  intros Hf Hk. split; [done|]. cbn [act_wp]. split; [|by split].
  by apply (Hk (MkBufferPermit n None)).
Qed.
Lemma leaves_reserve b n : leaves [] (Shares.reserve b n) (λ p, bytes_of_permit b p) [].
Proof.
  apply leaves_reserve_local; [done|]. intros p _. rewrite app_nil_r.
  destruct (bu_world b); [|by apply leaves_ok].
  apply (leaves_releasing _ (bytes_of_permit b p)); [|apply spends_drop_permit|done]. rewrite app_nil_r.
  apply leaves_quiet; [apply quiet_on_world|done|]. intros [e|h]; [by apply leaves_err|by apply leaves_ok].
Qed.
Lemma leaves_grow b p n : leaves (bytes_of_permit b p) (Shares.grow b p n) (λ p', bytes_of_permit b p') (bytes_of_permit b p).
Proof.
  unfold Shares.grow. case_match; [by apply leaves_ok|]. destruct (checked_add _ _ _) as [charged|] eqn:Hadd; [|by apply leaves_err].
  unfold checked_add in Hadd. case_decide; simplify_eq.
  apply leaves_reserve_local; [done|]. intros extra <-.
  assert (bytes_of_permit b extra ++ bytes_of_permit b p ≡ₚ
          bytes_of_permit b (p <| bp_charged := (bp_charged p + bp_charged extra)%N |>)) as Hsum.
  { unfold bytes_of_permit. rewrite <- replicate_add. cbn [bp_charged set_field]. by replace (N.to_nat (bp_charged p + bp_charged extra)) with (N.to_nat (bp_charged extra) + N.to_nat (bp_charged p)) by lia. }
  destruct (bp_native p) as [handle|]; [|by apply leaves_ok; [apply fits_app|]].
  apply (leaves_releasing _ (bytes_of_permit b extra)); [|apply spends_drop_permit|done].
  apply leaves_quiet; [apply quiet_on_world|by apply fits_app|].
  intros [e|[]]; [by apply leaves_err; [apply fits_app|]|by apply leaves_ok; [apply fits_app|]].
Qed.

(** ** Frames *)
Section logic.
Context {L S : Type} `{!TcpNetwork L S, !AsyncReader S, !AsyncWriter S}.
Context (tre : N → option N).
Lemma leaves_room b n : leaves [] (room tre b n) (λ p, bytes_of_permit b p) [].
Proof.
  eapply leaves_bind; [apply leaves_reserve|]. intros p Hf.
  apply (leaves_releasing _ (bytes_of_permit b p)); [|apply spends_drop_permit|done]. rewrite app_nil_r.
  destruct (tre n) as [actual|]; [|by apply leaves_err]. case_match; [apply leaves_grow|by apply leaves_ok].
Qed.
Lemma bal_read_exact (s : S) n : bal true (read_exact s n).
Proof.
  apply bal_loop. intros [[s' missing] bytes]. unfold read_round. case_match; [apply bal_ret|].
  apply bal_bind; [apply bal_await|]. intros []. apply bal_ret.
Qed.
(** What the result of a read holds. *)
Definition frame_tokens (b : Budget) (r : frame_error + option FrameBuffer) : list token :=
  match r with inr (Some f) => bytes_of_permit b (fb_permit f) | _ => [] end.
Lemma wp_read_body b (s : S) n p :
  wp (read_body b s n p) (bytes_of_permit b p)
    (λ r h, h ≡ₚ match r.2 with inr f => bytes_of_permit b (fb_permit f) | inl _ => [] end) (ends true).
Proof.
  assert (∀ (s : S) e, wp (Shares.drop_permit b p ;;> Ret (s, inl e : frame_error + FrameBuffer)) (bytes_of_permit b p)
    (λ r h, h ≡ₚ match r.2 with inr f => bytes_of_permit b (fb_permit f) | inl _ => [] end) (ends true)) as Hdrop.
  { intros s' e. apply wp_bind. eapply wp_mono; [| |apply spends_drop_permit]; [|by intros w h ->].
    by intros [] h ->. }
  apply wp_bind, wp_unwinding. apply (bal_use true); [apply bal_read_exact|done| | |by intros; rewrite decide_True].
  2: { intros w _ Hw. rewrite decide_False by done. eapply wp_mono; [| |apply spends_drop_permit]; [|by intros ? ? ->].
       intros _ h ->. by destruct w. }
  intros [s' [e|[bytes|]]]; [apply Hdrop|by split|apply Hdrop].
Qed.
Lemma wp_read_frame b max (s : S) :
  wp (read_frame tre b max s) [] (λ r h, h ≡ₚ frame_tokens b r.2) (ends true).
Proof.
  apply wp_bind. eapply wp_mono; [| |apply (bal_read_exact s 4)]; [|done].
  intros [s' [e|[header|]]] h ->; [by split| |by split].
  cbv beta iota zeta. case_match; [by split|]. case_match; [by split|].
  apply wp_bind. eapply wp_mono; [| |apply wp_post_fits, leaves_room]; [|by intros w h [_ ->]].
  intros [e|p] h [Hf Hp]; [by split|].
  apply wp_bind. eapply wp_use; [apply wp_post_fits, wp_read_body|exact fits_nil|by rewrite app_nil_r| |].
  - intros [s2 [e|f]] x y [Hfy Hy] Hx; rewrite app_nil_r in Hx; simpl in *; (split; [by rewrite Hx|]); by rewrite Hx.
  - intros w x y [_ [Hd Hs]] Hx. rewrite app_nil_r in Hx. split; [done|]. intros Hw. rewrite (Hs Hw) in Hx.
    by apply Permutation_nil_r in Hx.
Qed.
Lemma bal_write_frame (s : S) payload max : bal true (write_frame s payload max).
Proof. unfold write_frame. balance. Qed.

(** ** Phases *)
Lemma quiet_tcp_stats sh f : quiet (on_tcp_stats sh f).
Proof. apply quiet_atomic. Qed.
Lemma quiet_connections sh f : quiet (on_connections sh f).
Proof. apply quiet_atomic. Qed.
Lemma quiet_changed owner allow waker : quiet (changed_out_of owner allow waker).
Proof. unfold changed_out_of. quiet. Qed.
Lemma quiet_now : quiet (do Now).
Proof. by split. Qed.
Lemma quiet_stage_check owner deadline allow waker : quiet (stage_check owner deadline allow waker).
Proof.
  unfold stage_check. apply quiet_bind; [apply quiet_changed|]. intros []; [quiet|].
  apply quiet_bind; [apply quiet_now|]. intros. apply quiet_ret.
Qed.
Lemma quiet_maintain : quiet maintain_now.
Proof. unfold maintain_now. apply quiet_bind; [apply quiet_world_now|]. intros t. quiet. Qed.
Lemma quiet_drop_request id : quiet (drop_request id).
Proof. unfold drop_request. repeat first [apply quiet_drop_stored | progress quiet]. Qed.
#[local] Hint Resolve quiet_tcp_stats quiet_connections quiet_changed quiet_now quiet_stage_check quiet_maintain
  quiet_drop_request quiet_drop_lease quiet_drop_stored quiet_status_of : quiet.
Lemma quiet_count_end sh e : quiet (count_end sh e).
Proof. apply quiet_tcp_stats. Qed.
Lemma quiet_count_timeout sh e f : quiet (count_timeout sh e f).
Proof. apply quiet_bind; [apply quiet_count_end|]. intros _. destruct e; [apply quiet_ret..|apply quiet_tcp_stats]. Qed.
Lemma quiet_frame_error sh e : quiet (count_frame_error sh e).
Proof. apply quiet_tcp_stats. Qed.
#[local] Hint Resolve quiet_count_end quiet_count_timeout quiet_frame_error : quiet.
Lemma wp_biased {X} (check : prog (option X)) {A} (m : prog A) h Q E :
  quiet check → fits h → (∀ h, E HPoisoned h) → wp m h Q E →
  wp (biased check m) h (λ r x, match r with inr a => Q a x | inl _ => E HDrop x ∨ x = h end) E.
Proof.
  intros Hc Hf HP Hm. apply wp_bind, quiet_use; [done|done| |done]. intros [e|]; [by split; auto|].
  eapply wp_mono; [| |apply wp_selecting; [exact Hc|exact HP|exact Hm]]; [|done]. intros [e|a] x Hx; auto.
Qed.
Lemma wp_stage owner waker duration allow {A} (m : prog A) Q :
  wp m [] Q (ends true) →
  wp (stage owner waker duration allow m) [] (λ r h, match r with inr a => Q a h | inl _ => spent h end) (ends true).
Proof.
  intros Hm. apply wp_bind, quiet_use; [apply quiet_now|done| |done]. intros now.
  eapply wp_mono; [| |apply wp_biased; [apply quiet_stage_check|done| |exact Hm]; done]; [|done].
  intros [e|a] h; [|done]. intros [[_ Hs]| ->]; [by apply Hs|done].
Qed.
Lemma bal_biased {X} (check : prog (option X)) {A} (m : prog A) : quiet check → bal true m → bal true (biased check m).
Proof.
  intros Hc Hm. eapply wp_mono; [| |apply wp_biased; [exact Hc|done| |exact Hm]; done]; [|done].
  intros [e|a] h; [|done]. intros [[_ Hs]| ->]; [by apply Hs|done].
Qed.
Lemma bal_await_reply owner id deadline waker : bal true (await_reply owner id deadline waker).
Proof. unfold await_reply, reply_round, reply_wait. balance. Qed.

(** ** Connections *)
Section connection.
Context (owner target : ActorRef) (config : TcpConfig) (sh : TcpShared) (schema waker : N).
Definition held_frame (input : option FrameBuffer) : list token :=
  match input with Some f => bytes_of_permit (tl_read sh) (fb_permit f) | None => [] end.
Lemma wp_receive_frame (s : S) :
  wp (receive_frame tre owner config sh waker s) [] (λ r h, h ≡ₚ held_frame r.2) (ends true).
Proof.
  apply wp_bind. eapply wp_mono; [| |apply wp_post_fits, wp_stage, wp_read_frame]; [|by intros w h [_ ?]].
  intros [e|[s' [e|f]]] h [Hf Hh].
  - rewrite Hh. apply wp_bind, quiet_use; [auto with quiet|done| |done]. by split.
  - simpl in Hh. apply Permutation_nil_r in Hh as ->. apply wp_bind, quiet_use; [auto with quiet|done| |done]. by split.
  - by split.
Qed.
Lemma bal_refuse {A} : bal false (refuse (A:=A) sh).
Proof. unfold refuse. balance. Qed.
Lemma bal_request_frame bytes : bal false (request_frame tre owner target config sh schema bytes).
Proof. unfold request_frame. balance; apply bal_refuse. Qed.
(** Scratch space is charged next to the frame, and both are given back. *)
Lemma uses_submit input :
  uses true (bytes_of_permit (tl_read sh) (fb_permit input)) (submit tre owner target config sh schema input).
Proof.
  apply uses_after_quiet; [auto with quiet|done|]. intros _. apply uses_bind.
  - eapply (uses_finally _ [] (bytes_of_permit (tl_read sh) (fb_permit input)));
      [|apply spends_uses, spends_drop_permit|done|done].
    apply wp_bind. eapply wp_mono; [| |apply leaves_reserve]; [|by intros w h ->].
    intros [e|p] h Hp.
    + apply Permutation_nil_r in Hp as ->. apply quiet_bal. apply quiet_bind; [auto with quiet|]. intros; apply quiet_ret.
    + eapply (uses_finally _ [] (bytes_of_permit (tl_read sh) p)); [|apply spends_uses, spends_drop_permit|exact Hp|done].
      apply bal_async, bal_request_frame.
  - intros [|]; [balance|apply bal_ret].
Qed.
Lemma bal_wait_reply id deadline : bal true (wait_reply owner sh waker id deadline).
Proof.
  apply bal_finally; [|auto with bal]. apply bal_bind.
  - apply bal_biased; [|apply bal_await_reply]. apply quiet_bind; [auto with quiet|]. intros; apply quiet_ret.
  - intros [e|o]; balance.
Qed.
Lemma quiet_claim_write : quiet (claim_write owner).
Proof. unfold claim_write. quiet. Qed.
#[local] Hint Resolve quiet_claim_write quiet_drop_claim : quiet.
Lemma bal_write_reply output (s : S) : bal true (write_reply owner config sh waker output s).
Proof.
  apply bal_bind; [eapply wp_mono; [| |apply wp_stage, bal_write_frame]; [by intros [e|[s' r]] h Hh|done]|].
  intros [e|[s' [e|[]]]]; balance.
Qed.
Lemma bal_respond reply (s : S) : bal true (respond owner config sh schema waker reply s).
Proof.
  apply bal_finally; [|auto with bal]. case_match; [balance|]. case_match; [balance|].
  apply wp_bind. eapply wp_mono; [| |apply leaves_reserve]; [|by intros w h ->].
  intros [e|p] h Hp.
  - apply Permutation_nil_r in Hp as ->.
    apply (bal_bind true); [auto with bal|intros; apply bal_ret].
  - eapply (uses_finally _ [] (bytes_of_permit (tl_write sh) p)); [|apply spends_uses, spends_drop_permit|exact Hp|done].
    apply bal_bind; [auto with bal|]. intros [claim|]; [|balance]. apply bal_finally; [apply bal_write_reply|auto with bal].
Qed.
Lemma bal_connection_round (s : S) : bal true (connection_round tre owner target config sh schema waker s).
Proof.
  apply wp_bind. eapply wp_mono; [| |apply wp_post_fits, wp_receive_frame]; [|by intros w h [_ ?]].
  intros [s' [input|]] h [Hf Hh]; simpl in Hh; [|by split; [|apply Permutation_nil_r in Hh]].
  apply (uses_perm _ (bytes_of_permit (tl_read sh) (fb_permit input))); [done|].
  apply uses_bind; [apply uses_submit|]. intros [[id deadline]|]; [|apply bal_ret].
  apply bal_bind; [apply bal_wait_reply|]. intros [reply|]; [|apply bal_ret].
  apply bal_bind; [apply bal_respond|]. intros [s2|]; balance.
Qed.
End connection.

(** ** The listener *)
Lemma spends_release p : spends [TPermit p] (do (Release p 1)).
Proof. split; [auto|]. cbn. by rewrite decide_True. Qed.
Lemma spends_quiet_first t {A} (m : prog A) (k : A → prog unit) : quiet m → fits t → (∀ a, spends t (k a)) → spends t (pbind m k).
Proof. intros Hm Hf Hk. by apply wp_bind, quiet_use. Qed.
Lemma spends_drop_guard sh connection slots : spends [TPermit (Local slots)] (drop_guard sh connection slots).
Proof.
  apply spends_quiet_first; [auto with quiet|auto|]. intros _. apply spends_quiet_first; [auto with quiet|auto|]. intros [].
  apply spends_quiet_first; [auto with quiet|auto|]. intros []. apply spends_release.
Qed.
Lemma connection_future_ok connection target config sh schema slots lease (stream : S) :
  future_ok [TPermit (Local slots)] (connection_future tre connection target config sh schema slots lease stream).
Proof.
  split; [auto| |apply spends_uses, spends_drop_guard].
  apply uses_after_quiet; [auto with quiet|auto|]. intros [].
  eapply (uses_finally _ [] [_]); [|apply spends_uses, spends_drop_guard|done|auto].
  apply bal_loop. apply bal_connection_round.
Qed.
Lemma quiet_reject sh : quiet (reject_connection sh).
Proof. apply quiet_tcp_stats. Qed.
#[local] Hint Resolve quiet_reject : quiet.
Lemma uses_two_slots async slots : uses async [TPermit Slots; TPermit (Local slots)] (do (Release Slots 1) ;;> do (Release (Local slots) 1)).
Proof.
  split; [auto|]. cbn [act_wp take_tokens take_token]. rewrite decide_True by done. apply uses_release.
Qed.
Lemma bal_admit owner target config sh schema slots (stream : S) :
  bal true (admit_connection tre owner target config sh schema slots stream).
Proof.
  split; [done|]. cbn [act_wp]. split; [|exact (quiet_bal true _ (quiet_reject sh))]. cbn [negb pbind replicate Datatypes.app].
  apply wp_bind, wp_bind. split; [auto|]. cbn [act_wp]. split; (split; [simpl; auto|]); (split; [simpl; auto|]); cbn [replicate Datatypes.app].
  2: { apply (uses_after_quiet _ [TPermit (Local slots)]); [auto with quiet|auto|]. intros _. apply uses_release. }
  assert (fits [TPermit Slots; TPermit (Local slots)]) as Hf by auto.
  apply uses_after_quiet; [auto with quiet|done|]. intros [e|connection].
  { apply uses_after_quiet; [auto with quiet|done|]. intros _. apply uses_two_slots. }
  apply uses_after_quiet; [auto with quiet|done|]. intros tracked. apply uses_after_quiet; [|done|].
  { destruct tracked as [e|lease]; [apply quiet_ret|]. apply quiet_bind; [auto with quiet|]. intros [e|u]; [|apply quiet_ret].
    apply quiet_bind; [auto with quiet|]. intros; apply quiet_ret. }
  intros [lease|].
  - do 2 (apply uses_after_quiet; [auto with quiet|done|]; intros _).
    split; [done|]. exists [TPermit Slots; TPermit (Local slots)], []. split_and!; [done| |by split].
    apply task_ok, connection_future_ok.
  - do 2 (apply uses_after_quiet; [auto with quiet|done|]; intros _). apply uses_two_slots.
Qed.
Lemma bal_listen owner target config sh schema waker (listener : L) :
  bal true (listen tre owner target config sh schema waker listener).
Proof.
  apply bal_bind; [unfold wait_active; auto with bal|]. intros active. destruct (negb active); [apply bal_ret|].
  apply bal_bind; [apply bal_new_pool|]. intros slots. apply bal_loop. intros [l turns]. unfold listen_round.
  apply bal_bind; [case_decide; balance|]. intros n. apply bal_bind.
  - apply bal_biased; [|balance]. apply quiet_bind; [auto with quiet|]. intros; apply quiet_ret.
  - intros [u|[[e|stream] l']]; [apply bal_ret|balance|]. apply bal_bind; [apply bal_admit|]. intros; apply bal_ret.
Qed.
Lemma listener_future_ok owner target config sh schema lease (listener : L) :
  future_ok [] (listener_future tre owner target config sh schema lease listener).
Proof.
  split; [done| |apply bal_ret]. apply bal_bind; [auto with bal|]. intros _. apply bal_listen.
Qed.
Lemma quiet_core_call {A} (m : WM A) : quiet (core_call m).
Proof. unfold core_call. quiet. Qed.
Lemma quiet_stop owner : quiet (on_world (Actors.stop owner) ;;> Ret tt).
Proof. apply quiet_bind; [apply quiet_on_world|]. intros; apply quiet_ret. Qed.
Lemma quiet_io {A} (r : N + A) : quiet (io r).
Proof. apply quiet_ret. Qed.
Lemma quiet_new_budget n : quiet (do (NewBudget n)).
Proof. by split. Qed.
#[local] Hint Resolve quiet_core_call quiet_io quiet_new_budget : quiet.
Lemma quiet_setup_listener opened owner config : quiet (setup (L:=L) (S:=S) opened owner config).
Proof.
  unfold setup. apply quiet_rbind; [auto with quiet|]. intros lease. apply quiet_releasing; [|auto with quiet].
  apply quiet_rbind; [auto with quiet|]. intros [startup|]; [|apply quiet_ret].
  apply quiet_releasing; [|unfold drop_claim; quiet].
  do 4 (apply quiet_rbind; [auto with quiet|]; intros ?). destruct (negb opened); [apply quiet_ret|].
  apply quiet_rbind; [auto with quiet|]. intros ?. do 2 (apply quiet_bind; [apply quiet_atomic|]; intros ?).
  do 2 (apply quiet_bind; [auto with quiet|]; intros ?). apply quiet_rbind; [auto with quiet|]. intros _.
  apply quiet_bind; [unfold drop_claim; quiet|]. intros; apply quiet_ret.
Qed.
Lemma bal_listen_tcp opened parent target config : bal false (listen_tcp (L:=L) (S:=S) tre opened parent target config).
Proof.
  assert (takes [] [] (listen_tcp (L:=L) (S:=S) tre opened parent target config)) as H.
  2: { eapply wp_mono; [| |exact H]; [|by intros w h ->]. intros [e|a] h; simpl; [|done]. intros Hh. by apply Permutation_nil_r in Hh. }
  unfold listen_tcp. apply takes_rbind; [apply quiet_ret|done|done|]. intros _.
  apply takes_bind; [apply quiet_atomic|done|]. intros [virtual max_event]. destruct virtual; [by apply takes_err|].
  case_match; [by apply takes_err|]. apply takes_rbind; [auto with quiet|done|done|]. intros state.
  case_match; [by apply takes_err|]. case_match; [by apply takes_err|].
  apply wp_bind, wp_bind. split; [done|]. cbn [act_wp].
  split; (split; [simpl; auto|]); (split; [simpl; auto|]); [|by split].
  apply (takes_releasing [] [TPermit Slots]); [|apply release_slot|done]. simpl.
  apply takes_rbind; [auto with quiet|auto|done|]. intros owner.
  apply takes_rbind; [apply quiet_releasing; [apply quiet_setup_listener|apply quiet_stop]|auto|done|].
  intros [lease [listener [address [sh schema]]]].
  apply takes_spawn with []; [apply listener_future_ok|done].
Qed.
End logic.
