(* ===== verification/TcpResults.v ===== *)
(** * What the transport reads

    [read_frame_exact]: whatever other threads do between its reads, reading a frame
    ends with the frame the peer wrote, or without room for it. *)
From S2P Require Import Prelude.
From S2P Require Import Collections.
From S2P Require Import Text.
From S2P Require Import Types.
From S2P Require Import Schema.
From S2P Require Import WorldState.
From S2P Require Import Framing.
From S2P Require Import NativeConfig.
From S2P Require Import NativeState.
From S2P Require Import Native.
From S2P Require Import NativeResults.
From S2P Require Import Tasks.
From S2P Require Import Sdk.
From S2P Require Import SdkResults.
From S2P Require Import TcpFrames.
From S2P Require Import Tcp.

Lemma total_await (Q : halt + unit → Prop) : Q (inr tt) → Q (inl HDrop) → total await Q.
Proof. intros H1 H2. constructor. intros [] s; simpl; by constructor. Qed.
(** It is dropped, or the World panics. *)
Definition interrupted (why : halt) : Prop := why = HDrop ∨ why = HPoisoned.
Lemma total_charge b n : total (Shares.reserve_local b n) (λ r, r = inr (inr (MkBufferPermit n None)) ∨ r = inr (inl FrBudgetExceeded)).
Proof.
  constructor. intros oracle s. constructor. destruct (run_act oracle _ s).1; auto.
Qed.
Lemma total_drop_permit b p : total (Shares.drop_permit b p) returns.
Proof.
  constructor. intros oracle s. destruct (bp_native p); [|constructor; right; eauto].
  eapply total_bind; [apply total_world|by intros; constructor; right; eauto|]. intros why [?|[? ?]]; [left; congruence|done].
Qed.
(** A permit, or no room: [refusals] says why. *)
Definition permitted {X A} (refusals : X → Prop) (r : halt + (X + A)) : Prop :=
  match r with inl why => why = HPoisoned | inr (inl e) => refusals e | inr (inr _) => True end.
Lemma total_releasing {X A} (refusals : X → Prop) b p (m : prog (X + A)) :
  total m (permitted refusals) → total (releasing (Shares.drop_permit b p) m) (permitted refusals).
Proof.
  intros Hm. eapply total_bind; [exact Hm| |done]. intros [e|a] He; [|by constructor].
  eapply total_bind; [apply total_drop_permit|by intros; constructor|]. by intros why [[= ->]|[? ?]].
Qed.
Lemma total_rbind {X A B} (refusals : X → Prop) (m : prog (X + A)) (k : A → prog (X + B)) :
  total m (permitted refusals) → (∀ a, total (k a) (permitted refusals)) → total (rbind m k) (permitted refusals).
Proof. intros Hm Hk. eapply total_bind; [exact Hm| |done]. intros [e|a] He; [by constructor|apply Hk]. Qed.
Lemma total_reserve_local (refusals : frame_error → Prop) b n :
  refusals FrBudgetExceeded → total (Shares.reserve_local b n) (permitted refusals).
Proof. intros Hr. eapply total_mono; [|apply total_charge]. by intros ? [->| ->]. Qed.
Lemma total_native {A B} (refusals : frame_error → Prop) (m : WM A) (f : A → B) :
  refusals FrBudgetExceeded →
  total (do! r := on_world m in match r with inr a => Ret (inr (f a)) | inl _ => Ret (inl FrBudgetExceeded) end) (permitted refusals).
Proof.
  intros Hr. eapply total_bind; [apply total_world| |by intros why [[= ->]|[? ?]]]. intros [e|a] _; by constructor.
Qed.
Definition no_room (e : frame_error) : Prop := e = FrBudgetExceeded ∨ e = FrAllocationFailed.
Lemma total_reserve b n : total (Shares.reserve b n) (permitted no_room).
Proof.
  apply total_rbind; [apply total_reserve_local; by left|]. intros p. destruct (bu_world b); [|by constructor].
  apply total_releasing, (total_native _ _ (λ h, p <| bp_native := Some h |>)). by left.
Qed.
Lemma total_grow b p n : total (Shares.grow b p n) (permitted no_room).
Proof.
  unfold Shares.grow. case_match; [by constructor|]. case_match; [|by constructor; left].
  apply total_rbind; [apply total_reserve_local; by left|]. intros extra. destruct (bp_native p); [|by constructor].
  apply total_releasing, (total_native _ _ (λ _, p <| bp_charged := n0 |>)). by left.
Qed.
Section reading.
Context {S : Type} `{!AsyncReader S, !AsyncWriter S}.
Context (tre : N → option N).
Lemma total_room b n : total (room tre b n) (permitted no_room).
Proof.
  apply total_rbind; [apply total_reserve|]. intros p. apply total_releasing.
  destruct (tre n); [|by constructor; right]. case_match; [apply total_grow|by constructor].
Qed.
(** All of [data] is read, and [rest] is left. *)
Definition has_read (data rest : list byte) (r : halt + S * (frame_error + option (list byte))) : Prop :=
  match r with
  | inl why => interrupted why
  | inr (s, x) => x = inr (Some data) ∧ yields s rest
  end.
Lemma total_read_exact (s : S) n data rest :
  yields s (data ++ rest) → n = N.of_nat (length data) → total (read_exact s n) (has_read data rest).
Proof.
  intros Hs ->. unfold read_exact, loop.
  apply (total_loop_measure _ _ (λ '(s, missing, bytes), ∃ bs, data = bytes ++ bs ∧ missing = N.of_nat (length bs) ∧ yields s (bs ++ rest))
           (λ '(_, missing, _), N.to_nat missing)); [by exists data|].
  intros [[s' missing] bytes] (bs & Hdata & -> & Hy). unfold read_round. destruct (N.eqb_spec (N.of_nat (length bs)) 0) as [Hz|Hz].
  - constructor. destruct bs; [|simpl in Hz; lia]. constructor. rewrite app_nil_r in Hdata. by subst.
  - eapply (total_bind _ _ (λ r, r = inr tt ∨ r = inl HDrop)); [apply total_await; auto| |].
    2: { intros why [?|[= ->]]; [done|by left]. }
    intros [] _. constructor. destruct (read_part s' bs rest) as (chunk & bs' & r' & -> & Hne & Hread & Hy'); [done|by intros ->|].
    rewrite Hread. destruct chunk as [|c chunk]; [done|]. set (ch := c :: chunk) in *. rewrite length_app in *.
    assert (0 < length ch) by (simpl; lia). split; [|lia]. exists bs'. rewrite <- app_assoc. split_and!; [done|lia|done].
Qed.
Lemma total_unwinding {A} (m : prog A) cleanup (Q : halt + A → Prop) :
  Q (inl HPoisoned) → total cleanup returns → total m Q → total (unwinding m cleanup) Q.
Proof.
  intros HP Hc Hm. eapply (total_bind _ _ (λ r, match r with inr r => Q r | inl _ => False end)); [by apply total_caught|..|done].
  assert (∀ why, Q (inl why) → total (cleanup ;;> Halt (A:=A) why) Q) as Hhalt.
  { intros why Hw. eapply total_bind; [exact Hc|by intros; constructor|]. by intros ? [[= ->]|[? ?]]. }
  intros [[]|a] Hr; try (by constructor); auto.
Qed.

(** C23. A frame is read exactly, in every interleaving.  When the peer's bytes are a
    frame within the limit and something after it, in whatever chunks they arrive and
    whatever other threads do to the budgets meanwhile, reading ends after finitely many
    steps of its own: with the frame's payload, what follows left on the stream; or,
    when a budget or the allocator has no room, with that error and the payload unread;
    or it is dropped while it waits.  It never panics and never sees the end of the
    stream. *)
Theorem read_frame_exact b max (s : S) data rest :
  (N.of_nat (length data) ≤ max)%N → (N.of_nat (length data) ≤ u32_max)%N →
  yields s (to_be_bytes (N.of_nat (length data)) ++ data ++ rest) →
  total (read_frame tre b max s) (λ r, match r with
    | inl why => interrupted why
    | inr (s', inr (Some frame)) => fb_bytes frame = data ∧ yields s' rest
    | inr (s', inl e) => no_room e ∧ yields s' (data ++ rest)
    | inr (_, inr None) => False
    end).
Proof.
  intros Hmax Hu Hs. set (n := N.of_nat (length data)) in *.
  eapply total_bind; [apply (total_read_exact _ _ (to_be_bytes n) (data ++ rest) Hs); by rewrite length_to_be_bytes| |done].
  intros [s1 header] [-> Hs1]. cbv beta iota zeta. rewrite from_to_be_bytes by done.
  replace (max <? n)%N with false by lia. replace (isize_max <? n)%N with false by (unfold isize_max, u32_max in *; lia).
  eapply total_bind; [apply (total_room b n)| |intros why ->; by right].
  intros [e|p] Hp; [by constructor|]. unfold read_body.
  eapply (total_bind _ _ (λ r, match r with inl why => interrupted why | inr (s2, x) =>
    match x with inr f => fb_bytes f = data ∧ yields s2 rest | inl _ => False end end)); [| |done].
  - eapply total_bind; [apply (total_unwinding _ _ (has_read data rest)); [by right|apply total_drop_permit|by apply (total_read_exact s1 n data rest)]| |done].
    intros [s2 x] [-> Hs2]. by constructor.
  - intros [s2 [e|f]] Hf; [done|]. by constructor.
Qed.
End reading.
Lemma read_frame_exact_witness :
  ∃ b, total (read_frame (S:=list (list byte)) Some b 16 [[byte_of 0; byte_of 0]; [byte_of 0; byte_of 1; byte_of 7]; [byte_of 9]])
    (λ r, match r with
      | inl why => interrupted why
      | inr (s', inr (Some frame)) => fb_bytes frame = [byte_of 7] ∧ yields s' [byte_of 9]
      | inr (s', inl e) => no_room e ∧ yields s' [byte_of 7; byte_of 9]
      | inr (_, inr None) => False
      end).
Proof.
  exists (MkSharedBudget 1 true).
  apply (read_frame_exact (S:=list (list byte)) Some (MkSharedBudget 1 true) 16 _ [byte_of 7] [byte_of 9]);
    [vm_compute; discriminate|vm_compute; discriminate|vm_compute; reflexivity].
Defined.
