(* ===== verification/NativeRuns.v ===== *)
(** * Every run of the native runtime

    [runtime-native/src/lib.rs]: a runtime is made with its task slots and its CPU pool;
    application threads call it ([client]), and everything it spawns runs among them,
    action by action. *)
From S2P Require Import Prelude.
From S2P Require Import Collections.
From S2P Require Import Types.
From S2P Require Import Schema.
From S2P Require Import WorldState.
From S2P Require Import Metadata.
From S2P Require Import Diagnostics.
From S2P Require Import Actors.
From S2P Require Import Messaging.
From S2P Require Import Framing.
From S2P Require Import NativeConfig.
From S2P Require Import NativeState.
From S2P Require Import Native.
From S2P Require Import NativeLogic.
From S2P Require Import Cpu.
From S2P Require Import Tasks.
From S2P Require Import Sdk.
From S2P Require Import Executor.
From S2P Require Import NativeRules.
From S2P Require Import SdkLogic.
From S2P Require Import Computation.
From S2P Require Import Pipeline.
From S2P Require Import TcpFrames.
From S2P Require Import Tcp.
From S2P Require Import TcpLogic.

(** ** The runtime *)
Module Runtimes.
(** [NativeRuntime::new_with_cpu_config], for a World on the system clock. *)
Definition new (world : World) (max_tasks : N) (config : CpuConfig) : string + Runtime :=
  if Clocks.is_virtual (w_clock world) then inl "a virtual World requires the explicitly driven test runtime"%string else
  if (max_tasks =? 0)%N || (65536 <? max_tasks)%N then inl "native task limit must be in 1..65536"%string else
  if negb (in_range 1 64 (cc_workers config)) || negb (in_range 1 4096 (cc_max_jobs config))
  then inl "CPU workers must be in 1..64 and max_jobs in 1..4096"%string else
  inr (MkRuntime (MkShared world false ∅ ∅ ∅) (λ _, 0%N)
         (<[Slots := MkSemaphore max_tasks max_tasks false]> (Cpu.new config)) ∅ 0 0).
(** The tasks it starts with. *)
Definition services (waker : N) : list (prog unit) := [Pipelines.control_service; Pipelines.routing_service waker].
(** [opened]: the runtime has not been closed. *)
Definition after_with (opened : bool) (owner target : ActorRef) (delay : N) (payload : Payload) (o : MessageOptions) :
    prog (string + unit) :=
  if negb opened then Ret (inl "native runtime is closed"%string) else
  do! r := Tasks.after_inner owner target delay payload o None in
  Ret match r with inr a => inr a | inl e => inl (Native.display e) end.
Definition after (opened : bool) (owner target : ActorRef) (delay : N) (payload : Payload) : prog (string + unit) :=
  after_with opened owner target delay payload default_options.
End Runtimes.

(** ** Application threads *)
Inductive client : ∀ {A}, prog A → Prop :=
| client_app {A} (p : prog A) : app true p → client p
| client_bind {A B} (m : prog A) (k : A → prog B) : client m → (∀ a, client (k a)) → client (pbind m k)
| client_loop {S A} (body : S → prog (S + A)) s : (∀ s, client (body s)) → client (loop body s)
| client_prepare {C} `{!NativeBehavior C, !BehaviorCode C} opened cpu parent spec configuration
    (factory : Value → prog (native_error + C)) :
    (∀ v, app false (factory v)) → client (Executor.prepare_native opened cpu parent spec configuration factory)
| client_after opened owner target delay payload o : client (Runtimes.after_with opened owner target delay payload o)
| client_counter opened parent interval window target :
    client (Pipelines.start_counter opened parent interval window target)
| client_listen {L S} `{!TcpNetwork L S, !AsyncReader S, !AsyncWriter S} try_reserve_exact opened parent target config :
    client (listen_tcp (L:=L) (S:=S) try_reserve_exact opened parent target config)
| client_active max : client (Pipelines.active_tasks max)
| client_stats config : client (Cpu.stats config)
| client_idle max timeout : client (Pipelines.wait_native_idle max timeout)
| client_close opened timed_out max timeout : client (Pipelines.close opened timed_out max timeout).

Lemma client_bal {A} (p : prog A) : client p → bal true p.
Proof.
  induction 1.
  - by apply app_bal.
  - by apply bal_bind.
  - by apply bal_loop.
  - by apply bal_async, prepare_uses.
  - unfold Runtimes.after_with. destruct (negb opened); [apply bal_ret|]. apply bal_bind; [|intros; apply bal_ret].
    apply bal_async. by apply (uses_after_inner _ _ _ _ _ None).
  - apply bal_start_counter.
  - apply bal_async, bal_listen_tcp.
  - apply bal_active_tasks.
  - unfold Cpu.stats. repeat (apply bal_bind; [apply bal_counter|]; intros ?). apply bal_ret.
  - apply bal_wait_native_idle.
  - apply bal_close_runtime.
Qed.

(** ** Limits never change *)
Definition limits_of (s : Runtime) (p : pool) : N := sm_limit (pool_of s p).
Lemma act_limits oracle {A} (a : act A) s p :
  p ∈ [Slots; Workers; CpuJobs] → limits_of (run_act oracle a s).2 p = limits_of s p.
Proof.
  intros Hp.
  assert (∀ q f, (∀ m, sm_limit (f m) = sm_limit m) → limits_of (on_pool q f s) p = limits_of s p) as Hon.
  { intros q f Hf. unfold limits_of. rewrite pool_of_on. case_decide; [|done]. subst. unfold pool_of.
    destruct (rt_pools s !! q); [apply Hf|done]. }
  destruct a; simpl; try done; try (by apply Hon).
  - by destruct (f (rt_shared s)).
  - destruct (negb _ && _); [by apply Hon|done].
  - destruct (sm_closed _); [done|]. destruct (oracle && _); [by apply Hon|done].
  - unfold limits_of, pool_of. cbn [rt_pools set_field]. rewrite lookup_insert_ne; [done|]. set_solver.
  - destruct (checked_add _ _ _); [|done]. by destruct (_ <? _)%N.
Qed.
Lemma step_limits m m' p : rt_step m m' → p ∈ [Slots; Workers; CpuJobs] → limits_of m'.2 p = limits_of m.2 p.
Proof.
  intros [ts s i q oracle q' s' tasks _ Hs|] Hp; [|done]. simpl. destruct q; simpl in Hs; try done; simplify_eq; try done.
  pose proof (act_limits oracle a s p Hp) as H. destruct (run_act oracle a s). by simplify_eq.
Qed.
Lemma run_limits m m' p : rtc rt_step m m' → p ∈ [Slots; Workers; CpuJobs] → limits_of m'.2 p = limits_of m.2 p.
Proof. intros Hr Hp. induction Hr as [|x y z Hs Hr IH]; [done|]. by rewrite IH, (step_limits x y). Qed.

Definition start (waker : N) (ts : list (prog unit)) (s : Runtime) : machine := (Runtimes.services waker ++ ts, s).
Lemma services_balanced waker : Forall (bal true) (Runtimes.services waker).
Proof. constructor; [apply bal_control_service|]. constructor; [apply bal_routing_service|constructor]. Qed.
Lemma fresh_checked world max_tasks config s waker (ts : list (prog unit)) :
  Runtimes.new world max_tasks config = inr s → Forall client ts →
  checked (start waker ts s) ∧ limits_of s Slots = max_tasks ∧ limits_of s Workers = cc_workers config ∧
  limits_of s CpuJobs = cc_max_jobs config ∧ (cc_max_jobs config ≤ 4096)%N.
Proof.
  unfold Runtimes.new, in_range. intros H Hts. repeat case_match; simplify_eq.
  assert (cc_max_jobs config ≤ 4096)%N as Hmax by lia.
  split; [|split_and!; try done; lia]. unfold start. set (all := Runtimes.services waker ++ ts).
  assert (Forall (bal true) all) as Hall.
  { apply Forall_app. split; [apply services_balanced|]. eapply Forall_impl; [exact Hts|]. intros p. apply client_bal. }
  clearbody all. exists ((λ _, []) <$> all). split.
  - apply Forall2_fmap_r, Forall_Forall2_diag. eapply Forall_impl; [exact Hall|]. intros p Hp.
    eapply wp_mono; [| |exact Hp]; [done|]. intros w h. apply ends_settled.
  - assert (concat ((λ _, []) <$> all : list (list token)) = []) as ->.
    { clear. induction all; simpl; auto. }
    split; try done.
    + intros p. unfold pool_of. simpl. change (owns _ []) with 0%N.
      destruct (_ !! p) as [m|] eqn:E; [|done].
      unfold Cpu.new in E. rewrite !lookup_insert_Some, lookup_singleton_Some in E. 
      destruct E as [[<- <-]|[? [[<- <-]|[? [<- <-]]]]]; simpl; lia.
    + change (cc_max_jobs config < 2 ^ 64)%N. lia.
Qed.

(** ** What holds in every run *)
Definition permits_used (s : Runtime) (p : pool) : N := (limits_of s p - sm_available (pool_of s p))%N.
Lemma over_spends {A} (p : prog A) h : over p → wp p h (λ _, spent) settled → h = [].
Proof. destruct p as [| |? ? ? ?|? ? ?|]; try done; [by intros _ [_ ?]|]. intros Hw [_ Hs]. apply Hs. by intros ->. Qed.
Lemma all_over ts hs : Forall over ts → Forall2 thread_ok ts hs → concat hs = [].
Proof.
  intros Ho. induction 1 as [|p h ts hs Hp Hall IH]; [done|]. inversion Ho; subst. simpl.
  by rewrite (over_spends p h), IH.
Qed.

(** Jobs submitted and not finished yet, from the counters alone. *)
Definition unfinished (s : Runtime) : N :=
  Z.to_N ((Z.of_N (rt_counters s Submitted) - Z.of_N (rt_counters s Completed) - Z.of_N (rt_counters s Cancelled) -
           Z.of_N (rt_counters s Panicked)) mod 2 ^ 64).
Lemma unfinished_live s h : accounted s h → fits h → unfinished s = owns TLive h.
Proof.
  intros [_ _ Hl Hp Hj _ _ _] [_ _ Hf _]. unfold unfinished. specialize (Hp CpuJobs).
  apply (f_equal Z.of_N) in Hl. rewrite !N2Z.inj_mod, !N2Z.inj_add in Hl.
  change (Z.of_N (2 ^ 64)) with (2 ^ 64)%Z in Hl.
  replace (_ - _)%Z with (Z.of_N (rt_counters s Submitted) -
    (Z.of_N (rt_counters s Completed) + Z.of_N (rt_counters s Cancelled) + Z.of_N (rt_counters s Panicked)))%Z by lia.
  rewrite Zminus_mod, Hl, <- Zminus_mod.
  replace (_ - _)%Z with (Z.of_N (owns TLive h)) by lia.
  rewrite Z.mod_small; [by rewrite N2Z.id|]. lia.
Qed.
(** What a checked machine's counters say. *)
Record cpu_account (s : Runtime) : Prop := {
  cp_jobs : (rt_counters s Queued + rt_counters s Running ≤ permits_used s CpuJobs)%N;
  cp_running : (rt_counters s Running ≤ permits_used s Workers)%N;
  cp_unfinished : (unfinished s ≤ permits_used s CpuJobs)%N;
  cp_slots : (unfinished s ≤ permits_used s Slots)%N;
  cp_permits : ∀ p, (permits_used s p + sm_available (pool_of s p) = limits_of s p)%N;
}.
Definition cpu_idle (s : Runtime) : Prop :=
  rt_counters s Queued = 0%N ∧ rt_counters s Running = 0%N ∧ unfinished s = 0%N ∧
  ∀ p, sm_available (pool_of s p) = limits_of s p.
Lemma owned_permits s h p : accounted s h → owns (TPermit p) h = permits_used s p.
Proof. intros [_ _ _ Hp _ _ _ _]. unfold permits_used, limits_of. specialize (Hp p). lia. Qed.
Lemma accounted_cpu s h : accounted s h → fits h → cpu_account s.
Proof.
  intros Ha Hf. pose proof (unfinished_live s h Ha Hf) as Hl. pose proof Ha as [Hq Hr _ Hp _ _ _ _].
  destruct Hf as [H1 H2 H3 H4]. split; rewrite ?Hq, ?Hr, ?Hl, <- ?(owned_permits _ _ _ Ha); try done.
  intros p. specialize (Hp p). unfold permits_used, limits_of. lia.
Qed.
Lemma accounted_idle s : accounted s [] → cpu_idle s.
Proof.
  intros Ha. pose proof (unfinished_live s [] Ha fits_nil) as Hl. destruct Ha as [Hq Hr _ Hp _ _ _ _].
  split_and!; [done..|]. intros p. specialize (Hp p). unfold limits_of. change (owns _ []) with 0%N in Hp. lia.
Qed.
Lemma checked_cpu m : checked m → cpu_account m.2 ∧ (Forall over m.1 → cpu_idle m.2).
Proof.
  intros (hs & Hall & Ha). split.
  - eapply accounted_cpu; [exact Ha|]. apply fits_concat. eapply Forall2_Forall_r; [exact Hall|].
    apply Forall_forall. intros q _ x. apply wp_fits.
  - intros Hover. apply accounted_idle. by rewrite <- (all_over _ _ Hover Hall).
Qed.

(** C11. Whatever application threads do to a fresh runtime, and in every interleaving:
    the jobs queued and running never exceed the job permits taken, nor those running
    the worker permits taken, which stay within what was configured; jobs submitted
    and not finished (completed, cancelled or panicked, counters modulo 2^64) each hold
    a job permit and a task slot; no permit is lost or forged.  Once every thread is
    over no job is left and every permit is back. *)
Theorem cpu_accounting world max_tasks config s waker ts ts' r :
  Runtimes.new world max_tasks config = inr s → Forall client ts → rtc rt_step (start waker ts s) (ts', r) →
  cpu_account r ∧
  limits_of r Slots = max_tasks ∧ limits_of r Workers = cc_workers config ∧ limits_of r CpuJobs = cc_max_jobs config ∧
  (Forall over ts' → cpu_idle r).
Proof.
  intros Hnew Hts Hrun. destruct (fresh_checked _ _ _ _ waker _ Hnew Hts) as (Hc & Hs & Hw & Hj & _).
  pose proof (accounted_reachable _ _ Hrun Hc) as (Hacc & Hidle)%checked_cpu. simpl in *.
  pose proof (λ p, run_limits _ _ p Hrun) as Hlim. simpl in Hlim. rewrite <- Hs, <- Hw, <- Hj.
  split_and!; [done|apply Hlim; set_solver..|done].
Qed.

(** A request answered by a CPU job: the client, the component, the job and its
    blocking thread. *)
Definition sum_client : prog unit :=
  do! prepared := SumSquares.prepare_sum_squares true false None in
  match prepared with
  | inl _ => Ret tt
  | inr h =>
      on_world (activate (Executor.nh_owner h)) ;;>
      do! client := on_world (allocate EndpointKind.Native None) in
      match client with
      | inl _ => Ret tt
      | inr c =>
          on_world (activate c) ;;>
          on_world (request_with_port c (Executor.nh_owner h) (Pulse 3) (seconds 10) default_options None) ;;>
          Ret tt
      end
  end.
Definition sum_start : option Runtime :=
  match with_clock 1 config_default (Clocks.system 5 []) with
  | Ok w => match Runtimes.new w 4 Cpu.default_config with inr s => Some s | inl _ => None end
  | _ => None
  end.
Definition sum_machine (s : Runtime) : machine :=
  schedule (replicate 40 (Run 2 true) ++ replicate 60 (Run 3 true) ++ replicate 60 (Run 4 true) ++ replicate 8 (Run 5 true))
    (start 0 [sum_client] s).
Definition sum_counters : option (N * N * N * N) :=
  s ← sum_start;
  let r := (sum_machine s).2 in
  Some (rt_counters r Running, unfinished r, permits_used r CpuJobs, permits_used r Slots).
Lemma sum_client_ok : client sum_client.
Proof.
  apply client_bind; [by apply client_prepare; constructor|]. intros [e|h]; [by repeat constructor|].
  apply client_app. repeat (apply app_bind; [apply app_on_world|]; intros ?).
  case_match; [constructor|]. repeat (apply app_bind; [apply app_on_world|]; intros ?). constructor.
Qed.
Lemma cpu_accounting_witness :
  sum_counters = Some (1, 1, 1, 2)%N ∧
  ∀ s, sum_start = Some s → cpu_account (sum_machine s).2.
Proof.
  split; [vm_compute; reflexivity|]. intros s Hs. unfold sum_start in Hs.
  destruct (with_clock 1 config_default (Clocks.system 5 [])) as [w| |]; [|discriminate|discriminate].
  destruct (Runtimes.new w 4 Cpu.default_config) as [|s0] eqn:Hnew; [discriminate|]. injection Hs as ->.
  refine (proj1 (cpu_accounting w 4 Cpu.default_config s 0 [sum_client] (sum_machine s).1 (sum_machine s).2 Hnew _ _)).
  - constructor; [exact sum_client_ok|constructor].
  - rewrite <- surjective_pairing. apply schedule_reachable.
Defined.
