(* ===== verification/TcpRuns.v ===== *)
(** * Every run of a listener

    [buffers_accounted]: in every interleaving of a runtime whose threads may listen,
    the bytes charged to the buffers of a listener are those its connections hold. *)
From S2P Require Import Prelude.
From S2P Require Import Collections.
From S2P Require Import Text.
From S2P Require Import Types.
From S2P Require Import Schema.
From S2P Require Import WorldState.
From S2P Require Import Metadata.
From S2P Require Import Diagnostics.
From S2P Require Import Actors.
From S2P Require Import Messaging.
From S2P Require Import Framing.
From S2P Require Import NativeConfig.
From S2P Require Import NativeState.
From S2P Require Import Native.
From S2P Require Import NativeLogic.
From S2P Require Import Cpu.
From S2P Require Import Tasks.
From S2P Require Import Sdk.
From S2P Require Import Executor.
From S2P Require Import NativeRules.
From S2P Require Import SdkLogic.
From S2P Require Import TcpFrames.
From S2P Require Import Tcp.
From S2P Require Import TcpLogic.
From S2P Require Import NativeRuns.

(** ** The limit of a budget never changes *)
Definition has_limit (b limit : N) (s : Runtime) : Prop := ∃ d, rt_budgets s !! b = Some d ∧ bd_limit d = limit.
Definition has_limitb (b limit : N) (s : Runtime) : bool :=
  match rt_budgets s !! b with Some d => (bd_limit d =? limit)%N | None => false end.
Lemma has_limit_true b limit s : has_limitb b limit s = true → has_limit b limit s.
Proof. unfold has_limitb. destruct (rt_budgets s !! b) as [d|] eqn:Hd; [|done]. intros H%N.eqb_eq. by exists d. Qed.
Lemma on_budget_limit b limit b' f s :
  (∀ d, bd_limit (f d) = bd_limit d) → has_limit b limit s → has_limit b limit (on_budget b' f s).
Proof.
  intros Hf (d & Hd & Hl). unfold has_limit, on_budget. cbn [rt_budgets set_field].
  destruct (decide (b = b')) as [->|Hne].
  - rewrite lookup_alter_eq, Hd. exists (f d). by rewrite Hf.
  - rewrite lookup_alter_ne by done. eauto.
Qed.
Lemma act_budget oracle {A} (a : act A) s b limit :
  (∀ c, (rt_components s ≤ c)%N → rt_budgets s !! c = None) → has_limit b limit s → has_limit b limit (run_act oracle a s).2.
Proof.
  intros Hfresh Hb. destruct a; simpl; try done; try (by apply on_budget_limit).
  - by destruct (f (rt_shared s)).
  - by destruct (negb _ && _).
  - destruct (sm_closed _); [done|]. by destruct (oracle && _).
  - destruct Hb as (d & Hd & Hl). exists d. cbn [rt_budgets set_field]. split; [|done].
    rewrite lookup_insert_ne; [done|]. intros <-. by rewrite Hfresh in Hd.
  - destruct (checked_add _ _ _); [|done]. destruct (_ <? _)%N; [done|]. by apply on_budget_limit.
Qed.
Lemma step_budget m m' b limit : rt_step m m' → checked m → has_limit b limit m.2 → has_limit b limit m'.2.
Proof.
  intros [ts s i q oracle q' s' tasks _ Hs|] (hs & _ & Ha) Hb; [|done]. simpl in *.
  destruct q; simpl in Hs; try done; simplify_eq; try done.
  pose proof (act_budget oracle a s b limit (λ c Hc, proj2 (ac_fresh _ _ Ha c Hc)) Hb) as H.
  destruct (run_act oracle a s). by simplify_eq.
Qed.
Lemma run_budget m m' b limit : rtc rt_step m m' → checked m → has_limit b limit m.2 → has_limit b limit m'.2.
Proof. induction 1 as [|x y z Hs Hr IH]; [done|]. eauto using step_budget, checked_step. Qed.

(** ** What threads hold *)

(** The bytes of [b] in use are shares of the threads, and a thread that is over has
    none. *)
Definition shared_out (ts : list (prog unit)) (used : N) : Prop :=
  ∃ shares, Forall2 (λ p n, over p → n = 0%N) ts shares ∧ used = foldr N.add 0%N shares.
Lemma owns_concat t hs : owns t (concat hs) = foldr N.add 0%N (owns t <$> hs).
Proof. induction hs as [|h hs IH]; simpl; [done|]. by rewrite owns_app, IH. Qed.
Lemma checked_shared m b : checked m → shared_out m.1 (bd_used (budget_of m.2 b)).
Proof.
  intros (hs & Hall & Ha). exists (owns (TByte b) <$> hs). split; [|by rewrite (ac_budgets _ _ Ha), owns_concat].
  apply Forall2_fmap_r. eapply Forall2_impl; [exact Hall|]. intros p h Hp Ho. simpl.
  by rewrite (over_spends p h Ho Hp).
Qed.
Lemma shared_idle ts used : shared_out ts used → Forall over ts → used = 0%N.
Proof.
  intros (shares & Hall & ->). induction Hall as [|p n ts shares Hp Hall IH]; [done|]. intros Ho. inversion Ho; subst.
  simpl. rewrite IH by done. by rewrite Hp.
Qed.

(** ** A run: a client of the echo component over one connection *)
Definition script : Type := list (list byte) * list byte.
Definition script_read (s : script) (n : N) : (N + list byte) * script := let '(r, input) := read s.1 n in (r, (input, s.2)).
#[export] Instance script_reader : AsyncReader script.
Proof.
  refine {| read := script_read; yields := λ s, yields s.1 |}.
  - intros [i o] n chunk s'. unfold script_read. simpl. destruct (read_chunk i n) as [r i'] eqn:E. intros [= -> <-].
    by eapply (read_fits (R:=list (list byte))).
  - intros [i o] n Hy. destruct (read_end i n Hy) as (i' & Hr & Hy'). exists (i', o). split; [|done].
    unfold script_read. simpl in *. by rewrite Hr.
  - intros [i o] n bs Hy Hne Hn. destruct (read_some i n bs Hy Hne Hn) as (chunk & rest & i' & ? & ? & ? & Hr & ?).
    exists chunk, rest, (i', o). split_and!; try done. unfold script_read. simpl in *. by rewrite Hr.
Defined.
#[export] Instance script_writer : AsyncWriter script.
Proof.
  refine {| write_all := λ s bs, (inr tt, (s.1, s.2 ++ bs)); written := λ s, s.2 |}. by intros [i o] bs s' [= <-].
Defined.
(** A listener is the connections that will arrive; then it fails. *)
#[export] Instance script_network : TcpNetwork (list script) script := {|
  bind_to _ := inr [([[byte_of 0; byte_of 0]; [byte_of 0; byte_of 2; byte_of 7]; [byte_of 8]], [])];
  set_nonblocking := inr; local_addr _ := inr (SocketV4 localhost 4000); from_std := inr;
  accept l := match l with s :: l => (inr s, l) | [] => (inl 0%N, []) end |}.
Definition echo_client : prog unit :=
  do! prepared := Echoes.prepare_tcp_echo true false None in
  match prepared with
  | inl _ => Ret tt
  | inr h =>
      on_world (activate (Executor.nh_owner h)) ;;>
      do! parent := on_world (allocate EndpointKind.Native None) in
      match parent with
      | inl _ => Ret tt
      | inr parent =>
          on_world (activate parent) ;;>
          listen_tcp (L:=list script) (S:=script) Some true parent (Executor.nh_owner h) TcpConfigs.default ;;>
          Ret tt
      end
  end.
Definition echo_start : option Runtime :=
  match with_clock 1 config_default (Clocks.system 5 []) with
  | Ok w => match Runtimes.new w 4 Cpu.default_config with inr s => Some s | inl _ => None end
  | _ => None
  end.
(** The frame has been read and its scratch space reserved; then the request is
    answered, the reply written and the connection closed. *)
Definition echo_middle (s : Runtime) : machine :=
  schedule (replicate 60 (Run 2 true) ++ replicate 28 (Run 4 true) ++ replicate 45 (Run 5 true)) (start 0 [echo_client] s).
Definition echo_end (s : Runtime) : machine :=
  schedule (replicate 15 (Run 5 true) ++ replicate 80 (Run 3 true) ++ replicate 80 (Run 5 true)) (echo_middle s).
Definition written_frames (r : Runtime) : N :=
  foldr N.add 0%N ((λ c, match c.2 with TcpStatistics st => tp_frames_written st | _ => 0%N end) <$> map_to_list (sh_cells (rt_shared r))).
Definition echo_counts : option (N * N * N * N) :=
  s ← echo_start;
  d ← rt_budgets (echo_middle s).2 !! 1%N;
  Some (bd_limit d, bd_used d, bd_used (budget_of (echo_end s).2 1), written_frames (echo_end s).2).
Lemma echo_client_ok : client echo_client.
Proof.
  apply client_bind.
  { apply client_bind; [apply client_app; repeat constructor; intros []; constructor|].
    intros [e|schema]; [apply client_app; constructor|]. apply client_prepare. constructor. }
  intros [e|h]; [by repeat constructor|].
  apply client_bind; [apply client_app, app_on_world|]. intros _.
  apply client_bind; [apply client_app, app_on_world|]. intros [e|parent]; [by repeat constructor|].
  apply client_bind; [apply client_app, app_on_world|]. intros _.
  apply client_bind; [apply client_listen|]. intros _. by repeat constructor.
Qed.

(** C13. Whatever application threads do to a fresh runtime, listening for connections
    included, and in every interleaving with the connections: the bytes in use of every
    buffer budget are within the limit it was made with, which never changes; they are
    shares held by the threads that are not over, so nothing stays charged for a
    connection that has ended, however it ended.  When every thread is over no bytes
    are in use and every permit, the connection slots included, is back. *)
Theorem buffers_accounted world max_tasks config s waker ts ts1 r1 ts2 r2 b limit :
  Runtimes.new world max_tasks config = inr s → Forall client ts →
  rtc rt_step (start waker ts s) (ts1, r1) → has_limit b limit r1 → rtc rt_step (ts1, r1) (ts2, r2) →
  has_limit b limit r2 ∧ (bd_used (budget_of r2 b) ≤ limit)%N ∧ shared_out ts2 (bd_used (budget_of r2 b)) ∧
  (Forall over ts2 → bd_used (budget_of r2 b) = 0%N ∧ ∀ p, sm_available (pool_of r2 p) = limits_of r2 p).
Proof.
  intros Hnew Hts Hrun1 Hb Hrun2. destruct (fresh_checked _ _ _ _ waker _ Hnew Hts) as (Hc & _).
  pose proof (accounted_reachable _ _ Hrun1 Hc) as Hc1. pose proof (accounted_reachable _ _ Hrun2 Hc1) as Hc2.
  pose proof (run_budget _ _ _ _ Hrun2 Hc1 Hb) as Hb2. pose proof (checked_shared _ b Hc2) as Hs.
  split_and!; [done| |done|].
  - destruct Hc2 as (hs & _ & Ha). destruct Hb2 as (d & Hd & <-). simpl in *.
    pose proof (ac_within _ _ Ha b) as [Hw _]. unfold budget_of in *. by rewrite Hd in *.
  - intros Ho. split; [by eapply shared_idle|]. apply checked_cpu in Hc2 as [_ Hidle]. by apply Hidle.
Qed.
Lemma buffers_accounted_witness :
  echo_counts = Some (1048576, 14, 0, 1)%N ∧
  ∀ s, echo_start = Some s → shared_out (echo_end s).1 (bd_used (budget_of (echo_end s).2 1)).
Proof.
  split; [vm_compute; reflexivity|]. intros s Hs.
  assert (match echo_start with Some s => has_limitb 1 1048576 (echo_middle s).2 | None => false end = true) as Hb
    by (vm_compute; reflexivity).
  rewrite Hs in Hb. apply has_limit_true in Hb.
  unfold echo_start in Hs.
  destruct (with_clock 1 config_default (Clocks.system 5 [])) as [w| |]; [|discriminate|discriminate].
  destruct (Runtimes.new w 4 Cpu.default_config) as [|s0] eqn:Hnew; [discriminate|]. injection Hs as ->.
  refine (proj1 (proj2 (proj2 (buffers_accounted w 4 Cpu.default_config s 0 [echo_client] (echo_middle s).1 (echo_middle s).2
    (echo_end s).1 (echo_end s).2 1 1048576 Hnew _ _ Hb _)))).
  - constructor; [exact echo_client_ok|constructor].
  - rewrite <- surjective_pairing. apply schedule_reachable.
  - rewrite <- !surjective_pairing. apply schedule_reachable.
Defined.
