(* ===== verification/Virtual.v ===== *)
(** * The explicitly driven runtime

    [runtime-native/src/testing.rs]: a native runtime without worker threads, whose tasks
    run only while its thread pumps it, and whose time moves only by [advance_virtual];
    [runtime-test/src/lib.rs]: the facade tests use.

    What Tokio's scheduler does while the thread is in [block_on] is a script of
    [turn]s, given from outside: which task it polls, when it parks, when it comes back to
    the future it was given.  A call whose script runs out has not returned ([Waiting]). *)
From S2P Require Import Prelude.
From S2P Require Import Collections.
From S2P Require Import Text.
From S2P Require Import Types.
From S2P Require Import Diagnostics.
From S2P Require Import WorldState.
From S2P Require Import Publishing.
From S2P Require Import Actors.
From S2P Require Import Messaging.
From S2P Require Import Components.
From S2P Require Import Views.
From S2P Require Import NativeConfig.
From S2P Require Import NativeState.
From S2P Require Import Native.
From S2P Require Import Tasks.
From S2P Require Import Executor.
From S2P Require Import Controls.
From S2P Require Import Pipeline.

Module Virtuals.
(** ** The drive signal *)

(** [ds_driver]: a waker of the driver is registered; [ds_woken]: it was invoked, so
    that Tokio polls the driver again. *)
Record DriveSignal := MkDriveSignal { ds_polls : N; ds_parked : bool; ds_driver : bool; ds_woken : bool }.
#[export] Instance DriveSignal_expand : Expand DriveSignal := λ r,
  MkDriveSignal (ds_polls r) (ds_parked r) (ds_driver r) (ds_woken r).
Definition new_signal : DriveSignal := MkDriveSignal 0 false false false.
Definition wake_driver (s : DriveSignal) : DriveSignal :=
  if ds_driver s then s <| ds_woken := true |> else s.
Definition park (s : DriveSignal) : DriveSignal := wake_driver (s <| ds_parked := true |>).
Definition polled (s : DriveSignal) : DriveSignal :=
  wake_driver (s <| ds_polls ::= λ n, saturating_add u64_max n 1 |>).

(** ** The scheduler *)

(** [Poll]: a task is polled, and runs as far as its choices go.  [Cancel]: a cancelled
    task is dropped.  [Park]: nothing is ready; Tokio's paused clock may then move on its
    own.  [Driver]: Tokio comes back to the future of [block_on]. *)
Inductive turn := Poll (task : nat) (choices : list bool) | Cancel (task : nat) (steps : nat) | Park (moved : N) | Driver.
#[export] Instance turn_eq_dec : EqDecision turn.
Proof. solve_decision. Defined.
Record Virtual := MkVirtual {
  vr_machine : machine; vr_signal : DriveSignal; vr_turns : list turn; vr_opened : bool; vr_timed_out : bool;
  vr_max : N; vr_owner : option N }.
#[export] Instance Virtual_expand : Expand Virtual := λ r,
  MkVirtual (vr_machine r) (vr_signal r) (vr_turns r) (vr_opened r) (vr_timed_out r) (vr_max r) (vr_owner r).
Definition on_state (f : Runtime → Runtime) (v : Virtual) : Virtual := v <| vr_machine ::= λ m, (m.1, f m.2) |>.
Definition world_of (v : Virtual) : World := sh_world (rt_shared (vr_machine v).2).
(** [VirtualClock::current], and [time::Instant::now]. *)
Definition current (v : Virtual) : Instant := ck_time (w_clock (world_of v)).
Definition tokio_now (v : Virtual) : Instant := rt_time (vr_machine v).2.

(** [Tracked]: a poll is counted before the task runs. *)
Definition run_turn (t : turn) (v : Virtual) : Virtual :=
  match t with
  | Poll i choices => v <| vr_signal ::= polled |> <| vr_machine ::= schedule (Run i <$> choices) |>
  | Cancel i steps => v <| vr_machine ::= schedule (replicate steps (Run i false)) |>
  | Park moved => v <| vr_signal ::= park |> <| vr_machine ::= choose (Pass moved) |>
  | Driver => v
  end.

Inductive call_error := Fails (message : string) | Waiting.
Abbreviation V := (M Virtual call_error).
Definition fails {A} (message : string) : V A := fail (Fails message).
(** [Runtime::block_on], at a script: the future is polled at once when it was woken,
    or is new. *)
Section block_on.
Context {L A : Type} (poll : L → Virtual → (L + A) * Virtual).
Fixpoint blocked (turns : list turn) (l : L) (v : Virtual) : outcome call_error A * Virtual :=
  match turns with
  | [] => (Err Waiting, v <| vr_turns := [] |>)
  | Driver :: turns =>
      if negb (ds_woken (vr_signal v)) then blocked turns l v else
      match poll l (v <| vr_signal ::= λ s, s <| ds_woken := false |> |>) with
      | (inl l, v) => blocked turns l v
      | (inr a, v) => (Ok a, v <| vr_turns := turns |>)
      end
  | t :: turns => blocked turns l (run_turn t v)
  end.
Definition block_on (l : L) : V A := λ v, blocked (vr_turns v) l (v <| vr_signal ::= λ s, s <| ds_woken := true |> |>).
End block_on.

(** ** Calls of the driver's thread *)

(** A call on the World: it panics when the lock is poisoned. *)
Definition world_call {A} (m : WM A) : V A := λ v,
  let '(o, shared) := locked m (rt_shared (vr_machine v).2) in
  (match o with Ok a => Ok a | Err e => Err (Fails (Native.error_name e)) | Panic => Panic end,
   on_state (λ s, s <| rt_shared := shared |>) v).
Definition world_now : V Instant := λ v,
  let '(t, c) := Clocks.now (w_clock (world_of v)) in
  (Ok t, on_state (λ s, s <| rt_shared ::= λ sh, sh <| sh_world ::= λ w, w <| w_clock := c |> |> |>) v).
Definition maintain_now : V unit :=
  let! t := world_now in
  world_call (maintain t).
(** Who calls: its thread, and whether it is inside a Tokio runtime. *)
Record caller := MkCaller { cl_thread : N; cl_inside : bool }.
Definition virtual_state (c : caller) : V unit :=
  let! v := get in
  match vr_owner v with
  | None => fails "runtime is not a TestWorld"
  | Some owner =>
      if negb (owner =? cl_thread c)%N then fails "TestWorld must be driven on its creating thread" else
      if cl_inside c then fails "TestWorld driving is not reentrant" else ret tt
  end.
Definition runtime_open : V unit :=
  let! v := get in
  if vr_opened v then ret tt else fails "native runtime is closed".
Definition active_tasks (v : Virtual) : N := (vr_max v - sm_available (pool_of (vr_machine v).2 Slots))%N.

(** ** [new_virtual] *)

(** The routing task is the only one from the start; there is no CPU pool.  [epoch] is
    Tokio's clock, [world_id] the next World identifier. *)
Definition new_virtual (c : caller) (epoch world_id waker : N) (config : Config) (max_tasks : N) (turns : list turn) :
    outcome string Virtual :=
  if cl_inside c then Err "TestWorld cannot be constructed inside a Tokio runtime"%string else
  if (max_tasks =? 0)%N || (65536 <? max_tasks)%N then Err "native task limit must be in 1..65536"%string else
  match with_clock world_id config (Clocks.manual_at epoch) with
  | Ok world =>
      Ok (MkVirtual ([Pipelines.routing_service waker],
            MkRuntime (MkShared world false ∅ ∅ ∅) (λ _, 0%N) {[Slots := MkSemaphore max_tasks max_tasks false]} ∅ 0 epoch)
            new_signal turns true false max_tasks (Some (cl_thread c)))
  | Err e => Err (Native.error_name e)
  | Panic => Panic
  end.
Definition is_virtual (v : Virtual) : bool := bool_decide (is_Some (vr_owner v)).

(** ** [pump_virtual] *)
Record PumpReport := MkPumpReport { pr_polls : N; pr_idle : bool }.
Definition pump_poll (start max_polls : N) (last_idle : option N) (v : Virtual) : (option N + PumpReport) * Virtual :=
  let v := v <| vr_signal ::= λ s, s <| ds_driver := true |> |> in
  let polls := ds_polls (vr_signal v) in
  let done := saturating_sub polls start in
  if (polls =? u64_max)%N || (max_polls <=? done)%N then (inr (MkPumpReport done false), v) else
  if ds_parked (vr_signal v) then
    let v := v <| vr_signal ::= λ s, s <| ds_parked := false |> |> in
    if bool_decide (last_idle = Some polls) then (inr (MkPumpReport done true), v) else (inl (Some polls), v)
  else (inl last_idle, v).
Definition bad_polls (max_polls : N) : bool := negb (in_range 1 1000000 max_polls).
Definition pump_virtual (c : caller) (max_polls : N) : V PumpReport :=
  if bad_polls max_polls then fails "max_polls must be in 1..1000000" else
  virtual_state c ;;;
  runtime_open ;;;
  maintain_now ;;;
  modify (λ v, v <| vr_signal ::= λ s, s <| ds_parked := false |> |>) ;;;
  let! v := get in
  let! result := block_on (pump_poll (ds_polls (vr_signal v)) max_polls) None in
  modify (λ v, v <| vr_signal ::= λ s, s <| ds_driver := false |> |>) ;;;
  let! v := get in
  if negb (tokio_now v =? current v)%N
  then fails "TestWorld clock advanced without an explicit advance" else
  maintain_now ;;;
  ret result.

(** ** [advance_virtual] *)

(** [VirtualClock::advance]. *)
Definition clock_advance (duration : N) : V unit := λ v,
  let '(r, c) := Clocks.advance duration (w_clock (world_of v)) in
  (match r with inr _ => Ok tt | inl e => Err (Fails (Native.error_name e)) end,
   on_state (λ s, s <| rt_shared ::= λ sh, sh <| sh_world ::= λ w, w <| w_clock := c |> |> |>) v).
(** [time::advance]: Tokio's clock has moved when its future yields; tasks may run before it
    is polled again. *)
Definition advance_poll (duration : N) (moved : bool) (v : Virtual) : (bool + unit) * Virtual :=
  if moved then (inr tt, v)
  else (inl true, on_state (λ s, s <| rt_time ::= λ t, t + duration |>)%N v <| vr_signal ::= λ s, s <| ds_woken := true |> |>).
Definition time_advance (duration : N) : V unit := block_on (advance_poll duration) false.
(** [advanced_polls + report.polls]: an overflow panics. *)
Definition add_polls (advanced : N) (r : PumpReport) : V PumpReport :=
  let! polls := expect (checked_add u64_max advanced (pr_polls r)) in
  ret (MkPumpReport polls (pr_idle r)).
Definition advance_virtual (c : caller) (duration max_polls : N) : V PumpReport :=
  if (max_period <? duration)%N then fails "virtual advance exceeds 24 hours" else
  if bad_polls max_polls then fails "max_polls must be in 1..1000000" else
  virtual_state c ;;;
  runtime_open ;;;
  clock_advance duration ;;;
  maintain_now ;;;
  let! before := gets (λ v, ds_polls (vr_signal v)) in
  time_advance duration ;;;
  let! after := gets (λ v, ds_polls (vr_signal v)) in
  let advanced := saturating_sub after before in
  let remaining := saturating_sub max_polls advanced in
  if (remaining =? 0)%N then ret (MkPumpReport advanced false) else
  let! report := pump_virtual c remaining in
  add_polls advanced report.

(** ** [wait_virtual_idle] *)
Definition busy : V bool :=
  let! v := get in
  if (0 <? active_tasks v)%N then ret true else
  let! pending := world_call (gets routing_pending) in
  ret (0 <? pending)%N.
Definition spent (remaining : N) (r : PumpReport) : N := saturating_sub remaining (N.max (pr_polls r) 1).
(** The body of the loop: the poll budget left, or the answer. *)
Definition idle_round (c : caller) (deadline remaining : N) : V (N + bool) :=
  let! report := pump_virtual c remaining in
  let remaining := spent remaining report in
  let! b := busy in
  if negb b then ret (inr true) else
  let! t := world_now in
  if (deadline <=? t)%N || (remaining =? 0)%N then ret (inr false) else
  if pr_idle report then
    let! t := world_now in
    let! report := advance_virtual c (N.min (saturating_sub deadline t) check_interval) remaining in
    ret (inl (spent remaining report))
  else ret (inl remaining).
Definition idle : V bool := let! b := busy in ret (negb b).
(** Every round spends at least one poll of the budget; a loop that is cut short has not
    returned. *)
Fixpoint idle_loop (fuel : nat) (c : caller) (deadline remaining : N) : V bool :=
  let! b := busy in
  match fuel with
  | S fuel =>
      if b && (0 <? remaining)%N then
        let! r := idle_round c deadline remaining in
        match r with
        | inl remaining => idle_loop fuel c deadline remaining
        | inr answer => ret answer
        end
      else idle
  | O => if b && (0 <? remaining)%N then fail Waiting else idle
  end.
Definition wait_polls : N := 100000.
Definition deadline_after (timeout : N) (message : string) : V Instant :=
  let! t := world_now in
  ok_or (Fails message) (checked_add instant_max t timeout).
Definition wait_virtual_idle (c : caller) (timeout : N) : V bool :=
  virtual_state c ;;;
  let! deadline := deadline_after timeout "wait duration overflow" in
  idle_loop (N.to_nat wait_polls) c deadline wait_polls.

(** ** [close_virtual] *)

(** The drop of the runtime disposes of its tasks: the [Cancel]s at the head of the
    script. *)
Fixpoint disposed (turns : list turn) (v : Virtual) : Virtual :=
  match turns with
  | Cancel i steps :: turns => disposed turns (run_turn (Cancel i steps) v)
  | _ => v <| vr_turns := turns |>
  end.
Definition drop_runtime : V unit := λ v, (Ok tt, disposed (vr_turns v) (v <| vr_opened := false |>)).
Definition or_timed_out (r : StopReport) : V StopReport :=
  let! v := get in
  ret (r <| sp_timed_out ::= λ b, b || vr_timed_out v |>).
Definition close_virtual (c : caller) (timeout : N) : V StopReport :=
  virtual_state c ;;;
  deadline_after timeout "shutdown duration overflow" ;;;
  let! initial := world_call close in
  modify (on_state (on_pool Slots (λ m, m <| sm_closed := true |>))) ;;;
  let! v := get in
  if negb (vr_opened v) then or_timed_out initial else
  let! idle := wait_virtual_idle c timeout in
  modify (λ v, v <| vr_timed_out ::= λ b, b || negb idle |>) ;;;
  drop_runtime ;;;
  let! report := world_call (gets world_report) in
  or_timed_out (report <| sp_discarded := sp_discarded initial |>).
End Virtuals.
Import Virtuals.

(** ** The facade of tests *)
Module TestWorlds.
(** [tw_controlled]: the cell of the registry of controlled replies. *)
Record TestWorld := MkTestWorld { tw_caller : caller; tw_controlled : N; tw_max_steps : N }.
Definition new (c : caller) (epoch world_id waker : N) (config : Config) (max_tasks max_steps : N) (turns : list turn) :
    outcome string (TestWorld * Virtual) :=
  if negb (in_range 1 1000000 max_steps) then Err "max_steps must be in 1..1000000"%string else
  match new_virtual c epoch world_id waker config max_tasks turns with
  | Ok v =>
      if negb (in_range 1 65536 max_tasks) then Err (Native.display (Native.Limit "controlled replies")) else
      let '(rg, shared) := alloc_cell (Replies (Registries.new max_tasks)) (rt_shared (vr_machine v).2) in
      Ok (MkTestWorld c rg max_steps, on_state (λ s, s <| rt_shared := shared |>) v)
  | Err e => Err e
  | Panic => Panic
  end.
Section methods.
Context (tw : TestWorld).
Definition run_until_idle : V PumpReport :=
  let! report := pump_virtual (tw_caller tw) (tw_max_steps tw) in
  if negb (pr_idle report) then fails "pump budget exhausted before idle" else ret report.
(** [first.polls + report.polls]. *)
Definition advance (duration : N) : V PumpReport :=
  if (seconds 86400 <? duration)%N then fails "virtual advance exceeds 24 hours" else
  let! first := pump_virtual (tw_caller tw) (tw_max_steps tw) in
  if negb (pr_idle first) then fails "pump budget exhausted before advance" else
  let remaining := saturating_sub (tw_max_steps tw) (pr_polls first) in
  if (remaining =? 0)%N then fails "pump budget exhausted before advance" else
  let! report := advance_virtual (tw_caller tw) duration remaining in
  if negb (pr_idle report) then fails "pump budget exhausted after advance" else
  add_polls (pr_polls first) (MkPumpReport (pr_polls report) true).
Definition elapsed : V N := world_call world_elapsed_ns.
(** On the driver's thread, between pumps. *)
Definition native_responder (opened : bool) (parent : option ActorRef) (input : PayloadType) :
    prog (string + Executor.NativeHandle) :=
  do! r := Replies.prepare opened false (tw_controlled tw) parent input in
  match r with
  | inl e => Ret (inl (Native.display e))
  | inr handle =>
      do! activated := on_world (activate (Executor.nh_owner handle)) in
      match activated with
      | inr _ => Ret (inr handle)
      | inl e => on_world (stop (Executor.nh_owner handle)) ;;> Ret (inl (Native.error_name e))
      end
  end.
(** In order, without a pump between: each entry has its own result. *)
Fixpoint send_batch (batch : list (ActorRef * Payload)) : V (list (error + N)) :=
  match batch with
  | [] => ret []
  | (target, payload) :: batch =>
      let! r := world_call (try_ (send_with target payload default_options)) in
      let! rest := send_batch batch in
      ret (r :: rest)
  end.
Definition close (timeout : N) : V StopReport := close_virtual (tw_caller tw) timeout.
End methods.
End TestWorlds.
