(* ===== verification/VirtualRuns.v ===== *)
(** * What a driven runtime promises

    A pump counts the polls of owned tasks exactly, stops when nothing is ready or its
    budget is spent, and never moves the clock ([pump_exact]); it returns whenever the
    scheduler keeps turning ([pump_prompt]). *)
From S2P Require Import Prelude Collections Text Types Metadata Diagnostics WorldState Publishing Actors Messaging.
From S2P Require Import Steps WorldClock.
From S2P Require Import Components.
From S2P Require Import Views.
From S2P Require Import NativeConfig.
From S2P Require Import NativeState.
From S2P Require Import Native.
From S2P Require Import Tasks.
From S2P Require Import Pipeline.
From S2P Require Import Virtual.
Import Virtuals.

(** ** Tasks that leave the virtual clock alone *)
Definition tame_act {A} (a : act A) : Prop :=
  match a with Atomic f => ∀ s, timeless (sh_world s) (sh_world (f s).2) | _ => True end.
Fixpoint tame {A} (p : prog A) : Prop :=
  match p with
  | Ret _ | Halt _ => True
  | Do a k => tame_act a ∧ ∀ b, tame (k b)
  | Spawn task k => tame task ∧ tame k
  | Loop body s k => (∀ s, tame (body s)) ∧ ∀ a, tame (k a)
  end.
Lemma tame_bind {A B} (m : prog A) (k : A → prog B) : tame m → (∀ a, tame (k a)) → tame (pbind m k).
Proof. induction m; simpl; naive_solver. Qed.
Lemma tame_do {A} (a : act A) : tame_act a → tame (do a).
Proof. by intros H. Qed.
Lemma tame_caught {A} (m : prog A) : tame m → tame (caught m).
Proof.
  induction m as [| | | |S A B body IHb s k IHk]; simpl; try naive_solver. intros [Hb Hk]. split.
  - intros st. apply tame_bind; [by apply IHb|]. by intros [|[]].
  - intros [why|a]; [done|by apply IHk].
Qed.
Lemma tame_finally {A} (m : prog A) cleanup : tame m → tame cleanup → tame (finally m cleanup).
Proof.
  intros Hm Hc. apply tame_bind; [apply tame_bind; [by apply tame_caught|]|].
  - intros [[]|a]; try done; by apply tame_bind.
  - intros a. by apply tame_bind.
Qed.
Lemma tame_on_world {A} (m : WM A) : clocked m → tame (on_world m).
Proof.
  intros Hm. split; [|by intros []]. intros s Hs. specialize (Hm (sh_world s) Hs). unfold locked.
  destruct (sh_poisoned s); [done|]. by destruct (m (sh_world s)).
Qed.
Lemma tame_await : tame await.
Proof. by split; [|intros []]. Qed.
Lemma clocked_poll_routing waker : clocked (poll_routing_ready waker).
Proof. unfold poll_routing_ready. clocked. Qed.
Lemma clocked_route_targets batch routes : ∀ p n, clocked (route_targets batch routes p n).
Proof. induction routes as [|[route target] routes IH]; intros p n; cbn [route_targets]; clocked. Qed.
#[local] Hint Resolve clocked_route_targets clocked_poll_routing : clock.
Lemma clocked_route_batch : clocked route_batch.
Proof.
  intros w Hw. unfold route_batch, with_activity. assert (clocked route_batch_locked) as Hr by clocked.
  specialize (Hr w Hw). destruct (route_batch_locked w) as [o w1]. simpl in Hr |- *.
  etrans; [apply clocked_touch; by rewrite Hr|done].
Qed.
Lemma tame_routing_service waker : tame (Pipelines.routing_service waker).
Proof.
  split; [|done]. intros []. apply tame_bind; [apply tame_on_world; auto with clock|].
  intros [e|[]]; try done; [|apply tame_bind; [apply tame_await|done]].
  apply tame_bind; [apply tame_on_world, clocked_route_batch|]. intros _. apply tame_bind; [apply tame_await|done].
Qed.

(** A step of a tame thread. *)
Definition clock_of (s : Runtime) : Clock := w_clock (sh_world (rt_shared s)).
Definition steady (s s' : Runtime) : Prop := rt_time s' = rt_time s ∧ (ck_manual (clock_of s) = true → clock_of s' = clock_of s).
#[export] Instance steady_preorder : PreOrder steady.
Proof.
  split; [done|]. intros s1 s2 s3 [Ht H] [Ht' H']. split; [congruence|]. intros Hm. rewrite H'; [auto|]. by rewrite H.
Qed.
Lemma tame_run oracle {A} (a : act A) s : tame_act a → steady s (run_act oracle a s).2.
Proof.
  destruct a; simpl; try done; intros Ha; try (by repeat case_match).
  specialize (Ha (rt_shared s)). by destruct (f (rt_shared s)).
Qed.
Lemma tame_step oracle {A} (p : prog A) s p' s' tasks :
  tame p → step oracle p s = Some (p', s', tasks) → tame p' ∧ Forall tame tasks ∧ steady s s'.
Proof.
  destruct p as [| |A B a k|A task k|S A B body st k]; simpl; intros Hp Hs; try done.
  - destruct Hp as [Ha Hk]. pose proof (tame_run oracle a s Ha). destruct (run_act oracle a s) as [b s1]. simplify_eq.
    split_and!; [apply Hk|done|done].
  - destruct Hp. simplify_eq. split_and!; [done|by constructor|done].
  - destruct Hp as [Hb Hk]. simplify_eq. split_and!; [|done..]. apply tame_bind; [done|]. by intros [].
Qed.
Lemma tame_schedule l : ∀ m, Forall tame m.1 → (∀ c, c ∈ l → ∃ i o, c = Run i o) →
  Forall tame (schedule l m).1 ∧ steady m.2 (schedule l m).2.
Proof.
  induction l as [|c l IH]; intros m Hm Hl; [done|].
  destruct (Hl c) as (i & oracle & ->); [set_solver|].
  assert (Forall tame (choose (Run i oracle) m).1 ∧ steady m.2 (choose (Run i oracle) m).2) as [Hc Hst].
  { simpl. destruct (m.1 !! i) as [p|] eqn:Hi; [|done].
    destruct (step oracle p m.2) as [[[p' s'] tasks]|] eqn:Hs; [|done].
    destruct (tame_step _ _ _ _ _ _ (Forall_lookup_1 _ _ _ _ Hm Hi) Hs) as (? & ? & ?). split; [|done].
    apply Forall_app. split; [|done]. by apply Forall_insert. }
  destruct (IH (choose (Run i oracle) m) Hc) as [? ?]; [set_solver|]. split; [done|]. by etrans.
Qed.

(** ** Turns *)
Record driven (v : Virtual) : Prop := {
  dv_manual : ck_manual (w_clock (world_of v)) = true;
  dv_tame : Forall tame (vr_machine v).1;
  dv_polls : (ds_polls (vr_signal v) ≤ u64_max)%N }.
(** What no turn changes. *)
Definition setup_of (v : Virtual) : bool * bool * N * option N := (vr_opened v, vr_timed_out v, vr_max v, vr_owner v).
Record turned (v v' : Virtual) : Prop := {
  tn_driven : driven v → driven v';
  tn_current : driven v → current v' = current v;
  tn_setup : setup_of v' = setup_of v }.
#[export] Instance turned_preorder : PreOrder turned.
Proof.
  split; [done|]. intros v1 v2 v3 [Hd Hc Hs] [Hd' Hc' Hs']. split; [auto| |congruence].
  intros Hv. rewrite Hc' by auto. auto.
Qed.
Definition is_poll (t : turn) : bool := match t with Poll _ _ => true | _ => false end.
Definition is_park (t : turn) : bool := match t with Park _ => true | _ => false end.
Definition moved (t : turn) : N := match t with Park d => d | _ => 0 end.
Abbreviation polls := (count_by is_poll).
Abbreviation parks := (count_by is_park).

Lemma turned_machine v (l : list choice) :
  (∀ c, c ∈ l → ∃ i o, c = Run i o) →
  turned v (v <| vr_machine ::= schedule l |>) ∧ tokio_now (v <| vr_machine ::= schedule l |>) = tokio_now v.
Proof.
  intros Hl. unfold tokio_now. simpl.
  assert (∀ c : list choice, (∀ x, x ∈ c → ∃ i o, x = Run i o) → ∀ m, rt_time (schedule c m).2 = rt_time m.2) as Htime.
  { clear. induction c as [|x c IH]; intros Hc m; [done|]. destruct (Hc x) as (i & o & ->); [set_solver|].
    etrans; [apply (IH ltac:(set_solver) (choose (Run i o) m))|]. simpl. destruct (m.1 !! i) as [p|]; [|done].
    destruct (step o p m.2) as [[[p' s'] tasks]|] eqn:Hs; [|done]. simpl.
    destruct p; simpl in Hs; simplify_eq; try done.
    destruct (run_act o a m.2) as [b s1] eqn:Hr. simplify_eq.
    enough (rt_time (run_act o a m.2).2 = rt_time m.2) as He by (by rewrite Hr in He).
    clear. destruct a; simpl; try done; try (by repeat case_match). }
  split; [|by apply Htime].
  split; [intros Hv|intros Hv|done].
  - destruct (tame_schedule l (vr_machine v) (dv_tame v Hv) Hl) as [Ht [_ Hc]]. split; [|done|apply Hv].
    change (ck_manual (clock_of (schedule l (vr_machine v)).2) = true). rewrite Hc; apply Hv.
  - destruct (tame_schedule l (vr_machine v) (dv_tame v Hv) Hl) as [Ht [_ Hc]]. unfold current, world_of.
    change (ck_time (clock_of (schedule l (vr_machine v)).2) = ck_time (clock_of (vr_machine v).2)). rewrite Hc; [done|apply Hv].
Qed.
Lemma turned_signal v f : (∀ s, (ds_polls s ≤ u64_max → ds_polls (f s) ≤ u64_max)%N) → turned v (v <| vr_signal ::= f |>).
Proof. intros Hf. split; [|done..]. intros [Hm Ht Hp]. split; [done..|]. by apply Hf. Qed.
Lemma polls_wake s : ds_polls (wake_driver s) = ds_polls s.
Proof. unfold wake_driver. by case_match. Qed.
Lemma parked_wake s : ds_parked (wake_driver s) = ds_parked s.
Proof. unfold wake_driver. by case_match. Qed.
Lemma turn_runs t v :
  turned v (run_turn t v) ∧ tokio_now (run_turn t v) = (tokio_now v + moved t)%N ∧
  ds_polls (vr_signal (run_turn t v)) = (if is_poll t then N.min u64_max (ds_polls (vr_signal v) + 1) else ds_polls (vr_signal v)) ∧
  ds_parked (vr_signal (run_turn t v)) = (ds_parked (vr_signal v) || is_park t).
Proof.
  destruct t as [i choices|i steps|d|]; cbn [run_turn is_poll is_park moved]; rewrite ?orb_false_r, ?orb_true_r, ?N.add_0_r.
  - destruct (turned_machine (v <| vr_signal ::= polled |>) (Run i <$> choices)) as [Ht Hn]; [set_solver|].
    set (s := (vr_signal v) <| ds_polls ::= λ n, saturating_add u64_max n 1 |>).
    split_and!; [|done|exact (polls_wake s)|exact (parked_wake s)]. etrans; [|done].
    apply turned_signal. intros x _. unfold polled. rewrite polls_wake. simpl. unfold saturating_add. lia.
  - destruct (turned_machine v (replicate steps (Run i false))) as [Ht Hn]; [|done].
    intros c Hc%elem_of_replicate. naive_solver.
  - split_and!; [|done|exact (polls_wake ((vr_signal v) <| ds_parked := true |>))|exact (parked_wake ((vr_signal v) <| ds_parked := true |>))].
    etrans; [apply (turned_signal v park); intros s; unfold park; by rewrite polls_wake|]. by split; [intros []|..].
  - done.
Qed.

(** What a stretch of turns does. *)
Record ran (used : list turn) (v v' : Virtual) : Prop := {
  rn_turned : turned v v';
  rn_tokio : tokio_now v' = (tokio_now v + sum_by moved used)%N;
  rn_polls : (ds_polls (vr_signal v) ≤ u64_max →
    ds_polls (vr_signal v') = N.min u64_max (ds_polls (vr_signal v) + polls used))%N }.
Lemma ran_app l1 l2 v1 v2 v3 : ran l1 v1 v2 → ran l2 v2 v3 → ran (l1 ++ l2) v1 v3.
Proof.
  intros [Ht1 Hn1 Hp1] [Ht2 Hn2 Hp2]. split; [by etrans| |].
  - rewrite Hn2, Hn1, sum_by_app. lia.
  - intros Hp. specialize (Hp1 Hp). unfold count_by in *. rewrite sum_by_app. rewrite Hp2 by lia. lia.
Qed.
Lemma ran_turn t v : ran [t] v (run_turn t v).
Proof.
  destruct (turn_runs t v) as (Ht & Hn & Hp & _). split; [done| |].
  - rewrite Hn. simpl. lia.
  - intros Hle. rewrite Hp. unfold count_by. simpl. destruct (is_poll t); simpl; lia.
Qed.
(** Only the drive signal, the script and the like change. *)
Lemma ran_same l v v' : vr_machine v' = vr_machine v → setup_of v' = setup_of v →
  ds_polls (vr_signal v') = ds_polls (vr_signal v) → sum_by moved l = 0%N → polls l = 0%N → ran l v v'.
Proof.
  intros Hm Hs Hp Hmv Hpl. split; [|unfold tokio_now; rewrite Hm, Hmv; lia|rewrite Hp, Hpl; lia].
  split; [|intros _; unfold current, world_of; by rewrite Hm|done].
  intros [Hc Ht Hle]. split; unfold world_of in *; by rewrite ?Hm, ?Hp.
Qed.

(** ** A pump *)

Lemma count_cons {A} (f : A → bool) x l : count_by f (x :: l) = (b2n (f x) + count_by f l)%N.
Proof. done. Qed.
Lemma count_app {A} (f : A → bool) l1 l2 : count_by f (l1 ++ l2) = (count_by f l1 + count_by f l2)%N.
Proof. apply sum_by_app. Qed.
Lemma count_nil {A} (f : A → bool) : count_by f [] = 0%N.
Proof. done. Qed.
Ltac counting := rewrite ?count_cons, ?count_app, ?count_cons, ?count_nil in *; cbn [b2n is_poll is_park] in *; try lia.

(** Between two looks of the driver nothing but a park: it had parked before the first,
    and parks again before the second. *)
Definition settles (used : list turn) : Prop :=
  ∃ pre mid, used = pre ++ Driver :: mid ++ [Driver] ∧ (0 < parks pre)%N ∧ (0 < parks mid)%N ∧ polls mid = 0%N.
(** The same from inside: [last] is the count when the driver last saw a park. *)
Definition settling (parked : bool) (last : option N) (now : N) (used : list turn) : Prop :=
  (∃ pre mid, used = pre ++ Driver :: mid ++ [Driver] ∧ (parked = true ∨ 0 < parks pre)%N ∧
     (0 < parks mid)%N ∧ polls mid = 0%N) ∨
  (last = Some now ∧ (parked = true ∨ 0 < parks used)%N ∧ polls used = 0%N ∧ ∃ l, used = l ++ [Driver]).
Lemma settling_turn t parked last now now' used :
  (if is_poll t then (now < now')%N else now = now') → (∀ p, last = Some p → (p ≤ now)%N) →
  settling (parked || is_park t) last now' used → settling parked last now (t :: used).
Proof.
  intros Hn Hl [(pre & mid & -> & Hp & Hm & Hz)|(Hlast & Hp & Hz & l & ->)].
  - left. exists (t :: pre), mid. split_and!; [done| |done..]. unfold count_by in *. simpl.
    destruct Hp as [Hp|Hp]; [|right; lia]. apply orb_true_iff in Hp as [->| ->]; [by left|right; simpl; lia].
  - right. specialize (Hl _ Hlast). destruct (is_poll t) eqn:Ht; [lia|]. subst now'.
    split_and!; [done| | |by exists (t :: l)]; unfold count_by in *; simpl.
    + destruct Hp as [Hp|Hp]; [|right; lia]. apply orb_true_iff in Hp as [->| ->]; [by left|right; simpl; lia].
    + by rewrite Ht.
Qed.
Lemma settling_look (parked : bool) last now used :
  settling false (if parked then Some now else last) now used → settling parked last now (Driver :: used).
Proof.
  intros [(pre & mid & -> & Hp & Hm & Hz)|(Hlast & Hp & Hz & l & ->)].
  - left. exists (Driver :: pre), mid. split_and!; [done| |done..]. right. destruct Hp; [done|]. counting.
  - destruct Hp as [|Hp]; [done|]. destruct parked.
    + left. exists [], l. split_and!; [done|by left|counting..].
    + right. split_and!; [done|right; counting|counting|by exists (Driver :: l)].
Qed.
Definition pump_ends (start max : N) (v : Virtual) (last : option N) (r : PumpReport) (v' : Virtual) (used : list turn) : Prop :=
  ran used v v' ∧ pr_polls r = (ds_polls (vr_signal v') - start)%N ∧
  if pr_idle r
  then ds_polls (vr_signal v') ≠ u64_max ∧ (pr_polls r < max)%N ∧
       settling (ds_parked (vr_signal v)) last (ds_polls (vr_signal v)) used
  else ds_polls (vr_signal v') = u64_max ∨ (max ≤ pr_polls r)%N.
Lemma pump_ends_turn start max t v last r v' used :
  (ds_polls (vr_signal v) ≤ u64_max)%N → (∀ p, last = Some p → (p ≤ ds_polls (vr_signal v))%N) →
  pump_ends start max (run_turn t v) last r v' used → pump_ends start max v last r v' (t :: used).
Proof.
  intros Hle Hl (Hr & Hp & Hi). split_and!; [apply (ran_app [t] used _ (run_turn t v)); [apply ran_turn|done]|done|].
  destruct (pr_idle r); [|done]. destruct Hi as (Hne & Hmax & Hs). split_and!; [done..|].
  destruct (turn_runs t v) as (_ & _ & Hps & Hpk). rewrite Hpk in Hs. eapply settling_turn; [|done|exact Hs].
  rewrite Hps. destruct (is_poll t); [|done]. pose proof (rn_polls _ _ _ Hr) as Hf. rewrite Hps in Hf.
  specialize (Hf ltac:(lia)). unfold count_by in Hf. lia.
Qed.
(** One look of the driver: its report, or the state in which it waits on. *)
Lemma pump_look start max last v : ∀ x v1,
  pump_poll start max last (v <| vr_signal ::= λ s, s <| ds_woken := false |> |>) = (x, v1) →
  ran [Driver] v v1 ∧ ds_polls (vr_signal v1) = ds_polls (vr_signal v) ∧
  let done := (ds_polls (vr_signal v) - start)%N in
  match x with
  | inr r => pr_polls r = done ∧
      if pr_idle r then ds_polls (vr_signal v) ≠ u64_max ∧ (done < max)%N ∧ ds_parked (vr_signal v) = true ∧ last = Some (ds_polls (vr_signal v))
      else ds_polls (vr_signal v) = u64_max ∨ (max ≤ done)%N
  | inl last' => ds_polls (vr_signal v) ≠ u64_max ∧ (done < max)%N ∧ ds_parked (vr_signal v1) = false ∧
      ds_driver (vr_signal v1) = true ∧ ds_woken (vr_signal v1) = false ∧ last' = (if ds_parked (vr_signal v) then Some (ds_polls (vr_signal v)) else last) ∧
      (ds_parked (vr_signal v) = true → last ≠ Some (ds_polls (vr_signal v)))
  end.
Proof.
  intros x v1. unfold pump_poll, saturating_sub. simpl.
  destruct (_ || _) eqn:Hstop; [|destruct (ds_parked (vr_signal v)) eqn:Hpark; [case_bool_decide as Hlast|]]; intros [= <- <-].
  - split_and!; [by apply ran_same|done|done|]. simpl. lia.
  - split_and!; [by apply ran_same|done|done|]. simpl. split_and!; try done; lia.
  - split_and!; try done; [by apply ran_same|lia..].
  - split_and!; try done; [by apply ran_same|lia..].
Qed.
Lemma pump_blocked start max turns : ∀ last v r v',
  (ds_polls (vr_signal v) ≤ u64_max)%N → (∀ p, last = Some p → (p ≤ ds_polls (vr_signal v))%N) →
  blocked (pump_poll start max) turns last v = (Ok r, v') →
  ∃ used, turns = used ++ vr_turns v' ∧ pump_ends start max v last r v' used.
Proof.
  induction turns as [|t turns IH]; intros last v r v' Hle Hl Hb; [done|].
  destruct (decide (t = Driver)) as [->|Ht].
  - simpl in Hb. destruct (negb _) eqn:Hw.
    { destruct (IH _ _ _ _ Hle Hl Hb) as (used & -> & Hu). exists (Driver :: used). split; [done|].
      by apply (pump_ends_turn _ _ Driver). }
    destruct (pump_poll _ _ _ _) as [x v1] eqn:Hx. destruct (pump_look _ _ _ _ _ _ Hx) as (Hr & Hp & Hlook). destruct x as [last'|r1].
    + destruct Hlook as (Hne & Hmax & Hpk & _ & _ & Hlast & _). rewrite <- Hp in Hle.
      destruct (IH last' v1 r v' Hle) as (used & -> & Hu & Hpr & Hi); [|done|].
      { intros p Hp'. rewrite Hlast in Hp'. rewrite Hp. destruct (ds_parked (vr_signal v)); [injection Hp' as <-; lia|by apply Hl]. }
      exists (Driver :: used). split; [done|]. split_and!; [by eapply (ran_app [Driver] used)|done|].
      destruct (pr_idle r); [|done]. destruct Hi as (? & ? & Hs). split_and!; [done..|].
      apply settling_look. by rewrite Hpk, Hp, Hlast in Hs.
    + simplify_eq. exists [Driver]. split; [done|].
      destruct Hlook as [Hpr Hi]. split_and!.
      * apply (ran_app [Driver] [] _ v1); [done|by apply ran_same].
      * by rewrite Hpr, <- Hp.
      * simpl. rewrite Hp, Hpr. destruct (pr_idle r); [|done]. destruct Hi as (? & ? & Hpk & ->).
        split_and!; [done..|]. right. split_and!; [done|by left|done|by exists []].
  - assert (blocked (pump_poll start max) turns last (run_turn t v) = (Ok r, v')) as Hb' by (by destruct t).
    destruct (turn_runs t v) as (_ & _ & Hps & _).
    destruct (IH last (run_turn t v) r v') as (used & -> & Hu); [..|done|].
    + rewrite Hps. case_match; lia.
    + intros p Hp. rewrite Hps. specialize (Hl p Hp). case_match; lia.
    + exists (t :: used). split; [done|]. by apply pump_ends_turn.
Qed.

(** ** A call of the driver *)

(** [maintain], as the driver runs it: time and the drive signal stand still. *)
Lemma world_call_ran {A} (m : WM A) v a v' : clocked m → world_call m v = (Ok a, v') → ran [] v v' ∧ vr_signal v' = vr_signal v ∧ vr_turns v' = vr_turns v.
Proof.
  intros Hm. unfold world_call, locked. destruct (sh_poisoned _); [done|].
  pose proof (Hm (world_of v)) as Hc. unfold world_of in Hc. destruct (m _) as [[b|e|] w]; [|done..].
  intros [= <- <-]. simpl in Hc. split; [|done]. split; [|by rewrite N.add_0_r|simpl; rewrite count_nil; lia].
  split; [|intros Hv|done].
  - intros [Hc' Ht Hp]. split; [|done..]. unfold world_of. simpl. by rewrite Hc.
  - unfold current, world_of. simpl. by rewrite Hc by apply Hv.
Qed.
Lemma world_now_ran v t v' : ck_manual (w_clock (world_of v)) = true → world_now v = (Ok t, v') →
  t = current v ∧ ran [] v v' ∧ vr_signal v' = vr_signal v ∧ vr_turns v' = vr_turns v.
Proof.
  intros Hc. unfold world_now. rewrite manual_now by done. intros [= <- <-]. split; [done|]. split; [|done].
  split; [|by rewrite N.add_0_r|simpl; rewrite count_nil; lia]. split; [|done|done]. by intros [].
Qed.
Lemma maintain_ran v v' : driven v → maintain_now v = (Ok tt, v') → ran [] v v' ∧ vr_signal v' = vr_signal v ∧ vr_turns v' = vr_turns v.
Proof.
  intros Hd. unfold maintain_now, bind. destruct (world_now v) as [[t|e|] v1] eqn:Hn; try done. intros Hm.
  destruct (world_now_ran _ _ _ (dv_manual _ Hd) Hn) as (-> & Hr & Hs & Ht).
  destruct (world_call_ran _ _ _ _ (clocked_maintain _) Hm) as (Hr' & Hs' & Ht').
  split_and!; [by apply (ran_app [] [] _ v1)|congruence..].
Qed.
Lemma virtual_state_ok c v u v' : virtual_state c v = (Ok u, v') → v' = v ∧ vr_owner v = Some (cl_thread c) ∧ cl_inside c = false.
Proof.
  unfold virtual_state, bind, get. destruct (vr_owner v) as [owner|]; [|done].
  destruct (N.eqb_spec owner (cl_thread c)); [|done]. simpl. destruct (cl_inside c); [done|]. intros [= _ <-]. by subst.
Qed.
Lemma runtime_open_ok v u v' : runtime_open v = (Ok u, v') → v' = v ∧ vr_opened v = true.
Proof. unfold runtime_open, bind, get. destruct (vr_opened v) eqn:Ho; [|done]. intros [= _ <-]. done. Qed.

Lemma pump_runs c n v r v' : driven v → pump_virtual c n v = (Ok r, v') →
  in_range 1 1000000 n = true ∧ ∃ used, vr_turns v = used ++ vr_turns v' ∧ ran used v v' ∧ tokio_now v' = current v ∧
  pr_polls r = (ds_polls (vr_signal v') - ds_polls (vr_signal v))%N ∧
  if pr_idle r then ds_polls (vr_signal v') ≠ u64_max ∧ (pr_polls r < n)%N ∧ settles used
  else ds_polls (vr_signal v') = u64_max ∨ (n ≤ pr_polls r)%N.
Proof.
  intros Hd. unfold pump_virtual, bad_polls. destruct (in_range 1 1000000 n); [|done]. simpl. intros H. split; [done|].
  apply bind_ok in H as (? & v1 & H1 & H). apply virtual_state_ok in H1 as (-> & _).
  apply bind_ok in H as (? & v1 & H1 & H). apply runtime_open_ok in H1 as (-> & _).
  apply bind_ok in H as ([] & v1 & H1 & H). destruct (maintain_ran _ _ Hd H1) as (Hr1 & Hs1 & Ht1). clear H1.
  apply bind_ok in H as (? & v2 & [= _ <-] & H). apply bind_ok in H as (? & ? & [= <- <-] & H).
  set (v2 := v1 <| vr_signal ::= _ |>) in H.
  apply bind_ok in H as (r' & v3 & H3 & H). unfold block_on in H3.
  set (v2' := v2 <| vr_signal ::= _ |>) in H3.
  assert (ran [] v v2') as Hr2 by (apply (ran_app [] [] _ v1); [done|by apply ran_same]).
  assert (ds_polls (vr_signal v2') = ds_polls (vr_signal v)) as Hp2 by (by rewrite <- Hs1).
  destruct (pump_blocked (ds_polls (vr_signal v2)) n (vr_turns v2) None v2' r' v3) as (used & Hu & Hr3 & Hp3 & Hi3);
    [rewrite Hp2; apply Hd|done|exact H3|].
  apply bind_ok in H as (? & v4 & [= _ <-] & H). apply bind_ok in H as (? & ? & [= <- <-] & H).
  destruct (N.eqb_spec (tokio_now (v3 <| vr_signal ::= λ s, s <| ds_driver := false |> |>)) (current (v3 <| vr_signal ::= λ s, s <| ds_driver := false |> |>))) as [He|]; [|done].
  cbn [negb] in H. apply bind_ok in H as ([] & v5 & H5 & [= <- <-]).
  assert (driven (v3 <| vr_signal ::= λ s, s <| ds_driver := false |> |>)) as Hd4.
  { assert (ran [] v3 (v3 <| vr_signal ::= λ s, s <| ds_driver := false |> |>)) as Hr4 by by apply ran_same.
    apply (tn_driven v3); [apply Hr4|]. apply (tn_driven v2'); [apply Hr3|]. by apply (tn_driven v); [apply Hr2|]. }
  destruct (maintain_ran _ _ Hd4 H5) as (Hr5 & Hs5 & Ht5).
  assert (ran used v v5) as Hr.
  { apply (ran_app [] used _ v2'); [done|]. rewrite <- (app_nil_r used). eapply ran_app; [exact Hr3|].
    apply (ran_app [] [] _ (v3 <| vr_signal ::= λ s, s <| ds_driver := false |> |>)); [by apply ran_same|done]. }
  exists used. rewrite Hs5.
  assert (ds_polls (vr_signal v2) = ds_polls (vr_signal v)) as Hst by (by rewrite <- Hs1).
  split_and!; [by rewrite Ht5, <- Ht1|done| |by rewrite Hp3, Hst|].
  - rewrite (rn_tokio _ _ _ Hr5). simpl. rewrite N.add_0_r, He.
    rewrite <- (tn_current _ _ (rn_turned _ _ _ Hr) Hd). symmetry. apply (tn_current _ _ (rn_turned _ _ _ Hr5) Hd4).
  - destruct (pr_idle r'); [|done]. destruct Hi3 as (Hne & Hlt & Hset). split_and!; [done..|].
    destruct Hset as [(pre & mid & -> & [Hf|Hp] & Hm & Hz)|(Hf & _)]; [|by exists pre, mid|done].
    exfalso. subst v2' v2. simpl in Hf. done.
Qed.

(** ** Pumps that fail *)

(** A panic is a poisoned World's; a failure is as [P] says. *)
Definition poisoned (v : Virtual) : bool := sh_poisoned (rt_shared (vr_machine v).2).
Definition sound {A} (P : Virtual → Prop) (x : outcome call_error A * Virtual) : Prop :=
  match x with
  | (Err (Fails _), v) => P v
  | (Panic, v) => poisoned v = true
  | _ => True
  end.
Lemma sound_weaken {A} (P Q : Virtual → Prop) (x : outcome call_error A * Virtual) : (∀ v, P v → Q v) → sound P x → sound Q x.
Proof. intros HPQ. destruct x as [[a|[]|] v]; simpl; auto. Qed.
Lemma sound_seq {A B} P (m : V A) (k : A → V B) v :
  sound P (m v) → (∀ a v', m v = (Ok a, v') → sound P (k a v')) → sound P (bind m k v).
Proof. intros Hm Hk. unfold bind. destruct (m v) as [[a|e|] v']; auto. Qed.
Lemma sound_blocked {L A} (poll : L → Virtual → (L + A) * Virtual) P turns : ∀ l v, sound P (blocked poll turns l v).
Proof.
  induction turns as [|t turns IH]; intros l v; [done|].
  destruct t; cbn [blocked]; try apply IH. destruct (negb _); [apply IH|]. destruct (poll _ _) as [[l'|a] v']; [apply IH|done].
Qed.
Lemma sound_world_call {A} (m : WM A) P v : errless m → sound P (world_call m v).
Proof.
  intros Hm. unfold world_call, locked. destruct (sh_poisoned _) eqn:Hp; [exact Hp|].
  specialize (Hm (sh_world (rt_shared (vr_machine v).2))). destruct (m _) as [[a|e|] w]; [done|by destruct (Hm e)|done].
Qed.
Lemma sound_maintain P v : sound P (maintain_now v).
Proof.
  apply sound_seq; [unfold world_now; by destruct (Clocks.now _)|]. intros t v' _. apply sound_world_call, errless_maintain.
Qed.

(** The driver may pump: its thread owns the open runtime, the clocks agree, and Tokio's
    does not move by itself. *)
Record ready (c : caller) (v : Virtual) : Prop := {
  rd_owner : vr_owner v = Some (cl_thread c);
  rd_inside : cl_inside c = false;
  rd_opened : vr_opened v = true;
  rd_together : tokio_now v = current v;
  rd_still : Forall (λ t, moved t = 0%N) (vr_turns v) }.
Lemma sound_virtual_state c v : sound (λ _, ¬ ready c v) (virtual_state c v).
Proof.
  unfold virtual_state, bind, get. destruct (vr_owner v) as [owner|] eqn:Ho; [|by intros []; congruence].
  destruct (N.eqb_spec owner (cl_thread c)); [|intros []; congruence]. simpl. destruct (cl_inside c) eqn:Hc; [|done]. by intros []; congruence.
Qed.
Lemma sound_runtime_open c v : sound (λ _, ¬ ready c v) (runtime_open v).
Proof. unfold runtime_open, bind, get. destruct (vr_opened v) eqn:Ho; [done|]. by intros []; congruence. Qed.
Lemma still_sum l : Forall (λ t, moved t = 0%N) l → sum_by moved l = 0%N.
Proof. induction 1 as [|t l Ht Hl IH]; [done|]. simpl. by rewrite Ht, IH. Qed.
Lemma pump_sound c n v : driven v → sound (λ _, ¬ (ready c v ∧ in_range 1 1000000 n = true)) (pump_virtual c n v).
Proof.
  intros Hd. unfold pump_virtual, bad_polls. destruct (in_range 1 1000000 n); [|simpl; naive_solver]. cbn [negb].
  assert (∀ v' : Virtual, ¬ ready c v → ¬ (ready c v ∧ true = true)) as Hready by naive_solver.
  apply sound_seq; [eapply sound_weaken; [exact Hready|apply sound_virtual_state]|]. intros ? v1 H1. apply virtual_state_ok in H1 as (-> & _).
  apply sound_seq; [eapply sound_weaken; [exact Hready|apply sound_runtime_open]|]. intros ? v1 H1. apply runtime_open_ok in H1 as (-> & _).
  apply sound_seq; [apply sound_maintain|]. intros [] v1 H1. destruct (maintain_ran _ _ Hd H1) as (Hr1 & Hs1 & Ht1).
  apply sound_seq; [done|]. intros ? v2 [= _ <-]. apply sound_seq; [done|]. intros ? ? [= <- <-].
  apply sound_seq; [apply sound_blocked|]. intros r v3 H3. unfold block_on in H3.
  apply sound_seq; [done|]. intros ? v4 [= _ <-]. apply sound_seq; [done|]. intros ? ? [= <- <-].
  set (v2 := v1 <| vr_signal ::= _ |>) in H3. set (v2' := v2 <| vr_signal ::= _ |>) in H3.
  assert (ran [] v v2') as Hr2 by (apply (ran_app [] [] _ v1); [done|by apply ran_same]).
  destruct (pump_blocked (ds_polls (vr_signal v2)) n (vr_turns v2) None v2' r v3) as (used & Hu & Hr3 & _);
    [change (ds_polls (vr_signal v1) ≤ u64_max)%N; rewrite Hs1; apply Hd|done|exact H3|].
  match goal with |- context [if negb ?b then _ else _] => destruct b eqn:He end; cbn [negb].
  - apply sound_seq; [apply sound_maintain|done].
  - simpl. intros [[_ _ _ Htog Hstill] _]. apply N.eqb_neq in He. apply He.
    change (tokio_now v3 = current v3). rewrite (rn_tokio _ _ _ Hr3), (rn_tokio _ _ _ Hr2).
    rewrite (tn_current _ _ (rn_turned _ _ _ Hr3)), (tn_current _ _ (rn_turned _ _ _ Hr2)) by (done || by apply Hr2).
    rewrite (still_sum used); [by rewrite !N.add_0_r|]. change (vr_turns v2) with (vr_turns v1) in Hu. rewrite Ht1 in Hu. rewrite Hu in Hstill.
    by apply Forall_app in Hstill as [? _].
Qed.
Lemma ready_ran c used v v' : ready c v → vr_turns v = used ++ vr_turns v' → setup_of v' = setup_of v → tokio_now v' = current v' → ready c v'.
Proof.
  intros [Ho Hi Hop _ Hst] Hu Hs Ht. unfold setup_of in Hs. simplify_eq. split; try congruence.
  rewrite Hu in Hst. by apply Forall_app in Hst as [_ ?].
Qed.

(** ** Pumps return *)

(** The driver is polled again before the next task or park after it was woken: Tokio's
    [event_interval] of one. *)
Inductive prompt : list turn → Prop :=
| prompt_nil : prompt []
| prompt_driver l : prompt l → prompt (Driver :: l)
| prompt_cancel i n l : prompt l → prompt (Cancel i n :: l)
| prompt_turn t l : is_poll t || is_park t = true → prompt l → prompt (t :: Driver :: l).
Definition events (l : list turn) : N := count_by (λ t, is_poll t || is_park t) l.
(** The driver waits, having seen a park at [last]. *)
Record waits (start max : N) (last : option N) (v : Virtual) : Prop := {
  wt_woken : ds_woken (vr_signal v) = false;
  wt_driver : ds_driver (vr_signal v) = true;
  wt_parked : ds_parked (vr_signal v) = false;
  wt_polls : (ds_polls (vr_signal v) < u64_max)%N;
  wt_start : (start ≤ ds_polls (vr_signal v) < start + max)%N;
  wt_last : ∀ p, last = Some p → (p ≤ ds_polls (vr_signal v))%N }.
Definition seen (last : option N) (v : Virtual) : N := if decide (last = Some (ds_polls (vr_signal v))) then 0 else 1.
Definition credit (start max : N) (last : option N) (v : Virtual) : N :=
  (2 * (start + max - ds_polls (vr_signal v)) + seen last v)%N.
(** One look, from the state in which the driver was woken. *)
Lemma look_waits start max last v last' v1 :
  (ds_polls (vr_signal v) ≤ u64_max)%N → (start ≤ ds_polls (vr_signal v))%N → (∀ p, last = Some p → (p ≤ ds_polls (vr_signal v))%N) →
  pump_poll start max last (v <| vr_signal ::= λ s, s <| ds_woken := false |> |>) = (inl last', v1) →
  waits start max last' v1 ∧ ds_polls (vr_signal v1) = ds_polls (vr_signal v) ∧
  last' = (if ds_parked (vr_signal v) then Some (ds_polls (vr_signal v)) else last) ∧
  (ds_parked (vr_signal v) = true → last ≠ Some (ds_polls (vr_signal v))).
Proof.
  intros Hle Hst Hl Hx. destruct (pump_look _ _ _ _ _ _ Hx) as (_ & Hp & Hne & Hmax & Hpk & Hdr & Hw & Hlast & Hno).
  split; [|done]. split; [done..|rewrite Hp; lia|rewrite Hp; lia|]. intros p Hp'. rewrite Hlast in Hp'. rewrite Hp.
  destruct (ds_parked (vr_signal v)); [injection Hp' as <-; lia|by apply Hl].
Qed.
Lemma woken_turn t v : is_poll t || is_park t = true → ds_driver (vr_signal v) = true → ds_woken (vr_signal (run_turn t v)) = true.
Proof. intros Ht Hd. destruct t; try done; simpl; unfold polled, park, wake_driver; simpl; by rewrite Hd. Qed.
Lemma prompt_blocked start max turns : prompt turns → ∀ last v, waits start max last v →
  match blocked (pump_poll start max) turns last v with
  | (Ok r, v') => prompt (vr_turns v') ∧
      (events turns ≤ events (vr_turns v') + 2 * (ds_polls (vr_signal v') - ds_polls (vr_signal v)) + 1 + seen last v)%N ∧
      (ds_polls (vr_signal v) ≤ ds_polls (vr_signal v'))%N
  | (Err Waiting, _) => (events turns < credit start max last v)%N
  | _ => False
  end.
Proof.
  induction 1 as [|l Hl IH|i n l Hl IH|t l Ht Hl IH]; intros last v Hw.
  - simpl. unfold credit. pose proof (wt_start _ _ _ _ Hw). unfold events. rewrite count_nil. lia.
  - cbn [blocked]. rewrite (wt_woken _ _ _ _ Hw). apply (IH last v Hw).
  - apply (IH last (run_turn (Cancel i n) v)). by destruct Hw.
  - assert (blocked (pump_poll start max) (t :: Driver :: l) last v =
      blocked (pump_poll start max) (Driver :: l) last (run_turn t v)) as -> by (by destruct t).
    cbn [blocked]. rewrite woken_turn by (done || apply Hw). cbn [negb].
    destruct (turn_runs t v) as (_ & _ & Hps & Hpk). rewrite (wt_parked _ _ _ _ Hw) in Hpk. cbn [orb] in Hpk.
    pose proof (wt_polls _ _ _ _ Hw) as Hmax. pose proof (wt_start _ _ _ _ Hw) as Hst. pose proof (wt_last _ _ _ _ Hw) as Hlast.
    assert (ds_polls (vr_signal (run_turn t v)) = ds_polls (vr_signal v) + b2n (is_poll t))%N as Hps'.
    { rewrite Hps. destruct (is_poll t); simpl; lia. }
    assert (events (t :: Driver :: l) = N.succ (events l)) as -> by (unfold events; rewrite !count_cons, Ht; simpl; lia).
    assert (b2n (is_poll t) ≤ 1)%N as Hb by (destruct (is_poll t); simpl; lia).
    destruct (pump_poll _ _ _ _) as [[last'|r] v1] eqn:Hx.
    + destruct (look_waits start max last (run_turn t v) last' v1) as (Hw1 & Hp1 & Hlast' & Hno); [lia..| |done|].
      { intros p Hp. specialize (Hlast p Hp). lia. }
      assert (if is_poll t then (seen last' v1 ≤ 1)%N else seen last' v1 = 0%N ∧ seen last v = 1%N) as Hseen.
      { unfold seen. destruct (is_poll t); [case_decide; lia|]. simpl in Ht. rewrite Hpk, Ht in Hlast', Hno.
        rewrite Hlast', Hp1, decide_True by done. rewrite decide_False; [done|]. rewrite <- Hps. by apply Hno. }
      specialize (IH last' v1 Hw1). unfold credit in *. rewrite Hp1, Hps' in IH.
      destruct (blocked _ _ _ _) as [[r|[]|] v']; [|done|destruct (is_poll t); simpl in *; lia|done].
      destruct IH as (? & ? & ?). split_and!; [done| |]; destruct (is_poll t); simpl in *; lia.
    + destruct (pump_look _ _ _ _ _ _ Hx) as (_ & Hp1 & _). simpl. rewrite Hp1, Hps'. split_and!; [done| |lia].
      destruct (is_poll t); simpl; lia.
Qed.
Lemma signal_turn t v : ds_woken (vr_signal v) = true → ds_woken (vr_signal (run_turn t v)) = true.
Proof. intros Hw. destruct t; try done; simpl; unfold polled, park, wake_driver; simpl; by case_match. Qed.
Lemma prompt_started start max turns : prompt turns → ∀ v, ds_woken (vr_signal v) = true →
  (start ≤ ds_polls (vr_signal v) ≤ u64_max)%N →
  match blocked (pump_poll start max) turns None v with
  | (Ok r, v') => prompt (vr_turns v') ∧
      (events turns ≤ events (vr_turns v') + 2 * (ds_polls (vr_signal v') - ds_polls (vr_signal v)) + 3)%N
  | (Err Waiting, _) => (events turns < 2 * (start + max - ds_polls (vr_signal v)) + 2)%N
  | _ => False
  end.
Proof.
  assert (∀ l v, prompt l → ds_woken (vr_signal v) = true → (start ≤ ds_polls (vr_signal v) ≤ u64_max)%N →
    match blocked (pump_poll start max) (Driver :: l) None v with
    | (Ok r, v') => prompt (vr_turns v') ∧
        (events l ≤ events (vr_turns v') + 2 * (ds_polls (vr_signal v') - ds_polls (vr_signal v)) + 2)%N ∧
        (ds_polls (vr_signal v) ≤ ds_polls (vr_signal v'))%N
    | (Err Waiting, _) => (events l < 2 * (start + max - ds_polls (vr_signal v)) + 1)%N
    | _ => False
    end) as Hlook.
  { intros l v Hl Hw Hst. cbn [blocked]. rewrite Hw. cbn [negb].
    destruct (pump_poll _ _ _ _) as [[last'|r] v1] eqn:Hx.
    - destruct (look_waits start max None v last' v1) as (Hw1 & Hp1 & _); [lia..|done|done|].
      pose proof (prompt_blocked start max l Hl last' v1 Hw1) as Hb. unfold credit in Hb. rewrite Hp1 in Hb.
      assert (seen last' v1 ≤ 1)%N as Hs by (unfold seen; case_decide; lia).
      destruct (blocked _ _ _ _) as [[r|[]|] v']; [|done|lia|done]. destruct Hb as (? & ? & ?). split_and!; [done|lia..].
    - destruct (pump_look _ _ _ _ _ _ Hx) as (_ & Hp1 & _). simpl. rewrite Hp1. split_and!; [done|lia..]. }
  induction 1 as [|l Hl IH|i n l Hl IH|t l Ht Hl IH]; intros v Hw Hst.
  - simpl. unfold events. rewrite count_nil. lia.
  - specialize (Hlook l v Hl Hw Hst). unfold events in *. rewrite count_cons. simpl b2n.
    destruct (blocked _ _ _ _) as [[r|[]|] v']; [|done|lia|done]. destruct Hlook as (? & ? & ?). split_and!; [done|lia].
  - by apply (IH (run_turn (Cancel i n) v)).
  - destruct (turn_runs t v) as (_ & _ & Hps & _).
    specialize (Hlook l (run_turn t v) Hl (signal_turn t v Hw)).
    assert (blocked (pump_poll start max) (t :: Driver :: l) None v =
      blocked (pump_poll start max) (Driver :: l) None (run_turn t v)) as -> by (by destruct t).
    assert (events (t :: Driver :: l) = N.succ (events l)) as -> by (unfold events; rewrite !count_cons, Ht; simpl; lia).
    assert (ds_polls (vr_signal v) ≤ ds_polls (vr_signal (run_turn t v)) ≤ u64_max)%N by (rewrite Hps; case_match; lia).
    specialize (Hlook ltac:(lia)).
    destruct (blocked _ _ _ _) as [[r|[]|] v']; [|done|lia|done]. destruct Hlook as (? & ? & ?). split_and!; [done|lia].
Qed.
Lemma maintain_calm v :
  match maintain_now v with
  | (Ok _, v') => vr_signal v' = vr_signal v ∧ vr_turns v' = vr_turns v
  | (Err Waiting, _) => False
  | _ => True
  end.
Proof.
  unfold maintain_now, bind, world_now. destruct (Clocks.now _) as [t c]. unfold world_call. by destruct (locked _ _) as [[]].
Qed.
Lemma pump_prompt c n v : driven v → prompt (vr_turns v) →
  match pump_virtual c n v with
  | (Ok r, v') => prompt (vr_turns v') ∧ (events (vr_turns v) ≤ events (vr_turns v') + 2 * pr_polls r + 3)%N
  | (Err Waiting, _) => (events (vr_turns v) < 2 * n + 2)%N
  | _ => True
  end.
Proof.
  intros Hd Hp. unfold pump_virtual. destruct (bad_polls n); [done|]. unfold bind at 1.
  destruct (virtual_state c v) as [[u|[]|] v1] eqn:H1; try done; [|unfold virtual_state, bind, get in H1; by repeat case_match].
  apply virtual_state_ok in H1 as (-> & _). unfold bind at 1.
  destruct (runtime_open v) as [[[]|[]|] v1] eqn:H1; try done; [|unfold runtime_open, bind, get in H1; by repeat case_match].
  apply runtime_open_ok in H1 as (-> & _). unfold bind at 1. pose proof (maintain_calm v) as Hcalm.
  destruct (maintain_now v) as [[[]|[]|] v1] eqn:H1; try done.
  destruct Hcalm as (Hs1 & Ht1).
  unfold bind at 1, modify at 1. unfold bind at 1, get at 1. unfold bind at 1, block_on at 1.
  set (v2 := v1 <| vr_signal ::= _ |>). set (v2' := v2 <| vr_signal ::= _ |>).
  assert (ds_polls (vr_signal v2) = ds_polls (vr_signal v)) as Hp2 by (by rewrite <- Hs1).
  assert (ds_polls (vr_signal v2') = ds_polls (vr_signal v)) as Hp2' by (by rewrite <- Hs1).
  assert (vr_turns v2 = vr_turns v) as Hvt by (by rewrite <- Ht1). rewrite Hvt.
  pose proof (prompt_started (ds_polls (vr_signal v2)) n _ Hp v2' eq_refl) as Hb. rewrite Hp2' in Hb.
  specialize (Hb ltac:(rewrite Hp2; split; [lia|apply Hd])).
  destruct (blocked _ _ _ _) as [[r|[]|] v3] eqn:H3; [|done|lia|done].
  destruct (pump_blocked (ds_polls (vr_signal v2)) n (vr_turns v) None v2' r v3) as (used & _ & _ & Hpr & _); [rewrite Hp2'; apply Hd|done|exact H3|].
  unfold bind, modify, get. destruct (negb _); [done|].
  match goal with |- context [maintain_now ?w] => pose proof (maintain_calm w) as Hcalm; destruct (maintain_now w) as [[[]|[]|] v4] end; try done.
  destruct Hcalm as [_ Ht4]. simpl in Ht4 |- *. rewrite Ht4, Hpr, Hp2.
  destruct Hb as [Hb1 Hb2]. split; [done|]. lia.
Qed.

(** ** What a pump reports *)

(** C38. A pump that returns has run a stretch of the scheduler's turns without moving the
    clock, neither the World's nor Tokio's; it reports the polls of owned tasks, up to the
    end of the counter.  It says idle only when the runtime parked, was looked at, and
    parked again before the next look, with no poll between the looks and the budget not
    spent; otherwise the budget, or the counter, was spent. *)
Theorem pump_exact c n v r v' :
  driven v → pump_virtual c n v = (Ok r, v') →
  (1 ≤ n ≤ 1000000)%N ∧
  ∃ used, vr_turns v = used ++ vr_turns v' ∧ driven v' ∧ current v' = current v ∧ tokio_now v' = current v ∧
    pr_polls r = N.min (u64_max - ds_polls (vr_signal v)) (polls used) ∧
    if pr_idle r then (polls used < n)%N ∧ settles used
    else (n ≤ polls used)%N ∨ (u64_max ≤ ds_polls (vr_signal v) + polls used)%N.
Proof.
  intros Hd H. destruct (pump_runs _ _ _ _ _ Hd H) as (Hn & used & Hu & Hr & Ht & Hp & Hi).
  unfold in_range in Hn. split; [lia|]. exists used. pose proof (rn_polls _ _ _ Hr (dv_polls _ Hd)) as Hps.
  pose proof (dv_polls _ Hd). split_and!; [done|by apply Hr|by apply Hr|done|lia|].
  destruct (pr_idle r); [destruct Hi as (? & ? & ?); split; [lia|done]|].
  destruct Hi; [right; lia|]. lia.
Qed.

(** A fresh runtime is driven, with both clocks at its epoch. *)
Lemma new_driven c epoch world_id waker config max_tasks turns v :
  new_virtual c epoch world_id waker config max_tasks turns = Ok v →
  driven v ∧ current v = epoch ∧ tokio_now v = epoch ∧ vr_turns v = turns ∧ setup_of v = (true, false, max_tasks, Some (cl_thread c)).
Proof.
  unfold new_virtual. destruct (cl_inside c); [done|]. destruct (_ || _); [done|].
  destruct (with_clock _ _ _) as [w|e|] eqn:Hw; [|done..]. intros [= <-].
  assert (w_clock w = Clocks.manual_at epoch) as Hc.
  { unfold with_clock in Hw. simpl in Hw. repeat case_match; by simplify_eq. }
  split_and!; [|unfold current, world_of; simpl; by rewrite Hc|done..].
  split; [unfold world_of; simpl; by rewrite Hc|apply Forall_singleton, tame_routing_service|done].
Qed.
Definition demo_caller : caller := MkCaller 1 false.
Definition demo (turns : list turn) : outcome string Virtual := new_virtual demo_caller 1000 1 0 config_default 4 turns.
Definition demo_turns : list turn := [Driver; Poll 0 (replicate 8 true); Driver; Park 0; Driver; Park 0; Driver].
Definition is_ok {E A S} (x : outcome E A * S) : bool := match x.1 with Ok _ => true | _ => false end.
Lemma is_ok_inv {E A S} (x : outcome E A * S) : is_ok x = true → ∃ a s, x = (Ok a, s).
Proof. destruct x as [[a|e|] s]; [eauto|done..]. Qed.
(** The routing task is polled once, then nothing is ready. *)
Lemma pump_exact_witness :
  match demo demo_turns with
  | Ok v =>
      is_ok (pump_virtual demo_caller 100 v) = true ∧
      ∀ r v', pump_virtual demo_caller 100 v = (Ok r, v') →
        ∃ used, vr_turns v = used ++ vr_turns v' ∧ driven v' ∧ current v' = current v ∧ tokio_now v' = current v ∧
          pr_polls r = N.min (u64_max - ds_polls (vr_signal v)) (polls used) ∧
          if pr_idle r then (polls used < 100)%N ∧ settles used
          else (100 ≤ polls used)%N ∨ (u64_max ≤ ds_polls (vr_signal v) + polls used)%N
  | _ => False
  end.
Proof.
  assert (match demo demo_turns with Ok v => is_ok (pump_virtual demo_caller 100 v) | _ => false end = true) as Hrun
    by (vm_compute; reflexivity).
  destruct (demo demo_turns) as [v|e|] eqn:Hv; [|discriminate Hrun|discriminate Hrun].
  split; [exact Hrun|]. intros r v' H. exact (proj2 (pump_exact demo_caller 100 v r v' (proj1 (new_driven _ _ _ _ _ _ _ _ Hv)) H)).
Defined.
