(* ===== verification/VirtualWaits.v ===== *)
(** * Time in a driven runtime

    An advance drains the runtime, moves both clocks by its duration and drains it again
    ([advance_exact]); a wait for idleness ends under a prompt scheduler, never passes its
    deadline and answers the truth ([wait_exact]); a close happens once. *)
From S2P Require Import Prelude Collections Text Types Metadata Diagnostics WorldState Publishing Actors Messaging.
From S2P Require Import Steps WorldClock.
From S2P Require Import Components.
From S2P Require Import Views.
From S2P Require Import NativeConfig.
From S2P Require Import NativeState.
From S2P Require Import Native.
From S2P Require Import Tasks.
From S2P Require Import Pipeline.
From S2P Require Import Virtual.
From S2P Require Import VirtualRuns.
Import Virtuals.

(** ** Advances *)
Record advanced (d : N) (used : list turn) (v v' : Virtual) : Prop := {
  ad_turned : turned v v';
  ad_tokio : tokio_now v' = (tokio_now v + d + sum_by moved used)%N;
  ad_polls : (ds_polls (vr_signal v) ≤ u64_max →
    ds_polls (vr_signal v') = N.min u64_max (ds_polls (vr_signal v) + polls used))%N }.
Lemma advanced_ran d l1 l2 v1 v2 v3 : ran l1 v1 v2 → advanced d l2 v2 v3 → advanced d (l1 ++ l2) v1 v3.
Proof.
  intros [Ht1 Hn1 Hp1] [Ht2 Hn2 Hp2]. split; [by etrans| |].
  - rewrite Hn2, Hn1, sum_by_app. lia.
  - intros Hp. specialize (Hp1 Hp). rewrite count_app. rewrite Hp2 by lia. lia.
Qed.
Lemma advanced_move d l v f : sum_by moved l = 0%N → polls l = 0%N → (∀ s, ds_polls (f s) = ds_polls s) →
  advanced d l v (on_state (λ s, s <| rt_time ::= λ t, t + d |>)%N v <| vr_signal ::= f |>).
Proof.
  intros Hm Hp Hf. split.
  - split; [|done|done]. intros [? ? ?]. split; [done..|]. simpl. by rewrite Hf.
  - unfold tokio_now. simpl. rewrite Hm. lia.
  - intros Hle. simpl. rewrite Hf, Hp. lia.
Qed.
Lemma advanced_blocked d turns : ∀ b v u v', blocked (advance_poll d) turns b v = (Ok u, v') →
  ∃ used, turns = used ++ vr_turns v' ∧ advanced (if b : bool then 0 else d) used v v' ∧ 0 < length used.
Proof.
  assert (∀ l v v', ran l v v' → advanced 0 l v v') as Hran.
  { intros l v v' [? Hn ?]. split; [done| |done]. rewrite Hn. lia. }
  induction turns as [|t turns IH]; intros b v u v' Hb; [done|].
  destruct (decide (t = Driver)) as [->|Ht].
  - simpl in Hb. destruct (negb _).
    + destruct (IH _ _ _ _ Hb) as (used & -> & Hu & _). exists (Driver :: used). split_and!; [done| |simpl; lia].
      apply (advanced_ran _ [Driver] used v v); [|done]. by apply ran_same.
    + destruct b; simpl in Hb.
      * simplify_eq. exists [Driver]. split_and!; [done| |simpl; lia]. apply Hran. by apply ran_same.
      * destruct (IH _ _ _ _ Hb) as (used & -> & Hu & _). exists (Driver :: used). split_and!; [done| |simpl; lia]. simpl in Hu.
        assert (advanced d [Driver] v (on_state (λ s, s <| rt_time ::= λ t, t + d |>)%N
          (v <| vr_signal ::= λ s, s <| ds_woken := false |> |>) <| vr_signal ::= λ s, s <| ds_woken := true |> |>)) as Hm.
        { by apply (advanced_ran d [] [Driver] v (v <| vr_signal ::= λ s, s <| ds_woken := false |> |>)); [apply ran_same|apply advanced_move]. }
        destruct Hm as [Ht1 Hn1 Hp1], Hu as [Ht2 Hn2 Hp2]. split; [by etrans| |].
        -- rewrite Hn2, Hn1. simpl. lia.
        -- intros Hle. specialize (Hp1 Hle). rewrite Hp2 by lia. rewrite Hp1. counting.
  - assert (blocked (advance_poll d) turns b (run_turn t v) = (Ok u, v')) as Hb' by (by destruct t).
    destruct (IH _ _ _ _ Hb') as (used & -> & Hu & _). exists (t :: used). split_and!; [done| |simpl; lia].
    apply (advanced_ran _ [t] used v (run_turn t v)); [apply ran_turn|done].
Qed.
Lemma time_advance_runs d v u v' : time_advance d v = (Ok u, v') →
  ∃ used, vr_turns v = used ++ vr_turns v' ∧ advanced d used v v' ∧ 0 < length used.
Proof.
  unfold time_advance, block_on. intros Hb. destruct (advanced_blocked d _ false _ _ _ Hb) as (used & Hu & Ha & Hpos).
  exists used. split_and!; [done| |done]. refine (advanced_ran d [] used v _ _ _ Ha). by apply ran_same.
Qed.
Lemma clock_advance_ok d v u v' : clock_advance d v = (Ok u, v') → driven v →
  driven v' ∧ current v' = (current v + d)%N ∧ tokio_now v' = tokio_now v ∧ setup_of v' = setup_of v ∧
  vr_signal v' = vr_signal v ∧ vr_turns v' = vr_turns v.
Proof.
  unfold clock_advance, Clocks.advance. intros H Hd. rewrite (dv_manual _ Hd) in H. simpl in H.
  unfold checked_add in H. case_decide; [|done]. destruct (_ <? _)%N; [done|]. simplify_eq.
  split_and!; try done. split; [done|apply Hd..].
Qed.
(** The counter never ends inside an advance. *)
Lemma add_polls_ok c n v r v' before : driven v → pump_virtual c n v = (Ok r, v') → (before ≤ ds_polls (vr_signal v))%N →
  add_polls (ds_polls (vr_signal v) - before) r v' = (Ok (MkPumpReport (ds_polls (vr_signal v') - before) (pr_idle r)), v').
Proof.
  intros Hd H Hb. destruct (pump_runs _ _ _ _ _ Hd H) as (_ & used & _ & Hr & _ & Hp & _).
  pose proof (rn_polls _ _ _ Hr (dv_polls _ Hd)) as Hps. pose proof (dv_polls _ Hd). unfold add_polls, checked_add.
  rewrite decide_True by lia. unfold bind, expect, ret. repeat f_equal. lia.
Qed.

Lemma advance_runs c d n v r v' : driven v → advance_virtual c d n v = (Ok r, v') →
  (d ≤ max_period)%N ∧ (1 ≤ n ≤ 1000000)%N ∧ driven v' ∧ current v' = (current v + d)%N ∧ setup_of v' = setup_of v ∧
  (∃ jump after, vr_turns v = jump ++ after ++ vr_turns v' ∧
     pr_polls r = N.min (u64_max - ds_polls (vr_signal v)) (polls (jump ++ after)) ∧
     tokio_now v' = (tokio_now v + d + sum_by moved (jump ++ after))%N ∧ (pr_idle r = true → settles after) ∧ 0 < length jump) ∧
  if pr_idle r then tokio_now v' = current v' ∧ (pr_polls r < n)%N ∧ (pr_polls r < u64_max - ds_polls (vr_signal v))%N
  else pr_polls r = (u64_max - ds_polls (vr_signal v))%N ∨ (n ≤ pr_polls r)%N.
Proof.
  intros Hd. unfold advance_virtual. destruct (N.ltb_spec max_period d); [done|].
  unfold bad_polls. destruct (in_range 1 1000000 n) eqn:Hn; [|done]. simpl. unfold in_range in Hn. intros H0.
  apply bind_ok in H0 as (? & v1 & H1 & H0). apply virtual_state_ok in H1 as (-> & _).
  apply bind_ok in H0 as (? & v1 & H1 & H0). apply runtime_open_ok in H1 as (-> & _).
  apply bind_ok in H0 as (? & v1 & H1 & H0). destruct (clock_advance_ok _ _ _ _ H1 Hd) as (Hd1 & Hc1 & Hk1 & Hs1 & Hg1 & Ht1).
  apply bind_ok in H0 as ([] & v2 & H2 & H0). destruct (maintain_ran _ _ Hd1 H2) as (Hr2 & Hg2 & Ht2).
  apply bind_ok in H0 as (? & ? & [= <- <-] & H0).
  apply bind_ok in H0 as (? & v3 & H3 & H0). destruct (time_advance_runs _ _ _ _ H3) as (used & Hu & [Ht3 Hn3 Hp3] & Hpos).
  apply bind_ok in H0 as (? & ? & [= <- <-] & H0).
  assert (driven v3) as Hd3 by (by apply Ht3, Hr2).
  assert (current v3 = (current v + d)%N) as Hc3.
  { rewrite (tn_current _ _ Ht3), (tn_current _ _ (rn_turned _ _ _ Hr2)); auto. by apply Hr2. }
  assert (setup_of v3 = setup_of v) as Hs3.
  { by rewrite (tn_setup _ _ Ht3), (tn_setup _ _ (rn_turned _ _ _ Hr2)), Hs1. }
  assert (tokio_now v3 = tokio_now v + d + sum_by moved used)%N as Hk3.
  { rewrite Hn3, (rn_tokio _ _ _ Hr2), Hk1. simpl. lia. }
  pose proof (dv_polls _ Hd) as Hle. assert (ds_polls (vr_signal v2) = ds_polls (vr_signal v)) as Hp2 by (by rewrite Hg2, Hg1).
  rewrite Hp2 in Hp3, H0. specialize (Hp3 Hle). unfold saturating_sub in H0.
  destruct (N.eqb_spec (n - (ds_polls (vr_signal v3) - ds_polls (vr_signal v))) 0) as [Hz|Hz].
  - injection H0 as <- <-. split_and!; [done|lia|lia|done..| |simpl; lia].
    exists used, []. rewrite app_nil_r. split_and!; [by rewrite <- Ht1, <- Ht2|simpl; lia|done|done|done].
  - apply bind_ok in H0 as (r1 & v4 & H4 & H0). destruct (pump_runs _ _ _ _ _ Hd3 H4) as (_ & used' & Hu' & Hr4 & Htk & Hpr & Hi).
    rewrite (add_polls_ok _ _ _ _ _ _ Hd3 H4) in H0 by lia. injection H0 as <- <-.
    pose proof (rn_polls _ _ _ Hr4 (dv_polls _ Hd3)) as Hp4. cbn [pr_polls pr_idle].
    assert (current v4 = current v3) as Hc4 by (by apply Hr4).
    split_and!; [done|lia|lia|by apply Hr4|by rewrite Hc4|by rewrite (tn_setup _ _ (rn_turned _ _ _ Hr4))| |].
    + exists used, used'. rewrite sum_by_app, count_app. split_and!; [by rewrite <- Hu', <- Hu, Ht2, Ht1|lia| | |done].
      * rewrite (rn_tokio _ _ _ Hr4), Hk3. lia.
      * intros Hidle. rewrite Hidle in Hi. apply Hi.
    + destruct (pr_idle r1); [destruct Hi as (? & ? & _); split_and!; [by rewrite Hc4|lia..]|]. destruct Hi; [left|right]; lia.
Qed.
Lemma pump_ready c n v r v' : driven v → ready c v → pump_virtual c n v = (Ok r, v') → ready c v'.
Proof.
  intros Hd Hc H. destruct (pump_runs _ _ _ _ _ Hd H) as (_ & used & Hu & Hr & Hk & _).
  eapply ready_ran; [done..|apply Hr|]. by rewrite Hk, (tn_current _ _ (rn_turned _ _ _ Hr) Hd).
Qed.
Lemma advance_ready c d n v r v' : driven v → ready c v → advance_virtual c d n v = (Ok r, v') → ready c v'.
Proof.
  intros Hd Hc H. destruct (advance_runs _ _ _ _ _ _ Hd H) as (_ & _ & _ & Hcur & Hs & (jump & after & Hu & _ & Hk & _) & _).
  rewrite app_assoc in Hu. pose proof (rd_still _ _ Hc) as Hstill. rewrite Hu in Hstill. apply Forall_app in Hstill as [Hstill _].
  eapply ready_ran; [done..|]. rewrite Hk, Hcur, (rd_together _ _ Hc), (still_sum _ Hstill). lia.
Qed.
(** What an advance that the runtime allows fails of. *)
Definition may_advance (c : caller) (d n : N) (v : Virtual) : Prop :=
  ready c v ∧ in_range 1 1000000 n = true ∧ (d ≤ max_period ∧ current v + d ≤ instant_max)%N.
Lemma advance_sound c d n v : driven v → sound (λ _, ¬ may_advance c d n v) (advance_virtual c d n v).
Proof.
  intros Hd. unfold advance_virtual. destruct (N.ltb_spec max_period d); [intros (_ & _ & ? & _); lia|].
  unfold bad_polls. destruct (in_range 1 1000000 n) eqn:Hn; [|intros (_ & Hf & _); congruence]. cbn [negb].
  assert (∀ v' : Virtual, ¬ ready c v → ¬ may_advance c d n v) as Hready by (intros _ Hf (? & _); done).
  apply sound_seq; [eapply sound_weaken; [exact Hready|apply sound_virtual_state]|]. intros ? v1 H1. apply virtual_state_ok in H1 as (-> & _).
  apply sound_seq; [eapply sound_weaken; [exact Hready|apply sound_runtime_open]|]. intros ? v1 H1. apply runtime_open_ok in H1 as (-> & _).
  apply sound_seq.
  { unfold clock_advance, Clocks.advance. rewrite (dv_manual _ Hd). simpl. unfold checked_add. case_decide as Hmax.
    - destruct (N.ltb_spec (ck_time (w_clock (world_of v)) + d) (ck_time (w_clock (world_of v)))); [lia|done].
    - intros (_ & _ & _ & Hf). by apply Hmax. }
  intros ? v1 H1. destruct (clock_advance_ok _ _ _ _ H1 Hd) as (Hd1 & Hc1 & Hk1 & Hs1 & Hg1 & Ht1).
  apply sound_seq; [apply sound_maintain|]. intros [] v2 H2. destruct (maintain_ran _ _ Hd1 H2) as (Hr2 & Hg2 & Ht2).
  apply sound_seq; [done|]. intros ? ? [= <- <-].
  apply sound_seq; [apply sound_blocked|]. intros ? v3 H3. destruct (time_advance_runs _ _ _ _ H3) as (used & Hu & [Ht3 Hn3 Hp3] & Hpos).
  apply sound_seq; [done|]. intros ? ? [= <- <-]. assert (driven v3) as Hd3 by (by apply Ht3, Hr2). unfold saturating_sub.
  assert (ds_polls (vr_signal v2) ≤ ds_polls (vr_signal v3))%N as Hle.
  { pose proof (dv_polls _ Hd) as Hle. rewrite Hp3; rewrite Hg2, Hg1; lia. }
  destruct (N.eqb_spec (n - (ds_polls (vr_signal v3) - ds_polls (vr_signal v2))) 0); [done|].
  apply sound_seq.
  - eapply sound_weaken; [|by apply pump_sound]. intros ? Hf (Hr & _ & _). apply Hf. unfold in_range in *. split; [|lia].
    pose proof (rd_still _ _ Hr) as Hstill. rewrite <- Ht1, <- Ht2, Hu in Hstill. apply Forall_app in Hstill as [Hstill _].
    apply (ready_ran c used v v3 Hr).
    + by rewrite <- Hu, Ht2, Ht1.
    + by rewrite (tn_setup _ _ Ht3), (tn_setup _ _ (rn_turned _ _ _ Hr2)), Hs1.
    + rewrite Hn3, (rn_tokio _ _ _ Hr2), Hk1, (rd_together _ _ Hr), (still_sum _ Hstill).
      rewrite (tn_current _ _ Ht3), (tn_current _ _ (rn_turned _ _ _ Hr2)), Hc1 by (done || by apply Hr2). simpl. lia.
  - intros r v4 H4. by rewrite (add_polls_ok _ _ _ _ _ _ Hd3 H4).
Qed.

(** ** Waiting for idleness *)
Definition is_busy (v : Virtual) : bool := (0 <? active_tasks v)%N || (0 <? routing_pending (world_of v))%N.
Lemma world_read_ok {A} (f : World → A) v a v' : world_call (gets f) v = (Ok a, v') → a = f (world_of v) ∧ v' = v.
Proof.
  destruct v as [[ts [[w [] st o cl] co po bu cn tm]] sg tu op ti mx ow]; [done|].
  unfold world_call, locked, gets. simpl. intros [= <- <-]. done.
Qed.
Lemma busy_ok v b v' : busy v = (Ok b, v') → b = is_busy v ∧ v' = v.
Proof.
  unfold busy, is_busy. intros H. apply bind_ok in H as (? & ? & [= <- <-] & H).
  destruct (0 <? active_tasks v)%N; [by injection H as <- <-|].
  apply bind_ok in H as (p & v1 & H1 & H). apply world_read_ok in H1 as [-> ->]. by injection H as <- <-.
Qed.
Lemma world_now_ok v t v' : driven v → world_now v = (Ok t, v') → t = current v ∧ v' = v.
Proof.
  intros Hd. unfold world_now. rewrite manual_now by apply Hd. intros [= <- <-]. split; [done|].
  by destruct v as [[ts [[[] ? ? ? ?] ? ? ? ? ?]] ? ? ? ? ? ?].
Qed.
Lemma idle_ok v b v' : idle v = (Ok b, v') → b = negb (is_busy v) ∧ v' = v.
Proof.
  unfold idle. intros H. apply bind_ok in H as (x & v1 & H1 & H). apply busy_ok in H1 as [-> ->]. by injection H as <- <-.
Qed.

(** Within the deadline, and with the World as the answer says. *)
Record timely (deadline : N) (v v' : Virtual) : Prop := {
  ty_driven : driven v';
  ty_setup : setup_of v' = setup_of v;
  ty_time : (current v ≤ current v' ≤ deadline)%N;
  ty_turns : ∃ used, vr_turns v = used ++ vr_turns v' }.
Lemma timely_refl deadline v : driven v → (current v ≤ deadline)%N → timely deadline v v.
Proof. intros Hd Hc. split; [done|done|lia|by exists []]. Qed.
Lemma timely_trans deadline v1 v2 v3 : timely deadline v1 v2 → timely deadline v2 v3 → timely deadline v1 v3.
Proof.
  intros [Hd1 Hs1 Ht1 [u1 Hu1]] [Hd2 Hs2 Ht2 [u2 Hu2]]. split; [done|congruence|lia|].
  exists (u1 ++ u2). by rewrite <- app_assoc, <- Hu2.
Qed.
(** How many turns are left. *)
Definition left (v : Virtual) : N := N.of_nat (length (vr_turns v)).
Lemma left_used used v v' : vr_turns v = used ++ vr_turns v' → left v = (N.of_nat (length used) + left v')%N.
Proof. unfold left. intros ->. rewrite length_app. lia. Qed.
Lemma polls_length (used : list turn) : (polls used ≤ N.of_nat (length used))%N.
Proof. induction used as [|t used IH]; [done|]. counting. simpl length. destruct (is_poll t); simpl; lia. Qed.
Lemma blocked_left {L A} (poll : L → Virtual → (L + A) * Virtual) turns : ∀ l v a v',
  blocked poll turns l v = (Ok a, v') → (left v' < N.of_nat (length turns))%N.
Proof.
  induction turns as [|t turns IH]; intros l v a v' H; [done|].
  assert (∀ l v, blocked poll turns l v = (Ok a, v') → (left v' < N.of_nat (length (t :: turns)))%N) as Hrec.
  { intros l1 v1 H1. specialize (IH _ _ _ _ H1). simpl length. lia. }
  destruct t; cbn [blocked] in H; eauto. destruct (negb _); [eauto|]. destruct (poll _ _) as [[l'|b] v1]; [eauto|].
  injection H as <- <-. unfold left. simpl. lia.
Qed.
(** A call of the driver spends the turns it counts, and one at least. *)
Lemma pump_left c n v r v' : driven v → pump_virtual c n v = (Ok r, v') → (N.max (pr_polls r) 1 + left v' ≤ left v)%N.
Proof.
  intros Hd H. destruct (pump_runs _ _ _ _ _ Hd H) as (_ & used & Hu & Hr & _ & Hp & _).
  pose proof (rn_polls _ _ _ Hr (dv_polls _ Hd)) as Hps. pose proof (polls_length used) as Hlen. pose proof (dv_polls _ Hd) as Hle.
  rewrite (left_used _ _ _ Hu). enough (0 < length used) by lia. clear Hr. unfold pump_virtual in H. destruct (bad_polls n); [done|].
  apply bind_ok in H as (? & v1 & H1 & H). apply virtual_state_ok in H1 as (-> & _).
  apply bind_ok in H as (? & v1 & H1 & H). apply runtime_open_ok in H1 as (-> & _).
  apply bind_ok in H as ([] & v1 & H1 & H). destruct (maintain_ran _ _ Hd H1) as (Hr1 & _ & Ht1).
  apply bind_ok in H as (? & v2 & [= _ <-] & H). apply bind_ok in H as (? & ? & [= <- <-] & H).
  apply bind_ok in H as (r' & v3 & H3 & H). apply blocked_left in H3.
  apply bind_ok in H as (? & v4 & [= _ <-] & H). apply bind_ok in H as (? & ? & [= <- <-] & H). destruct (negb _); [done|].
  apply bind_ok in H as ([] & v5 & H5 & H). injection H as _ <-. unfold maintain_now in H5.
  assert (vr_turns v5 = vr_turns v3) as Ht5.
  { match type of H5 with bind _ _ ?w = _ => pose proof (maintain_calm w) as Hc; unfold maintain_now in Hc; rewrite H5 in Hc end. apply Hc. }
  change (vr_turns (v1 <| vr_signal ::= _ |>)) with (vr_turns v1) in H3. unfold left in H3.
  rewrite <- Ht5, Ht1, Hu, length_app in H3. lia.
Qed.
Lemma advance_left c d n v r v' : driven v → advance_virtual c d n v = (Ok r, v') → (N.max (pr_polls r) 1 + left v' ≤ left v)%N.
Proof.
  intros Hd H. destruct (advance_runs _ _ _ _ _ _ Hd H) as (_ & _ & _ & _ & _ & (jump & after & Hu & Hp & _ & _ & Hj) & _).
  rewrite app_assoc in Hu. rewrite (left_used _ _ _ Hu). pose proof (polls_length (jump ++ after)). rewrite length_app in *. lia.
Qed.
(** [false] is answered at the deadline, or when the budget of [remaining] polls is spent. *)
Definition gave_up (deadline remaining : N) (v v' : Virtual) : Prop :=
  (deadline ≤ current v' ∨ remaining + left v' ≤ left v)%N.
Lemma idle_round_runs c deadline remaining v x v' :
  driven v → (current v ≤ deadline)%N → idle_round c deadline remaining v = (Ok x, v') →
  timely deadline v v' ∧
  match x with
  | inl rest => (rest < remaining ∧ remaining + left v' ≤ rest + left v)%N
  | inr b => b = negb (is_busy v') ∧ (b = false → gave_up deadline remaining v v')
  end.
Proof.
  intros Hd Hdl H. unfold idle_round in H.
  apply bind_ok in H as (r & v1 & H1 & H). destruct (pump_runs _ _ _ _ _ Hd H1) as (Hn & used & Hu & Hr & _).
  pose proof (pump_left _ _ _ _ _ Hd H1) as Hl1. assert (timely deadline v v1) as Ht1.
  { split; [by apply Hr|apply Hr| |by eexists]. rewrite (tn_current _ _ (rn_turned _ _ _ Hr) Hd). lia. }
  pose proof (ty_driven _ _ _ Ht1) as Hd1. unfold in_range in Hn.
  apply bind_ok in H as (b & v2 & H2 & H). apply busy_ok in H2 as [-> ->].
  destruct (is_busy v1) eqn:Hb; simpl in H; [|injection H as <- <-; by rewrite Hb].
  apply bind_ok in H as (t & v2 & H2 & H). apply world_now_ok in H2 as [-> ->]; [|done].
  unfold spent, saturating_sub in H. unfold gave_up.
  destruct (N.leb_spec deadline (current v1)); simpl in H; [injection H as <- <-; rewrite Hb; by auto|].
  destruct (N.eqb_spec (remaining - N.max (pr_polls r) 1) 0); [injection H as <- <-; rewrite Hb; split_and!; [done..|]; right; lia|].
  destruct (pr_idle r); [|injection H as <- <-; split; [done|lia]].
  apply bind_ok in H as (t & v2 & H2 & H). apply world_now_ok in H2 as [-> ->]; [|done].
  apply bind_ok in H as (r2 & v2 & H2 & H). injection H as <- <-. pose proof (advance_left _ _ _ _ _ _ Hd1 H2) as Hl2.
  destruct (advance_runs _ _ _ _ _ _ Hd1 H2) as (_ & _ & Hd2 & Hc2 & Hs2 & (jump & after & Hu2 & _) & _).
  split; [|lia]. eapply timely_trans; [exact Ht1|]. split; [done|done|rewrite Hc2; lia|exists (jump ++ after); by rewrite <- app_assoc].
Qed.
Lemma idle_loop_runs c deadline fuel : ∀ remaining v b v',
  driven v → (current v ≤ deadline)%N → idle_loop fuel c deadline remaining v = (Ok b, v') →
  timely deadline v v' ∧ b = negb (is_busy v') ∧ (b = false → gave_up deadline remaining v v').
Proof.
  assert (∀ remaining v b v', driven v → (current v ≤ deadline)%N → is_busy v && (0 <? remaining)%N = false →
    idle v = (Ok b, v') → timely deadline v v' ∧ b = negb (is_busy v') ∧ (b = false → gave_up deadline remaining v v')) as Hidle.
  { intros remaining v b v' Hd Hdl Hc H. apply idle_ok in H as [-> ->]. split_and!; [by apply timely_refl|done|].
    intros Hb. apply negb_false_iff in Hb. rewrite Hb in Hc. right. simpl in Hc. lia. }
  induction fuel as [|fuel IH]; intros remaining v b v' Hd Hdl H; simpl in H;
    apply bind_ok in H as (x & v1 & H1 & H); apply busy_ok in H1 as [-> ->]; destruct (_ && _) eqn:Hc; eauto; [done|].
  apply bind_ok in H as (y & v1 & H1 & H). destruct (idle_round_runs _ _ _ _ _ _ Hd Hdl H1) as [Ht Hy].
  destruct y as [rest|answer]; [|injection H as <- <-; done].
  destruct (IH rest v1 b v') as (Ht' & Hb & Hg); [apply Ht..|done|]. split_and!; [by eapply timely_trans|done|].
  intros Hf. destruct (Hg Hf); [by left|right; lia].
Qed.
(** The fuel is enough: more of it changes nothing. *)
Lemma idle_loop_fuel c deadline fuel : ∀ remaining more v, driven v → (current v ≤ deadline)%N →
  (remaining ≤ N.of_nat fuel)%N → idle_loop (fuel + more) c deadline remaining v = idle_loop fuel c deadline remaining v.
Proof.
  induction fuel as [|fuel IH]; intros remaining more v Hd Hdl Hf.
  - assert (remaining = 0)%N as -> by lia. destruct more; [done|]. simpl. unfold bind.
    destruct (busy v) as [[b|e|] v1]; [|done..]. by rewrite andb_false_r.
  - simpl. unfold bind at 1 3. destruct (busy v) as [[b|e|] v1] eqn:Hb; [|done..].
    apply busy_ok in Hb as [-> ->]. destruct (_ && _); [|done]. unfold bind.
    destruct (idle_round c deadline remaining v) as [[[rest|answer]|e|] v1] eqn:Hr; [|done..].
    destruct (idle_round_runs _ _ _ _ _ _ Hd Hdl Hr) as [Ht Hl]. apply IH; [apply Ht..|lia].
Qed.
(** The loop of the source, without fuel. *)
Definition while_busy (c : caller) (deadline remaining : N) : V bool := idle_loop (N.to_nat remaining) c deadline remaining.
Lemma while_busy_loop c deadline remaining v : driven v → (current v ≤ deadline)%N →
  while_busy c deadline remaining v =
    (let! b := busy in
     if b && (0 <? remaining)%N then
       let! r := idle_round c deadline remaining in
       match r with inl remaining => while_busy c deadline remaining | inr answer => ret answer end
     else idle) v.
Proof.
  intros Hd Hdl. unfold while_busy at 1. destruct (N.to_nat remaining) as [|fuel] eqn:Hf.
  - assert (remaining = 0)%N as -> by lia. simpl. unfold bind. destruct (busy v) as [[b|e|] v1]; [|done..]. by rewrite andb_false_r.
  - simpl. unfold bind at 1 3. destruct (busy v) as [[b|e|] v1] eqn:Hb; [|done..].
    apply busy_ok in Hb as [-> ->]. destruct (_ && _); [|done]. unfold bind.
    destruct (idle_round c deadline remaining v) as [[[rest|answer]|e|] v1] eqn:Hr; [|done..].
    destruct (idle_round_runs _ _ _ _ _ _ Hd Hdl Hr) as [Ht Hl]. unfold while_busy.
    replace fuel with (N.to_nat rest + (fuel - N.to_nat rest)) by lia. apply idle_loop_fuel; [apply Ht..|lia].
Qed.

(** ** Waits return *)
Lemma prompt_advance d turns : prompt turns → ∀ b v, ds_woken (vr_signal v) = true →
  match blocked (advance_poll d) turns b v with
  | (Ok _, v') => prompt (vr_turns v') ∧ (events turns ≤ events (vr_turns v') + (if b : bool then 1 else 2))%N
  | (Err Waiting, _) => (events turns < if b : bool then 1 else 2)%N
  | _ => False
  end.
Proof.
  assert (∀ l t, is_poll t || is_park t = true → events (t :: Driver :: l) = N.succ (events l)) as Hev.
  { intros l t Ht. unfold events. rewrite !count_cons, Ht. simpl. lia. }
  assert (∀ l, events (Driver :: l) = events l) as Hev0 by done.
  induction 1 as [|l Hl IH|i n l Hl IH|t l Ht Hl IH]; intros b v Hw.
  - unfold events. rewrite count_nil. simpl. destruct b; lia.
  - cbn [blocked]. rewrite Hw, Hev0. cbn [negb]. destruct b; simpl.
    + split; [done|lia].
    + match goal with |- context [blocked _ _ true ?w] => specialize (IH true w eq_refl) end.
      destruct (blocked _ _ _ _) as [[r|[]|] v']; try done; [destruct IH; split; [done|lia]|lia].
  - apply (IH b (run_turn (Cancel i n) v) Hw).
  - assert (blocked (advance_poll d) (t :: Driver :: l) b v =
      blocked (advance_poll d) (Driver :: l) b (run_turn t v)) as -> by (by destruct t).
    rewrite Hev by done. cbn [blocked]. rewrite signal_turn by done. cbn [negb]. destruct b; simpl.
    + split; [done|lia].
    + match goal with |- context [blocked _ _ true ?w] => specialize (IH true w eq_refl) end.
      destruct (blocked _ _ _ _) as [[r|[]|] v']; try done; [destruct IH; split; [done|lia]|lia].
Qed.
Lemma time_advance_prompt d v : prompt (vr_turns v) →
  match time_advance d v with
  | (Ok _, v') => prompt (vr_turns v') ∧ (events (vr_turns v) ≤ events (vr_turns v') + 2)%N
  | (Err Waiting, _) => (events (vr_turns v) < 2)%N
  | _ => False
  end.
Proof. intros Hp. by apply (prompt_advance d _ Hp false). Qed.
Lemma clock_advance_calm d v : match clock_advance d v with (Ok _, v') => True | (Err Waiting, _) => False | _ => True end.
Proof. unfold clock_advance. by destruct (Clocks.advance _ _) as [[] ?]. Qed.
Lemma virtual_state_calm c v : match virtual_state c v with (Err Waiting, _) => False | _ => True end.
Proof. unfold virtual_state, bind, get. by repeat case_match. Qed.
Lemma runtime_open_calm v : match runtime_open v with (Err Waiting, _) => False | _ => True end.
Proof. unfold runtime_open, bind, get. by repeat case_match. Qed.

Lemma advance_prompt c d n v : driven v → prompt (vr_turns v) →
  match advance_virtual c d n v with
  | (Ok r, v') => prompt (vr_turns v') ∧ (events (vr_turns v) ≤ events (vr_turns v') + 2 * pr_polls r + 5)%N
  | (Err Waiting, _) => (events (vr_turns v) < 2 * n + 4)%N
  | _ => True
  end.
Proof.
  intros Hd Hp. unfold advance_virtual. destruct (_ <? _)%N; [done|]. destruct (bad_polls n); [done|]. unfold bind at 1.
  pose proof (virtual_state_calm c v). destruct (virtual_state c v) as [[u|[]|] v1] eqn:H1; try done.
  apply virtual_state_ok in H1 as (-> & _). unfold bind at 1.
  pose proof (runtime_open_calm v). destruct (runtime_open v) as [[u'|[]|] v1] eqn:H1; try done.
  apply runtime_open_ok in H1 as (-> & _). unfold bind at 1. pose proof (clock_advance_calm d v).
  destruct (clock_advance d v) as [[[]|[]|] v1] eqn:H2; try done.
  destruct (clock_advance_ok _ _ _ _ H2 Hd) as (Hd1 & _ & _ & _ & Hs1 & Ht1). unfold bind at 1.
  pose proof (maintain_calm v1) as Hcalm. destruct (maintain_now v1) as [[[]|[]|] v2] eqn:H3; try done.
  destruct (maintain_ran _ _ Hd1 H3) as (Hr2 & Hs2 & Ht2).
  unfold bind at 1, gets at 1. unfold bind at 1. rewrite <- Ht1, <- Ht2 in Hp |- *.
  pose proof (time_advance_prompt d v2 Hp) as Htime.
  destruct (time_advance d v2) as [[u''|[]|] v3] eqn:H4; [| done|lia|done]. destruct Htime as [Hp3 He3].
  destruct (time_advance_runs _ _ _ _ H4) as (used & _ & Ha & _).
  assert (driven v3) as Hd3 by (by apply Ha, Hr2).
  pose proof (ad_polls _ _ _ _ Ha) as Hps. pose proof (dv_polls _ Hd) as Hle. rewrite Hs2, Hs1 in Hps. specialize (Hps Hle).
  unfold bind at 1, gets at 1. unfold saturating_sub. rewrite Hs2, Hs1.
  destruct (N.eqb_spec (n - (ds_polls (vr_signal v3) - ds_polls (vr_signal v))) 0); [split; [done|]; simpl; lia|].
  unfold bind at 1. set (left_polls := (n - _)%N).
  pose proof (pump_prompt c left_polls v3 Hd3 Hp3) as Hpump.
  destruct (pump_virtual c left_polls v3) as [[r|[]|] v4] eqn:H5; try done; [|lia].
  destruct Hpump as [Hp4 He4]. rewrite (add_polls_ok _ _ _ _ _ _ Hd3 H5) by lia. cbn [pr_polls].
  destruct (pump_runs _ _ _ _ _ Hd3 H5) as (_ & used' & _ & Hr4 & _ & Hpr & _).
  pose proof (rn_polls _ _ _ Hr4 (dv_polls _ Hd3)). pose proof (dv_polls _ Hd3). split; [done|]. lia.
Qed.
Lemma busy_calm v : match busy v with (Err Waiting, _) => False | _ => True end.
Proof.
  unfold busy, bind, get. destruct (_ <? _)%N; [done|]. unfold world_call. by destruct (locked _ _) as [[]].
Qed.
Lemma world_now_total v : driven v → world_now v = (Ok (current v), v).
Proof. intros Hd. destruct (world_now v) as [o v'] eqn:H. destruct o; try (unfold world_now in H; by destruct (Clocks.now _)). by destruct (world_now_ok _ _ _ Hd H) as [-> ->]. Qed.
Lemma idle_round_prompt c deadline remaining v :
  driven v → (current v ≤ deadline)%N → prompt (vr_turns v) → (7 * remaining ≤ events (vr_turns v))%N → (0 < remaining)%N →
  match idle_round c deadline remaining v with
  | (Ok (inl rest), v') => prompt (vr_turns v') ∧ (7 * rest ≤ events (vr_turns v'))%N
  | (Err Waiting, _) => False
  | _ => True
  end.
Proof.
  intros Hd Hdl Hp He Hpos. unfold idle_round, bind at 1.
  pose proof (pump_prompt c remaining v Hd Hp) as Hpump.
  destruct (pump_virtual c remaining v) as [[r|[]|] v1] eqn:H1; try done; [|lia]. destruct Hpump as [Hp1 He1].
  destruct (pump_runs _ _ _ _ _ Hd H1) as (_ & used & _ & Hr & _). assert (driven v1) as Hd1 by (by apply Hr).
  unfold bind at 1. pose proof (busy_calm v1) as Hc. destruct (busy v1) as [[b|[]|] v2] eqn:H2; try done.
  apply busy_ok in H2 as [-> ->]. destruct (is_busy v1); [|done]. cbn [negb]. unfold bind at 1.
  rewrite world_now_total by done. unfold spent, saturating_sub.
  destruct (_ <=? _)%N; [done|]. simpl. destruct (N.eqb_spec (remaining - N.max (pr_polls r) 1) 0); [done|].
  destruct (pr_idle r); [|simpl; split; [done|lia]]. unfold bind at 1. rewrite world_now_total by done. unfold bind.
  match goal with |- context [advance_virtual ?a ?b ?n v1] => pose proof (advance_prompt a b n v1 Hd1 Hp1) as Ha;
    destruct (advance_virtual a b n v1) as [[r2|[]|] v2] end; try done; [|lia].
  destruct Ha as [Hp2 He2]. simpl. split; [done|]. lia.
Qed.
Lemma idle_loop_prompt c deadline fuel : ∀ remaining v,
  driven v → (current v ≤ deadline)%N → (remaining ≤ N.of_nat fuel)%N → prompt (vr_turns v) → (7 * remaining ≤ events (vr_turns v))%N →
  match idle_loop fuel c deadline remaining v with (Err Waiting, _) => False | _ => True end.
Proof.
  assert (∀ v, match idle v with (Err Waiting, _) => False | _ => True end) as Hidle.
  { intros v. unfold idle, bind. pose proof (busy_calm v). by destruct (busy v) as [[b|[]|] v1]. }
  induction fuel as [|fuel IH]; intros remaining v Hd Hdl Hfuel Hp He; simpl; unfold bind at 1;
    pose proof (busy_calm v); destruct (busy v) as [[b|[]|] v1] eqn:Hb; try done; apply busy_ok in Hb as [-> ->].
  - assert (remaining = 0)%N as -> by lia. rewrite andb_false_r. by apply Hidle.
  - destruct (is_busy v); [|by apply Hidle]. destruct (N.ltb_spec 0 remaining); [|by apply Hidle]. cbn [andb]. unfold bind.
    pose proof (idle_round_prompt c deadline remaining v Hd Hdl Hp He ltac:(lia)) as Hr.
    destruct (idle_round c deadline remaining v) as [[[rest|answer]|[]|] v1] eqn:H1; try done.
    destruct (idle_round_runs _ _ _ _ _ _ Hd Hdl H1) as [Ht Hrest]. destruct Hr. apply IH; [apply Ht..|lia|done|done].
Qed.

Lemma busy_sound P v : sound P (busy v).
Proof.
  apply sound_seq; [done|]. intros ? ? [= <- <-]. destruct (_ <? _)%N; [done|].
  apply sound_seq; [by apply sound_world_call|done].
Qed.
Lemma world_now_sound P v : sound P (world_now v).
Proof. unfold world_now. by destruct (Clocks.now _). Qed.
Lemma idle_round_sound c deadline remaining v :
  driven v → ready c v → (current v ≤ deadline ≤ instant_max)%N → (0 < remaining ≤ 1000000)%N →
  sound (λ _, False) (idle_round c deadline remaining v).
Proof.
  intros Hd Hc Hdl Hn. unfold idle_round. apply sound_seq.
  { eapply sound_weaken; [|by apply pump_sound]. intros ? Hf. apply Hf. split; [done|]. unfold in_range. lia. }
  intros r v1 H1. pose proof (pump_ready _ _ _ _ _ Hd Hc H1) as Hc1. destruct (pump_runs _ _ _ _ _ Hd H1) as (_ & ? & _ & Hr & _).
  assert (driven v1) as Hd1 by (by apply Hr). pose proof (tn_current _ _ (rn_turned _ _ _ Hr) Hd) as Hcur.
  apply sound_seq; [apply busy_sound|]. intros b v2 H2. apply busy_ok in H2 as [-> ->]. destruct (negb _); [done|].
  apply sound_seq; [apply world_now_sound|]. intros t v2 H2. apply world_now_ok in H2 as [-> ->]; [|done]. unfold spent, saturating_sub.
  destruct (N.leb_spec deadline (current v1)) as [|Hlt]; [done|].
  destruct (N.eqb_spec (remaining - N.max (pr_polls r) 1) 0); [done|]. cbn [orb]. destruct (pr_idle r); [|done].
  apply sound_seq; [apply world_now_sound|]. intros t v2 H2. apply world_now_ok in H2 as [-> ->]; [|done].
  apply sound_seq; [|done]. eapply sound_weaken; [|by apply advance_sound]. intros ? Hf. apply Hf.
  split_and!; [done|unfold in_range; lia| |lia].
  assert (check_interval ≤ max_period)%N by done. lia.
Qed.
Lemma idle_round_ready c deadline remaining v x v' :
  driven v → ready c v → idle_round c deadline remaining v = (Ok x, v') → ready c v'.
Proof.
  intros Hd Hc H. unfold idle_round in H.
  apply bind_ok in H as (r & v1 & H1 & H). pose proof (pump_ready _ _ _ _ _ Hd Hc H1) as Hc1.
  destruct (pump_runs _ _ _ _ _ Hd H1) as (_ & ? & _ & Hr & _). assert (driven v1) as Hd1 by (by apply Hr).
  apply bind_ok in H as (b & v2 & H2 & H). apply busy_ok in H2 as [-> ->]. destruct (negb _); [by injection H as _ <-|].
  apply bind_ok in H as (t & v2 & H2 & H). apply world_now_ok in H2 as [-> ->]; [|done].
  destruct (_ || _); [by injection H as _ <-|]. destruct (pr_idle r); [|by injection H as _ <-].
  apply bind_ok in H as (t & v2 & H2 & H). apply world_now_ok in H2 as [-> ->]; [|done].
  apply bind_ok in H as (r2 & v2 & H2 & H). injection H as _ <-. by eapply advance_ready.
Qed.
Lemma idle_loop_sound c deadline fuel : ∀ remaining v,
  driven v → ready c v → (current v ≤ deadline ≤ instant_max)%N → (remaining ≤ 1000000)%N →
  sound (λ _, False) (idle_loop fuel c deadline remaining v).
Proof.
  assert (∀ v, sound (λ _, False) (idle v)) as Hidle.
  { intros v. apply sound_seq; [apply busy_sound|done]. }
  induction fuel as [|fuel IH]; intros remaining v Hd Hc Hdl Hn; simpl; (apply sound_seq; [apply busy_sound|]);
    intros b v1 Hb; apply busy_ok in Hb as [-> ->]; [by destruct (_ && _)|].
  destruct (is_busy v); [|apply Hidle]. destruct (N.ltb_spec 0 remaining); [|apply Hidle]. cbn [andb].
  apply sound_seq; [by apply idle_round_sound|]. intros x v1 H1. pose proof (idle_round_ready _ _ _ _ _ _ Hd Hc H1).
  destruct (idle_round_runs _ _ _ _ _ _ Hd (proj1 Hdl) H1) as [[Hd1 _ Ht1 _] Hx]. destruct x as [rest|answer]; [|done].
  apply IH; [done..|lia|lia].
Qed.

(** [wait_virtual_idle] that returns: the answer is the truth, the clock has not passed the
    deadline, and nothing was consumed but turns of the scheduler. *)
Lemma wait_runs c timeout v b v' : driven v → wait_virtual_idle c timeout v = (Ok b, v') →
  timely (current v + timeout) v v' ∧ b = negb (is_busy v') ∧ (b = false → gave_up (current v + timeout) wait_polls v v').
Proof.
  intros Hd H. unfold wait_virtual_idle in H.
  apply bind_ok in H as (? & v1 & H1 & H). apply virtual_state_ok in H1 as (-> & _).
  apply bind_ok in H as (deadline & v1 & H1 & H). unfold deadline_after in H1.
  apply bind_ok in H1 as (t & v2 & H2 & H1). apply world_now_ok in H2 as [-> ->]; [|done].
  unfold checked_add in H1. case_decide; [|done]. injection H1 as <- <-.
  eapply idle_loop_runs; [done| |done]. lia.
Qed.
(** It returns: a prompt scheduler that turns often enough brings it to its answer. *)
Lemma wait_returns_prompt c timeout v : driven v → prompt (vr_turns v) → (7 * wait_polls ≤ events (vr_turns v))%N →
  (wait_virtual_idle c timeout v).1 ≠ Err Waiting.
Proof.
  intros Hd Hp He. unfold wait_virtual_idle, bind at 1. pose proof (virtual_state_calm c v).
  destruct (virtual_state c v) as [[u|[]|] v1] eqn:H1; try done. apply virtual_state_ok in H1 as (-> & _).
  unfold bind at 1, deadline_after, bind at 1. rewrite world_now_total by done. unfold checked_add.
  case_decide; [|done]. cbn [ok_or ret].
  pose proof (idle_loop_prompt c (current v + timeout) (N.to_nat wait_polls) wait_polls v Hd ltac:(lia) ltac:(lia) Hp He) as Hl.
  unfold ret. by destruct (idle_loop _ _ _ _ _) as [[b|[]|] v1].
Qed.

(** ** Closing *)
Lemma disposed_runs turns : ∀ v, driven v → driven (disposed turns v) ∧ current (disposed turns v) = current v ∧
  setup_of (disposed turns v) = setup_of v.
Proof.
  induction turns as [|t turns IH]; intros v Hd; [split_and!; [|done..]; by destruct Hd|].
  destruct t as [i o|i n|d|]; try (split_and!; [|done..]; by destruct Hd).
  simpl. destruct (turn_runs (Cancel i n) v) as (Ht & _). destruct (IH (run_turn (Cancel i n) v)) as (? & Hc & Hs); [by apply Ht|].
  split_and!; [done|etrans; [exact Hc|exact (tn_current _ _ Ht Hd)]|etrans; [exact Hs|exact (tn_setup _ _ Ht)]].
Qed.
Lemma close_runs c timeout v r v' : driven v → close_virtual c timeout v = (Ok r, v') →
  driven v' ∧ vr_opened v' = false ∧ (current v ≤ current v' ≤ current v + timeout)%N ∧
  (vr_timed_out v = true → vr_timed_out v' = true) ∧ (vr_opened v = false → vr_timed_out v' = vr_timed_out v) ∧
  (vr_timed_out v' = true → sp_timed_out r = true).
Proof.
  intros Hd H. unfold close_virtual in H.
  apply bind_ok in H as (? & v1 & H1 & H). apply virtual_state_ok in H1 as (-> & _).
  apply bind_ok in H as (deadline & v1 & H1 & H). unfold deadline_after in H1.
  apply bind_ok in H1 as (t & v2 & H2 & H1). apply world_now_ok in H2 as [-> ->]; [|done].
  unfold checked_add in H1. case_decide; [|done]. injection H1 as _ <-.
  apply bind_ok in H as (initial & v1 & H1 & H). destruct (world_call_ran _ _ _ _ clocked_close H1) as (Hr1 & _ & _). clear H1.
  apply bind_ok in H as (? & v2 & [= _ <-] & H). apply bind_ok in H as (? & ? & [= <- <-] & H).
  set (v2 := on_state _ v1) in H.
  assert (driven v2 ∧ current v2 = current v ∧ setup_of v2 = setup_of v) as (Hd2 & Hc2 & Hs2).
  { assert (driven v1) as [? ? ?] by (by apply Hr1). split_and!; [done|exact (tn_current _ _ (rn_turned _ _ _ Hr1) Hd)|].
    exact (tn_setup _ _ (rn_turned _ _ _ Hr1)). }
  clearbody v2. unfold or_timed_out in H. unfold setup_of in Hs2. simplify_eq.
  destruct (vr_opened v2) eqn:Ho; simpl in H.
  - apply bind_ok in H as (b & v3 & Hw & H). destruct (wait_runs _ _ _ _ _ Hd2 Hw) as [[Hd3 Hs3 Hc3 _] [Hb _]].
    unfold setup_of in Hs3. simplify_eq.
    apply bind_ok in H as (? & v4 & [= _ <-] & H). apply bind_ok in H as (? & v5 & Hdrop & H).
    unfold drop_runtime in Hdrop. injection Hdrop as _ <-. set (v4 := _ <| vr_opened := false |>) in H.
    destruct (disposed_runs (vr_turns v4) v4) as (Hd5 & Hc5 & Hs5); [by destruct Hd3|]. simpl in H.
    change (vr_turns _) with (vr_turns v4) in H.
    apply bind_ok in H as (report & v6 & Hread & H). apply world_read_ok in Hread as [-> ->].
    apply bind_ok in H as (? & ? & [= <- <-] & H). injection H as <- <-. unfold setup_of in Hs5. simplify_eq. simpl in *.
    assert (current v4 = current v3) as Hc4 by done.
    split_and!; [done|done|rewrite Hc5, Hc4; lia..| |congruence|]; intros Hto.
    + by rewrite H11, H8, H4, Hto.
    + by rewrite Hto, orb_true_r.
  - injection H as <- <-. split_and!; [done|done|lia|lia|congruence|congruence|]. simpl. intros ->. by rewrite orb_true_r.
Qed.
(** A closed runtime is not driven again. *)
Lemma closed_pump c n v : vr_opened v = false → ∃ message, pump_virtual c n v = (Err (Fails message), v).
Proof.
  intros Ho. unfold pump_virtual. destruct (bad_polls n); [by eexists|]. unfold bind at 1. unfold virtual_state, bind, get.
  destruct (vr_owner v) as [owner|]; [|by eexists]. destruct (negb _); [by eexists|]. destruct (cl_inside c); [by eexists|].
  unfold ret, runtime_open, bind, get. rewrite Ho. by eexists.
Qed.

Lemma wait_sound c timeout v : driven v → ready c v → (current v + timeout ≤ instant_max)%N →
  sound (λ _, False) (wait_virtual_idle c timeout v).
Proof.
  intros Hd Hc Hmax. unfold wait_virtual_idle. apply sound_seq.
  { eapply sound_weaken; [|apply sound_virtual_state]. intros ? Hf. by apply Hf. }
  intros ? v1 H1. apply virtual_state_ok in H1 as (-> & _). unfold bind, deadline_after, bind. rewrite world_now_total by done.
  unfold checked_add. rewrite decide_True by done. apply idle_loop_sound; [done..|lia|done].
Qed.

(** ** What the driver is promised *)

(** C39. A wait for idleness returns: on the owner's thread, with the clocks together and
    the runtime open, a prompt scheduler that turns often enough brings it to its answer,
    without an error, and a panic is that of a poisoned World.  The answer is whether a
    task or a publication is still pending when it returns.  Virtual time has moved on by
    at most the timeout, and the answer that something is pending is given only at the
    deadline, or after as many turns of the scheduler as the budget has polls. *)
Theorem wait_exact c timeout v :
  driven v → ready c v → (current v + timeout ≤ instant_max)%N →
  prompt (vr_turns v) → (7 * wait_polls ≤ events (vr_turns v))%N →
  match wait_virtual_idle c timeout v with
  | (Ok answer, v') =>
      answer = negb (is_busy v') ∧ (current v ≤ current v' ≤ current v + timeout)%N ∧
      driven v' ∧ setup_of v' = setup_of v ∧
      ∃ used, vr_turns v = used ++ vr_turns v' ∧
        (answer = false → current v' = (current v + timeout)%N ∨ (wait_polls ≤ N.of_nat (length used))%N)
  | (Err _, _) => False
  | (Panic, v') => poisoned v' = true
  end.
Proof.
  intros Hd Hc Hmax Hp He. pose proof (wait_returns_prompt c timeout v Hd Hp He) as Hr.
  pose proof (wait_sound c timeout v Hd Hc Hmax) as Hs.
  destruct (wait_virtual_idle c timeout v) as [[answer|[message|]|] v'] eqn:H; [|done..].
  destruct (wait_runs _ _ _ _ _ Hd H) as ([Hd' Hsetup Ht [used Hu]] & Hb & Hg). split_and!; [done|lia|lia|done|done|].
  exists used. split; [done|]. intros Hf. destruct (Hg Hf) as [|Hl]; [left; lia|right]. rewrite (left_used _ _ _ Hu) in Hl. lia.
Qed.



(** A park and a look, over and over. *)
Definition parking (n : nat) : list turn := mjoin (replicate n [Park 0; Driver]).
Lemma parking_prompt n : prompt (parking n).
Proof. induction n as [|n IH]; [constructor|]. by apply (prompt_turn (Park 0)). Qed.
Lemma parking_events n : events (parking n) = N.of_nat n.
Proof.
  induction n as [|n IH]; [done|]. change (events (parking (S n))) with (1 + (0 + events (parking n)))%N. rewrite IH. lia.
Qed.
Lemma parking_still n : Forall (λ t, moved t = 0%N) (parking n).
Proof. induction n as [|n IH]; [constructor|]. by repeat constructor. Qed.
Lemma wait_exact_witness :
  match demo (parking (N.to_nat 700000)) with
  | Ok v =>
      is_ok (wait_virtual_idle demo_caller 5000 v) = true ∧
      match wait_virtual_idle demo_caller 5000 v with
      | (Ok answer, v') =>
          answer = negb (is_busy v') ∧ (current v ≤ current v' ≤ current v + 5000)%N ∧
          driven v' ∧ setup_of v' = setup_of v ∧
          ∃ used, vr_turns v = used ++ vr_turns v' ∧
            (answer = false → current v' = (current v + 5000)%N ∨ (wait_polls ≤ N.of_nat (length used))%N)
      | (Err _, _) => False
      | (Panic, v') => poisoned v' = true
      end
  | _ => False
  end.
Proof.
  assert (∀ turns, match demo turns with Ok v => is_ok (wait_virtual_idle demo_caller 5000 v) | _ => false end = true) as Hdemo by (intros turns; vm_compute; reflexivity).
  set (n := N.to_nat 700000). assert (events (parking n) = 700000)%N as He by (rewrite parking_events; apply N2Nat.id).
  pose proof (parking_prompt n) as Hp. pose proof (parking_still n) as Hstill. specialize (Hdemo (parking n)).
  generalize dependent (parking n). clear n. intros turns Hdemo He Hp Hstill.
  destruct (demo turns) as [v|e|] eqn:Hv; [|discriminate Hdemo|discriminate Hdemo].
  destruct (new_driven _ _ _ _ _ _ _ _ Hv) as (Hd & Hc & Hk & Ht & Hs). injection Hs as Hopened _ _ Howner.
  split; [exact Hdemo|].
  apply (wait_exact demo_caller 5000 v Hd); [|rewrite Hc; unfold instant_max; lia|rewrite Ht; exact Hp|].
  - split; [exact Howner|reflexivity|exact Hopened|congruence|rewrite Ht; exact Hstill].
  - rewrite Ht, He. unfold wait_polls. lia.
Defined.
