(* ===== verification/PyObjects.v ===== *)
(** * The boundary with Python: values and errors

    [runtime-python] is written against PyO3: what a method is given is a Python object,
    what it returns becomes one, and an error becomes an exception.  The objects
    themselves are Python's: here they are a type with the queries the source makes
    of them ([PyApi]), and what is documented of these queries on the objects the source
    makes itself ([PyLaws]).  [object] is what the source makes; with its own queries it
    is an instance. *)
From S2P Require Import Prelude.
From S2P Require Import Collections.
From S2P Require Import Text.
From S2P Require Import Types.
From S2P Require Import NativeConfig.

(** ** What the source makes *)
#[local] Set Warnings "-register-all".
Inductive object :=
| ONone
| OBool (b : bool)
| OInt (z : Z)
| OStr (s : string)
| OBytes (l : list byte)
| OTuple (l : list object)
| OList (l : list object)
| ODict (l : list (string * object)).

(** ** Queries *)

(** [cast::<PyString>] gives a string: its [len], in code points, and its [to_str],
    unless it has none in UTF-8.  [extract_...] is [extract] at a type. *)
Class PyApi (V : Type) := {
  into_py : object → V;
  is_none : V → bool;
  is_bool : V → bool;
  exactly_int : V → bool;
  exactly_str : V → bool;
  exactly_bytes : V → bool;
  exactly_tuple : V → bool;
  cast_tuple : V → option (list V);
  cast_list : V → option (list V);
  cast_bytes : V → option (list byte);
  cast_str : V → option (N * option string);
  extract_i64 : V → option Z;
  extract_u64 : V → option N;
  extract_u32 : V → option N;
  extract_bool : V → option bool;
}.
Definition in_i64 (z : Z) : bool := (- 2 ^ 63 <=? z)%Z && (z <? 2 ^ 63)%Z.
Definition unsigned (bound : N) (z : Z) : option N :=
  if (0 <=? z)%Z && (z <=? Z.of_N bound)%Z then Some (Z.to_N z) else None.
(** Code points of a valid UTF-8 string. *)
Definition chars (s : string) : N := N.of_nat (length (filter (λ b, is_cont b = false) (bytes_of s))).
Class PyLaws (V : Type) `{!PyApi V} := {
  is_none_law o : is_none (into_py o) = match o with ONone => true | _ => false end;
  is_bool_law o : is_bool (into_py o) = match o with OBool _ => true | _ => false end;
  exactly_int_law o : exactly_int (into_py o) = match o with OInt _ => true | _ => false end;
  exactly_str_law o : exactly_str (into_py o) = match o with OStr _ => true | _ => false end;
  exactly_bytes_law o : exactly_bytes (into_py o) = match o with OBytes _ => true | _ => false end;
  exactly_tuple_law o : exactly_tuple (into_py o) = match o with OTuple _ => true | _ => false end;
  cast_tuple_law o : cast_tuple (into_py o) = match o with OTuple l => Some (into_py <$> l) | _ => None end;
  cast_list_law o : cast_list (into_py o) = match o with OList l => Some (into_py <$> l) | _ => None end;
  cast_bytes_law o : cast_bytes (into_py o) = match o with OBytes l => Some l | _ => None end;
  cast_str_law s : cast_str (into_py (OStr s)) = Some (chars s, Some s);
  extract_i64_law z : extract_i64 (into_py (OInt z)) = if in_i64 z then Some z else None;
  extract_u64_law z : extract_u64 (into_py (OInt z)) = unsigned u64_max z;
  extract_u32_law z : extract_u32 (into_py (OInt z)) = unsigned u32_max z;
  extract_bool_law b : extract_bool (into_py (OBool b)) = Some b;
  extract_i64_range v z : extract_i64 v = Some z → in_i64 z = true;
  extract_u64_range v n : extract_u64 v = Some n → (n ≤ u64_max)%N;
  extract_u32_range v n : extract_u32 v = Some n → (n ≤ u32_max)%N;
}.
(** Python's [bool] is an [int]. *)
Definition number (o : object) : option Z :=
  match o with OInt z => Some z | OBool b => Some (Z.b2z b) | _ => None end.
#[export] Instance object_api : PyApi object := {|
  into_py o := o;
  is_none o := match o with ONone => true | _ => false end;
  is_bool o := match o with OBool _ => true | _ => false end;
  exactly_int o := match o with OInt _ => true | _ => false end;
  exactly_str o := match o with OStr _ => true | _ => false end;
  exactly_bytes o := match o with OBytes _ => true | _ => false end;
  exactly_tuple o := match o with OTuple _ => true | _ => false end;
  cast_tuple o := match o with OTuple l => Some l | _ => None end;
  cast_list o := match o with OList l => Some l | _ => None end;
  cast_bytes o := match o with OBytes l => Some l | _ => None end;
  cast_str o := match o with OStr s => Some (chars s, Some s) | _ => None end;
  extract_i64 o := number o ≫= λ z, if in_i64 z then Some z else None;
  extract_u64 o := number o ≫= unsigned u64_max;
  extract_u32 o := number o ≫= unsigned u32_max;
  extract_bool o := match o with OBool b => Some b | _ => None end;
|}.
Lemma unsigned_bound bound z n : unsigned bound z = Some n → (n ≤ bound)%N.
Proof. unfold unsigned. destruct (_ && _) eqn:H; [|done]. intros [= <-]. lia. Qed.
Lemma unsigned_of_N bound n : (n ≤ bound)%N → unsigned bound (Z.of_N n) = Some n.
Proof. intros H. unfold unsigned. rewrite N2Z.id. destruct (_ && _) eqn:Hb; [done|lia]. Qed.
#[export] Instance object_laws : PyLaws object.
Proof.
  split; intros; simpl; rewrite ?list_fmap_id; try done; try (by destruct o; rewrite ?list_fmap_id).
  - simpl in *. destruct (number v); simplify_eq/=. by case_match; simplify_eq.
  - simpl in *. destruct (number v); simplify_eq/=. by eapply unsigned_bound.
  - simpl in *. destruct (number v); simplify_eq/=. by eapply unsigned_bound.
Qed.

(** ** Exceptions *)

(** [PyValueError], [PyRuntimeError], and what Python or PyO3 raises when a cast or a
    conversion fails. *)
Inductive PyErr := PyValueError (message : string) | PyRuntimeError (message : string) | PyConversion.
#[export] Instance PyErr_eq_dec : EqDecision PyErr.
Proof. solve_decision. Defined.
Definition runtime_error (e : error) : PyErr := PyRuntimeError (Native.error_name e).

(** ** Handles *)
Definition Handle : Type := N * N * N.
Definition actor (h : Handle) : ActorRef := MkActorRef h.1.1 h.1.2 h.2.
Definition handle (r : ActorRef) : Handle := (ar_world r, ar_slot r, ar_generation r).
Definition operation (h : Handle) : OperationId := MkOperationId h.1.1 h.1.2 h.2.
Definition operation_handle (id : OperationId) : Handle := (op_world id, op_slot id, op_generation id).
Definition PortHandle : Type := N * N * N * N.
Definition port (h : PortHandle) : PortRef := MkPortRef (actor h.1) h.2.
Definition port_handle (p : PortRef) : PortHandle := (handle (port_owner p), port_index p).
Lemma actor_handle r : actor (handle r) = r.
Proof. by destruct r. Qed.
Lemma handle_actor h : handle (actor h) = h.
Proof. by destruct h as [[]]. Qed.
Lemma operation_of_handle id : operation (operation_handle id) = id.
Proof. by destruct id. Qed.

(** What they become in Python. *)
Definition of_N (n : N) : object := OInt (Z.of_N n).
Definition of_option {A} (f : A → object) (o : option A) : object := from_option f ONone o.
Definition of_handle (h : Handle) : object := OTuple [of_N h.1.1; of_N h.1.2; of_N h.2].
Definition of_actor (r : ActorRef) : object := of_handle (handle r).
Definition of_operation (id : OperationId) : object := of_handle (operation_handle id).
Definition of_port (p : PortRef) : object :=
  let h := port_handle p in OTuple [of_N h.1.1.1; of_N h.1.1.2; of_N h.1.2; of_N h.2].

(** ** [PyResult] *)
Abbreviation PyResult A := (PyErr + A)%type.
Definition py_bind {A B} (m : PyResult A) (k : A → PyResult B) : PyResult B :=
  match m with inl e => inl e | inr a => k a end.
Notation "'let?' x ':=' m 'in' k" := (py_bind m (λ x, k))
  (at level 10, x pattern, m at level 100, k at level 200).
(** [if c { return Err(e) }] *)
Notation "'unless' c 'raise' e ';;;' k" := (if c then inl e else k)
  (at level 10, c at level 100, e at level 100, k at level 200, only parsing).
(** [cast()?], [extract()?] and [get_item(i)?]. *)
Definition convert {A} (o : option A) : PyResult A := match o with Some a => inr a | None => inl PyConversion end.
(** A value error. *)
Definition invalid (message : string) : PyErr := PyValueError message.
(** A [map] that stops at the first error. *)
Fixpoint py_map {A B} (f : A → PyResult B) (l : list A) : PyResult (list B) :=
  match l with
  | [] => inr []
  | x :: l => let? y := f x in let? rest := py_map f l in inr (y :: rest)
  end.
Lemma py_map_run {A B C} (f : A → PyResult B) (g : C → A) (h : C → B) l :
  (∀ x, x ∈ l → f (g x) = inr (h x)) → py_map f (g <$> l) = inr (h <$> l).
Proof.
  intros Hf. induction l as [|x l IH]; [done|]. cbn. rewrite (Hf x) by left. simpl.
  rewrite IH; [done|]. intros. apply Hf. by right.
Qed.
