(* ===== verification/PySchemas.v ===== *)
(** * Schemas from Python

    [runtime-python/src/schemas.rs]: a schema is described in Python by nested tuples;
    [Parser] turns them into a [Schema], counting nodes.  [describe] is the description
    of a type, as [schemas.py] writes it.  [schema_description_exact]: what is accepted
    is valid, within the widths of its integers, and every valid schema is read back
    from its description. *)
From S2P Require Import Prelude.
From S2P Require Import Collections.
From S2P Require Import Text.
From S2P Require Import Types.
From S2P Require Import Schema.
From S2P Require Import SchemaCodec.
From S2P Require Import PyObjects.

Inductive tag := GBool | GFloat | GString | GBytes | GOptional | GInt | GUInt | GEnum | GSequence | GRecord.
Definition tag_of (s : string) : option tag :=
  if bool_decide (s = "bool"%string) then Some GBool else
  if bool_decide (s = "float"%string) then Some GFloat else
  if bool_decide (s = "string"%string) then Some GString else
  if bool_decide (s = "bytes"%string) then Some GBytes else
  if bool_decide (s = "optional"%string) then Some GOptional else
  if bool_decide (s = "int"%string) then Some GInt else
  if bool_decide (s = "uint"%string) then Some GUInt else
  if bool_decide (s = "enum"%string) then Some GEnum else
  if bool_decide (s = "sequence"%string) then Some GSequence else
  if bool_decide (s = "record"%string) then Some GRecord else None.
Definition expected (t : tag) : nat :=
  match t with
  | GBool => 1
  | GFloat | GString | GBytes | GOptional => 2
  | GInt | GUInt | GEnum | GSequence => 3
  | GRecord => 4
  end.

Section parser.
Context {V : Type} `{!PyApi V}.
Abbreviation PM := (M N PyErr).

(** [cast()?] and [extract()?]; [extract::<&str>]. *)
Definition convert {S A} (o : option A) : M S PyErr A := ok_or PyConversion o.
Definition str_of (v : V) : option string := cast_str v ≫= snd.
Definition text (v : V) (limit : N) : PM string :=
  let! s := convert (str_of v) in
  reject_if ((str_len s =? 0)%N || (limit <? str_len s)%N) (invalid "schema name exceeds its UTF-8 byte limit") ;;;
  ret s.
Definition get_item (tuple : list V) (i : nat) : PM V := convert (tuple !! i).
(** The closure [number]. *)
Definition number (tuple : list V) (i : nat) : PM V :=
  let! item := get_item tuple i in
  reject_if (is_bool item) (invalid "schema bound must be an integer, not bool") ;;;
  ret item.
Definition extracted {A} (extract : V → option A) (m : PM V) : PM A := let! v := m in convert (extract v).
Fixpoint collect {A} (f : V → PM A) (l : list V) : PM (list A) :=
  match l with
  | [] => ret []
  | v :: l => let! a := f v in let! rest := collect f l in ret (a :: rest)
  end.
(** What [Parser::node] builds once the tag and the arity are known; [rec] is [node]. *)
Definition node_of (rec : V → N → PM FieldType) (tuple : list V) (depth : N) (t : tag) : PM FieldType :=
  match t with
  | GInt =>
      let! min := extracted extract_i64 (number tuple 1) in
      let! max := extracted extract_i64 (number tuple 2) in
      ret (TyInt min max)
  | GUInt =>
      let! min := extracted extract_u64 (number tuple 1) in
      let! max := extracted extract_u64 (number tuple 2) in
      ret (TyUInt min max)
  | GBool => ret TyBool
  | GFloat =>
      let! v := get_item tuple 1 in
      reject_if (negb (is_bool v)) (invalid "float policy requires bool") ;;;
      let! allow := convert (extract_bool v) in
      ret (TyFloat allow)
  | GString => let! max_bytes := extracted extract_u64 (number tuple 1) in ret (TyString max_bytes)
  | GBytes => let! max_bytes := extracted extract_u64 (number tuple 1) in ret (TyBytes max_bytes)
  | GEnum =>
      let! variants := extracted cast_tuple (get_item tuple 2) in
      reject_if (256 <? N.of_nat (length variants))%N (invalid "enum exceeds 256 symbols") ;;;
      let! v := get_item tuple 1 in
      let! name := text v 256 in
      let! variants := collect (λ v, text v 256) variants in
      ret (TyEnum name variants)
  | GOptional =>
      let! v := get_item tuple 1 in
      let! x := rec v (depth + 1)%N in
      ret (TyOptional x)
  | GSequence =>
      let! v := get_item tuple 1 in
      let! item := rec v (depth + 1)%N in
      let! max_len := extracted extract_u64 (number tuple 2) in
      ret (TySequence item max_len)
  | GRecord =>
      let! raw := extracted cast_tuple (get_item tuple 3) in
      reject_if (256 <? N.of_nat (length raw))%N (invalid "record exceeds 256 fields") ;;;
      let! fields := collect (λ v,
        let! field := convert (cast_tuple v) in
        reject_if (bool_decide (length field ≠ 2)) (invalid "field requires name and type") ;;;
        let! name := get_item field 0 in
        let! name := text name 128 in
        let! ty := get_item field 1 in
        let! ty := rec ty (depth + 1)%N in
        ret (MkField name ty)) raw in
      let! v := get_item tuple 1 in
      let! name := text v 256 in
      let! version := extracted extract_u32 (number tuple 2) in
      ret (TyRecord (MkSchema name version fields))
  end.
(** [Parser::node]; the state is [nodes]. *)
Fixpoint node (fuel : nat) (value : V) (depth : N) : PM FieldType :=
  match fuel with
  | O => panic
  | S fuel =>
      modify N.succ ;;;
      let! nodes := get in
      reject_if ((1024 <? nodes)%N || (16 <? depth)%N) (invalid "schema exceeds node or depth limit") ;;;
      let! tuple := convert (cast_tuple value) in
      reject_if (bool_decide (length tuple = 0)) (invalid "schema node requires a type tag") ;;;
      let! name := extracted str_of (get_item tuple 0) in
      let! tag := ok_or (invalid "unsupported native schema type") (tag_of name) in
      reject_if (bool_decide (length tuple ≠ expected tag)) (invalid "schema descriptor has wrong arity") ;;;
      node_of (node fuel) tuple depth tag
  end.
(** Deeper than this, [node] has stopped. *)
Definition node_fuel : nat := 18.
Definition parse (value : V) : outcome PyErr Schema :=
  match (node node_fuel value 0 0%N).1 with
  | Ok (TyRecord schema) =>
      match SchemaCheck.validate schema with
      | Ok _ => Ok schema
      | Err e => Err (invalid e)
      | Panic => Panic
      end
  | Ok _ => Err (invalid "event schema must be a record")
  | Err e => Err e
  | Panic => Panic
  end.
End parser.

(** ** Specification *)

(** The description of a type, and the integers that have one. *)
Fixpoint describe (t : FieldType) : object :=
  match t with
  | TyInt min max => OTuple [OStr "int"; OInt min; OInt max]
  | TyUInt min max => OTuple [OStr "uint"; of_N min; of_N max]
  | TyFloat allow => OTuple [OStr "float"; OBool allow]
  | TyBool => OTuple [OStr "bool"]
  | TyString max_bytes => OTuple [OStr "string"; of_N max_bytes]
  | TyBytes max_bytes => OTuple [OStr "bytes"; of_N max_bytes]
  | TyEnum name variants => OTuple [OStr "enum"; OStr name; OTuple (OStr <$> variants)]
  | TyOptional x => OTuple [OStr "optional"; describe x]
  | TySequence item max_len => OTuple [OStr "sequence"; describe item; of_N max_len]
  | TyRecord (MkSchema name version fields) =>
      OTuple [OStr "record"; OStr name; of_N version;
        OTuple (map (λ f, let 'MkField n t := f in OTuple [OStr n; describe t]) fields)]
  end.
Definition describe_schema (s : Schema) : object := describe (TyRecord s).
Fixpoint widths (t : FieldType) : bool :=
  match t with
  | TyInt min max => in_i64 min && in_i64 max
  | TyUInt min max => (min <=? u64_max)%N && (max <=? u64_max)%N
  | TyString n | TyBytes n => (n <=? usize_max)%N
  | TyOptional x => widths x
  | TySequence item max_len => widths item && (max_len <=? usize_max)%N
  | TyRecord (MkSchema _ version fields) =>
      (version <=? u32_max)%N && forallb (λ f, let 'MkField _ t := f in widths t) fields
  | _ => true
  end.

(** ** Lemmas *)
(** What a conversion gives when it succeeds; it never panics. *)
Definition yields {S E A} (Q : A → Prop) (m : M S E A) : Prop :=
  ∀ s, match (m s).1 with Ok a => Q a | Err _ => True | Panic => False end.
Lemma yields_bind {S E A B} (P : A → Prop) Q (m : M S E A) (k : A → M S E B) :
  yields P m → (∀ a, P a → yields Q (k a)) → yields Q (bind m k).
Proof.
  intros Hm Hk s. specialize (Hm s). unfold bind. destruct (m s) as [[a|e|] s']; simpl in *; [by apply Hk|done..].
Qed.
Lemma yields_any {S E A B} Q (m : M S E A) (k : A → M S E B) :
  yields (λ _, True) m → (∀ a, yields Q (k a)) → yields Q (bind m k).
Proof. intros Hm Hk. eapply yields_bind; eauto. Qed.
Lemma yields_ret {S E A} (Q : A → Prop) a : Q a → yields Q (ret (S:=S) (E:=E) a).
Proof. by intros H s. Qed.
Lemma yields_ok_or {S E A} (Q : A → Prop) (e : E) o : (∀ a, o = Some a → Q a) → yields Q (ok_or (S:=S) e o).
Proof. intros H s. destruct o; simpl; auto. Qed.
Lemma yields_reject {S E A} Q c (e : E) (k : M S E A) : (c = false → yields Q k) → yields Q (reject_if c e ;;; k).
Proof. intros Hk s. destruct c; [done|]. by apply Hk. Qed.
Lemma yields_if {S E} c (e : E) : yields (λ _, True) (reject_if (S:=S) c e).
Proof. intros s. by destruct c. Qed.
Lemma yields_map_err {S E A} f (Q : A → Prop) (m : M S E A) : yields Q m → yields Q (map_err f m).
Proof. intros Hm s. specialize (Hm s). unfold map_err. by destruct (m s) as [[]]. Qed.
(** Validation answers. *)
Lemma validate_yields t : ∀ d, yields (λ _, True) (SchemaCheck.valid_ty t d).
Proof.
  induction t using FieldType_nested_ind; intros d; simpl.
  all: try (destruct s as [name version fields]; simpl).
  all: repeat first [apply yields_reject; intros _ | apply yields_any; [by intros ?|intros ?]].
  all: try first [apply yields_if | by apply yields_ret | done].
  simpl in H. generalize ([] : list string) as names. induction fields as [|[n t] fields IH]; intros names; simpl; [by apply yields_ret|].
  apply Forall_cons in H as [Ht Hfields]. do 2 (apply yields_reject; intros _).
  apply yields_any; [by apply yields_map_err, Ht|]. intros _. by apply IH.
Qed.
Section laws.
Context {V : Type} `{!PyApi V, !PyLaws V}.
Implicit Types (n d limit : N).
Lemma text_describe s limit n :
  (str_len s =? 0)%N || (limit <? str_len s)%N = false → text (into_py (OStr s)) limit n = (Ok s, n).
Proof. intros H. unfold text, convert, str_of, ok_or, bind. rewrite cast_str_law. simpl. by rewrite H. Qed.
Lemma collect_run {A B} (f : V → M N PyErr A) (g : B → V) (h : B → A) l n :
  (∀ x n, x ∈ l → f (g x) n = (Ok (h x), n)) → collect f (g <$> l) n = (Ok (h <$> l), n).
Proof.
  intros Hf. induction l as [|x l IH]; [done|]. cbn. rewrite (bind_run _ _ _ _ _ (Hf x n ltac:(left))).
  rewrite (bind_run _ _ _ _ _ (IH ltac:(intros; apply Hf; by right))). done.
Qed.
Lemma collect_text l limit n :
  existsb (λ v, (str_len v =? 0)%N || (limit <? str_len v)%N) l = false →
  collect (λ v, text v limit) (into_py (V:=V) <$> (OStr <$> l)) n = (Ok l, n).
Proof.
  intros Hl. rewrite <- list_fmap_compose, (collect_run _ (into_py ∘ OStr) id); [by rewrite list_fmap_id|].
  intros s k Hs. apply text_describe. apply not_true_iff_false. intros Hb. apply not_true_iff_false in Hl. apply Hl.
  apply existsb_exists. exists s. split; [by apply list_elem_of_In|done].
Qed.
Lemma item_run tuple i v n : tuple !! i = Some v → get_item (V:=V) tuple i n = (Ok v, n).
Proof. unfold get_item, convert, ok_or. by intros ->. Qed.
Lemma number_run (l : list object) i z n :
  l !! i = Some (OInt z) → number (into_py <$> l) i n = (Ok (into_py (OInt z) : V), n).
Proof.
  intros Hi. unfold number. rewrite (bind_run _ _ _ (into_py (OInt z)) n) by (apply item_run; by rewrite list_lookup_fmap, Hi).
  by rewrite is_bool_law.
Qed.
Lemma node_head fuel items name t d n :
  (1024 <? N.succ n)%N || (16 <? d)%N = false → tag_of name = Some t → S (length items) = expected t →
  node (S fuel) (into_py (OTuple (OStr name :: items))) d n =
  node_of (node fuel) (into_py (V:=V) <$> OStr name :: items) d t (N.succ n).
Proof.
  intros Hl Ht Hlen. cbn [node]. unfold bind at 1, modify. unfold bind at 1, get. rewrite (bind_run _ _ _ _ _ (reject_if_run _ _ _ Hl)).
  unfold convert at 1, ok_or. rewrite cast_tuple_law. unfold bind at 1, ret at 1. cbn [fmap list_fmap length].
  rewrite bool_decide_false by done. unfold bind at 1, reject_if, ret at 1.
  unfold extracted, get_item, convert, ok_or, str_of. cbn [lookup list_lookup]. unfold bind at 1. unfold bind at 1, ret at 1. cbv beta.
  rewrite cast_str_law. cbn. rewrite Ht. unfold bind at 1, ret at 1. unfold bind at 1.
  rewrite length_fmap, Hlen, bool_decide_false by (by intros []). done.
Qed.
Lemma extract_run {A} (extract : V → option A) (m : M N PyErr V) v a n n' :
  m n = (Ok v, n') → extract v = Some a → extracted extract m n = (Ok a, n').
Proof. intros Hm Ha. unfold extracted. rewrite (bind_run _ _ _ _ _ Hm). unfold convert, ok_or. by rewrite Ha. Qed.
Lemma bounds_run {A B} (extract : V → option A) (l : list object) i z a (k : A → M N PyErr B) n :
  l !! i = Some (OInt z) → extract (into_py (OInt z)) = Some a →
  (let! a := extracted extract (number (into_py <$> l) i) in k a) n = k a n.
Proof. intros Hi Ha. apply bind_run. eapply extract_run; [by apply number_run|done]. Qed.
Lemma describe_fields fuel fields names d n u n' :
  Forall (λ f : Field, ∀ fuel d n n', (17 < N.of_nat fuel + d)%N → widths (f_ty f) = true →
    SchemaCheck.valid_ty (f_ty f) d n = (Ok tt, n') → node fuel (into_py (V:=V) (describe (f_ty f))) d n = (Ok (f_ty f), n')) fields →
  (17 < N.of_nat fuel + (d + 1))%N → forallb (λ f : Field, let 'MkField _ t := f in widths t) fields = true →
  SchemaCheck.valid_fields SchemaCheck.valid_ty fields names d n = (Ok u, n') →
  collect (λ v,
    let! field := convert (cast_tuple v) in
    reject_if (bool_decide (length field ≠ 2)) (invalid "field requires name and type") ;;;
    let! name := get_item field 0 in
    let! name := text name 128 in
    let! ty := get_item field 1 in
    let! ty := node fuel ty (d + 1)%N in
    ret (MkField name ty)) (into_py (V:=V) <$> map (λ f : Field, let 'MkField n t := f in OTuple [OStr n; describe t]) fields) n
  = (Ok fields, n').
Proof.
  intros Hall Hfuel. revert names n. induction fields as [|[name ty] fields IH]; intros names n Hw Hrun.
  { simpl in *. unfold ret in *. by simplify_eq. }
  apply Forall_cons in Hall as [Hty Hall]. simpl in Hw. apply andb_true_iff in Hw as [Hw Hws].
  simpl in Hrun. repeat inv_ok Hrun. apply map_err_ok in Hrun0. destruct a.
  cbn [map fmap list_fmap collect]. unfold bind at 1. unfold bind at 1. unfold convert at 1, ok_or. rewrite cast_tuple_law. unfold ret at 1.
  cbn [fmap list_fmap length]. rewrite bool_decide_false by (by intros []). unfold bind at 1, reject_if, ret at 1.
  erewrite (bind_run (get_item _ 0)) by (by apply item_run). rewrite (bind_run _ _ _ _ _ (text_describe name 128 _ Hc)).
  erewrite (bind_run (get_item _ 1)) by (by apply item_run). simpl f_ty in Hty.
  rewrite (bind_run _ _ _ _ _ (Hty fuel _ _ _ Hfuel Hw Hrun0)). unfold ret at 1. cbv beta iota.
  rewrite (bind_run _ _ _ _ _ (IH Hall _ _ Hws Hrun)). done.
Qed.
Lemma tuple_run (l items : list object) i n :
  l !! i = Some (OTuple items) → extracted cast_tuple (get_item (into_py (V:=V) <$> l) i) n = (Ok (into_py <$> items), n).
Proof. intros Hi. eapply extract_run; [apply item_run; by rewrite list_lookup_fmap, Hi|by rewrite cast_tuple_law]. Qed.
Lemma u64_run n : (n ≤ u64_max)%N → extract_u64 (into_py (V:=V) (OInt (Z.of_N n))) = Some n.
Proof. intros H. by rewrite extract_u64_law, unsigned_of_N. Qed.
(** Descriptions are read back. *)
Lemma node_describe t : ∀ fuel d n n', (17 < N.of_nat fuel + d)%N → widths t = true →
  SchemaCheck.valid_ty t d n = (Ok tt, n') → node fuel (into_py (V:=V) (describe t)) d n = (Ok t, n').
Proof.
  induction t using FieldType_nested_ind; intros fuel d k k' Hfuel Hw Hrun.
  all: try (destruct s as [name version fields]); simpl in Hrun; repeat inv_ok Hrun.
  all: destruct fuel as [|fuel]; [exfalso; unfold max_depth in *; lia|].
  all: cbn [describe]; erewrite node_head; [|unfold max_schema_nodes, max_depth in *; lia|reflexivity|reflexivity].
  all: cbn [node_of].
  all: try (subst k' || (injection Hrun as <-)); cbn [widths] in Hw; try (rewrite andb_true_iff, ?N.leb_le in Hw; destruct Hw as [Hmin Hmax]).
  - erewrite !bounds_run; [|reflexivity|by rewrite extract_i64_law, Hmax|reflexivity|by rewrite extract_i64_law, Hmin]; done.
  - erewrite !bounds_run; [|reflexivity|by apply u64_run|reflexivity|by apply u64_run]; done.
  - erewrite (bind_run (get_item _ 1)) by (by apply item_run). rewrite is_bool_law. unfold bind, convert, ok_or.
    simpl. by rewrite extract_bool_law.
  - done.
  - apply N.leb_le in Hw. erewrite bounds_run; [|reflexivity|by apply u64_run]; done.
  - apply N.leb_le in Hw. erewrite bounds_run; [|reflexivity|by apply u64_run]; done.
  - rewrite !orb_false_iff in Hc1. destruct Hc1 as (((((Hn & Hn') & _) & Hlen) & Hvs) & _).
    erewrite (bind_run (extracted _ _)) by (by apply tuple_run). rewrite !length_fmap, Hlen. unfold bind at 1, reject_if, ret at 1.
    erewrite (bind_run (get_item _ 1)) by (by apply item_run).
    erewrite (bind_run (text _ _)) by (apply text_describe; by rewrite Hn, Hn'). by erewrite (bind_run (collect _ _)) by (by apply collect_text).
  - erewrite (bind_run (get_item _ 1)) by (by apply item_run).
    erewrite (bind_run (node _ _ _)) by (apply IHt; [lia|exact Hw|exact Hrun]). done.
  - erewrite (bind_run (get_item _ 1)) by (by apply item_run).
    erewrite (bind_run (node _ _ _)) by (apply IHt; [lia|exact Hmin|exact Hrun]).
    erewrite bounds_run; [|reflexivity|by apply u64_run]; done.
  - rewrite !orb_false_iff in Hc1. destruct Hc1 as (((Hn & Hn') & _) & Hlen).
    erewrite (bind_run (extracted _ _)) by (by apply tuple_run). rewrite length_fmap, length_map, Hlen. unfold bind at 1, reject_if, ret at 1.
    erewrite (bind_run (collect _ _)) by (eapply describe_fields; [exact H|lia|exact Hmax|exact Hrun]).
    erewrite (bind_run (get_item _ 1)) by (by apply item_run).
    erewrite (bind_run (text _ _)) by (apply text_describe; by rewrite Hn, Hn').
    erewrite bounds_run; [|reflexivity|by rewrite extract_u32_law, unsigned_of_N]; done.
Qed.

Lemma yields_bump : yields (E:=PyErr) (λ _, True) (modify (S:=N) N.succ).
Proof. by intros s. Qed.
Lemma yields_get : yields (E:=PyErr) (λ _, True) (get (S:=N)).
Proof. by intros s. Qed.
Lemma yields_item tuple i : yields (λ _, True) (get_item (V:=V) tuple i).
Proof. by apply yields_ok_or. Qed.
Lemma yields_text (v : V) limit : yields (λ _, True) (text v limit).
Proof.
  unfold text. apply yields_any; [by apply yields_ok_or|]. intros s. apply yields_reject. intros _. by apply yields_ret.
Qed.
Lemma yields_number tuple i : yields (λ _, True) (number (V:=V) tuple i).
Proof.
  unfold number. apply yields_any; [apply yields_item|]. intros v. apply yields_reject. intros _. by apply yields_ret.
Qed.
Lemma yields_extracted {A} (extract : V → option A) (Q : A → Prop) m :
  yields (λ _, True) m → (∀ v a, extract v = Some a → Q a) → yields Q (extracted extract m).
Proof. intros Hm HQ. eapply yields_any; [done|]. intros v. apply yields_ok_or. intros a. apply HQ. Qed.
Lemma yields_collect {A} (f : V → M N PyErr A) (Q : A → Prop) l :
  (∀ v, yields Q (f v)) → yields (Forall Q) (collect f l).
Proof.
  intros Hf. induction l as [|v l IH]; [apply yields_ret; constructor|]. simpl.
  eapply yields_bind; [apply Hf|]. intros a Ha. eapply yields_bind; [done|]. intros rest Hrest. apply yields_ret. by constructor.
Qed.
Ltac yields := repeat first
  [ apply yields_reject; intros ?
  | apply yields_any; [first [apply yields_item|apply yields_text|apply yields_bump|apply yields_get
      |by apply yields_ok_or|by apply yields_extracted; [apply yields_item|]]|intros ?]
  | eapply yields_bind; [apply yields_extracted;
      [apply yields_number|first [exact extract_i64_range|exact extract_u64_range|exact extract_u32_range]]|intros ? ?] ].
Lemma node_yields fuel : ∀ v d, (17 < N.of_nat fuel + d)%N → (d ≤ 17)%N → yields (λ t, widths t = true) (node (V:=V) fuel v d).
Proof.
  induction fuel as [|fuel IH]; intros v d Hfuel Hd; cbn [node]; [lia|].
  yields. apply orb_false_iff in H as [_ H]. assert (∀ v, yields (λ t, widths t = true) (node (V:=V) fuel v (d + 1))) as Hrec.
  { intros x. apply IH; lia. }
  clear IH. destruct a3; cbn [node_of]; yields.
  all: try (apply yields_ret; cbn [widths]; rewrite ?andb_true_iff, ?N.leb_le; done).
  - eapply yields_bind; [apply Hrec|]. intros t Ht. by apply yields_ret.
  - apply yields_any; [|intros; by apply yields_ret]. intros n.
    pose proof (yields_collect (λ v, text v 256) (λ _, True) a3 (λ v, yields_text v 256) n) as Hn. by case_match.
  - eapply yields_bind; [apply Hrec|]. intros t Ht. yields. apply yields_ret. cbn [widths]. apply andb_true_iff. split; [done|by apply N.leb_le].
  - eapply yields_bind; [apply (yields_collect _ (λ f, widths (f_ty f) = true))|].
    + intros x. yields. eapply yields_bind; [apply Hrec|]. intros t Ht. by apply yields_ret.
    + intros fields Hall. yields. apply yields_ret. cbn [widths]. apply andb_true_iff. split; [by apply N.leb_le|].
      apply forallb_forall. intros [n t] Hin%list_elem_of_In. rewrite Forall_forall in Hall. by apply (Hall (MkField n t)).
Qed.
End laws.

(** C19. Schemas come from Python unharmed.  [parse] always answers; a schema it accepts
    is valid and its integers have the widths of the source; and the description of
    a schema is accepted exactly when the schema is valid, and gives it back. *)
Theorem schema_description_exact {V} `{!PyApi V, !PyLaws V} :
  (∀ v : V, parse v ≠ Panic ∧
    ∀ s, parse v = Ok s → SchemaCheck.validate s = Ok tt ∧ widths (TyRecord s) = true) ∧
  ∀ s, widths (TyRecord s) = true →
    parse (into_py (V:=V) (describe_schema s)) = Ok s ↔ SchemaCheck.validate s = Ok tt.
Proof.
  assert (∀ v : V, parse v ≠ Panic ∧
    ∀ s, parse v = Ok s → SchemaCheck.validate s = Ok tt ∧ widths (TyRecord s) = true) as Hv.
  { intros v. pose proof (node_yields (V:=V) node_fuel v 0 ltac:(done) ltac:(done) 0%N) as Hn. unfold parse.
    destruct (node _ _ _ _).1 as [t|e|]; [|by split|done].
    destruct t; try by split. destruct (SchemaCheck.validate s) as [[]|e|] eqn:Hs; [|by split|].
    - split; [done|]. by intros s' [= <-].
    - pose proof (validate_yields (TyRecord s) 0 0%N) as Hp. simpl in Hp. unfold SchemaCheck.validate in Hs. by rewrite Hs in Hp. }
  split; [done|]. intros s Hw. split; [apply Hv|].
  intros Hs. pose proof Hs as Hrun. unfold SchemaCheck.validate in Hrun.
  destruct (SchemaCheck.validate_schema _ s 0 0%N) as [o n] eqn:Hval. simpl in Hrun. subst o. unfold parse.
  unfold describe_schema. rewrite (node_describe (TyRecord s) node_fuel 0 0 n); [|done..]. simpl. by rewrite Hs.
Qed.
Definition sample_schema : Schema := MkSchema "order" 2 [
  MkField "price" (TyInt 0 1000); MkField "note" (TyOptional (TyString 64));
  MkField "tags" (TySequence (TyEnum "tag" ["a"; "b"]%string) 8)].
Lemma schema_description_exact_witness :
  SchemaCheck.validate sample_schema = Ok tt ∧ parse (into_py (V:=object) (describe_schema sample_schema)) = Ok sample_schema ∧
  parse (V:=object) (OTuple [OStr "int"; OBool true; OInt 3]) =
    Err (invalid "schema bound must be an integer, not bool").
Proof.
  assert (SchemaCheck.validate sample_schema = Ok tt) as Hs by (vm_compute; reflexivity). split; [exact Hs|].
  split; [|vm_compute; reflexivity].
  refine (proj2 (proj2 (schema_description_exact (V:=object)) sample_schema _) Hs). vm_compute. reflexivity.
Defined.
