(* ===== verification/PyEnvelopes.v ===== *)
(** * Message metadata from Python

    [runtime-python/src/envelopes.rs]: the options of a message are a tuple of five
    entries, [None] where nothing is said, laid over the options inherited from the
    delivery being handled.  [envelope_dict] is what Python sees of an envelope.
    [parse_options_exact]: what is accepted, and what each entry changes; in particular
    a deadline can only come nearer. *)
From S2P Require Import Prelude.
From S2P Require Import Collections.
From S2P Require Import Text.
From S2P Require Import Types.
From S2P Require Import Metadata.
From S2P Require Import Diagnostics.
From S2P Require Import WorldState.
From S2P Require Import Admission.
From S2P Require Import Views.
From S2P Require Import NativeConfig.
From S2P Require Import PyObjects.
From Stdlib Require Import Btauto.

Definition max_timeout_ms : N := 86400000.
Definition max_baggage : N := 8.
Definition max_key_bytes : N := 64.
Definition max_value_bytes : N := 256.

Section options.
Context {V : Type} `{!PyApi V}.

Definition strict_u64 (value : V) (name : string) : PyResult N :=
  unless negb (exactly_int value) raise invalid (name +:+ " must be an integer") ;;;
  match extract_u64 value with Some n => inr n | None => inl (invalid (name +:+ " must be a non-negative integer")) end.
Definition strict_u32 (value : V) (name : string) : PyResult N :=
  unless negb (exactly_int value) raise invalid (name +:+ " must be an integer") ;;;
  match extract_u32 value with Some n => inr n | None => inl (invalid (name +:+ " must be a uint32")) end.
Definition optional_item (value : V) : option V := if is_none value then None else Some value.
(** A tuple of exactly this type, of [n] items. *)
Definition exact_tuple (value : V) (n : nat) (message length_message : string) : PyResult (list V) :=
  unless negb (exactly_tuple value) raise invalid message ;;;
  match cast_tuple value with
  | None => inl (invalid message)
  | Some items => unless bool_decide (length items ≠ n) raise invalid length_message ;;; inr items
  end.
Definition parse_source (value : V) : PyResult (option ActorRef) :=
  match optional_item value with
  | None => inr None
  | Some value =>
      let? tuple := exact_tuple value 3 "source must be a 3-tuple or None" "source must be a 3-tuple or None" in
      let? item := convert (tuple !! 0) in
      let? world := strict_u64 item "source.world" in
      let? item := convert (tuple !! 1) in
      let? slot := strict_u32 item "source.slot" in
      let? item := convert (tuple !! 2) in
      let? generation := strict_u64 item "source.generation" in
      unless (world =? 0)%N || (generation =? 0)%N raise invalid "source world and generation must be nonzero" ;;;
      inr (Some (actor (world, slot, generation)))
  end.
(** One entry of the baggage. *)
Definition parse_baggage (item : V) : PyResult (string * string) :=
  unless negb (exactly_tuple item) raise invalid "baggage entry must be a pair" ;;;
  let? fields := convert (cast_tuple item) in
  unless bool_decide (length fields ≠ 2) raise invalid "baggage entry must be a pair" ;;;
  let? key_obj := convert (fields !! 0) in
  let? val_obj := convert (fields !! 1) in
  unless negb (exactly_str key_obj) || negb (exactly_str val_obj) raise invalid "baggage key and value must be text" ;;;
  let? (key_len, key) := convert (cast_str key_obj) in
  let? (val_len, val) := convert (cast_str val_obj) in
  unless (max_key_bytes <? key_len)%N || (max_value_bytes <? val_len)%N
    raise invalid "baggage key or value exceeds its byte limit" ;;;
  let? key := convert key in
  let? val := convert val in
  unless (str_len key =? 0)%N || (max_key_bytes <? str_len key)%N || (max_value_bytes <? str_len val)%N
    raise invalid "baggage key or value exceeds its byte limit" ;;;
  inr (key, val).
Definition parse_trace (value : V) : PyResult (option TraceContext) :=
  match optional_item value with
  | None => inr None
  | Some value =>
      let? tuple := exact_tuple value 4 "trace must be a 4-tuple or None" "trace must be a 4-tuple or None" in
      let? trace_value := convert (tuple !! 0) in
      let? span_value := convert (tuple !! 1) in
      unless negb (exactly_bytes trace_value) || negb (exactly_bytes span_value)
        raise invalid "trace_id and span_id must be bytes" ;;;
      let? trace_bytes := convert (cast_bytes trace_value) in
      let? span_bytes := convert (cast_bytes span_value) in
      unless bool_decide (length trace_bytes ≠ 16) || bool_decide (length span_bytes ≠ 8)
        raise invalid "trace_id must be 16 bytes and span_id 8 bytes" ;;;
      let? sampled := convert (tuple !! 2) in
      unless negb (is_bool sampled) raise invalid "sampled must be bool" ;;;
      let? sampled := convert (extract_bool sampled) in
      let? baggage_value := convert (tuple !! 3) in
      unless negb (exactly_tuple baggage_value) raise invalid "baggage must be a tuple" ;;;
      let? baggage := convert (cast_tuple baggage_value) in
      unless (max_baggage <? N.of_nat (length baggage))%N raise invalid "baggage exceeds eight entries" ;;;
      let? entries := py_map parse_baggage baggage in
      match Trace.new trace_bytes span_bytes sampled entries with
      | inr trace => inr (Some trace)
      | inl e => inl (invalid (Native.error_name e))
      end
  end.

Definition nonzero (o : option V) (name : string) : PyResult (option N) :=
  match o with
  | None => inr None
  | Some value =>
      let? id := strict_u64 value name in
      unless (id =? 0)%N raise invalid (name +:+ " must be nonzero") ;;;
      inr (Some id)
  end.
(** The new deadline, from a timeout in milliseconds. *)
Definition parse_timeout (value : option V) (now : Instant) (old : option Instant) : PyResult (option Instant) :=
  match value with
  | None => inr old
  | Some value =>
      let? timeout := strict_u64 value "timeout_ms" in
      unless (max_timeout_ms <? timeout)%N raise invalid "timeout exceeds 24 hours" ;;;
      match checked_add instant_max now (timeout * 10 ^ 6) with
      | None => inl (invalid "timeout overflow")
      | Some deadline => inr (Some (from_option (λ old, N.min old deadline) deadline old))
      end
  end.
Definition parse_entries (tuple : list V) (options : MessageOptions) (now : Instant) : PyResult MessageOptions :=
  let? item := convert (tuple !! 0) in
  let? source := parse_source item in
  let options := options <| mo_source ::= option_or source |> in
  let? item := convert (tuple !! 1) in
  let? deadline := parse_timeout (optional_item item) now (mo_deadline options) in
  let options := options <| mo_deadline := deadline |> in
  let? item := convert (tuple !! 2) in
  let? correlation := nonzero (optional_item item) "correlation_id" in
  let options := options <| mo_correlation_id ::= option_or correlation |> in
  let? item := convert (tuple !! 3) in
  let? causation := nonzero (optional_item item) "causation_id" in
  let options := options <| mo_causation_id ::= option_or causation |> in
  let? item := convert (tuple !! 4) in
  let? trace := parse_trace item in
  let options := options <| mo_trace ::= option_or trace |> in
  unless negb (Options.validate options) raise invalid (Native.error_name Error.InvalidMetadata) ;;;
  inr options.
Definition parse_options (value : option V) (inherited : option MessageOptions) (now : Instant) :
    PyResult MessageOptions :=
  let options := default default_options inherited in
  match value with
  | None => inr options
  | Some value =>
      if is_none value then inr options else
      let? tuple := exact_tuple value 5 "options must be a 5-tuple or None"
        "options must contain source, timeout, correlation, causation, and trace" in
      parse_entries tuple options now
  end.
End options.

(** ** What Python sees of an envelope *)
Definition schema_kind (k : SchemaKind) : string :=
  match k with
  | KPulse => "pulse" | KCountSnapshot => "snapshot" | KRecord => "record" | KStructured => "structured"
  end.
Definition trace_dict (t : TraceContext) : object := ODict [
  ("trace_id", OBytes (trace_id t)); ("span_id", OBytes (span_id t)); ("sampled", OBool (sampled t));
  ("baggage", OTuple ((λ p : string * string, OTuple [OStr p.1; OStr p.2]) <$> baggage t))]%string.
Definition envelope_dict (w : World) (e : Envelope) : object := ODict [
  ("event_id", of_N (env_event_id e));
  ("schema_kind", OStr (schema_kind (si_kind (env_schema e))));
  ("schema_id", of_N (si_id (env_schema e)));
  ("schema_version", of_N (si_version (env_schema e)));
  ("source", of_option of_actor (env_source e));
  ("destination", of_actor (env_destination e));
  ("owner", of_actor (env_owner e));
  ("dispatcher", of_option of_port (env_dispatcher e));
  ("destination_port", of_option of_port (env_destination_port e));
  ("enqueued_at_ns", of_N (instant_ns w (env_enqueued_at e)));
  ("deadline_ns", of_option (of_N ∘ instant_ns w) (env_deadline e));
  ("correlation_id", of_option of_N (env_correlation_id e));
  ("causation_id", of_option of_N (env_causation_id e));
  ("trace", of_option trace_dict (env_trace e))]%string.

(** ** Specification *)

(** What a message asks for, as Python writes it. *)
Record asked := MkAsked {
  as_source : option ActorRef; as_timeout_ms : option N; as_correlation : option N; as_causation : option N;
  as_trace : option TraceContext }.
Definition trace_object (t : TraceContext) : object := OTuple [
  OBytes (trace_id t); OBytes (span_id t); OBool (sampled t);
  OTuple ((λ p : string * string, OTuple [OStr p.1; OStr p.2]) <$> baggage t)].
Definition asked_object (a : asked) : object := OTuple [
  of_option of_actor (as_source a); of_option of_N (as_timeout_ms a); of_option of_N (as_correlation a);
  of_option of_N (as_causation a); of_option trace_object (as_trace a)].
(** Which requests are acceptable at a time, and what they make of the options. *)
Definition positive (bound n : N) : bool := (0 <? n)%N && (n <=? bound)%N.
Definition source_ok (r : ActorRef) : bool :=
  positive u64_max (ar_world r) && (ar_slot r <=? u32_max)%N && positive u64_max (ar_generation r).
Definition timeout_ok (now : Instant) (ms : N) : bool :=
  (ms <=? max_timeout_ms)%N && (now + ms * 10 ^ 6 <=? instant_max)%N.
Definition trace_ok (t : TraceContext) : bool :=
  bool_decide (length (trace_id t) = 16) && bool_decide (length (span_id t) = 8) &&
  bool_decide (Trace.new (trace_id t) (span_id t) (sampled t) (baggage t) = inr t).
Definition every {A} (p : A → bool) (o : option A) : bool := from_option p true o.
Definition lay (a : asked) (now : Instant) (o : MessageOptions) : MessageOptions := {|
  mo_source := option_or (as_source a) (mo_source o);
  mo_deadline := match as_timeout_ms a with
                 | None => mo_deadline o
                 | Some ms => Some (from_option (N.min (now + ms * 10 ^ 6)) (now + ms * 10 ^ 6)%N (mo_deadline o))
                 end;
  mo_correlation_id := option_or (as_correlation a) (mo_correlation_id o);
  mo_causation_id := option_or (as_causation a) (mo_causation_id o);
  mo_trace := option_or (as_trace a) (mo_trace o) |}.
Definition acceptable (a : asked) (now : Instant) (o : MessageOptions) : bool :=
  every source_ok (as_source a) && every (timeout_ok now) (as_timeout_ms a) &&
  every (positive u64_max) (as_correlation a) && every (positive u64_max) (as_causation a) &&
  every trace_ok (as_trace a) && Options.validate (lay a now o).
(** A deadline that is inherited can only come nearer. *)
Definition nearer (old new : option Instant) : Prop := ∀ d, old = Some d → ∃ d', new = Some d' ∧ (d' ≤ d)%N.

(** ** Lemmas *)
Definition answers {A} (ok : bool) (a : A) (r : PyResult A) : Prop :=
  if ok then r = inr a else ∃ message, r = inl (PyValueError message).
Lemma answers_inr {A} (a : A) : answers true a (inr a).
Proof. done. Qed.
Lemma answers_bind {A B} ok ok' a b (m : PyResult A) (k : A → PyResult B) :
  answers ok a m → answers ok' b (k a) → answers (ok && ok') b (let? x := m in k x).
Proof. unfold answers. destruct ok; simpl; [by intros ->|]. by intros [message ->] _; exists message. Qed.
Lemma answers_unless {A} c message ok (a : A) (k : PyResult A) :
  (c = false → answers ok a k) → answers (negb c && ok) a (if c then inl (PyValueError message) else k).
Proof. destruct c; simpl; [by exists message|auto]. Qed.
Lemma answers_eq {A} ok ok' (a : A) r : ok = ok' → answers ok a r → answers ok' a r.
Proof. by intros ->. Qed.
Section laws.
Context {V : Type} `{!PyApi V, !PyLaws V}.
Lemma positive_negb bound n : positive bound n = (n <=? bound)%N && negb (n =? 0)%N.
Proof. unfold positive. lia. Qed.
Lemma answers_u64 n name : answers (n <=? u64_max)%N n (strict_u64 (into_py (V:=V) (of_N n)) name).
Proof.
  unfold strict_u64, of_N. rewrite exactly_int_law. simpl. rewrite extract_u64_law. unfold answers.
  destruct (n <=? u64_max)%N eqn:Hn; [by rewrite unsigned_of_N by lia|]. exists (name +:+ " must be a non-negative integer").
  unfold unsigned. rewrite (proj2 (andb_false_iff _ _)); [done|]. right. lia.
Qed.
Lemma answers_u32 n name : answers (n <=? u32_max)%N n (strict_u32 (into_py (V:=V) (of_N n)) name).
Proof.
  unfold strict_u32, of_N. rewrite exactly_int_law. simpl. rewrite extract_u32_law. unfold answers.
  destruct (n <=? u32_max)%N eqn:Hn; [by rewrite unsigned_of_N by lia|]. exists (name +:+ " must be a uint32").
  unfold unsigned. rewrite (proj2 (andb_false_iff _ _)); [done|]. right. lia.
Qed.
Lemma none_option {A} (f : A → object) o :
  (∀ a, f a ≠ ONone) → optional_item (into_py (V:=V) (of_option f o)) = (into_py ∘ f) <$> o.
Proof. intros Hf. unfold optional_item. rewrite is_none_law. destruct o as [a|]; [|done]. simpl. specialize (Hf a). by destruct (f a). Qed.
Lemma exact_tuple_run (l : list object) n message message' :
  length l = n → exact_tuple (into_py (V:=V) (OTuple l)) n message message' = inr (into_py <$> l).
Proof.
  intros Hl. unfold exact_tuple. rewrite exactly_tuple_law, cast_tuple_law. simpl. rewrite bool_decide_false; [done|].
  rewrite length_fmap. by intros [].
Qed.
Lemma answers_source s : answers (every source_ok s) s (parse_source (into_py (V:=V) (of_option of_actor s))).
Proof.
  unfold parse_source. rewrite none_option by done. destruct s as [[w slot g]|]; [|done]. simpl every. unfold source_ok.
  cbn [fmap option_fmap option_map compose]. change (of_actor _) with (OTuple [of_N w; of_N slot; of_N g]).
  rewrite exact_tuple_run by done. cbn [py_bind convert lookup list_lookup fmap list_fmap].
  eapply answers_eq; [|eapply (answers_bind _ _ _ _ _ _ (answers_u64 w _)), (answers_bind _ _ _ _ _ _ (answers_u32 slot _)),
    (answers_bind _ _ _ _ _ _ (answers_u64 g _)), answers_unless; intros _; apply answers_inr].
  rewrite !positive_negb. simpl. destruct (w =? 0)%N, (g =? 0)%N, (w <=? u64_max)%N, (g <=? u64_max)%N, (slot <=? u32_max)%N; reflexivity.
Qed.
Lemma answers_nonzero o name :
  answers (every (positive u64_max) o) o (nonzero ((into_py (V:=V) ∘ of_N) <$> o) name).
Proof.
  destruct o as [n|]; [|done]. simpl. eapply answers_eq; [|eapply answers_bind; [apply answers_u64|];
    apply answers_unless; intros _; apply answers_inr].
  rewrite positive_negb. destruct (n =? 0)%N; simpl; btauto.
Qed.
Lemma answers_timeout o now old :
  answers (every (timeout_ok now) o)
    match o with
    | None => old
    | Some ms => Some (from_option (N.min (now + ms * 10 ^ 6)) (now + ms * 10 ^ 6)%N old)
    end (parse_timeout ((into_py (V:=V) ∘ of_N) <$> o) now old).
Proof.
  destruct o as [ms|]; [|done]. simpl. unfold timeout_ok.
  eapply (answers_eq ((ms <=? u64_max)%N && (negb (max_timeout_ms <? ms)%N && (now + ms * 10 ^ 6 <=? instant_max)%N)));
    [unfold max_timeout_ms, u64_max; lia|].
  eapply answers_bind; [apply answers_u64|]. apply answers_unless. intros _. unfold checked_add.
  destruct (now + ms * 10 ^ 6 <=? instant_max)%N eqn:Hn.
  - rewrite decide_True by lia. simpl. do 2 f_equal. destruct old; simpl; [|done]. by rewrite N.min_comm.
  - rewrite decide_False by lia. by eexists.
Qed.
(** A character has at least one byte. *)
Lemma chars_le s : (chars s ≤ str_len s)%N.
Proof.
  unfold chars, str_len. rewrite <- length_bytes_of. pose proof (length_filter (λ b, is_cont b = false) (bytes_of s)). lia.
Qed.
Definition entry_ok (p : string * string) : bool :=
  negb ((str_len p.1 =? 0)%N || (max_key_bytes <? str_len p.1)%N || (max_value_bytes <? str_len p.2)%N).
Lemma answers_baggage p :
  answers (entry_ok p) p (parse_baggage (into_py (V:=V) (OTuple [OStr p.1; OStr p.2]))).
Proof.
  unfold parse_baggage. rewrite exactly_tuple_law, cast_tuple_law. cbn [negb py_bind convert fmap list_fmap length].
  rewrite bool_decide_false by (by intros []). cbn [py_bind convert lookup list_lookup]. rewrite !exactly_str_law, !cast_str_law.
  cbn [negb orb py_bind convert].
  eapply (answers_eq (negb ((max_key_bytes <? chars p.1)%N || (max_value_bytes <? chars p.2)%N) && (entry_ok p && true))).
  - pose proof (chars_le p.1). pose proof (chars_le p.2). unfold entry_ok. destruct p as [k v]. simpl in *. lia.
  - apply answers_unless. intros _. apply answers_unless. intros _. destruct p. apply answers_inr.
Qed.
Lemma answers_map {A B} (f : V → PyResult B) (g : A → object) (h : A → B) ok l :
  (∀ x, answers (ok x) (h x) (f (into_py (g x)))) → answers (forallb ok l) (h <$> l) (py_map f (into_py <$> (g <$> l))).
Proof.
  intros Hf. induction l as [|x l IH]; [done|]. simpl. eapply answers_bind; [apply Hf|]. rewrite <- (andb_true_r (forallb ok l)).
  eapply answers_bind; [apply IH|]. apply answers_inr.
Qed.
(** What [TraceContext::new] takes passes the tests made before it. *)
Lemma new_entries tid sid sampled l t :
  Trace.new tid sid sampled l = inr t → (max_baggage <? N.of_nat (length l))%N = false ∧ forallb entry_ok l = true.
Proof.
  intros Hn. destruct (trace_new_exact tid sid sampled l) as [((_ & _ & Hl & Hb) & _)|[_ He]]; [|congruence].
  split; [unfold Metadata.max_baggage, max_baggage in *; lia|].
  apply forallb_forall. intros [k v] Hin%list_elem_of_In. destruct (bo_entries _ Hb _ Hin) as [Hk Hv].
  unfold entry_ok, key_valid, Metadata.max_key_bytes, Metadata.max_value_bytes, max_key_bytes, max_value_bytes in *. simpl in *. lia.
Qed.
Lemma answers_trace o : answers (every trace_ok o) o (parse_trace (into_py (V:=V) (of_option trace_object o))).
Proof.
  unfold parse_trace. rewrite none_option by done. destruct o as [[tid sid sampled l]|]; [|done].
  cbn [fmap option_fmap option_map compose every]. unfold trace_object, Types.trace_id, Types.span_id, Types.sampled, Types.baggage.
  rewrite exact_tuple_run by done. cbn [py_bind convert lookup list_lookup fmap list_fmap].
  rewrite !exactly_bytes_law, !cast_bytes_law, is_bool_law, extract_bool_law, exactly_tuple_law, cast_tuple_law.
  cbn [negb orb py_bind convert]. rewrite length_fmap, length_fmap.
  eapply (answers_eq (negb (bool_decide (length tid ≠ 16) || bool_decide (length sid ≠ 8)) &&
    (negb (max_baggage <? N.of_nat (length l))%N &&
     (forallb entry_ok l && bool_decide (Trace.new tid sid sampled l = inr (MkTrace tid sid sampled l)))))).
  - unfold every, trace_ok. cbn [from_option Types.trace_id Types.span_id Types.sampled Types.baggage].
    assert (∀ n m : nat, bool_decide (n ≠ m) = negb (bool_decide (n = m))) as Hne by (intros; by rewrite bool_decide_not).
    rewrite !Hne. destruct (decide (Trace.new tid sid sampled l = inr (MkTrace tid sid sampled l))) as [Hn|Hn].
    + rewrite !(bool_decide_true _ Hn). destruct (new_entries _ _ _ _ _ Hn) as [-> ->]. btauto.
    + rewrite !(bool_decide_false _ Hn). btauto.
  - apply answers_unless. intros _. apply answers_unless. intros _.
    pose proof (answers_map parse_baggage _ id _ l answers_baggage) as Hmap. rewrite list_fmap_id in Hmap.
    eapply answers_bind; [exact Hmap|].
    destruct (trace_new_exact tid sid sampled l) as [(_ & -> & _)|(_ & ->)].
    + by rewrite bool_decide_true.
    + rewrite bool_decide_false by done. by eexists.
Qed.
Lemma answers_options a inherited now :
  let o := default default_options inherited in
  answers (acceptable a now o) (lay a now o) (parse_options (Some (into_py (V:=V) (asked_object a))) inherited now).
Proof.
  intros o. unfold parse_options. rewrite is_none_law. unfold asked_object. rewrite exact_tuple_run by done.
  destruct a as [s t c k tr]. unfold acceptable, lay. cbn [as_source as_timeout_ms as_correlation as_causation as_trace].
  cbn [py_bind fmap list_fmap]. fold o. clearbody o. unfold parse_entries. cbn [convert lookup list_lookup py_bind].
  rewrite !none_option by done.
  eapply (answers_eq (every source_ok s && (every (timeout_ok now) t && (every (positive u64_max) c &&
    (every (positive u64_max) k && (every trace_ok tr && Options.validate _)))))); [by rewrite !andb_assoc|].
  eapply answers_bind; [apply answers_source|]. eapply answers_bind; [apply answers_timeout|].
  eapply answers_bind; [apply answers_nonzero|]. eapply answers_bind; [apply answers_nonzero|].
  eapply answers_bind; [apply answers_trace|]. destruct o as [os od oc ok ot]. cbn -[Options.validate].
  match goal with |- answers (Options.validate ?x) _ (if _ then inl ?e else _) =>
    change (answers (Options.validate x) x (if negb (Options.validate x) then inl e else inr x));
    destruct (Options.validate x) end; [done|by eexists].
Qed.
End laws.

Lemma parse_entries_nearer {V} `{!PyApi V} tuple o now (o' : MessageOptions) :
  parse_entries (V:=V) tuple o now = inr o' → nearer (mo_deadline o) (mo_deadline o').
Proof.
  unfold parse_entries. intros H d Hd. repeat match goal with
  | H : (let? x := ?m in _) = inr _ |- _ => destruct m as [|?] eqn:?; [discriminate H|cbn [py_bind] in H]
  | H : (if ?c then _ else _) = inr _ |- _ => destruct c; [discriminate H|]
  end.
  injection H as <-. cbn. match goal with Ht : parse_timeout _ _ _ = inr ?x |- _ => clear - Ht Hd; revert Ht; rename x into new end.
  cbn. rewrite Hd. unfold parse_timeout. destruct (optional_item _) as [v|]; [|intros [= <-]; eauto].
  destruct (strict_u64 _ _) as [|ms]; [done|]. cbn [py_bind]. destruct (_ <? _)%N; [done|].
  destruct (checked_add _ _ _) as [t|]; [|done]. intros [= <-]. eexists. split; [done|]. simpl. lia.
Qed.

(** C20. Message options from Python mean what they say.  A request is laid over what is
    inherited when it is acceptable: a source with a world and a generation, a timeout
    of at most a day that ends within the clock's range, identifiers that are not zero,
    a trace context the core takes; any other is a [ValueError].  Whatever Python passes,
    the options it gets never have a later deadline than those they inherit. *)
Theorem parse_options_exact {V} `{!PyApi V, !PyLaws V} inherited now :
  (∀ a, let o := default default_options inherited in
    answers (acceptable a now o) (lay a now o) (parse_options (Some (into_py (V:=V) (asked_object a))) inherited now)) ∧
  (∀ (v : option V) o, parse_options v inherited now = inr o →
    nearer (mo_deadline (default default_options inherited)) (mo_deadline o)).
Proof.
  split; [intros a; apply answers_options|]. intros v o Ho d Hd. unfold parse_options in Ho.
  destruct v as [v|]; [|simplify_eq; by exists d]. destruct (is_none v); [simplify_eq; by exists d|].
  destruct (exact_tuple _ _ _ _) as [|tuple]; [done|]. simpl in Ho. by eapply parse_entries_nearer.
Qed.
Lemma parse_options_exact_witness :
  let a := MkAsked (Some (MkActorRef 1 0 1)) (Some 250%N) None (Some 7%N) None in
  let o := MkOptions None (Some (10 ^ 9)%N) (Some 3%N) None None in
  acceptable a 0 o = true ∧
  parse_options (Some (into_py (V:=object) (asked_object a))) (Some o) 0 =
    inr (MkOptions (Some (MkActorRef 1 0 1)) (Some (25 * 10 ^ 7)%N) (Some 3%N) (Some 7%N) None).
Proof.
  intros a o. assert (acceptable a 0 o = true) as Ha by (vm_compute; reflexivity). split; [exact Ha|].
  pose proof (proj1 (parse_options_exact (V:=object) (Some o) 0) a) as H. cbv zeta in H.
  change (default default_options (Some o)) with o in H. rewrite Ha in H. exact H.
Defined.
