(* ===== verification/PyValues.v ===== *)
(** * Events, records and reports as Python values

    [runtime-python/src/lib.rs], [components.rs] and [services.rs]: the payload of an
    event as the fields a Python handler gets, and back; component descriptors; and the
    dictionaries of failures, outcomes, reports and snapshots.
    [payload_roundtrip]: what a handler receives can be sent on as it is. *)
From S2P Require Import Prelude.
From S2P Require Import Collections.
From S2P Require Import Text.
From S2P Require Import Types.
From S2P Require Import Schema.
From S2P Require Import Readiness.
From S2P Require Import Operations.
From S2P Require Import Diagnostics.
From S2P Require Import Publications.
From S2P Require Import SchemaCodec.
From S2P Require Import SchemaRegistry.
From S2P Require Import WorldState.
From S2P Require Import Actors.
From S2P Require Import Messaging.
From S2P Require Import Views.
From S2P Require Import NativeConfig.
From S2P Require Import NativeState.
From S2P Require Import Native.
From S2P Require Import Tasks.
From S2P Require Import PyObjects.
From S2P Require Import PyEnvelopes.

(** ** Names and numbers *)
Definition one_of {A} (names : list (string * A)) (message value : string) : PyResult A :=
  match list_find (λ p, p.1 = value) names with
  | Some (_, (_, a)) => inr a
  | None => inl (invalid message)
  end.
Definition failure_action : string → PyResult failure_action :=
  one_of [("StopActor", FailureAction.StopActor); ("stop_actor", FailureAction.StopActor);
    ("StopWorld", FailureAction.StopWorld); ("stop_world", FailureAction.StopWorld);
    ("Continue", FailureAction.Continue); ("continue", FailureAction.Continue)]%string "unknown failure action".
Definition ready_phase : string → PyResult PythonReadyPhase :=
  one_of [("start", PhStart); ("Start", PhStart); ("failure", PhFailure); ("Failure", PhFailure);
    ("delivery", PhDelivery); ("Delivery", PhDelivery); ("cleanup", PhCleanup); ("Cleanup", PhCleanup)]%string
    "unknown Python readiness phase".
Definition failure_phase : string → PyResult FailurePhase :=
  one_of [("Construction", Construction); ("Configure", Configure); ("Start", Start); ("Handler", Handler);
    ("Stop", Stop); ("Supervisor", Supervisor)]%string "unknown failure phase".
Definition duration (ms : N) : PyResult N :=
  unless (86400000 <? ms)%N raise invalid "duration exceeds the 24-hour timer limit" ;;;
  inr (milliseconds ms).

(** ** Payloads *)
Definition of_i64s (l : list Z) : object := OList (OInt <$> l).
(** [payload_fields]: kind, values and schema. *)
Definition payload_fields (p : Payload) : PyResult (string * object * N) :=
  match p with
  | Structured record => inr ("structured"%string, OBytes (sr_bytes record), sr_schema record)
  | Pulse value => inr ("pulse"%string, of_i64s [value], 0%N)
  | CountSnapshot count total =>
      unless negb (in_i64 (Z.of_N count)) raise invalid "snapshot count exceeds int64 bridge range" ;;;
      inr ("snapshot"%string, of_i64s [Z.of_N count; total], 0%N)
  | PRecord schema integers _ => inr ("record"%string, of_i64s integers, schema)
  end.
Section payload.
(** [grown n] is the capacity that [collect] leaves a [Vec] of [n] elements with. *)
Context {V : Type} `{!PyApi V} (grown : nat → N).
Definition i64_item (v : V) : PyResult Z :=
  unless is_bool v raise invalid "bool is not an int64" ;;;
  convert (extract_i64 v).
(** [NativeWorld::payload], for the kinds that are lists of integers. *)
Definition integer_payload (max_event_bytes : N) (kind : string) (values : V) (schema : N) : PyResult Payload :=
  let? values := convert (cast_list values) in
  let len := N.of_nat (length values) in
  unless (4096 <? len)%N || (max_event_bytes <? saturating_add usize_max (N.min usize_max (len * 8)) 4)%N
    raise invalid "event exceeds the element or byte limit" ;;;
  let? integers := py_map i64_item values in
  let bad := inl (invalid "invalid payload kind, schema or fields") in
  if bool_decide (kind = "pulse"%string) then
    match integers with [value] => inr (Pulse value) | _ => bad end
  else if bool_decide (kind = "snapshot"%string) then
    match integers with
    | [count; total] => unless (count <? 0)%Z raise invalid "invalid payload kind, schema or fields" ;;;
        inr (CountSnapshot (Z.to_N count) total)
    | _ => bad
    end
  else if bool_decide (kind = "record"%string) && (0 <? schema)%N then inr (PRecord schema integers (grown (length integers)))
  else bad.
(** [NativeWorld::payload]: the canonical bytes of a structured event are checked by the
    World. *)
Definition payload (max_event_bytes : N) (kind : string) (values : V) (schema : N) : prog (PyResult Payload) :=
  if bool_decide (kind = "structured"%string) then
    match cast_bytes values with
    | None => Ret (inl (invalid "structured payload requires canonical bytes"))
    | Some bytes =>
        do! r := on_world (structured schema bytes) in
        Ret match r with inr p => inr p | inl e => inl (invalid e) end
    end
  else Ret (integer_payload max_event_bytes kind values schema).
End payload.

(** ** Component descriptors *)
Section descriptors.
Context {V : Type} `{!PyApi V}.
Definition text_of (v : V) : PyResult string := let? (_, s) := convert (cast_str v) in convert s.
Definition item (tuple : list V) (i : nat) : PyResult V := convert (tuple !! i).
Definition name (value : V) : PyResult string :=
  let? text := text_of value in
  unless (str_len text =? 0)%N || (128 <? str_len text)%N raise invalid "contract name must be 1..128 UTF-8 bytes" ;;;
  inr text.
(** [extract::<u32>], of what is not a [bool]. *)
Definition not_bool (v : V) (message : string) : PyResult unit :=
  unless is_bool v raise invalid message ;;; inr tt.
Definition payload_type (kind : string) (id : N) (message : string) : PyResult PayloadType :=
  if bool_decide (kind = "pulse"%string) && (id =? 0)%N then inr TPulse else
  if bool_decide (kind = "snapshot"%string) && (id =? 0)%N then inr TCountSnapshot else
  if bool_decide (kind = "structured"%string) && (0 <? id)%N then inr (TStructured id) else
  inl (invalid message).
Definition port_spec (value : V) : PyResult PortSpec :=
  let? tuple := convert (cast_tuple value) in
  unless bool_decide (length tuple ≠ 4) raise invalid "port requires name, direction, kind, schema" ;;;
  let? v := item tuple 1 in
  let? direction := text_of v in
  let? direction := one_of [("input", Input); ("output", Output)]%string "invalid port direction" direction in
  let? schema_id := item tuple 3 in
  let? _ := not_bool schema_id "schema ID is not a bool" in
  let? id := convert (extract_u32 schema_id) in
  let? v := item tuple 2 in
  let? kind := text_of v in
  let? schema := payload_type kind id "invalid port schema" in
  let? v := item tuple 0 in
  let? name := name v in
  inr (MkPortSpec name direction schema).
Definition ports (value : V) : PyResult (list PortSpec) :=
  let? items := convert (cast_tuple value) in
  unless (64 <? N.of_nat (length items))%N raise invalid "at most 64 ports" ;;;
  py_map port_spec items.
Definition interface (value : V) : PyResult InterfaceSpec :=
  let? tuple := convert (cast_tuple value) in
  unless bool_decide (length tuple ≠ 3) raise invalid "interface requires name, version, ports" ;;;
  let? version := item tuple 1 in
  let? _ := not_bool version "version is not a bool" in
  let? v := item tuple 0 in
  let? name := name v in
  let? version := convert (extract_u32 version) in
  let? v := item tuple 2 in
  let? ports := ports v in
  inr (MkInterfaceSpec name version ports).
Definition descriptor (value : list V) : PyResult ComponentDescriptor :=
  unless bool_decide (length value ≠ 4) raise invalid "component requires name, version, ports, interfaces" ;;;
  let? version := item value 1 in
  let? _ := not_bool version "version is not a bool" in
  let? items := item value 3 in
  let? items := convert (cast_tuple items) in
  unless (16 <? N.of_nat (length items))%N raise invalid "at most 16 interfaces" ;;;
  let? interfaces := py_map interface items in
  let? v := item value 0 in
  let? name := name v in
  let? version := convert (extract_u32 version) in
  let? v := item value 2 in
  let? ports := ports v in
  inr (MkDescriptor name version ports interfaces).
(** A descriptor that stands for one interface. *)
Definition single_interface (value : list V) (message : string) : PyResult InterfaceSpec :=
  let? d := descriptor value in
  match cd_interfaces d with [i] => inr i | _ => inl (invalid message) end.
End descriptors.
Definition payload_type_fields (t : PayloadType) : string * N :=
  match t with TPulse => ("pulse"%string, 0%N) | TCountSnapshot => ("snapshot"%string, 0%N) | TStructured id => ("structured"%string, id) end.
Definition direction_name (d : PortDirection) : string := match d with Input => "input" | Output => "output" end.
Definition descriptor_dict (d : ComponentDescriptor) : object := ODict [
  ("name", OStr (cd_name d)); ("version", of_N (cd_version d));
  ("ports", OList ((λ p, let '(kind, id) := payload_type_fields (ps_schema p) in ODict [
      ("name", OStr (ps_name p)); ("direction", OStr (direction_name (ps_direction p)));
      ("kind", OStr kind); ("schema", of_N id)]) <$> cd_ports d));
  ("interfaces", OList ((λ i, OTuple [OStr (if_name i); of_N (if_version i)]) <$> cd_interfaces d));
  ("ordering", OStr "fifo_admission"); ("overload", OStr "reject");
  ("cancellation", OStr "cancel_unclaimed_on_owner_stop")]%string.
Definition interface_dict (i : InterfaceSpec) : object := ODict [
  ("name", OStr (if_name i)); ("version", of_N (if_version i));
  ("ports", OList ((λ p, let '(kind, id) := payload_type_fields (ps_schema p) in
      OTuple [OStr (ps_name p); OStr (direction_name (ps_direction p)); OStr kind; of_N id]) <$> if_ports i))]%string.

(** ** A payload and back *)

(** A structured record that a World made, and that [w] can still check: it has the
    identity and the byte limit of that World, and the schema behind the same identifier. *)
Definition made_for (w : World) (record : StructuredRecord) : Prop :=
  ∃ w0 w1, structured (sr_schema record) (sr_bytes record) w0 = (Ok (Structured record), w1) ∧
    w_id w = w_id w0 ∧ max_event_bytes (w_cfg w) = max_event_bytes (w_cfg w0) ∧
    Registry.schema (w_schemas w) (sr_schema record) = Registry.schema (w_schemas w0) (sr_schema record).
(** What the bridge takes back. *)
Definition sendable (max_event_bytes : N) (w : World) (p : Payload) : Prop :=
  match p with
  | Pulse value => in_i64 value = true ∧ (12 ≤ max_event_bytes)%N
  | CountSnapshot _ total => in_i64 total = true ∧ (20 ≤ max_event_bytes)%N
  | PRecord schema integers _ =>
      (0 < schema)%N ∧ Forall (λ z, in_i64 z = true) integers ∧ length integers ≤ 4096 ∧
      (N.of_nat (length integers) * 8 + 4 ≤ max_event_bytes)%N
  | Structured record => made_for w record
  end.
(** The thread has its answer, at once or after one step that changes nothing. *)
Definition answers {A} (m : prog A) (s : Runtime) (a : A) : Prop :=
  m = Ret a ∨ ∀ oracle, step oracle m s = Some (Ret a, s, []).
Lemma structured_again w record : made_for w record →
  structured (sr_schema record) (sr_bytes record) w = (Ok (Structured record), w).
Proof.
  intros (w0 & w1 & H & Hid & Hmax & Hschema). unfold structured, bind, get, reject_if, of_outcome in *. rewrite Hmax, Hschema.
  destruct (_ <? _)%N; [done|]. unfold ret in *. destruct (Registry.schema _ _) as [d|e|]; [|done..].
  destruct (Decode.validate_registered_bytes d _) as [[]|e|]; [|done..]. injection H as <- _. simpl. by rewrite Hid.
Qed.
Lemma on_world_answers {A B} (m : M World string A) (f : string + A → B) s a :
  sh_poisoned (rt_shared s) = false → m (sh_world (rt_shared s)) = (Ok a, sh_world (rt_shared s)) →
  answers (do! r := on_world m in Ret (f r)) s (f (inr a)).
Proof.
  intros Hp Hm. right. intros oracle. unfold on_world. simpl. unfold locked. rewrite Hp, Hm. simpl.
  by destruct s as [[w [] st o cl] co po bu cn tm].
Qed.
Definition regrown (grown : nat → N) (p : Payload) : Payload :=
  match p with PRecord schema integers _ => PRecord schema integers (grown (length integers)) | p => p end.
Lemma i64_items {V} `{!PyApi V, !PyLaws V} l :
  Forall (λ z, in_i64 z = true) l → py_map i64_item (into_py (V:=V) <$> (OInt <$> l)) = inr l.
Proof.
  intros Hl. rewrite <- list_fmap_compose. rewrite (py_map_run (A:=V) _ _ id); [by rewrite list_fmap_id|].
  intros z Hz. rewrite Forall_forall in Hl. unfold i64_item. simpl. rewrite is_bool_law, extract_i64_law, Hl by done. done.
Qed.
Lemma integer_payload_of {V} `{!PyApi V, !PyLaws V} grown max kind l schema :
  Forall (λ z, in_i64 z = true) l → length l ≤ 4096 → (N.of_nat (length l) * 8 + 4 ≤ max)%N →
  integer_payload grown max kind (into_py (V:=V) (of_i64s l)) schema =
  if bool_decide (kind = "pulse"%string) then
    match l with [value] => inr (Pulse value) | _ => inl (invalid "invalid payload kind, schema or fields") end
  else if bool_decide (kind = "snapshot"%string) then
    match l with
    | [count; total] => unless (count <? 0)%Z raise invalid "invalid payload kind, schema or fields" ;;;
        inr (CountSnapshot (Z.to_N count) total)
    | _ => inl (invalid "invalid payload kind, schema or fields")
    end
  else if bool_decide (kind = "record"%string) && (0 <? schema)%N then inr (PRecord schema l (grown (length l)))
  else inl (invalid "invalid payload kind, schema or fields").
Proof.
  intros Hl Hlen Hmax. unfold integer_payload, of_i64s. rewrite cast_list_law. cbn [convert py_bind]. rewrite !length_fmap.
  assert ((4096 <? N.of_nat (length l))%N = false) as -> by lia. cbn [orb].
  assert (saturating_add usize_max (N.min usize_max (N.of_nat (length l) * 8)) 4 ≤ N.of_nat (length l) * 8 + 4)%N as Hs.
  { unfold saturating_add. lia. }
  assert ((max <? saturating_add usize_max (N.min usize_max (N.of_nat (length l) * 8)) 4)%N = false) as -> by lia.
  rewrite i64_items by done. cbn [py_bind]. done.
Qed.

(** C21. Payloads cross the boundary unchanged.  Python sees every payload but a snapshot
    whose count is not an [int64].  What it sees of a pulse, a snapshot or a record of
    integers makes the same payload when it is sent on, whatever the Python objects are,
    provided that the integers are [int64]s, at most 4096, and fit the byte limit; the
    copy of a record is charged for the capacity of its own vector.  What it sees of a
    structured record that a World made makes the same record, in every World with that
    World's identity and byte limit that has the schema. *)
Theorem payload_roundtrip {V} `{!PyApi V, !PyLaws V} (grown : nat → N) (p : Payload) :
  ((∃ e, payload_fields p = inl e) ↔ ∃ count total, p = CountSnapshot count total ∧ (2 ^ 63 ≤ count)%N) ∧
  ∀ max kind values schema s, payload_fields p = inr (kind, values, schema) →
    sh_poisoned (rt_shared s) = false → sendable max (sh_world (rt_shared s)) p →
    answers (payload grown max kind (into_py (V:=V) values) schema) s (inr (regrown grown p)).
Proof.
  assert (∀ n, in_i64 (Z.of_N n) = negb (2 ^ 63 <=? n)%N) as Hrange.
  { intros n. unfold in_i64. change (2 ^ 63)%Z with (Z.of_N (2 ^ 63)). generalize (2 ^ 63)%N. intros m. lia. }
  split.
  - split.
    + intros [e He]. destruct p as [v|count total|schema l c|r]; simpl in He; try discriminate.
      rewrite Hrange, negb_involutive in He. destruct (2 ^ 63 <=? count)%N eqn:Hc; [|discriminate].
      apply N.leb_le in Hc. eauto.
    + intros (count & total & -> & Hc). simpl. rewrite Hrange, negb_involutive. apply N.leb_le in Hc. rewrite Hc. eauto.
  - intros max kind values schema s Hp Hs. destruct p as [v|count total|schema' l c|r]; simpl in *.
    + intros [Hv Hm]. left. simplify_eq. unfold payload. simpl. f_equal.
      rewrite integer_payload_of; [done|by constructor|simpl; lia|simpl; lia].
    + intros [Ht Hm]. left. destruct (negb (in_i64 (Z.of_N count))) eqn:Hc; [discriminate|]. apply negb_false_iff in Hc. simplify_eq.
      unfold payload. simpl. f_equal. rewrite integer_payload_of; [|by repeat constructor|simpl; lia|simpl; lia]. simpl.
      rewrite N2Z.id. by replace (Z.of_N count <? 0)%Z with false by lia.
    + intros (Hs' & Hl & Hlen & Hm). left. simplify_eq. unfold payload. simpl. f_equal.
      rewrite integer_payload_of by done. simpl. by replace (0 <? schema)%N with true by lia.
    + intros Hmade. simplify_eq. unfold payload. simpl. rewrite cast_bytes_law.
      exact (on_world_answers _ (λ r, match r with inr p => inr p | inl e => inl (invalid e) end) s _ Hs (structured_again _ _ Hmade)).
Qed.
(** A record of integers, and a structured one of the only schema of a World. *)
Definition demo_leg : Schema := MkSchema "Leg" 1 [MkField "raw" (TyBytes 8); MkField "ok" TyBool].
Definition demo_bytes : list byte :=
  match Encode.encode demo_leg (VRecord [VBytes [byte_of 1; byte_of 255]; VBool true]) 100 with Ok b => b | _ => [] end.
Definition demo_made : option (World * Payload) :=
  match with_clock 1 config_default (Clocks.manual_at 0) with
  | Ok w => match register_schemas [demo_leg] w with
            | (Ok [id], w) => match structured id demo_bytes w with (Ok p, w) => Some (w, p) | _ => None end
            | _ => None
            end
  | _ => None
  end.
Lemma payload_roundtrip_witness :
  ∃ w record, demo_made = Some (w, Structured record) ∧ sr_bytes record = demo_bytes ∧ demo_bytes ≠ [] ∧
    let s := MkRuntime (MkShared w false ∅ ∅ ∅) (λ _, 0%N) ∅ ∅ 0 0 in
    answers (payload (λ n, N.of_nat n) 64 "structured" (into_py (V:=object) (OBytes demo_bytes)) (sr_schema record)) s
      (inr (Structured record)) ∧
    answers (payload (λ n, N.of_nat n) 64 "record" (into_py (V:=object) (OList [OInt 5; OInt (-7)])) 3) s
      (inr (PRecord 3 [5; -7]%Z 2)).
Proof.
  assert (match demo_made with
          | Some (w, Structured record) => sr_bytes record = demo_bytes ∧
              match structured (sr_schema record) (sr_bytes record) w with
              | (Ok (Structured again), _) => again = record
              | _ => False
              end
          | _ => False
          end) as Hmade by (vm_compute; split; reflexivity).
  destruct demo_made as [[w [| | |record]]|]; try contradiction. destruct Hmade as [Hbytes Hmade]. exists w, record. split; [reflexivity|]. split; [exact Hbytes|].
  split; [vm_compute; discriminate|]. intros s. split.
  - refine (proj2 (payload_roundtrip (V:=object) (λ n, N.of_nat n) (Structured record)) 64%N "structured"%string (OBytes demo_bytes)
      (sr_schema record) s _ eq_refl _); [simpl; rewrite Hbytes; reflexivity|].
    destruct (structured (sr_schema record) (sr_bytes record) w) as [[[| | |again]|e|] w1] eqn:H; try contradiction.
    subst again. exists w, w1. split; [exact H|]. split; [reflexivity|]. split; reflexivity.
  - refine (proj2 (payload_roundtrip (V:=object) (λ n, N.of_nat n) (PRecord 3 [5; -7]%Z 4)) 64%N "record"%string
      (OList [OInt 5; OInt (-7)]) 3%N s eq_refl eq_refl _).
    split; [reflexivity|]. split; [repeat (apply Forall_cons_2; [reflexivity|]); apply Forall_nil_2|]. split; simpl; lia.
Defined.
