(* ===== verification/PyReports.v ===== *)
(** * Reports as Python values

    [runtime-python]: the dictionaries of failures, outcomes, stop reports, publications,
    diagnostics and snapshots, and of the statistics of the native components.  What the
    source writes with [{:?}] is the name of a constructor ([Debug]). *)
From S2P Require Import Prelude.
From S2P Require Import Collections.
From S2P Require Import Types.
From S2P Require Import Operations.
From S2P Require Import Diagnostics.
From S2P Require Import Publications.
From S2P Require Import WorldState.
From S2P Require Import Actors.
From S2P Require Import Messaging.
From S2P Require Import Views.
From S2P Require Import NativeState.
From S2P Require Import Cpu.
From S2P Require Import PyObjects.
From S2P Require Import PyEnvelopes.
From S2P Require Import PyValues.

Module Debug.
Definition phase (p : FailurePhase) : string :=
  match p with
  | Construction => "Construction" | Configure => "Configure" | Start => "Start" | Handler => "Handler"
  | Stop => "Stop" | Supervisor => "Supervisor"
  end.
Definition action (a : FailureAction.failure_action) : string :=
  match a with
  | FailureAction.StopActor => "StopActor" | FailureAction.StopWorld => "StopWorld" | FailureAction.Continue => "Continue"
  end.
Definition state (s : lifecycle) : string :=
  match s with
  | Lifecycle.Starting => "Starting" | Lifecycle.Active => "Active" | Lifecycle.Quiescing => "Quiescing"
  | Lifecycle.Stopping => "Stopping" | Lifecycle.Stopped => "Stopped"
  end.
Definition kind (k : endpoint_kind) : string :=
  match k with EndpointKind.Native => "Native" | EndpointKind.Python => "Python" end.
Definition operation_failure (f : OperationFailure) : string :=
  match f with HandlerFailed => "HandlerFailed" | ResultTooLarge => "ResultTooLarge" end.
Definition publication (o : publication_outcome) : string :=
  match o with
  | PublicationOutcome.Pending => "Pending" | PublicationOutcome.Routed => "Routed"
  | PublicationOutcome.Cancelled => "Cancelled" | PublicationOutcome.Expired => "Expired"
  | PublicationOutcome.FanoutLimit => "FanoutLimit" | PublicationOutcome.SnapshotFull => "SnapshotFull"
  end.
Definition code (c : DiagnosticCode) : string :=
  match c with
  | Code.QueueFull => "QueueFull" | Code.BudgetExceeded => "BudgetExceeded" | Code.ActorNotReady => "ActorNotReady"
  | Code.ActorStopped => "ActorStopped" | Code.StaleReference => "StaleReference" | Code.CrossWorld => "CrossWorld"
  | Code.LimitExceeded => "LimitExceeded" | Code.InvalidConfig => "InvalidConfig" | Code.NotFound => "NotFound"
  | Code.DuplicateSubscription => "DuplicateSubscription" | Code.SchemaMismatch => "SchemaMismatch"
  | Code.InvalidPort => "InvalidPort" | Code.InterfaceMismatch => "InterfaceMismatch"
  | Code.InvalidMetadata => "InvalidMetadata" | Code.DeadlineExpired => "DeadlineExpired"
  | Code.HandlerFailed => "HandlerFailed" | Code.StartupFailed => "StartupFailed" | Code.CleanupFailed => "CleanupFailed"
  | Code.SupervisorFailed => "SupervisorFailed" | Code.OperationTimedOut => "OperationTimedOut"
  | Code.OperationLateResult => "OperationLateResult" | Code.OwnerStopped => "OwnerStopped"
  | Code.TargetStopped => "TargetStopped" | Code.DrainTimeout => "DrainTimeout" | Code.Cancelled => "Cancelled"
  end.
End Debug.

(** ** Failures and operations *)
Definition failure_dict (f : FailureRecord) : object :=
  let d := fr_details f in ODict [
  ("sequence", of_N (fr_sequence f)); ("elapsed_ns", of_N (fr_elapsed_ns f)); ("actor", of_actor (fr_actor f));
  ("event_id", of_option of_N (fr_event_id f)); ("schema", of_option of_N (fr_schema f));
  ("operation", of_option of_operation (fr_operation f)); ("phase", OStr (Debug.phase (fd_phase d)));
  ("handler", OStr (fd_handler d)); ("exception_type", OStr (fd_exception_type d));
  ("frames", OList ((λ frame, OTuple [OStr (ff_file frame); of_N (ff_line frame); OStr (ff_function frame)]) <$> fd_frames d));
  ("truncated", OBool (fd_truncated d)); ("action", OStr (Debug.action (fr_action f)))]%string.
Definition outcome_dict (w : World) (outcome : TerminalOutcome) : PyResult object :=
  match outcome with
  | Completed held =>
      let? (kind, values, schema) := payload_fields (stored_payload (held_stored held)) in
      inr (ODict [("state", OStr "Completed"); ("kind", OStr kind); ("values", values); ("schema", of_N schema);
        ("envelope", of_option (envelope_dict w) (held_envelope held))]%string)
  | Failed code message =>
      inr (ODict [("state", OStr "Failed"); ("code", OStr (Debug.operation_failure code)); ("message", OStr message)]%string)
  | TimedOut => inr (ODict [("state", OStr "TimedOut")]%string)
  | Cancelled => inr (ODict [("state", OStr "Cancelled")]%string)
  | OwnerStopped => inr (ODict [("state", OStr "OwnerStopped")]%string)
  | TargetStopped => inr (ODict [("state", OStr "TargetStopped")]%string)
  end.
(** [NativeWorld::operation_status], of the status. *)
Definition status_dict (w : World) (status : OperationStatus) : PyResult object :=
  match status with
  | SPending _ => inr (ODict [("state", OStr "Pending")]%string)
  | STerminal outcome => outcome_dict w outcome
  end.
Definition report_dict (r : StopReport) : object := ODict [
  ("native_done", OBool (sp_native_done r)); ("python_done", OBool (sp_python_done r)); ("in_flight", of_N (sp_in_flight r));
  ("discarded", of_N (sp_discarded r)); ("timed_out", OBool (sp_timed_out r)); ("queued", of_N (sp_queued r));
  ("delivery_in_flight", of_N (sp_delivery_in_flight r)); ("control_in_flight", of_N (sp_control_in_flight r));
  ("native_tasks", of_N (sp_native_tasks r)); ("python_pending", of_N (sp_python_pending r));
  ("pending_notifications", of_N (sp_pending_notifications r));
  ("outstanding_operations", of_N (sp_outstanding_operations r));
  ("retained_operations", of_N (sp_retained_operations r));
  ("outstanding_publications", of_N (sp_outstanding_publications r));
  ("retained_publications", of_N (sp_retained_publications r)); ("errors", of_N (sp_errors r));
  ("last_error", of_option failure_dict (sp_last_error r))]%string.

(** ** Publications *)
Definition publication_report_dict (r : DeliveryReport) : object := ODict [
  ("admitted", of_N (dr_admitted r)); ("rejected", of_N (dr_rejected r)); ("matched", of_N (dr_matched r));
  ("staged", of_N (dr_staged r)); ("outcome", OStr (Debug.publication (dr_outcome r)))]%string.
(** [NativePublicationTicket::status], of the status. *)
Definition ticket_status (status : PublicationStatus) : string :=
  match status with
  | PStaged => "Staged"
  | PQueued => "Queued"
  | PRouting _ => "Routing"
  | PTerminal report => Debug.publication (dr_outcome report)
  end.

(** ** Diagnostics *)
Definition entry_dict (e : DiagnosticEntry) : object := ODict [
  ("sequence", of_N (dg_sequence e)); ("elapsed_ns", of_N (dg_elapsed_ns e)); ("code", OStr (Debug.code (dg_code e)));
  ("actor", of_option of_actor (dg_actor e)); ("operation", of_option of_operation (dg_operation e));
  ("event_id", of_option of_N (dg_event_id e)); ("correlation_id", of_option of_N (dg_correlation_id e));
  ("causation_id", of_option of_N (dg_causation_id e)); ("failure", of_option failure_dict (dg_failure e))]%string.
Definition gap_dict (g : DiagnosticGap) : object := ODict [
  ("first_available", of_N (gap_first_available g)); ("requested_after", of_N (gap_requested_after g))]%string.
Definition history_dict (h : DiagnosticRead) : object := ODict [
  ("entries", OList (entry_dict <$> rd_entries h)); ("next_sequence", of_N (rd_next_sequence h));
  ("dropped", of_N (rd_dropped h)); ("gap", of_option gap_dict (rd_gap h))]%string.

(** ** Statistics *)
Definition cpu_dict (s : CpuStats) : object := ODict [
  ("workers", of_N (cs_workers s)); ("max_jobs", of_N (cs_max_jobs s)); ("queued", of_N (cs_queued s));
  ("running", of_N (cs_running s)); ("submitted", of_N (cs_submitted s)); ("completed", of_N (cs_completed s));
  ("cancelled", of_N (cs_cancelled s)); ("panicked", of_N (cs_panicked s)); ("rejected", of_N (cs_rejected s))]%string.
Definition component_dict (s : ComponentStats) : object := ODict [
  ("generated", of_N (cs_generated s)); ("processed", of_N (cs_processed s)); ("summaries", of_N (cs_summaries s));
  ("sink_received", of_N (cs_sink_received s)); ("last_total", OInt (cs_last_total s))]%string.
Definition pipeline_dict (s : PipelineSnapshot) : object := ODict [
  ("generated", of_N (ps_generated s)); ("processed", of_N (ps_processed s)); ("summaries", of_N (ps_summaries s));
  ("sink_received", of_N (ps_sink_received s)); ("first_progress_ns", of_option of_N (ps_first_progress s));
  ("last_progress_ns", of_option of_N (ps_last_progress s)); ("last_total", OInt (ps_last_total s));
  ("total_ticks", OInt (ps_total_ticks s))]%string.
Definition tcp_dict (s : TcpStats) (connections read_buffer_bytes write_buffer_bytes : N) : object := ODict [
  ("accepted_connections", of_N (tp_accepted_connections s)); ("rejected_connections", of_N (tp_rejected_connections s));
  ("closed_connections", of_N (tp_closed_connections s)); ("cancelled_connections", of_N (tp_cancelled_connections s));
  ("drained_connections", of_N (tp_drained_connections s)); ("frames_received", of_N (tp_frames_received s));
  ("requests_admitted", of_N (tp_requests_admitted s)); ("frames_written", of_N (tp_frames_written s));
  ("bytes_received", of_N (tp_bytes_received s)); ("bytes_written", of_N (tp_bytes_written s));
  ("oversized_frames", of_N (tp_oversized_frames s)); ("truncated_frames", of_N (tp_truncated_frames s));
  ("read_errors", of_N (tp_read_errors s)); ("write_errors", of_N (tp_write_errors s));
  ("read_timeouts", of_N (tp_read_timeouts s)); ("request_timeouts", of_N (tp_request_timeouts s));
  ("write_timeouts", of_N (tp_write_timeouts s)); ("budget_rejections", of_N (tp_budget_rejections s));
  ("admission_rejections", of_N (tp_admission_rejections s)); ("failed_requests", of_N (tp_failed_requests s));
  ("invalid_replies", of_N (tp_invalid_replies s)); ("listener_errors", of_N (tp_listener_errors s));
  ("active_connections", of_N connections); ("read_buffer_bytes", of_N read_buffer_bytes);
  ("write_buffer_bytes", of_N write_buffer_bytes)]%string.

(** ** Snapshots *)
Definition link_dict (l : LinkSnapshot) : object := ODict [
  ("id", of_N (ls_id l)); ("owner", of_actor (ls_owner l)); ("source", of_port (ls_source l));
  ("target", of_port (ls_target l))]%string.
Definition service_dict (s : ServiceSnapshot) : object := ODict [
  ("name", OStr (ss_name s)); ("service", of_actor (ss_service s)); ("contract", interface_dict (ss_contract s));
  ("leases", of_N (ss_leases s))]%string.
Definition lease_dict (l : ServiceLease) : object := ODict [
  ("scope", of_actor (lease_scope l)); ("owner", of_actor (lease_owner l)); ("service", of_actor (lease_service l))]%string.
(** [as_millis() as u64] *)
Definition millis (ns : N) : N := (ns / 10 ^ 6) mod 2 ^ 64.
(** [remaining]: what is left of the drain, in milliseconds. *)
Definition actor_dict (a : ActorSnapshot) (remaining : option N) : object := ODict [
  ("handle", of_actor (as_reference a)); ("kind", OStr (Debug.kind (as_kind a))); ("state", OStr (Debug.state (as_state a)));
  ("parent", of_option of_actor (as_parent a)); ("drain_remaining_ms", of_option of_N remaining);
  ("queue_entries", of_N (as_queue_entries a)); ("queue_bytes", of_N (as_queue_bytes a));
  ("staged_entries", of_N (as_staged_entries a)); ("staged_bytes", of_N (as_staged_bytes a));
  ("component", of_option descriptor_dict (as_component a)); ("in_flight", of_N (b2n (as_in_flight a)));
  ("control_in_flight", of_N (b2n (as_control_in_flight a))); ("failure_pending", OBool (as_failure_pending a));
  ("native_tasks", of_N (as_native_tasks a)); ("python_done", OBool (as_python_done a))]%string.
Definition metrics_dict (m : Metrics) : object := ODict [
  ("submitted", of_N (m_submitted m)); ("admitted", of_N (m_admitted m)); ("rejected", of_N (m_rejected m));
  ("started", of_N (m_started m)); ("completed", of_N (m_completed m)); ("failed", of_N (m_failed m));
  ("cancelled", of_N (m_cancelled m)); ("expired", of_N (m_expired m)); ("discarded", of_N (m_discarded m));
  ("failures", of_N (m_failures m)); ("notifications_coalesced", of_N (m_notifications_coalesced m));
  ("notifications_delivered", of_N (m_notifications_delivered m));
  ("notifications_discarded", of_N (m_notifications_discarded m)); ("drain_timeouts", of_N (m_drain_timeouts m));
  ("operation_completed", of_N (m_operation_completed m)); ("operation_timed_out", of_N (m_operation_timed_out m));
  ("operation_cancelled", of_N (m_operation_cancelled m)); ("operation_late_results", of_N (m_operation_late_results m));
  ("publication_submitted", of_N (m_publication_submitted m)); ("publication_admitted", of_N (m_publication_admitted m));
  ("publication_rejected", of_N (m_publication_rejected m)); ("publication_completed", of_N (m_publication_completed m));
  ("publication_cancelled", of_N (m_publication_cancelled m)); ("publication_expired", of_N (m_publication_expired m));
  ("publication_failed", of_N (m_publication_failed m))]%string.
