(* ===== verification/PyWorld.v ===== *)
(** * [NativeWorld]: the World in Python's hands

    [runtime-python/src/lib.rs]: a method checks what Python gives it, makes its calls on
    the World, and keeps the deliveries and failures Python has claimed in two tables,
    under the token Python knows them by: the event's id, or the failure's sequence
    number.  A method is a program of the native runtime; threads of Python run them one
    after the other, and a panic that reaches the boundary becomes an exception. *)
From S2P Require Import Prelude.
From S2P Require Import Collections.
From S2P Require Import Text.
From S2P Require Import Types.
From S2P Require Import Metadata.
From S2P Require Import Schema.
From S2P Require Import Readiness.
From S2P Require Import Operations.
From S2P Require Import Diagnostics.
From S2P Require Import Publications.
From S2P Require Import SchemaRegistry.
From S2P Require Import WorldState.
From S2P Require Import Admission.
From S2P Require Import Actors.
From S2P Require Import Messaging.
From S2P Require Import Components.
From S2P Require Import Views.
From S2P Require Import NativeConfig.
From S2P Require Import NativeState.
From S2P Require Import Native.
From S2P Require Import Cpu.
From S2P Require Import Tasks.
From S2P Require Import PyObjects.
From S2P Require Import PySchemas.
From S2P Require Import PyEnvelopes.
From S2P Require Import PyValues.
From S2P Require Import PyReports.

(** ** State *)

(** Every mutex and atomic is a cell: the two tables, the runtime, the flag, the registry
    of controlled replies and the counter [BRIDGE_ENTRIES], which all Worlds share. *)
Record NativeWorld := MkNativeWorld {
  nw_claims : N; nw_failure_claims : N; nw_runtime : N; nw_timed_out : N; nw_controlled : N; nw_entries : N;
  nw_max_event_bytes : N; nw_max_schemas : N; nw_max_tasks : N; nw_cpu : CpuConfig; nw_virtual : bool }.
Abbreviation claim_table := (gmap N (N * DeliveryLease)).
Abbreviation failure_table := (gmap N (N * FailureLease)).

(** A critical section of one of the tables, in which the World may be called: a panic
    poisons the table, and so does a later caller's [unwrap] panic on it. *)
Definition under {T A} (look : cell → option (mutex T)) (make : mutex T → cell) (id : N)
    (f : T → Shared → (outcome unit A * T) * Shared) : prog A :=
  do! o := do (Atomic (λ s,
    match sh_cells s !! id ≫= look with
    | Some (MkMutex false t) =>
        let '((o, t), s) := f t s in
        (o, write_cell id (make (MkMutex (is_panic o) t)) s)
    | _ => (Panic, s)
    end)) in
  match o with Ok a => Ret a | _ => Halt HPoisoned end.
Definition as_claims (c : cell) : option (mutex claim_table) := match c with Claims m => Some m | _ => None end.
Definition as_failures (c : cell) : option (mutex failure_table) := match c with FailureClaims m => Some m | _ => None end.
(** A section that only uses the table. *)
Definition pure_section {T A} (f : T → A * T) (t : T) (s : Shared) : (outcome unit A * T) * Shared :=
  let '(a, t) := f t in ((Ok a, t), s).
(** [insert], which drops the value it replaces. *)
Definition inserting {V E} (end_lease : N → M World E unit) (token : N) (lease : N * V) (t : gmap N (N * V)) (s : Shared) :
    (outcome unit unit * gmap N (N * V)) * Shared :=
  let t' := <[token := lease]> t in
  match t !! token with
  | None => ((Ok tt, t'), s)
  | Some (old, _) => let '(o, s) := locked (end_lease old) s in ((if is_panic o then Panic else Ok tt, t'), s)
  end.
Definition removing {V} (token : N) (t : gmap N V) : option V * gmap N V := (t !! token, delete token t).

(** [entry()] *)
Definition entry_of (entries : N) : prog unit :=
  do (Atomic (λ s, match sh_cells s !! entries with
                   | Some (Entries n) => (tt, write_cell entries (Entries ((n + 1) mod 2 ^ 64)) s)
                   | _ => (tt, s)
                   end)).
(** [map_err(runtime_error)] on calls of the World, of the native runtime, and where the
    error is already a string. *)
Definition core_py {A} (m : WM A) : prog (PyResult A) :=
  do! r := on_world m in
  Ret match r with inr a => inr a | inl e => inl (runtime_error e) end.
Definition native_py {A} (m : prog (native_error + A)) : prog (PyResult A) :=
  do! r := m in
  Ret match r with inr a => inr a | inl e => inl (PyRuntimeError (Native.display e)) end.
Definition string_py {A} (m : prog (string + A)) : prog (PyResult A) :=
  do! r := m in
  Ret match r with inr a => inr a | inl e => inl (PyRuntimeError e) end.
(** A reading of the World under its lock. *)
Definition reading {A} (f : World → A) : prog (PyResult A) := core_py (gets f).
(** [self.world.now() + duration(ms)?] *)
Definition deadline_in (ms : N) : prog (PyResult Instant) :=
  do! t := world_now in
  try! d := Ret (duration ms) in
  match checked_add instant_max t d with Some at_ => Ret (inr at_) | None => Halt HPanic end.

(** ** Methods *)
Module NativeWorlds.
Section methods.
Context {V : Type} `{!PyApi V} (grown : nat → N) (nw : NativeWorld).
Definition entry : prog unit := entry_of (nw_entries nw).
Definition on_claims {A} : (claim_table → Shared → (outcome unit A * claim_table) * Shared) → prog A :=
  under as_claims Claims (nw_claims nw).
Definition on_failures {A} : (failure_table → Shared → (outcome unit A * failure_table) * Shared) → prog A :=
  under as_failures FailureClaims (nw_failure_claims nw).
Definition find_claim (token : N) : prog (option (N * DeliveryLease)) :=
  on_claims (pure_section (λ t, (t !! token, t))).
(** Options inherited from the delivery Python is handling. *)
Definition message_options (value : option V) (claim_token : option N) : prog (PyResult MessageOptions) :=
  try! inherited := match claim_token with
    | None => Ret (inr None)
    | Some token =>
        do! lease := find_claim token in
        Ret match lease with
            | None => inl (invalid "unknown or completed claim")
            | Some (_, lease) =>
                let e := d_envelope (dl_delivery lease) in inr (Some (Metadata.child_options e (env_destination e)))
            end
    end in
  do! t := world_now in
  Ret (parse_options value inherited t).
Definition payload_of (kind : string) (values : V) (schema : N) : prog (PyResult Payload) :=
  payload grown (nw_max_event_bytes nw) kind values schema.

(** *** Actors *)
Fixpoint parse_all (descriptors : list V) : prog (PyResult (list Schema)) :=
  match descriptors with
  | [] => Ret (inr [])
  | d :: descriptors =>
      match PySchemas.parse d with
      | Ok schema =>
          try! schemas := parse_all descriptors in
          Ret (inr (schema :: schemas))
      | Err e => Ret (inl e)
      | Panic => Halt HPanic
      end
  end.
Definition allocate (python : bool) (parent : option Handle) : prog (PyResult Handle) :=
  entry ;;>
  try! r := core_py (Actors.allocate (if python then EndpointKind.Python else EndpointKind.Native) (actor <$> parent)) in
  Ret (inr (handle r)).
Definition register_schemas (descriptors : list V) : prog (PyResult (list N)) :=
  entry ;;>
  if (nw_max_schemas nw <? N.of_nat (length descriptors))%N
  then Ret (inl (invalid "schema registration batch exceeds World limit")) else
  try! schemas := parse_all descriptors in
  do! r := on_world (Messaging.register_schemas schemas) in
  Ret match r with inr ids => inr ids | inl e => inl (invalid e) end.
Definition activate (reference : Handle) : prog (PyResult unit) :=
  entry ;;>
  core_py (Actors.activate (actor reference)).
Definition state (reference : Handle) : prog (PyResult string) :=
  entry ;;>
  try! s := core_py (Views.state (actor reference)) in
  Ret (inr (Debug.state s)).
Definition ready_cutoff : prog (PyResult N) :=
  entry ;;>
  core_py python_ready_cutoff.
Definition ready_next (phase : string) (after : option N) (through : N) : prog (PyResult (option (N * Handle))) :=
  entry ;;>
  try! phase := Ret (ready_phase phase) in
  try! next := core_py (python_ready_next phase after through) in
  Ret (inr (fmap (M:=option) (prod_map id handle) next)).
Definition stop (reference : Handle) : prog (PyResult object) :=
  entry ;;>
  try! report := core_py (Actors.stop (actor reference)) in
  Ret (inr (report_dict report)).
Definition cancel_all : prog (PyResult object) :=
  entry ;;>
  try! report := core_py Actors.close in
  Ret (inr (report_dict report)).
Definition shutdown_timed_out : prog bool :=
  do (Atomic (λ s, (match sh_cells s !! nw_timed_out nw with Some (Flag b) => b | _ => false end, s))).
Definition stop_report (reference : option Handle) : prog (PyResult object) :=
  entry ;;>
  try! report := match reference with
    | Some reference => core_py (report_locked (actor reference))
    | None =>
        try! report := reading world_report in
        do! timed_out := shutdown_timed_out in
        Ret (inr (report <| sp_timed_out ::= λ b, b || timed_out |>))
    end in
  Ret (inr (report_dict report)).
Definition finish_python (reference : Handle) : prog (PyResult unit) :=
  entry ;;>
  core_py (Actors.finish_python (actor reference)).
Definition drain (reference : Handle) (deadline_ms : N) : prog (PyResult object) :=
  entry ;;>
  try! deadline := deadline_in deadline_ms in
  try! report := core_py (Actors.request_drain (actor reference) deadline) in
  Ret (inr (report_dict report)).
Definition drain_all (deadline_ms : N) : prog (PyResult object) :=
  entry ;;>
  try! deadline := deadline_in deadline_ms in
  try! report := core_py (Actors.drain_all deadline) in
  Ret (inr (report_dict report)).

(** *** Messages *)
Definition send (reference : Handle) (kind : string) (values : V) (schema : N) (options : option V) (claim_token : option N) :
    prog (PyResult N) :=
  entry ;;>
  try! p := payload_of kind values schema in
  try! o := message_options options claim_token in
  core_py (Messaging.send_with (actor reference) p o).
Definition subscribe (source target : Handle) : prog (PyResult N) :=
  entry ;;>
  core_py (Messaging.subscribe (actor source) (actor target)).
Definition unsubscribe (token : N) : prog (PyResult unit) :=
  entry ;;>
  core_py (Messaging.unsubscribe token).
Definition request (owner target : Handle) (kind : string) (values : V) (schema timeout_ms : N) (options : option V)
    (claim_token : option N) : prog (PyResult Handle) :=
  entry ;;>
  try! deadline := deadline_in timeout_ms in
  try! p := payload_of kind values schema in
  try! o := message_options options claim_token in
  try! id := core_py (Messaging.request_with_port (actor owner) (actor target) p deadline o None) in
  Ret (inr (operation_handle id)).
Definition reply (id target : Handle) (kind : string) (values : V) (schema : N) (options : option V) : prog (PyResult bool) :=
  entry ;;>
  try! p := payload_of kind values schema in
  do! t := world_now in
  try! o := Ret (parse_options options None t) in
  core_py (Messaging.complete_operation_with (operation id) (actor target) p (Some o)).
(** The World, as far as [envelope_dict] reads it: the epoch never changes. *)
Definition look_at_world : prog World := do (Atomic (λ s, (sh_world s, s))).
(** The payload of an outcome, and the context of a pending operation, are dropped when
    the dictionary is made. *)
Definition drop_all (held : list HeldPayload) : prog unit :=
  foldr (λ h k, drop_stored h ;;> k) (Ret tt) held.
Definition outcome_held (o : TerminalOutcome) : list HeldPayload := match o with Operations.Completed held => [held] | _ => [] end.
Definition status_held (s : OperationStatus) : list HeldPayload :=
  match s with SPending p => option_list (po_context p) | STerminal o => outcome_held o end.
Definition operation_status (id : Handle) : prog (PyResult object) :=
  entry ;;>
  try! status := core_py (Messaging.operation_status (operation id)) in
  do! w := look_at_world in
  drop_all (status_held status) ;;>
  Ret (status_dict w status).
Definition take_operation (id : Handle) : prog (PyResult (option object)) :=
  entry ;;>
  try! taken := core_py (Messaging.take_operation (operation id)) in
  match taken with
  | None => Ret (inr None)
  | Some outcome =>
      do! w := look_at_world in
      drop_all (outcome_held outcome) ;;>
      Ret (let? d := outcome_dict w outcome in inr (Some d))
  end.
Definition cancel_operation (id : Handle) : prog (PyResult bool) :=
  entry ;;>
  core_py (Messaging.cancel_operation (operation id)).
Definition diagnostics (after_sequence limit : N) : prog (PyResult object) :=
  entry ;;>
  try! history := core_py (diagnostics_read after_sequence limit) in
  Ret (inr (history_dict history)).

(** *** Claims *)
Record Claim := MkClaim {
  cm_token : N; cm_kind : string; cm_values : object; cm_schema : N; cm_event_id : N; cm_operation : option Handle }.
Definition drop_delivery_lease (lease : N) : prog unit := on_world (drop_delivery lease) ;;> Ret tt.
(** A payload Python cannot see ends the delivery. *)
Definition claim (reference : Handle) : prog (PyResult (option Claim)) :=
  entry ;;>
  try! claimed := core_py (Messaging.claim (actor reference)) in
  match claimed with
  | None => Ret (inr None)
  | Some h =>
      do! lease := do (Atomic (λ s, (w_leases (sh_world s) !! h, s))) in
      match lease with
      | None => Halt HPoisoned (* never: the World leased it *)
      | Some lease =>
          let delivery := dl_delivery lease in
          match payload_fields (stored_payload (d_payload delivery)) with
          | inl e => drop_delivery_lease h ;;> Ret (inl e)
          | inr (kind, values, schema) =>
              let event_id := d_event_id delivery in
              on_claims (inserting drop_delivery event_id (h, lease)) ;;>
              Ret (inr (Some (MkClaim event_id kind values schema event_id (operation_handle <$> dl_operation lease))))
          end
      end
  end.
Definition claim_metadata (token : N) : prog (PyResult object) :=
  entry ;;>
  on_claims (λ t s, ((Ok match t !! token with
    | None => inl (invalid "unknown or completed claim")
    | Some (_, lease) => inr (envelope_dict (sh_world s) (d_envelope (dl_delivery lease)))
    end, t), s)).
Definition finish (token : N) (success : bool) : prog (PyResult unit) :=
  entry ;;>
  do! lease := on_claims (pure_section (removing token)) in
  match lease with
  | None => Ret (inl (invalid "unknown or already completed claim"))
  | Some (h, _) =>
      on_world (finish_delivery h success) ;;>
      Ret (inr tt)
  end.
Definition failure_frame (v : V) : PyResult FailureFrame :=
  let? tuple := PyObjects.convert (cast_tuple v) in
  unless bool_decide (length tuple ≠ 3) raise invalid "failure frame must be (file, line, function)" ;;;
  let? file := item tuple 0 in
  let? function := item tuple 2 in
  let? file := text_of file in
  let? line := item tuple 1 in
  let? line := PyObjects.convert (extract_u32 line) in
  let? function := text_of function in
  inr (Failures.frame_new file line function).
Definition report_failure (reference : Handle) (phase handler exception_type : string) (frames : list V) (action : string)
    (event_id schema : option N) (operation_ : option Handle) (truncated : bool) : prog (PyResult object) :=
  entry ;;>
  try! phase := Ret (failure_phase phase) in
  if (8 <? N.of_nat (length frames))%N then Ret (inl (invalid "failure traceback exceeds eight frames")) else
  try! frames := Ret (py_map failure_frame frames) in
  let details := Failures.with_truncated (Failures.details_new phase handler exception_type frames) truncated in
  try! action := Ret (failure_action action) in
  try! failure := core_py (Supervision.report_failure (actor reference) event_id schema (operation <$> operation_) details action) in
  Ret (inr (failure_dict failure)).
Definition claim_failure (supervisor : Handle) : prog (PyResult (option (N * object * N))) :=
  entry ;;>
  try! claimed := core_py (Supervision.claim_failure (actor supervisor)) in
  match claimed with
  | None => Ret (inr None)
  | Some h =>
      do! lease := do (Atomic (λ s, (w_failure_leases (sh_world s) !! h, s))) in
      match lease with
      | None => Halt HPoisoned (* never: the World leased it *)
      | Some lease =>
          let notification := fl_notification lease in
          let token := fr_sequence (nt_failure notification) in
          on_failures (inserting Supervision.drop_failure token (h, lease)) ;;>
          Ret (inr (Some (token, failure_dict (nt_failure notification), nt_coalesced notification)))
      end
  end.
Definition finish_failure (token : N) (action : option string) : prog (PyResult unit) :=
  entry ;;>
  try! action := Ret match action with
    | None => inr None
    | Some action => let? a := failure_action action in inr (Some a)
    end in
  do! lease := on_failures (pure_section (removing token)) in
  match lease with
  | None => Ret (inl (invalid "unknown or already completed failure claim"))
  | Some (h, _) => core_py (Supervision.finish_failure h action)
  end.

(** *** Components and services *)
Definition register_component (owner : Handle) (descriptor_ : list V) : prog (PyResult (list PortHandle)) :=
  entry ;;>
  try! d := Ret (descriptor descriptor_) in
  try! ports := core_py (Ports.register_component (actor owner) d) in
  Ret (inr (fmap (M:=list) port_handle ports)).
Definition component (owner : Handle) : prog (PyResult (option object)) :=
  entry ;;>
  try! c := core_py (Views.component (actor owner)) in
  Ret (inr (fmap (M:=option) descriptor_dict c)).
Definition require_interface (owner : Handle) (descriptor_ : list V) : prog (PyResult unit) :=
  entry ;;>
  try! required := Ret (single_interface descriptor_ "one required interface expected") in
  core_py (Ports.require_interface (actor owner) required).
Definition service_contract (descriptor_ : list V) : PyResult InterfaceSpec :=
  single_interface descriptor_ "service contract requires exactly one interface".
Definition register_service (name : string) (target : Handle) (descriptor_ : list V) : prog (PyResult unit) :=
  entry ;;>
  try! contract := Ret (service_contract descriptor_) in
  core_py (Services.register_service name (actor target) contract).
Definition acquire_service (owner : Handle) (name : string) (descriptor_ : list V) (expected_service : option Handle) :
    prog (PyResult (Handle * Handle)) :=
  entry ;;>
  try! contract := Ret (service_contract descriptor_) in
  try! lease := core_py match expected_service with
    | Some expected => Services.acquire_service_from (actor owner) name contract (actor expected)
    | None => Services.acquire_service (actor owner) name contract
    end in
  Ret (inr (handle (lease_scope lease), handle (lease_service lease))).
Definition service_lease (scope owner service : Handle) : ServiceLease :=
  MkServiceLease (actor scope) (actor owner) (actor service).
(** [World::service_request] and [World::service_link] take the World's lock twice. *)
Definition core_service_request (lease : ServiceLease) (name : string) (p : Payload) (deadline : Instant)
    (options : MessageOptions) : prog (PyResult OperationId) :=
  try! port_ref := core_py (Services.service_port lease name p) in
  core_py (request_with_port (lease_scope lease) (lease_service lease) p deadline options (Some port_ref)).
Definition core_service_link (lease : ServiceLease) (output : string) (target : PortRef) : prog (PyResult N) :=
  try! source := core_py (Services.service_source lease output) in
  core_py (Ports.link (lease_scope lease) source target).
Definition service_request (scope owner service : Handle) (port_ kind : string) (values : V) (schema deadline_ms : N)
    (options : option V) (claim_token : option N) : prog (PyResult Handle) :=
  entry ;;>
  try! p := payload_of kind values schema in
  try! o := message_options options claim_token in
  try! deadline := deadline_in deadline_ms in
  try! id := core_service_request (service_lease scope owner service) port_ p deadline o in
  Ret (inr (operation_handle id)).
Definition service_link (scope owner service : Handle) (output : string) (target : PortHandle) : prog (PyResult N) :=
  entry ;;>
  core_service_link (service_lease scope owner service) output (port target).
Definition release_service (scope owner service : Handle) : prog (PyResult bool) :=
  entry ;;>
  core_py (Services.release_service (service_lease scope owner service)).
Definition find_port (owner : Handle) (name : string) : prog (PyResult PortHandle) :=
  entry ;;>
  try! p := core_py (Ports.port (actor owner) name) in
  Ret (inr (port_handle p)).
Definition link (owner : Handle) (source target : PortHandle) : prog (PyResult N) :=
  entry ;;>
  core_py (Ports.link (actor owner) (port source) (port target)).
Definition send_port (target : PortHandle) (kind : string) (values : V) (schema : N) (options : option V) (claim_token : option N) :
    prog (PyResult N) :=
  entry ;;>
  try! p := payload_of kind values schema in
  try! o := message_options options claim_token in
  core_py (Ports.send_port_with (port target) p o).
(** A completion is published with the table of claims locked. *)
Definition publish_port (source : PortHandle) (kind : string) (values : V) (schema : N) (claim_token : option N)
    (options : option V) : prog (PyResult N) :=
  entry ;;>
  try! p := payload_of kind values schema in
  try! o := message_options options claim_token in
  let o := o <| mo_source := Some (port_owner (port source)) |> in
  match claim_token with
  | None => core_py (Ports.publish_port_with (port source) p o)
  | Some token =>
      on_claims (λ t s, match t !! token with
        | None => ((Ok (inl (PyRuntimeError "unknown claim")), t), s)
        | Some (h, _) =>
            let '(r, s) := locked (Ports.delivery_publish_port h (port source) p o) s in
            ((match r with Ok ticket => Ok (inr ticket) | Err e => Ok (inl (runtime_error e)) | Panic => Panic end, t), s)
        end)
  end.
End methods.
End NativeWorlds.

(** ** [NativePublicationTicket] *)
Module Tickets.
(** The ticket's status, which its clones share. *)
Definition ticket_of (ticket : N) : prog (option TicketState) :=
  do (Atomic (λ s, (pt_tickets (w_publications (sh_world s)) !! ticket, s))).
Definition identifier (ticket : N) : N := ticket.
Definition source (ticket : N) : prog (option Handle) :=
  do! t := ticket_of ticket in
  Ret (fmap (M:=option) (handle ∘ ts_source) t).
Definition status (ticket : N) : prog (option string) :=
  do! t := ticket_of ticket in
  Ret (fmap (M:=option) (ticket_status ∘ ts_status) t).
Definition report (ticket : N) : prog (option object) :=
  do! t := ticket_of ticket in
  Ret match fmap (M:=option) ts_status t with
      | Some (PTerminal report) => Some (publication_report_dict report)
      | _ => None
      end.
End Tickets.
