(* ===== verification/PyRuntime.v ===== *)
(** * [NativeWorld] and its native runtime

    [runtime-python/src/lib.rs], [tcp.rs] and [components.rs]: a World is made with the
    production runtime; methods that start native work hold the mutex of the runtime
    while they do, and find the World closed once [close] has taken the runtime out.
    The virtual runtime of tests is not modelled: [nw_virtual] is false of what [new]
    makes here. *)
From S2P Require Import Prelude.
From S2P Require Import Collections.
From S2P Require Import Text.
From S2P Require Import Types.
From S2P Require Import Readiness.
From S2P Require Import Diagnostics.
From S2P Require Import SchemaRegistry.
From S2P Require Import WorldState.
From S2P Require Import Actors.
From S2P Require Import Messaging.
From S2P Require Import Views.
From S2P Require Import Framing.
From S2P Require Import NativeConfig.
From S2P Require Import NativeState.
From S2P Require Import Native.
From S2P Require Import Cpu.
From S2P Require Import Tasks.
From S2P Require Import Executor.
From S2P Require Import Computation.
From S2P Require Import Builtin.
From S2P Require Import Controls.
From S2P Require Import Pipeline.
From S2P Require Import TcpFrames.
From S2P Require Import Tcp.
From S2P Require Import NativeRuns.
From S2P Require Import PyObjects.
From S2P Require Import PyEnvelopes.
From S2P Require Import PyValues.
From S2P Require Import PyReports.
From S2P Require Import PyWorld.

(** ** A new World *)
Module NewWorld.
(** The arguments of [NativeWorld::new] beside the configuration. *)
Record arguments := MkArguments {
  ar_config : Config; ar_max_tasks : N; ar_cpu_workers : N; ar_max_cpu_jobs : N }.
Definition above_ceiling (a : arguments) : bool :=
  let c := ar_config a in
  (65536 <? max_actors c)%N || (65536 <? max_subscriptions c)%N || (65536 <? ar_max_tasks a)%N ||
  (1048576 <? max_event_bytes c)%N || (65536 <? max_operations c)%N || (65536 <? diagnostic_capacity c)%N ||
  (65536 <? max_schemas c)%N || (4096 <? max_services c)%N || (65536 <? max_service_leases c)%N ||
  (1024 <? max_leases_per_actor c)%N || (65536 <? max_publications c)%N || (4096 <? max_publications_per_source c)%N ||
  (65536 <? max_publication_fanout c)%N || (1048576 <? max_routing_snapshot_entries c)%N || (4096 <? routing_batch_size c)%N.
(** The cells of a new [NativeWorld]; [BRIDGE_ENTRIES] has counted [entries] calls,
    this one among them. *)
Definition cells (controlled : Registry) (entries : N) : gmap N cell :=
  <[0%N := Claims (MkMutex false ∅)]> (<[1%N := FailureClaims (MkMutex false ∅)]>
  (<[2%N := RuntimeSlot (MkRuntimeMutex false false true)]> (<[3%N := Flag false]>
  (<[4%N := Replies controlled]> {[5%N := Entries entries]})))).
Definition handles (a : arguments) : NativeWorld := {|
  nw_claims := 0; nw_failure_claims := 1; nw_runtime := 2; nw_timed_out := 3; nw_controlled := 4; nw_entries := 5;
  nw_max_event_bytes := max_event_bytes (ar_config a); nw_max_schemas := max_schemas (ar_config a);
  nw_max_tasks := ar_max_tasks a; nw_cpu := MkCpuConfig (ar_cpu_workers a) (ar_max_cpu_jobs a); nw_virtual := false |}.
(** [NativeWorld::new] without [virtual_time]: the World, its runtime and the bridge;
    [World::new] reads the next World number and the clock. *)
Definition new (world_id : N) (clock : Clock) (entries : N) (a : arguments) : outcome PyErr (Runtime * NativeWorld) :=
  if above_ceiling a
  then Err (invalid "configuration exceeds this release's registration or event-size ceiling") else
  if negb (in_range 1 64 (ar_cpu_workers a)) || negb (in_range 1 4096 (ar_max_cpu_jobs a))
  then Err (invalid "CPU workers must be in 1..64 and max_cpu_jobs in 1..4096") else
  match with_clock world_id (ar_config a) clock with
  | Err e => Err (runtime_error e)
  | Panic => Panic
  | Ok world =>
      match Runtimes.new world (ar_max_tasks a) (MkCpuConfig (ar_cpu_workers a) (ar_max_cpu_jobs a)) with
      | inl e => Err (PyRuntimeError e)
      | inr runtime =>
          if negb (in_range 1 65536 (max_operations (ar_config a)))
          then Err (PyRuntimeError (Native.display (Native.Limit "controlled replies"))) else
          Ok (runtime <| rt_shared ::= λ s, s <| sh_cells := cells (Registries.new (max_operations (ar_config a))) (entries + 1) |> |>,
              handles a)
      end
  end.
End NewWorld.

(** ** The mutex of the runtime *)
Section slot.
Context (nw : NativeWorld).
Definition on_slot {A} (default : A) (f : runtime_mutex → A * runtime_mutex) : prog A :=
  do (Atomic (λ s, match sh_cells s !! nw_runtime nw with
                   | Some (RuntimeSlot m) => let '(a, m) := f m in (a, write_cell (nw_runtime nw) (RuntimeSlot m) s)
                   | _ => (default, s)
                   end)).
(** [lock().unwrap()]: whether the runtime is there. *)
Definition lock_runtime : prog bool :=
  do! got := loop (λ _ : unit,
    do! got := on_slot (Some false) (λ m,
      if rm_locked m then (None, m) else
      if rm_poisoned m then (Some false, m) else (Some true, m <| rm_locked := true |>)) in
    Ret match got with None => inl tt | Some got => inr got end) tt in
  if got : bool then on_slot false (λ m, (rm_present m, m)) else Halt HPanic.
Definition unlock_runtime (poisoned : bool) : prog unit :=
  on_slot tt (λ m, (tt, m <| rm_locked := false |> <| rm_poisoned ::= orb poisoned |>)).
(** What [m] does with the guard; a panic poisons the mutex. *)
Definition holding_runtime {A} (m : bool → prog A) : prog A :=
  do! present := lock_runtime in
  do! r := caught (m present) in
  match r with
  | inr a => unlock_runtime false ;;> Ret a
  | inl why => unlock_runtime true ;;> Halt why
  end.
Definition with_runtime {A} (m : prog (PyResult A)) : prog (PyResult A) :=
  holding_runtime (λ present, if present : bool then m else Ret (inl (PyRuntimeError "World is closed"))).
End slot.

(** A native component is activated, or stopped again. *)
Definition activated (owner : ActorRef) : prog (PyResult Handle) :=
  do! r := on_world (Actors.activate owner) in
  match r with
  | inr _ => Ret (inr (handle owner))
  | inl e =>
      on_world (Actors.stop owner) ;;>
      Ret (inl (runtime_error e))
  end.

(** ** Methods *)
Module RuntimeMethods.
Section methods.
Context {V : Type} `{!PyApi V} (grown : nat → N) (nw : NativeWorld).
#[local] Abbreviation entry := (NativeWorlds.entry nw).
#[local] Abbreviation closed := (PyRuntimeError "World is closed").
Definition cpu_stats : prog (PyResult object) :=
  entry ;;>
  do! s := Cpu.stats (nw_cpu nw) in
  Ret (inr (cpu_dict s)).
Definition cpu_sum_squares (parent : option Handle) : prog (PyResult Handle) :=
  entry ;;>
  with_runtime nw (
    try! prepared := native_py (SumSquares.prepare_sum_squares true (nw_virtual nw) (actor <$> parent)) in
    activated (Executor.nh_owner prepared)).
Definition component_kind (kind : string) (period_ms : N) : PyResult Builtin.ComponentKind :=
  if bool_decide (kind = "pulse_source"%string) then let? d := duration period_ms in inr (Builtin.PulseSource d) else
  if bool_decide (kind = "window_counter"%string) then let? d := duration period_ms in inr (Builtin.WindowCounter d) else
  if bool_decide (kind = "snapshot_sink"%string) && (period_ms =? 0)%N then inr Builtin.SnapshotSink else
  inl (invalid "unknown component kind or invalid period").
Definition prepare_component (parent : Handle) (kind : string) (period_ms : N) : prog (PyResult Builtin.NativeComponent) :=
  entry ;;>
  try! kind := Ret (component_kind kind period_ms) in
  with_runtime nw (string_py (Builtin.prepare_component true (negb (nw_virtual nw)) (actor parent) kind)).
Definition counter (parent : option Handle) (interval_ms window_ms : N) (python_target : option Handle) :
    prog (PyResult Pipelines.CounterPipeline) :=
  entry ;;>
  with_runtime nw (
    try! interval := Ret (duration interval_ms) in
    try! window := Ret (duration window_ms) in
    string_py (Pipelines.start_counter true (actor <$> parent) interval window (actor <$> python_target))).
Definition after (owner target : Handle) (delay_ms : N) (kind : string) (values : V) (schema : N) (options : option V)
    (claim_token : option N) : prog (PyResult unit) :=
  entry ;;>
  try! p := NativeWorlds.payload_of grown nw kind values schema in
  with_runtime nw (
    try! delay := Ret (duration delay_ms) in
    try! o := NativeWorlds.message_options nw options claim_token in
    string_py (Runtimes.after_with true (actor owner) (actor target) delay p o)).
Definition elapsed_ns : prog N :=
  do! t := world_now in
  do! w := NativeWorlds.look_at_world in
  Ret (instant_ns w t).

(** *** TCP *)

(** The numeric addresses [str::parse] accepts, and the name of an I/O error. *)
Inductive ip_addr := V4 (ip : N) | V6 (ip : N).
Definition socket_addr (ip : ip_addr) (port : N) : SocketAddr :=
  match ip with V4 ip => SocketV4 ip port | V6 ip => SocketV6 ip port 0 0 end.
Definition tcp_error_name (io_error : N → string) (e : tcp_error) : string :=
  match e with
  | TcpInvalidConfig => "InvalidConfig"
  | TcpVirtualRuntime => "VirtualRuntime"
  | TcpClosed => "Closed"
  | TcpTaskLimit => "TaskLimit"
  | TcpBind kind => "Bind(" +:+ io_error kind +:+ ")"
  | TcpCore e => "Core(" +:+ Native.error_name e +:+ ")"
  | TcpSchema => "Schema"
  end.
Definition tcp_listen {L S} `{!TcpNetwork L S, !AsyncReader S, !AsyncWriter S} (try_reserve_exact : N → option N)
    (parse_ip : string → option ip_addr) (io_error : N → string) (owner target : Handle) (host : string)
    (port max_connections max_frame_bytes read_buffer_bytes write_buffer_bytes read_timeout_ms request_timeout_ms
     write_timeout_ms : N) : prog (PyResult TcpListenerHandle) :=
  entry ;;>
  match parse_ip host with
  | None => Ret (inl (invalid "host must be a numeric IP address"))
  | Some ip =>
      try! read_timeout := Ret (duration read_timeout_ms) in
      try! request_timeout := Ret (duration request_timeout_ms) in
      try! write_timeout := Ret (duration write_timeout_ms) in
      let config := MkTcpConfig (socket_addr ip port) max_connections max_frame_bytes read_buffer_bytes write_buffer_bytes
        read_timeout request_timeout write_timeout in
      with_runtime nw (
        do! r := listen_tcp (L:=L) (S:=S) try_reserve_exact true (actor owner) (actor target) config in
        Ret match r with inr l => inr l | inl e => inl (PyRuntimeError (tcp_error_name io_error e)) end)
  end.
Definition tcp_echo (parent : option Handle) : prog (PyResult Handle) :=
  entry ;;>
  with_runtime nw (
    try! echo := native_py (Echoes.prepare_tcp_echo true (negb (nw_virtual nw)) (actor <$> parent)) in
    activated (Executor.nh_owner echo)).
(** [NativeTcpListener], [NativeCounter] and the [NativeComponent] of [components.rs]. *)
Definition listener_connections (l : TcpListenerHandle) : prog (list Handle) :=
  entry ;;>
  do! connections := Tcp.connections l in
  Ret (fmap (M:=list) handle connections).
Definition listener_stats (l : TcpListenerHandle) : prog object :=
  entry ;;>
  do! s := Tcp.stats l in
  do! connections := Tcp.connections l in
  do! reads := read_buffer_bytes l in
  do! writes := write_buffer_bytes l in
  Ret (tcp_dict s (N.of_nat (length connections)) reads writes).
Definition counter_stats (p : Pipelines.CounterPipeline) : prog object :=
  entry ;;>
  do! s := Pipelines.snapshot (Pipelines.cp_stats p) in
  Ret (pipeline_dict s).
Definition component_stats (c : Builtin.NativeComponent) : prog object :=
  entry ;;>
  do! s := Builtin.component_stats c in
  Ret (component_dict s).

(** *** Controlled replies *)
Definition test_responder (kind : string) (schema : N) (parent : option Handle) : prog (PyResult Handle) :=
  entry ;;>
  try! input := Ret (payload_type kind schema "invalid responder schema") in
  with_runtime nw (
    if negb (nw_virtual nw) then Ret (inl (PyRuntimeError "controlled responders require TestWorld")) else
    try! component := native_py (Replies.prepare true (negb (nw_virtual nw)) (nw_controlled nw) (actor <$> parent) input) in
    activated (Executor.nh_owner component)).
Definition test_pending : prog (list Handle) :=
  do! pending := Replies.pending (nw_controlled nw) in
  Ret (fmap (M:=list) operation_handle pending).
Definition test_complete (id : Handle) (kind : string) (values : V) (schema : N) : prog (PyResult bool) :=
  entry ;;>
  try! p := NativeWorlds.payload_of grown nw kind values schema in
  native_py (Replies.complete (nw_controlled nw) (operation id) p).

(** *** Waiting and closing *)

(** [World::wait_python_ready]: the condition variable wakes the driver, or the time is
    up. *)
Definition wait_python_ready (timeout : N) : prog (error + bool) :=
  do! t := do Now in
  loop (λ _ : unit,
    do! ready := on_world (gets (λ w, negb (Ready.is_empty (w_python_ready w)))) in
    match ready with
    | inr false =>
        do! now := do Now in
        Ret (if (t + timeout <=? now)%N then inr (inr false) else inl tt)
    | r => Ret (inr r)
    end) tt.
Definition is_virtual : prog bool := do (Atomic (λ s, (Clocks.is_virtual (w_clock (sh_world s)), s))).
Definition wait (ms : N) : prog (PyResult unit) :=
  entry ;;>
  do! virtual := is_virtual in
  if virtual : bool then Ret (inl (PyRuntimeError "TestWorld requires explicit virtual advance")) else
  if (1000 <? ms)%N then Ret (inl (invalid "driver wait cannot exceed 1000 ms")) else
  wait_python_ready (milliseconds ms) ;;>
  Ret (inr tt).
(** [Option::take] under the mutex. *)
Definition take_runtime : prog bool :=
  do! present := lock_runtime nw in
  on_slot nw tt (λ m, (tt, m <| rm_present := false |>)) ;;>
  unlock_runtime nw false ;;>
  Ret present.
(** Closing the runtime that was taken out, and dropping it. *)
Definition close_runtime (timeout : N) : prog (string + (StopReport * bool)) :=
  do! r := Pipelines.close true false (nw_max_tasks nw) timeout in
  Pipelines.close match r with inl _ => true | inr _ => false end match r with inr (_, b) => b | inl _ => false end
    (nw_max_tasks nw) (milliseconds 100) ;;>
  Ret r.
Definition set_timed_out : prog unit :=
  do (Atomic (λ s, match sh_cells s !! nw_timed_out nw with
                   | Some (Flag _) => (tt, write_cell (nw_timed_out nw) (Flag true) s)
                   | _ => (tt, s)
                   end)).
Definition close (timeout_ms : N) : prog (PyResult object) :=
  entry ;;>
  try! timeout := Ret (duration timeout_ms) in
  try! initial := core_py Actors.close in
  do! present := take_runtime in
  try! _ := (if present then
      try! (report, _) := string_py (close_runtime timeout) in
      (if sp_timed_out report then set_timed_out else Ret tt) ;;>
      Ret (inr tt)
    else Ret (inr tt)) in
  try! report := core_py Actors.close in
  do! timed_out := NativeWorlds.shutdown_timed_out nw in
  Ret (inr (report_dict (report <| sp_discarded ::= N.add (sp_discarded initial) |> <| sp_timed_out ::= λ b, b || timed_out |>))).

(** *** The snapshot *)

(** What is left of the drain of each actor, at a time of its own. *)
Fixpoint actor_dicts (actors : list ActorSnapshot) : prog (list object) :=
  match actors with
  | [] => Ret []
  | a :: actors =>
      do! remaining := match as_drain_deadline a with
        | None => Ret None
        | Some d => do! t := world_now in Ret (Some (millis (d - t)))
        end in
      do! rest := actor_dicts actors in
      Ret (actor_dict a remaining :: rest)
  end.
Definition tasks_of (running : N) : prog N :=
  holding_runtime nw (λ present, Ret (if present : bool then running else 0%N)).
(** [control_tasks] and [routing_tasks]: the services of the runtime that still run. *)
Definition snapshot (control_tasks routing_tasks : N) : prog (PyResult object) :=
  entry ;;>
  try! s := reading Views.snapshot in
  let active_tasks := foldr (λ a n, (as_native_tasks a + n)%N) 0%N (ws_actors s) in
  try! links := core_py Views.links in
  try! services := reading Views.services in
  try! leases := reading Views.service_leases in
  do! actors := actor_dicts (ws_actors s) in
  do! id := Replies.world_id in
  try! schemas := reading (λ w, N.of_nat (size (sr_items (w_schemas w)))) in
  do! control := tasks_of control_tasks in
  do! routing := tasks_of routing_tasks in
  do! cpu := Cpu.stats (nw_cpu nw) in
  Ret (inr (ODict [
    ("links", OList (link_dict <$> links)); ("services", OList (service_dict <$> services));
    ("service_leases", OList (lease_dict <$> leases)); ("id", of_N id); ("native_schemas", of_N schemas);
    ("actors", OList actors); ("metrics", metrics_dict (ws_metrics s));
    ("retained_payload_bytes", of_N (ws_retained_payload_bytes s)); ("publications_pending", of_N (ws_publications_pending s));
    ("publications_retained", of_N (ws_publications_retained s));
    ("routing_snapshot_entries", of_N (ws_routing_snapshot_entries s)); ("subscriptions", of_N (ws_subscriptions s));
    ("operation_pending", of_N (ws_operation_pending s)); ("operation_retained", of_N (ws_operation_retained s));
    ("control_tasks", of_N control); ("routing_tasks", of_N routing); ("cpu", cpu_dict cpu);
    ("active_tasks", of_N active_tasks)]%string)).
End methods.
End RuntimeMethods.
