(* ===== verification/Custody.v ===== *)
(** * Who holds a lease

    A delivery or failure lease is a value that one owner holds: a thread, the table of
    claims or of failure claims of a [NativeWorld], or native code.  [hwp] checks a
    program against the leases its thread holds; programs that check keep the tables in
    order in every interleaving, whatever native code does with its own leases
    ([custody_step]). *)
From S2P Require Import Prelude Collections Text Types Metadata Schema Routing Expiry Readiness Operations.
From S2P Require Import Diagnostics Publications SchemaRegistry Activity WorldState Admission Publishing Actors.
From S2P Require Import Messaging Components Views Steps WorldFrames WorldSteps ActorSteps MessageSteps WorldRuns WorldSlots.
From S2P Require Import Handles HandleRuns Leases.
From S2P Require Import NativeState.
From S2P Require Import Native.
From S2P Require Import NativeLogic.
From S2P Require Import PyWorld.

(** A delivery lease or a failure lease, with its handle. *)
Abbreviation lease := ((N * DeliveryLease) + (N * FailureLease))%type.
Definition name (x : lease) : N + N := match x with inl (h, _) => inl h | inr (h, _) => inr h end.
Definition live_in (w : World) (x : lease) : Prop :=
  match x with inl (h, l) => w_leases w !! h = Some l | inr (h, l) => w_failure_leases w !! h = Some l end.
Lemma live_name w x y : live_in w x → live_in w y → name x = name y → x = y.
Proof. destruct x as [[]|[]], y as [[]|[]]; simpl; intros; simplify_eq; done. Qed.
Lemma live_spared d w w' x : spares d w w' → live_in w x → name x ∉ d → live_in w' x.
Proof. intros [Hl Hf]. destruct x as [[h l]|[h l]]; simpl; eauto. Qed.
Lemma submseteq_nodup {A} (l k : list A) : l ⊆+ k → NoDup k → NoDup l.
Proof. intros (l' & ->)%submseteq_Permutation Hk. by apply NoDup_app in Hk as [? _]. Qed.

(** The actor that is busy with a lease: one lease each. *)
Definition busy_with (x : lease) : ActorRef := match x with inl (_, l) => dl_target l | inr (_, l) => fl_supervisor l end.
Definition kind_of (x : lease) : hold := match x with inl _ => Delivering | inr _ => Controlling end.
Lemma live_handle w x : live_in w x → (0 < Handles.handles w (kind_of x) (busy_with x))%N.
Proof.
  destruct x as [[h l]|[h l]]; simpl; intros Hl.
  - rewrite (owned_delete dl_target _ _ h l Hl), bool_decide_true by done. simpl. lia.
  - rewrite (owned_delete fl_supervisor _ _ h l Hl), bool_decide_true by done. simpl. lia.
Qed.
Lemma live_placed w x :
  hands_wf [] w → live_in w x →
  ∃ a, actor_at w (ar_slot (busy_with x)) = Some a ∧ a_reference a = busy_with x ∧ (0 < busy (kind_of x) a)%N.
Proof.
  intros Hw Hx%live_handle. destruct (hd_held _ _ Hw (kind_of x) (busy_with x)) as (a & Ha & Hr); [lia|]. exists a. split_and!; [done..|].
  pose proof (hd_busy _ _ Hw _ _ (kind_of x) Ha) as Hb. rewrite Hr, debt_nil in Hb. lia.
Qed.
Lemma live_exclusive w x y : hands_wf [] w → live_in w x → live_in w y → busy_with x = busy_with y → x = y.
Proof.
  intros Hw Hx Hy He. destruct (live_placed w x Hw Hx) as (a & Ha & Hra & Hba), (live_placed w y Hw Hy) as (b & Hb & Hrb & Hbb).
  rewrite <- He in Hb. simplify_eq. pose proof (hd_one _ _ Hw _ _ Ha) as Hone. unfold executing in Hone.
  destruct x as [[h l]|[h l]], y as [[h' l']|[h' l']]; simpl in *; try lia.
  - assert (h = h') as -> by (by eapply lease_exclusive). by simplify_eq.
  - destruct (decide (h = h')) as [->|Hne]; [by simplify_eq|]. exfalso.
    pose proof (owned_twice fl_supervisor (fl_supervisor l) _ h h' l l' Hx Hy Hne eq_refl (eq_sym He)) as Htwo.
    pose proof (hd_busy _ _ Hw _ _ Controlling Ha) as Hbusy. rewrite Hra, debt_nil in Hbusy. simpl in Hbusy. lia.
Qed.
Lemma live_bound w l :
  world_reachable w → (∀ x, x ∈ l → live_in w x) → NoDup l → (N.of_nat (length l) ≤ max_actors (w_cfg w))%N.
Proof.
  intros Hr Hl Hnd. pose proof (reachable_hands _ Hr) as Hw. etrans; [|apply (sw_length _ (reachable_slots _ Hr))].
  set (slot := λ x, N.to_nat (ar_slot (busy_with x))).
  enough (length (slot <$> l) ≤ length (seq 0 (length (w_actors w)))) as Hlen by (rewrite length_fmap, length_seq in Hlen; lia).
  apply submseteq_length, NoDup_submseteq.
  - apply NoDup_fmap_2_strong; [|done]. intros x y Hx Hy He. apply (live_exclusive w); [done|auto..|].
    destruct (live_placed w x Hw (Hl _ Hx)) as (a & Ha & <- & _), (live_placed w y Hw (Hl _ Hy)) as (b & Hb & <- & _).
    unfold slot in He. assert (ar_slot (busy_with x) = ar_slot (busy_with y)) as Hs by lia. rewrite Hs in Ha. by simplify_eq.
  - intros i (x & -> & Hx)%list_elem_of_fmap. destruct (live_placed w x Hw (Hl _ Hx)) as (a & Ha & _).
    apply elem_of_seq. apply actor_at_lookup, lookup_lt_Some in Ha. unfold slot. lia.
Qed.

Section custody.
Context (nw : NativeWorld).
Definition claims_in (s : Shared) : claim_table :=
  match sh_cells s !! nw_claims nw with Some (Claims m) => mx_value m | _ => ∅ end.
Definition failures_in (s : Shared) : failure_table :=
  match sh_cells s !! nw_failure_claims nw with Some (FailureClaims m) => mx_value m | _ => ∅ end.
Definition tabled_in (c : claim_table) (f : failure_table) : list lease :=
  ((λ p, inl p.2) <$> map_to_list c) ++ ((λ p, inr p.2) <$> map_to_list f).
Definition tabled (s : Shared) : list lease := tabled_in (claims_in s) (failures_in s).
(** Both tables are there, unpoisoned, under the right tokens. *)
Record tables (s : Shared) (c : claim_table) (f : failure_table) : Prop := {
  ta_claims : sh_cells s !! nw_claims nw = Some (Claims (MkMutex false c));
  ta_failures : sh_cells s !! nw_failure_claims nw = Some (FailureClaims (MkMutex false f));
  ta_token token h l : c !! token = Some (h, l) → lease_event l = token;
  ta_failure_token token h l : f !! token = Some (h, l) → fr_sequence (nt_failure (fl_notification l)) = token;
}.
(** The tables are in order; what is in them and what is in [held] are live leases, each
    in one place. *)
Record sound (s : Shared) (held : list lease) : Prop := {
  so_world : world_reachable (sh_world s);
  so_tables : tables s (claims_in s) (failures_in s);
  so_live x : x ∈ tabled s ++ held → live_in (sh_world s) x;
  so_nodup : NoDup (tabled s ++ held);
}.
(** Leases that are neither in the tables nor in [h] stay live, and what is held
    afterwards was held before or is new. *)
Record passes (s s' : Shared) (h h' : list lease) : Prop := {
  ps_kept : ∃ fresh, tabled s' ++ h' ⊆+ fresh ++ tabled s ++ h ∧ NoDup fresh ∧ ∀ x, x ∈ fresh → ¬ live_in (sh_world s) x;
  ps_others x : live_in (sh_world s) x → x ∉ tabled s ++ h → live_in (sh_world s') x;
}.
Lemma sound_less s h h' : h' ⊆+ h → sound s h → sound s h'.
Proof.
  intros Hh []. split; try done.
  - intros x Hx. apply so_live0. eapply elem_of_submseteq; [done|]. by apply submseteq_skips_l.
  - eapply submseteq_nodup; [|done]. by apply submseteq_skips_l.
Qed.
Lemma sound_frame s s' h h' rest : sound s (h ++ rest) → passes s s' h h' → sound s' h' → sound s' (h' ++ rest).
Proof.
  intros Hs [(fresh & Hsub & Hfr & Hnew) Ho] Hs'. pose proof (so_nodup _ _ Hs) as Hnd. pose proof (so_live _ _ Hs) as Hl.
  rewrite app_assoc in Hnd. apply NoDup_app in Hnd as (Hnd & Hrest & Hnr).
  split; try apply Hs'.
  - intros x. rewrite app_assoc, elem_of_app. intros [Hx|Hx]; [by apply Hs'|].
    apply Ho; [apply Hl; set_solver|]. intros Hin. by eapply Hrest.
  - eapply (submseteq_nodup _ (fresh ++ (tabled s ++ h) ++ rest)); swap 1 2.
    + apply NoDup_app. split_and!; [done| |].
      * intros x Hx Hin. apply (Hnew x Hx), Hl. set_solver.
      * apply NoDup_app. split_and!; done.
    + rewrite !app_assoc. apply submseteq_skips_r. by rewrite <- app_assoc.
Qed.
(** What a step has to show. *)
Lemma transfer s s' c f h h' d fresh :
  sound s h → world_reachable (sh_world s') → tables s' c f →
  tabled_in c f ++ h' ⊆+ fresh ++ tabled s ++ h → NoDup fresh →
  (∀ x, x ∈ fresh → ¬ live_in (sh_world s) x) → (∀ x, x ∈ tabled_in c f ++ h' → live_in (sh_world s') x) →
  spares d (sh_world s) (sh_world s') → (∀ i, i ∈ d → ∃ x, name x = i ∧ x ∈ tabled s ++ h) →
  sound s' h' ∧ passes s s' h h'.
Proof.
  intros Hs Hw Ht Hsub Hfr Hnew Hlive Hsp Hheld.
  assert (claims_in s' = c) as Hc by (unfold claims_in; by rewrite (ta_claims _ _ _ Ht)).
  assert (failures_in s' = f) as Hf by (unfold failures_in; by rewrite (ta_failures _ _ _ Ht)).
  assert (tabled s' = tabled_in c f) as Htab by (unfold tabled; by rewrite Hc, Hf).
  split; split.
  - done.
  - by rewrite Hc, Hf.
  - by rewrite Htab.
  - rewrite Htab. eapply submseteq_nodup; [done|]. apply NoDup_app. split_and!; [done| |apply Hs].
    intros x Hx Hin. by apply (Hnew x Hx), Hs.
  - exists fresh. by rewrite Htab.
  - intros x Hx Hn. eapply live_spared; [done..|]. intros Hin. destruct (Hheld _ Hin) as (y & Hy & Hyin). apply Hn.
    by rewrite <- (live_name _ y x (so_live _ _ Hs _ Hyin) Hx Hy).
Qed.
Lemma tables_kept s s' c f :
  tables s c f → sh_cells s' !! nw_claims nw = sh_cells s !! nw_claims nw →
  sh_cells s' !! nw_failure_claims nw = sh_cells s !! nw_failure_claims nw → tables s' c f.
Proof. intros [] Hc Hf. split; [by rewrite Hc|by rewrite Hf|done..]. Qed.
(** A step that moves no lease. *)
Lemma transfer_still s s' h :
  sound s h → world_reachable (sh_world s') → spares [] (sh_world s) (sh_world s') →
  sh_cells s' !! nw_claims nw = sh_cells s !! nw_claims nw →
  sh_cells s' !! nw_failure_claims nw = sh_cells s !! nw_failure_claims nw → sound s' h ∧ passes s s' h h.
Proof.
  intros Hs Hw Hsp Hc Hf. apply (transfer s s' (claims_in s) (failures_in s) h h [] []); try done; [|constructor|..].
  - by eapply tables_kept; [apply Hs|..].
  - by intros x ?%elem_of_nil.
  - intros x Hx. eapply live_spared; [done|by apply Hs|by apply not_elem_of_nil].
  - by intros x ?%elem_of_nil.
Qed.

(** ** Programs *)
Definition act_hwp {A} (a : act A) (h : list lease) : (A → list lease → Prop) → Prop :=
  match a in act A return (A → list lease → Prop) → Prop with
  | Atomic f => λ K, ∀ s, sh_poisoned s = false → sound s h →
      sh_poisoned (f s).2 = true ∨ ∃ h', sound (f s).2 h' ∧ passes s (f s).2 h h' ∧ K (f s).1 h'
  | FetchAdd _ | FetchSub _ | Release _ _ | Close _ | Uncharge _ _ => λ K, K tt h
  | LoadCounter _ | AvailablePermits _ | NewPool _ | NewBudget _ | UsedBytes _ | Now => λ K, ∀ n, K n h
  | TryAcquire _ _ | Charge _ _ | Choose | Await => λ K, ∀ b, K b h
  | PollAcquire _ => λ K, ∀ p, K p h
  end.
Fixpoint hwp {A} (p : prog A) : list lease → (A → list lease → Prop) → (halt → list lease → Prop) → Prop :=
  match p in prog A return list lease → (A → list lease → Prop) → (halt → list lease → Prop) → Prop with
  | Ret a => λ h Q E, Q a h
  | Halt why => λ h Q E, E why h
  | Do a k => λ h Q E, act_hwp a h (λ b h, hwp (k b) h Q E)
  | Spawn task k => λ h Q E, hwp task [] (λ _ _, True) (λ _ _, True) ∧ hwp k h Q E
  | @Loop St _ _ body s k => λ h Q E, ∃ I : St → list lease → Prop, I s h ∧
      ∀ s h, I s h → hwp (body s) h (λ r h, match r with inl s => I s h | inr a => hwp (k a) h Q E end) E
  end.
Lemma act_hwp_mono {A} (a : act A) h (K K' : A → list lease → Prop) :
  (∀ b h, K b h → K' b h) → act_hwp a h K → act_hwp a h K'.
Proof.
  intros HK. destruct a; cbn [act_hwp]; auto. intros H s Hp Hs. destruct (H s Hp Hs) as [?|(h' & ? & ? & ?)]; [by left|]. right. eauto.
Qed.
Lemma hwp_mono {A} (p : prog A) h (Q Q' : A → list lease → Prop) (E E' : halt → list lease → Prop) :
  (∀ a h, Q a h → Q' a h) → (∀ w h, E w h → E' w h) → hwp p h Q E → hwp p h Q' E'.
Proof.
  revert h Q Q' E E'. induction p as [| |A B a k IH|A task _ k IH|S A B body IHb s k IHk]; intros h Q Q' E E' HQ HE; cbn [hwp]; intros H.
  - auto.
  - auto.
  - eapply act_hwp_mono; [|exact H]. intros. eapply IH; eauto.
  - destruct H as [Ht H]. split; [done|]. eapply IH; eauto.
  - destruct H as (I & HI & Hbody). exists I. split; [done|]. intros s' h' HI'.
    eapply IHb; [..|apply Hbody, HI']; [|done]. intros [s2|a] h2; [done|]. intros. eapply IHk; eauto.
Qed.
Lemma hwp_bind {A B} (m : prog A) (f : A → prog B) h Q E : hwp m h (λ a h, hwp (f a) h Q E) E → hwp (pbind m f) h Q E.
Proof.
  revert B f h Q E. induction m as [| |A A' a k IH|A task _ k IH|S A A' body IHb s k IHk]; intros B f h Q E; cbn [hwp pbind]; intros H; try done.
  - eapply act_hwp_mono; [|exact H]. intros. by apply IH.
  - destruct H as [Ht H]. split; [done|]. by apply IH.
  - destruct H as (I & HI & Hbody). exists I. split; [done|]. intros s' h' HI'.
    eapply hwp_mono; [| |apply Hbody, HI']; [|done]. intros [s2|a] h2; [done|]. apply IHk.
Qed.
Lemma hwp_caught {A} (m : prog A) h Q E E' :
  hwp m h Q E → hwp (caught m) h (λ r h, match r with inr a => Q a h | inl w => E w h end) E'.
Proof.
  revert h Q E E'. induction m as [| |A A' a k IH|A task _ k IH|S A A' body IHb s k IHk]; intros h Q E E'; cbn [hwp caught]; intros H; try done.
  - eapply act_hwp_mono; [|exact H]. intros. by apply IH.
  - destruct H as [Ht H]. split; [done|]. by apply IH.
  - destruct H as (I & HI & Hbody). exists I. split; [done|]. intros s' h' HI'. apply hwp_bind.
    eapply hwp_mono; [| |eapply (IHb s' h'), Hbody, HI']; [|done].
    intros [w|[s2|a]] h2 H2; cbn [hwp]; try done. apply IHk, H2.
Qed.

(** ** A bridge

    Threads of Python that run programs, the state they share, and the leases native code
    holds.  Native code makes calls of the World that end no leases but its own, writes
    everything else but the two tables, and may panic while it holds the lock. *)
Definition bridge : Type := list (prog unit) * Runtime * list lease.
Record handed (w w' : World) (d d' : list lease) : Prop := {
  ho_live x : x ∈ d' → live_in w' x;
  ho_nodup : NoDup d';
  ho_new x : x ∈ d' → x ∈ d ∨ ¬ live_in w x;
}.
Inductive bridge_step : bridge → bridge → Prop :=
| bs_python ts ts' r r' d :
    rt_step (ts, r) (ts', r') → bridge_step (ts, r, d) (ts', r', d)
| bs_call ts r d c w' d' :
    sh_poisoned (rt_shared r) = false → run_call c (sh_world (rt_shared r)) = Some w' →
    (∀ i, i ∈ ended c → ∃ x, name x = i ∧ x ∈ d) → handed (sh_world (rt_shared r)) w' d d' →
    bridge_step (ts, r, d) (ts, r <| rt_shared ::= λ s, s <| sh_world := w' |> |>, d')
| bs_runtime ts r r' d :
    sh_world (rt_shared r') = sh_world (rt_shared r) → sh_poisoned (rt_shared r') = sh_poisoned (rt_shared r) →
    (∀ i, i = nw_claims nw ∨ i = nw_failure_claims nw → sh_cells (rt_shared r') !! i = sh_cells (rt_shared r) !! i) →
    bridge_step (ts, r, d) (ts, r', d)
| bs_panic ts r r' d : sh_poisoned (rt_shared r') = true → bridge_step (ts, r, d) (ts, r', d).
Definition safe (p : prog unit) (h : list lease) : Prop := hwp p h (λ _ _, True) (λ _ _, True).
Definition custody (b : bridge) : Prop :=
  let '(ts, r, d) := b in
  sh_poisoned (rt_shared r) = true ∨ ∃ hs, Forall2 safe ts hs ∧ sound (rt_shared r) (d ++ concat hs).

Lemma split_either {A} (P Q : A → Prop) l :
  (∀ x, x ∈ l → P x ∨ Q x) → ∃ l1 l2, l ≡ₚ l1 ++ l2 ∧ (∀ x, x ∈ l1 → P x) ∧ (∀ x, x ∈ l2 → Q x).
Proof.
  induction l as [|x l IH]; intros H; [exists [], []; split_and!; [done|by intros ? ?%elem_of_nil..]|].
  destruct IH as (l1 & l2 & Hl & H1 & H2); [intros; apply H; by right|]. destruct (H x) as [Hx|Hx]; [left|..].
  - exists (x :: l1), l2. split_and!; [by rewrite Hl|intros y [->|?]%elem_of_cons; auto|done].
  - exists l1, (x :: l2). split_and!; [by rewrite Hl, Permutation_middle|done|intros y [->|?]%elem_of_cons; auto].
Qed.
Lemma sound_perm s h h' : h ≡ₚ h' → sound s h → sound s h'.
Proof. intros Hp. apply sound_less. by rewrite Hp. Qed.
Lemma run_act_poisoned oracle {A} (a : act A) r :
  sh_poisoned (rt_shared r) = true → sh_poisoned (rt_shared (run_act oracle a r).2) = true.
Proof.
  intros Hp. destruct a; cbn [run_act]; repeat case_match; try done.
  cbn. rewrite Hp. by destruct (sh_poisoned _).
Qed.
Lemma step_poisoned oracle {A} (p : prog A) r p' r' tasks :
  step oracle p r = Some (p', r', tasks) → sh_poisoned (rt_shared r) = true → sh_poisoned (rt_shared r') = true.
Proof.
  destruct p; cbn [step]; intros Hs Hp; simplify_eq; try done.
  pose proof (run_act_poisoned oracle a r Hp) as Ha. destruct (run_act oracle a r). by simplify_eq.
Qed.
Lemma act_step oracle {A} (a : act A) r h rest (K : A → list lease → Prop) :
  sh_poisoned (rt_shared r) = false → sound (rt_shared r) (h ++ rest) → act_hwp a h K →
  let '(b, r') := run_act oracle a r in
  sh_poisoned (rt_shared r') = true ∨ ∃ h', sound (rt_shared r') (h' ++ rest) ∧ K b h'.
Proof.
  intros Hp Hs HK. destruct a; cbn [act_hwp run_act] in *.
  { assert (sound (rt_shared r) h) as Hh by (eapply sound_less, Hs; apply submseteq_inserts_r; reflexivity).
    destruct (HK _ Hp Hh) as [Hpo|(h' & Hs' & Hpass & HK')].
    - destruct (f (rt_shared r)) as [b sh]. left. cbn in *. rewrite Hpo. by destruct (sh_poisoned _).
    - pose proof (sound_frame _ _ _ _ _ Hs Hpass Hs') as Hsf.
      destruct (f (rt_shared r)) as [b sh]. right. exists h'. split; [|done]. cbn in *. rewrite Hp. by destruct sh. }
  all: repeat case_match; simplify_eq; right; exists h; auto.
Qed.
Lemma hwp_step oracle {A} (p : prog A) r p' r' tasks h rest Q E :
  sh_poisoned (rt_shared r) = false → sound (rt_shared r) (h ++ rest) → hwp p h Q E →
  step oracle p r = Some (p', r', tasks) →
  sh_poisoned (rt_shared r') = true ∨ ∃ h' hs, hwp p' h' Q E ∧ Forall2 safe tasks hs ∧ concat hs = [] ∧ sound (rt_shared r') (h' ++ rest).
Proof.
  intros Hp Hs Hw Hst. destruct p; cbn [step hwp] in *; simplify_eq.
  - pose proof (act_step oracle a r h rest _ Hp Hs Hw) as Ha. destruct (run_act oracle a r) as [b r1]. simplify_eq.
    destruct Ha as [?|(h' & Hs' & HK)]; [by left|]. right. exists h', []. by split_and!.
  - right. exists h, [[]]. destruct Hw as [Ht Hk]. split_and!; [done|by constructor|done|done].
  - right. destruct Hw as (I & HI & Hbody). exists h, []. split; [|by split_and!]. apply hwp_bind.
    eapply hwp_mono; [| |apply Hbody, HI]; [|done]. intros [s2|a2] h2 H2; [|done]. cbn [hwp]. exists I. by split.
Qed.
Lemma sound_call s w' c h h' :
  sound s h → run_call c (sh_world s) = Some w' → (∀ i, i ∈ ended c → ∃ x, name x = i ∧ x ∈ h) →
  handed (sh_world s) w' h h' → sound (s <| sh_world := w' |>) h' ∧ passes s (s <| sh_world := w' |>) h h'.
Proof.
  intros Hs Hc He [Hlive Hnd Hnew]. destruct (call_effect _ _ _ (so_world _ _ Hs) Hc) as [Hsp _].
  destruct (split_either _ _ _ Hnew) as (old & fresh & Hp & Hold & Hfresh). rewrite Hp in Hnd. apply NoDup_app in Hnd as (Hndo & _ & Hndf).
  pose proof (so_nodup _ _ Hs) as Hn. apply NoDup_app in Hn as (_ & Hdis & _).
  apply (transfer s _ (claims_in s) (failures_in s) h h' (ended c) fresh); try done.
  - eapply reachable_call, Hc. apply Hs.
  - by eapply tables_kept; [apply Hs|..].
  - fold (tabled s). rewrite Hp. trans (fresh ++ tabled s ++ old).
    + by rewrite app_assoc, (Permutation_app_comm fresh).
    + do 2 apply submseteq_skips_l. by apply NoDup_submseteq.
  - fold (tabled s). intros x [Hx|Hx]%elem_of_app; [|by apply Hlive]. assert (x ∈ tabled s ++ h) as Hx' by set_solver.
    eapply live_spared; [done|by apply Hs|]. intros Hin. destruct (He _ Hin) as (y & Hy & Hyin).
    rewrite (live_name (sh_world s) y x) in Hyin; [by eapply Hdis|apply Hs; set_solver|by apply Hs|done].
  - intros i Hi. destruct (He i Hi) as (x & Hx & Hin). exists x. split; [done|set_solver].
Qed.
Lemma custody_step b b' : bridge_step b b' → custody b → custody b'.
Proof.
  intros Hst. destruct Hst as [ts ts' r r' d Hst|ts r d c w' d' Hp Hc He Hh|ts r r' d Hw Hp Hcells|ts r r' d Hp]; cbn [custody].
  - intros [Hp|(hs & Hall & Hs)].
    { left. inversion Hst as [? ? i p oracle p' ? tasks Hi Hstep|]; subst; [by eapply step_poisoned|done]. }
    inversion Hst as [? ? i p oracle p' ? tasks Hi Hstep|]; subst; [|right; eauto].
    destruct (sh_poisoned (rt_shared r)) eqn:Hp; [left; by eapply step_poisoned|].
    destruct (Forall2_lookup_l _ _ _ _ _ Hall Hi) as (h & Hhi & Hw).
    eapply (sound_perm _ _ (h ++ concat (delete i hs) ++ d)) in Hs.
    2: { rewrite (concat_delete _ _ _ Hhi). rewrite !app_assoc. rewrite (Permutation_app_comm d). by rewrite <- !app_assoc, (Permutation_app_comm d). }
    destruct (hwp_step _ _ _ _ _ _ _ _ _ _ Hp Hs Hw Hstep) as [?|(h' & hs' & Hw' & Htasks & Hnil & Hs')]; [by left|].
    right. exists (<[i:=h']> hs ++ hs'). split.
    + apply Forall2_app; [|done]. by apply Forall2_insert.
    + eapply sound_perm; [|exact Hs']. rewrite concat_app, Hnil, app_nil_r, (concat_insert _ _ _ _ Hhi).
      rewrite (Permutation_app_comm d). by rewrite <- app_assoc.
  - intros [Hp'|(hs & Hall & Hs)]; [congruence|]. right. exists hs. split; [done|].
    assert (sound (rt_shared r) d) as Hd by (eapply sound_less, Hs; apply submseteq_inserts_r; reflexivity).
    destruct (sound_call _ _ _ _ _ Hd Hc He Hh) as [Hs' Hpass]. by eapply (sound_frame _ _ _ _ _ Hs).
  - intros [?|(hs & Hall & Hs)]; [left; congruence|]. right. exists hs. split; [done|].
    eapply transfer_still; [exact Hs|rewrite Hw; apply Hs|by rewrite Hw; apply spares_same|apply Hcells; auto..].
  - by left.
Qed.
End custody.
