(* ===== verification/PyClaims.v ===== *)
(** * What Python claims is claimed

    [runtime-python/src/lib.rs]: the tables of a [NativeWorld] hold exactly leases that
    are live.  Most methods move no lease ([harmless]); a claim takes one and puts it in a
    table, [finish] takes it out and ends it; so do programs made of such calls
    ([script], [tidy_script]). *)
From S2P Require Import Prelude Collections Text Types Metadata Schema Routing Expiry Readiness Operations.
From S2P Require Import Diagnostics Publications SchemaRegistry Activity WorldState Admission Publishing Actors.
From S2P Require Import Messaging Components Views Steps WorldFrames WorldSteps ActorSteps MessageSteps WorldRuns WorldSlots.
From S2P Require Import Handles HandleRuns Leases.
From S2P Require Import NativeConfig.
From S2P Require Import NativeState.
From S2P Require Import Native.
From S2P Require Import NativeLogic.
From S2P Require Import Cpu.
From S2P Require Import Tasks.
From S2P Require Import PyObjects.
From S2P Require Import PySchemas.
From S2P Require Import PyEnvelopes.
From S2P Require Import PyValues.
From S2P Require Import PyReports.
From S2P Require Import PyWorld.
From S2P Require Import PyRuntime.
From S2P Require Import Custody.

Create HintDb plain.
Create HintDb harmless.

(** ** Calls of the World that end no lease *)
Definition plain {E A} (m : M World E A) : Prop :=
  ∀ w, world_reachable w →
    match m w with (Panic, _) => True | (_, w') => world_reachable w' ∧ spares [] w w' end.
Lemma plain_call {E A} c (m : M World E A) : run_call c = after m → ended c = [] → plain m.
Proof.
  intros Hc He w Hw. assert (∀ o w', m w = (o, w') → is_panic o = false → run_call c w = Some w') as Hrun.
  { intros o w' Hm Ho. rewrite Hc. unfold after. rewrite Hm. by destruct o. }
  assert (∀ w', run_call c w = Some w' → world_reachable w' ∧ spares [] w w') as H.
  { intros w' Hw'. split; [by eapply reachable_call|]. rewrite <- He. by eapply call_effect. }
  destruct (m w) as [[a|e|] w']; [by eapply H, Hrun..|done].
Qed.
Lemma plain_read {E A} (m : M World E A) : steps eq m → plain m.
Proof. intros Hm w Hw. specialize (Hm w). destruct (m w) as [[] w']; simpl in Hm; subst; [by split|by split|done]. Qed.
Tactic Notation "plain_as" uconstr(c) := refine (plain_call c _ eq_refl eq_refl).
Ltac plain := solve
  [ plain_as (CAllocate _ _) | plain_as (CActivate _) | plain_as (CStop _) | plain_as CClose | plain_as (CRequestDrain _ _)
  | plain_as (CDrainAll _) | plain_as (CFinishPython _) | plain_as (CRegisterSchemas _) | plain_as (CRegisterComponent _ _)
  | plain_as (CSend _ _ _) | plain_as (CRequest _ _ _ _ _) | plain_as (CCompleteOperation _ _ _ _) | plain_as (CCancelOperation _)
  | plain_as (COperationStatus _) | plain_as (CTakeOperation _) | plain_as (CSubscribe _ _) | plain_as (CUnsubscribe _)
  | plain_as (CLink _ _ _) | plain_as (CPublishPort _ _ _) | plain_as (CSendPort _ _ _) | plain_as (CRegisterService _ _ _)
  | plain_as (CAcquireService _ _ _) | plain_as (CAcquireServiceFrom _ _ _ _) | plain_as (CReleaseService _)
  | plain_as (CServicePort _ _ _) | plain_as (CServiceSource _ _) | plain_as (CRequestPort _ _ _ _ _ _) | plain_as (CReportFailure _ _ _ _ _ _) | plain_as (CHold _ _) | apply plain_read; by intros ? ].
Lemma read_check_ref r : steps eq (check_ref r).
Proof. intros w. unfold check_ref. by destruct (find_ref w r). Qed.
Ltac reads := apply plain_read; repeat
  match goal with
  | |- steps eq (bind _ _) => apply (steps_bind eq); [|intros ?]
  | |- steps eq (check_ref _) => apply read_check_ref
  | |- steps eq (match ?c with _ => _ end) => destruct c
  | |- steps eq ?m => first [by intros ?|let h := head_of m in unfold h]
  end.
Lemma plain_structured id bytes : plain (structured id bytes).
Proof. unfold structured. reads. Qed.
Lemma plain_state r : plain (Views.state r).
Proof. unfold Views.state. reads. Qed.
Lemma plain_component r : plain (Views.component r).
Proof. unfold Views.component. reads. Qed.
Lemma plain_cutoff : plain python_ready_cutoff.
Proof. unfold python_ready_cutoff. reads. Qed.
Lemma plain_next phase after through : plain (python_ready_next phase after through).
Proof. unfold python_ready_next. reads. Qed.
Lemma plain_report r : plain (report_locked r).
Proof. by apply plain_read. Qed.
Lemma plain_gets {E A} (f : World → A) : plain (gets (E:=E) f).
Proof. by apply plain_read. Qed.
Lemma plain_history after limit : plain (diagnostics_read after limit).
Proof. unfold diagnostics_read. reads. Qed.
Lemma plain_port r name : plain (Ports.port r name).
Proof. unfold Ports.port. reads. Qed.
Lemma plain_require r required : plain (Ports.require_interface r required).
Proof. unfold Ports.require_interface. reads. Qed.
Lemma plain_links : plain Views.links.
Proof. unfold Views.links. reads. Qed.

(** ** Rules *)
Section rules.
Context (nw : NativeWorld).
#[local] Abbreviation hwp := (hwp nw).
#[local] Abbreviation sound := (sound nw).
Definition harmless {A} (p : prog A) : Prop := ∀ h Q E, (∀ a, Q a h) → (∀ why, E why h) → hwp p h Q E.

Lemma harmless_ret {A} (a : A) : harmless (Ret a).
Proof. intros h Q E HQ _. apply HQ. Qed.
Lemma harmless_halt {A} why : harmless (Halt (A:=A) why).
Proof. intros h Q E _ HE. apply HE. Qed.
Lemma harmless_bind {A B} (m : prog A) (k : A → prog B) : harmless m → (∀ a, harmless (k a)) → harmless (pbind m k).
Proof. intros Hm Hk h Q E HQ HE. apply hwp_bind, Hm; [|done]. intros a. by apply Hk. Qed.
Lemma harmless_rbind {E A B} (m : prog (E + A)) (k : A → prog (E + B)) : harmless m → (∀ a, harmless (k a)) → harmless (rbind m k).
Proof. intros Hm Hk. apply harmless_bind; [done|]. intros [e|a]; [apply harmless_ret|apply Hk]. Qed.
Lemma harmless_caught {A} (m : prog A) : harmless m → harmless (caught m).
Proof. intros Hm h Q E HQ HE. eapply hwp_mono; [| |apply hwp_caught, (Hm h (λ a h, Q (inr a) h) (λ why h, Q (inl why) h)); auto]; [|exact (λ _ _ H, H)]. by intros [] ?. Qed.
Lemma harmless_loop {S A} (body : S → prog (S + A)) s : (∀ s, harmless (body s)) → harmless (loop body s).
Proof.
  intros Hb h Q E HQ HE. exists (λ _ h', h' = h). split; [done|]. intros s' h' ->. apply Hb; [|done].
  intros [s2|a]; [done|apply HQ].
Qed.
Lemma harmless_spawn {A} task (k : prog A) : harmless task → harmless k → harmless (Spawn task k).
Proof. intros Ht Hk h Q E HQ HE. split; [by apply Ht|by apply Hk]. Qed.
Definition is_atomic {A} (a : act A) : bool := match a with Atomic _ => true | _ => false end.
Lemma harmless_act {A} (a : act A) : is_atomic a = false → harmless (do a).
Proof. intros Ha h Q E HQ HE. destruct a; simpl in *; try done; intros; apply HQ. Qed.
(** A section that leaves the leases and the tables alone. *)
Lemma harmless_shared {A} (f : Shared → A * Shared) :
  (∀ s h, sound s h → world_reachable (sh_world (f s).2) ∧ spares [] (sh_world s) (sh_world (f s).2) ∧
    sh_cells (f s).2 !! nw_claims nw = sh_cells s !! nw_claims nw ∧
    sh_cells (f s).2 !! nw_failure_claims nw = sh_cells s !! nw_failure_claims nw) → harmless (do (Atomic f)).
Proof.
  intros Hf h Q E HQ HE s Hp Hs. destruct (Hf s h Hs) as (Hw & Hsp & Hc & Hfc). right. exists h.
  destruct (transfer_still nw s (f s).2 h) as [Hs' Hpass]; [done..|]. split; [done|]. split; [done|]. apply HQ.
Qed.
Lemma harmless_look {A} (f : Shared → A) : harmless (do (Atomic (λ s, (f s, s)))).
Proof. apply harmless_shared. intros s h Hs. split_and!; [apply Hs|by apply spares_same|done..]. Qed.
(** A cell of another kind is not one of the tables. *)
Definition is_table (c : cell) : bool := match c with Claims _ | FailureClaims _ => true | _ => false end.
Lemma harmless_write {A} (f : Shared → A * Shared) :
  (∀ s, (f s).2 = s ∨ ∃ id c c0, (f s).2 = write_cell id c s ∧ sh_cells s !! id = Some c0 ∧ is_table c0 = false) →
  harmless (do (Atomic f)).
Proof.
  intros Hf. apply harmless_shared. intros s h Hs. destruct (so_tables _ _ _ Hs) as [Hc Hfc _ _].
  destruct (Hf s) as [->|(id & c & c0 & -> & Hid & Hk)]; [split_and!; [apply Hs|by apply spares_same|done..]|].
  simpl. rewrite !lookup_insert_ne by (intros ->; by simplify_eq). split_and!; [apply Hs|by apply spares_same|done..].
Qed.

(** Calls of the World. *)
Lemma hwp_world {Err A} (m : M World Err A) h Q E :
  (∀ s, sound s h →
    match m (sh_world s) with
    | (Panic, _) => True
    | (o, w') => ∃ h', sound (s <| sh_world := w' |>) h' ∧ passes nw s (s <| sh_world := w' |>) h h' ∧
        match o with Ok a => Q (inr a) h' | Err e => Q (inl e) h' | Panic => True end
    end) → hwp (on_world m) h Q E.
Proof.
  intros Hm s Hp Hs. specialize (Hm s Hs). unfold locked. rewrite Hp.
  destruct (m (sh_world s)) as [[a|e|] w']; [..|by left]; right; simpl;
    destruct Hm as (h' & Hs' & Hpass & HQ); exists h'; cbn; rewrite <- Hp; by destruct s.
Qed.
Lemma harmless_world {Err A} (m : M World Err A) : plain m → harmless (on_world m).
Proof.
  intros Hm h Q E HQ HE. apply hwp_world. intros s Hs. specialize (Hm _ (so_world _ _ _ Hs)).
  destruct (m (sh_world s)) as [[a|e|] w']; [..|done]; destruct Hm as [Hw Hsp]; exists h;
    destruct (transfer_still nw s (s <| sh_world := w' |>) h) as [Hs' Hpass]; auto.
Qed.

(** The tables. *)
Lemma apart s h : sound s h → nw_claims nw ≠ nw_failure_claims nw.
Proof. intros Hs He. destruct (so_tables _ _ _ Hs) as [Hc Hf _ _]. rewrite He in Hc. by simplify_eq. Qed.
Lemma hwp_under {T A} look make id (f : T → Shared → (outcome unit A * T) * Shared) (t : Shared → T) h Q E :
  (∀ s, sound s h → sh_cells s !! id ≫= look = Some (MkMutex false (t s))) →
  (∀ s, sh_poisoned s = false → sound s h →
    let '((o, t'), s') := f (t s) s in
    sh_poisoned s' = true ∨ ∃ a h', o = Ok a ∧ Q a h' ∧
      sound (write_cell id (make (MkMutex false t')) s') h' ∧ passes nw s (write_cell id (make (MkMutex false t')) s') h h') →
  hwp (under look make id f) h Q E.
Proof.
  intros Hlook Hf s Hp Hs. rewrite (Hlook s Hs). specialize (Hf s Hp Hs). destruct (f (t s) s) as [[o t'] s'].
  destruct Hf as [Hpo|(a & h' & -> & HQ & Hs' & Hpass)]; [by left|]. right. by exists h'.
Qed.
Lemma claims_written s s' c h :
  sound s h → sh_cells s' = sh_cells s → (∀ token i l, c !! token = Some (i, l) → lease_event l = token) →
  tables nw (write_cell (nw_claims nw) (Claims (MkMutex false c)) s') c (failures_in nw s).
Proof.
  intros Hs Hc Ht. destruct (so_tables _ _ _ Hs) as [_ Hf _ Hft]. split; simpl; rewrite ?Hc.
  - apply lookup_insert_eq.
  - by rewrite lookup_insert_ne by by eapply apart.
  - done.
  - done.
Qed.
Lemma failures_written s s' f h :
  sound s h → sh_cells s' = sh_cells s → (∀ token i l, f !! token = Some (i, l) → fr_sequence (nt_failure (fl_notification l)) = token) →
  tables nw (write_cell (nw_failure_claims nw) (FailureClaims (MkMutex false f)) s') (claims_in nw s) f.
Proof.
  intros Hs Hc Ht. destruct (so_tables _ _ _ Hs) as [Hf _ Hft _]. split; simpl; rewrite ?Hc.
  - by rewrite lookup_insert_ne by (apply not_eq_sym; by eapply apart).
  - apply lookup_insert_eq.
  - done.
  - done.
Qed.
(** A section that moves leases between a table and the thread. *)
Lemma rewritten s s' c f h h' :
  sound s h → sh_world s' = sh_world s → tables nw s' c f → tabled_in c f ++ h' ≡ₚ tabled nw s ++ h →
  sound s' h' ∧ passes nw s s' h h'.
Proof.
  intros Hs Hw Ht Hp. apply (transfer nw s s' c f h h' [] []); try done.
  - rewrite Hw. apply Hs.
  - by rewrite Hp.
  - constructor.
  - by intros x ?%elem_of_nil.
  - intros x Hx. rewrite Hw. apply Hs. by rewrite <- Hp.
  - rewrite Hw. by apply spares_same.
  - by intros x ?%elem_of_nil.
Qed.
Lemma look_claims s h : sound s h → sh_cells s !! nw_claims nw ≫= as_claims = Some (MkMutex false (claims_in nw s)).
Proof. intros Hs. by rewrite (ta_claims _ _ _ _ (so_tables _ _ _ Hs)). Qed.
Lemma look_failures s h : sound s h → sh_cells s !! nw_failure_claims nw ≫= as_failures = Some (MkMutex false (failures_in nw s)).
Proof. intros Hs. by rewrite (ta_failures _ _ _ _ (so_tables _ _ _ Hs)). Qed.
Lemma tabled_claim c f token (x : N * DeliveryLease) :
  c !! token = Some x → tabled_in c f ≡ₚ inl x :: tabled_in (delete token c) f.
Proof. intros Hx. unfold tabled_in. by rewrite <- (map_to_list_delete c token x Hx). Qed.
Lemma tabled_failure c f token (x : N * FailureLease) :
  f !! token = Some x → tabled_in c f ≡ₚ inr x :: tabled_in c (delete token f).
Proof. intros Hx. unfold tabled_in. rewrite <- (map_to_list_delete f token x Hx). by rewrite fmap_cons, Permutation_middle. Qed.
Lemma harmless_claims {A} (f : claim_table → Shared → (outcome unit A * claim_table) * Shared) :
  (∀ t s, ∃ a, f t s = ((Ok a, t), s)) → harmless (NativeWorlds.on_claims nw f).
Proof.
  intros Hf h Q E HQ HE. apply (hwp_under _ _ _ _ (claims_in nw)); [by intros s ?%look_claims|]. intros s Hp Hs.
  destruct (Hf (claims_in nw s) s) as [a ->]. right. exists a, h. split; [done|]. split; [done|].
  eapply rewritten; [done|done|by eapply claims_written; [done..|exact (ta_token _ _ _ _ (so_tables _ _ _ Hs))]|done].
Qed.
Lemma removing_token {V} (e : V → N) token (t : gmap N (N * V)) :
  (∀ k i l, t !! k = Some (i, l) → e l = k) → ∀ k i l, delete token t !! k = Some (i, l) → e l = k.
Proof. intros Ht k i l [_ H]%lookup_delete_Some. by eapply Ht. Qed.
Lemma hwp_remove_claim token (Q : option (N * DeliveryLease) → list lease → Prop) E :
  Q None [] → (∀ x, Q (Some x) [inl x]) → hwp (NativeWorlds.on_claims nw (pure_section (removing token))) [] Q E.
Proof.
  intros HN HS. apply (hwp_under _ _ _ _ (claims_in nw)); [by intros s ?%look_claims|]. intros s Hp Hs. cbn. right.
  pose proof (removing_token _ token _ (ta_token _ _ _ _ (so_tables _ _ _ Hs))) as Htok.
  pose proof (claims_written s s _ _ Hs eq_refl Htok) as Ht.
  destruct (claims_in nw s !! token) as [x|] eqn:Hx; eexists _, _; (split; [reflexivity|]).
  - split; [apply HS|]. eapply rewritten; [done|done|done|]. unfold tabled. rewrite (tabled_claim _ _ _ _ Hx), app_nil_r.
    by rewrite (Permutation_app_comm _ [_]).
  - split; [apply HN|]. eapply rewritten; [done|done|done|]. by rewrite delete_id.
Qed.
Lemma hwp_remove_failure token (Q : option (N * FailureLease) → list lease → Prop) E :
  Q None [] → (∀ x, Q (Some x) [inr x]) → hwp (NativeWorlds.on_failures nw (pure_section (removing token))) [] Q E.
Proof.
  intros HN HS. apply (hwp_under _ _ _ _ (failures_in nw)); [by intros s ?%look_failures|]. intros s Hp Hs. cbn. right.
  pose proof (removing_token (λ l, fr_sequence (nt_failure (fl_notification l))) token _ (ta_failure_token _ _ _ _ (so_tables _ _ _ Hs))) as Htok.
  pose proof (failures_written s s _ _ Hs eq_refl Htok) as Ht.
  destruct (failures_in nw s !! token) as [x|] eqn:Hx; eexists _, _; (split; [reflexivity|]).
  - split; [apply HS|]. eapply rewritten; [done|done|done|]. unfold tabled. rewrite (tabled_failure _ _ _ _ Hx), app_nil_r.
    by rewrite (Permutation_app_comm _ [_]).
  - split; [apply HN|]. eapply rewritten; [done|done|done|]. by rewrite delete_id.
Qed.
(** A lease that ends. *)
Lemma hwp_end {A} c (m : WM A) x Q E :
  (∀ w, live_in w x → run_call c w = after m w) → ended c = [name x] → (∀ a, Q a []) → hwp (on_world m) [x] Q E.
Proof.
  intros Hc He HQ. apply hwp_world. intros s Hs. assert (live_in (sh_world s) x) as Hx by (apply Hs; set_solver).
  specialize (Hc _ Hx). unfold after in Hc.
  assert (∀ w', run_call c (sh_world s) = Some w' → sound (s <| sh_world := w' |>) [] ∧ passes nw s (s <| sh_world := w' |>) [x] []) as H.
  { intros w' Hw'. eapply sound_call; [done|done| |].
    - rewrite He. intros i ->%list_elem_of_singleton. exists x. split; [done|by left].
    - split; [by intros y ?%elem_of_nil|constructor|by intros y ?%elem_of_nil]. }
  destruct (m (sh_world s)) as [[a|e|] w']; [..|done]; destruct (H _ Hc) as [Hs' Hpass]; exists []; auto.
Qed.
Lemma hwp_take {A} c (m : WM (option N)) (Q : error + option N → list lease → Prop) E (make : N → A → lease) :
  (∀ w, run_call c w = after m w) → ended c = [] →
  (∀ w, world_reachable w → match m w with
     | (Ok (Some i), w') => ∃ l, live_in w' (make i l) ∧ ¬ live_in w (make i l)
     | _ => True end) →
  (∀ e, Q (inl e) []) → Q (inr None) [] → (∀ i l, Q (inr (Some i)) [make i l]) → hwp (on_world m) [] Q E.
Proof.
  intros Hc He Hm HE HN HS. apply hwp_world. intros s Hs. specialize (Hm _ (so_world _ _ _ Hs)). specialize (Hc (sh_world s)).
  unfold after in Hc.
  assert (∀ w' h', run_call c (sh_world s) = Some w' → (∀ x, x ∈ h' → live_in w' x ∧ ¬ live_in (sh_world s) x) → NoDup h' →
    sound (s <| sh_world := w' |>) h' ∧ passes nw s (s <| sh_world := w' |>) [] h') as H.
  { intros w' h' Hw' Hh Hnd. eapply sound_call; [done|done| |].
    - rewrite He. by intros i ?%elem_of_nil.
    - split; [|done|]; intros x Hx; [by apply Hh|right; by apply Hh]. }
  assert (∀ w', run_call c (sh_world s) = Some w' → sound (s <| sh_world := w' |>) [] ∧ passes nw s (s <| sh_world := w' |>) [] []) as H0.
  { intros w' Hw'. apply H; [done|by intros x ?%elem_of_nil|constructor]. }
  destruct (m (sh_world s)) as [[[i|]|e|] w']; [|exists []; destruct (H0 _ Hc); auto..|done].
  destruct Hm as (l & Hl & Hn). exists [make i l]. destruct (H w' [make i l] Hc) as [Hs' Hpass]; [|apply NoDup_singleton|auto].
  by intros x ->%list_elem_of_singleton.
Qed.
(** The value a table replaces is dropped. *)
Lemma replaced s s' c f h h' x :
  sound s h → world_reachable (sh_world s') → spares [name x] (sh_world s) (sh_world s') → tables nw s' c f →
  x :: tabled_in c f ++ h' ≡ₚ tabled nw s ++ h → sound s' h' ∧ passes nw s s' h h'.
Proof.
  intros Hs Hw Hsp Ht Hp. assert (∀ y, y ∈ tabled_in c f ++ h' → y ∈ tabled nw s ++ h) as Hin by (intros y; rewrite <- Hp; by right).
  assert (x ∈ tabled nw s ++ h) as Hx by (rewrite <- Hp; left).
  apply (transfer nw s s' c f h h' [name x] []); try done.
  - rewrite <- Hp. by apply submseteq_cons.
  - constructor.
  - by intros y ?%elem_of_nil.
  - intros y Hy. eapply live_spared; [done|by apply Hs, Hin|]. intros He%list_elem_of_singleton.
    rewrite (live_name (sh_world s) y x) in Hy; [|by apply Hs, Hin|by apply Hs|done].
    pose proof (so_nodup _ _ _ Hs) as Hnd. rewrite <- Hp in Hnd. by apply NoDup_cons in Hnd as [].
  - intros i ->%list_elem_of_singleton. by exists x.
Qed.
Lemma dropped_call c (m : WM unit) s :
  (∀ w, live_in w c.2 → run_call c.1 w = after m w) → ended c.1 = [name c.2] → world_reachable (sh_world s) →
  sh_poisoned s = false → live_in (sh_world s) c.2 →
  let '(o, s') := locked m s in
  sh_poisoned s' = true ∨ is_panic o = false ∧ world_reachable (sh_world s') ∧ spares [name c.2] (sh_world s) (sh_world s') ∧
    sh_cells s' = sh_cells s.
Proof.
  intros Hc He Hr Hp Hx. specialize (Hc _ Hx). unfold locked, after in *. rewrite Hp.
  assert (∀ w', run_call c.1 (sh_world s) = Some w' → world_reachable w' ∧ spares [name c.2] (sh_world s) w') as H.
  { intros w' Hw'. split; [by eapply reachable_call|]. rewrite <- He. by eapply call_effect. }
  destruct (m (sh_world s)) as [[a|e|] w']; [..|by left]; right; destruct (H _ Hc); by split_and!.
Qed.
Lemma token_inserted {V} (e : V → N) i l (t : gmap N (N * V)) :
  (∀ k i l, t !! k = Some (i, l) → e l = k) → ∀ k i' l', <[e l := (i, l)]> t !! k = Some (i', l') → e l' = k.
Proof. intros Ht k i' l' [[<- [= <- <-]]|[_ H]]%lookup_insert_Some; [done|by eapply Ht]. Qed.
Lemma hwp_insert_claim i l (Q : unit → list lease → Prop) E :
  Q tt [] → hwp (NativeWorlds.on_claims nw (inserting drop_delivery (lease_event l) (i, l))) [inl (i, l)] Q E.
Proof.
  intros HQ. apply (hwp_under _ _ _ _ (claims_in nw)); [by intros s ?%look_claims|]. intros s Hp Hs.
  pose proof (ta_token _ _ _ _ (so_tables _ _ _ Hs)) as Htok. unfold inserting. set (token := lease_event l).
  assert (∀ t, tabled_in (<[token:=(i, l)]> t) (failures_in nw s) ≡ₚ inl (i, l) :: tabled_in (delete token t) (failures_in nw s)) as Htab.
  { intros t. rewrite (tabled_claim _ _ token (i, l)) by apply lookup_insert_eq. by rewrite delete_insert_eq. }
  destruct (claims_in nw s !! token) as [[old l0]|] eqn:Hold.
  - assert (inl (old, l0) ∈ tabled nw s) as Hin by (unfold tabled; rewrite (tabled_claim _ _ _ _ Hold); left).
    pose proof (dropped_call (CDropDelivery old, inl (old, l0)) (drop_delivery old) s) as Hd. destruct (locked (drop_delivery old) s) as [o s'].
    destruct Hd as [?|(Ho & Hr & Hsp & Hcells)]; [|done|apply Hs|done|apply Hs, elem_of_app; by left|by left|].
    { intros w Hw. cbn. unfold owning. by rewrite bool_decide_true by (simpl in Hw; eauto). }
    right. rewrite Ho. eexists tt, []. split; [done|]. split; [done|].
    eapply (replaced _ _ _ (failures_in nw s) _ _ (inl (old, l0))); [done|done|done|by eapply claims_written, token_inserted|].
    rewrite app_nil_r, Htab. unfold tabled. rewrite (tabled_claim _ _ _ _ Hold), (Permutation_app_comm _ [_]). apply Permutation_swap.
  - right. eexists tt, []. split; [done|]. split; [done|].
    eapply rewritten; [done|done|by eapply claims_written, token_inserted|].
    rewrite app_nil_r, Htab, delete_id by done. by rewrite (Permutation_app_comm _ [_]).
Qed.
Lemma hwp_insert_failure i l (Q : unit → list lease → Prop) E :
  Q tt [] →
  hwp (NativeWorlds.on_failures nw (inserting Supervision.drop_failure (fr_sequence (nt_failure (fl_notification l))) (i, l)))
    [inr (i, l)] Q E.
Proof.
  intros HQ. apply (hwp_under _ _ _ _ (failures_in nw)); [by intros s ?%look_failures|]. intros s Hp Hs.
  pose proof (ta_failure_token _ _ _ _ (so_tables _ _ _ Hs)) as Htok. unfold inserting.
  set (event := λ l, fr_sequence (nt_failure (fl_notification l))) in *. change (fr_sequence _) with (event l). set (token := event l).
  assert (∀ t, tabled_in (claims_in nw s) (<[token:=(i, l)]> t) ≡ₚ inr (i, l) :: tabled_in (claims_in nw s) (delete token t)) as Htab.
  { intros t. rewrite (tabled_failure _ _ token (i, l)) by apply lookup_insert_eq. by rewrite delete_insert_eq. }
  destruct (failures_in nw s !! token) as [[old l0]|] eqn:Hold.
  - assert (inr (old, l0) ∈ tabled nw s) as Hin by (unfold tabled; rewrite (tabled_failure _ _ _ _ Hold); left).
    pose proof (dropped_call (CDropFailure old, inr (old, l0)) (Supervision.drop_failure old) s) as Hd.
    destruct (locked (Supervision.drop_failure old) s) as [o s'].
    destruct Hd as [?|(Ho & Hr & Hsp & Hcells)]; [|done|apply Hs|done|apply Hs, elem_of_app; by left|by left|].
    { intros w Hw. cbn. unfold owning. by rewrite bool_decide_true by (simpl in Hw; eauto). }
    right. rewrite Ho. eexists tt, []. split; [done|]. split; [done|].
    eapply (replaced _ _ (claims_in nw s) _ _ _ (inr (old, l0))); [done|done|done| |].
    + eapply failures_written; [done..|]. by apply (token_inserted event).
    + rewrite app_nil_r, Htab. unfold tabled. rewrite (tabled_failure _ _ _ _ Hold), (Permutation_app_comm _ [_]). apply Permutation_swap.
  - right. eexists tt, []. split; [done|]. split; [done|]. eapply rewritten; [done|done| |].
    + eapply failures_written; [done..|]. by apply (token_inserted event).
    + rewrite app_nil_r, Htab, delete_id by done. by rewrite (Permutation_app_comm _ [_]).
Qed.
Lemma hwp_look {A} (f : Shared → A) h (Q : A → list lease → Prop) E :
  (∀ s, sound s h → Q (f s) h) → hwp (do (Atomic (λ s, (f s, s)))) h Q E.
Proof.
  intros HQ s Hp Hs. right. exists h. destruct (transfer_still nw s s h) as [Hs' Hpass]; [done|apply Hs|by apply spares_same|done..|].
  split; [done|]. split; [done|]. by apply HQ.
Qed.
Lemma claim_fresh r w :
  world_reachable w →
  match claim r w with
  | (Ok (Some i), w') => ∃ l, live_in w' (inl (i, l)) ∧ ¬ live_in w (inl (i, l))
  | _ => True
  end.
Proof.
  intros Hw. pose proof (claim_leases (w_leases w) (w_failure_leases w) (w_next_handle w) r w) as Ht.
  destruct (claim r w) as [[[i|]|e|] w']; try done. destruct Ht as [Hn [l [= Hl _]]]; [by split|]. exists l. simpl.
  rewrite Hl, lookup_insert_eq. split; [done|]. destruct (hd_fresh _ _ (reachable_hands _ Hw) i Hn) as (-> & _). done.
Qed.
Lemma claim_failure_fresh r w :
  world_reachable w →
  match Supervision.claim_failure r w with
  | (Ok (Some i), w') => ∃ l, live_in w' (inr (i, l)) ∧ ¬ live_in w (inr (i, l))
  | _ => True
  end.
Proof.
  intros Hw. pose proof (claim_failure_leases (w_leases w) (w_failure_leases w) (w_next_handle w) r w) as Ht.
  destruct (Supervision.claim_failure r w) as [[[i|]|e|] w']; try done. destruct Ht as [Hn [l [= _ Hl]]]; [by split|]. exists l. simpl.
  rewrite Hl, lookup_insert_eq. split; [done|]. destruct (hd_fresh _ _ (reachable_hands _ Hw) i Hn) as (_ & _ & -> & _). done.
Qed.
(** Programs that leave with no lease in hand, as they came. *)
Definition tidy {A} (p : prog A) : Prop := hwp p [] (λ _ h, h = []) (λ _ h, h = []).
Lemma tidy_harmless {A} (p : prog A) : harmless p → tidy p.
Proof. intros Hp. by apply Hp. Qed.
Lemma tidy_bind {A B} (m : prog A) (k : A → prog B) : tidy m → (∀ a, tidy (k a)) → tidy (pbind m k).
Proof. intros Hm Hk. apply hwp_bind. eapply hwp_mono; [| |exact Hm]; [|done]. intros a h ->. apply Hk. Qed.
Lemma tidy_caught {A} (m : prog A) : tidy m → tidy (caught m).
Proof. intros Hm. eapply hwp_mono; [| |eapply hwp_caught, Hm]; [|exact (λ _ _ H, H)]. by intros [] ?. Qed.
Lemma tidy_loop {S A} (body : S → prog (S + A)) s : (∀ s, tidy (body s)) → tidy (loop body s).
Proof. intros Hb. exists (λ _ h, h = []). split; [done|]. intros s' h ->. eapply hwp_mono; [| |apply Hb]; [|done]. by intros [] ?. Qed.
Lemma hwp_after_harmless {A B} (m : prog A) (k : A → prog B) h Q E :
  harmless m → (∀ a, hwp (k a) h Q E) → (∀ why, E why h) → hwp (pbind m k) h Q E.
Proof. intros Hm Hk HE. apply hwp_bind. by apply Hm. Qed.

(** ** The methods *)
#[local] Hint Resolve plain_structured plain_state plain_component plain_cutoff plain_next plain_report plain_gets
  plain_history plain_port plain_require plain_links : plain.
Ltac writes := apply harmless_write; intros ?; repeat case_match;
  first [by left|right; eexists _, _, _; split_and!; [reflexivity|eassumption|reflexivity]].
Lemma harmless_entry : harmless (NativeWorlds.entry nw).
Proof. unfold NativeWorlds.entry, entry_of. writes. Qed.
Lemma plain_now : plain now.
Proof. plain_as CNow. Qed.
Lemma harmless_now : harmless world_now.
Proof.
  apply harmless_shared. intros s h Hs. pose proof (plain_now _ (so_world _ _ _ Hs)) as H. unfold now in H.
  destruct (Clocks.now _) as [t c]. simpl in *. destruct H as [? ?]. by split_and!.
Qed.
Lemma remove_stored_delete id l : remove_stored id l = l ∨ ∃ i, remove_stored id l = delete i l.
Proof.
  induction l as [|s l IH]; [by left|]. cbn [remove_stored]. destruct (stored_id s =? id)%N; [right; by exists 0|].
  destruct IH as [->|[i ->]]; [by left|]. right. by exists (S i).
Qed.
Lemma harmless_drop held : harmless (drop_stored held).
Proof.
  apply harmless_shared. intros s h [Hw _ _ _]. cbn. generalize dependent (sh_world s). intros w Hw.
  destruct (remove_stored_delete (stored_id (held_stored held)) (w_held w)) as [Hi|[i Hi]].
  - change (w <| w_held ::= _ |>) with (w <| w_held := remove_stored (stored_id (held_stored held)) (w_held w) |>). rewrite Hi.
    assert (w <| w_held := w_held w |> = w) as -> by (by destruct w). by split_and!; [|apply spares_same|..].
  - change (w <| w_held ::= _ |>) with (w <| w_held := remove_stored (stored_id (held_stored held)) (w_held w) |>). rewrite Hi.
    destruct (plain_call (CDropHeld i) (drop_held i) eq_refl eq_refl w Hw) as [? ?]. by split_and!.
Qed.
#[local] Hint Resolve harmless_entry harmless_now harmless_drop : harmless.
Ltac harmless_step :=
  match goal with
  | |- harmless (pbind _ _) => apply harmless_bind; [|intros ?]
  | |- harmless (rbind _ _) => apply harmless_rbind; [|intros ?]
  | |- harmless (Ret _) => apply harmless_ret
  | |- harmless (Halt _) => apply harmless_halt
  | |- harmless (match ?c with _ => _ end) => destruct c
  | |- harmless (on_world (match ?c with _ => _ end)) => destruct c
  | |- harmless (on_world _) => apply harmless_world; first [plain|solve [eauto with plain nocore]]
  | |- harmless (do (Atomic (λ s, (_, s)))) => apply harmless_look
  | |- harmless (do _) => by apply harmless_act
  | |- harmless (do (Atomic _)) => writes
  | |- harmless (caught _) => apply harmless_caught
  | |- harmless (Spawn _ _) => apply harmless_spawn
  | |- harmless (loop _ _) => apply harmless_loop; intros ?
  | |- harmless _ => solve [eauto with harmless nocore]
  | |- harmless ?m => let h := head_of m in unfold h
  end.
Ltac harmless := repeat harmless_step.
Lemma harmless_slot {A} (a : A) f : harmless (on_slot nw a f).
Proof.
  apply harmless_write. intros s. destruct (sh_cells s !! nw_runtime nw) as [[]|] eqn:Hc; try by left.
  destruct (f slot) as [b m]. right. by eexists _, _, _; split_and!.
Qed.
#[local] Hint Resolve harmless_slot : harmless.
Lemma harmless_actors actors : harmless (RuntimeMethods.actor_dicts actors).
Proof. induction actors as [|a actors IH]; cbn [RuntimeMethods.actor_dicts]; harmless; exact IH. Qed.
#[local] Hint Resolve harmless_actors : harmless.
Section methods.
Context {V : Type} `{!PyApi V} (grown : nat → N).
Implicit Types (values : V) (options : option V) (descriptors : list V).
Lemma harmless_find_claim token : harmless (NativeWorlds.find_claim nw token).
Proof. apply harmless_claims. intros t s. by eexists. Qed.
#[local] Hint Resolve harmless_find_claim : harmless.
Lemma harmless_options options claim_token : harmless (NativeWorlds.message_options nw options claim_token).
Proof. harmless. Qed.
Lemma harmless_payload kind values schema : harmless (NativeWorlds.payload_of grown nw kind values schema).
Proof. harmless. Qed.
Lemma harmless_deadline ms : harmless (deadline_in ms).
Proof. harmless. Qed.
Lemma harmless_parse descriptors : harmless (NativeWorlds.parse_all descriptors).
Proof. induction descriptors as [|d descriptors IH]; cbn [NativeWorlds.parse_all]; harmless; exact IH. Qed.
Lemma harmless_drop_all held : harmless (NativeWorlds.drop_all held).
Proof. induction held as [|x held IH]; cbn [NativeWorlds.drop_all foldr]; harmless; exact IH. Qed.
#[local] Hint Resolve harmless_options harmless_payload harmless_deadline harmless_parse harmless_drop_all : harmless.

(** A completion is published with the table locked, on a lease that is in it. *)
Lemma harmless_completion token source p o :
  harmless (NativeWorlds.on_claims nw (λ t s, match t !! token with
    | None => ((Ok (inl (PyRuntimeError "unknown claim")), t), s)
    | Some (h, _) =>
        let '(r, s) := locked (Ports.delivery_publish_port h source p o) s in
        ((match r with Ok ticket => Ok (inr ticket) | Err e => Ok (inl (runtime_error e)) | Panic => Panic end, t), s)
    end)).
Proof.
  intros h Q E HQ HE. apply (hwp_under _ _ _ _ (claims_in nw)); [by intros s ?%look_claims|]. intros s Hp Hs.
  assert (∀ s', world_reachable (sh_world s') → spares [] (sh_world s) (sh_world s') → sh_cells s' = sh_cells s →
    let s' := write_cell (nw_claims nw) (Claims (MkMutex false (claims_in nw s))) s' in sound s' h ∧ passes nw s s' h h) as Hend.
  { intros s' Hr Hsp Hc. pose proof (ta_claims _ _ _ _ (so_tables _ _ _ Hs)) as Ht. apply transfer_still; try done; simpl; rewrite Hc.
    - by rewrite lookup_insert_eq.
    - rewrite lookup_insert_ne; [done|by eapply apart]. }
  destruct (claims_in nw s !! token) as [[i l]|] eqn:Hi; [|right; eexists _, h; split; [done|]; split; [apply HQ|];
    apply Hend; [apply Hs|by apply spares_same|done]].
  assert (live_in (sh_world s) (inl (i, l))) as Hl by (apply Hs, elem_of_app; left; unfold tabled; rewrite (tabled_claim _ _ _ _ Hi); left).
  assert (run_call (CDeliveryPublishPort i source p o) (sh_world s) = after (Ports.delivery_publish_port i source p o) (sh_world s)) as Hc.
  { cbn. unfold owning. by rewrite bool_decide_true by (simpl in Hl; eauto). }
  unfold locked, after in *. rewrite Hp.
  assert (∀ w', run_call (CDeliveryPublishPort i source p o) (sh_world s) = Some w' → world_reachable w' ∧ spares [] (sh_world s) w') as H.
  { intros w' Hw'. split; [eapply reachable_call; [apply Hs|done]|]. by apply (call_effect _ _ _ (so_world _ _ _ Hs) Hw'). }
  destruct (Ports.delivery_publish_port i source p o (sh_world s)) as [[a|e|] w']; [..|by left]; right; eexists _, h;
    (split; [done|]); (split; [apply HQ|]); destruct (H _ Hc); by apply Hend.
Qed.
#[local] Hint Resolve harmless_completion : harmless.
Lemma harmless_publish source kind values schema claim_token options :
  harmless (NativeWorlds.publish_port grown nw source kind values schema claim_token options).
Proof. harmless. Qed.
Lemma harmless_metadata token : harmless (NativeWorlds.claim_metadata nw token).
Proof. unfold NativeWorlds.claim_metadata. apply harmless_bind; [apply harmless_entry|intros _]. apply harmless_claims. intros t s. by eexists. Qed.
(** A claim is in the table when the method returns it. *)
Lemma tidy_claim reference : tidy (NativeWorlds.claim nw reference).
Proof.
  unfold NativeWorlds.claim. apply hwp_after_harmless; [apply harmless_entry|intros _|done]. apply hwp_bind, hwp_bind.
  apply (hwp_take (CClaim (actor reference)) _ _ _ (λ i l, inl (i, l))); [done|done|apply claim_fresh|done|done|].
  intros i l0. cbn [Custody.hwp]. cbv beta iota. apply hwp_bind, (hwp_look (λ s, w_leases (sh_world s) !! i)). intros s Hs.
  assert (w_leases (sh_world s) !! i = Some l0) as -> by (apply (so_live _ _ _ Hs (inl (i, l0))), elem_of_app; right; by left).
  cbv zeta beta iota. destruct (payload_fields _) as [e|[[kind values] schema]].
  - apply hwp_bind, hwp_bind, (hwp_end (CDropDelivery i)); [|done|done]. intros w Hw. cbn. unfold owning.
    by rewrite bool_decide_true by (simpl in Hw; eauto).
  - apply hwp_bind, hwp_insert_claim. done.
Qed.
Lemma tidy_finish token success : tidy (NativeWorlds.finish nw token success).
Proof.
  unfold NativeWorlds.finish. apply hwp_after_harmless; [apply harmless_entry|intros _|done]. apply hwp_bind, hwp_remove_claim; [done|].
  intros [i l]. apply hwp_bind, (hwp_end (CFinishDelivery i success)); [|done|done]. intros w Hw. cbn. unfold owning.
  by rewrite bool_decide_true by (simpl in Hw; eauto).
Qed.
Lemma tidy_claim_failure supervisor : tidy (NativeWorlds.claim_failure nw supervisor).
Proof.
  unfold NativeWorlds.claim_failure. apply hwp_after_harmless; [apply harmless_entry|intros _|done]. apply hwp_bind, hwp_bind.
  apply (hwp_take (CClaimFailure (actor supervisor)) _ _ _ (λ i l, inr (i, l))); [done|done|apply claim_failure_fresh|done|done|].
  intros i l0. cbn [Custody.hwp]. cbv beta iota. apply hwp_bind, (hwp_look (λ s, w_failure_leases (sh_world s) !! i)). intros s Hs.
  assert (w_failure_leases (sh_world s) !! i = Some l0) as -> by (apply (so_live _ _ _ Hs (inr (i, l0))), elem_of_app; right; by left).
  by apply hwp_bind, hwp_insert_failure.
Qed.
Lemma tidy_finish_failure token action : tidy (NativeWorlds.finish_failure nw token action).
Proof.
  unfold NativeWorlds.finish_failure. apply hwp_after_harmless; [apply harmless_entry|intros _|done]. apply tidy_bind.
  { apply tidy_harmless. harmless. }
  intros [e|a]; [done|]. apply hwp_bind, hwp_remove_failure; [done|]. intros [i l]. apply hwp_bind.
  apply (hwp_end (CFinishFailure i a)); [|done|by intros []]. intros w Hw. cbn. unfold owning.
  by rewrite bool_decide_true by (simpl in Hw; eauto).
Qed.

(** The methods Python can call, but for those that start native work. *)
Inductive method : ∀ {A}, prog A → Prop :=
| m_allocate python parent : method (NativeWorlds.allocate nw python parent)
| m_register_schemas descriptors : method (NativeWorlds.register_schemas nw descriptors)
| m_activate reference : method (NativeWorlds.activate nw reference)
| m_state reference : method (NativeWorlds.state nw reference)
| m_ready_cutoff : method (NativeWorlds.ready_cutoff nw)
| m_ready_next phase after through : method (NativeWorlds.ready_next nw phase after through)
| m_stop reference : method (NativeWorlds.stop nw reference)
| m_cancel_all : method (NativeWorlds.cancel_all nw)
| m_stop_report reference : method (NativeWorlds.stop_report nw reference)
| m_finish_python reference : method (NativeWorlds.finish_python nw reference)
| m_drain reference ms : method (NativeWorlds.drain nw reference ms)
| m_drain_all ms : method (NativeWorlds.drain_all nw ms)
| m_send reference kind values schema options token :
    method (NativeWorlds.send grown nw reference kind values schema options token)
| m_subscribe source target : method (NativeWorlds.subscribe nw source target)
| m_unsubscribe token : method (NativeWorlds.unsubscribe nw token)
| m_request owner target kind values schema ms options token :
    method (NativeWorlds.request grown nw owner target kind values schema ms options token)
| m_reply id target kind values schema options : method (NativeWorlds.reply grown nw id target kind values schema options)
| m_operation_status id : method (NativeWorlds.operation_status nw id)
| m_take_operation id : method (NativeWorlds.take_operation nw id)
| m_cancel_operation id : method (NativeWorlds.cancel_operation nw id)
| m_diagnostics after limit : method (NativeWorlds.diagnostics nw after limit)
| m_claim reference : method (NativeWorlds.claim nw reference)
| m_claim_metadata token : method (NativeWorlds.claim_metadata nw token)
| m_finish token success : method (NativeWorlds.finish nw token success)
| m_report_failure reference phase handler type frames action event schema operation truncated :
    method (NativeWorlds.report_failure nw reference phase handler type frames action event schema operation truncated)
| m_claim_failure supervisor : method (NativeWorlds.claim_failure nw supervisor)
| m_finish_failure token action : method (NativeWorlds.finish_failure nw token action)
| m_register_component owner d : method (NativeWorlds.register_component nw owner d)
| m_component owner : method (NativeWorlds.component nw owner)
| m_require_interface owner d : method (NativeWorlds.require_interface nw owner d)
| m_register_service name target d : method (NativeWorlds.register_service nw name target d)
| m_acquire_service owner name d expected : method (NativeWorlds.acquire_service nw owner name d expected)
| m_service_request scope owner service port kind values schema ms options token :
    method (NativeWorlds.service_request grown nw scope owner service port kind values schema ms options token)
| m_service_link scope owner service output target : method (NativeWorlds.service_link nw scope owner service output target)
| m_release_service scope owner service : method (NativeWorlds.release_service nw scope owner service)
| m_find_port owner name : method (NativeWorlds.find_port nw owner name)
| m_link owner source target : method (NativeWorlds.link nw owner source target)
| m_send_port target kind values schema options token :
    method (NativeWorlds.send_port grown nw target kind values schema options token)
| m_publish_port source kind values schema token options :
    method (NativeWorlds.publish_port grown nw source kind values schema token options)
| m_source ticket : method (Tickets.source ticket)
| m_status ticket : method (Tickets.status ticket)
| m_report ticket : method (Tickets.report ticket)
| m_cpu_stats : method (RuntimeMethods.cpu_stats nw)
| m_elapsed_ns : method RuntimeMethods.elapsed_ns
| m_wait ms : method (RuntimeMethods.wait nw ms)
| m_test_pending : method (RuntimeMethods.test_pending nw)
| m_test_complete id kind values schema : method (RuntimeMethods.test_complete grown nw id kind values schema)
| m_snapshot control routing : method (RuntimeMethods.snapshot nw control routing)
| m_close ms : method (RuntimeMethods.close nw ms)
| m_listener_connections l : method (RuntimeMethods.listener_connections nw l)
| m_listener_stats l : method (RuntimeMethods.listener_stats nw l)
| m_counter_stats p : method (RuntimeMethods.counter_stats nw p)
| m_component_stats c : method (RuntimeMethods.component_stats nw c).
Lemma harmless_register descriptors : harmless (NativeWorlds.register_schemas nw descriptors).
Proof. harmless. Qed.
#[local] Hint Resolve harmless_publish harmless_metadata harmless_register : harmless.
Lemma tidy_method {A} (p : prog A) : method p → tidy p.
Proof.
  destruct 1; first [apply tidy_claim|apply tidy_finish|apply tidy_claim_failure|apply tidy_finish_failure|apply tidy_harmless; solve [harmless]].
Qed.
(** What a thread of Python runs: the code between the calls is any, a loop need not
    end, and an exception may be caught. *)
Inductive script : ∀ {A}, prog A → Prop :=
| sc_method {A} (p : prog A) : method p → script p
| sc_return {A} (a : A) : script (Ret a)
| sc_then {A B} (m : prog A) (k : A → prog B) : script m → (∀ a, script (k a)) → script (pbind m k)
| sc_loop {S A} (body : S → prog (S + A)) s : (∀ s, script (body s)) → script (loop body s)
| sc_caught {A} (m : prog A) : script m → script (caught m).
Lemma tidy_script {A} (p : prog A) : script p → tidy p.
Proof.
  induction 1; eauto using tidy_method, tidy_bind, tidy_loop, tidy_caught. by apply tidy_harmless, harmless_ret.
Qed.
End methods.
End rules.
