(* ===== verification/PyCustody.v ===== *)
(** * Claims of Python, along a run

    From [NativeWorld::new] on, threads of Python call the methods of a [NativeWorld] in
    any order while native code does what it does: the tables of claims are in order
    ([claims_custody]), and one thread is enough to claim and finish ([sample_claim]). *)
From S2P Require Import Prelude Collections Text Types Metadata Schema Routing Expiry Readiness Operations.
From S2P Require Import Diagnostics Publications SchemaRegistry Activity WorldState Admission Publishing Actors.
From S2P Require Import Messaging Components Views Steps WorldFrames WorldSteps ActorSteps MessageSteps WorldRuns WorldSlots.
From S2P Require Import Handles HandleRuns Leases.
From S2P Require Import NativeConfig.
From S2P Require Import NativeState.
From S2P Require Import Native.
From S2P Require Import NativeLogic.
From S2P Require Import Cpu.
From S2P Require Import Tasks.
From S2P Require Import NativeRuns.
From S2P Require Import PyObjects.
From S2P Require Import PyWorld.
From S2P Require Import PyRuntime.
From S2P Require Import Custody.
From S2P Require Import PyClaims.

Lemma new_sound world_id clock entries a rt nw :
  NewWorld.new world_id clock entries a = Ok (rt, nw) →
  sh_poisoned (rt_shared rt) = false ∧ sound nw (rt_shared rt) [].
Proof.
  unfold NewWorld.new. intros Hnew. do 2 (case_match; [discriminate Hnew|]).
  destruct (with_clock world_id (NewWorld.ar_config a) clock) as [w|e|] eqn:Hw; [|discriminate Hnew..].
  unfold Runtimes.new in Hnew. repeat (case_match; try discriminate Hnew; try (simplify_eq; done)). simplify_eq.
  split; [done|]. set (s := rt_shared _). assert (tabled (NewWorld.handles a) s = []) as Htab by reflexivity. split.
  - by exists world_id, (NewWorld.ar_config a), clock, w, [].
  - by split.
  - rewrite Htab. by intros x ?%elem_of_nil.
  - rewrite Htab. constructor.
Qed.

(** C3. Python's claims are exactly leases.  Whatever scripts the threads of Python run
    against a new [NativeWorld], and whatever native code does with its own leases in
    between, in every interleaving: as long as no one has panicked inside the World's
    lock, neither table is poisoned; every token in the table of claims names a live
    delivery of the event with that number, which native code does not hold, and likewise
    for failures; no two tokens stand for work of the same actor; and both tables
    together hold at most as many leases as the World may have actors. *)
Theorem claims_custody `{!PyApi V} grown world_id clock entries a rt nw scripts ts r d :
  NewWorld.new world_id clock entries a = Ok (rt, nw) →
  Forall (script nw grown) scripts → rtc (bridge_step nw) (scripts, rt, []) (ts, r, d) →
  let s := rt_shared r in let w := sh_world s in
  sh_poisoned s = true ∨ ∃ claims failures,
    sh_cells s !! nw_claims nw = Some (Claims (MkMutex false claims)) ∧
    sh_cells s !! nw_failure_claims nw = Some (FailureClaims (MkMutex false failures)) ∧
    (∀ token h l, claims !! token = Some (h, l) →
       w_leases w !! h = Some l ∧ lease_event l = token ∧ inl (h, l) ∉ d) ∧
    (∀ token h l, failures !! token = Some (h, l) →
       w_failure_leases w !! h = Some l ∧ fr_sequence (nt_failure (fl_notification l)) = token ∧ inr (h, l) ∉ d) ∧
    (∀ x y, x ∈ tabled_in claims failures → y ∈ tabled_in claims failures → busy_with x = busy_with y → x = y) ∧
    (N.of_nat (size claims + size failures) ≤ max_actors (w_cfg w))%N.
Proof.
  intros Hnew Hscripts Hrun. destruct (new_sound _ _ _ _ _ _ Hnew) as [_ Hs0].
  assert (custody nw (scripts, rt, [])) as Hc0.
  { right. exists ((λ _, []) <$> scripts). split.
    - apply Forall2_fmap_r, Forall_Forall2_diag. eapply Forall_impl; [exact Hscripts|]. intros p Hp.
      eapply hwp_mono; [| |eapply tidy_script, Hp]; done.
    - assert (concat ((λ _ : prog (), []) <$> scripts) = ([] : list lease)) as -> by (clear; by induction scripts).
      exact Hs0. }
  assert (custody nw (ts, r, d)) as Hc.
  { clear Hscripts. revert Hc0. induction Hrun as [|b1 b2 b3 Hst _ IH]; [done|]. intros Hb. by eapply IH, custody_step. }
  destruct Hc as [?|(hs & _ & Hs)]; [by left|]. right. pose proof (so_tables _ _ _ Hs) as Ht.
  assert (NoDup (tabled nw (rt_shared r))) as Hnd by (pose proof (so_nodup _ _ _ Hs) as H; by apply NoDup_app in H as [? _]).
  assert (∀ x, x ∈ tabled nw (rt_shared r) → live_in (sh_world (rt_shared r)) x ∧ x ∉ d) as Htab.
  { intros x Hx. split; [apply Hs, elem_of_app; by left|]. intros Hd. pose proof (so_nodup _ _ _ Hs) as H.
    apply NoDup_app in H as (_ & H & _). apply (H _ Hx), elem_of_app. by left. }
  exists (claims_in nw (rt_shared r)), (failures_in nw (rt_shared r)). split_and!; [apply Ht..| | | |].
  - intros token h l Hl. destruct (Htab (inl (h, l))) as [Hlive Hd]; [|by split_and!; [|apply (ta_token _ _ _ _ Ht token h)|]].
    unfold tabled. rewrite (tabled_claim _ _ _ _ Hl). left.
  - intros token h l Hl. destruct (Htab (inr (h, l))) as [Hlive Hd]; [|by split_and!; [|apply (ta_failure_token _ _ _ _ Ht token h)|]].
    unfold tabled. rewrite (tabled_failure _ _ _ _ Hl). left.
  - intros x y Hx Hy. apply (live_exclusive (sh_world (rt_shared r))); [apply reachable_hands, Hs|by apply Htab..].
  - etrans; [|apply (live_bound _ (tabled nw (rt_shared r))); [apply Hs|by intros x []%Htab|done]].
    unfold tabled, tabled_in. rewrite length_app, !length_fmap, !length_map_to_list. lia.
Qed.

(** ** A run *)
Definition sample_arguments : NewWorld.arguments := NewWorld.MkArguments config_default 256 2 32.
Definition sample_script (nw : NativeWorld) : prog unit :=
  do! r := NativeWorlds.allocate nw true None in
  match r with
  | inl _ => Ret tt
  | inr h =>
      NativeWorlds.activate nw h ;;>
      NativeWorlds.send (V:=object) (λ n, N.of_nat n) nw h "pulse" (OList [OInt 7]) 0 None None ;;>
      NativeWorlds.claim nw h ;;>
      Ret tt
  end.
Lemma sample_script_ok nw : script (V:=object) nw (λ n, N.of_nat n) (sample_script nw).
Proof.
  apply sc_then; [apply sc_method, m_allocate|]. intros [e|h]; [apply sc_return|].
  apply sc_then; [apply sc_method, m_activate|intros _]. apply sc_then; [apply sc_method, m_send|intros _].
  apply sc_then; [apply sc_method, m_claim|intros _; apply sc_return].
Qed.
Definition sample_new : option (Runtime * NativeWorld) :=
  match NewWorld.new 1 (Clocks.system 5 []) 0 sample_arguments with Ok x => Some x | _ => None end.
Definition sample_claim (rt : Runtime) (nw : NativeWorld) : machine :=
  schedule (replicate 40 (Run 0 true)) ([sample_script nw], rt).
Definition sample_tokens (x : Runtime * NativeWorld) : bool * list N :=
  let s := rt_shared (sample_claim x.1 x.2).2 in (sh_poisoned s, (map_to_list (claims_in x.2 s)).*1).
Lemma sample_tokens_of x v : sample_tokens <$> sample_new = Some v → sample_new = Some x → sample_tokens x = v.
Proof. intros Hv Hx. rewrite Hx in Hv. by injection Hv. Qed.
Lemma schedule_bridge nw choices m d : rtc (bridge_step nw) (m.1, m.2, d) ((schedule choices m).1, (schedule choices m).2, d).
Proof.
  pose proof (schedule_reachable choices m) as H. revert H. generalize (schedule choices m). intros m' H.
  induction H as [m|m1 m2 m3 H _ IH]; [done|]. etrans; [|exact IH]. apply rtc_once, bs_python.
  destruct m1, m2. exact H.
Qed.
Lemma claims_custody_witness :
  ∃ rt nw ts r, NewWorld.new 1 (Clocks.system 5 []) 0 sample_arguments = Ok (rt, nw) ∧
    rtc (bridge_step nw) ([sample_script nw], rt, []) (ts, r, []) ∧
    ∃ claims, sh_cells (rt_shared r) !! nw_claims nw = Some (Claims (MkMutex false claims)) ∧
      (map_to_list claims).*1 = [1%N] ∧ (N.of_nat (size claims) ≤ max_actors (w_cfg (sh_world (rt_shared r))))%N.
Proof.
  assert (sample_tokens <$> sample_new = Some (false, [1%N])) as Hv by (vm_compute; reflexivity).
  destruct sample_new as [[rt nw]|] eqn:Hn; [|discriminate Hv]. rewrite <- Hn in Hv.
  pose proof (sample_tokens_of _ _ Hv Hn) as Hs. apply pair_equal_spec in Hs as [Hp Ht]. clear Hv. unfold sample_new in Hn.
  destruct (NewWorld.new 1 (Clocks.system 5 []) 0 sample_arguments) as [x|e|] eqn:Hnew; [|discriminate Hn|discriminate Hn].
  assert (x = (rt, nw)) as -> by congruence. clear Hn.
  assert (rtc (bridge_step nw) ([sample_script nw], rt, []) ((sample_claim rt nw).1, (sample_claim rt nw).2, [])) as Hrun
    by exact (schedule_bridge nw (replicate 40 (Run 0 true)) ([sample_script nw], rt) []).
  cbn [fst snd] in Hp, Ht. generalize dependent (sample_claim rt nw). intros [ts r] Hp Ht Hrun. cbn [fst snd] in Hp, Ht, Hrun.
  exists rt, nw, ts, r. split; [reflexivity|]. split; [exact Hrun|].
  destruct (claims_custody (V:=object) (λ n, N.of_nat n) 1 (Clocks.system 5 []) 0 sample_arguments rt nw [sample_script nw] ts r []
    Hnew ltac:(constructor; [exact (sample_script_ok nw)|constructor]) Hrun) as [Hp'|(claims & failures & Hc & _ & _ & _ & _ & Hsize)].
  - exfalso. rewrite Hp in Hp'. discriminate Hp'.
  - exists claims. split; [exact Hc|]. unfold claims_in in Ht. rewrite Hc in Ht. split; [exact Ht|].
    etransitivity; [|exact Hsize]. clear. lia.
Defined.
